(* ===== verification/_CoqProject ===== *)
-Q . S2P
Prelude.v
PyUuid.v
Namespaces.v
AclTypes.v
AclCache.v
AclEvaluator.v
AclRefinement.v
AclWalls.v
AclGuarantees.v
AclBinding.v
AclCoherence.v
AclAuthorize.v
AclDescriptors.v
AclDelegation.v
CircuitBreaker.v
CasStore.v
KvProtocol.v
TokenBucket.v
Lease.v
LeaseExclusion.v
DistributedCounter.v
ReplayGuard.v
ReplaySystem.v
ToolSchema.v
Retention.v
Reschedule.v
JobStore.v
JobTick.v
CasMutate.v
Subjects.v
Permissions.v
PodPolicy.v
PodIsolation.v
ServiceSubjects.v
ResultDelivery.v
EpochClient.v
EpochListener.v
ExpiringRows.v
WindowedCounter.v
Denylists.v
Idempotency.v
FlushOrder.v
WriteBuffer.v
CoalescedRun.v
SourceToken.v
Keyset.v
ClientIp.v
PosixGlob.v
FileAccess.v
