(* ===== verification/Prelude.v ===== *)
(** * 3tears: a verification of its access control, its message bus and its coordination

    3tears is a Python platform of some thirty packages (under [src/packages]) for multi-tenant
    agents: collections kept in three tiers (a process cache, a NATS key-value bucket, PostgreSQL), a
    NATS message bus, tools called across it, models called through breakers, scheduled jobs,
    workspaces of files. This development models from their sources the parts whose failure costs
    most: who may do what, who may hear what, and what many processes agree on when they share a
    row, a key or a lease. It proves what those parts promise, and where they do not keep it.

    ** The parts, and how they interact

    A. _Who may do what._
    - [Namespaces.v]: the names of authorizable things ([core/namespaces.py], the sanitizer of
      [nats/subjects.py]), builders, parser and containment; each refusal is a [name_error].
      [PyUuid.v] is [uuid.UUID] on strings.
    - [AclTypes.v]: the data of access control ([agent/acl/types.py]), [AclCache.v] the evaluator's
      cache with its layers, fence and follower ([cache.py]), [AclEvaluator.v] the evaluator
      ([evaluator.py]) over the loader protocols of [loader.py] (class [Loaders]) in the state monad
      of this file.
    - [AclRefinement.v]: the interface to what it reads: the tables ([AccessTables]), the laws of
      the loaders ([LoaderLaws]), when a cache agrees with the tables ([coherent]), the reference
      evaluator [spec_answer] and the simulation. [AclGuarantees.v] reads the reference
      declaratively; [AclWalls.v] says what holds for loaders that obey no law; [AclDescriptors.v]
      what holds on a cache filled under several descriptors of one namespace.
    - [AclBinding.v]: broadcasts of changed rows turned into evictions ([access_tables.py], the
      message of [collections/registry.py], the columns of [acl/collections.py]); [AclCoherence.v]
      interleaves writers of the five access tables, readers, broadcasts and drops ([wstep]).
    - [AclAuthorize.v] and [AclDelegation.v]: the entry points ([authorize.py]) and the ceiling on
      delegated grants ([delegation.py]).
    - [PosixGlob.v] and [FileAccess.v]: the path sandbox ([core/security/sandbox.py]) with Python's
      [PurePosixPath] and [full_match], [evaluate_file_access], and the gates of a workspace
      ([agent/workspace/authorize.py]) in the order a file tool runs them ([file_tool]).
    - [ClientIp.v]: which address a request came from behind trusted proxies ([iam/clientip.py],
      with Python's [ipaddress]).

    B. _Who may hear what._
    - [Subjects.v]: every subject of the bus ([nats/subjects.py]) and the broker's matching rule;
      [Permissions.v] the resolvers of the eight principals and the allow lists of a credential
      ([subject_permissions.py], [user_jwt.py]); [PodPolicy.v] whose a subject is;
      [PodIsolation.v], [ServiceSubjects.v] and [ResultDelivery.v] ([result_delivery.py]) what
      follows for pods, services and durable answers.
    - [EpochClient.v] and [EpochListener.v]: configuration epochs, their copies and the consumers
      that reload on them ([epoch/client.py], [listener.py], [tick.py]).

    C. _What processes agree on._
    - [CasStore.v]: the bucket of [nats/kv.py] as the class [CasStore] with [CasStoreLaws];
      [KvProtocol.v] a logic of programs that await one bucket, any number at once, calls that
      raise and land late.
    - Over them [TokenBucket.v], [Lease.v] with [LeaseExclusion.v], [DistributedCounter.v],
      [ReplayGuard.v] with [ReplaySystem.v] and [CoalescedRun.v] ([core/coordination]).
    - [CasMutate.v]: [l2_cas_mutate] of [collections/base.py], a row swapped in the bucket and
      written to the database under an order; [ExpiringRows.v] the same on tables with an expiry,
      written through or behind, whose entries the bucket may drop up to a second early
      ([l2_may_drop]). Over [ExpiringRows.v], through its class [KeepsExpiry],
      [WindowedCounter.v], [Denylists.v] and [Idempotency.v].
    - [FlushOrder.v] and [WriteBuffer.v]: the write-behind buffer and its flush
      ([collections/flush.py]); [SourceToken.v] the fence on source tokens ([source_token.py]);
      [Keyset.v] reads under a silent row cap ([keyset.py], [fetch_led_by] of [backends/sql.py]).

    D. _Single parts._ [CircuitBreaker.v] ([models/circuit_breaker.py]), [ToolSchema.v]
    ([tool_schema/self_contained.py]), [Retention.v] ([backup/retention.py]), and the scheduler:
    [Reschedule.v], [JobStore.v], [JobTick.v] ([scheduled_jobs]).

    This file holds what they share: the [result] type for code that raises, Python's strings,
    integers and UUID texts as far as they are used, sorting by key, an ordered dictionary, the
    state monad with its Hoare rules and the [keeps] automation for invariants of it.

    ** What the theorems show

    - _A decision is exact._ [evaluate_decision], [evaluate_file_access] and the claims of a token
      let through exactly what chains of rows grant, on every side of the call; a batch answers what
      each question answers alone; the walk over nested groups ends on cyclic graphs; a role that
      passed the delegation check never gives more than its author had; a file tool reaches nothing
      outside the directories granted; walls hold against any loader.
    - _Caches are not silently stale._ A stale entry of the evaluator's cache, or a stale copy of an
      epoch, has a signal pending that removes it, over the interleavings [timely] and [careful]
      admit; a catch-up finds a consumer current or starts the reload that brings it there.
    - _Credentials stay home._ Whatever a pod's allow lists cover is its own, shared, or granted; no
      pod manages streams; each subject of a service is heard by exactly the services a complete
      table names; answers and audit events reach and name exactly whose they are; forged forwarding headers change no address.
    - _Shared state._ The lease excludes; swaps linearize into the database; counters lose and
      double nothing (with a TTL, double nothing); an artifact, a redemption, a claim is taken once in
      its lifetime; an occurrence of a job is fired at most once more than it was put back; a requested run
      follows its request unless a call raised; a buffered write is kept, taken or dropped for a
      reason the flush names; tokens only advance; a rate limit is exceeded only by keys forgotten
      before they refilled; a read under a row cap passes over no row.
    - _Round trips and totality._ Names and subjects parse back; schema inlining ends, with the
      properties it was given or the reference it could not resolve; the toposort of a flush and
      paged reads end.

    Theorems whose names say what goes wrong record where the code does not do what its comments
    say: [nameless_descriptor_shares_cache], [named_check_widens_the_file_gate],
    [negated_set_crosses_segments], [zero_hops_answers_the_forged_entry], [scope_ids_are_kept],
    [cancelled_bystander_frees_a_probe], [overtaken_claim_refills_twice],
    [followed_again_is_trusted], [scope_grammar_admits_newline], [early_wipe_admits_replay],
    [late_claim_admits_replay], [list_items_keep_refs], [declared_type_raises],
    [claim_overrides_pause], [first_window_slot_fires_twice],
    [daily_repeated_hour_does_not_advance], [withdrawal_loses_a_persisted_swap],
    [wipe_loses_a_persisted_swap], [failed_order_read_leaves_the_swap],
    [endpoint_usage_reaches_nobody], [second_consumer_hears_nothing],
    [failed_reload_is_not_retried], [overtaken_pass_resets], [slow_read_overwrites_a_newer_copy],
    [overtaken_advance_is_remembered], [clear_is_undone_before_its_flush],
    [wiped_redemption_is_granted_twice], [late_completion_lands_on_another_claim],
    [shared_id_is_dropped], [cancelled_flush_orphans_its_writes], [stale_ack_takes_a_newer_claim],
    [failed_run_strands_a_request], [accepted_call_is_told_a_stale_token],
    [no_empty_page_on_a_boundary], [late_descriptor_is_kept],
    [claim_is_granted_again_in_its_last_second], [slow_reload_stores_over_a_newer_one],
    [forgotten_key_over_issues].

    ** What is assumed

    - A lock-protected method is one atomic function; a coroutine is a program whose nodes are its
      awaits, interleaved with the others by a step relation, or, in the evaluator, one run on the
      cache it starts from ([AclCoherence.v] splits its reads).
    - Of the environment: one clock for the processes of a lease and of expiring rows, bounded drift
      for replay guards; a bucket that is not wiped under a lease, a counter or [steady] expiring
      rows, while [CasMutate.v] and [ReplaySystem.v] have wipes; a database that takes the write of a
      swap that won; one holding per holder; one flush of a buffer at a time; leases that do not
      lapse under a call ([kept]) for the exclusion of [CoalescedRun.v]; descriptors no older than
      the broadcasts heard ([timely]) for [AclCoherence.v]; the order of answers and broadcasts
      [careful] states for [EpochClient.v]; reloads that neither raise nor store older data over
      newer ([orderly]) for [EpochListener.v]; PostgreSQL's row lock under read committed for
      [SourceToken.v]; a key that is there and unique for [Keyset.v]; proxies that append what they
      saw for [ClientIp.v]. Each is a hypothesis of the theorem or a guard of a step, and the
      theorems above show what happens without several of them.
    - Of code outside the sources, as arguments: SHA-256 digests ([digest_token], [sha256_hex],
      [key_of]), the storage of the replay anchor ([anchor]), [str()] of a value ([str_of]), the zone
      database, [fromisoformat], croniter and random draws of [Reschedule.v].
    - [canonical]: one namespace id is described by one descriptor. File tools use two, with the name
      and without: [AclDescriptors.v] says what holds for them, [FileAccess.v] what does not.

    ** Bounds and fuel

    The nesting walk is bounded by the [max_depth] of the source, the compare-and-swap loops by the
    source's retry constants ([MAX_RETRIES], [MAX_CAS_ATTEMPTS]); the waiting loop of [claim] and the
    passes of an idempotency claim come from lists of any length. Where recursion needs fuel the
    theorem says how much is enough: [inline_refs_terminates] a depth for every set of definitions,
    [acquire_answers] the rounds of a wait, [toposort_pending] as many rounds as writes,
    [keyset_read_is_complete] the keys there are over the page size, [led_read_is_complete] the rows;
    a glob takes the length of its segment. Integers are unbounded where Python's are; instants are
    microseconds or ticks, token counts integers of a fixed unit, since nothing modelled depends on
    the rounding of floats. Strings are ASCII.

    ** What is not modelled, and why

    Logging, metrics and audit emission; the process cache (L1) and the drivers of PostgreSQL, SQLite,
    DuckDB, Arrow, S3 and the NATS transport, which are I/O; the generation follower and the loaders
    over collections, of which the theorems need the laws they state; encryption, signatures and
    tokens, which rest on cryptographic libraries; [resolve_fs_path], which asks the file system; the
    versioned snapshots of [core/collections], whose work is SQL text and Arrow tables; the packages
    that wrap models, search, scraping, evaluation and channels, whose logic is in calls to services
    the sources do not contain. *)

From Stdlib Require Import Ascii String Bool List NArith ZArith Lia Permutation Sorted.
From stdpp Require Import base list gmap strings sorting.

#[export] Set Warnings "-clear-no-such-hyp".

(** ** The result of a function that may raise *)

(** A Python function that returns [A] or raises an exception described by [E]. *)
Inductive result (A E : Type) : Type :=
| Ok (a : A)
| Err (e : E).
Arguments Ok {A E} a.
Arguments Err {A E} e.

Declare Scope py_scope.
Delimit Scope py_scope with py.
Notation "'do!' x <- c ;; k" :=
  (match c with Ok x => k | Err e => Err e end)
  (at level 10, x name, c at level 99, k at level 200) : py_scope.
Notation "'raise_if!' b 'with' e ;; k" :=
  (if b then Err e else k)
  (at level 10, b at level 99, e at level 99, k at level 200) : py_scope.
Open Scope py_scope.

(** ** Strings: what the source uses of Python's [str] *)

(** [s.split(c)] for a one-character separator; the empty string splits to one empty part. *)
Fixpoint split_on (c : ascii) (s : string) : list string :=
  match s with
  | EmptyString => [EmptyString]
  | String a s' =>
      if Ascii.eqb a c then EmptyString :: split_on c s'
      else match split_on c s' with
           | [] => [String a EmptyString]
           | x :: xs => String a x :: xs
           end
  end.

(** [s[n:]]. *)
Fixpoint str_drop (n : nat) (s : string) : string :=
  match n, s with
  | O, _ => s
  | S n', String _ s' => str_drop n' s'
  | S _, EmptyString => EmptyString
  end.

(** [s.startswith(p)]. *)
Fixpoint starts_with (p s : string) : bool :=
  match p, s with
  | EmptyString, _ => true
  | String a p', String b s' => Ascii.eqb a b && starts_with p' s'
  | String _ _, EmptyString => false
  end.

(** [s.replace(old, new)] for one-character [old] and [new]. *)
Fixpoint str_replace (old new : ascii) (s : string) : string :=
  match s with
  | EmptyString => EmptyString
  | String a s' => String (if Ascii.eqb a old then new else a) (str_replace old new s')
  end.

(** [c in s] for one character. *)
Fixpoint str_has (c : ascii) (s : string) : bool :=
  match s with
  | EmptyString => false
  | String a s' => Ascii.eqb a c || str_has c s'
  end.

(** The truth value of a string: false only when it is empty. *)
Definition str_truthy (s : string) : bool := negb (String.eqb s EmptyString).

#[global] Arguments String.append : simpl nomatch.

Lemma str_app_assoc (a b c : string) : ((a ++ b) ++ c = a ++ (b ++ c))%string.
Proof. induction a as [|x a IH]; simpl; congruence. Qed.

Section Strings.
Variable c : ascii.
Implicit Types s t : string.

Lemma split_on_not_nil s : split_on c s <> [].
Proof. destruct s as [|a s]; simpl; [done|]. destruct (Ascii.eqb a c); [done|]. by destruct (split_on c s). Qed.

Lemma split_on_plain s : str_has c s = false -> split_on c s = [s].
Proof.
  induction s as [|a s IH]; simpl; [done|].
  intros [Ha Hs]%orb_false_iff. rewrite Ha, IH by done. done.
Qed.

Lemma split_on_sep s t : split_on c (s ++ String c t) = split_on c s ++ split_on c t.
Proof.
  induction s as [|a s IH]; simpl; [by rewrite Ascii.eqb_refl|].
  destruct (Ascii.eqb a c); [by rewrite IH|].
  rewrite IH. pose proof (split_on_not_nil s). by destruct (split_on c s).
Qed.

Lemma concat_cons x y l :
  String.concat (String c "") (x :: y :: l) = (x ++ String c (String.concat (String c "") (y :: l)))%string.
Proof. done. Qed.

Lemma concat_split s : String.concat (String c "") (split_on c s) = s.
Proof.
  induction s as [|a s IH]; [done|]. simpl. pose proof (split_on_not_nil s).
  destruct (Ascii.eqb_spec a c) as [->|].
  - destruct (split_on c s) as [|x xs]; [done|]. rewrite concat_cons, IH. done.
  - destruct (split_on c s) as [|x [|y xs]]; [done|by rewrite <- IH|].
    rewrite <- IH. rewrite !concat_cons. done.
Qed.

Lemma split_concat l :
  l <> [] -> Forall (fun x => str_has c x = false) l ->
  split_on c (String.concat (String c "") l) = l.
Proof.
  intros Hn Hf. induction Hf as [|x l Hx Hl IH]; [done|].
  destruct l as [|y l]; [simpl; by apply split_on_plain|].
  rewrite concat_cons, split_on_sep, IH, split_on_plain by done. done.
Qed.

Lemma split_on_no_sep s : Forall (fun x => str_has c x = false) (split_on c s).
Proof.
  induction s as [|a s IH]; simpl; [by repeat constructor|].
  destruct (Ascii.eqb a c) eqn:Ha; [by constructor|].
  destruct IH as [|x xs Hx Hxs]; constructor; simpl; rewrite ?Ha; auto.
Qed.

Lemma split_on_inj s t : split_on c s = split_on c t -> s = t.
Proof. intros H. by rewrite <- (concat_split s), <- (concat_split t), H. Qed.

Lemma concat_app l1 l2 :
  l1 <> [] -> l2 <> [] ->
  String.concat (String c "") (l1 ++ l2)
  = (String.concat (String c "") l1 ++ String c (String.concat (String c "") l2))%string.
Proof.
  intros H1 H2. induction l1 as [|x [|y l1] IH]; [done| |].
  - destruct l2; [done|]. done.
  - simpl app. rewrite !concat_cons. simpl app in IH. rewrite IH by done.
    by rewrite str_app_assoc.
Qed.

Lemma str_has_replace new s : Ascii.eqb new c = false -> str_has c (str_replace c new s) = false.
Proof.
  intros Hn. induction s as [|a s IH]; simpl; [done|].
  destruct (Ascii.eqb a c) eqn:Ha; rewrite ?Hn, ?Ha, IH; done.
Qed.

Lemma str_replace_plain new s : str_has c s = false -> str_replace c new s = s.
Proof.
  induction s as [|a s IH]; simpl; [done|].
  intros [Ha Hs]%orb_false_iff. by rewrite Ha, IH.
Qed.
End Strings.

Lemma starts_with_iff p s : starts_with p s = true <-> exists t, s = (p ++ t)%string.
Proof.
  revert s. induction p as [|a p IH]; intros s; simpl; [split; [by exists s|done]|].
  destruct s as [|b s]; [split; [done|by intros [t [=]]]|].
  rewrite andb_true_iff, Ascii.eqb_eq, IH. split.
  - intros [-> [t ->]]. by exists t.
  - intros [t [= -> ->]]. split; [done|by exists t].
Qed.

Lemma str_drop_app p s : str_drop (String.length p) (p ++ s) = s.
Proof. induction p as [|a p IH]; simpl; [by destruct s|done]. Qed.

Lemma str_app_inj_l (a b c : string) : (a ++ b = a ++ c)%string -> b = c.
Proof. induction a as [|x a IH]; simpl; [done|]. intros [= H]. auto. Qed.

Lemma str_truthy_true s : str_truthy s = true <-> s <> EmptyString.
Proof. unfold str_truthy. rewrite negb_true_iff. apply String.eqb_neq. Qed.

Lemma str_replace_truthy old new s : str_truthy (str_replace old new s) = str_truthy s.
Proof. by destruct s. Qed.

(** ** UUIDs *)

(** A [uuid.UUID] is its 128-bit integer value. *)
Abbreviation UUID := N (only parsing).

Definition uuid_wf (u : UUID) : Prop := (u < 2 ^ 128)%N.

Definition hex_char (d : N) : ascii :=
  ascii_of_N (if (d <? 10)%N then 48 + d else 87 + d)%N.

(** The [k] low hexadecimal digits of [n], most significant first ([f"{n:0kx}"] when they suffice). *)
Fixpoint hex_fixed (k : nat) (n : N) : string :=
  match k with
  | O => EmptyString
  | S k' => (hex_fixed k' (n / 16) ++ String (hex_char (n mod 16)) EmptyString)%string
  end.

(** [UUID.hex]: 32 lower-case hexadecimal digits. *)
Definition uuid_hex (u : UUID) : string := hex_fixed 32 u.

(** [str(UUID)]: the canonical 8-4-4-4-12 form. *)
Definition uuid_str (u : UUID) : string :=
  let h := uuid_hex u in
  (substring 0 8 h ++ "-" ++ substring 8 4 h ++ "-" ++ substring 12 4 h ++ "-"
   ++ substring 16 4 h ++ "-" ++ substring 20 12 h)%string.

Lemma str_length_app (s t : string) : String.length (s ++ t) = String.length s + String.length t.
Proof. induction s as [|a s IH]; simpl; [done|]. by rewrite IH. Qed.

Lemma hex_fixed_length k n : String.length (hex_fixed k n) = k.
Proof. revert n. induction k as [|k IH]; intros n; simpl; [done|]. rewrite str_length_app, IH. simpl. lia. Qed.

Lemma str_snoc_inj (s t : string) a b :
  (s ++ String a EmptyString = t ++ String b EmptyString)%string -> s = t /\ a = b.
Proof.
  revert t. induction s as [|x s IH]; intros [|y t]; simpl.
  - by intros [=].
  - intros [= -> H]. by destruct t.
  - intros [= -> H]. by destruct s.
  - intros [= -> H]. destruct (IH _ H) as [-> ->]. done.
Qed.

Lemma hex_char_inj a b : (a < 16)%N -> (b < 16)%N -> hex_char a = hex_char b -> a = b.
Proof.
  intros Ha Hb H. apply (f_equal N_of_ascii) in H. unfold hex_char in H.
  destruct (N.ltb_spec a 10), (N.ltb_spec b 10); rewrite !N_ascii_embedding in H by lia; lia.
Qed.

Lemma hex_fixed_inj k n m :
  (n < 16 ^ N.of_nat k)%N -> (m < 16 ^ N.of_nat k)%N -> hex_fixed k n = hex_fixed k m -> n = m.
Proof.
  revert n m. induction k as [|k IH]; intros n m Hn Hm; simpl hex_fixed.
  - simpl in *. lia.
  - rewrite Nat2N.inj_succ, N.pow_succ_r' in Hn, Hm.
    intros [H1 H2]%str_snoc_inj.
    apply IH in H1; [|apply N.Div0.div_lt_upper_bound; lia..].
    apply hex_char_inj in H2; [|apply N.mod_lt; lia..].
    rewrite (N.div_mod n 16), (N.div_mod m 16) by lia. congruence.
Qed.

Lemma hex_char_not c d : (d < 16)%N -> c = "."%char \/ c = "-"%char -> hex_char d <> c.
Proof.
  intros Hd Hc H. assert (d = 0 \/ d = 1 \/ d = 2 \/ d = 3 \/ d = 4 \/ d = 5 \/ d = 6 \/ d = 7 \/ d = 8
    \/ d = 9 \/ d = 10 \/ d = 11 \/ d = 12 \/ d = 13 \/ d = 14 \/ d = 15)%N as HH by lia.
  by repeat (destruct HH as [->|HH] || (destruct Hc as [->| ->]) || subst d).
Qed.

Lemma str_has_app c s t : str_has c (s ++ t) = str_has c s || str_has c t.
Proof. induction s as [|a s IH]; simpl; [done|]. by rewrite IH, orb_assoc. Qed.

Lemma hex_fixed_no_dot k n : str_has "." (hex_fixed k n) = false.
Proof.
  revert n. induction k as [|k IH]; intros n; simpl; [done|].
  rewrite str_has_app, IH. simpl. rewrite orb_false_r. apply Ascii.eqb_neq.
  apply hex_char_not; [apply N.mod_lt; lia|by left].
Qed.

Lemma uuid_hex_inj u v : uuid_wf u -> uuid_wf v -> uuid_hex u = uuid_hex v -> u = v.
Proof. apply (hex_fixed_inj 32). Qed.

(** A string of 32 characters is determined by its hyphenated form, which has a dot only where it has. *)
Lemma hyphenate_facts (f := fun h => (substring 0 8 h ++ "-" ++ substring 8 4 h ++ "-" ++ substring 12 4 h ++ "-"
   ++ substring 16 4 h ++ "-" ++ substring 20 12 h)%string) h :
  String.length h = 32 ->
  str_has "." (f h) = str_has "." h /\ f h <> EmptyString
  /\ forall h', String.length h' = 32 -> f h = f h' -> h = h'.
Proof.
  intros Hh. do 32 (destruct h as [|? h]; [discriminate|]). destruct h; [|discriminate]. clear Hh.
  unfold f. simpl. split; [done|]. split; [done|].
  intros h' Hh'. do 32 (destruct h' as [|? h']; [discriminate|]). destruct h'; [|discriminate].
  simpl. intros H. injection H. intros. subst. done.
Qed.

Lemma uuid_str_inj u v : uuid_wf u -> uuid_wf v -> uuid_str u = uuid_str v -> u = v.
Proof.
  intros Hu Hv H. apply uuid_hex_inj; [done..|].
  apply (hyphenate_facts (uuid_hex u)); [apply hex_fixed_length..|done].
Qed.

Lemma uuid_str_no_dot u : str_has "." (uuid_str u) = false.
Proof.
  destruct (hyphenate_facts (uuid_hex u)) as [H _]; [apply hex_fixed_length|].
  unfold uuid_str. rewrite H. apply hex_fixed_no_dot.
Qed.

Lemma uuid_str_truthy u : str_truthy (uuid_str u) = true.
Proof. apply str_truthy_true, (hyphenate_facts (uuid_hex u)), hex_fixed_length. Qed.

(** ** [int(s)] and [s.strip()] on ASCII strings *)

Definition py_isspace (c : ascii) : bool :=
  let n := N_of_ascii c in ((9 <=? n) && (n <=? 13) || (28 <=? n) && (n <=? 32))%N.

Fixpoint py_lstrip (s : string) : string :=
  match s with
  | String a s' => if py_isspace a then py_lstrip s' else s
  | EmptyString => EmptyString
  end.

Fixpoint str_rev_onto (s acc : string) : string :=
  match s with
  | EmptyString => acc
  | String a s' => str_rev_onto s' (String a acc)
  end.

Definition str_rev (s : string) : string := str_rev_onto s EmptyString.

Definition py_strip (s : string) : string := str_rev (py_lstrip (str_rev (py_lstrip s))).

Definition py_digit (c : ascii) : option Z :=
  let n := N_of_ascii c in
  if ((48 <=? n) && (n <=? 57))%N then Some (Z.of_N (n - 48)) else None.

(** Decimal digits with single underscores allowed between two of them; [prev] says whether the
    character before was a digit. *)
Fixpoint py_digits (prev : bool) (acc : Z) (s : string) : option Z :=
  match s with
  | EmptyString => if prev then Some acc else None
  | String a s' =>
      match py_digit a with
      | Some d => py_digits true (10 * acc + d)%Z s'
      | None => if Ascii.eqb a "_" && prev then py_digits false acc s' else None
      end
  end.

(** [int(s)] of an ASCII string; [None] is the [ValueError]. *)
Definition py_int (s : string) : option Z :=
  match py_strip s with
  | String "-" s' => Z.opp <$> py_digits false 0 s'
  | String "+" s' => py_digits false 0 s'
  | s' => py_digits false 0 s'
  end.

Definition isSome {A} (o : option A) : bool := match o with Some _ => true | None => false end.

(** ** Lexicographic order of strings and of pairs of strings *)

Definition key_compare (p q : string * string) : comparison :=
  match String.compare p.1 q.1 with
  | Eq => String.compare p.2 q.2
  | r => r
  end.

(** [p <= q] for Python tuples of two strings. *)
Definition key_leb (p q : string * string) : bool :=
  match key_compare p q with Gt => false | _ => true end.

Lemma str_compare_refl s : String.compare s s = Eq.
Proof.
  induction s as [|a s IH]; simpl; [done|]. unfold Ascii.compare. by rewrite N.compare_refl.
Qed.

Lemma ascii_compare_spec a b : CompareSpec (a = b) (N_of_ascii a < N_of_ascii b)%N (N_of_ascii b < N_of_ascii a)%N (Ascii.compare a b).
Proof.
  unfold Ascii.compare. destruct (N.compare_spec (N_of_ascii a) (N_of_ascii b)); constructor; [|lia..].
  by rewrite <- (ascii_N_embedding a), <- (ascii_N_embedding b), H.
Qed.

Lemma str_compare_lt_trans a b c :
  String.compare a b = Lt -> String.compare b c = Lt -> String.compare a c = Lt.
Proof.
  revert b c. induction a as [|x a IH]; intros [|y b] [|z c]; simpl; try done.
  destruct (ascii_compare_spec x y), (ascii_compare_spec y z), (ascii_compare_spec x z);
    subst; eauto; (lia || done).
Qed.

Lemma key_compare_lt_trans p q r :
  key_compare p q = Lt -> key_compare q r = Lt -> key_compare p r = Lt.
Proof.
  unfold key_compare. destruct p as [a b], q as [c d], r as [e f]. simpl.
  destruct (String.compare a c) eqn:H1; [|intros _|done].
  - apply String.compare_eq_iff in H1 as ->. destruct (String.compare c e); eauto using str_compare_lt_trans.
  - destruct (String.compare c e) eqn:H2; [|intros _|done].
    + apply String.compare_eq_iff in H2 as <-. by rewrite H1.
    + by rewrite (str_compare_lt_trans _ _ _ H1 H2).
Qed.

Lemma key_compare_eq p q : key_compare p q = Eq <-> p = q.
Proof.
  unfold key_compare. destruct p as [a b], q as [c d]. simpl. split.
  - destruct (String.compare a c) eqn:H; [|done..]. apply String.compare_eq_iff in H as ->.
    by intros ->%String.compare_eq_iff.
  - intros [= -> ->]. by rewrite !str_compare_refl.
Qed.

Lemma key_compare_antisym p q : key_compare q p = CompOpp (key_compare p q).
Proof.
  unfold key_compare. destruct p as [a b], q as [c d]. simpl.
  rewrite (String.compare_antisym a c), (String.compare_antisym b d).
  by destruct (String.compare c a), (String.compare d b).
Qed.

Lemma key_leb_total p q : key_leb p q = true \/ key_leb q p = true.
Proof. unfold key_leb. rewrite (key_compare_antisym p q). destruct (key_compare p q); auto. Qed.

Lemma key_leb_antisym p q : key_leb p q = true -> key_leb q p = true -> p = q.
Proof.
  unfold key_leb. rewrite (key_compare_antisym p q).
  destruct (key_compare p q) eqn:H; [|done..]. intros _ _. by apply key_compare_eq.
Qed.

Lemma key_leb_trans p q r : key_leb p q = true -> key_leb q r = true -> key_leb p r = true.
Proof.
  unfold key_leb. destruct (key_compare p q) eqn:H1; [|intros _|done].
  - apply key_compare_eq in H1 as ->. done.
  - destruct (key_compare q r) eqn:H2; [|intros _|done].
    + apply key_compare_eq in H2 as <-. by rewrite H1.
    + by rewrite (key_compare_lt_trans _ _ _ H1 H2).
Qed.

(** ** [sorted(l, key=...)]: stable insertion sort on a key of two strings *)

Section Sort.
Context {A : Type} (key : A -> string * string).

Fixpoint insert_by (x : A) (l : list A) : list A :=
  match l with
  | [] => [x]
  | y :: l' => if key_leb (key x) (key y) then x :: y :: l' else y :: insert_by x l'
  end.

Definition sort_by (l : list A) : list A := foldr insert_by [] l.

Definition key_le (x y : A) : Prop := key_leb (key x) (key y) = true.

Lemma insert_by_perm x l : insert_by x l ≡ₚ x :: l.
Proof.
  induction l as [|y l IH]; simpl; [done|]. case_match; [done|]. rewrite IH. by apply perm_swap.
Qed.

Lemma sort_by_perm l : sort_by l ≡ₚ l.
Proof. induction l as [|x l IH]; simpl; [done|]. by rewrite insert_by_perm, IH. Qed.

Lemma insert_by_sorted x l : StronglySorted key_le l -> StronglySorted key_le (insert_by x l).
Proof.
  induction 1 as [|y l Hl IH Hy]; simpl; [by repeat constructor|].
  destruct (key_leb (key x) (key y)) eqn:Hxy.
  - constructor; [by constructor|]. constructor; [done|].
    eapply Forall_impl; [exact Hy|]. intros z. by apply key_leb_trans.
  - constructor; [done|]. rewrite insert_by_perm. constructor; [|done].
    unfold key_le. destruct (key_leb_total (key x) (key y)); congruence.
Qed.

Lemma sort_by_sorted l : StronglySorted key_le (sort_by l).
Proof. induction l; simpl; [constructor|]. by apply insert_by_sorted. Qed.

(** Two lists with the same elements and distinct keys sort to one list. *)
Lemma sort_by_unique l1 l2 :
  (forall x y, x ∈ l1 -> y ∈ l1 -> key x = key y -> x = y) -> l1 ≡ₚ l2 -> sort_by l1 = sort_by l2.
Proof.
  intros Hinj Hp. apply (StronglySorted_unique_strong key_le).
  - intros x y Hx Hy H1 H2. rewrite sort_by_perm in Hx, Hy. rewrite <- Hp in Hy.
    apply Hinj; [done..|]. by apply key_leb_antisym.
  - apply sort_by_sorted.
  - apply sort_by_sorted.
  - by rewrite !sort_by_perm.
Qed.

Lemma elem_of_sort_by x l : x ∈ sort_by l <-> x ∈ l.
Proof. by rewrite sort_by_perm. Qed.
End Sort.

(** ** Insertion-ordered dictionaries *)

Section ODict.
Context {K V : Type} `{EqDecision K}.

(** [d[k] = v]: an existing key keeps its place. *)
Fixpoint od_set (k : K) (v : V) (d : list (K * V)) : list (K * V) :=
  match d with
  | [] => [(k, v)]
  | (k', v') :: d' => if decide (k' = k) then (k, v) :: d' else (k', v') :: od_set k v d'
  end.

(** [d.get(k)]. *)
Fixpoint od_get (k : K) (d : list (K * V)) : option V :=
  match d with
  | [] => None
  | (k', v) :: d' => if decide (k' = k) then Some v else od_get k d'
  end.

Lemma od_get_set k v d k' : od_get k' (od_set k v d) = if decide (k = k') then Some v else od_get k' d.
Proof.
  induction d as [|[k1 v1] d IH]; simpl; [done|].
  destruct (decide (k1 = k)) as [->|]; simpl; repeat case_decide; congruence.
Qed.

Lemma od_set_keys k v d : forall k', k' ∈ (od_set k v d).*1 <-> k' = k \/ k' ∈ d.*1.
Proof.
  intros k'. induction d as [|[k1 v1] d IH]; simpl; [set_solver|].
  case_decide; simpl; [subst; set_solver|]. rewrite !elem_of_cons, IH. tauto.
Qed.

Lemma od_set_elem k v d k' v' : (k', v') ∈ od_set k v d -> (k', v') = (k, v) \/ (k', v') ∈ d.
Proof.
  induction d as [|[k1 v1] d IH]; simpl; [set_solver|]. case_decide; set_solver.
Qed.

Lemma od_set_NoDup k v d : NoDup d.*1 -> NoDup (od_set k v d).*1.
Proof.
  induction d as [|[k1 v1] d IH]; simpl; [constructor; [set_solver|constructor]|].
  intros [Hk Hd]%NoDup_cons. case_decide as Heq; simpl; [subst; by constructor|].
  constructor; [|auto]. rewrite od_set_keys. naive_solver.
Qed.

Lemma od_get_elem k v d : od_get k d = Some v -> (k, v) ∈ d.
Proof.
  induction d as [|[k1 v1] d IH]; simpl; [done|]. case_decide as Hk; [|set_solver]. intros [= <-]. subst. set_solver.
Qed.

Lemma od_get_Some k v d : NoDup d.*1 -> od_get k d = Some v <-> (k, v) ∈ d.
Proof.
  induction d as [|[k1 v1] d IH]; simpl; [set_solver|]. intros [Hk Hd]%NoDup_cons.
  rewrite elem_of_cons. case_decide as Heq.
  - subst. split; [intros [= ->]; by left|]. intros [[= ->]|H]; [done|].
    destruct Hk. apply list_elem_of_fmap. by exists (k, v).
  - rewrite IH by done. split; [auto|]. intros [[= -> ->]|H]; done.
Qed.
End ODict.

(** ** Lists *)

Lemma NoDup_list_filter {A} (f : A -> bool) (l : list A) : NoDup l -> NoDup (List.filter f l).
Proof. rewrite !NoDup_ListNoDup. apply List.NoDup_filter. Qed.

(** ** Stateful code: a function of the state returning a value and the new state *)

Definition M (S A : Type) : Type := S -> A * S.
Definition retM {S A} (a : A) : M S A := fun s => (a, s).
Definition bindM {S A B} (m : M S A) (f : A -> M S B) : M S B := fun s => let '(a, s') := m s in f a s'.
Notation "'let*' x ':=' m 'in' k" := (bindM m (fun x => k))
  (at level 10, x name, m at level 200, k at level 200) : py_scope.
Notation "'let*' ' x ':=' m 'in' k" := (bindM m (fun x => k))
  (at level 10, x strict pattern, m at level 200, k at level 200) : py_scope.

(** A [for] loop over [l] with loop-carried variables [acc]. *)
Fixpoint for_loop {S A B} (body : B -> A -> M S B) (acc : B) (l : list A) : M S B :=
  match l with
  | [] => retM acc
  | x :: l' => fun s => let '(acc', s') := body acc x s in for_loop body acc' l' s'
  end.

(** Partial correctness with a pre- and a post-condition on the state; total because [M] is. *)
Definition triple {S A} (P : S -> Prop) (m : M S A) (Q : A -> S -> Prop) : Prop :=
  forall s, P s -> Q (m s).1 (m s).2.

Section Triples.
Context {S : Type}.
Implicit Types P : S -> Prop.

Lemma triple_ret {A} P (a : A) (Q : A -> S -> Prop) : (forall s, P s -> Q a s) -> triple P (retM a) Q.
Proof. intros H s Hs. by apply H. Qed.

Lemma triple_bind {A B} P (m : M S A) (f : A -> M S B) (Q : A -> S -> Prop) (R : B -> S -> Prop) :
  triple P m Q -> (forall a, triple (Q a) (f a) R) -> triple P (bindM m f) R.
Proof.
  intros Hm Hf s Hs. specialize (Hm s Hs). unfold bindM.
  destruct (m s) as [a s']. by apply Hf.
Qed.

Lemma triple_conseq {A} P P' (m : M S A) (Q Q' : A -> S -> Prop) :
  triple P' m Q' -> (forall s, P s -> P' s) -> (forall a s, Q' a s -> Q a s) -> triple P m Q.
Proof. intros Hm HP HQ s Hs. apply HQ, Hm, HP, Hs. Qed.

Lemma triple_pure {A} (phi : Prop) P (m : M S A) (Q : A -> S -> Prop) :
  (phi -> triple P m Q) -> triple (fun s => phi /\ P s) m Q.
Proof. intros H s [Hphi Hs]. by apply H. Qed.

(** The loop rule: an invariant on the accumulator indexed by the part of the list already done. *)
Lemma triple_for {A B} P (body : B -> A -> M S B) (I : list A -> B -> Prop) l acc :
  I [] acc ->
  (forall done_ x todo b, l = done_ ++ x :: todo -> I done_ b ->
     triple P (body b x) (fun b' s => I (done_ ++ [x]) b' /\ P s)) ->
  triple P (for_loop body acc l) (fun b s => I l b /\ P s).
Proof.
  intros H0 Hstep.
  assert (forall todo done_ b, l = done_ ++ todo -> I done_ b ->
    triple P (for_loop body b todo) (fun b' s => I l b' /\ P s)) as Hgen.
  { induction todo as [|x todo IH]; intros done_ b Hl Hb s Hs; simpl.
    - rewrite app_nil_r in Hl. by subst.
    - destruct (Hstep done_ x todo b Hl Hb s Hs) as [HI HP].
      destruct (body b x s) as [b' s']. apply (IH (done_ ++ [x])); [|done..].
      by rewrite <- app_assoc. }
  by apply (Hgen l []).
Qed.

(** *** Invariants every run keeps *)

Definition keeps {A} (I : S -> Prop) (m : M S A) : Prop := triple I m (fun _ => I).

Lemma keeps_ret {A} I (a : A) : keeps I (retM a).
Proof. by intros s. Qed.

Lemma keeps_pair {A} (I : S -> Prop) (a : A) (f : S -> S) : (forall s, I s -> I (f s)) -> keeps I (fun s => (a, f s)).
Proof. by intros H s ?%H. Qed.

Lemma keeps_bind {A B} I (m : M S A) (f : A -> M S B) :
  keeps I m -> (forall a, keeps I (f a)) -> keeps I (bindM m f).
Proof. apply triple_bind. Qed.

Lemma keeps_for {A B} I (body : B -> A -> M S B) acc l :
  (forall b x, keeps I (body b x)) -> keeps I (for_loop body acc l).
Proof.
  intros Hb. eapply triple_conseq; [apply (triple_for I body (fun _ _ => True))|done|].
  - done.
  - intros done_ x todo b _ _ s Hs. split; [done|]. by apply Hb.
  - by intros ?? [_ ?].
Qed.
End Triples.

(** [solve_keeps] proves that a routine keeps an invariant from the routines it calls, which
    the database [keeps] knows. *)
Create HintDb keeps discriminated.
#[export] Hint Resolve keeps_ret keeps_bind keeps_for : keeps.
#[export] Hint Constants Opaque : keeps.

Ltac solve_keeps :=
  repeat first
    [ progress intros
    | solve [auto with keeps]
    | match goal with
      | |- keeps _ (retM _) => apply keeps_ret
      | |- keeps _ (bindM _ _) => apply keeps_bind
      | |- keeps _ (for_loop _ _ _) => apply keeps_for
      | |- keeps _ (match ?x with _ => _ end) => destruct x
      | |- context [match ?x with (_, _) => _ end] => destruct x
      end ].
