(* ===== verification/PyUuid.v ===== *)
(** * [uuid.UUID] on strings

    What [uuid.UUID(value)] reads, with the wrappers and hyphens it tolerates and the digits [int(s, 16)]
    takes, and the facts its callers rely on: it reads back what [str(u)] and [u.hex] write, and a string
    it reads has none of the characters that separate or widen a subject. *)

From Stdlib Require Import Ascii String Bool List NArith ZArith Lia.
From stdpp Require Import base list gmap strings.
From S2P Require Import Prelude.

Open Scope string_scope.

(** ** [uuid.UUID(value)] on ASCII strings *)

(** [s.replace(p, "")] for a non-empty [p]; [skip] characters of a match are still to be dropped. *)
Fixpoint str_remove (p : string) (skip : nat) (s : string) : string :=
  match s with
  | EmptyString => EmptyString
  | String a s' =>
      match skip with
      | S k => str_remove p k s'
      | O => if starts_with p s then str_remove p (String.length p - 1) s'
             else String a (str_remove p 0 s')
      end
  end.

Definition is_brace (c : ascii) : bool := Ascii.eqb c "{" || Ascii.eqb c "}".

Fixpoint lstrip_braces (s : string) : string :=
  match s with
  | String a s' => if is_brace a then lstrip_braces s' else s
  | EmptyString => EmptyString
  end.

(** [s.strip("{}")]. *)
Definition strip_braces (s : string) : string := str_rev (lstrip_braces (str_rev (lstrip_braces s))).

Definition hex_digit (c : ascii) : option N :=
  let n := N_of_ascii c in
  if ((48 <=? n) && (n <=? 57))%N then Some (n - 48)%N
  else if ((97 <=? n) && (n <=? 102))%N then Some (n - 87)%N
  else if ((65 <=? n) && (n <=? 70))%N then Some (n - 55)%N
  else None.

(** Hexadecimal digits with single underscores between two of them. *)
Fixpoint hex_digits (prev : bool) (acc : N) (s : string) : option N :=
  match s with
  | EmptyString => if prev then Some acc else None
  | String a s' =>
      match hex_digit a with
      | Some d => hex_digits true (16 * acc + d)%N s'
      | None => if Ascii.eqb a "_" && prev then hex_digits false acc s' else None
      end
  end.

(** The digits after an optional [0x] and an underscore it may carry. *)
Definition hex_body (s : string) : option N :=
  match s with
  | String z (String x rest) =>
      if Ascii.eqb z "0" && (Ascii.eqb x "x" || Ascii.eqb x "X") then
        match rest with
        | String u rest' => if Ascii.eqb u "_" then hex_digits false 0 rest' else hex_digits false 0 rest
        | EmptyString => None
        end
      else hex_digits false 0 s
  | _ => hex_digits false 0 s
  end.

(** [int(s, 16)] where it is not negative; a negative value is refused by [UUID] as out of range,
    except minus zero. *)
Definition py_int16 (s : string) : option N :=
  match py_strip s with
  | EmptyString => None
  | String a rest =>
      if Ascii.eqb a "-" then
        match hex_body rest with Some 0%N => Some 0%N | _ => None end
      else if Ascii.eqb a "+" then hex_body rest
      else hex_body (String a rest)
  end.

(** [UUID(hex=value)], [None] for its [ValueError]. *)
Definition UUID_of_string (value : string) : option UUID :=
  let hex := str_remove "uuid:" 0 (str_remove "urn:" 0 value) in
  let hex := str_remove "-" 0 (strip_braces hex) in
  if (String.length hex =? 32)%nat then
    match py_int16 hex with
    | Some n => if (n <? 2 ^ 128)%N then Some n else None
    | None => None
    end
  else None.

Example uuid_urn : UUID_of_string "urn:uuid:{00000000-0000-0000-0000-0000000000ff}" = Some 255%N.
Proof. reflexivity. Qed.
Example uuid_short : UUID_of_string "ff" = None.
Proof. reflexivity. Qed.

(** ** [UUID(str(u)) == u] *)

Fixpoint str_all (P : ascii -> bool) (s : string) : bool :=
  match s with
  | EmptyString => true
  | String a s' => P a && str_all P s'
  end.

(** The digits [UUID.hex] uses. *)
Definition lower_hex (c : ascii) : bool :=
  let n := N_of_ascii c in ((48 <=? n) && (n <=? 57) || (97 <=? n) && (n <=? 102))%N.

Lemma str_all_app P s t : str_all P (s ++ t) = str_all P s && str_all P t.
Proof. induction s as [|a s IH]; simpl; [done|]. by rewrite IH, andb_assoc. Qed.

Lemma hex_char_digit d : (d < 16)%N -> lower_hex (hex_char d) = true /\ hex_digit (hex_char d) = Some d.
Proof.
  intros Hd. assert (d = 0 \/ d = 1 \/ d = 2 \/ d = 3 \/ d = 4 \/ d = 5 \/ d = 6 \/ d = 7 \/ d = 8
    \/ d = 9 \/ d = 10 \/ d = 11 \/ d = 12 \/ d = 13 \/ d = 14 \/ d = 15)%N as HH by lia.
  by repeat destruct HH as [->|HH]; [..|subst].
Qed.

(** The value of a string of digits read on from [acc]. *)
Fixpoint hex_value (acc : N) (s : string) : N :=
  match s with
  | EmptyString => acc
  | String a s' => hex_value (16 * acc + default 0 (hex_digit a))%N s'
  end.

Lemma hex_value_app acc s t : hex_value acc (s ++ t) = hex_value (hex_value acc s) t.
Proof. revert acc. induction s; intros acc; simpl; [done|]. auto. Qed.

Lemma hex_fixed_facts k n :
  str_all lower_hex (hex_fixed k n) = true
  /\ forall acc, hex_value acc (hex_fixed k n) = (acc * 16 ^ N.of_nat k + n mod 16 ^ N.of_nat k)%N.
Proof.
  revert n. induction k as [|k IH]; intros n.
  { simpl. split; [done|]. intros acc. rewrite N.mod_1_r. lia. }
  destruct (IH (n / 16)%N) as [H1 H2]. cbn [hex_fixed]. split.
  - rewrite str_all_app, H1. simpl. rewrite andb_true_r. apply hex_char_digit, N.mod_lt. lia.
  - intros acc. rewrite hex_value_app, H2. cbn [hex_value].
    rewrite (proj2 (hex_char_digit (n mod 16) ltac:(apply N.mod_lt; lia))). cbn [default].
    rewrite Nat2N.inj_succ, N.pow_succ_r', N.Div0.mod_mul_r.
    unfold id. ring.
Qed.

Lemma lower_hex_digit a : lower_hex a = true -> exists d, hex_digit a = Some d.
Proof.
  unfold lower_hex, hex_digit. intros H. destruct (_ && _)%N eqn:E1; [eauto|].
  simpl in H. rewrite H. eauto.
Qed.

Lemma hex_digits_value s prev acc :
  str_all lower_hex s = true -> s <> "" -> hex_digits prev acc s = Some (hex_value acc s).
Proof.
  revert prev acc. induction s as [|a s IH]; intros prev acc; simpl; [done|].
  intros [Ha Hs]%andb_true_iff _. destruct (lower_hex_digit a Ha) as [d ->]. simpl.
  destruct s as [|b s]; [done|]. by apply IH.
Qed.

Lemma lower_hex_not a c : lower_hex a = true -> lower_hex c = false -> Ascii.eqb a c = false.
Proof. intros Ha Hc. apply Ascii.eqb_neq. congruence. Qed.

Lemma str_remove_absent a p s : str_has a s = false -> str_remove (String a p) 0 s = s.
Proof.
  induction s as [|b s IH]; simpl; [done|]. intros [Hb Hs]%orb_false_iff.
  rewrite Ascii.eqb_sym, Hb. simpl. by rewrite IH.
Qed.

Lemma lower_hex_nobrace a : lower_hex a = true -> is_brace a = false.
Proof. intros Ha. unfold is_brace. by rewrite !(lower_hex_not a _ Ha). Qed.

Lemma lower_hex_nospace a : lower_hex a = true -> py_isspace a = false.
Proof.
  unfold lower_hex, py_isspace. rewrite orb_true_iff, !andb_true_iff, !N.leb_le. intros Ha.
  apply not_true_iff_false. rewrite orb_true_iff, !andb_true_iff, !N.leb_le. lia.
Qed.

Lemma py_int16_hex h : String.length h = 32 -> str_all lower_hex h = true -> py_int16 h = Some (hex_value 0 h).
Proof.
  intros Hlen Hall. assert (Hs : py_strip h = h).
  { do 32 (destruct h as [|? h]; [discriminate|]). destruct h; [|discriminate]. cbn [str_all] in Hall.
    rewrite !andb_true_iff in Hall. destruct_and! Hall.
    unfold py_strip. cbn [py_lstrip]. rewrite lower_hex_nospace by done. cbn [str_rev str_rev_onto py_lstrip].
    by rewrite lower_hex_nospace by done. }
  unfold py_int16. rewrite Hs. destruct h as [|a h]; [done|].
  pose proof Hall as [Ha Hh]%andb_true_iff. rewrite !(lower_hex_not a) by done.
  unfold hex_body. destruct h as [|b h]; [done|]. pose proof Hh as [Hb _]%andb_true_iff.
  rewrite !(lower_hex_not b) by done. rewrite andb_false_r. by apply hex_digits_value.
Qed.

Ltac hex_neq :=
  repeat match goal with
    | H : lower_hex ?a = true |- context [Ascii.eqb ?a ?c] => rewrite (lower_hex_not a c H eq_refl)
    end.

Lemma str_remove_keep a s : lower_hex a = true -> str_remove "-" 0 (String a s) = String a (str_remove "-" 0 s).
Proof.
  intros Ha. cbn [str_remove starts_with]. by rewrite (Ascii.eqb_sym "-" a), lower_hex_not.
Qed.

Lemma str_remove_dash s : str_remove "-" 0 (String "-" s) = str_remove "-" 0 s.
Proof. done. Qed.

(** Undoing the hyphens and the wrappers [UUID] tolerates. *)
Lemma unhyphenate h : String.length h = 32 -> str_all lower_hex h = true ->
  let s := (substring 0 8 h ++ "-" ++ substring 8 4 h ++ "-" ++ substring 12 4 h ++ "-"
            ++ substring 16 4 h ++ "-" ++ substring 20 12 h)%string in
  str_has "u" s = false /\ str_remove "-" 0 (strip_braces s) = h.
Proof.
  intros Hlen Hall. do 32 (destruct h as [|? h]; [discriminate|]). destruct h; [|discriminate].
  cbn [str_all] in Hall. rewrite !andb_true_iff in Hall. destruct_and! Hall. cbn [substring String.append].
  split.
  - cbn [str_has]. hex_neq. reflexivity.
  - unfold strip_braces. cbn [lstrip_braces]. rewrite lower_hex_nobrace by done. cbn [str_rev str_rev_onto lstrip_braces].
    rewrite lower_hex_nobrace by done. cbn [str_rev str_rev_onto].
    repeat (rewrite str_remove_dash || rewrite str_remove_keep by done). reflexivity.
Qed.

(** A UUID is read back from the string the writer put on the broadcast. *)
Lemma UUID_of_string_str u : uuid_wf u -> UUID_of_string (uuid_str u) = Some u.
Proof.
  intros Hu. destruct (hex_fixed_facts 32 u) as [Hall Hval].
  destruct (unhyphenate (uuid_hex u)) as [Hno Hun]; [apply hex_fixed_length|done|].
  change (str_has "u" (uuid_str u) = false) in Hno. change (str_remove "-" 0 (strip_braces (uuid_str u)) = uuid_hex u) in Hun.
  unfold UUID_of_string. rewrite !(str_remove_absent "u") by (rewrite ?(str_remove_absent "u"); exact Hno). rewrite Hun.
  unfold uuid_hex at 1. rewrite hex_fixed_length. cbn [Nat.eqb].
  rewrite py_int16_hex by (apply hex_fixed_length || done). unfold uuid_hex. rewrite Hval.
  change (16 ^ N.of_nat 32)%N with (2 ^ 128)%N. unfold uuid_wf in Hu.
  rewrite N.mod_small by done. rewrite N.mul_0_l, N.add_0_l. by rewrite (proj2 (N.ltb_lt _ _) Hu).
Qed.

Lemma UUID_of_string_hex u : uuid_wf u -> UUID_of_string (uuid_hex u) = Some u.
Proof.
  intros Hu. destruct (hex_fixed_facts 32 u) as [Hall Hval].
  assert (Hrem : forall s, str_all lower_hex s = true -> str_has "u" s = false /\ str_has "-" s = false).
  { induction s as [|x s IH]; [done|]. simpl. intros [Hx Hs]%andb_true_iff. rewrite !(lower_hex_not x) by done. by apply IH. }
  destruct (Hrem _ Hall) as [Hno Hdash]. change (str_has "u" (uuid_hex u) = false) in Hno. change (str_has "-" (uuid_hex u) = false) in Hdash.
  assert (Hstrip : strip_braces (uuid_hex u) = uuid_hex u).
  { unfold uuid_hex. pose proof (hex_fixed_length 32 u) as Hlen. revert Hall Hlen. generalize (hex_fixed 32 u). intros h Hall Hlen.
    do 32 (destruct h as [|? h]; [discriminate|]). destruct h; [|discriminate]. cbn [str_all] in Hall. rewrite !andb_true_iff in Hall.
    destruct_and! Hall. unfold strip_braces. cbn [lstrip_braces]. rewrite lower_hex_nobrace by done. cbn [str_rev str_rev_onto lstrip_braces].
    by rewrite lower_hex_nobrace by done. }
  unfold UUID_of_string. rewrite !(str_remove_absent "u") by (rewrite ?(str_remove_absent "u"); exact Hno).
  rewrite Hstrip, (str_remove_absent "-") by done.
  unfold uuid_hex at 1. rewrite hex_fixed_length. cbn [Nat.eqb].
  rewrite py_int16_hex by (apply hex_fixed_length || done). unfold uuid_hex. rewrite Hval.
  change (16 ^ N.of_nat 32)%N with (2 ^ 128)%N. unfold uuid_wf in Hu.
  rewrite N.mod_small by done. rewrite N.mul_0_l, N.add_0_l. by rewrite (proj2 (N.ltb_lt _ _) Hu).
Qed.

Lemma UUID_of_string_wf s u : UUID_of_string s = Some u -> uuid_wf u.
Proof.
  unfold UUID_of_string, uuid_wf. destruct (_ =? 32)%nat; [|done]. destruct (py_int16 _) as [n|]; [|done].
  destruct (N.ltb_spec n (2 ^ 128)) as [Hn|]; [|done]. by intros [= <-].
Qed.

(** ** Digits and their value *)

Lemma str_snoc s : s <> "" -> exists t a, s = t ++ String a "".
Proof.
  induction s as [|a s IH]; [done|]. intros _. destruct s as [|b s]; [by exists "", a|].
  destruct IH as (t & c & ->); [done|]. by exists (String a t), c.
Qed.

Lemma hex_digit_lower a d : lower_hex a = true -> hex_digit a = Some d -> (d < 16)%N /\ hex_char d = a.
Proof.
  unfold lower_hex, hex_digit, hex_char. intros Hl. pose proof (ascii_N_embedding a) as Ha. revert Ha Hl. generalize (N_of_ascii a). intros n <- Hl.
  rewrite orb_true_iff, !andb_true_iff, !N.leb_le in Hl. destruct ((48 <=? n) && (n <=? 57))%N eqn:H1.
  - intros [= <-]. rewrite andb_true_iff, !N.leb_le in H1. split; [lia|]. rewrite (proj2 (N.ltb_lt _ _)) by lia. f_equal. lia.
  - rewrite andb_false_iff, !N.leb_gt in H1. rewrite (proj2 (N.leb_le 97 n)), (proj2 (N.leb_le n 102)) by lia. simpl. intros [= <-].
    split; [lia|]. rewrite (proj2 (N.ltb_ge _ _)) by lia. f_equal. lia.
Qed.

Lemma hex_fixed_value s : str_all lower_hex s = true ->
  (hex_value 0 s < 16 ^ N.of_nat (String.length s))%N /\ hex_fixed (String.length s) (hex_value 0 s) = s.
Proof.
  remember (String.length s) as n eqn:Hn. revert s Hn. induction n as [|n IH]; intros s Hn Hall; [by destruct s|].
  destruct (str_snoc s) as (t & a & ->); [by intros ->|]. rewrite str_length_app in Hn. simpl in Hn.
  rewrite str_all_app in Hall. simpl in Hall. rewrite andb_true_r in Hall. apply andb_true_iff in Hall as [Ht Ha].
  destruct (lower_hex_digit a Ha) as [d Hd]. destruct (hex_digit_lower a d Ha Hd) as [Hlt Hc].
  assert (n = String.length t) as Hlen by lia. destruct (IH t Hlen Ht) as [Hv Hf]. subst n.
  rewrite hex_value_app. cbn [hex_value]. rewrite Hd. cbn [default hex_fixed]. unfold id. rewrite Nat2N.inj_succ, N.pow_succ_r'.
  split; [lia|]. rewrite (N.mul_comm 16), N.div_add_l, (N.div_small d), N.add_0_r by done.
  rewrite N.add_comm, N.Div0.mod_add, N.mod_small by done. by rewrite Hf, Hc.
Qed.

Lemma hex_of_value h : String.length h = 32 -> str_all lower_hex h = true -> uuid_wf (hex_value 0 h) /\ uuid_hex (hex_value 0 h) = h.
Proof. intros Hlen Hall. destruct (hex_fixed_value h Hall) as [Hv Hf]. rewrite Hlen in *. by split. Qed.

(** ** What a string that reads as a UUID cannot hold *)

Section Foreign.
Variable c : ascii.

Lemma str_remove_skip p x t : str_remove p (String.length x) (x ++ t) = str_remove p 0 t.
Proof. induction x as [|a x IH]; [done|]. exact IH. Qed.

Lemma str_remove_has p s : p <> "" -> str_has c p = false -> str_has c s = true -> str_has c (str_remove p 0 s) = true.
Proof.
  intros Hne Hp. remember (String.length s) as n eqn:Hn. revert s Hn. induction (lt_wf n) as [n _ IH]. intros s -> Hs.
  destruct s as [|a s]; [done|]. cbn [str_remove]. destruct (starts_with p (String a s)) eqn:Hst.
  - apply starts_with_iff in Hst as [t Ht]. destruct p as [|b p]; [done|]. injection Ht as <- ->. 
    replace (String.length (String a p) - 1)%nat with (String.length p) by (simpl; lia). rewrite str_remove_skip. apply (IH (String.length t)); [simpl; rewrite str_length_app; lia|done|].
    change (str_has c (String a p ++ t) = true) in Hs. by rewrite str_has_app, Hp in Hs.
  - simpl in *. destruct (Ascii.eqb a c); [done|]. simpl in *. apply (IH (String.length s)); [lia|done|done].
Qed.

Lemma str_rev_onto_has s acc : str_has c (str_rev_onto s acc) = str_has c s || str_has c acc.
Proof. revert acc. induction s as [|a s IH]; intros acc; [done|]. simpl. rewrite IH. simpl. by destruct (Ascii.eqb a c), (str_has c s), (str_has c acc). Qed.

Lemma str_rev_has s : str_has c (str_rev s) = str_has c s.
Proof. unfold str_rev. rewrite str_rev_onto_has. simpl. by rewrite orb_false_r. Qed.

Lemma lstrip_has (f : ascii -> bool) (strip : string -> string) s :
  (forall s, strip s = match s with String a s' => if f a then strip s' else s | EmptyString => EmptyString end) ->
  f c = false -> str_has c s = true -> str_has c (strip s) = true.
Proof.
  intros Hstrip Hf. induction s as [|a s IH]; [done|]. intros Hs. rewrite Hstrip. destruct (f a) eqn:Ha; [|done].
  apply IH. simpl in Hs. destruct (Ascii.eqb_spec a c) as [->|]; [congruence|done].
Qed.

Lemma strip_braces_has s : is_brace c = false -> str_has c s = true -> str_has c (strip_braces s) = true.
Proof.
  intros Hc Hs. unfold strip_braces. rewrite str_rev_has. apply (lstrip_has is_brace lstrip_braces); [by intros []|done|].
  rewrite str_rev_has. by apply (lstrip_has is_brace lstrip_braces); [intros []|..].
Qed.

Lemma py_strip_has s : py_isspace c = false -> str_has c s = true -> str_has c (py_strip s) = true.
Proof.
  intros Hc Hs. unfold py_strip. rewrite str_rev_has. apply (lstrip_has py_isspace py_lstrip); [by intros []|done|].
  rewrite str_rev_has. by apply (lstrip_has py_isspace py_lstrip); [intros []|..].
Qed.

Hypothesis c_digit : hex_digit c = None.
Hypothesis c_underscore : Ascii.eqb "_" c = false.

Lemma hex_digits_foreign s prev acc v : hex_digits prev acc s = Some v -> str_has c s = false.
Proof.
  revert prev acc. induction s as [|a s IH]; intros prev acc; [done|]. simpl. destruct (Ascii.eqb_spec a c) as [->|_].
  - rewrite c_digit, Ascii.eqb_sym, c_underscore. done.
  - destruct (hex_digit a); [by apply IH|]. destruct (_ && _); [by apply IH|done].
Qed.

Hypothesis c_other : is_brace c = false /\ py_isspace c = false /\ str_has c "urn:uuid:-+xX" = false.

Lemma hex_body_foreign s v : hex_body s = Some v -> str_has c s = false.
Proof.
  destruct c_other as (_ & _ & Hx). cbn [str_has] in Hx. rewrite !orb_false_iff in Hx. destruct_and! Hx.
  unfold hex_body. destruct s as [|z [|x rest]]; try apply hex_digits_foreign.
  destruct (Ascii.eqb z "0" && (Ascii.eqb x "x" || Ascii.eqb x "X")) eqn:Hp; [|apply hex_digits_foreign].
  apply andb_true_iff in Hp as [->%Ascii.eqb_eq Hp].
  assert (Hz : Ascii.eqb "0" c = false) by (apply Ascii.eqb_neq; intros <-; discriminate c_digit).
  assert (Hxc : Ascii.eqb x c = false) by (apply orb_true_iff in Hp as [->%Ascii.eqb_eq| ->%Ascii.eqb_eq]; done).
  destruct rest as [|u rest]; [done|]. intros Hd. cbn [str_has]. rewrite Hz, Hxc. cbn [orb].
  destruct (Ascii.eqb_spec u "_") as [->|]; [|by apply hex_digits_foreign in Hd].
  rewrite c_underscore. by apply hex_digits_foreign in Hd.
Qed.

Lemma py_int16_foreign s v : py_int16 s = Some v -> str_has c s = false.
Proof.
  destruct c_other as (_ & Hsp & Hx). cbn [str_has] in Hx. rewrite !orb_false_iff in Hx. destruct_and! Hx. intros Hv.
  destruct (str_has c s) eqn:Hs; [|done]. apply (py_strip_has _ Hsp) in Hs. unfold py_int16 in Hv. exfalso.
  destruct (py_strip s) as [|a rest]; [done|]. revert Hv. destruct (Ascii.eqb_spec a "-") as [->|Hm]; [|destruct (Ascii.eqb_spec a "+") as [->|Hp]].
  - destruct (hex_body rest) as [n|] eqn:Hb; [|done]. intros _. apply hex_body_foreign in Hb. cbn [str_has] in Hs. rewrite Hb, orb_false_r in Hs. congruence.
  - intros Hb%hex_body_foreign. cbn [str_has] in Hs. rewrite Hb, orb_false_r in Hs. congruence.
  - intros Hb%hex_body_foreign. congruence.
Qed.

Lemma UUID_of_string_foreign s u : UUID_of_string s = Some u -> str_has c s = false.
Proof.
  destruct c_other as (Hb & _ & Hx). intros Hu. destruct (str_has c s) eqn:Hs; [|done].
  cbn [str_has] in Hx. rewrite !orb_false_iff in Hx. destruct_and! Hx.
  assert (str_has c (str_remove "-" 0 (strip_braces (str_remove "uuid:" 0 (str_remove "urn:" 0 s)))) = true) as H'.
  { apply str_remove_has; [done|cbn [str_has]; rewrite !orb_false_iff; tauto|]. apply strip_braces_has; [done|].
    do 2 (apply str_remove_has; [done|cbn [str_has]; rewrite !orb_false_iff; tauto|]). done. }
  unfold UUID_of_string in Hu. destruct (_ =? 32)%nat; [|done]. destruct (py_int16 _) as [n|] eqn:Hn; [|done].
  apply py_int16_foreign in Hn. congruence.
Qed.
End Foreign.
