(* ===== verification/Namespaces.v ===== *)
(** * Canonical namespace names

    The dot-segmented names every authorization row is keyed by
    ([src/packages/core/src/threetears/core/namespaces.py]) and the subject
    sanitizer they delegate to ([src/packages/nats/src/threetears/nats/subjects.py]).
    The builders and the parser are translated with every refusal as a value of
    [name_error]; the theorems say that containment is exactly the prefix order on
    segment lists, that the tool-name grammar round-trips, and that the names which
    isolate tenants are injective. *)

From Stdlib Require Import Ascii String Bool List NArith Lia.
From stdpp Require Import base list gmap strings.
From S2P Require Import Prelude.

Open Scope string_scope.

(** ** Constants *)

Definition NAMESPACE_NAME_SEPARATOR : ascii := "."%char.
Definition sep_str : string := String NAMESPACE_NAME_SEPARATOR "".

Definition PLURAL_PREFIX_AGENT := "agents".
Definition PLURAL_PREFIX_HITL := "hitl".
Definition PLURAL_PREFIX_SYSTEM := "system".
Definition PLURAL_PREFIX_TOOL := "tools".
Definition HITL_NAMESPACE_TYPE := "hitl".

Definition PLURAL_PREFIX_BY_NAMESPACE_TYPE : list (string * string) :=
  [("agent", PLURAL_PREFIX_AGENT); ("api_key", "api_keys"); ("audit", "audits");
   ("channel", "channels"); ("conversation", "conversations"); ("customer", "customers");
   ("datasource", "datasources"); (HITL_NAMESPACE_TYPE, PLURAL_PREFIX_HITL);
   ("knowledge", "knowledge"); ("memory", "memories"); ("model", "models");
   ("shared", "shared"); ("shared_agent", "shared_agents");
   ("system", PLURAL_PREFIX_SYSTEM); ("tool", PLURAL_PREFIX_TOOL); ("workspace", "workspaces")].

(** The [ValueError]s of this module, one constructor per [raise]. *)
Inductive name_error :=
| McpNameEmpty
| VersionEmpty
| McpNameRooted
| McpNameEmptyComponent
| NodeEmpty
| NodeIsRoot
| NotUnderTools
| EmptyComponent
| TooFewComponents.

#[export] Instance name_error_eq_dec : EqDecision name_error.
Proof. solve_decision. Defined.

(** ** Segments *)

Definition sanitize_subject_segment (segment : string) : string :=
  str_replace "."%char "-"%char segment.

Definition sanitize_segment (value : string) : string := sanitize_subject_segment value.

Definition build_namespace_name (plural_prefix : string) (segments : list string) : string :=
  let sanitized_segments := map sanitize_segment segments in
  let parts := plural_prefix :: sanitized_segments in
  String.concat sep_str parts.

Definition PLATFORM_RBAC_READ_NAMESPACE : string :=
  build_namespace_name PLURAL_PREFIX_SYSTEM ["platform"; "rbac"].

Definition build_agent_namespace_name (agent_id : UUID) : string :=
  build_namespace_name PLURAL_PREFIX_AGENT [uuid_str agent_id].

(** ** Containment *)

Definition namespace_contains (node name : string) : bool :=
  if str_truthy node && str_truthy name
  then String.eqb name node || starts_with (node ++ sep_str) name
  else false.

(** ** Tool names *)

Definition TOOL_NAME_PREFIX : string := PLURAL_PREFIX_TOOL ++ sep_str.

Record ToolNamespaceName := mkToolNamespaceName {
  mcp_name : string;
  version_segment : string;
}.

Definition build_tool_namespace_name (mcp_name version : string) : result string name_error :=
  raise_if! negb (str_truthy mcp_name) with McpNameEmpty ;;
  raise_if! negb (str_truthy version) with VersionEmpty ;;
  raise_if! namespace_contains PLURAL_PREFIX_TOOL mcp_name with McpNameRooted ;;
  raise_if! negb (forallb str_truthy (split_on NAMESPACE_NAME_SEPARATOR mcp_name))
    with McpNameEmptyComponent ;;
  Ok (String.concat sep_str [PLURAL_PREFIX_TOOL; mcp_name; sanitize_segment version]).

(** [Subjects.tool_provider_node]. *)
Definition tool_provider_node (owned_node : string) : result string name_error :=
  raise_if! negb (str_truthy owned_node) with NodeEmpty ;;
  raise_if! String.eqb owned_node "tools" with NodeIsRoot ;;
  let prefix := "tools" ++ "." in
  if starts_with prefix owned_node then Ok owned_node
  else Ok (prefix ++ owned_node).

Definition build_tool_provider_node_name (stem : string) : result string name_error :=
  tool_provider_node stem.

Definition build_tool_namespace_name_or_none (mcp_name version : string) : option string :=
  match build_tool_namespace_name mcp_name version with
  | Ok result => Some result
  | Err _ => None
  end.

(** The components of [name] after the [tools.] prefix. *)
Definition tool_components (name : string) : list string :=
  split_on NAMESPACE_NAME_SEPARATOR (str_drop (String.length TOOL_NAME_PREFIX) name).

Definition parse_tool_namespace_name (name : string) : result ToolNamespaceName name_error :=
  raise_if! negb (namespace_contains PLURAL_PREFIX_TOOL name && negb (String.eqb name PLURAL_PREFIX_TOOL))
    with NotUnderTools ;;
  let components := tool_components name in
  raise_if! negb (forallb str_truthy components) with EmptyComponent ;;
  raise_if! (length components <? 2)%nat with TooFewComponents ;;
  Ok {| mcp_name := String.concat sep_str (removelast components);
        version_segment := List.last components "" |}.

Definition build_hitl_namespace_name (tool_namespace_name : string) (customer_id : UUID)
  : result string name_error :=
  raise_if! negb (namespace_contains PLURAL_PREFIX_TOOL tool_namespace_name
                  && negb (String.eqb tool_namespace_name PLURAL_PREFIX_TOOL))
    with NotUnderTools ;;
  let components := tool_components tool_namespace_name in
  raise_if! negb (forallb str_truthy components) with EmptyComponent ;;
  Ok (build_namespace_name PLURAL_PREFIX_HITL (components ++ [uuid_hex customer_id])).

(** A constructed [HitlSessionNamespace]; [__post_init__] is the check of its constructor. *)
Record HitlSessionNamespace := mkHitlSessionNamespace {
  hsn_tool_namespace_name : string;
  hsn_customer_id : UUID;
}.

Definition HitlSessionNamespace_init (tool_namespace_name : string) (customer_id : UUID)
  : result HitlSessionNamespace name_error :=
  do! _ <- build_hitl_namespace_name tool_namespace_name customer_id ;;
  Ok {| hsn_tool_namespace_name := tool_namespace_name; hsn_customer_id := customer_id |}.

Definition hitl_namespace_name (h : HitlSessionNamespace) : result string name_error :=
  build_hitl_namespace_name (hsn_tool_namespace_name h) (hsn_customer_id h).

Definition hitl_namespace_type (h : HitlSessionNamespace) : string := HITL_NAMESPACE_TYPE.

(** ** Theorems *)

(** The segments of a name. *)
Definition segments (s : string) : list string := split_on NAMESPACE_NAME_SEPARATOR s.

Lemma sep_app s t : (s ++ sep_str) ++ t = s ++ String NAMESPACE_NAME_SEPARATOR t.
Proof. by rewrite str_app_assoc. Qed.

Lemma segments_beneath s t : segments ((s ++ sep_str) ++ t) = (segments s ++ segments t)%list.
Proof. unfold segments. by rewrite sep_app, split_on_sep. Qed.

Lemma concat_segments s : String.concat sep_str (segments s) = s.
Proof. apply concat_split. Qed.

Lemma segments_concat l :
  l <> [] -> Forall (fun x => str_has "." x = false) l -> segments (String.concat sep_str l) = l.
Proof. apply split_concat. Qed.

Lemma segments_truthy s : str_truthy s = false <-> segments s = [""].
Proof.
  unfold str_truthy. rewrite negb_false_iff, String.eqb_eq. split; [by intros ->|].
  intros H. by apply (split_on_inj NAMESPACE_NAME_SEPARATOR).
Qed.

(** The case analysis behind every use of containment: equality or a strict descendant. *)
Lemma namespace_contains_cases node name :
  namespace_contains node name = true
  <-> node <> "" /\ (name = node \/ exists t, name = (node ++ sep_str) ++ t).
Proof.
  unfold namespace_contains. destruct (str_truthy node) eqn:Hn, (str_truthy name) eqn:Hm; simpl.
  all: rewrite ?orb_true_iff, ?String.eqb_eq, ?starts_with_iff.
  - apply str_truthy_true in Hn. tauto.
  - apply str_truthy_true in Hn. apply negb_false_iff, String.eqb_eq in Hm. subst.
    split; [done|]. intros [_ [H|[t H]]]; [by subst|].
    by destruct node as [|? [|]].
  - apply negb_false_iff, String.eqb_eq in Hn. by split; [|intros [? _]].
  - apply negb_false_iff, String.eqb_eq in Hn. by split; [|intros [? _]].
Qed.

Lemma sanitize_no_dot s : str_has "." (sanitize_segment s) = false.
Proof. by apply str_has_replace. Qed.

Lemma sanitize_plain s : str_has "." s = false -> sanitize_segment s = s.
Proof. apply str_replace_plain. Qed.

Lemma map_sanitize_plain l : Forall (fun s => str_has "." s = false) l -> map sanitize_segment l = l.
Proof. induction 1; simpl; [done|]. by rewrite sanitize_plain, IHForall. Qed.

(** Containment by segments. *)
Lemma namespace_contains_iff node name :
  namespace_contains node name = true <-> node <> "" /\ segments node `prefix_of` segments name.
Proof.
  rewrite namespace_contains_cases. split; intros [Hn H]; (split; [done|]).
  - destruct H as [->|[t ->]]; [done|]. rewrite segments_beneath. by exists (segments t).
  - destruct H as [l Hl]. destruct l as [|x l].
    + left. apply (split_on_inj NAMESPACE_NAME_SEPARATOR). by rewrite app_nil_r in Hl.
    + right. exists (String.concat sep_str (x :: l)).
      rewrite <- (concat_split NAMESPACE_NAME_SEPARATOR name), sep_app.
      change (split_on _ name) with (segments name). rewrite Hl, concat_app by (done || apply split_on_not_nil).
      by rewrite concat_split.
Qed.

(** Containment is a partial order on non-empty names. *)
Lemma namespace_contains_refl n : n <> "" -> namespace_contains n n = true.
Proof. intros H. apply namespace_contains_iff. by split. Qed.

Lemma namespace_contains_trans a b c :
  namespace_contains a b = true -> namespace_contains b c = true -> namespace_contains a c = true.
Proof.
  rewrite !namespace_contains_iff. intros [Ha H1] [_ H2]. split; [done|]. by trans (segments b).
Qed.

Lemma namespace_contains_antisym a b :
  namespace_contains a b = true -> namespace_contains b a = true -> a = b.
Proof.
  rewrite !namespace_contains_iff. intros [_ H1] [_ H2].
  apply (split_on_inj NAMESPACE_NAME_SEPARATOR). by apply (anti_symm prefix).
Qed.

(** Containment of names is the prefix order on their segment lists, so it is a forest:
    [node] contains [name] exactly when [node] is non-empty and its segments lead the segments
    of [name] ([pentest] reaches [pentest.sqlmap] and never [pentestimposter.sqlmap]), and two
    names are each inside the other only when they are equal. *)
Theorem namespace_contains_segments node name :
  (namespace_contains node name = true <-> node <> "" /\ segments node `prefix_of` segments name)
  /\ (namespace_contains node name && namespace_contains name node = true <-> node <> "" /\ node = name).
Proof.
  split; [apply namespace_contains_iff|]. rewrite andb_true_iff. split.
  - intros [H1 H2]. split; [by apply namespace_contains_iff in H1 as [? _]|by apply namespace_contains_antisym].
  - intros [Hn <-]. by rewrite namespace_contains_refl.
Qed.

(** The guard both name parsers share, as the shape of the name. *)
Lemma tools_guard name :
  namespace_contains PLURAL_PREFIX_TOOL name && negb (String.eqb name PLURAL_PREFIX_TOOL) = true
  <-> exists rest, name = TOOL_NAME_PREFIX ++ rest.
Proof.
  rewrite andb_true_iff, negb_true_iff, String.eqb_neq, namespace_contains_cases. split.
  - intros [[_ [->|H]] Hne]; done.
  - intros [t ->]. split; [split; [done|right; by exists t]|done].
Qed.

Lemma tool_components_prefix rest : tool_components (TOOL_NAME_PREFIX ++ rest) = segments rest.
Proof. unfold tool_components. by rewrite str_drop_app. Qed.

Lemma removelast_last_concat l :
  (2 <= length l)%nat ->
  String.concat sep_str (removelast l) ++ String NAMESPACE_NAME_SEPARATOR (List.last l "")
  = String.concat sep_str l.
Proof.
  intros Hl. assert (l <> []) as Hn by (destruct l; simpl in *; [lia|done]).
  change (List.last l "") with (String.concat sep_str [List.last l ""]).
  unfold sep_str. rewrite <- concat_app, <- app_removelast_last; [done|done| |done].
  destruct l as [|x [|y l]]; simpl in *; [lia|lia|done].
Qed.

(** What a successful build says of its arguments and of the name. *)
Lemma build_tool_namespace_name_Ok m v n :
  build_tool_namespace_name m v = Ok n
  <-> m <> "" /\ v <> "" /\ namespace_contains PLURAL_PREFIX_TOOL m = false
      /\ forallb str_truthy (segments m) = true
      /\ n = TOOL_NAME_PREFIX ++ (m ++ String NAMESPACE_NAME_SEPARATOR (sanitize_segment v)).
Proof.
  unfold build_tool_namespace_name. fold (segments m).
  rewrite <- !str_truthy_true.
  destruct (str_truthy m), (str_truthy v); simpl; [|by split; [|intros (?&?&_)]..].
  destruct (namespace_contains _ m); [by split; [|intros (?&?&?&_)]|].
  destruct (forallb _ _); simpl; [|by split; [|intros (?&?&?&?&_)]].
  split; [by intros [= <-]|by intros (_&_&_&_&->)].
Qed.

Lemma segments_tool_rest m v :
  segments (m ++ String NAMESPACE_NAME_SEPARATOR (sanitize_segment v)) = (segments m ++ [sanitize_segment v])%list.
Proof. unfold segments. rewrite split_on_sep, (split_on_plain _ (sanitize_segment v)); [done|apply sanitize_no_dot]. Qed.

(** Parsing a built tool name (the form the other proofs use). *)
Lemma parse_build_tool_name_aux m v n :
  build_tool_namespace_name m v = Ok n ->
  parse_tool_namespace_name n = Ok {| mcp_name := m; version_segment := sanitize_segment v |}.
Proof.
  intros (Hm & Hv & _ & Hs & ->)%build_tool_namespace_name_Ok.
  unfold parse_tool_namespace_name.
  rewrite (proj2 (tools_guard _)) by eauto. cbn [negb].
  rewrite tool_components_prefix, segments_tool_rest.
  rewrite forallb_app, Hs. cbn [forallb].
  unfold sanitize_segment, sanitize_subject_segment.
  rewrite str_replace_truthy, (proj2 (str_truthy_true v)) by done. cbn [negb andb].
  rewrite length_app. pose proof (split_on_not_nil NAMESPACE_NAME_SEPARATOR m) as Hnil. fold (segments m) in Hnil.
  destruct (Nat.ltb_spec (length (segments m) + length [str_replace "." "-" v]) 2) as [Hlt|].
  { simpl in Hlt. destruct (segments m); simpl in *; [done|lia]. }
  rewrite removelast_last, last_last, concat_segments. done.
Qed.

(** Parsing a built tool name gives back the mcp name exactly and the sanitized version. *)
Theorem parse_build_tool_name m v n :
  build_tool_namespace_name m v = Ok n ->
  parse_tool_namespace_name n = Ok {| mcp_name := m; version_segment := sanitize_segment v |}.
Proof. apply parse_build_tool_name_aux. Qed.

Lemma parse_tool_namespace_name_Ok n t :
  parse_tool_namespace_name n = Ok t ->
  n = TOOL_NAME_PREFIX ++ (mcp_name t ++ String NAMESPACE_NAME_SEPARATOR (version_segment t))
  /\ forallb str_truthy (segments (mcp_name t)) = true
  /\ version_segment t <> "" /\ str_has "." (version_segment t) = false.
Proof.
  unfold parse_tool_namespace_name.
  destruct (_ && _) eqn:Hg; [|done]. apply tools_guard in Hg as [rest ->]. cbn [negb].
  rewrite tool_components_prefix.
  destruct (forallb _ _) eqn:Hf; [|done]. cbn [negb].
  destruct (Nat.ltb_spec (length (segments rest)) 2) as [|Hlen]; [done|].
  intros [= <-]. simpl mcp_name. simpl version_segment.
  assert (Hn : segments rest <> []) by apply split_on_not_nil.
  pose proof (split_on_no_sep NAMESPACE_NAME_SEPARATOR rest) as Hd.
  fold (segments rest) in Hd.
  rewrite (app_removelast_last "" Hn) in Hf, Hd. rewrite forallb_app in Hf. rewrite Forall_app in Hd.
  apply andb_true_iff in Hf as [Hf1 Hf2]. destruct Hd as [Hd1 Hd2].
  inversion Hd2; subst. simpl in Hf2. rewrite andb_true_r, str_truthy_true in Hf2.
  rewrite removelast_last_concat, concat_segments by done. repeat split; [|done..].
  rewrite segments_concat; [done| |done].
  destruct (segments rest) as [|? [|]]; simpl in *; [done|lia|done].
Qed.

(** Rebuilding a parsed tool name gives the name back, provided the mcp name is not itself
    rooted at [tools] (which the builder refuses). *)
Theorem build_parse_tool_name n t :
  parse_tool_namespace_name n = Ok t ->
  namespace_contains PLURAL_PREFIX_TOOL (mcp_name t) = false ->
  build_tool_namespace_name (mcp_name t) (version_segment t) = Ok n.
Proof.
  intros (-> & Hs & Hv & Hd)%parse_tool_namespace_name_Ok Hc.
  apply build_tool_namespace_name_Ok. rewrite sanitize_plain by done. repeat split; try done.
  intros Hm. rewrite Hm in Hs. done.
Qed.

(** An mcp name and a sanitized version determine the tool row and are determined by it:
    two builds collide only when the mcp names are equal and the versions sanitize alike. *)
Theorem build_tool_name_inj m1 v1 m2 v2 n :
  build_tool_namespace_name m1 v1 = Ok n -> build_tool_namespace_name m2 v2 = Ok n ->
  m1 = m2 /\ sanitize_segment v1 = sanitize_segment v2.
Proof.
  intros H1 H2.
  apply parse_build_tool_name_aux in H1, H2. rewrite H1 in H2. by injection H2.
Qed.

(** A provider node is rooted exactly once: rooting is idempotent and what it returns lies
    strictly beneath [tools]. *)
Theorem tool_provider_node_rooted stem n :
  tool_provider_node stem = Ok n ->
  tool_provider_node n = Ok n /\ namespace_contains PLURAL_PREFIX_TOOL n = true /\ n <> PLURAL_PREFIX_TOOL.
Proof.
  unfold tool_provider_node.
  destruct (str_truthy stem) eqn:Ht; [|done]. destruct (String.eqb_spec stem "tools") as [|Hne]; [done|].
  cbn [negb]. intros Hn.
  assert (exists rest, n = TOOL_NAME_PREFIX ++ rest) as [rest ->].
  { destruct (starts_with _ stem) eqn:Hs; injection Hn as <-; [|by exists stem].
    apply starts_with_iff in Hs. done. }
  assert (starts_with ("tools" ++ ".") (TOOL_NAME_PREFIX ++ rest) = true) as ->
    by (apply starts_with_iff; by exists rest).
  split; [done|]. split; [|done]. apply namespace_contains_cases. split; [done|]. right. by exists rest.
Qed.

Lemma build_hitl_Ok tn cu n :
  build_hitl_namespace_name tn cu = Ok n ->
  exists rest, tn = TOOL_NAME_PREFIX ++ rest
    /\ n = String.concat sep_str (PLURAL_PREFIX_HITL :: segments rest ++ [uuid_hex cu])%list.
Proof.
  unfold build_hitl_namespace_name.
  destruct (_ && _) eqn:Hg; [|done]. apply tools_guard in Hg as [rest ->]. cbn [negb].
  rewrite tool_components_prefix. destruct (forallb _ _); [|done]. cbn [negb].
  intros [= <-]. exists rest. split; [done|]. unfold build_namespace_name.
  rewrite map_sanitize_plain; [done|]. apply Forall_app. split; [apply split_on_no_sep|].
  repeat constructor. apply hex_fixed_no_dot.
Qed.

(** Two human-in-the-loop sessions are authorized against one namespace row exactly when they
    are served by one tool row for one customer. *)
Theorem build_hitl_isolates t1 c1 t2 c2 n1 n2 :
  uuid_wf c1 -> uuid_wf c2 ->
  build_hitl_namespace_name t1 c1 = Ok n1 -> build_hitl_namespace_name t2 c2 = Ok n2 ->
  n1 = n2 <-> t1 = t2 /\ c1 = c2.
Proof.
  intros Hc1 Hc2 (r1 & -> & ->)%build_hitl_Ok (r2 & -> & ->)%build_hitl_Ok. split.
  - intros H. apply (f_equal segments) in H.
    rewrite !segments_concat in H; try done.
    2,3: constructor; [done|]; apply Forall_app; split; [apply split_on_no_sep|];
      repeat constructor; apply hex_fixed_no_dot.
    injection H as H. apply app_inj_tail in H as [Hs Hh].
    apply split_on_inj in Hs as ->. apply uuid_hex_inj in Hh; done.
  - intros [H ->]. apply str_app_inj_l in H as ->. done.
Qed.

Lemma agent_namespace_segments u :
  segments (build_agent_namespace_name u) = [PLURAL_PREFIX_AGENT; uuid_str u].
Proof.
  unfold build_agent_namespace_name, build_namespace_name. cbn [map].
  rewrite sanitize_plain by apply uuid_str_no_dot.
  apply segments_concat; [done|]. repeat constructor. apply uuid_str_no_dot.
Qed.

Lemma build_agent_namespace_name_inj a b :
  uuid_wf a -> uuid_wf b -> build_agent_namespace_name a = build_agent_namespace_name b -> a = b.
Proof.
  intros Ha Hb H. apply (f_equal segments), (f_equal (lookup 1)) in H. rewrite !agent_namespace_segments in H.
  apply uuid_str_inj; [done..|]. by apply Some_inj.
Qed.

(** Distinct agents have distinct own namespaces, none contains another, and every one lies
    beneath [agents]. *)
Theorem agent_namespace_isolated a b :
  uuid_wf a -> uuid_wf b ->
  namespace_contains PLURAL_PREFIX_AGENT (build_agent_namespace_name a) = true
  /\ (namespace_contains (build_agent_namespace_name a) (build_agent_namespace_name b) = true <-> a = b).
Proof.
  intros Ha Hb. pose proof agent_namespace_segments as Hs.
  rewrite !namespace_contains_iff, !Hs. split; [split; [done|by exists [uuid_str a]]|]. split.
  - intros [_ [l Hl]]. apply (f_equal (lookup 1)) in Hl. apply uuid_str_inj; [done..|]. by apply Some_inj.
  - intros ->. split; [|done]. intros H. apply (f_equal segments) in H. by rewrite Hs in H.
Qed.

(** ** Witnesses *)

Lemma parse_build_tool_name_witness :
  parse_tool_namespace_name "tools.pentest.sqlmap.1-0" = Ok {| mcp_name := "pentest.sqlmap"; version_segment := "1-0" |}.
Proof. apply (parse_build_tool_name "pentest.sqlmap" "1.0"). vm_compute. reflexivity. Defined.

Lemma build_parse_tool_name_witness : build_tool_namespace_name "pentest.sqlmap" "1-0" = Ok "tools.pentest.sqlmap.1-0".
Proof.
  apply (build_parse_tool_name "tools.pentest.sqlmap.1-0" {| mcp_name := "pentest.sqlmap"; version_segment := "1-0" |});
    vm_compute; reflexivity.
Defined.

Lemma build_tool_name_inj_witness : sanitize_segment "1.0" = sanitize_segment "1-0".
Proof. apply (build_tool_name_inj "web" "1.0" "web" "1-0" "tools.web.1-0"); vm_compute; reflexivity. Defined.

Lemma tool_provider_node_rooted_witness : tool_provider_node "tools.web" = Ok "tools.web".
Proof. apply (tool_provider_node_rooted "web" "tools.web"). vm_compute. reflexivity. Defined.

Lemma build_hitl_isolates_witness :
  "hitl.web.1-0.00000000000000000000000000000001" <> "hitl.web.1-0.00000000000000000000000000000002".
Proof.
  intros H. apply (build_hitl_isolates "tools.web.1-0" 1%N "tools.web.1-0" 2%N) in H as [_ H];
    [discriminate H|vm_compute; reflexivity..].
Defined.

Lemma agent_namespace_isolated_witness :
  namespace_contains (build_agent_namespace_name 7) (build_agent_namespace_name 8) <> true.
Proof.
  intros H. apply (agent_namespace_isolated 7 8) in H; [discriminate H|vm_compute; reflexivity..].
Defined.
