(* ===== verification/AclTypes.v ===== *)
(** * Value types of the RBAC evaluator

    [src/packages/agent/acl/src/threetears/agent/acl/types.py]: the frozen dataclasses the
    evaluator reads and returns, the group-nesting setting read from the environment, what a
    role grants for a resource type ([Role.actions_for]) and which namespaces an assignment's
    scope covers ([RoleAssignment.covers]). A [frozenset[str]] is a [gset string], a
    [Mapping[str, frozenset[str]]] a [gmap string (gset string)]. *)

From Stdlib Require Import Ascii String Bool List NArith ZArith Lia.
From stdpp Require Import base list gmap strings.
From S2P Require Import Prelude Namespaces.

Open Scope string_scope.

Definition WILDCARD_RESOURCE_TYPE : string := "*".

(** ** Enumerations *)

Inductive ActorType := ActorUser | ActorAgent.

Inductive MemberType := MemberUser | MemberAgent | MemberGroup.

Inductive ScopeType := ScopeNamespace | ScopeSubtree | ScopeTypeCustomer | ScopeAll.

Inductive LimitingSide := LimitUser | LimitAgent | LimitEqual | LimitNeither.

#[export] Instance ActorType_eq_dec : EqDecision ActorType.
Proof. solve_decision. Defined.
#[export] Instance MemberType_eq_dec : EqDecision MemberType.
Proof. solve_decision. Defined.
#[export] Instance ScopeType_eq_dec : EqDecision ScopeType.
Proof. solve_decision. Defined.
#[export] Instance LimitingSide_eq_dec : EqDecision LimitingSide.
Proof. solve_decision. Defined.

(** The [StrEnum] value of a member type. *)
Definition MemberType_value (t : MemberType) : string :=
  match t with MemberUser => "user" | MemberAgent => "agent" | MemberGroup => "group" end.

(** ** The nesting setting *)

Definition MAX_GROUP_NESTING_LEVELS_ENV := "THREETEARS_ACL_MAX_GROUP_NESTING_LEVELS".
Definition RETIRED_MAX_GROUP_MEMBERSHIP_DEPTH_ENV := "THREETEARS_ACL_MAX_GROUP_MEMBERSHIP_DEPTH".
Definition DEFAULT_MAX_GROUP_NESTING_LEVELS : Z := 3.
Definition MIN_CONFIGURABLE_GROUP_NESTING_LEVELS : Z := 2.
Definition MAX_CONFIGURABLE_GROUP_NESTING_LEVELS : Z := 5.

(** The [ValueError]s [resolve_max_group_nesting_levels] raises. *)
Inductive nesting_error :=
| RetiredVariableSet
| NotAnInteger
| OutsideRange (levels : Z).

Definition resolve_max_group_nesting_levels (environ : gmap string string) : result Z nesting_error :=
  raise_if! isSome (environ !! RETIRED_MAX_GROUP_MEMBERSHIP_DEPTH_ENV) with RetiredVariableSet ;;
  match environ !! MAX_GROUP_NESTING_LEVELS_ENV with
  | None => Ok DEFAULT_MAX_GROUP_NESTING_LEVELS
  | Some raw =>
      match py_int (py_strip raw) with
      | None => Err NotAnInteger
      | Some levels =>
          raise_if! negb ((MIN_CONFIGURABLE_GROUP_NESTING_LEVELS <=? levels)%Z
                          && (levels <=? MAX_CONFIGURABLE_GROUP_NESTING_LEVELS)%Z)
            with OutsideRange levels ;;
          Ok levels
      end
  end.

(** [MAX_GROUP_MEMBERSHIP_DEPTH = MAX_GROUP_NESTING_LEVELS - 1]. *)
Definition max_group_membership_depth (levels : Z) : Z := (levels - 1)%Z.

(** ** Rows *)

Record Namespace := mkNamespace {
  ns_id : UUID;
  ns_customer_id : option UUID;
  ns_type : string;
  ns_owner_agent_id : option UUID;
  ns_name : option string;
  ns_owner_namespace : option string;
}.

Record Group := mkGroup {
  g_id : UUID;
  g_name : string;
  g_customer_id : option UUID;
}.

Record GroupMembership := mkGroupMembership {
  gm_group_id : UUID;
  gm_member_type : MemberType;
  gm_member_id : UUID;
  gm_customer_id : option UUID;
}.

Record Role := mkRole {
  r_id : UUID;
  r_name : string;
  r_permissions : gmap string (gset string);
  r_is_built_in : bool;
  r_customer_id : option UUID;
}.

Record RoleAssignment := mkRoleAssignment {
  ra_id : UUID;
  ra_role_id : UUID;
  ra_group_id : UUID;
  ra_scope_type : ScopeType;
  ra_scope_namespace_id : option UUID;
  ra_scope_namespace_type : option string;
  ra_scope_customer_id : option UUID;
  ra_scope_namespace_name : option string;
}.

#[export] Instance Group_eq_dec : EqDecision Group.
Proof. solve_decision. Defined.
#[export] Instance GroupMembership_eq_dec : EqDecision GroupMembership.
Proof. solve_decision. Defined.
#[export] Instance Role_eq_dec : EqDecision Role.
Proof. solve_decision. Defined.
#[export] Instance RoleAssignment_eq_dec : EqDecision RoleAssignment.
Proof. solve_decision. Defined.

(** [Role.actions_for]. *)
Definition actions_for (r : Role) (resource_type : string) : gset string :=
  let type_specific := default ∅ (r_permissions r !! resource_type) in
  let wildcard := default ∅ (r_permissions r !! WILDCARD_RESOURCE_TYPE) in
  type_specific ∪ wildcard.

(** [RoleAssignment.covers]. *)
Definition covers (a : RoleAssignment) (ns : Namespace) : bool :=
  match ra_scope_type a with
  | ScopeAll => true
  | ScopeNamespace => bool_decide (ra_scope_namespace_id a = Some (ns_id ns))
  | ScopeSubtree =>
      match ra_scope_namespace_name a, ns_name ns with
      | Some root, Some name => namespace_contains root name
      | _, _ => false
      end
  | ScopeTypeCustomer =>
      bool_decide (ra_scope_namespace_type a = Some (ns_type ns))
      && bool_decide (ra_scope_customer_id a = ns_customer_id ns)
  end.

(** ** The question and the answer *)

Record EvaluationContext := mkEvaluationContext {
  ec_namespace : Namespace;
  ec_action : string;
  ec_user_id : option UUID;
  ec_agent_id : option UUID;
  ec_group_id : option UUID;
}.

Record Trail := mkTrail {
  t_group : Group;
  t_assignment : RoleAssignment;
  t_role : Role;
  t_contributed_actions : gset string;
}.

Record EvaluationResult := mkEvaluationResult {
  er_decision : bool;
  er_effective_actions : gset string;
  er_trails : list Trail;
  er_user_actions : gset string;
  er_agent_actions : gset string;
  er_limiting_side : LimitingSide;
  er_user_trails : list Trail;
  er_agent_trails : list Trail;
  er_agent_owner_short_circuited : bool;
}.

(** ** The nesting setting is bounded *)

Lemma resolve_nesting_Ok environ levels :
  resolve_max_group_nesting_levels environ = Ok levels ->
  environ !! RETIRED_MAX_GROUP_MEMBERSHIP_DEPTH_ENV = None
  /\ (environ !! MAX_GROUP_NESTING_LEVELS_ENV = None /\ levels = 3
      \/ exists raw, environ !! MAX_GROUP_NESTING_LEVELS_ENV = Some raw /\ py_int (py_strip raw) = Some levels
           /\ 2 <= levels <= 5)%Z.
Proof.
  unfold resolve_max_group_nesting_levels.
  destruct (environ !! RETIRED_MAX_GROUP_MEMBERSHIP_DEPTH_ENV); simpl; [done|].
  destruct (environ !! MAX_GROUP_NESTING_LEVELS_ENV) as [raw|]; [|intros [= <-]; auto].
  destruct (py_int (py_strip raw)) as [l|] eqn:Hl; [|done].
  destruct ((_ <=? _)%Z && (_ <=? _)%Z) eqn:Hb; simpl; [|done]. intros [= <-]. split; [done|]. right.
  apply andb_true_iff in Hb as [H1%Z.leb_le H2%Z.leb_le]. by exists raw.
Qed.

(** Whatever the environment holds, a process that starts has between two and five levels of
    groups, three unless it says otherwise, so the parent walk takes between one and four hops;
    the retired variable, a non-integer and a value out of range all refuse to start. *)
Theorem resolve_nesting_bounded environ levels :
  resolve_max_group_nesting_levels environ = Ok levels ->
  (1 <= max_group_membership_depth levels <= 4)%Z
  /\ environ !! RETIRED_MAX_GROUP_MEMBERSHIP_DEPTH_ENV = None
  /\ (levels <> DEFAULT_MAX_GROUP_NESTING_LEVELS ->
      exists raw, environ !! MAX_GROUP_NESTING_LEVELS_ENV = Some raw /\ py_int (py_strip raw) = Some levels).
Proof.
  intros [Hr [[_ ->]|(raw & Hraw & Hp & Hb)]]%resolve_nesting_Ok; unfold max_group_membership_depth.
  - split; [lia|]. by split.
  - split; [lia|]. split; [done|]. by exists raw.
Qed.

Lemma resolve_nesting_bounded_witness : (1 <= max_group_membership_depth 5 <= 4)%Z.
Proof.
  apply (resolve_nesting_bounded {[ MAX_GROUP_NESTING_LEVELS_ENV := " 5 " ]}). vm_compute. reflexivity.
Defined.
