(* ===== verification/AclCache.v ===== *)
(** * The evaluator's three-layer cache

    [src/packages/agent/acl/src/threetears/agent/acl/cache.py]. [AclCache] is the state of one
    instance: the three dictionaries, the eviction counter that is the read fence, the count of
    skipped stores, and who follows it. Every method that changes state is a function from a
    cache to a cache (the [RLock] makes each atomic); a method that also returns something
    returns a pair. The [watching] callable is represented by the answer it would give now
    ([Some b]), or [None] when no follower is set; [watch_answers] is the environment changing
    that answer. [now] is the wall-clock reading stamped on an entry, which nothing reads back. *)

From Stdlib Require Import String Bool List NArith ZArith Lia.
From stdpp Require Import base list gmap strings.
From S2P Require Import Prelude Namespaces AclTypes.

Open Scope string_scope.

(** ** Keys and entries *)

Record ActorMembershipKey := mkActorMembershipKey {
  amk_actor_kind : string;
  amk_actor_id : UUID;
}.

Record GroupNamespaceKey := mkGroupNamespaceKey {
  gnk_group_id : UUID;
  gnk_namespace_id : UUID;
}.

Record GroupTypeCustomerKey := mkGroupTypeCustomerKey {
  gtk_group_id : UUID;
  gtk_namespace_type : string;
  gtk_customer_id : UUID;
}.

#[export] Instance ActorMembershipKey_eq_dec : EqDecision ActorMembershipKey.
Proof. solve_decision. Defined.
#[export] Instance ActorMembershipKey_countable : Countable ActorMembershipKey.
Proof.
  apply (inj_countable' (fun k => (amk_actor_kind k, amk_actor_id k))
                        (fun p => mkActorMembershipKey p.1 p.2)). by intros [].
Defined.
#[export] Instance GroupNamespaceKey_eq_dec : EqDecision GroupNamespaceKey.
Proof. solve_decision. Defined.
#[export] Instance GroupNamespaceKey_countable : Countable GroupNamespaceKey.
Proof.
  apply (inj_countable' (fun k => (gnk_group_id k, gnk_namespace_id k))
                        (fun p => mkGroupNamespaceKey p.1 p.2)). by intros [].
Defined.
#[export] Instance GroupTypeCustomerKey_eq_dec : EqDecision GroupTypeCustomerKey.
Proof. solve_decision. Defined.
#[export] Instance GroupTypeCustomerKey_countable : Countable GroupTypeCustomerKey.
Proof.
  apply (inj_countable' (fun k => (gtk_group_id k, gtk_namespace_type k, gtk_customer_id k))
                        (fun p => mkGroupTypeCustomerKey p.1.1 p.1.2 p.2)). by intros [].
Defined.

Record ActorMembershipEntry := mkActorMembershipEntry {
  ame_memberships : list GroupMembership;
  ame_date_cached : Z;
}.

Record GroupNamespaceEntry := mkGroupNamespaceEntry {
  gne_actions : gset string;
  gne_trails : list Trail;
  gne_date_cached : Z;
  gne_role_ids : option (gset UUID);
}.

Record GroupTypeCustomerEntry := mkGroupTypeCustomerEntry {
  gte_actions : gset string;
  gte_trails : list Trail;
  gte_date_cached : Z;
}.

(** ** The cache *)

Record AclCache := mkAclCache {
  ac_membership : gmap ActorMembershipKey ActorMembershipEntry;
  ac_group_namespace : gmap GroupNamespaceKey GroupNamespaceEntry;
  ac_group_type_customer : gmap GroupTypeCustomerKey GroupTypeCustomerEntry;
  ac_evictions : Z;
  ac_fence_skipped_stores : Z;
  ac_watching : option bool;
  ac_ever_followed : bool;
}.

(** [AclCache.__init__]. *)
Definition AclCache_init : AclCache := mkAclCache ∅ ∅ ∅ 0 0 None false.

Definition with_membership f (c : AclCache) : AclCache :=
  mkAclCache (f (ac_membership c)) (ac_group_namespace c) (ac_group_type_customer c)
    (ac_evictions c) (ac_fence_skipped_stores c) (ac_watching c) (ac_ever_followed c).
Definition with_group_namespace f (c : AclCache) : AclCache :=
  mkAclCache (ac_membership c) (f (ac_group_namespace c)) (ac_group_type_customer c)
    (ac_evictions c) (ac_fence_skipped_stores c) (ac_watching c) (ac_ever_followed c).
Definition with_group_type_customer f (c : AclCache) : AclCache :=
  mkAclCache (ac_membership c) (ac_group_namespace c) (f (ac_group_type_customer c))
    (ac_evictions c) (ac_fence_skipped_stores c) (ac_watching c) (ac_ever_followed c).
(** [self._evictions += 1]. *)
Definition bump_evictions (c : AclCache) : AclCache :=
  mkAclCache (ac_membership c) (ac_group_namespace c) (ac_group_type_customer c)
    (ac_evictions c + 1) (ac_fence_skipped_stores c) (ac_watching c) (ac_ever_followed c).
Definition bump_fence_skipped (c : AclCache) : AclCache :=
  mkAclCache (ac_membership c) (ac_group_namespace c) (ac_group_type_customer c)
    (ac_evictions c) (ac_fence_skipped_stores c + 1) (ac_watching c) (ac_ever_followed c).

(** *** Trust *)

(** [_empty_locked]. *)
Definition empty_locked (c : AclCache) : AclCache :=
  with_group_type_customer (fun _ => ∅)
    (with_group_namespace (fun _ => ∅) (with_membership (fun _ => ∅) (bump_evictions c))).

(** [_size_locked]. *)
Definition size_locked (c : AclCache) : nat :=
  size (ac_membership c) + size (ac_group_namespace c) + size (ac_group_type_customer c).

Definition followed_by (watching : option bool) (c : AclCache) : AclCache :=
  let c := if negb (isSome watching) || negb (ac_ever_followed c) then empty_locked c else c in
  mkAclCache (ac_membership c) (ac_group_namespace c) (ac_group_type_customer c)
    (ac_evictions c) (ac_fence_skipped_stores c) watching true.

Definition followed (c : AclCache) : bool := ac_ever_followed c && isSome (ac_watching c).

(** [_trusted_locked]: a lost trust empties the cache. *)
Definition trusted_locked (c : AclCache) : bool * AclCache :=
  if negb (ac_ever_followed c) then (true, c)
  else
    let trusted := match ac_watching c with Some answer => answer | None => false end in
    if negb trusted && negb (size_locked c =? 0)%nat
    then (trusted, empty_locked c)
    else (trusted, c).

Definition trusted (c : AclCache) : bool * AclCache := trusted_locked c.

(** The environment: a watch that starts or stops running changes what [watching()] answers. *)
Definition watch_answers (b : bool) (c : AclCache) : AclCache :=
  match ac_watching c with
  | Some _ => mkAclCache (ac_membership c) (ac_group_namespace c) (ac_group_type_customer c)
                (ac_evictions c) (ac_fence_skipped_stores c) (Some b) (ac_ever_followed c)
  | None => c
  end.

(** *** The read fence *)

Definition read_fence (c : AclCache) : Z := ac_evictions c.

(** [_fence_moved]. *)
Definition fence_moved (fence : option Z) (c : AclCache) : bool * AclCache :=
  let moved := match fence with Some f => negb (f =? ac_evictions c)%Z | None => false end in
  (moved, if moved then bump_fence_skipped c else c).

(** The common tail of [put_*]: [if self._trusted_locked() and not self._fence_moved(fence)]. *)
Definition store_guarded (fence : option Z) (store : AclCache -> AclCache) (c : AclCache) : AclCache :=
  let '(t, c1) := trusted_locked c in
  if t then
    let '(moved, c2) := fence_moved fence c1 in
    if moved then c2 else store c2
  else c1.

(** *** The membership layer *)

Definition get_membership (key : ActorMembershipKey) (c : AclCache)
  : option ActorMembershipEntry * AclCache :=
  let '(t, c1) := trusted_locked c in
  (if t then ac_membership c1 !! key else None, c1).

Definition put_membership (now : Z) (key : ActorMembershipKey) (memberships : list GroupMembership)
    (fence : option Z) (c : AclCache) : AclCache :=
  let entry := mkActorMembershipEntry memberships now in
  store_guarded fence (with_membership (insert key entry)) c.

Definition invalidate_membership (key : ActorMembershipKey) (c : AclCache) : AclCache :=
  with_membership (delete key) (bump_evictions c).

Definition invalidate_membership_for_actor (actor_kind : string) (actor_id : UUID) (c : AclCache)
  : AclCache :=
  invalidate_membership (mkActorMembershipKey actor_kind actor_id) c.

(** *** The per-namespace layer *)

Definition get_group_namespace (key : GroupNamespaceKey) (c : AclCache)
  : option GroupNamespaceEntry * AclCache :=
  let '(t, c1) := trusted_locked c in
  (if t then ac_group_namespace c1 !! key else None, c1).

Definition put_group_namespace (now : Z) (key : GroupNamespaceKey) (actions : gset string)
    (trails : list Trail) (role_ids : option (gset UUID)) (fence : option Z) (c : AclCache)
  : AclCache :=
  let entry := mkGroupNamespaceEntry actions trails now role_ids in
  store_guarded fence (with_group_namespace (insert key entry)) c.

Definition invalidate_group_namespace (key : GroupNamespaceKey) (c : AclCache) : AclCache :=
  with_group_namespace (delete key) (bump_evictions c).

Definition invalidate_namespace (namespace_id : UUID) (c : AclCache) : AclCache :=
  with_group_namespace
    (filter (fun kv : GroupNamespaceKey * GroupNamespaceEntry => gnk_namespace_id kv.1 ≠ namespace_id))
    (bump_evictions c).

Definition invalidate_group (group_id : UUID) (c : AclCache) : AclCache :=
  with_group_type_customer
    (filter (fun kv : GroupTypeCustomerKey * GroupTypeCustomerEntry => gtk_group_id kv.1 ≠ group_id))
    (with_group_namespace
       (filter (fun kv : GroupNamespaceKey * GroupNamespaceEntry => gnk_group_id kv.1 ≠ group_id))
       (bump_evictions c)).

(** *** The type+customer layer *)

Definition get_group_type_customer (key : GroupTypeCustomerKey) (c : AclCache)
  : option GroupTypeCustomerEntry * AclCache :=
  let '(t, c1) := trusted_locked c in
  (if t then ac_group_type_customer c1 !! key else None, c1).

Definition put_group_type_customer (now : Z) (key : GroupTypeCustomerKey) (actions : gset string)
    (trails : list Trail) (fence : option Z) (c : AclCache) : AclCache :=
  let entry := mkGroupTypeCustomerEntry actions trails now in
  store_guarded fence (with_group_type_customer (insert key entry)) c.

Definition invalidate_group_type_customer (key : GroupTypeCustomerKey) (c : AclCache) : AclCache :=
  with_group_type_customer (delete key) (bump_evictions c).

(** *** Bulk and row-by-row eviction *)

Definition invalidate_all (c : AclCache) : AclCache := empty_locked c.

Definition drop_membership_layer (c : AclCache) : AclCache :=
  with_membership (fun _ => ∅) (bump_evictions c).

Definition drop_assignment_layers (c : AclCache) : AclCache :=
  with_group_type_customer (fun _ => ∅) (with_group_namespace (fun _ => ∅) (bump_evictions c)).

Definition evict_group_member_row (member_kind : option string) (member_id : option UUID)
    (c : AclCache) : AclCache :=
  match member_kind, member_id with
  | Some kind, Some id => invalidate_membership_for_actor kind id c
  | _, _ => drop_membership_layer c
  end.

Definition evict_role_assignment_row (group_id : option UUID) (c : AclCache) : AclCache :=
  match group_id with
  | None => drop_assignment_layers c
  | Some g => invalidate_group g c
  end.

(** The entries an edit of [role_id] does not reach. *)
Definition role_unread (role_id : UUID) (e : GroupNamespaceEntry) : bool :=
  match gne_role_ids e with
  | None => false
  | Some roles => negb (bool_decide (role_id ∈ roles))
  end.

Definition evict_role_row (role_id : UUID) (c : AclCache) : AclCache :=
  with_group_type_customer (fun _ => ∅)
    (with_group_namespace
       (filter (fun kv : GroupNamespaceKey * GroupNamespaceEntry => role_unread role_id kv.2 = true))
       (bump_evictions c)).

(** Whether a membership entry names [group_id]. *)
Definition entry_names_group (group_id : UUID) (e : ActorMembershipEntry) : bool :=
  existsb (fun m => bool_decide (gm_group_id m = group_id)) (ame_memberships e).

Definition evict_group_row (group_id : UUID) (c : AclCache) : AclCache :=
  let c := invalidate_group group_id c in
  let c := with_membership (delete (mkActorMembershipKey "group" group_id)) c in
  with_membership
    (filter (fun kv : ActorMembershipKey * ActorMembershipEntry => entry_names_group group_id kv.2 = false)) c.

Definition cache_size (c : AclCache) : nat := size_locked c.
Definition membership_size (c : AclCache) : nat := size (ac_membership c).
Definition group_namespace_size (c : AclCache) : nat := size (ac_group_namespace c).
Definition group_type_customer_size (c : AclCache) : nat := size (ac_group_type_customer c).

(** ** What every operation does to the layers and the fence *)

(** [c'] holds nothing [c] did not, and its fence has not gone back. *)
Record shrinks (c c' : AclCache) : Prop := {
  shr_membership : ac_membership c' ⊆ ac_membership c;
  shr_group_namespace : ac_group_namespace c' ⊆ ac_group_namespace c;
  shr_group_type_customer : ac_group_type_customer c' ⊆ ac_group_type_customer c;
  shr_evictions : (ac_evictions c <= ac_evictions c')%Z;
}.

#[export] Instance shrinks_preorder : PreOrder shrinks.
Proof.
  split; [by split|]. intros c1 c2 c3 [] []. split; [by etrans..|lia].
Qed.

(** The operations other than a store: lookups, evictions, and changes of who follows the cache. *)
Inductive cache_op :=
| OpGetMembership (key : ActorMembershipKey)
| OpGetGroupNamespace (key : GroupNamespaceKey)
| OpGetGroupTypeCustomer (key : GroupTypeCustomerKey)
| OpTrusted
| OpWatchAnswers (b : bool)
| OpFollowedBy (watching : option bool)
| OpInvalidateMembership (key : ActorMembershipKey)
| OpInvalidateGroupNamespace (key : GroupNamespaceKey)
| OpInvalidateNamespace (namespace_id : UUID)
| OpInvalidateGroup (group_id : UUID)
| OpInvalidateGroupTypeCustomer (key : GroupTypeCustomerKey)
| OpInvalidateAll
| OpDropMembershipLayer
| OpDropAssignmentLayers
| OpEvictGroupMemberRow (member_kind : option string) (member_id : option UUID)
| OpEvictRoleAssignmentRow (group_id : option UUID)
| OpEvictRoleRow (role_id : UUID)
| OpEvictGroupRow (group_id : UUID).

Definition run_op (op : cache_op) (c : AclCache) : AclCache :=
  match op with
  | OpGetMembership k => (get_membership k c).2
  | OpGetGroupNamespace k => (get_group_namespace k c).2
  | OpGetGroupTypeCustomer k => (get_group_type_customer k c).2
  | OpTrusted => (trusted c).2
  | OpWatchAnswers b => watch_answers b c
  | OpFollowedBy w => followed_by w c
  | OpInvalidateMembership k => invalidate_membership k c
  | OpInvalidateGroupNamespace k => invalidate_group_namespace k c
  | OpInvalidateNamespace i => invalidate_namespace i c
  | OpInvalidateGroup g => invalidate_group g c
  | OpInvalidateGroupTypeCustomer k => invalidate_group_type_customer k c
  | OpInvalidateAll => invalidate_all c
  | OpDropMembershipLayer => drop_membership_layer c
  | OpDropAssignmentLayers => drop_assignment_layers c
  | OpEvictGroupMemberRow k i => evict_group_member_row k i c
  | OpEvictRoleAssignmentRow g => evict_role_assignment_row g c
  | OpEvictRoleRow r => evict_role_row r c
  | OpEvictGroupRow g => evict_group_row g c
  end.

(** The operations that evict, whatever the cache holds. *)
Definition evicts (op : cache_op) : bool :=
  match op with
  | OpGetMembership _ | OpGetGroupNamespace _ | OpGetGroupTypeCustomer _ | OpTrusted
  | OpWatchAnswers _ | OpFollowedBy (Some _) => false
  | _ => true
  end.

Definition run_ops (ops : list cache_op) (c : AclCache) : AclCache := fold_left (fun c op => run_op op c) ops c.

(** Closing the layer inclusions of an eviction. *)
Ltac shrink_layers :=
  split; simpl; try done; try apply map_empty_subseteq; try apply delete_subseteq; try apply map_filter_subseteq;
  try lia; try (by etrans; [apply map_filter_subseteq|apply delete_subseteq]).

Lemma trusted_locked_shrinks c : shrinks c (trusted_locked c).2.
Proof. unfold trusted_locked. repeat case_match; simpl; [done|shrink_layers..]. Qed.

Lemma run_op_shrinks op c : shrinks c (run_op op c).
Proof.
  pose proof (trusted_locked_shrinks c) as Ht. destruct op; simpl.
  1-3: unfold get_membership, get_group_namespace, get_group_type_customer; by destruct (trusted_locked c).
  - done.
  - unfold watch_answers. case_match; shrink_layers.
  - unfold followed_by. case_match; shrink_layers.
  - shrink_layers.
  - shrink_layers.
  - shrink_layers.
  - shrink_layers.
  - shrink_layers.
  - shrink_layers.
  - shrink_layers.
  - shrink_layers.
  - unfold evict_group_member_row. destruct member_kind, member_id; shrink_layers.
  - unfold evict_role_assignment_row. destruct group_id; shrink_layers.
  - shrink_layers.
  - shrink_layers.
Qed.

Lemma run_op_evicts op c : evicts op = true -> (ac_evictions c < ac_evictions (run_op op c))%Z.
Proof.
  destruct op as [| | | | |[w|]| | | | | | | | |[k|] [i|]|[g|]| |]; simpl; try done; intros _;
    unfold followed_by; simpl; try lia.
Qed.

Lemma run_ops_shrinks ops c : shrinks c (run_ops ops c).
Proof.
  revert c. induction ops as [|op ops IH]; intros c; [done|]. simpl.
  etrans; [apply run_op_shrinks|]. apply IH.
Qed.

Lemma run_ops_evicts ops c : existsb evicts ops = true -> (ac_evictions c < ac_evictions (run_ops ops c))%Z.
Proof.
  revert c. induction ops as [|op ops IH]; intros c; simpl; [done|]. intros [He|He]%orb_true_iff.
  - pose proof (run_op_evicts op c He). pose proof (shr_evictions _ _ (run_ops_shrinks ops (run_op op c))). lia.
  - pose proof (shr_evictions _ _ (run_op_shrinks op c)). pose proof (IH (run_op op c) He). lia.
Qed.

(** A store under a fence an eviction has moved. *)
Lemma store_guarded_stale f store c :
  (f < ac_evictions c)%Z -> shrinks c (store_guarded (Some f) store c).
Proof.
  intros Hf. unfold store_guarded. pose proof (trusted_locked_shrinks c) as Ht.
  destruct (trusted_locked c) as [[] c1]; [|done]. simpl in Ht. unfold fence_moved.
  pose proof (shr_evictions _ _ Ht). destruct (Z.eqb_spec f (ac_evictions c1)); [lia|]. simpl.
  etrans; [done|]. split; simpl; (done || lia).
Qed.

(** The read fence: once anything has been evicted since a fence was taken, none of the three
    stores can put anything back under it, whatever else ran in between: each leaves no entry that
    was not there before it. *)
Theorem fence_blocks_stale_store ops now c mk ms gk gactions gtrails groles tk tactions ttrails :
  existsb evicts ops = true ->
  let fence := Some (read_fence c) in
  let later := run_ops ops c in
  shrinks later (put_membership now mk ms fence later)
  /\ shrinks later (put_group_namespace now gk gactions gtrails groles fence later)
  /\ shrinks later (put_group_type_customer now tk tactions ttrails fence later).
Proof.
  intros He fence later. pose proof (run_ops_evicts ops c He). split_and!; by apply store_guarded_stale.
Qed.

Lemma fence_blocks_stale_store_witness :
  let c := AclCache_init in
  let later := run_ops [OpGetMembership (mkActorMembershipKey "user" 1); OpEvictRoleRow 7] c in
  ac_group_namespace (put_group_namespace 5 (mkGroupNamespaceKey 1 2) ∅ [] None (Some (read_fence c)) later)
    ⊆ ac_group_namespace later.
Proof.
  intros c later.
  destruct (fence_blocks_stale_store [OpGetMembership (mkActorMembershipKey "user" 1); OpEvictRoleRow 7] 5 c
    (mkActorMembershipKey "user" 1) [] (mkGroupNamespaceKey 1 2) ∅ [] None (mkGroupTypeCustomerKey 1 "tool" 2) ∅ [] eq_refl)
    as (_ & [_ H _ _] & _).
  exact H.
Defined.

(** *** Round trip under an unmoved fence *)

Definition is_trusted (c : AclCache) : bool := (trusted_locked c).1.

Lemma trusted_locked_true c : is_trusted c = true -> trusted_locked c = (true, c).
Proof.
  unfold is_trusted, trusted_locked. destruct (ac_ever_followed c); simpl; [|done].
  destruct (ac_watching c) as [[]|]; simpl; try done; by case_match.
Qed.

Lemma is_trusted_fields c c' :
  ac_ever_followed c = ac_ever_followed c' -> ac_watching c = ac_watching c' -> is_trusted c = is_trusted c'.
Proof.
  intros H1 H2. unfold is_trusted, trusted_locked. rewrite H1, H2.
  destruct (ac_ever_followed c'); simpl; [|done]. by repeat case_match.
Qed.

Lemma store_guarded_live store c : is_trusted c = true -> store_guarded (Some (read_fence c)) store c = store c.
Proof.
  intros Ht. unfold store_guarded. rewrite trusted_locked_true by done. unfold fence_moved, read_fence.
  by rewrite Z.eqb_refl.
Qed.

(** On a trusted cache whose fence has not moved, what each layer stores is what its next
    lookup returns, and no other key of the layer changes. *)
Theorem fenced_store_round_trip now c mk ms gk gactions gtrails groles tk tactions ttrails :
  is_trusted c = true ->
  let fence := Some (read_fence c) in
  (forall k, (get_membership k (put_membership now mk ms fence c)).1
     = if decide (k = mk) then Some (mkActorMembershipEntry ms now) else (get_membership k c).1)
  /\ (forall k, (get_group_namespace k (put_group_namespace now gk gactions gtrails groles fence c)).1
     = if decide (k = gk) then Some (mkGroupNamespaceEntry gactions gtrails now groles) else (get_group_namespace k c).1)
  /\ (forall k, (get_group_type_customer k (put_group_type_customer now tk tactions ttrails fence c)).1
     = if decide (k = tk) then Some (mkGroupTypeCustomerEntry tactions ttrails now)
       else (get_group_type_customer k c).1).
Proof.
  intros Ht fence. unfold put_membership, put_group_namespace, put_group_type_customer, fence.
  rewrite !store_guarded_live by done.
  unfold get_membership, get_group_namespace, get_group_type_customer.
  rewrite (trusted_locked_true c Ht).
  split_and!; intros k; (rewrite trusted_locked_true by (erewrite is_trusted_fields; [exact Ht|done..]));
    simpl; case_decide; subst; by rewrite ?lookup_insert_eq, ?lookup_insert_ne by done.
Qed.

Lemma fenced_store_round_trip_witness :
  (get_membership (mkActorMembershipKey "user" 1)
     (put_membership 5 (mkActorMembershipKey "user" 1) [] (Some (read_fence AclCache_init)) AclCache_init)).1
  = Some (mkActorMembershipEntry [] 5).
Proof.
  destruct (fenced_store_round_trip 5 AclCache_init (mkActorMembershipKey "user" 1) [] (mkGroupNamespaceKey 1 2) ∅ [] None
    (mkGroupTypeCustomerKey 1 "tool" 2) ∅ [] eq_refl) as (H & _ & _).
  rewrite H. rewrite decide_True; reflexivity.
Defined.

(** *** Lost trust *)

(** Followed, and the follower's watches are not running (or it has stopped). *)
Definition untrusted (c : AclCache) : Prop := ac_ever_followed c = true /\ ac_watching c <> Some true.

(** The operations that bring trust back. *)
Definition restores (op : cache_op) : bool :=
  match op with OpWatchAnswers true | OpFollowedBy (Some true) => true | _ => false end.

Lemma untrusted_locked c : untrusted c ->
  is_trusted c = false /\ size_locked (trusted_locked c).2 = 0 /\ untrusted (trusted_locked c).2.
Proof.
  intros [Hf Hw]. unfold is_trusted, untrusted, trusted_locked. rewrite Hf. simpl.
  assert (E : match ac_watching c with Some answer => answer | None => false end = false)
    by (by destruct (ac_watching c) as [[]|]).
  rewrite E. simpl. destruct (Nat.eqb_spec (size_locked c) 0); simpl; [done|].
  unfold size_locked. simpl. by rewrite !map_size_empty.
Qed.

Lemma run_op_untrusted op c : restores op = false -> untrusted c -> untrusted (run_op op c).
Proof.
  intros Hr Hc. pose proof (untrusted_locked c Hc) as (_ & _ & Ht). pose proof Hc as [Hf Hw].
  destruct op as [| | | |[]|[[]|]| | | | | | | | |[k|] [i|]|[g|]| |]; simpl in *; try done.
  1-3: unfold get_membership, get_group_namespace, get_group_type_customer; by destruct (trusted_locked c).
  unfold watch_answers. by destruct (ac_watching c) eqn:E; split; simpl; rewrite ?E.
Qed.

(** From the moment its follower's watches stop, a followed cache answers nothing and keeps
    nothing, through every operation until the watches run again: every lookup misses, the lookup
    itself empties the cache, and a store leaves it empty even under an unmoved fence. *)
Theorem untrusted_serves_nothing ops now c mk ms gk tk fence :
  untrusted c -> forallb (fun op => negb (restores op)) ops = true ->
  let later := run_ops ops c in
  (get_membership mk later).1 = None /\ (get_group_namespace gk later).1 = None
  /\ (get_group_type_customer tk later).1 = None
  /\ cache_size (get_membership mk later).2 = 0
  /\ cache_size (put_membership now mk ms fence later) = 0.
Proof.
  intros Hc Hops later.
  assert (Hl : untrusted later).
  { subst later. revert c Hc Hops. induction ops as [|op ops IH]; intros c Hc; simpl; [done|].
    intros [Ho%negb_true_iff Hops]%andb_true_iff. apply IH; [by apply run_op_untrusted|done]. }
  destruct (untrusted_locked later Hl) as (Ht & Hs & _). unfold is_trusted in Ht.
  unfold get_membership, get_group_namespace, get_group_type_customer, put_membership, store_guarded, cache_size.
  destruct (trusted_locked later) as [t c1]. simpl in *. by subst t.
Qed.

Lemma untrusted_serves_nothing_witness :
  let c := run_ops [OpFollowedBy (Some true); OpWatchAnswers false] AclCache_init in
  (get_membership (mkActorMembershipKey "user" 1) (run_ops [OpTrusted; OpInvalidateGroup 4] c)).1 = None.
Proof.
  intros c. apply (untrusted_serves_nothing [OpTrusted; OpInvalidateGroup 4] 5 c (mkActorMembershipKey "user" 1) []
    (mkGroupNamespaceKey 1 2) (mkGroupTypeCustomerKey 1 "tool" 2) None).
  - split; [reflexivity|discriminate].
  - reflexivity.
Defined.

(** *** What a row evicts *)

(** Each row broadcast evicts exactly the entries it reaches: a membership row one actor's
    entry; an assignment row every entry of its group; a role row the per-namespace entries that
    read the role, or do not say which they read; a group row its own entries, its parents and
    every membership entry naming it. Everything else stays as it was. *)
Theorem row_evictions_exact c kind member_id group_id role_id :
  let m := evict_group_member_row (Some kind) (Some member_id) c in
  let a := evict_role_assignment_row (Some group_id) c in
  let r := evict_role_row role_id c in
  let g := evict_group_row group_id c in
  (forall k e, ac_membership m !! k = Some e <->
     ac_membership c !! k = Some e /\ k <> mkActorMembershipKey kind member_id)
  /\ ac_group_namespace m = ac_group_namespace c
  /\ ac_membership a = ac_membership c
  /\ (forall k e, ac_group_namespace a !! k = Some e <-> ac_group_namespace c !! k = Some e /\ gnk_group_id k <> group_id)
  /\ ac_membership r = ac_membership c
  /\ (forall k e, ac_group_namespace r !! k = Some e <-> ac_group_namespace c !! k = Some e
       /\ exists roles, gne_role_ids e = Some roles /\ role_id ∉ roles)
  /\ (forall k e, ac_group_namespace g !! k = Some e <-> ac_group_namespace c !! k = Some e /\ gnk_group_id k <> group_id)
  /\ (forall k e, ac_membership g !! k = Some e <-> ac_membership c !! k = Some e
       /\ k <> mkActorMembershipKey "group" group_id /\ Forall (fun m => gm_group_id m <> group_id) (ame_memberships e)).
Proof.
  assert (Hn : forall e, entry_names_group group_id e = false <-> Forall (fun m => gm_group_id m <> group_id) (ame_memberships e)).
  { intros e. unfold entry_names_group. rewrite <- not_true_iff_false, existsb_exists, Forall_forall.
    setoid_rewrite bool_decide_eq_true. setoid_rewrite list_elem_of_In. naive_solver. }
  assert (Hr : forall e, role_unread role_id e = true <-> exists roles, gne_role_ids e = Some roles /\ role_id ∉ roles).
  { intros e. unfold role_unread. destruct (gne_role_ids e) as [roles|]; [|by split; [|intros (? & ? & _)]].
    rewrite negb_true_iff, bool_decide_eq_false. naive_solver. }
  simpl. split_and!; try done; intros k e; rewrite ?map_lookup_filter_Some; simpl.
  - rewrite lookup_delete_Some. naive_solver.
  - reflexivity.
  - by rewrite Hr.
  - reflexivity.
  - rewrite lookup_delete_Some, Hn. naive_solver.
Qed.

(** A cache whose follower has stopped is trusted again as soon as another one follows it. *)
Theorem followed_again_is_trusted c : is_trusted (followed_by None c) = false /\ is_trusted (followed_by (Some true) (followed_by None c)) = true.
Proof. unfold is_trusted, trusted_locked, followed_by. simpl. by destruct (size_locked _ =? 0)%nat. Qed.
