(* ===== verification/AclEvaluator.v ===== *)
(** * The RBAC evaluator

    [src/packages/agent/acl/src/threetears/agent/acl/evaluator.py]: "can this actor do this
    action on this namespace". The coroutines are functions on the cache state ([M AclCache]);
    the two loader protocols ([loader.py]) are the operations of the class [Loaders], whose
    optional batch methods are [None] for a loader that is not a [ParentGroupsLoader] or a
    [HeldAssignmentsLoader]. The result of an evaluation is a value of [result] with the
    [ValueError]s as [eval_error]. *)

From Stdlib Require Import Ascii String Bool List NArith ZArith Lia.
From stdpp Require Import base list gmap strings sorting.
From S2P Require Import Prelude Namespaces AclTypes AclCache.

Open Scope string_scope.

Definition READ_FILE_MATCHING_PREFIX : string := "read_file_matching:".
Definition WRITE_FILE_MATCHING_PREFIX : string := "write_file_matching:".

Inductive eval_error :=
| GroupAlongsideActor
| NoActor
| BadDirection.

(** What a grant loader may return for a group id: a [Group], an object with its three
    attributes, or anything else. *)
Inductive raw_group :=
| RawGroup (g : Group)
| RawDuck (id : UUID) (name : string) (customer_id : option UUID)
| RawOther.

(** ** The loader protocols *)

Class Loaders := {
  load_for_user : UUID -> list GroupMembership;
  load_for_agent : UUID -> list GroupMembership;
  load_for_group : UUID -> list GroupMembership;
  load_for_groups : option (list UUID -> list GroupMembership);
  load_assignments_for_groups : list UUID -> Namespace -> list RoleAssignment;
  load_assignments_held_by_groups : option (list UUID -> list RoleAssignment);
  load_roles : list UUID -> gmap UUID Role;
  load_groups : list UUID -> gmap UUID raw_group;
}.

(** ** Validation and ownership *)

(** [_check_context]. *)
Definition check_context (ctx : EvaluationContext) : result unit eval_error :=
  raise_if! isSome (ec_group_id ctx) && (isSome (ec_user_id ctx) || isSome (ec_agent_id ctx))
    with GroupAlongsideActor ;;
  raise_if! negb (isSome (ec_user_id ctx)) && negb (isSome (ec_agent_id ctx)) && negb (isSome (ec_group_id ctx))
    with NoActor ;;
  Ok tt.

(** [_agent_owns_namespace]. *)
Definition agent_owns_namespace (ns : Namespace) (agent_id : UUID) : bool :=
  match ns_owner_namespace ns with
  | None => false
  | Some owner_namespace => String.eqb owner_namespace (build_agent_namespace_name agent_id)
  end.

(** ** Action sets: a frozenset, or the owner sentinel *)

Inductive action_set :=
| Plain (s : gset string)
| AllActions.

(** The sentinel seen as a frozenset ([len], iteration, truth): it is empty. *)
Definition as_frozenset (a : action_set) : gset string :=
  match a with Plain s => s | AllActions => ∅ end.

(** [_AllActionsSet.__contains__], and a frozenset's. *)
Definition aset_contains (item : string) (a : action_set) : bool :=
  match a with Plain s => bool_decide (item ∈ s) | AllActions => true end.

(** [user_actions & agent_actions]: the sentinel's [__rand__] answers when it is on the right. *)
Definition aset_rand (other : gset string) (a : action_set) : gset string :=
  match a with Plain s => other ∩ s | AllActions => other end.

Definition OWNER_ACTIONS : action_set := AllActions.

(** [if not s]. *)
Definition set_falsy (s : gset string) : bool := bool_decide (s = ∅).

(** ** Pure helpers *)

(** [_unique_ordered]. *)
Fixpoint unique_ordered_from (seen : gset UUID) (values : list UUID) : list UUID :=
  match values with
  | [] => []
  | v :: rest =>
      if decide (v ∈ seen) then unique_ordered_from seen rest
      else v :: unique_ordered_from ({[v]} ∪ seen) rest
  end.
Definition unique_ordered (values : list UUID) : list UUID := unique_ordered_from ∅ values.

(** The three tests a membership row must pass. *)
Definition membership_eligible (actor_id : UUID) (member_type : MemberType) (ns : Namespace)
    (m : GroupMembership) : bool :=
  bool_decide (gm_member_id m = actor_id)
  && bool_decide (gm_member_type m = member_type)
  && match gm_customer_id m with
     | None => true
     | Some c => bool_decide (Some c = ns_customer_id ns)
     end.

(** [_filter_memberships]. *)
Definition filter_memberships (memberships : list GroupMembership) (actor_id : UUID)
    (member_type : MemberType) (ns : Namespace) : list GroupMembership :=
  List.filter (membership_eligible actor_id member_type ns) memberships.

(** [_coerce_groups]. *)
Definition coerce_group (raw : raw_group) : option Group :=
  match raw with
  | RawGroup g => Some g
  | RawDuck id name customer_id => Some (mkGroup id name customer_id)
  | RawOther => None
  end.
Definition coerce_groups (raw : gmap UUID raw_group) : gmap UUID Group := omap coerce_group raw.

Definition assignment_key (a : RoleAssignment) : string * string :=
  (uuid_str (ra_group_id a), uuid_str (ra_id a)).

Definition trail_key (t : Trail) : string * string :=
  (uuid_str (g_id (t_group t)), uuid_str (ra_id (t_assignment t))).

(** A customer-scoped row reaches only its own customer's namespaces. *)
Definition customer_wall (customer_id : option UUID) (ns : Namespace) : bool :=
  match customer_id with
  | None => true
  | Some c => bool_decide (Some c = ns_customer_id ns)
  end.

(** One iteration of the walk: the trail an assignment contributes, if any. *)
Definition walk_one (roles : gmap UUID Role) (groups : gmap UUID Group) (eligible_group_ids : gset UUID)
    (ns : Namespace) (a : RoleAssignment) : option Trail :=
  if decide (ra_group_id a ∉ eligible_group_ids) then None
  else if negb (covers a ns) then None
  else match groups !! ra_group_id a with
  | None => None
  | Some group =>
      if negb (customer_wall (g_customer_id group) ns) then None
      else match roles !! ra_role_id a with
      | None => None
      | Some role =>
          if negb (customer_wall (r_customer_id role) ns) then None
          else Some (mkTrail group a role (actions_for role (ns_type ns)))
      end
  end.

(** [_walk_assignments]. *)
Definition walk_assignments (assignments : list RoleAssignment) (roles : gmap UUID Role)
    (groups : gmap UUID Group) (eligible_group_ids : gset UUID) (ns : Namespace)
  : gset string * list Trail :=
  fold_left
    (fun acc a =>
       match walk_one roles groups eligible_group_ids ns a with
       | None => acc
       | Some t => (acc.1 ∪ t_contributed_actions t, (acc.2 ++ [t])%list)
       end)
    (sort_by assignment_key assignments) (∅, []).

(** ** Side resolution *)

Record SidePlan := mkSidePlan {
  sp_user_groups : list UUID;
  sp_agent_groups : list UUID;
  sp_agent_owner_short_circuited : bool;
}.

(** What each (group, namespace) pair contributes. *)
Abbreviation contribution := (gset string * list Trail)%type (only parsing).

(** [_accumulate_groups]; a pair the dictionary lacks contributes the default, and the callers
    below only ask for pairs it holds ([contributions_total]). *)
Definition accumulate_groups (group_ids : list UUID) (ns : Namespace)
    (contributions : gmap GroupNamespaceKey contribution) : contribution :=
  let '(actions_acc, trails_acc) :=
    fold_left
      (fun acc group_id =>
         let '(actions, trails) := contributions !!! mkGroupNamespaceKey group_id (ns_id ns) in
         (acc.1 ∪ actions, (acc.2 ++ trails)%list))
      group_ids (∅, []) in
  (actions_acc, sort_by trail_key trails_acc).

(** Planner keys: [(kind, actor_id, customer_id)]. *)
Abbreviation plan_key := (string * UUID * option UUID)%type (only parsing).

Section Evaluate.
Context `{Loaders} (now : Z) (max_depth : nat).

(** [_direct_groups]. *)
Definition direct_groups (actor_id : UUID) (member_type : MemberType) (ns : Namespace)
  : M AclCache (list UUID) :=
  let actor_kind := if decide (member_type = MemberUser) then "user" else "agent" in
  let membership_key := mkActorMembershipKey actor_kind actor_id in
  let* membership_entry := get_membership membership_key in
  let* memberships :=
    match membership_entry with
    | Some e => retM (ame_memberships e)
    | None => fun c =>
        let fence := read_fence c in
        let memberships :=
          if decide (member_type = MemberUser) then load_for_user actor_id else load_for_agent actor_id in
        (memberships, put_membership now membership_key memberships (Some fence) c)
    end in
  let eligible := filter_memberships memberships actor_id member_type ns in
  retM (unique_ordered (map gm_group_id eligible)).

(** [loaded[row.member_id].append(row)] when the key is present. *)
Definition append_row (loaded : list (UUID * list GroupMembership)) (row : GroupMembership)
  : list (UUID * list GroupMembership) :=
  match od_get (gm_member_id row) loaded with
  | Some rows => od_set (gm_member_id row) (rows ++ [row])%list loaded
  | None => loaded
  end.

(** [cache.put_membership(ActorMembershipKey("group", group_id), rows, fence=fence)]. *)
Definition put_group_rows (fence : Z) (group_id : UUID) (rows : list GroupMembership) : M AclCache unit :=
  fun c => (tt, put_membership now (mkActorMembershipKey "group" group_id) rows (Some fence) c).

(** The first loop of [_parent_rows]: what the cache holds, and the groups it does not. *)
Definition parent_rows_scan (group_ids : list UUID)
  : M AclCache (gmap UUID (list GroupMembership) * list UUID) :=
  for_loop
    (fun '(rows, missing) group_id =>
       let* entry := get_membership (mkActorMembershipKey "group" group_id) in
       retM match entry with
            | Some e => (<[group_id := ame_memberships e]> rows, missing)
            | None => (rows, (missing ++ [group_id])%list)
            end)
    (∅ : gmap UUID (list GroupMembership), []) group_ids.

(** The batch branch: one read for every missing group. *)
Definition parent_rows_batch (loader : list UUID -> list GroupMembership)
    (rows : gmap UUID (list GroupMembership)) (missing : list UUID)
  : M AclCache (gmap UUID (list GroupMembership)) :=
  let* fence := (fun c => (read_fence c, c)) in
  let loaded := fold_left append_row (loader missing) (map (fun g => (g, [])) (unique_ordered missing)) in
  for_loop
    (fun rows '(group_id, parent_rows) =>
       let* _ := put_group_rows fence group_id parent_rows in
       retM (<[group_id := parent_rows]> rows))
    rows loaded.

(** The other branch: one read per missing group. *)
Definition parent_rows_single (rows : gmap UUID (list GroupMembership)) (missing : list UUID)
  : M AclCache (gmap UUID (list GroupMembership)) :=
  for_loop
    (fun rows group_id =>
       let* fence := (fun c => (read_fence c, c)) in
       let loaded := load_for_group group_id in
       let* _ := put_group_rows fence group_id loaded in
       retM (<[group_id := loaded]> rows))
    rows missing.

(** [_parent_rows]. *)
Definition parent_rows (group_ids : list UUID) : M AclCache (gmap UUID (list GroupMembership)) :=
  let* ' (rows, missing) := parent_rows_scan group_ids in
  match missing, load_for_groups with
  | _ :: _, Some loader => parent_rows_batch loader rows missing
  | _, _ => parent_rows_single rows missing
  end.

(** One level of the walk: the frontier's eligible parents not seen before. *)
Definition walk_level (ns : Namespace) (parents_by_group : gmap UUID (list GroupMembership))
    (seen frontier : list UUID) : list UUID * list UUID :=
  fold_left
    (fun acc group_id =>
       fold_left
         (fun '(seen, next_frontier) row =>
            if decide (gm_group_id row ∈ seen) then (seen, next_frontier)
            else ((seen ++ [gm_group_id row])%list, (next_frontier ++ [gm_group_id row])%list))
         (filter_memberships (parents_by_group !!! group_id) group_id MemberGroup ns) acc)
    frontier (seen, []).

(** The [for _ in range(n)] loop of [_expand_group_parents]. *)
Fixpoint expand_loop (ns : Namespace) (n : nat) (seen frontier : list UUID) : M AclCache (list UUID) :=
  match n, frontier with
  | O, _ | _, [] => retM seen
  | S n', _ =>
      let* parents_by_group := parent_rows frontier in
      let '(seen', next_frontier) := walk_level ns parents_by_group seen frontier in
      expand_loop ns n' seen' next_frontier
  end.

(** [_expand_group_parents]. *)
Definition expand_group_parents (direct_group_ids : list UUID) (ns : Namespace) : M AclCache (list UUID) :=
  expand_loop ns (max_depth - 1) (unique_ordered direct_group_ids) direct_group_ids.

(** [_GroupSetPlanner._groups]: the planner's dictionary is threaded with the cache. *)
Definition planner_groups (kind : string) (actor_id : UUID) (ns : Namespace)
    (planned : gmap plan_key (list UUID)) : M AclCache (list UUID * gmap plan_key (list UUID)) :=
  let key := (kind, actor_id, ns_customer_id ns) in
  match planned !! key with
  | Some groups => retM (groups, planned)
  | None =>
      let* direct :=
        (if String.eqb kind "group" then retM [actor_id]
         else direct_groups actor_id (if String.eqb kind "user" then MemberUser else MemberAgent) ns) in
      let* groups := expand_group_parents direct ns in
      retM (groups, <[key := groups]> planned)
  end.

(** [_GroupSetPlanner.plan]. *)
Definition plan (ctx : EvaluationContext) (planned : gmap plan_key (list UUID))
  : M AclCache (SidePlan * gmap plan_key (list UUID)) :=
  let ns := ec_namespace ctx in
  let* ' (user_groups, planned) := match ec_group_id ctx with
       | Some g => planner_groups "group" g ns planned
       | None => retM ([], planned)
       end in
  let* ' (user_groups, planned) := match ec_user_id ctx with
       | Some u => planner_groups "user" u ns planned
       | None => retM (user_groups, planned)
       end in
  match ec_agent_id ctx with
  | None => retM (mkSidePlan user_groups [] false, planned)
  | Some a =>
      let owner := agent_owns_namespace ns a in
      if owner then retM (mkSidePlan user_groups [] true, planned)
      else
        let* ' (agent_groups, planned) := planner_groups "agent" a ns planned in
        retM (mkSidePlan user_groups agent_groups false, planned)
  end.

(** ** Contributions *)

(** The assignments each missing pair walks, in the dictionary's order: from one read of what the
    groups hold, or from one read per namespace (for the namespace value first seen under its id). *)
Definition held_by_groups (load : list UUID -> list RoleAssignment)
    (missing_groups : list UUID) (missing : list (GroupNamespaceKey * Namespace))
  : list (GroupNamespaceKey * list RoleAssignment) :=
  let loaded := load missing_groups in
  map (fun '(key, ns) =>
         (key, List.filter (fun a => covers a ns)
                 (List.filter (fun a => bool_decide (ra_group_id a = gnk_group_id key)) loaded)))
      missing.

(** [by_namespace.setdefault(namespace_id, (namespace, []))[1].append(group_id)]. *)
Definition by_namespace_step (acc : list (UUID * (Namespace * list UUID)))
    (kn : GroupNamespaceKey * Namespace) : list (UUID * (Namespace * list UUID)) :=
  let '(key, ns) := kn in
  match od_get (gnk_namespace_id key) acc with
  | Some (ns0, group_ids) => od_set (gnk_namespace_id key) (ns0, (group_ids ++ [gnk_group_id key])%list) acc
  | None => od_set (gnk_namespace_id key) (ns, [gnk_group_id key]) acc
  end.

Definition held_by_namespace (missing : list (GroupNamespaceKey * Namespace))
  : list (GroupNamespaceKey * list RoleAssignment) :=
  let by_namespace := fold_left by_namespace_step missing [] in
  flat_map
    (fun '(namespace_id, (ns, group_ids)) =>
       let loaded := load_assignments_for_groups group_ids ns in
       map (fun group_id =>
              (mkGroupNamespaceKey group_id namespace_id,
               List.filter (fun a => bool_decide (ra_group_id a = group_id)) loaded))
           group_ids)
    by_namespace.

(** The first loop of [_group_namespace_contributions]. *)
Definition contributions_scan (wanted : list (GroupNamespaceKey * Namespace))
  : M AclCache (gmap GroupNamespaceKey contribution * list (GroupNamespaceKey * Namespace)) :=
  for_loop
    (fun '(res, missing) '(key, ns) =>
       let* entry := get_group_namespace key in
       retM match entry with
            | Some e => (<[key := (gne_actions e, gne_trails e)]> res, missing)
            | None => (res, (missing ++ [(key, ns)])%list)
            end)
    (∅ : gmap GroupNamespaceKey contribution, []) wanted.

(** The last loop: walk, store under the fence and use every missing pair. *)
Definition contributions_walk (fence : Z) (held : list (GroupNamespaceKey * list RoleAssignment))
    (roles : gmap UUID Role) (groups : gmap UUID Group) (res : gmap GroupNamespaceKey contribution)
    (missing : list (GroupNamespaceKey * Namespace)) : M AclCache (gmap GroupNamespaceKey contribution) :=
  for_loop
    (fun res '(key, ns) =>
       let assignments := default [] (od_get key held) in
       let w := walk_assignments assignments roles groups {[gnk_group_id key]} ns in
       let role_ids := list_to_set (map ra_role_id assignments) in
       let* _ := (fun c => (tt, put_group_namespace now key w.1 w.2 (Some role_ids) (Some fence) c)) in
       retM (<[key := w]> res))
    res missing.

(** [held]: what each missing pair's group holds, by whichever read the loader offers. *)
Definition held_assignments (missing : list (GroupNamespaceKey * Namespace))
  : list (GroupNamespaceKey * list RoleAssignment) :=
  match load_assignments_held_by_groups with
  | Some load => held_by_groups load (unique_ordered (map (fun kn => gnk_group_id kn.1) missing)) missing
  | None => held_by_namespace missing
  end.

(** [_group_namespace_contributions]. *)
Definition group_namespace_contributions (wanted : list (GroupNamespaceKey * Namespace))
  : M AclCache (gmap GroupNamespaceKey contribution) :=
  let* ' (res, missing) := contributions_scan wanted in
  match missing with
  | [] => retM res
  | _ =>
      let* fence := (fun c => (read_fence c, c)) in
      let missing_groups := unique_ordered (map (fun kn => gnk_group_id kn.1) missing) in
      let held := held_assignments missing in
      let role_ids := unique_ordered (flat_map (fun h => map ra_role_id h.2) held) in
      let roles := match role_ids with [] => ∅ | _ => load_roles role_ids end in
      let groups := coerce_groups (load_groups missing_groups) in
      contributions_walk fence held roles groups res missing
  end.

(** ** Result assembly *)

(** [_classify_limiting_side]. *)
Definition classify_limiting_side (user_actions : gset string) (agent_actions : action_set)
    (agent_owner_short_circuited : bool) : LimitingSide :=
  let agent := as_frozenset agent_actions in
  if agent_owner_short_circuited then LimitUser
  else if set_falsy user_actions || set_falsy agent then LimitNeither
  else if decide (user_actions = agent) then LimitEqual
  else if decide (user_actions ⊂ agent) then LimitUser
  else if decide (agent ⊂ user_actions) then LimitAgent
  else if (size agent <=? size user_actions)%nat then LimitAgent
  else LimitUser.

(** [_materialize_agent_actions]. *)
Definition materialize_agent_actions (agent_actions : action_set) (short_circuited : bool) : gset string :=
  if short_circuited then ∅ else as_frozenset agent_actions.

(** [_assemble_result]. *)
Definition assemble_result (ctx : EvaluationContext) (user_actions : gset string)
    (agent_actions : action_set) (user_trails agent_trails : list Trail)
    (agent_owner_short_circuited : bool) : EvaluationResult :=
  let has_user := isSome (ec_user_id ctx) || isSome (ec_group_id ctx) in
  let has_agent := isSome (ec_agent_id ctx) in
  let '(effective, limiting, trails, user_trails_out, agent_trails_out) :=
    if has_user && has_agent then
      let '(effective, limiting) :=
        if set_falsy user_actions
           || (set_falsy (as_frozenset agent_actions) && negb agent_owner_short_circuited)
        then (∅, LimitNeither)
        else (aset_rand user_actions agent_actions,
              classify_limiting_side user_actions agent_actions agent_owner_short_circuited) in
      (effective, limiting, [], user_trails, agent_trails)
    else if has_user then (user_actions, LimitNeither, user_trails, [], [])
    else
      let effective := if agent_owner_short_circuited then {[ec_action ctx]} else as_frozenset agent_actions in
      (effective, LimitNeither, agent_trails, [], []) in
  {| er_decision := bool_decide (ec_action ctx ∈ effective);
     er_effective_actions := effective;
     er_trails := trails;
     er_user_actions := if has_user then user_actions else ∅;
     er_agent_actions :=
       if has_agent then materialize_agent_actions agent_actions agent_owner_short_circuited else ∅;
     er_limiting_side := limiting;
     er_user_trails := user_trails_out;
     er_agent_trails := agent_trails_out;
     er_agent_owner_short_circuited := agent_owner_short_circuited |}.

(** ** Entry points *)

(** The pairs one question adds to [wanted]. *)
Definition want_pairs (wanted : list (GroupNamespaceKey * Namespace)) (cp : EvaluationContext * SidePlan)
  : list (GroupNamespaceKey * Namespace) :=
  let '(ctx, p) := cp in
  fold_left
    (fun w group_id => od_set (mkGroupNamespaceKey group_id (ns_id (ec_namespace ctx))) (ec_namespace ctx) w)
    (sp_user_groups p ++ sp_agent_groups p)%list wanted.

(** One question's answer from its plan and the contributions. *)
Definition answer_of (contributions : gmap GroupNamespaceKey contribution) (ctx : EvaluationContext)
    (p : SidePlan) : EvaluationResult :=
  let '(user_actions, user_trails) := accumulate_groups (sp_user_groups p) (ec_namespace ctx) contributions in
  let '(agent_actions, agent_trails) :=
    match sp_agent_groups p with
    | [] => (if sp_agent_owner_short_circuited p then OWNER_ACTIONS else Plain ∅, [])
    | _ => let '(a, t) := accumulate_groups (sp_agent_groups p) (ec_namespace ctx) contributions in (Plain a, t)
    end in
  assemble_result ctx user_actions agent_actions user_trails agent_trails (sp_agent_owner_short_circuited p).

(** The first refused context, in order. *)
Fixpoint check_contexts (contexts : list EvaluationContext) : result unit eval_error :=
  match contexts with
  | [] => Ok tt
  | ctx :: rest => do! _ <- check_context ctx ;; check_contexts rest
  end.

(** The planning loop of [evaluate_many_with_trail]. *)
Definition plan_all (contexts : list EvaluationContext) : M AclCache (list SidePlan) :=
  let* ' (plans, _) := for_loop
    (fun '(plans, planned) ctx =>
       let* ' (p, planned) := plan ctx planned in
       retM ((plans ++ [p])%list, planned))
    ([], ∅) contexts in
  retM plans.

(** [evaluate_many_with_trail]. *)
Definition evaluate_many_with_trail (contexts : list EvaluationContext)
  : M AclCache (result (list EvaluationResult) eval_error) :=
  match check_contexts contexts with
  | Err e => retM (Err e)
  | Ok _ =>
      let* plans := plan_all contexts in
      let wanted := fold_left want_pairs (zip contexts plans) [] in
      let* contributions := group_namespace_contributions wanted in
      retM (Ok (zip_with (answer_of contributions) contexts plans))
  end.

(** [evaluate_with_trail]: [results[0]] of the one-question case. *)
Definition evaluate_with_trail (ctx : EvaluationContext) : M AclCache (result EvaluationResult eval_error) :=
  let* results := evaluate_many_with_trail [ctx] in
  retM match results with
       | Err e => Err e
       | Ok (r :: _) => Ok r
       | Ok [] => Err NoActor
       end.

(** [evaluate_decision]. *)
Definition evaluate_decision (ctx : EvaluationContext) : M AclCache (result bool eval_error) :=
  let* r := evaluate_with_trail ctx in
  retM match r with Ok r => Ok (er_decision r) | Err e => Err e end.

End Evaluate.
