(* ===== verification/AclRefinement.v ===== *)
(** * The evaluator refines a cache-free reference

    [AccessTables] is the content of the four access tables. [LoaderLaws] states what the loader
    protocols promise about them ([loader.py]: rows may be over-returned, never under-returned).
    [spec_answer] answers one question from the tables alone, with no cache, no planner and no
    batching; [coherent] says that every entry of a cache agrees with the tables. The main theorem
    is that [evaluate_many_with_trail] on a coherent cache answers what the reference answers and
    leaves the cache coherent, whichever loader variant it runs on. *)

From Stdlib Require Import Ascii String Bool List NArith ZArith Lia Sorted.
From stdpp Require Import base list gmap strings sorting.
From S2P Require Import Prelude Namespaces AclTypes AclCache AclEvaluator.

Open Scope string_scope.

(** ** The tables and the loaders' contract *)

Record AccessTables := mkAccessTables {
  at_members : list GroupMembership;
  at_assignments : list RoleAssignment;
  at_roles : gmap UUID Role;
  at_groups : gmap UUID Group;
}.

Record tables_wf (db : AccessTables) : Prop := {
  wf_assignment_ids : forall a b, a ∈ at_assignments db -> b ∈ at_assignments db -> ra_id a = ra_id b -> a = b;
  wf_assignment_uuid : forall a, a ∈ at_assignments db -> uuid_wf (ra_id a);
  wf_assignment_nodup : NoDup (at_assignments db);
  wf_group_ids : forall i g, at_groups db !! i = Some g -> g_id g = i;
}.

Class LoaderLaws `{Loaders} (db : AccessTables) : Prop := {
  law_user : forall u m, gm_member_type m = MemberUser -> gm_member_id m = u ->
    m ∈ load_for_user u <-> m ∈ at_members db;
  law_agent : forall u m, gm_member_type m = MemberAgent -> gm_member_id m = u ->
    m ∈ load_for_agent u <-> m ∈ at_members db;
  law_group : forall g m, gm_member_type m = MemberGroup -> gm_member_id m = g ->
    m ∈ load_for_group g <-> m ∈ at_members db;
  law_groups : forall f gs m, load_for_groups = Some f -> gm_member_type m = MemberGroup ->
    gm_member_id m ∈ gs -> m ∈ f gs <-> m ∈ at_members db;
  law_assignments : forall gs ns a, ra_group_id a ∈ gs -> covers a ns = true ->
    a ∈ load_assignments_for_groups gs ns <-> a ∈ at_assignments db;
  law_assignments_nodup : forall gs ns, NoDup (load_assignments_for_groups gs ns);
  law_held : forall f gs a, load_assignments_held_by_groups = Some f -> ra_group_id a ∈ gs ->
    a ∈ f gs <-> a ∈ at_assignments db;
  law_held_nodup : forall f gs, load_assignments_held_by_groups = Some f -> NoDup (f gs);
  law_roles : forall ids i, i ∈ ids -> load_roles ids !! i = at_roles db !! i;
  law_group_rows : forall ids i, i ∈ ids -> coerce_groups (load_groups ids) !! i = at_groups db !! i;
}.

(** ** The reference *)

(** The union of what trails contribute. *)
Definition trails_actions (ts : list Trail) : gset string := ⋃ (t_contributed_actions <$> ts).

(** What group [g] contributes on [ns]. *)
Definition spec_trails (db : AccessTables) (g : UUID) (ns : Namespace) : list Trail :=
  sort_by trail_key (omap (walk_one (at_roles db) (at_groups db) {[g]} ns) (at_assignments db)).

(** The groups [actor] is a direct eligible member of. *)
Definition spec_members (db : AccessTables) (actor : UUID) (mt : MemberType) (ns : Namespace) : gset UUID :=
  list_to_set (map gm_group_id (filter_memberships (at_members db) actor mt ns)).

(** One step up the nesting. *)
Definition spec_parents (db : AccessTables) (ns : Namespace) (s : gset UUID) : gset UUID :=
  set_bind (fun g => spec_members db g MemberGroup ns) s.

(** Every group at most [n] steps above [s]. *)
Fixpoint spec_reach (db : AccessTables) (ns : Namespace) (n : nat) (s : gset UUID) : gset UUID :=
  match n with
  | O => s
  | S n' => spec_reach db ns n' (s ∪ spec_parents db ns s)
  end.

Definition spec_side (db : AccessTables) (ns : Namespace) (groups : gset UUID) : gset string * list Trail :=
  let ts := flat_map (fun g => spec_trails db g ns) (elements groups) in
  (trails_actions ts, sort_by trail_key ts).

(** The member side's groups: a group member's, or a user's. *)
Definition spec_user_groups (db : AccessTables) (max_depth : nat) (ctx : EvaluationContext) : gset UUID :=
  let ns := ec_namespace ctx in
  match ec_user_id ctx, ec_group_id ctx with
  | Some u, _ => spec_reach db ns (max_depth - 1) (spec_members db u MemberUser ns)
  | None, Some g => spec_reach db ns (max_depth - 1) {[g]}
  | None, None => ∅
  end.

Definition spec_agent_groups (db : AccessTables) (max_depth : nat) (ctx : EvaluationContext) : gset UUID :=
  let ns := ec_namespace ctx in
  match ec_agent_id ctx with
  | Some a => if agent_owns_namespace ns a then ∅
              else spec_reach db ns (max_depth - 1) (spec_members db a MemberAgent ns)
  | None => ∅
  end.

Definition spec_owner (ctx : EvaluationContext) : bool :=
  match ec_agent_id ctx with
  | Some a => agent_owns_namespace (ec_namespace ctx) a
  | None => false
  end.

(** The answer to one question from the tables alone. *)
Definition spec_answer (db : AccessTables) (max_depth : nat) (ctx : EvaluationContext) : EvaluationResult :=
  let '(ua, ut) := spec_side db (ec_namespace ctx) (spec_user_groups db max_depth ctx) in
  let '(aa, at_) := spec_side db (ec_namespace ctx) (spec_agent_groups db max_depth ctx) in
  assemble_result ctx ua (if spec_owner ctx then OWNER_ACTIONS else Plain aa) ut at_ (spec_owner ctx).

(** ** Coherence of a cache with the tables *)

Definition kind_member_type (kind : string) : option MemberType :=
  if String.eqb kind "user" then Some MemberUser
  else if String.eqb kind "agent" then Some MemberAgent
  else if String.eqb kind "group" then Some MemberGroup
  else None.

Definition membership_coherent (db : AccessTables) (k : ActorMembershipKey) (ms : list GroupMembership) : Prop :=
  match kind_member_type (amk_actor_kind k) with
  | Some mt => forall m, gm_member_type m = mt -> gm_member_id m = amk_actor_id k ->
                 m ∈ ms <-> m ∈ at_members db
  | None => True
  end.

(** Memberships agree with the tables, and each contribution is one [C] allows for its key. *)
Record coherent_for (C : GroupNamespaceKey -> gset string -> list Trail -> Prop) (db : AccessTables) (c : AclCache) : Prop := {
  coh_membership : forall k e, ac_membership c !! k = Some e -> membership_coherent db k (ame_memberships e);
  coh_group_namespace : forall k e, ac_group_namespace c !! k = Some e -> C k (gne_actions e) (gne_trails e);
}.

Section Coherent.
(** The one descriptor each namespace id is presented with. *)
Variable canon : UUID -> Namespace.

Definition contribution_coherent (db : AccessTables) (k : GroupNamespaceKey)
    (actions : gset string) (trails : list Trail) : Prop :=
  trails = spec_trails db (gnk_group_id k) (canon (gnk_namespace_id k))
  /\ actions = trails_actions trails.

Definition coherent (db : AccessTables) (c : AclCache) : Prop := coherent_for (contribution_coherent db) db c.
End Coherent.

(** ** The walk over assignments *)

Lemma trails_actions_app l1 l2 : trails_actions (l1 ++ l2) = trails_actions l1 ∪ trails_actions l2.
Proof. unfold trails_actions. by rewrite fmap_app, union_list_app_L. Qed.

Lemma elem_of_trails_actions x ts : x ∈ trails_actions ts <-> exists t, t ∈ ts /\ x ∈ t_contributed_actions t.
Proof.
  unfold trails_actions. rewrite elem_of_union_list. setoid_rewrite list_elem_of_fmap. naive_solver.
Qed.

Lemma trails_actions_perm l1 l2 : l1 ≡ₚ l2 -> trails_actions l1 = trails_actions l2.
Proof. intros Hp. apply set_eq. intros x. rewrite !elem_of_trails_actions. by setoid_rewrite Hp. Qed.

Lemma walk_assignments_omap l roles groups gs ns :
  let ts := omap (walk_one roles groups gs ns) (sort_by assignment_key l) in
  walk_assignments l roles groups gs ns = (trails_actions ts, ts).
Proof.
  unfold walk_assignments. generalize (sort_by assignment_key l) as l'. intros l'. simpl.
  assert (forall acc, fold_left (fun acc a => match walk_one roles groups gs ns a with
      | None => acc | Some t => (acc.1 ∪ t_contributed_actions t, (acc.2 ++ [t])%list) end) l' acc
    = (acc.1 ∪ trails_actions (omap (walk_one roles groups gs ns) l'),
       (acc.2 ++ omap (walk_one roles groups gs ns) l')%list)) as Hg.
  { induction l' as [|a l' IH]; intros [s ts]; simpl.
    - unfold trails_actions. simpl. by rewrite (right_id_L ∅ (∪)), app_nil_r.
    - destruct (walk_one roles groups gs ns a) as [t|]; [|apply IH].
      rewrite IH. simpl. f_equal; [|by rewrite <- app_assoc].
      unfold trails_actions. simpl. by rewrite (assoc_L (∪)). }
  rewrite Hg. simpl. by rewrite (left_id_L ∅ (∪)).
Qed.

(** What a contributed trail is made of. *)
Lemma walk_one_Some roles groups gs ns a t :
  walk_one roles groups gs ns a = Some t <->
  ra_group_id a ∈ gs /\ covers a ns = true
  /\ exists group role, groups !! ra_group_id a = Some group /\ roles !! ra_role_id a = Some role
     /\ customer_wall (g_customer_id group) ns = true /\ customer_wall (r_customer_id role) ns = true
     /\ t = mkTrail group a role (actions_for role (ns_type ns)).
Proof.
  unfold walk_one. case_decide as Hg; [by split; [|intros [? _]]|].
  destruct (covers a ns); simpl; [|by split; [|intros (?&?&_)]].
  destruct (groups !! ra_group_id a) as [group|]; [|by split; [|intros (_&_&?&?&?&_)]].
  destruct (customer_wall (g_customer_id group) ns) eqn:Hw1; simpl.
  2: { split; [done|]. intros (_&_&?&?&[= <-]&_&?&_). congruence. }
  destruct (roles !! ra_role_id a) as [role|]; [|by split; [|intros (_&_&?&?&_&?&_)]].
  destruct (customer_wall (r_customer_id role) ns) eqn:Hw2; simpl.
  2: { split; [done|]. intros (_&_&?&?&_&[= <-]&_&?&_). congruence. }
  split; [intros [= <-]; eauto 10|]. intros (_&_&?&?&[= <-]&[= <-]&_&_&->). done.
Qed.

Lemma walk_one_agree roles roles' groups groups' gs ns a :
  roles !! ra_role_id a = roles' !! ra_role_id a ->
  (ra_group_id a ∈ gs -> groups !! ra_group_id a = groups' !! ra_group_id a) ->
  walk_one roles groups gs ns a = walk_one roles' groups' gs ns a.
Proof. intros Hr Hg. unfold walk_one. case_decide as Hin; [done|]. by rewrite Hr, Hg. Qed.

Lemma walk_one_assignment roles groups gs ns a t :
  walk_one roles groups gs ns a = Some t -> t_assignment t = a.
Proof. intros (_ & _ & group & role & _ & _ & _ & _ & ->)%walk_one_Some. done. Qed.

Lemma omap_NoDup_assignment roles groups gs ns l :
  NoDup l -> NoDup (omap (walk_one roles groups gs ns) l).
Proof.
  induction 1 as [|a l Ha Hl IH]; simpl; [constructor|].
  destruct (walk_one roles groups gs ns a) as [t|] eqn:Ht; [|done]. constructor; [|done].
  intros (b & Hb & Hbt)%list_elem_of_omap. apply Ha.
  by rewrite <- (walk_one_assignment _ _ _ _ _ _ Ht), (walk_one_assignment _ _ _ _ _ _ Hbt).
Qed.

(** Mapping a sorted list through the walk keeps it sorted by the trails' own keys. *)
Lemma omap_sorted roles groups gs ns l :
  (forall i g, groups !! i = Some g -> g_id g = i) ->
  StronglySorted (key_le assignment_key) l ->
  StronglySorted (key_le trail_key) (omap (walk_one roles groups gs ns) l).
Proof.
  intros Hids. induction 1 as [|a l Hl IH Ha]; simpl; [constructor|].
  destruct (walk_one roles groups gs ns a) as [t|] eqn:Ht; [|done]. constructor; [done|].
  rewrite Forall_forall. intros t' (b & Hb & Hbt)%list_elem_of_omap.
  rewrite Forall_forall in Ha. specialize (Ha b Hb).
  apply walk_one_Some in Ht as (_ & _ & g1 & r1 & Hg1 & _ & _ & _ & ->).
  apply walk_one_Some in Hbt as (_ & _ & g2 & r2 & Hg2 & _ & _ & _ & ->).
  unfold key_le, trail_key. simpl. rewrite (Hids _ _ Hg1), (Hids _ _ Hg2). done.
Qed.

(** Two trails of the reference with one key are one trail. *)
Lemma spec_trails_key_inj db g ns t1 t2 :
  tables_wf db -> t1 ∈ spec_trails db g ns -> t2 ∈ spec_trails db g ns -> trail_key t1 = trail_key t2 -> t1 = t2.
Proof.
  intros Hwf. unfold spec_trails. rewrite !elem_of_sort_by, !list_elem_of_omap.
  intros (a & Ha & H1) (b & Hb & H2) Hk. apply (f_equal snd) in Hk. cbn [snd trail_key] in Hk.
  rewrite (walk_one_assignment _ _ _ _ _ _ H1), (walk_one_assignment _ _ _ _ _ _ H2) in Hk.
  apply uuid_str_inj in Hk; [|by apply (wf_assignment_uuid db)..].
  apply (wf_assignment_ids db) in Hk; [|done..]. subst. congruence.
Qed.

(** The walk over what a loader returned for one group is the reference's contribution. *)
Lemma walk_assignments_spec db g ns l roles groups :
  tables_wf db ->
  NoDup l ->
  (forall a, ra_group_id a = g -> covers a ns = true -> a ∈ l <-> a ∈ at_assignments db) ->
  (forall a, a ∈ l -> roles !! ra_role_id a = at_roles db !! ra_role_id a) ->
  groups !! g = at_groups db !! g ->
  walk_assignments l roles groups {[g]} ns = (trails_actions (spec_trails db g ns), spec_trails db g ns).
Proof.
  intros Hwf Hnd Hl Hroles Hgroup.
  assert (Hone : forall a, a ∈ l -> walk_one roles groups {[g]} ns a = walk_one (at_roles db) (at_groups db) {[g]} ns a).
  { intros a Ha. apply walk_one_agree; [auto|]. by intros ->%elem_of_singleton. }
  rewrite walk_assignments_omap.
  assert (Heq : omap (walk_one roles groups {[g]} ns) (sort_by assignment_key l) = spec_trails db g ns);
    [|by rewrite Heq].
  assert (Hext : omap (walk_one roles groups {[g]} ns) (sort_by assignment_key l)
     = omap (walk_one (at_roles db) (at_groups db) {[g]} ns) (sort_by assignment_key l)).
  { apply list_omap_ext, Forall_Forall2_diag, Forall_forall. intros a Ha. apply Hone. by rewrite elem_of_sort_by in Ha. }
  rewrite Hext. symmetry. apply (StronglySorted_unique_strong (key_le trail_key)).
  - intros x y Hx Hy H1 H2. apply (spec_trails_key_inj db g ns); [done|done| |by apply key_leb_antisym].
    unfold spec_trails. rewrite elem_of_sort_by. apply list_elem_of_omap in Hy as (a & Ha & Hy).
    apply list_elem_of_omap. exists a. split; [|done]. rewrite elem_of_sort_by in Ha.
    apply walk_one_Some in Hy as (Hg & Hc & _). apply Hl; set_solver.
  - apply sort_by_sorted.
  - apply omap_sorted; [apply (wf_group_ids db Hwf)|apply sort_by_sorted].
  - unfold spec_trails. rewrite sort_by_perm. apply NoDup_Permutation.
    + apply omap_NoDup_assignment, (wf_assignment_nodup db Hwf).
    + apply omap_NoDup_assignment. by rewrite sort_by_perm.
    + intros t. rewrite !list_elem_of_omap. setoid_rewrite elem_of_sort_by. split; intros (a & Ha & Ht);
        exists a; (split; [|done]); apply walk_one_Some in Ht as (Hg & Hc & _); apply Hl; set_solver.
Qed.

(** ** Group sets *)

Lemma unique_ordered_from_spec seen l :
  NoDup (unique_ordered_from seen l)
  /\ forall x, x ∈ unique_ordered_from seen l <-> x ∈ l /\ x ∉ seen.
Proof.
  revert seen. induction l as [|v l IH]; intros seen; simpl; [split; [constructor|set_solver]|].
  case_decide as Hv.
  - destruct (IH seen) as [Hn Hin]. split; [done|]. intros x. rewrite Hin. set_solver.
  - destruct (IH ({[v]} ∪ seen)) as [Hn Hin]. split.
    + constructor; [|done]. rewrite Hin. set_solver.
    + intros x. rewrite elem_of_cons, Hin. destruct (decide (x = v)); set_solver.
Qed.

Lemma unique_ordered_NoDup l : NoDup (unique_ordered l).
Proof. apply unique_ordered_from_spec. Qed.

Lemma elem_of_unique_ordered x l : x ∈ unique_ordered l <-> x ∈ l.
Proof. unfold unique_ordered. rewrite (proj2 (unique_ordered_from_spec ∅ l)). set_solver. Qed.

Lemma unique_ordered_id l : NoDup l -> unique_ordered l = l.
Proof.
  unfold unique_ordered. assert (forall seen, NoDup l -> (forall x, x ∈ l -> x ∉ seen) -> unique_ordered_from seen l = l)
    as H; [|intros; apply H; set_solver].
  induction l as [|v l IH]; intros seen; simpl; [done|]. intros [Hv Hl]%NoDup_cons Hs.
  rewrite decide_False by (apply Hs; set_solver). f_equal. apply IH; [done|]. set_solver.
Qed.

Lemma elem_of_filter_memberships m ms actor mt ns :
  m ∈ filter_memberships ms actor mt ns
  <-> m ∈ ms /\ gm_member_id m = actor /\ gm_member_type m = mt
      /\ customer_wall (gm_customer_id m) ns = true.
Proof.
  unfold filter_memberships. rewrite !list_elem_of_In, List.filter_In. unfold membership_eligible, customer_wall.
  rewrite !andb_true_iff, !bool_decide_eq_true. tauto.
Qed.

(** The groups a coherent list of rows gives are the reference's. *)
Lemma filter_memberships_coherent db k ms actor mt ns :
  kind_member_type (amk_actor_kind k) = Some mt -> amk_actor_id k = actor ->
  membership_coherent db k ms ->
  forall g, g ∈ map gm_group_id (filter_memberships ms actor mt ns) <-> g ∈ spec_members db actor mt ns.
Proof.
  intros Hk Ha Hc g. unfold membership_coherent in Hc. rewrite Hk in Hc. unfold spec_members.
  rewrite elem_of_list_to_set, !list_elem_of_fmap.
  setoid_rewrite elem_of_filter_memberships.
  split; intros (m & -> & Hm & Hid & Ht & Hw); exists m; (split; [done|]);
    (repeat split; try done); apply Hc; congruence.
Qed.

Lemma elem_of_spec_parents db ns s p :
  p ∈ spec_parents db ns s <-> exists g, g ∈ s /\ p ∈ spec_members db g MemberGroup ns.
Proof. unfold spec_parents. rewrite elem_of_set_bind. naive_solver. Qed.

Lemma fold_left_flat_map {A B C} (step : C -> B -> C) (h : A -> list B) l a :
  fold_left (fun acc x => fold_left step (h x) acc) l a = fold_left step (flat_map h l) a.
Proof. revert a. induction l as [|x l IH]; intros a; simpl; [done|]. by rewrite IH, fold_left_app. Qed.

(** One level adds exactly the frontier's unseen eligible parents. *)
Lemma walk_level_spec ns rows seen frontier seen' next :
  NoDup seen ->
  walk_level ns rows seen frontier = (seen', next) ->
  NoDup seen' /\ (seen' = (seen ++ next)%list)
  /\ forall p, p ∈ next <-> (p ∉ seen)
       /\ exists g, g ∈ frontier /\ p ∈ map gm_group_id (filter_memberships (rows !!! g) g MemberGroup ns).
Proof.
  intros Hnd. unfold walk_level. rewrite fold_left_flat_map.
  set (l := flat_map _ frontier).
  assert (Hl : forall p, p ∈ map gm_group_id l <->
    exists g, g ∈ frontier /\ p ∈ map gm_group_id (filter_memberships (rows !!! g) g MemberGroup ns)).
  { intros p. subst l. rewrite list_elem_of_fmap. setoid_rewrite list_elem_of_In at 1.
    setoid_rewrite in_flat_map. setoid_rewrite list_elem_of_fmap. setoid_rewrite list_elem_of_In.
    naive_solver. }
  setoid_rewrite <- Hl. clearbody l. clear Hl.
  assert (forall l next0, NoDup (seen ++ next0) ->
    fold_left (fun '(seen, next_frontier) row =>
            if decide (gm_group_id row ∈ seen) then (seen, next_frontier)
            else ((seen ++ [gm_group_id row])%list, (next_frontier ++ [gm_group_id row])%list)) l
      ((seen ++ next0)%list, next0) = (seen', next) ->
    NoDup seen' /\ (seen' = (seen ++ next)%list)
    /\ forall p, p ∈ next <-> p ∈ next0 \/ (p ∉ seen) /\ p ∈ map gm_group_id l) as Hgen.
  { clear l. induction l as [|row l IH]; intros next0 Hn; simpl.
    - intros [= <- <-]. set_solver.
    - case_decide as Hd; intros Hf.
      + destruct (IH _ Hn Hf) as (H1 & H2 & H3). split_and!; [done..|]. intros p. rewrite H3.
        rewrite elem_of_cons, elem_of_app in *. naive_solver.
      + rewrite <- app_assoc in Hf.
        assert (Hn' : NoDup (seen ++ next0 ++ [gm_group_id row])).
        { rewrite app_assoc. apply NoDup_app. split_and!; [done| |by apply NoDup_singleton]. set_solver. }
        destruct (IH _ Hn' Hf) as (H1 & H2 & H3). split_and!; [done..|]. intros p. rewrite H3.
        rewrite elem_of_cons, elem_of_app, list_elem_of_singleton in *. naive_solver. }
  intros Hf. destruct (Hgen l []) as (H1 & H2 & H3); [by rewrite app_nil_r|by rewrite app_nil_r|].
  split_and!; [done..|]. intros p. rewrite H3. set_solver.
Qed.

(** ** Cache operations keep coherence *)

Section CacheOps.
Variable C : GroupNamespaceKey -> gset string -> list Trail -> Prop.
Variable db : AccessTables.
Abbreviation Coh := (coherent_for C db).

Lemma coherent_empty c : ac_membership c = ∅ -> ac_group_namespace c = ∅ -> Coh c.
Proof. intros H1 H2. split; intros k e; rewrite ?H1, ?H2; by rewrite lookup_empty. Qed.

Lemma coherent_layers c c' :
  ac_membership c' = ac_membership c -> ac_group_namespace c' = ac_group_namespace c -> Coh c -> Coh c'.
Proof. intros H1 H2 [Hm Hg]. split; intros k e; rewrite ?H1, ?H2; auto. Qed.

Lemma trusted_locked_coherent c : Coh c -> Coh (trusted_locked c).2.
Proof.
  intros Hc. unfold trusted_locked. repeat case_match; simpl; try done; by apply coherent_empty.
Qed.

Lemma fence_moved_layers f c :
  ac_membership (fence_moved f c).2 = ac_membership c
  /\ ac_group_namespace (fence_moved f c).2 = ac_group_namespace c.
Proof. unfold fence_moved. destruct f as [f|]; [|done]. by destruct (f =? ac_evictions c)%Z. Qed.

Lemma store_guarded_coherent fence store c :
  Coh c -> (forall c', Coh c' -> Coh (store c')) -> Coh (store_guarded fence store c).
Proof.
  intros Hc Hs. unfold store_guarded.
  pose proof (trusted_locked_coherent c Hc) as Ht. destruct (trusted_locked c) as [[] c1]; [|done].
  pose proof (fence_moved_layers fence c1) as [H1 H2]. destruct (fence_moved fence c1) as [[] c2]; simpl in *;
    [|apply Hs]; by apply (coherent_layers c1).
Qed.

Lemma put_membership_coherent now k ms fence c :
  membership_coherent db k ms -> Coh c -> Coh (put_membership now k ms fence c).
Proof.
  intros Hm Hc. apply store_guarded_coherent; [done|]. intros c' [H1 H2]. split; [|done].
  intros k' e. simpl. intros [[<- <-]|[_ ?]]%lookup_insert_Some; [done|auto].
Qed.

Lemma put_group_namespace_coherent now k a ts roles fence c :
  C k a ts -> Coh c -> Coh (put_group_namespace now k a ts roles fence c).
Proof.
  intros Hm Hc. apply store_guarded_coherent; [done|]. intros c' [H1 H2]. split; [done|].
  intros k' e. simpl. intros [[<- <-]|[_ ?]]%lookup_insert_Some; [done|auto].
Qed.

Lemma get_membership_triple k :
  triple Coh (get_membership k)
    (fun e c => (forall e', e = Some e' -> membership_coherent db k (ame_memberships e')) /\ Coh c).
Proof.
  intros c Hc. unfold get_membership. pose proof (trusted_locked_coherent c Hc) as Ht.
  destruct (trusted_locked c) as [[] c1]; simpl in *; (split; [|done]); [|done].
  intros e'. apply (coh_membership C db c1 Ht).
Qed.

Lemma get_group_namespace_triple k :
  triple Coh (get_group_namespace k)
    (fun e c => (forall e', e = Some e' -> C k (gne_actions e') (gne_trails e')) /\ Coh c).
Proof.
  intros c Hc. unfold get_group_namespace. pose proof (trusted_locked_coherent c Hc) as Ht.
  destruct (trusted_locked c) as [[] c1]; simpl in *; (split; [|done]); [|done].
  intros e'. apply (coh_group_namespace C db c1 Ht).
Qed.
End CacheOps.

(** ** The stateful routines, against the loaders' laws *)

Lemma want_pairs_spec wanted ctx p k ns :
  ((k, ns) ∈ want_pairs wanted (ctx, p) -> (k, ns) ∈ wanted
     \/ ns = ec_namespace ctx /\ gnk_namespace_id k = ns_id (ec_namespace ctx))
  /\ (k ∈ (want_pairs wanted (ctx, p)).*1 <-> k ∈ wanted.*1
     \/ exists g, g ∈ (sp_user_groups p ++ sp_agent_groups p)%list /\ k = mkGroupNamespaceKey g (ns_id (ec_namespace ctx))).
Proof.
  unfold want_pairs. generalize (sp_user_groups p ++ sp_agent_groups p)%list as l. intros l.
  revert wanted. induction l as [|g l IH]; intros wanted; simpl; [set_solver|].
  destruct (IH (od_set (mkGroupNamespaceKey g (ns_id (ec_namespace ctx))) (ec_namespace ctx) wanted)) as [IH1 IH2].
  split.
  - intros H. destruct (IH1 H) as [[[= -> ->]|]%od_set_elem|]; auto.
  - rewrite IH2, od_set_keys. set_solver.
Qed.

Section Routines.
Context `{HL : Loaders} {db : AccessTables} `{!LoaderLaws db}.
Context (C : GroupNamespaceKey -> gset string -> list Trail -> Prop) (now : Z) (max_depth : nat).
Abbreviation Coh := (coherent_for C db).

(** The membership rows either side's loader returns are coherent. *)
Lemma loaded_coherent actor mt :
  mt <> MemberGroup ->
  membership_coherent db (mkActorMembershipKey (if decide (mt = MemberUser) then "user" else "agent") actor)
    (if decide (mt = MemberUser) then load_for_user actor else load_for_agent actor).
Proof.
  intros Hmt. unfold membership_coherent. destruct mt; simpl; [| |done].
  - apply law_user.
  - apply law_agent.
Qed.

Lemma direct_groups_triple actor mt ns :
  mt <> MemberGroup ->
  triple Coh (direct_groups now actor mt ns)
    (fun l c => (NoDup l /\ forall g, g ∈ l <-> g ∈ spec_members db actor mt ns) /\ Coh c).
Proof.
  intros Hmt. unfold direct_groups. set (key := mkActorMembershipKey _ actor).
  assert (Hk : kind_member_type (amk_actor_kind key) = Some mt) by (subst key; by destruct mt).
  eapply triple_bind; [apply (get_membership_triple C db)|].
  intros e. eapply (triple_bind _ _ _ (fun ms c => membership_coherent db key ms /\ Coh c)).
  - intros c [He Hc]. destruct e as [e|]; simpl; [auto|]. split; [by apply loaded_coherent|].
    apply put_membership_coherent; [by apply loaded_coherent|done].
  - intros ms c [Hms Hc]. simpl. split; [|done]. split; [apply unique_ordered_NoDup|].
    intros g. rewrite elem_of_unique_ordered. by apply (filter_memberships_coherent db key).
Qed.

Lemma append_row_get loaded row g :
  od_get g (append_row loaded row)
  = (fun rs => if decide (gm_member_id row = g) then (rs ++ [row])%list else rs) <$> od_get g loaded.
Proof.
  unfold append_row. destruct (od_get (gm_member_id row) loaded) as [rs|] eqn:Hr.
  - rewrite od_get_set. case_decide as Hd; [by subst; rewrite Hr|by destruct (od_get g loaded)].
  - destruct (od_get g loaded) eqn:Hg; [|done]. simpl. case_decide; congruence.
Qed.

Lemma append_row_NoDup loaded row : NoDup loaded.*1 -> NoDup (append_row loaded row).*1.
Proof. intros Hn. unfold append_row. case_match; [by apply od_set_NoDup|done]. Qed.

Lemma append_rows_get l loaded g rs :
  od_get g loaded = Some rs ->
  od_get g (fold_left append_row l loaded)
  = Some (rs ++ List.filter (fun m => bool_decide (gm_member_id m = g)) l)%list.
Proof.
  revert loaded rs. induction l as [|row l IH]; intros loaded rs Hg; simpl; [by rewrite app_nil_r|].
  rewrite (IH _ (if decide (gm_member_id row = g) then (rs ++ [row])%list else rs));
    [|by rewrite append_row_get, Hg].
  case_decide as Hd; [rewrite bool_decide_true by done; by rewrite <- app_assoc|].
  by rewrite bool_decide_false.
Qed.

Lemma append_rows_domain l loaded g :
  od_get g (fold_left append_row l loaded) = None <-> od_get g loaded = None.
Proof.
  revert loaded. induction l as [|row l IH]; intros loaded; simpl; [done|].
  rewrite IH, append_row_get. by destruct (od_get g loaded).
Qed.

Lemma append_rows_NoDup l loaded : NoDup loaded.*1 -> NoDup (fold_left append_row l loaded).*1.
Proof. revert loaded. induction l; intros loaded Hn; simpl; [done|]. by apply IHl, append_row_NoDup. Qed.

Lemma init_get (l : list UUID) (g : UUID) : od_get g (map (fun g => (g, [] : list GroupMembership)) l) = if decide (g ∈ l) then Some [] else None.
Proof.
  induction l as [|x l IH]; simpl; [done|]. rewrite IH.
  repeat case_decide; set_solver.
Qed.

Lemma init_keys (l : list UUID) : (map (fun g => (g, [] : list GroupMembership)) l).*1 = l.
Proof. induction l; simpl; f_equal; done. Qed.

(** Each entry of the batch answer is its group's whole parent set. *)
Lemma batch_rows_coherent f missing g rs :
  load_for_groups = Some f ->
  (g, rs) ∈ fold_left append_row (f missing) (map (fun g => (g, [])) (unique_ordered missing)) ->
  g ∈ missing /\ membership_coherent db (mkActorMembershipKey "group" g) rs.
Proof.
  intros Hf Hin. apply od_get_Some in Hin;
    [|apply append_rows_NoDup; rewrite init_keys; apply unique_ordered_NoDup].
  destruct (od_get g (map (fun g => (g, [] : list GroupMembership)) (unique_ordered missing))) as [r0|] eqn:H0;
    [|apply (append_rows_domain (f missing)) in H0; congruence].
  rewrite (append_rows_get _ _ _ _ H0) in Hin. rewrite init_get in H0. case_decide as Hg; [|done].
  injection H0 as <-. rewrite elem_of_unique_ordered in Hg. split; [done|].
  injection Hin as <-. unfold membership_coherent. simpl. intros m Ht Hid.
  rewrite list_elem_of_In, List.filter_In, <- list_elem_of_In, bool_decide_eq_true.
  rewrite <- (law_groups f missing m Hf Ht) by congruence. naive_solver.
Qed.

(** The rows found or loaded for a level: every group has its coherent parent rows. *)
Definition rows_ok (gs : list UUID) (rows : gmap UUID (list GroupMembership)) : Prop :=
  (forall g ms, rows !! g = Some ms -> membership_coherent db (mkActorMembershipKey "group" g) ms)
  /\ forall g, g ∈ gs -> is_Some (rows !! g).

Lemma rows_ok_insert gs rows g ms :
  rows_ok gs rows -> membership_coherent db (mkActorMembershipKey "group" g) ms ->
  rows_ok (gs ++ [g]) (<[g := ms]> rows).
Proof.
  intros [H1 H2] Hms. split.
  - intros g' ms'. intros [[<- <-]|[_ ?]]%lookup_insert_Some; auto.
  - intros g' [Hg|Hg]%elem_of_app; [|apply list_elem_of_singleton in Hg as ->; by rewrite lookup_insert_eq].
    apply lookup_insert_is_Some'. auto.
Qed.

Lemma put_group_rows_triple fence g ms :
  membership_coherent db (mkActorMembershipKey "group" g) ms ->
  triple Coh (put_group_rows now fence g ms) (fun _ c => Coh c).
Proof. intros Hms c Hc. by apply put_membership_coherent. Qed.

(** The invariant of the scan: coherent rows found so far, the rest listed as missing. *)
Definition scan_ok (gs : list UUID) (rm : gmap UUID (list GroupMembership) * list UUID) : Prop :=
  (forall g ms, rm.1 !! g = Some ms -> membership_coherent db (mkActorMembershipKey "group" g) ms)
  /\ forall g, g ∈ gs -> is_Some (rm.1 !! g) \/ g ∈ rm.2.

Lemma parent_rows_scan_triple gs : triple Coh (parent_rows_scan gs) (fun rm c => scan_ok gs rm /\ Coh c).
Proof.
  apply (triple_for Coh _ scan_ok); [split; simpl; [intros ??; by rewrite lookup_empty|set_solver]|].
  intros done_ g todo [rows missing] _ [H1 H2].
  eapply triple_bind; [apply (get_membership_triple C db)|]. intros e c [He Hc]. simpl.
  split; [|done]. destruct e as [e|]; simpl in *.
  - specialize (He e eq_refl). split; simpl.
    + intros g' ms [[<- <-]|[_ ?]]%lookup_insert_Some; eauto.
    + intros g' [Hg|Hg]%elem_of_app; [destruct (H2 g' Hg); [left|by right]; apply lookup_insert_is_Some'; auto|].
      apply list_elem_of_singleton in Hg as ->. left. by rewrite lookup_insert_eq.
  - split; [done|]. simpl.
    intros g' [Hg|Hg]%elem_of_app; [destruct (H2 g' Hg); [by left|right; set_solver]|]. right. set_solver.
Qed.

(** Finishing a scan with rows for the missing groups covers the level. *)
Lemma scan_ok_finish gs rows missing r :
  scan_ok gs (rows, missing) -> rows_ok missing r -> (forall g, is_Some (rows !! g) -> is_Some (r !! g)) ->
  rows_ok gs r.
Proof.
  intros [_ H2] [Hr1 Hr2] Hk. split; [done|]. intros g Hg. destruct (H2 g Hg) as [|Hm]; auto.
Qed.

Lemma parent_rows_single_triple gs rows missing :
  scan_ok gs (rows, missing) ->
  triple Coh (parent_rows_single now rows missing) (fun r c => rows_ok gs r /\ Coh c).
Proof.
  intros Hs. eapply triple_conseq;
    [apply (triple_for Coh _ (fun l r => rows_ok l r /\ forall g, is_Some (rows !! g) -> is_Some (r !! g))) | done |].
  - split; [split; [apply Hs|set_solver]|done].
  - intros done_ g todo r _ [Hr Hk] c Hc. simpl.
    assert (membership_coherent db (mkActorMembershipKey "group" g) (load_for_group g)) as Hg
      by (unfold membership_coherent; simpl; apply law_group).
    split; [|by apply put_membership_coherent]. split; [by apply rows_ok_insert|].
    intros g' Hg'. apply lookup_insert_is_Some'. auto.
  - intros r c [[Hr Hk] Hc]. split; [|done]. by apply (scan_ok_finish gs rows missing).
Qed.

Lemma batch_keys f missing g :
  g ∈ missing ->
  g ∈ (fold_left append_row (f missing) (map (fun g => (g, [])) (unique_ordered missing))).*1.
Proof.
  intros Hg. destruct (od_get g (fold_left append_row (f missing) (map (fun g => (g, [])) (unique_ordered missing))))
    as [rs|] eqn:Hgl.
  - apply od_get_Some in Hgl; [apply list_elem_of_fmap; by exists (g, rs)|].
    apply append_rows_NoDup. rewrite init_keys. apply unique_ordered_NoDup.
  - apply append_rows_domain in Hgl. rewrite init_get, decide_True in Hgl; [done|by rewrite elem_of_unique_ordered].
Qed.

Lemma parent_rows_batch_triple f gs rows missing :
  load_for_groups = Some f -> scan_ok gs (rows, missing) ->
  triple Coh (parent_rows_batch now f rows missing) (fun r c => rows_ok gs r /\ Coh c).
Proof.
  intros Hf Hs. unfold parent_rows_batch.
  eapply (triple_bind _ _ _ (fun _ c => Coh c)); [by intros c Hc|]. intros fence.
  pose proof (batch_keys f missing) as Hkeys. pose proof (batch_rows_coherent f missing) as Hrows.
  set (loaded := fold_left append_row _ _) in *. clearbody loaded.
  eapply triple_conseq;
    [apply (triple_for Coh _ (fun l r => rows_ok l.*1 r /\ forall g, is_Some (rows !! g) -> is_Some (r !! g)))| done |].
  - split; [split; [apply Hs|set_solver]|done].
  - intros done_ [g rs] todo r Hl [Hr Hk] c Hc. simpl.
    assert (membership_coherent db (mkActorMembershipKey "group" g) rs) as Hg
      by (apply Hrows; [done|]; rewrite Hl; set_solver).
    split; [|by apply put_membership_coherent]. split; [rewrite fmap_app; by apply rows_ok_insert|].
    intros g' Hg'. apply lookup_insert_is_Some'. auto.
  - intros r c [[Hr Hk] Hc]. split; [|done]. apply (scan_ok_finish gs rows missing); [done| |done].
    split; [apply Hr|]. intros g Hg. apply Hr. auto.
Qed.

Lemma parent_rows_triple gs : triple Coh (parent_rows now gs) (fun rows c => rows_ok gs rows /\ Coh c).
Proof.
  unfold parent_rows. eapply triple_bind; [apply parent_rows_scan_triple|].
  intros [rows missing] c [Hs Hc]. destruct missing as [|m0 missing]; [by apply parent_rows_single_triple|].
  destruct load_for_groups as [f|] eqn:Hf; [by apply parent_rows_batch_triple|by apply parent_rows_single_triple].
Qed.

Lemma spec_parents_union ns X Y : spec_parents db ns (X ∪ Y) = spec_parents db ns X ∪ spec_parents db ns Y.
Proof. apply set_eq. intros p. rewrite elem_of_union, !elem_of_spec_parents. set_solver. Qed.

Lemma spec_reach_closed ns n X : spec_parents db ns X ⊆ X -> spec_reach db ns n X = X.
Proof.
  intros Hc. induction n as [|n IH]; simpl; [done|].
  assert (X ∪ spec_parents db ns X = X) as -> by set_solver. done.
Qed.

(** The loop's invariant: groups no longer on the frontier have all their parents in [seen]. *)
Definition level_ok (ns : Namespace) (seen frontier : list UUID) : Prop :=
  NoDup seen /\ (forall g, g ∈ frontier -> g ∈ seen)
  /\ forall g p, g ∈ seen -> g ∉ frontier -> p ∈ spec_members db g MemberGroup ns -> p ∈ seen.

Lemma walk_level_step ns rows seen frontier seen' next :
  level_ok ns seen frontier -> rows_ok frontier rows ->
  walk_level ns rows seen frontier = (seen', next) ->
  level_ok ns seen' next
  /\ (list_to_set seen' : gset UUID) = list_to_set seen ∪ spec_parents db ns (list_to_set seen).
Proof.
  intros (Hnd & Hsub & Hcl) [Hrows Hdom] Hw.
  destruct (walk_level_spec _ _ _ _ _ _ Hnd Hw) as (Hnd' & Hs' & Hnext).
  assert (Hnext' : forall p, p ∈ next <-> ~ (p ∈ seen)
      /\ exists g, g ∈ frontier /\ p ∈ spec_members db g MemberGroup ns).
  { intros p. rewrite Hnext. apply and_iff_compat_l. split; intros (g & Hg & Hp); exists g; (split; [done|]);
      destruct (Hdom g Hg) as [ms Hms]; rewrite (lookup_total_correct _ _ _ Hms) in *;
      by apply (filter_memberships_coherent db (mkActorMembershipKey "group" g) ms g MemberGroup ns eq_refl eq_refl (Hrows _ _ Hms)). }
  subst seen'. split.
  - split_and!; [done|set_solver|]. intros g p [Hg|Hg]%elem_of_app Hn Hp; [|done].
    rewrite elem_of_app, Hnext'. destruct (decide (p ∈ seen)) as [|Hps]; [by left|right].
    split; [done|]. exists g. split; [|done].
    destruct (decide (g ∈ frontier)) as [|Hf]; [done|]. destruct Hps. by apply (Hcl g).
  - apply set_eq. intros p. rewrite list_to_set_app_L, !elem_of_union, !elem_of_list_to_set, Hnext', elem_of_spec_parents.
    setoid_rewrite elem_of_list_to_set. destruct (decide (p ∈ seen)) as [|Hps]; [tauto|]. split.
    + intros [?|[_ (g & Hg & Hp)]]; [done|]. right. eauto.
    + intros [?|(g & Hg & Hp)]; [done|]. right. split; [done|]. exists g. split; [|done].
      destruct (decide (g ∈ frontier)) as [|Hf]; [done|]. destruct Hps. apply (Hcl g); [done..|].
      unfold spec_members. by rewrite elem_of_list_to_set.
Qed.

Lemma expand_loop_triple ns n seen frontier :
  level_ok ns seen frontier ->
  triple Coh (expand_loop now ns n seen frontier)
    (fun l c => (NoDup l /\ (list_to_set l : gset UUID) = spec_reach db ns n (list_to_set seen)) /\ Coh c).
Proof.
  revert seen frontier. induction n as [|n IH]; intros seen frontier Hok; simpl.
  { apply triple_ret. intros c Hc. split; [|done]. split; [apply Hok|done]. }
  destruct frontier as [|f0 frontier].
  { apply triple_ret. intros c Hc. split; [|done]. split; [apply Hok|].
    change (list_to_set seen = spec_reach db ns (S n) (list_to_set seen)).
    symmetry. apply spec_reach_closed. intros p. rewrite elem_of_spec_parents. setoid_rewrite elem_of_list_to_set.
    intros (g & Hg & Hp). destruct Hok as (_ & _ & Hcl). apply (Hcl g); set_solver. }
  eapply triple_bind; [apply parent_rows_triple|]. intros rows c [Hr Hc].
  destruct (walk_level ns rows seen (f0 :: frontier)) as [seen' next] eqn:Hw.
  destruct (walk_level_step _ _ _ _ _ _ Hok Hr Hw) as [Hok' Hset].
  rewrite <- Hset. by apply IH.
Qed.

Lemma expand_group_parents_triple direct ns :
  NoDup direct ->
  triple Coh (expand_group_parents now max_depth direct ns)
    (fun l c => (NoDup l /\ (list_to_set l : gset UUID) = spec_reach db ns (max_depth - 1) (list_to_set direct)) /\ Coh c).
Proof.
  intros Hd. unfold expand_group_parents. rewrite unique_ordered_id by done. apply expand_loop_triple.
  split_and!; [done..|]. intros g p Hg Hn. done.
Qed.

(** *** The planner *)

Lemma customer_wall_ext cid ns ns' : ns_customer_id ns = ns_customer_id ns' -> customer_wall cid ns = customer_wall cid ns'.
Proof. intros H. unfold customer_wall. by rewrite H. Qed.

(** A namespace changes a group set only through its customer. *)
Lemma spec_members_customer actor mt ns ns' :
  ns_customer_id ns = ns_customer_id ns' -> spec_members db actor mt ns = spec_members db actor mt ns'.
Proof.
  intros Hc. apply set_eq. intros g. unfold spec_members. rewrite !elem_of_list_to_set, !list_elem_of_fmap.
  setoid_rewrite elem_of_filter_memberships.
  split; intros (m & ? & ? & ? & ? & Hw); exists m; split_and!; try done;
    rewrite <- Hw; apply customer_wall_ext; done.
Qed.

Lemma spec_reach_customer ns ns' n X :
  ns_customer_id ns = ns_customer_id ns' -> spec_reach db ns n X = spec_reach db ns' n X.
Proof.
  intros Hc. revert X. induction n as [|n IH]; intros X; simpl; [done|]. rewrite IH. do 2 f_equal.
  apply set_eq. intros p. rewrite !elem_of_spec_parents. by setoid_rewrite (spec_members_customer _ _ _ _ Hc).
Qed.

(** The group set of one side, by the planner's kind. *)
Definition spec_kind_groups (kind : string) (actor : UUID) (ns : Namespace) : gset UUID :=
  spec_reach db ns (max_depth - 1)
    (if String.eqb kind "group" then {[actor]}
     else spec_members db actor (if String.eqb kind "user" then MemberUser else MemberAgent) ns).

Definition planned_ok (planned : gmap (string * UUID * option UUID) (list UUID)) : Prop :=
  forall kind actor cid l, planned !! (kind, actor, cid) = Some l ->
    forall ns, ns_customer_id ns = cid ->
      NoDup l /\ (list_to_set l : gset UUID) = spec_kind_groups kind actor ns.

Lemma spec_kind_groups_customer kind actor ns ns' :
  ns_customer_id ns = ns_customer_id ns' -> spec_kind_groups kind actor ns = spec_kind_groups kind actor ns'.
Proof.
  intros Hc. unfold spec_kind_groups. rewrite (spec_reach_customer ns ns') by done.
  by rewrite (spec_members_customer _ _ ns ns').
Qed.

Lemma planner_groups_triple kind actor ns planned :
  planned_ok planned ->
  triple Coh (planner_groups now max_depth kind actor ns planned)
    (fun r c => (NoDup r.1 /\ (list_to_set r.1 : gset UUID) = spec_kind_groups kind actor ns /\ planned_ok r.2) /\ Coh c).
Proof.
  intros Hp. unfold planner_groups. destruct (planned !! _) as [l|] eqn:Hl.
  { apply triple_ret. intros c Hc. split; [|done]. destruct (Hp _ _ _ _ Hl ns eq_refl). done. }
  eapply (triple_bind _ _ _ (fun l c => (NoDup l /\ (list_to_set l : gset UUID) =
    (if String.eqb kind "group" then {[actor]}
     else spec_members db actor (if String.eqb kind "user" then MemberUser else MemberAgent) ns)) /\ Coh c)).
  { destruct (String.eqb kind "group").
    - apply triple_ret. intros c Hc. split; [|done]. split; [apply NoDup_singleton|set_solver].
    - eapply triple_conseq; [apply direct_groups_triple|done|]; [by case_match|].
      intros l c [[Hn Hl'] Hc]. split; [|done]. split; [done|]. apply set_eq. intros g. by rewrite elem_of_list_to_set. }
  intros direct. apply triple_pure. intros [Hn Hd].
  eapply triple_bind; [by apply expand_group_parents_triple|].
  intros groups c [[Hgn Hgs] Hc]. simpl. split; [|done]. rewrite Hd in Hgs. split_and!; [done..|].
  intros k a cid l [[[= <- <- <-] <-]|[_ ?]]%lookup_insert_Some ns' Hns'; [|by eapply Hp].
  split; [done|]. rewrite Hgs. by apply (spec_kind_groups_customer kind actor ns ns').
Qed.

Definition plan_ok (ctx : EvaluationContext) (p : SidePlan) : Prop :=
  NoDup (sp_user_groups p) /\ (list_to_set (sp_user_groups p) : gset UUID) = spec_user_groups db max_depth ctx
  /\ NoDup (sp_agent_groups p) /\ (list_to_set (sp_agent_groups p) : gset UUID) = spec_agent_groups db max_depth ctx
  /\ sp_agent_owner_short_circuited p = spec_owner ctx.

Lemma plan_triple ctx planned :
  planned_ok planned ->
  triple Coh (plan now max_depth ctx planned) (fun r c => (plan_ok ctx r.1 /\ planned_ok r.2) /\ Coh c).
Proof.
  intros Hp. unfold plan. set (ns := ec_namespace ctx).
  eapply (triple_bind _ _ _ (fun r c => (NoDup r.1 /\ (list_to_set r.1 : gset UUID) =
    match ec_group_id ctx with Some g => spec_kind_groups "group" g ns | None => ∅ end /\ planned_ok r.2) /\ Coh c)).
  { destruct (ec_group_id ctx); [by apply planner_groups_triple|].
    apply triple_ret. intros c Hc. split; [|done]. split_and!; [constructor|done..]. }
  intros [ug0 planned0]. apply triple_pure. intros (Hn0 & Hs0 & Hp0).
  eapply (triple_bind Coh _ _ (fun r c => (NoDup r.1 /\ (list_to_set r.1 : gset UUID) = spec_user_groups db max_depth ctx
    /\ planned_ok r.2) /\ Coh c)).
  { unfold spec_user_groups. destruct (ec_user_id ctx); [by apply planner_groups_triple|].
    apply triple_ret. intros c Hc. split; [|done]. split_and!; [done| |done].
    rewrite Hs0. by destruct (ec_group_id ctx). }
  intros [ug planned1]. apply triple_pure. intros (Hn1 & Hs1 & Hp1).
  unfold plan_ok, spec_agent_groups, spec_owner. fold ns.
  destruct (ec_agent_id ctx) as [a|]; [|apply triple_ret; intros c Hc; by split_and!; simpl; try apply NoDup_nil_2].
  destruct (agent_owns_namespace ns a); [apply triple_ret; intros c Hc; by split_and!; simpl; try apply NoDup_nil_2|].
  eapply triple_bind; [by apply (planner_groups_triple "agent" a ns)|].
  intros [ag planned2] c [(Hn2 & Hs2 & Hp2) Hc]. simpl in *. by split_and!.
Qed.

Lemma plan_all_triple contexts :
  triple Coh (plan_all now max_depth contexts) (fun plans c => Forall2 plan_ok contexts plans /\ Coh c).
Proof.
  unfold plan_all. eapply triple_bind.
  - apply (triple_for Coh _ (fun l (r : list SidePlan * gmap (string * UUID * option UUID) (list UUID)) =>
      Forall2 plan_ok l r.1 /\ planned_ok r.2)).
    + split; [constructor|]. intros ????. simpl. by rewrite lookup_empty.
    + intros done_ ctx todo [plans planned] _ [Hf Hp]. eapply triple_bind; [by apply plan_triple|].
      intros [p planned'] c [[Hpl Hp'] Hc]. split; [|done]. split; [|done]. by apply Forall2_app; [|constructor].
  - intros [plans planned] c [[Hf _] Hc]. done.
Qed.

End Routines.

(** *** Contributions *)

Section Contributions.
Context `{HL : Loaders} {db : AccessTables} `{!LoaderLaws db}.
Context (Hwf : tables_wf db) (canon : UUID -> Namespace) (now : Z) (max_depth : nat).
Abbreviation Coh := (coherent canon db).

Definition spec_contribution (k : GroupNamespaceKey) : gset string * list Trail :=
  let ts := spec_trails db (gnk_group_id k) (canon (gnk_namespace_id k)) in (trails_actions ts, ts).

(** Each wanted pair carries the descriptor of its namespace id. *)
Definition wanted_ok (wanted : list (GroupNamespaceKey * Namespace)) : Prop :=
  forall k ns, (k, ns) ∈ wanted -> ns = canon (gnk_namespace_id k).

Lemma od_get_is_Some {K V} `{EqDecision K} (k : K) (d : list (K * V)) : k ∈ d.*1 -> is_Some (od_get k d).
Proof. induction d as [|[k1 v1] d IH]; simpl; [set_solver|]. case_decide; [done|]. set_solver. Qed.

(** What one pair's held assignments must satisfy for the walk to be the reference's. *)
Definition held_ok (k : GroupNamespaceKey) (l : list RoleAssignment) : Prop :=
  NoDup l /\ forall a, ra_group_id a = gnk_group_id k -> covers a (canon (gnk_namespace_id k)) = true ->
    a ∈ l <-> a ∈ at_assignments db.

Lemma elem_of_list_filter_bool {A} (f : A -> bool) l x : x ∈ List.filter f l <-> x ∈ l /\ f x = true.
Proof. by rewrite !list_elem_of_In, List.filter_In. Qed.

Lemma held_by_groups_ok f missing k l :
  load_assignments_held_by_groups = Some f -> wanted_ok missing ->
  (k, l) ∈ held_by_groups f (unique_ordered (map (fun kn => gnk_group_id kn.1) missing)) missing -> held_ok k l.
Proof.
  intros Hf Hw. unfold held_by_groups. intros ([k' ns] & [= -> ->] & Hin)%list_elem_of_fmap.
  rewrite (Hw _ _ Hin). split.
  - by do 2 apply NoDup_list_filter; apply (law_held_nodup f).
  - intros a Hg Hc. rewrite !elem_of_list_filter_bool, bool_decide_eq_true.
    rewrite (law_held f _ a Hf); [tauto|]. rewrite elem_of_unique_ordered, Hg.
    apply list_elem_of_fmap. by exists (k', ns).
Qed.

Lemma by_namespace_ok missing :
  wanted_ok missing ->
  (forall i ns gs, (i, (ns, gs)) ∈ fold_left by_namespace_step missing [] -> ns = canon i)
  /\ forall k ns, (k, ns) ∈ missing -> exists ns0 gs,
       od_get (gnk_namespace_id k) (fold_left by_namespace_step missing []) = Some (ns0, gs) /\ gnk_group_id k ∈ gs.
Proof.
  induction missing as [|[k ns] missing IH] using rev_ind; intros Hw; [set_solver|].
  destruct IH as [IH1 IH2]; [intros k' ns' H'; apply Hw; set_solver|].
  assert (Hns : ns = canon (gnk_namespace_id k)) by (apply Hw; set_solver).
  rewrite fold_left_app. simpl. set (acc := fold_left by_namespace_step missing []) in *. clearbody acc.
  destruct (od_get (gnk_namespace_id k) acc) as [[ns0 gs]|] eqn:Hg; split.
  - intros i ns' gs' Hin. apply od_set_elem in Hin as [[= -> -> ->]|Hin]; [|by apply IH1 in Hin].
    apply od_get_elem in Hg. by apply IH1 in Hg.
  - intros k' ns' [Hin|Hin]%elem_of_app; rewrite od_get_set.
    + destruct (IH2 _ _ Hin) as (ns1 & gs1 & Hg1 & Hin1). case_decide as Heq; [|eauto].
      rewrite <- Heq, Hg in Hg1. injection Hg1 as <- <-. eexists _, _. split; [done|]. set_solver.
    + apply list_elem_of_singleton in Hin as [= -> ->]. rewrite decide_True by done.
      eexists _, _. split; [done|]. set_solver.
  - intros i ns' gs' Hin. apply od_set_elem in Hin as [[= -> -> ->]|Hin]; [done|by apply IH1 in Hin].
  - intros k' ns' [Hin|Hin]%elem_of_app; rewrite od_get_set.
    + destruct (IH2 _ _ Hin) as (ns1 & gs1 & Hg1 & Hin1). case_decide as Heq; [|eauto]. congruence.
    + apply list_elem_of_singleton in Hin as [= -> ->]. rewrite decide_True by done.
      eexists _, _. split; [done|]. set_solver.
Qed.

Lemma held_by_namespace_ok missing :
  wanted_ok missing ->
  (forall k l, (k, l) ∈ held_by_namespace missing -> held_ok k l)
  /\ forall k ns, (k, ns) ∈ missing -> k ∈ (held_by_namespace missing).*1.
Proof.
  intros Hw. destruct (by_namespace_ok missing Hw) as [H1 H2]. unfold held_by_namespace. split.
  - intros k l Hin. apply list_elem_of_In, in_flat_map in Hin as ([i [ns gs]] & Hi & Hin).
    apply list_elem_of_In in Hi, Hin. apply list_elem_of_fmap in Hin as (g & [= -> ->] & Hg).
    rewrite (H1 _ _ _ Hi). split; simpl.
    + apply NoDup_list_filter, law_assignments_nodup.
    + intros a Ha Hc. rewrite elem_of_list_filter_bool, bool_decide_eq_true.
      rewrite law_assignments by congruence. tauto.
  - intros k ns Hin. destruct (H2 _ _ Hin) as (ns0 & gs & Hg & Hk). apply od_get_elem in Hg.
    apply list_elem_of_fmap. eexists (k, _). split; [done|].
    apply list_elem_of_In, in_flat_map. exists (gnk_namespace_id k, (ns0, gs)). split; [by apply list_elem_of_In|].
    apply list_elem_of_In, list_elem_of_fmap. exists (gnk_group_id k). split; [by destruct k|done].
Qed.

Lemma held_assignments_ok missing k ns :
  wanted_ok missing -> (k, ns) ∈ missing ->
  exists l, od_get k (held_assignments missing) = Some l /\ held_ok k l.
Proof.
  intros Hw Hin. unfold held_assignments. destruct load_assignments_held_by_groups as [f|] eqn:Hf.
  - assert (k ∈ (held_by_groups f (unique_ordered (map (fun kn => gnk_group_id kn.1) missing)) missing).*1) as Hk.
    { unfold held_by_groups. rewrite <- list_fmap_compose. apply list_elem_of_fmap. by exists (k, ns). }
    destruct (od_get_is_Some k _ Hk) as [l Hl]. exists l. split; [done|].
    apply (held_by_groups_ok f missing k l); [done..|]. by apply od_get_elem.
  - destruct (held_by_namespace_ok missing Hw) as [H1 H2].
    destruct (od_get_is_Some k _ (H2 _ _ Hin)) as [l Hl]. exists l. split; [done|]. by apply H1, od_get_elem.
Qed.

(** The invariant of both loops over pairs: everything in the result is the reference's. *)
Definition res_ok (ks : list GroupNamespaceKey) (res : gmap GroupNamespaceKey (gset string * list Trail)) : Prop :=
  (forall k v, res !! k = Some v -> v = spec_contribution k) /\ forall k, k ∈ ks -> is_Some (res !! k).

Lemma res_ok_insert ks res k v :
  res_ok ks res -> v = spec_contribution k -> res_ok (ks ++ [k]) (<[k := v]> res).
Proof.
  intros [H1 H2] ->. split.
  - intros k' v' [[<- <-]|[_ ?]]%lookup_insert_Some; auto.
  - intros k' [Hk|Hk]%elem_of_app; [apply lookup_insert_is_Some'; auto|].
    apply list_elem_of_singleton in Hk as ->. by rewrite lookup_insert_eq.
Qed.

Lemma spec_contribution_coherent k :
  contribution_coherent canon db k (spec_contribution k).1 (spec_contribution k).2.
Proof. done. Qed.

Lemma contributions_scan_triple wanted :
  triple Coh (contributions_scan wanted)
    (fun rm c => (((forall k v, rm.1 !! k = Some v -> v = spec_contribution k)
                   /\ forall kn, kn ∈ wanted -> is_Some (rm.1 !! kn.1) \/ kn ∈ rm.2)
                  /\ forall kn, kn ∈ rm.2 -> kn ∈ wanted) /\ Coh c).
Proof.
  apply (triple_for Coh _ (fun l rm => ((forall k v, rm.1 !! k = Some v -> v = spec_contribution k)
      /\ forall kn, kn ∈ l -> is_Some (rm.1 !! kn.1) \/ kn ∈ rm.2) /\ forall kn, kn ∈ rm.2 -> kn ∈ l)).
  { simpl. split; [split|]; [intros ??; by rewrite lookup_empty|set_solver..]. }
  intros done_ [k ns] todo [res missing] _ [[H1 H2] H3]. simpl in *.
  eapply triple_bind; [apply (get_group_namespace_triple (contribution_coherent canon db) db)|]. intros e c [He Hc]. simpl.
  split; [|done]. destruct e as [e|]; simpl in *.
  - destruct (He e eq_refl) as [Hts Hacts]. split; [split|set_solver].
    + intros k' v [[<- <-]|[_ ?]]%lookup_insert_Some; [|auto].
      unfold spec_contribution. by rewrite Hacts, Hts.
    + intros kn [Hk|Hk]%elem_of_app;
        [destruct (H2 _ Hk); [left|by right]; apply lookup_insert_is_Some'; auto|].
      apply list_elem_of_singleton in Hk as ->. left. simpl. by rewrite lookup_insert_eq.
  - split; [split; [done|]|set_solver].
    intros kn [Hk|Hk]%elem_of_app; [destruct (H2 _ Hk); [by left|right; set_solver]|right; set_solver].
Qed.

(** Walking one missing pair gives the reference's contribution. *)
Lemma walk_missing missing k ns l :
  wanted_ok missing -> (k, ns) ∈ missing -> od_get k (held_assignments missing) = Some l -> held_ok k l ->
  let role_ids := unique_ordered (flat_map (fun h => map ra_role_id h.2) (held_assignments missing)) in
  walk_assignments l
    (match role_ids with [] => ∅ | _ => load_roles role_ids end)
    (coerce_groups (load_groups (unique_ordered (map (fun kn => gnk_group_id kn.1) missing))))
    {[gnk_group_id k]} ns = spec_contribution k.
Proof.
  intros Hw Hin Hl [Hnd Hcov] role_ids. rewrite (Hw _ _ Hin).
  apply (walk_assignments_spec db _ _ l); [done|done|apply Hcov| |].
  - intros a Ha. assert (ra_role_id a ∈ role_ids) as Hr.
    { subst role_ids. rewrite elem_of_unique_ordered. apply list_elem_of_In, in_flat_map.
      exists (k, l). split; [by apply list_elem_of_In, od_get_elem|].
      apply list_elem_of_In, list_elem_of_fmap. by exists a. }
    destruct role_ids as [|r0 rs] eqn:Hrs; [set_solver|]. rewrite <- Hrs in *. by apply law_roles.
  - apply law_group_rows. rewrite elem_of_unique_ordered. apply list_elem_of_fmap. by exists (k, ns).
Qed.

Lemma group_namespace_contributions_triple wanted :
  wanted_ok wanted ->
  triple Coh (group_namespace_contributions now wanted) (fun res c => res_ok wanted.*1 res /\ Coh c).
Proof.
  intros Hw. unfold group_namespace_contributions. eapply triple_bind; [apply contributions_scan_triple|].
  intros [res missing]. apply triple_pure. simpl. intros [[H1 H2] H3].
  assert (Hfin : forall r, res_ok missing.*1 r -> (forall k, is_Some (res !! k) -> is_Some (r !! k)) -> res_ok wanted.*1 r).
  { intros r [Hr1 Hr2] Hk. split; [done|]. intros k ([k' ns] & -> & Hin)%list_elem_of_fmap.
    destruct (H2 _ Hin) as [|Hm]; [auto|]. apply Hr2, list_elem_of_fmap. by exists (k', ns). }
  assert (Hwm : wanted_ok missing) by (intros k ns Hin; by apply Hw, H3).
  destruct missing as [|m0 missing'] eqn:Hm.
  { apply triple_ret. intros c Hc. split; [|done]. apply Hfin; [|done]. split; [done|set_solver]. }
  rewrite <- Hm in *. clear Hm m0 missing'.
  eapply (triple_bind _ _ _ (fun _ c => Coh c)); [by intros c Hc|]. intros fence. unfold contributions_walk.
  eapply triple_conseq;
    [apply (triple_for Coh _ (fun l r => res_ok l.*1 r /\ forall k, is_Some (res !! k) -> is_Some (r !! k)))|done|].
  - split; [split; [done|set_solver]|done].
  - intros done_ [k ns] todo r Hl [Hr Hk] c Hc.
    assert ((k, ns) ∈ missing) as Hin by (rewrite Hl; set_solver).
    destruct (held_assignments_ok missing k ns Hwm Hin) as (l & Hgl & Hok).
    rewrite Hgl. simpl default. pose proof (walk_missing missing k ns l Hwm Hin Hgl Hok) as Hwalk. simpl in Hwalk.
    rewrite Hwalk. simpl. split; [|by apply put_group_namespace_coherent]. split.
    + rewrite fmap_app. by apply res_ok_insert.
    + intros k' Hk'. apply lookup_insert_is_Some'. auto.
  - intros r c [[Hr Hk] Hc]. split; [|done]. by apply Hfin.
Qed.

(** *** Assembling the answers *)

Lemma spec_trails_elem g ns t : t ∈ spec_trails db g ns -> t_assignment t ∈ at_assignments db
  /\ walk_one (at_roles db) (at_groups db) {[g]} ns (t_assignment t) = Some t.
Proof.
  unfold spec_trails. rewrite elem_of_sort_by, list_elem_of_omap. intros (a & Ha & Ht).
  by rewrite (walk_one_assignment _ _ _ _ _ _ Ht).
Qed.

Lemma trail_key_inj g1 g2 ns t1 t2 :
  t1 ∈ spec_trails db g1 ns -> t2 ∈ spec_trails db g2 ns -> trail_key t1 = trail_key t2 -> t1 = t2.
Proof.
  intros H1 H2 Hk. pose proof (spec_trails_elem _ _ _ H1) as [Ha1 Hw1].
  pose proof (spec_trails_elem _ _ _ H2) as [Ha2 Hw2].
  pose proof (f_equal snd Hk) as Hs. cbn [snd trail_key] in Hs.
  apply uuid_str_inj in Hs; [|by apply (wf_assignment_uuid db)..].
  apply (wf_assignment_ids db Hwf) in Hs; [|done..].
  apply walk_one_Some in Hw1 as (Hg1 & ? & ? & ? & Hgr1 & Hr1 & ? & ? & ->).
  apply walk_one_Some in Hw2 as (Hg2 & ? & ? & ? & Hgr2 & Hr2 & ? & ? & ->). simpl in *. subst.
  rewrite Hs in *. congruence.
Qed.

Lemma accumulate_groups_spec groups ns (contributions : gmap GroupNamespaceKey (gset string * list Trail)) :
  NoDup groups -> ns = canon (ns_id ns) ->
  (forall g, g ∈ groups -> contributions !! mkGroupNamespaceKey g (ns_id ns) = Some (spec_contribution (mkGroupNamespaceKey g (ns_id ns)))) ->
  accumulate_groups groups ns contributions = spec_side db ns (list_to_set groups).
Proof.
  intros Hnd Hns Hc. unfold accumulate_groups, spec_side.
  assert (Hf : forall l acc, (forall g, g ∈ l -> g ∈ groups) ->
    fold_left (fun acc group_id =>
         let '(actions, trails) := contributions !!! mkGroupNamespaceKey group_id (ns_id ns) in
         (acc.1 ∪ actions, (acc.2 ++ trails)%list)) l acc
    = (acc.1 ∪ trails_actions (flat_map (fun g => spec_trails db g ns) l),
       (acc.2 ++ flat_map (fun g => spec_trails db g ns) l)%list)).
  { induction l as [|g l IH]; intros [s ts] Hl; simpl.
    - unfold trails_actions. simpl. by rewrite (right_id_L ∅ (∪)), app_nil_r.
    - assert (Hg : g ∈ groups) by set_solver.
      rewrite (lookup_total_correct contributions _ _ (Hc g Hg)). unfold spec_contribution. simpl.
      rewrite <- Hns. rewrite IH by set_solver. simpl. rewrite trails_actions_app, (assoc_L (∪)), app_assoc. done. }
  rewrite Hf by done. simpl. rewrite (left_id_L ∅ (∪)).
  assert (Hp : flat_map (fun g => spec_trails db g ns) groups
     ≡ₚ flat_map (fun g => spec_trails db g ns) (elements (list_to_set groups : gset UUID))).
  { apply Permutation_flat_map. symmetry. by apply elements_list_to_set. }
  f_equal; [by apply trails_actions_perm|]. apply sort_by_unique; [|done].
  intros t1 t2 H1 H2. apply list_elem_of_In, in_flat_map in H1 as (g1 & _ & H1%list_elem_of_In).
  apply list_elem_of_In, in_flat_map in H2 as (g2 & _ & H2%list_elem_of_In). by apply (trail_key_inj g1 g2 ns).
Qed.

(** A context presents its namespace id with the one descriptor of it. *)
Definition canonical (ctx : EvaluationContext) : Prop :=
  ec_namespace ctx = canon (ns_id (ec_namespace ctx)).

Lemma wanted_spec cps wanted :
  wanted_ok wanted -> (forall ctx p, (ctx, p) ∈ cps -> canonical ctx) ->
  wanted_ok (fold_left want_pairs cps wanted)
  /\ (forall k, k ∈ wanted.*1 -> k ∈ (fold_left want_pairs cps wanted).*1)
  /\ forall ctx p g, (ctx, p) ∈ cps -> g ∈ (sp_user_groups p ++ sp_agent_groups p)%list ->
       mkGroupNamespaceKey g (ns_id (ec_namespace ctx)) ∈ (fold_left want_pairs cps wanted).*1.
Proof.
  revert wanted. induction cps as [|[ctx p] cps IH]; intros wanted Hw Hcan; cbn [fold_left].
  { split_and!; [done..|]. intros ??? H. by apply not_elem_of_nil in H. }
  assert (Hctx : canonical ctx) by (apply (Hcan ctx p); set_solver).
  destruct (IH (want_pairs wanted (ctx, p))) as (H1 & H2 & H3).
  - intros k ns Hin. apply want_pairs_spec in Hin as [|[-> Hk]]; [by apply Hw|]. by rewrite Hk.
  - intros ctx' p' Hin. apply (Hcan ctx' p'). set_solver.
  - split_and!; [done| |].
    + intros k Hk. apply H2. apply (want_pairs_spec _ _ _ _ (ec_namespace ctx)). by left.
    + intros ctx' p' g [[= -> ->]|Hin]%elem_of_cons Hg; [|by apply (H3 ctx' p')].
      apply H2. apply (want_pairs_spec _ _ _ _ (ec_namespace ctx)). right. eauto.
Qed.

Lemma answer_of_spec contributions ctx p :
  canonical ctx -> plan_ok (db := db) max_depth ctx p ->
  (forall g, g ∈ (sp_user_groups p ++ sp_agent_groups p)%list ->
     contributions !! mkGroupNamespaceKey g (ns_id (ec_namespace ctx))
     = Some (spec_contribution (mkGroupNamespaceKey g (ns_id (ec_namespace ctx))))) ->
  answer_of contributions ctx p = spec_answer db max_depth ctx.
Proof.
  intros Hcan (Hu & Hus & Ha & Has & Ho) Hc. unfold answer_of, spec_answer.
  rewrite (accumulate_groups_spec (sp_user_groups p)), Hus; [|done|apply Hcan|intros g Hg; apply Hc; set_solver].
  destruct (spec_side _ _ (spec_user_groups db max_depth ctx)) as [ua ut].
  destruct (sp_agent_groups p) as [|a0 ags] eqn:Hag.
  - rewrite <- Has. simpl. rewrite Ho. by destruct (spec_owner ctx).
  - rewrite <- Hag in *. rewrite (accumulate_groups_spec (sp_agent_groups p)), Has;
      [|done|apply Hcan|intros g Hg; apply Hc; set_solver].
    assert (spec_owner ctx = false) as Hno.
    { unfold spec_owner, spec_agent_groups in *. destruct (ec_agent_id ctx) as [a|]; [|done].
      destruct (agent_owns_namespace _ a); [|done]. rewrite Hag in Has. simpl in Has. set_solver. }
    destruct (spec_side _ _ (spec_agent_groups db max_depth ctx)) as [aa at_]. by rewrite Ho, Hno.
Qed.

Lemma evaluate_many_triple contexts :
  check_contexts contexts = Ok tt -> Forall canonical contexts ->
  triple Coh (evaluate_many_with_trail now max_depth contexts)
    (fun r c => r = Ok (map (spec_answer db max_depth) contexts) /\ Coh c).
Proof.
  intros Hchk Hcan. unfold evaluate_many_with_trail. rewrite Hchk.
  eapply triple_bind; [apply (plan_all_triple (contribution_coherent canon db))|]. intros plans. apply triple_pure. intros Hplans.
  destruct (wanted_spec (zip contexts plans) []) as (Hw & _ & Hin).
  { intros ?? H. by apply not_elem_of_nil in H. }
  { intros ctx p Hz. rewrite Forall_forall in Hcan. apply Hcan. apply elem_of_zip_l in Hz. done. }
  eapply triple_bind; [by apply group_namespace_contributions_triple|].
  intros res. apply triple_pure. intros [Hr1 Hr2]. apply triple_ret. intros c Hc. split; [|done]. f_equal.
  clear Hw Hchk. assert (Hcp : forall ctx p g, (ctx, p) ∈ zip contexts plans ->
    g ∈ (sp_user_groups p ++ sp_agent_groups p)%list ->
    res !! mkGroupNamespaceKey g (ns_id (ec_namespace ctx))
      = Some (spec_contribution (mkGroupNamespaceKey g (ns_id (ec_namespace ctx))))).
  { intros ctx p g Hz Hg. destruct (Hr2 _ (Hin _ _ _ Hz Hg)) as [v Hv]. by rewrite Hv, (Hr1 _ _ Hv). }
  clear Hin Hr1 Hr2. induction Hplans as [|ctx p contexts plans Hp Hplans IH]; [done|]. simpl.
  inversion Hcan; subst. f_equal.
  - apply answer_of_spec; [done..|]. intros g Hg. apply (Hcp ctx p); [set_solver|done].
  - apply IH; [done|]. intros ctx' p' g Hz. apply Hcp. set_solver.
Qed.
End Contributions.
