(* ===== verification/AclWalls.v ===== *)
(** * Guarantees that do not depend on the loaders

    The evaluator re-checks what a loader hands it: a row of another actor, an assignment of
    another group or outside its scope, a role or group of another customer contributes nothing.
    The theorems here quantify over every [Loaders], with no law assumed: whatever rows come back,
    every trail of an answer covers the namespace and passes the customer walls, every effective
    action is explained by such a trail or by ownership, and a refused batch touches nothing. *)

From Stdlib Require Import Ascii String Bool List NArith ZArith Lia.
From stdpp Require Import base list gmap strings sorting.
From S2P Require Import Prelude Namespaces AclTypes AclCache AclEvaluator AclRefinement.

Open Scope string_scope.

(** What the walk checks of a trail before it contributes on [ns]. *)
Definition trail_walled (ns : Namespace) (t : Trail) : Prop :=
  covers (t_assignment t) ns = true
  /\ customer_wall (g_customer_id (t_group t)) ns = true
  /\ customer_wall (r_customer_id (t_role t)) ns = true
  /\ t_contributed_actions t = actions_for (t_role t) (ns_type ns).

Definition contribution_walled (ns : Namespace) (v : gset string * list Trail) : Prop :=
  Forall (trail_walled ns) v.2 /\ v.1 = trails_actions v.2.

Lemma contribution_walled_empty ns : contribution_walled ns (∅, []).
Proof. split; [constructor|]. reflexivity. Qed.

Lemma walk_assignments_walled l roles groups gs ns :
  contribution_walled ns (walk_assignments l roles groups gs ns).
Proof.
  rewrite walk_assignments_omap. split; [|done]. simpl. apply Forall_forall.
  intros t (a & _ & (_ & Hc & g & r & _ & _ & Hg & Hr & ->)%walk_one_Some)%list_elem_of_omap. done.
Qed.

Section Walls.
Context `{HL : Loaders} (canon : UUID -> Namespace) (now : Z) (max_depth : nat).

(** Every per-namespace entry of the cache is walled on its namespace. *)
Definition walled (c : AclCache) : Prop :=
  forall k e, ac_group_namespace c !! k = Some e ->
    contribution_walled (canon (gnk_namespace_id k)) (gne_actions e, gne_trails e).

Lemma walled_layer c c' :
  (ac_group_namespace c' = ac_group_namespace c \/ ac_group_namespace c' = ∅) -> walled c -> walled c'.
Proof. intros [H|H] Hc k e; rewrite H; [apply Hc|by rewrite lookup_empty]. Qed.

Lemma walled_trusted c : walled c -> walled (trusted_locked c).2.
Proof.
  apply walled_layer. unfold trusted_locked. repeat case_match; simpl; auto.
Qed.

Lemma walled_store fence store c :
  (forall c, walled c -> walled (store c)) -> walled c -> walled (store_guarded fence store c).
Proof.
  intros Hs Hc%walled_trusted. unfold store_guarded. destruct (trusted_locked c) as [[] c1]; [|done]. simpl in Hc.
  destruct (fence_moved fence c1) as [m c2] eqn:Hm.
  assert (Hc2 : walled c2).
  { injection Hm as _ <-. eapply walled_layer, Hc. case_match; auto. }
  destruct m; auto.
Qed.

Lemma keeps_get_membership k : keeps walled (get_membership k).
Proof. intros c Hc%walled_trusted. unfold get_membership. by destruct (trusted_locked c). Qed.

Lemma keeps_put_membership {A} (a : A) k ms fence :
  keeps walled (fun c => (a, put_membership now k ms fence c)).
Proof. apply keeps_pair. intros c. apply walled_store. intros c'. by apply walled_layer; left. Qed.

Lemma keeps_read_fence : keeps walled (fun c => (read_fence c, c)).
Proof. by intros c. Qed.

#[local] Hint Resolve keeps_get_membership keeps_put_membership keeps_read_fence : keeps.

Lemma keeps_direct_groups actor mt ns : keeps walled (direct_groups now actor mt ns).
Proof.
  unfold direct_groups. solve_keeps. intros c Hc. by apply (keeps_put_membership tt).
Qed.

Lemma keeps_parent_rows gs : keeps walled (parent_rows now gs).
Proof.
  unfold parent_rows, parent_rows_scan, parent_rows_batch, parent_rows_single, put_group_rows. solve_keeps.
Qed.
#[local] Hint Resolve keeps_direct_groups keeps_parent_rows : keeps.

Lemma keeps_expand_loop ns n seen frontier : keeps walled (expand_loop now ns n seen frontier).
Proof. revert seen frontier. induction n; intros seen [|g frontier]; simpl; solve_keeps. Qed.

Lemma keeps_plan ctx planned : keeps walled (plan now max_depth ctx planned).
Proof.
  unfold plan, planner_groups, expand_group_parents. pose proof keeps_expand_loop. solve_keeps.
Qed.

Lemma keeps_plan_all contexts : keeps walled (plan_all now max_depth contexts).
Proof. unfold plan_all. pose proof keeps_plan. solve_keeps. Qed.
(** *** Contributions *)

Definition res_walled (res : gmap GroupNamespaceKey (gset string * list Trail)) : Prop :=
  forall k v, res !! k = Some v -> contribution_walled (canon (gnk_namespace_id k)) v.

Lemma get_group_namespace_walled k :
  triple walled (get_group_namespace k)
    (fun e c => (forall e', e = Some e' -> contribution_walled (canon (gnk_namespace_id k)) (gne_actions e', gne_trails e'))
                /\ walled c).
Proof.
  intros c Hc%walled_trusted. unfold get_group_namespace. destruct (trusted_locked c) as [[] c1]; simpl in *; [|done].
  split; [|done]. intros e'. apply Hc.
Qed.

Lemma put_group_namespace_walled k v roles fence c :
  contribution_walled (canon (gnk_namespace_id k)) v -> walled c ->
  walled (put_group_namespace now k v.1 v.2 roles fence c).
Proof.
  intros Hv. apply walled_store. intros c1 Hc1 k' e. simpl.
  intros [[<- <-]|[_ ?]]%lookup_insert_Some; [by destruct v|by apply Hc1].
Qed.

Lemma res_walled_insert res k v :
  res_walled res -> contribution_walled (canon (gnk_namespace_id k)) v -> res_walled (<[k := v]> res).
Proof. intros Hr Hv k' v' [[<- <-]|[_ ?]]%lookup_insert_Some; auto. Qed.

Definition wanted_canonical (wanted : list (GroupNamespaceKey * Namespace)) : Prop :=
  forall k ns, (k, ns) ∈ wanted -> ns = canon (gnk_namespace_id k).

Lemma contributions_scan_walled wanted :
  triple walled (contributions_scan wanted)
    (fun rm c => (res_walled rm.1 /\ forall kn, kn ∈ rm.2 -> kn ∈ wanted) /\ walled c).
Proof.
  apply (triple_for walled _ (fun l rm => res_walled rm.1 /\ forall kn, kn ∈ rm.2 -> kn ∈ l)).
  { split; [by intros k v|set_solver]. }
  intros done_ [k ns] todo [res missing] _ [H1 H2]. simpl in *.
  eapply triple_bind; [apply get_group_namespace_walled|]. intros e c [He Hc]. simpl. split; [|done].
  destruct e as [e|]; simpl; [|set_solver]. split; [|set_solver]. apply res_walled_insert; [done|]. by apply He.
Qed.

Lemma group_namespace_contributions_walled wanted :
  wanted_canonical wanted ->
  triple walled (group_namespace_contributions now wanted) (fun res c => res_walled res /\ walled c).
Proof.
  intros Hw. unfold group_namespace_contributions. eapply triple_bind; [apply contributions_scan_walled|].
  intros [res missing]. apply triple_pure. simpl. intros [Hr Hm].
  destruct missing as [|m0 ms] eqn:Hms; [by apply triple_ret|]. rewrite <- Hms in *. clear Hms.
  eapply (triple_bind _ _ _ (fun _ c => walled c)); [by intros c Hc|]. intros fence.
  unfold contributions_walk. apply (triple_for walled _ (fun _ r => res_walled r)); [done|].
  intros done_ [k ns] todo r Hl Hres c Hc.
  assert (Hv : contribution_walled (canon (gnk_namespace_id k))
    (walk_assignments (default [] (od_get k (held_assignments missing)))
       (match unique_ordered (flat_map (fun h => map ra_role_id h.2) (held_assignments missing)) with
        | [] => ∅ | _ => load_roles (unique_ordered (flat_map (fun h => map ra_role_id h.2) (held_assignments missing))) end)
       (coerce_groups (load_groups (unique_ordered (map (fun kn => gnk_group_id kn.1) missing))))
       {[gnk_group_id k]} ns)).
  { rewrite (Hw k ns) by (apply Hm; rewrite Hl; set_solver). apply walk_assignments_walled. }
  split; [by apply res_walled_insert|by apply put_group_namespace_walled].
Qed.

Lemma want_pairs_canonical cps wanted :
  wanted_canonical wanted -> (forall cp, cp ∈ cps -> canonical canon cp.1) ->
  wanted_canonical (fold_left want_pairs cps wanted).
Proof.
  revert wanted. induction cps as [|[ctx p] cps IH]; intros wanted Hw Hc; cbn [fold_left]; [done|].
  apply IH; [|intros cp Hcp; apply Hc; set_solver].
  intros k ns [?|[-> Hk]]%want_pairs_spec; [by apply Hw|]. rewrite Hk. apply (Hc (ctx, p)). set_solver.
Qed.

(** *** Answers *)

Lemma accumulate_groups_walled groups ns res :
  ns = canon (ns_id ns) -> res_walled res -> contribution_walled ns (accumulate_groups groups ns res).
Proof.
  intros Hns Hr. unfold accumulate_groups.
  assert (Hf : forall l acc, contribution_walled ns acc ->
    contribution_walled ns (fold_left (fun acc group_id =>
         let '(actions, trails) := res !!! mkGroupNamespaceKey group_id (ns_id ns) in
         (acc.1 ∪ actions, (acc.2 ++ trails)%list)) l acc)).
  { induction l as [|g l IH]; intros [s ts] Hacc; simpl; [done|]. apply IH. simpl.
    assert (Hg : contribution_walled ns (res !!! mkGroupNamespaceKey g (ns_id ns))).
    { rewrite lookup_total_alt. destruct (res !! _) as [v|] eqn:Hv; simpl; [|apply contribution_walled_empty].
      apply Hr in Hv. simpl in Hv. by rewrite <- Hns in Hv. }
    destruct (res !!! _) as [a t], Hacc as [Ht Hs], Hg as [Hg Ha]. simpl in *. subst s a. split; simpl.
    - by apply Forall_app.
    - by rewrite trails_actions_app. }
  specialize (Hf groups _ (contribution_walled_empty ns)).
  destruct (fold_left _ _ _) as [a t], Hf as [Ht Ha]. simpl in *. subst a. split; simpl.
  - by rewrite sort_by_perm.
  - apply trails_actions_perm. by rewrite sort_by_perm.
Qed.

(** What an answer shows of itself, whatever the rows it was computed from. *)
Definition answer_walled (ctx : EvaluationContext) (r : EvaluationResult) : Prop :=
  let shown := (er_trails r ++ er_user_trails r ++ er_agent_trails r)%list in
  Forall (trail_walled (ec_namespace ctx)) shown
  /\ forall x, x ∈ er_effective_actions r ->
       (exists t, t ∈ shown /\ x ∈ t_contributed_actions t)
       \/ er_agent_owner_short_circuited r = true /\ x = ec_action ctx.

Lemma answer_of_walled res ctx p :
  canonical canon ctx -> res_walled res -> answer_walled ctx (answer_of res ctx p).
Proof.
  intros Hcan Hr. unfold answer_of.
  pose proof (accumulate_groups_walled (sp_user_groups p) _ res Hcan Hr) as Hu.
  destruct (accumulate_groups (sp_user_groups p) (ec_namespace ctx) res) as [ua ut], Hu as [Hut Hua]. simpl in *.
  pose proof (accumulate_groups_walled (sp_agent_groups p) _ res Hcan Hr) as Ha.
  destruct (accumulate_groups (sp_agent_groups p) (ec_namespace ctx) res) as [aa att], Ha as [Hat Haa]. simpl in *.
  assert (Hagent : exists ag tr, match sp_agent_groups p with
      | [] => (if sp_agent_owner_short_circuited p then OWNER_ACTIONS else Plain ∅, [])
      | _ => (Plain aa, att) end = (ag, tr) /\ Forall (trail_walled (ec_namespace ctx)) tr
        /\ forall x, x ∈ as_frozenset ag -> exists t, t ∈ tr /\ x ∈ t_contributed_actions t).
  { destruct (sp_agent_groups p); eexists _, _; split_and!; try reflexivity; try done.
    - destruct (sp_agent_owner_short_circuited p); simpl; set_solver.
    - simpl. intros x. subst. by rewrite elem_of_trails_actions. }
  destruct Hagent as (ag & tr & -> & Htr & Hag).
  assert (Hux : forall x, x ∈ ua -> exists t, t ∈ ut /\ x ∈ t_contributed_actions t)
    by (intros x; subst; by rewrite elem_of_trails_actions).
  unfold assemble_result, answer_walled.
  destruct (isSome (ec_user_id ctx) || isSome (ec_group_id ctx)), (isSome (ec_agent_id ctx)); simpl.
  - split; [by destruct (_ || _ && _); simpl; apply Forall_app|].
    intros x Hx. left. destruct (_ || _ && _); simpl in Hx; [set_solver|].
    assert (Hin : x ∈ ua) by (destruct ag; set_solver). destruct (Hux x Hin) as (t & Ht & Hxt).
    exists t. split; [|done]. simpl. set_solver.
  - rewrite app_nil_r. split; [done|]. auto.
  - rewrite app_nil_r. split; [done|]. destruct (sp_agent_owner_short_circuited p); [set_solver|auto].
  - rewrite app_nil_r. split; [done|]. destruct (sp_agent_owner_short_circuited p); [set_solver|auto].
Qed.

Lemma evaluate_many_walled contexts :
  Forall (canonical canon) contexts ->
  triple walled (evaluate_many_with_trail now max_depth contexts)
    (fun r c => (forall rs i ctx er, r = Ok rs -> contexts !! i = Some ctx -> rs !! i = Some er -> answer_walled ctx er)
                /\ walled c).
Proof.
  intros Hcan. unfold evaluate_many_with_trail. destruct (check_contexts contexts) as [|e]; [|by intros c Hc].
  eapply triple_bind; [apply keeps_plan_all|]. intros plans. simpl.
  eapply triple_bind; [apply group_namespace_contributions_walled|].
  - apply want_pairs_canonical; [intros ?? H; by apply not_elem_of_nil in H|].
    intros [ctx p] Hz%elem_of_zip_l. rewrite Forall_forall in Hcan. by apply Hcan.
  - intros res. apply triple_pure. intros Hres. apply triple_ret. intros c Hc. split; [|done].
    intros rs i ctx er [= <-] Hi Her. apply lookup_zip_with_Some in Her as (ctx' & p & -> & Hi' & _).
    simplify_eq. apply answer_of_walled; [|done]. rewrite Forall_lookup in Hcan. eauto.
Qed.
End Walls.

Lemma walled_init canon : walled canon AclCache_init.
Proof. by intros k e. Qed.

(** (C28) Whatever rows the loaders return, honest or not, every trail an answer shows covers the
    question's namespace, belongs to a group and a role on the namespace's side of the customer
    wall and contributes exactly its role's actions for that type of namespace; every effective
    action comes from a shown trail, or is the one asked for by the owning agent. The cache
    keeps the same guarantee for every later evaluation. *)
Theorem evaluate_many_respects_walls `{HL : Loaders} canon now max_depth contexts c :
  walled canon c -> Forall (canonical canon) contexts ->
  walled canon (evaluate_many_with_trail now max_depth contexts c).2
  /\ forall rs i ctx er, (evaluate_many_with_trail now max_depth contexts c).1 = Ok rs ->
       contexts !! i = Some ctx -> rs !! i = Some er -> answer_walled ctx er.
Proof.
  intros Hc Hcan. destruct (evaluate_many_walled canon now max_depth contexts Hcan c Hc) as [H1 H2].
  split; [done|]. intros. by eapply H1.
Qed.

(** ** Refused questions *)

(** What [_check_context] refuses: a group beside another actor, or no actor at all. *)
Definition malformed (ctx : EvaluationContext) : Prop :=
  (is_Some (ec_group_id ctx) /\ (is_Some (ec_user_id ctx) \/ is_Some (ec_agent_id ctx)))
  \/ (ec_group_id ctx = None /\ ec_user_id ctx = None /\ ec_agent_id ctx = None).

Lemma check_context_malformed ctx : (exists e, check_context ctx = Err e) <-> malformed ctx.
Proof.
  unfold check_context, malformed.
  destruct (ec_group_id ctx) as [g|], (ec_user_id ctx) as [u|], (ec_agent_id ctx) as [a|]; simpl; split;
    intros H; first [by destruct H | naive_solver | idtac].
Qed.

Lemma check_contexts_malformed contexts : (exists e, check_contexts contexts = Err e) <-> Exists malformed contexts.
Proof.
  induction contexts as [|ctx l IH]; simpl; [split; [by intros []|by intros ?%Exists_nil]|].
  rewrite Exists_cons, <- check_context_malformed, <- IH.
  destruct (check_context ctx) as [u|e]; simpl; [|by split; eauto]. split; [auto|]. by intros [[]|].
Qed.

(** (C37) A batch is refused exactly when it holds a malformed question, and a refusal happens
    before anything is read: the cache is the one it was. *)
Theorem evaluate_many_refuses `{HL : Loaders} now max_depth contexts c :
  ((exists e, (evaluate_many_with_trail now max_depth contexts c).1 = Err e) <-> Exists malformed contexts)
  /\ (Exists malformed contexts -> (evaluate_many_with_trail now max_depth contexts c).2 = c).
Proof.
  rewrite <- check_contexts_malformed. unfold evaluate_many_with_trail.
  destruct (check_contexts contexts) as [u|e]; simpl; [|split; [split; eauto|done]].
  split; [|by intros []]. split; [|by intros []]. unfold bindM.
  destruct (plan_all now max_depth contexts c) as [plans c1].
  destruct (group_namespace_contributions now _ c1) as [res c2]. by intros [].
Qed.

(** ** Ownership *)

Lemma agent_owns_namespace_unique_aux ns a b :
  uuid_wf a -> uuid_wf b -> agent_owns_namespace ns a = true -> agent_owns_namespace ns b = true -> a = b.
Proof.
  unfold agent_owns_namespace. destruct (ns_owner_namespace ns) as [o|]; [|done].
  rewrite !String.eqb_eq. intros Ha Hb -> H. by apply build_agent_namespace_name_inj in H.
Qed.

(** An agent that owns the namespace is answered from the question alone: nothing is loaded,
    the cache is not touched, and no other agent can own the same namespace. *)
Theorem agent_owner_short_circuit `{HL : Loaders} now max_depth ctx a c :
  ec_agent_id ctx = Some a -> ec_user_id ctx = None -> ec_group_id ctx = None -> uuid_wf a ->
  agent_owns_namespace (ec_namespace ctx) a = true ->
  (exists r, evaluate_with_trail now max_depth ctx c = (Ok r, c) /\ er_decision r = true
     /\ er_effective_actions r = {[ec_action ctx]} /\ er_trails r = [] /\ er_agent_owner_short_circuited r = true)
  /\ forall b, uuid_wf b -> agent_owns_namespace (ec_namespace ctx) b = true -> b = a.
Proof.
  intros Ha Hu Hg Hwf Ho. split; [|intros b Hb Hob; by apply (agent_owns_namespace_unique_aux (ec_namespace ctx))].
  unfold evaluate_with_trail, evaluate_many_with_trail, bindM. cbn [check_contexts].
  unfold check_context. rewrite Ha, Hu, Hg. cbn [isSome negb andb orb].
  unfold plan_all, bindM. cbn [for_loop]. unfold plan, bindM, retM. rewrite Ha, Hu, Hg, Ho.
  eexists. split; [reflexivity|]. unfold answer_of. simpl. unfold assemble_result. rewrite Ha, Hu, Hg. simpl.
  split_and!; try done. apply bool_decide_eq_true. set_solver.
Qed.
