(* ===== verification/AclGuarantees.v ===== *)
(** * What an evaluation guarantees

    The declarative reading of the reference ([granted]: a chain of membership rows no longer than
    the nesting allows, ending in a group that holds a covering assignment of a role, both on the
    right side of the customer walls), the theorems that [evaluate_many_with_trail],
    [evaluate_with_trail] and [evaluate_decision] decide exactly that, and the ownership, batching
    and error behaviour. [table_loaders] are loaders that read a concrete [AccessTables], with and
    without the batch methods; they satisfy [LoaderLaws], so the theorems have instances. *)

From Stdlib Require Import Ascii String Bool List NArith ZArith Lia Sorted.
From stdpp Require Import base list gmap strings sorting.
From S2P Require Import Prelude Namespaces AclTypes AclCache AclEvaluator AclRefinement AclWalls.

Open Scope string_scope.

(** ** Loaders over concrete tables *)

Definition rows_of (db : AccessTables) (mt : MemberType) (actor : UUID) : list GroupMembership :=
  List.filter (fun m => bool_decide (gm_member_type m = mt) && bool_decide (gm_member_id m = actor)) (at_members db).

Definition table_loaders (batch : bool) (db : AccessTables) : Loaders := {|
  load_for_user := rows_of db MemberUser;
  load_for_agent := rows_of db MemberAgent;
  load_for_group := rows_of db MemberGroup;
  load_for_groups := if batch then Some (fun gs =>
    List.filter (fun m => bool_decide (gm_member_type m = MemberGroup) && bool_decide (gm_member_id m ∈ gs)) (at_members db))
    else None;
  load_assignments_for_groups := fun gs ns =>
    List.filter (fun a => bool_decide (ra_group_id a ∈ gs)) (at_assignments db);
  load_assignments_held_by_groups := if batch then Some (fun gs =>
    List.filter (fun a => bool_decide (ra_group_id a ∈ gs)) (at_assignments db)) else None;
  load_roles := fun ids => filter (fun kv => kv.1 ∈ ids) (at_roles db);
  load_groups := fun ids => RawGroup <$> filter (fun kv => kv.1 ∈ ids) (at_groups db);
|}.

Lemma table_loaders_laws batch db :
  NoDup (at_assignments db) -> @LoaderLaws (table_loaders batch db) db.
Proof.
  intros Hnd. split; simpl.
  - intros u m Ht Hi. unfold rows_of. rewrite elem_of_list_filter_bool, andb_true_iff, !bool_decide_eq_true. tauto.
  - intros u m Ht Hi. unfold rows_of. rewrite elem_of_list_filter_bool, andb_true_iff, !bool_decide_eq_true. tauto.
  - intros u m Ht Hi. unfold rows_of. rewrite elem_of_list_filter_bool, andb_true_iff, !bool_decide_eq_true. tauto.
  - intros f gs m Hf Ht Hi. destruct batch; [|done]. injection Hf as <-.
    rewrite elem_of_list_filter_bool, andb_true_iff, !bool_decide_eq_true. tauto.
  - intros gs ns a Hg _. rewrite elem_of_list_filter_bool, bool_decide_eq_true. tauto.
  - intros gs ns. by apply NoDup_list_filter.
  - intros f gs a Hf Hg. destruct batch; [|done]. injection Hf as <-.
    rewrite elem_of_list_filter_bool, bool_decide_eq_true. tauto.
  - intros f gs Hf. destruct batch; [|done]. injection Hf as <-. by apply NoDup_list_filter.
  - intros ids i Hi. rewrite map_lookup_filter. destruct (at_roles db !! i); simpl; [|done].
    by rewrite option_guard_True.
  - intros ids i Hi. unfold coerce_groups. rewrite lookup_omap, lookup_fmap, map_lookup_filter.
    destruct (at_groups db !! i); simpl; [|done]. by rewrite option_guard_True.
Qed.

(** ** The declarative reading *)

(** [chain db ns s n g]: [g] is in [s], or at most [n] eligible group-in-group rows above it. *)
Inductive chain (db : AccessTables) (ns : Namespace) (s : gset UUID) : nat -> UUID -> Prop :=
| chain_start n g : g ∈ s -> chain db ns s n g
| chain_up n g m :
    chain db ns s n g -> m ∈ at_members db -> gm_member_id m = g -> gm_member_type m = MemberGroup ->
    customer_wall (gm_customer_id m) ns = true -> chain db ns s (S n) (gm_group_id m).

Lemma elem_of_spec_members db actor mt ns p :
  p ∈ spec_members db actor mt ns <-> exists m, m ∈ at_members db /\ gm_member_id m = actor
    /\ gm_member_type m = mt /\ customer_wall (gm_customer_id m) ns = true /\ gm_group_id m = p.
Proof.
  unfold spec_members. rewrite elem_of_list_to_set, list_elem_of_fmap.
  setoid_rewrite elem_of_filter_memberships. naive_solver.
Qed.

Lemma spec_reach_snoc db ns n s :
  spec_reach db ns (S n) s = spec_reach db ns n s ∪ spec_parents db ns (spec_reach db ns n s).
Proof.
  revert s. induction n as [|n IH]; intros s; [done|].
  change (spec_reach db ns (S (S n)) s) with (spec_reach db ns (S n) (s ∪ spec_parents db ns s)).
  by rewrite IH.
Qed.

Lemma spec_reach_chain_aux db ns s n g : g ∈ spec_reach db ns n s <-> chain db ns s n g.
Proof.
  revert g. induction n as [|n IH]; intros g.
  - simpl. split; [by constructor|]. by inversion 1.
  - rewrite spec_reach_snoc, elem_of_union, elem_of_spec_parents. setoid_rewrite elem_of_spec_members. split.
    + intros [Hg|(g' & Hg' & m & Hm & Hi & Ht & Hw & <-)].
      * apply IH in Hg. clear -Hg. induction Hg as [|n g m H IH]; [by constructor|]. by eapply chain_up.
      * apply IH in Hg'. by eapply chain_up.
    + inversion 1 as [n' g' Hg|n' g' m Hc Hm Hi Ht Hw]; subst.
      * left. apply IH. by constructor.
      * right. exists (gm_member_id m). split; [by apply IH|]. eauto 10.
Qed.

(** One contributing chain: the group, the assignment it holds and the role that assignment grants. *)
Definition contributes (db : AccessTables) (ns : Namespace) (g : UUID) (t : Trail) : Prop :=
  t_assignment t ∈ at_assignments db /\ ra_group_id (t_assignment t) = g /\ covers (t_assignment t) ns = true
  /\ at_groups db !! g = Some (t_group t) /\ at_roles db !! ra_role_id (t_assignment t) = Some (t_role t)
  /\ customer_wall (g_customer_id (t_group t)) ns = true /\ customer_wall (r_customer_id (t_role t)) ns = true
  /\ t_contributed_actions t = actions_for (t_role t) (ns_type ns).

(** A side of groups grants [action] on [ns]. *)
Definition granted (db : AccessTables) (ns : Namespace) (groups : gset UUID) (action : string) : Prop :=
  exists g t, g ∈ groups /\ contributes db ns g t /\ action ∈ t_contributed_actions t.

Lemma elem_of_spec_trails db g ns t : t ∈ spec_trails db g ns <-> contributes db ns g t.
Proof.
  unfold spec_trails, contributes. rewrite elem_of_sort_by, list_elem_of_omap. split.
  - intros (a & Ha & (Hg & Hc & gr & ro & Hgr & Hro & Hw1 & Hw2 & ->)%walk_one_Some). simpl.
    apply elem_of_singleton in Hg. subst. done.
  - intros (Ha & Hg & Hc & Hgr & Hro & Hw1 & Hw2 & Hact). exists (t_assignment t). split; [done|].
    apply walk_one_Some. split; [set_solver|]. split; [done|]. exists (t_group t), (t_role t). subst.
    rewrite <- Hact. by destruct t.
Qed.

Lemma spec_side_actions db ns groups action : action ∈ (spec_side db ns groups).1 <-> granted db ns groups action.
Proof.
  unfold spec_side, granted. simpl. rewrite elem_of_trails_actions. setoid_rewrite list_elem_of_In.
  setoid_rewrite in_flat_map. setoid_rewrite <- list_elem_of_In. setoid_rewrite elem_of_elements.
  setoid_rewrite elem_of_spec_trails. naive_solver.
Qed.

Lemma spec_side_trails db ns groups t : t ∈ (spec_side db ns groups).2 <-> exists g, g ∈ groups /\ contributes db ns g t.
Proof.
  unfold spec_side. simpl. rewrite elem_of_sort_by, list_elem_of_In, in_flat_map.
  setoid_rewrite <- list_elem_of_In. setoid_rewrite elem_of_elements. by setoid_rewrite elem_of_spec_trails.
Qed.

(** ** Decisions *)

(** Which sides a context has. *)
Definition has_user (ctx : EvaluationContext) : bool := isSome (ec_user_id ctx) || isSome (ec_group_id ctx).
Definition has_agent (ctx : EvaluationContext) : bool := isSome (ec_agent_id ctx).

(** A side that starts from the groups [start] grants [action]: some group no more than
    [max_depth - 1] eligible rows above them holds a contributing assignment. *)
Definition side_grants (db : AccessTables) (max_depth : nat) (ns : Namespace) (start : gset UUID)
    (action : string) : Prop :=
  exists g t, chain db ns start (max_depth - 1) g /\ contributes db ns g t /\ action ∈ t_contributed_actions t.

(** Every side the question has grants the action, ownership granting everything. *)
Definition allowed (db : AccessTables) (max_depth : nat) (ctx : EvaluationContext) : Prop :=
  let ns := ec_namespace ctx in
  (forall u, ec_user_id ctx = Some u ->
     side_grants db max_depth ns (spec_members db u MemberUser ns) (ec_action ctx))
  /\ (forall g, ec_group_id ctx = Some g -> side_grants db max_depth ns {[g]} (ec_action ctx))
  /\ (forall a, ec_agent_id ctx = Some a -> agent_owns_namespace ns a = true
       \/ side_grants db max_depth ns (spec_members db a MemberAgent ns) (ec_action ctx)).

Lemma granted_reach db max_depth ns start action :
  granted db ns (spec_reach db ns (max_depth - 1) start) action <-> side_grants db max_depth ns start action.
Proof. unfold granted, side_grants. by setoid_rewrite spec_reach_chain_aux. Qed.

Lemma check_context_Ok ctx : check_context ctx = Ok tt ->
  (has_user ctx = true \/ has_agent ctx = true)
  /\ (isSome (ec_group_id ctx) = true -> isSome (ec_user_id ctx) = false /\ has_agent ctx = false).
Proof.
  unfold check_context, has_user, has_agent.
  destruct (isSome (ec_user_id ctx)), (isSome (ec_agent_id ctx)), (isSome (ec_group_id ctx)); simpl;
    intros Heq; try discriminate Heq; repeat split; auto; discriminate.
Qed.

Lemma set_falsy_spec (s : gset string) : set_falsy s = true <-> s = ∅.
Proof. apply bool_decide_eq_true. Qed.

(** The decision of an assembled result, by its sides. *)
Lemma assemble_decision ctx ua aa ut at_ owner :
  (has_user ctx = true \/ has_agent ctx = true) ->
  (owner = true -> aa = AllActions /\ has_agent ctx = true) -> (owner = false -> exists s, aa = Plain s) ->
  er_decision (assemble_result ctx ua aa ut at_ owner) = true
  <-> (has_user ctx = true -> ec_action ctx ∈ ua) /\ (has_agent ctx = true -> aset_contains (ec_action ctx) aa = true).
Proof.
  intros Hside Ho1 Ho2. unfold assemble_result. fold (has_user ctx) (has_agent ctx).
  destruct (has_user ctx), (has_agent ctx), owner; simpl in *; try (by destruct Hside);
    try (destruct (Ho1 eq_refl) as [-> ?]); try (destruct (Ho2 eq_refl) as [s ->]); simpl; try done.
  all: rewrite ?andb_false_r, ?orb_false_r, ?andb_true_r.
  - destruct (set_falsy ua) eqn:Hu; simpl; rewrite bool_decide_eq_true.
    + apply set_falsy_spec in Hu as ->. set_solver.
    + set_solver.
  - rewrite bool_decide_eq_true. destruct (set_falsy ua || set_falsy s) eqn:Hf; simpl; rewrite bool_decide_eq_true.
    + apply orb_true_iff in Hf as [ ->%set_falsy_spec | ->%set_falsy_spec ]; set_solver.
    + set_solver.
  - rewrite bool_decide_eq_true. set_solver.
  - rewrite bool_decide_eq_true. set_solver.
  - rewrite !bool_decide_eq_true. set_solver.
Qed.

Lemma allowed_sides db max_depth ctx :
  check_context ctx = Ok tt ->
  allowed db max_depth ctx <->
  (has_user ctx = true -> granted db (ec_namespace ctx) (spec_user_groups db max_depth ctx) (ec_action ctx))
  /\ (has_agent ctx = true -> spec_owner ctx = true
      \/ granted db (ec_namespace ctx) (spec_agent_groups db max_depth ctx) (ec_action ctx)).
Proof.
  intros [_ Hg]%check_context_Ok. unfold allowed, has_user, has_agent, spec_user_groups, spec_agent_groups, spec_owner in *.
  destruct (ec_user_id ctx) as [u|], (ec_group_id ctx) as [g|]; simpl in *; try (by destruct (Hg eq_refl)).
  all: destruct (ec_agent_id ctx) as [a|]; simpl in *; try (by destruct (Hg eq_refl)).
  all: rewrite ?granted_reach; try (destruct (agent_owns_namespace _ a) eqn:Ho; rewrite ?granted_reach).
  all: split; [intros (H1 & H2 & H3); split|intros (H1 & H2); split_and!]; try done; eauto.
  all: try (intros ? [= <-]); eauto.
  all: first [intros _; rewrite <- Ho; by eauto | right; by destruct (H2 eq_refl)].
Qed.

Lemma spec_answer_decision db max_depth ctx :
  check_context ctx = Ok tt -> er_decision (spec_answer db max_depth ctx) = true <-> allowed db max_depth ctx.
Proof.
  intros Hchk. rewrite (allowed_sides db max_depth ctx Hchk). apply check_context_Ok in Hchk as [Hside _].
  unfold spec_answer. rewrite <- !spec_side_actions.
  destruct (spec_side _ _ (spec_user_groups db max_depth ctx)) as [ua ut].
  destruct (spec_side _ _ (spec_agent_groups db max_depth ctx)) as [aa at_]. cbn [fst].
  rewrite assemble_decision; [|done| |].
  - apply and_iff_compat_l. destruct (spec_owner ctx); simpl; [tauto|]. rewrite bool_decide_eq_true. naive_solver.
  - intros Ho. rewrite Ho. split; [done|]. unfold spec_owner, has_agent in *. by destruct (ec_agent_id ctx).
  - intros Ho. rewrite Ho. eauto.
Qed.

Lemma check_contexts_single ctx : check_contexts [ctx] = check_context ctx.
Proof. simpl. by destruct (check_context ctx) as [[]|]. Qed.

Section Decisions.
Context `{HL : Loaders} {db : AccessTables} `{HLL : !LoaderLaws db}.
Context (Hwf : tables_wf db) (canon : UUID -> Namespace) (now : Z) (max_depth : nat).

Lemma evaluate_with_trail_triple ctx :
  check_context ctx = Ok tt -> canonical canon ctx ->
  triple (coherent canon db) (evaluate_with_trail now max_depth ctx)
    (fun r c => r = Ok (spec_answer db max_depth ctx) /\ coherent canon db c).
Proof using HLL Hwf.
  intros Hchk Hcan. eapply triple_bind.
  - apply (evaluate_many_triple Hwf canon now max_depth [ctx]); [by rewrite check_contexts_single|by constructor].
  - intros r c [-> Hc]. done.
Qed.
End Decisions.

(** (C27) The batched, planned, cached evaluator answers what the tables alone answer, for every
    question of the batch, and leaves a coherent cache coherent; whichever batch methods the
    loaders have. *)
Theorem evaluate_many_refines `{HL : Loaders} db `{HLL : !LoaderLaws db} canon now max_depth contexts c :
  tables_wf db -> coherent canon db c ->
  check_contexts contexts = Ok tt -> Forall (canonical canon) contexts ->
  (evaluate_many_with_trail now max_depth contexts c).1 = Ok (map (spec_answer db max_depth) contexts)
  /\ coherent canon db (evaluate_many_with_trail now max_depth contexts c).2.
Proof. intros Hwf Hc Hchk Hcan. by apply (evaluate_many_triple Hwf canon now max_depth contexts). Qed.

Lemma evaluate_decision_allowed `{HL : Loaders} db `{HLL : !LoaderLaws db} canon now max_depth ctx c :
  tables_wf db -> coherent canon db c -> check_context ctx = Ok tt -> canonical canon ctx ->
  exists b, (evaluate_decision now max_depth ctx c).1 = Ok b /\ (b = true <-> allowed db max_depth ctx).
Proof.
  intros Hwf Hc Hchk Hcan.
  destruct (evaluate_with_trail_triple Hwf canon now max_depth ctx Hchk Hcan c Hc) as [Hr _].
  exists (er_decision (spec_answer db max_depth ctx)). split; [|by apply spec_answer_decision].
  unfold evaluate_decision, bindM. destruct (evaluate_with_trail now max_depth ctx c) as [r c']. simpl in *. by rewrite Hr.
Qed.

(** (C1) [evaluate_decision] returns, and returns True exactly when every side of the question
    grants the action: some chain of eligible memberships leads to a group holding a covering
    assignment of a role that lists the action, or the agent owns the namespace. *)
Theorem evaluate_decision_exact `{HL : Loaders} db `{HLL : !LoaderLaws db} canon now max_depth ctx c :
  tables_wf db -> coherent canon db c -> check_context ctx = Ok tt -> canonical canon ctx ->
  exists b, (evaluate_decision now max_depth ctx c).1 = Ok b /\ (b = true <-> allowed db max_depth ctx).
Proof. intros; by apply (evaluate_decision_allowed db canon). Qed.

(** (C33) Batching, planning and what the caches already hold never change an answer: the [i]-th
    answer of a batch on one coherent cache is the answer to that question alone on any other. *)
Theorem evaluate_many_is_pointwise `{HL : Loaders} db `{HLL : !LoaderLaws db} canon now max_depth contexts c c' i ctx :
  tables_wf db -> coherent canon db c -> coherent canon db c' ->
  check_contexts contexts = Ok tt -> Forall (canonical canon) contexts -> contexts !! i = Some ctx ->
  exists rs r, (evaluate_many_with_trail now max_depth contexts c).1 = Ok rs /\ rs !! i = Some r
    /\ (evaluate_with_trail now max_depth ctx c').1 = Ok r.
Proof.
  intros Hwf Hc Hc' Hchk Hcan Hi.
  destruct (evaluate_many_triple Hwf canon now max_depth contexts Hchk Hcan c Hc) as [Hr _].
  assert (Hctx : check_context ctx = Ok tt).
  { apply list_elem_of_lookup_2 in Hi. clear -Hi Hchk. induction contexts as [|x l IH]; [by apply not_elem_of_nil in Hi|].
    simpl in Hchk. destruct (check_context x) as [[]|] eqn:Hx; [|done]. apply elem_of_cons in Hi as [->|]; auto. }
  assert (Hcx : canonical canon ctx) by (rewrite Forall_lookup in Hcan; eauto).
  destruct (evaluate_with_trail_triple Hwf canon now max_depth ctx Hctx Hcx c' Hc') as [Hr' _].
  exists (map (spec_answer db max_depth) contexts), (spec_answer db max_depth ctx).
  split_and!; [done| |done]. by rewrite list_lookup_fmap, Hi.
Qed.

(** (C34) The nesting walk ends on every membership graph, cyclic ones included, and returns each
    group at most [max_depth - 1] eligible group-in-group rows above the direct ones, once. *)
Theorem expand_group_parents_exact `{HL : Loaders} db `{HLL : !LoaderLaws db} canon now max_depth direct ns c :
  tables_wf db -> coherent canon db c -> NoDup direct ->
  let groups := (expand_group_parents now max_depth direct ns c).1 in
  NoDup groups /\ forall g, g ∈ groups <-> chain db ns (list_to_set direct) (max_depth - 1) g.
Proof.
  intros Hwf Hc Hnd. destruct (expand_group_parents_triple (contribution_coherent canon db) now max_depth direct ns Hnd c Hc) as [[H1 H2] _].
  split; [done|]. intros g. rewrite <- spec_reach_chain_aux, <- H2. by rewrite elem_of_list_to_set.
Qed.

(** The audit trail of a one-sided member question is complete and sound: it lists, in key
    order, exactly the (group, assignment, role) triples that contribute through a chain of the
    member's own, and the effective actions are exactly what those trails contribute. *)
Theorem evaluate_trails_exact `{HL : Loaders} db `{HLL : !LoaderLaws db} canon now max_depth ctx u c :
  tables_wf db -> coherent canon db c -> check_context ctx = Ok tt -> canonical canon ctx ->
  ec_user_id ctx = Some u -> ec_agent_id ctx = None ->
  exists r, (evaluate_with_trail now max_depth ctx c).1 = Ok r
    /\ StronglySorted (key_le trail_key) (er_trails r)
    /\ (forall t, t ∈ er_trails r <-> exists g,
          chain db (ec_namespace ctx) (spec_members db u MemberUser (ec_namespace ctx)) (max_depth - 1) g
          /\ contributes db (ec_namespace ctx) g t)
    /\ er_effective_actions r = trails_actions (er_trails r).
Proof.
  intros Hwf Hc Hchk Hcan Hu Ha.
  destruct (evaluate_with_trail_triple Hwf canon now max_depth ctx Hchk Hcan c Hc) as [Hr _].
  eexists. split; [exact Hr|]. unfold spec_answer.
  pose proof (spec_side_trails db (ec_namespace ctx) (spec_user_groups db max_depth ctx)) as Ht.
  unfold spec_side in *. cbn [snd] in Ht. unfold assemble_result. rewrite Hu, Ha. simpl in *.
  split_and!; [apply sort_by_sorted| |symmetry; apply trails_actions_perm, sort_by_perm].
  intros t. rewrite Ht. unfold spec_user_groups. rewrite Hu. by setoid_rewrite spec_reach_chain_aux.
Qed.

(** The same question asked for one side only. *)
Definition user_only (ctx : EvaluationContext) : EvaluationContext :=
  mkEvaluationContext (ec_namespace ctx) (ec_action ctx) (ec_user_id ctx) None None.
Definition agent_only (ctx : EvaluationContext) : EvaluationContext :=
  mkEvaluationContext (ec_namespace ctx) (ec_action ctx) None (ec_agent_id ctx) None.

Lemma spec_answer_both db max_depth ctx u a :
  ec_user_id ctx = Some u -> ec_agent_id ctx = Some a -> ec_group_id ctx = None ->
  er_effective_actions (spec_answer db max_depth ctx)
  = if spec_owner ctx then er_effective_actions (spec_answer db max_depth (user_only ctx))
    else er_effective_actions (spec_answer db max_depth (user_only ctx))
         ∩ er_effective_actions (spec_answer db max_depth (agent_only ctx)).
Proof.
  intros Hu Ha Hg. unfold spec_answer, spec_user_groups, spec_agent_groups, spec_owner, user_only, agent_only. simpl.
  rewrite ?Hu, ?Ha, ?Hg. simpl. unfold assemble_result. rewrite Hu, Ha, Hg. simpl.
  destruct (agent_owns_namespace (ec_namespace ctx) a); simpl.
  - rewrite andb_false_r, orb_false_r. destruct (set_falsy _) eqn:Hf; [|done]. symmetry. by apply set_falsy_spec.
  - rewrite andb_true_r. destruct (_ || _) eqn:Hf; simpl; [|done].
    apply orb_true_iff in Hf as [ ->%set_falsy_spec | ->%set_falsy_spec ]; set_solver.
Qed.

(** A user acting through an agent gets the intersection of what each is granted alone, and
    the user's own grants where the agent owns the namespace: an agent never widens its user. *)
Theorem user_through_agent_intersects `{HL : Loaders} db `{HLL : !LoaderLaws db} canon now max_depth ctx u a c c1 c2 :
  tables_wf db -> coherent canon db c -> coherent canon db c1 -> coherent canon db c2 ->
  canonical canon ctx -> ec_user_id ctx = Some u -> ec_agent_id ctx = Some a -> ec_group_id ctx = None ->
  exists r ru ra, (evaluate_with_trail now max_depth ctx c).1 = Ok r
    /\ (evaluate_with_trail now max_depth (user_only ctx) c1).1 = Ok ru
    /\ (evaluate_with_trail now max_depth (agent_only ctx) c2).1 = Ok ra
    /\ er_effective_actions r = if agent_owns_namespace (ec_namespace ctx) a then er_effective_actions ru
                                else er_effective_actions ru ∩ er_effective_actions ra.
Proof.
  intros Hwf Hc Hc1 Hc2 Hcan Hu Ha Hg.
  assert (Hk : forall ctx', (ec_group_id ctx' = None /\ (is_Some (ec_user_id ctx') \/ is_Some (ec_agent_id ctx'))) ->
    check_context ctx' = Ok tt).
  { intros ctx' [Hg' Hs]. unfold check_context. rewrite Hg'. simpl. by destruct Hs as [[? ->]|[? ->]]; rewrite ?andb_false_r. }
  destruct (evaluate_with_trail_triple Hwf canon now max_depth ctx (Hk _ ltac:(rewrite Hu; eauto)) Hcan c Hc) as [H1 _].
  destruct (evaluate_with_trail_triple Hwf canon now max_depth (user_only ctx) (Hk (user_only ctx) ltac:(simpl; rewrite Hu; eauto)) Hcan c1 Hc1) as [H2 _].
  destruct (evaluate_with_trail_triple Hwf canon now max_depth (agent_only ctx) (Hk (agent_only ctx) ltac:(simpl; rewrite Ha; eauto)) Hcan c2 Hc2) as [H3 _].
  do 3 eexists. split_and!; [done..|]. rewrite (spec_answer_both db max_depth ctx u a Hu Ha Hg).
  unfold spec_owner. by rewrite Ha.
Qed.

(** ** A concrete deployment *)

Module Sample.

Definition acme : UUID := 100%N.

(** A tool of the customer, as the sites that evaluate it describe it. *)
Definition sqlmap_ns : Namespace :=
  mkNamespace 50 (Some acme) "tool" None (Some "tools.pentest.sqlmap.1-0") (Some (build_agent_namespace_name 3)).

Definition canon (i : UUID) : Namespace :=
  if decide (i = 50%N) then sqlmap_ns else mkNamespace i None "tool" None None None.

(** User 1 is in group 10, which is in group 11, which is in group 10 again; agent 2 is in 12. *)
Definition db : AccessTables := {|
  at_members := [ mkGroupMembership 10 MemberUser 1 (Some acme); mkGroupMembership 11 MemberGroup 10 None;
                  mkGroupMembership 10 MemberGroup 11 None; mkGroupMembership 12 MemberAgent 2 None ];
  at_assignments := [ mkRoleAssignment 30 20 11 ScopeSubtree None None None (Some "tools.pentest");
                      mkRoleAssignment 31 21 12 ScopeAll None None None None ];
  at_roles := {[ 20%N := mkRole 20 "pentester" {[ "tool" := {["execute"; "read"]} ]} true None;
                 21%N := mkRole 21 "runner" {[ "*" := {["execute"]} ]} true None ]};
  at_groups := {[ 10%N := mkGroup 10 "staff" (Some acme); 11%N := mkGroup 11 "red team" (Some acme);
                  12%N := mkGroup 12 "agents" None ]};
|}.

Definition ask (action : string) (user agent group : option UUID) : EvaluationContext :=
  mkEvaluationContext sqlmap_ns action user agent group.

#[export] Instance loaders : Loaders := table_loaders true db.

Lemma db_nodup : NoDup (at_assignments db).
Proof. apply (bool_decide_unpack _). vm_compute. exact I. Defined.

#[export] Instance laws : LoaderLaws db.
Proof. apply table_loaders_laws, db_nodup. Defined.

Lemma db_wf : tables_wf db.
Proof.
  split.
  - assert (H : Forall (fun a => Forall (fun b => ra_id a = ra_id b -> a = b) (at_assignments db)) (at_assignments db)).
    { repeat constructor; intros H; vm_compute in H; discriminate H. }
    rewrite Forall_forall in H. intros a b Ha Hb. specialize (H a Ha). rewrite Forall_forall in H. by apply H.
  - apply Forall_forall. repeat constructor.
  - apply db_nodup.
  - intros i g. revert i g. change (map_Forall (fun i g => g_id g = i) (at_groups db)).
    apply (bool_decide_unpack _). vm_compute. exact I.
Defined.

Lemma fresh_coherent : coherent canon db AclCache_init.
Proof. split; intros k e H; discriminate H. Defined.

Lemma ask_canonical action u a g : canonical canon (ask action u a g).
Proof. reflexivity. Defined.

Example user_granted : (evaluate_decision 0 3 (ask "execute" (Some 1%N) None None) AclCache_init).1 = Ok true.
Proof. vm_compute. reflexivity. Qed.
Example user_too_shallow : (evaluate_decision 0 1 (ask "execute" (Some 1%N) None None) AclCache_init).1 = Ok false.
Proof. vm_compute. reflexivity. Qed.
Example through_agent_read : (evaluate_decision 0 3 (ask "read" (Some 1%N) (Some 2%N) None) AclCache_init).1 = Ok false.
Proof. vm_compute. reflexivity. Qed.
End Sample.

(** ** Witnesses *)

Import Sample.

Definition q_user : EvaluationContext := ask "execute" (Some 1%N) None None.
Definition q_both : EvaluationContext := ask "execute" (Some 1%N) (Some 2%N) None.
Definition q_owner : EvaluationContext := ask "read" None (Some 3%N) None.

Lemma evaluate_many_refines_witness :
  (evaluate_many_with_trail 0 3 [q_user; q_both] AclCache_init).1 = Ok (map (spec_answer db 3) [q_user; q_both]).
Proof.
  apply (evaluate_many_refines db canon 0 3 [q_user; q_both] AclCache_init).
  - apply db_wf.
  - apply fresh_coherent.
  - reflexivity.
  - repeat constructor.
Defined.

Lemma evaluate_decision_exact_witness : allowed db 3 q_user.
Proof.
  destruct (evaluate_decision_exact db canon 0 3 q_user AclCache_init db_wf fresh_coherent eq_refl (ask_canonical _ _ _ _))
    as (b & Hb & Hiff).
  apply Hiff. assert (E : (evaluate_decision 0 3 q_user AclCache_init).1 = Ok true) by (vm_compute; reflexivity).
  congruence.
Defined.

Lemma evaluate_many_is_pointwise_witness :
  exists rs r, (evaluate_many_with_trail 0 3 [q_user; q_both] AclCache_init).1 = Ok rs /\ rs !! 1 = Some r
    /\ (evaluate_with_trail 0 3 q_both AclCache_init).1 = Ok r.
Proof.
  apply (evaluate_many_is_pointwise db canon 0 3 [q_user; q_both] AclCache_init AclCache_init 1 q_both).
  - apply db_wf.
  - apply fresh_coherent.
  - apply fresh_coherent.
  - reflexivity.
  - repeat constructor.
  - reflexivity.
Defined.

Lemma expand_group_parents_exact_witness : chain db sqlmap_ns {[10%N]} 2 11%N.
Proof.
  destruct (expand_group_parents_exact db canon 0 3 [10%N] sqlmap_ns AclCache_init db_wf fresh_coherent) as [_ H].
  - apply (bool_decide_unpack _). vm_compute. exact I.
  - assert (E : (expand_group_parents 0 3 [10%N] sqlmap_ns AclCache_init).1 = [10%N; 11%N]) by (vm_compute; reflexivity).
    assert (Hin : 11%N ∈ (expand_group_parents 0 3 [10%N] sqlmap_ns AclCache_init).1) by (rewrite E; set_solver).
    apply H in Hin. replace ({[10%N]} : gset UUID) with (list_to_set [10%N] : gset UUID) by set_solver. exact Hin.
Defined.

Lemma evaluate_trails_exact_witness :
  exists r, (evaluate_with_trail 0 3 q_user AclCache_init).1 = Ok r /\ StronglySorted (key_le trail_key) (er_trails r).
Proof.
  destruct (evaluate_trails_exact db canon 0 3 q_user 1 AclCache_init db_wf fresh_coherent eq_refl
    (ask_canonical _ _ _ _) eq_refl eq_refl) as (r & H1 & H2 & _).
  exists r. split; assumption.
Defined.

Lemma user_through_agent_intersects_witness :
  exists r ru ra, (evaluate_with_trail 0 3 q_both AclCache_init).1 = Ok r
    /\ (evaluate_with_trail 0 3 (user_only q_both) AclCache_init).1 = Ok ru
    /\ (evaluate_with_trail 0 3 (agent_only q_both) AclCache_init).1 = Ok ra
    /\ er_effective_actions r = er_effective_actions ru ∩ er_effective_actions ra.
Proof.
  exact (user_through_agent_intersects db canon 0 3 q_both 1 2 AclCache_init AclCache_init AclCache_init
    db_wf fresh_coherent fresh_coherent fresh_coherent (ask_canonical _ _ _ _) eq_refl eq_refl eq_refl).
Defined.


Lemma evaluate_many_respects_walls_witness :
  walled canon (evaluate_many_with_trail 0 3 [q_user; q_both] AclCache_init).2.
Proof.
  apply (evaluate_many_respects_walls canon 0 3 [q_user; q_both] AclCache_init).
  - apply walled_init.
  - repeat constructor.
Defined.

Lemma evaluate_many_refuses_witness :
  (evaluate_many_with_trail 0 3 [q_user; ask "read" None None None] AclCache_init).2 = AclCache_init.
Proof.
  apply (evaluate_many_refuses 0 3 [q_user; ask "read" None None None] AclCache_init).
  right. left. right. repeat split.
Defined.

Lemma agent_owner_short_circuit_witness :
  exists r, evaluate_with_trail 0 3 q_owner AclCache_init = (Ok r, AclCache_init) /\ er_decision r = true.
Proof.
  destruct (agent_owner_short_circuit 0 3 q_owner 3 AclCache_init eq_refl eq_refl eq_refl) as [(r & H1 & H2 & _) _].
  - vm_compute. reflexivity.
  - vm_compute. reflexivity.
  - exists r. split; assumption.
Defined.

(** ** Two descriptors of one namespace *)

(** The same tool as a site that does not supply the name describes it. *)
Definition nameless_ns : Namespace :=
  mkNamespace 50 (Some acme) "tool" None None (Some (build_agent_namespace_name 3)).
Definition q_nameless : EvaluationContext := mkEvaluationContext nameless_ns "execute" (Some 1%N) None None.

(** A descriptor without the name does not simply narrow a subtree grant to nothing: the cache
    is keyed by the namespace id alone, so on one cache a nameless question is answered from what a
    named one stored, and a named question is refused after a nameless one, where each alone on a
    fresh cache is answered from its own descriptor. *)
Theorem nameless_descriptor_shares_cache :
  let fresh := AclCache_init in
  (evaluate_decision 0 3 q_nameless fresh).1 = Ok false
  /\ (evaluate_decision 0 3 q_nameless (evaluate_decision 0 3 q_user fresh).2).1 = Ok true
  /\ (evaluate_decision 0 3 q_user fresh).1 = Ok true
  /\ (evaluate_decision 0 3 q_user (evaluate_decision 0 3 q_nameless fresh).2).1 = Ok false.
Proof. vm_compute. repeat split; reflexivity. Qed.
