(* ===== verification/AclBinding.v ===== *)
(** * From a row broadcast to an eviction

    [src/packages/agent/acl/src/threetears/agent/acl/access_tables.py]: the five handlers
    [bind_acl_cache_to_access_tables] registers on the collection registry, each turning the
    broadcast of one changed row into an eviction of the evaluator's cache, the table-dropped
    callbacks beside them, and the count of rows whose reach is unknown. The values arrive as
    strings, read with [UUID_of_string]. *)

From Stdlib Require Import Ascii String Bool List NArith ZArith Lia.
From stdpp Require Import base list gmap strings.
From S2P Require Import Prelude PyUuid Namespaces AclTypes AclCache.

Open Scope string_scope.

(** ** Messages *)

(** What a handler reads of a [CacheInvalidationMessage]. *)
Record CacheInvalidationMessage := mkMessage {
  cm_table : string;
  cm_ids : list string;
  cm_columns : option (gmap string (option string));
}.

Definition T_GROUPS : string := "groups".
Definition T_GROUP_MEMBERS : string := "group_members".
Definition T_ROLES : string := "roles".
Definition T_ROLE_ASSIGNMENTS : string := "role_assignments".
Definition T_NAMESPACES : string := "namespaces".

Definition ACCESS_TABLES : list string := [T_GROUPS; T_GROUP_MEMBERS; T_ROLES; T_ROLE_ASSIGNMENTS; T_NAMESPACES].

(** [CollectionRegistry.row_message], for the fields the handlers read. *)
Definition row_message (table_name : string) (entity_id : list string)
    (columns : option (gmap string (option string))) : CacheInvalidationMessage :=
  mkMessage table_name entity_id columns.

(** [BaseCollection._invalidation_values]: the declared columns the row carries; [row] holds the
    values' string forms. *)
Definition invalidation_values (invalidation_columns : list string) (row : option (gmap string (option string)))
  : option (gmap string (option string)) :=
  match invalidation_columns, row with
  | [], _ | _, None => None
  | _, Some row => Some (list_to_map (omap (fun column => (fun v => (column, v)) <$> row !! column) invalidation_columns))
  end.

Definition GroupMemberCollection_invalidation_columns : list string := ["member_type"; "member_id"].
Definition RoleAssignmentCollection_invalidation_columns : list string := ["group_id"].

(** [_key_index]: [key.index(column)], where a missing column raises. *)
Fixpoint key_index (key : list string) (column : string) : option nat :=
  match key with
  | [] => None
  | k :: rest => if String.eqb k column then Some O else S <$> key_index rest column
  end.

(** The primary keys the collection classes declare. *)
Definition GroupCollection_pk : list string := ["row_scope"; "group_id"].
Definition RoleCollection_pk : list string := ["role_id"].
Definition NamespaceCollection_pk : list string := ["row_scope"; "namespace_id"].

Definition GROUP_ID_AT : nat := Eval cbv in default O (key_index GroupCollection_pk "group_id").
Definition ROLE_ID_AT : nat := Eval cbv in default O (key_index RoleCollection_pk "role_id").
Definition NAMESPACE_ID_AT : nat := Eval cbv in default O (key_index NamespaceCollection_pk "namespace_id").

(** [_uuid]. *)
Definition uuid_of (value : option string) : option UUID :=
  match value with
  | Some v => UUID_of_string v
  | None => None
  end.

(** [_member_kind]: [MemberType(value).value]. *)
Definition member_kind (value : option string) : option string :=
  match value with
  | Some v =>
      if String.eqb v "user" || String.eqb v "agent" || String.eqb v "group" then Some v else None
  | None => None
  end.

(** [_column]. *)
Definition column (message : CacheInvalidationMessage) (name : string) : option string :=
  match cm_columns message with
  | None => None
  | Some columns => default None (columns !! name)
  end.

(** [_key_part]. *)
Definition key_part (message : CacheInvalidationMessage) (index : nat) : option string :=
  if (index <? length (cm_ids message))%nat then cm_ids message !! index else None.

(** ** Unknown-reach rows *)

Record DegradedEvictions := mkDegradedEvictions {
  de_counts : gmap string nat;
  de_last_logged : gmap string Z;
  de_warnings : nat;
}.

Definition DegradedEvictions_init : DegradedEvictions := mkDegradedEvictions ∅ ∅ 0.

(** [_DEGRADED_LOG_INTERVAL_SECONDS], in the clock's ticks per second. *)
Definition degraded_log_interval (ticks_per_second : Z) : Z := (60 * ticks_per_second)%Z.

(** [DegradedEvictions.record]; [now] is the monotonic clock, and the log line is counted. *)
Definition record_degraded (ticks_per_second now : Z) (table : string) (d : DegradedEvictions) : DegradedEvictions :=
  let counts := <[table := S (default O (de_counts d !! table))]> (de_counts d) in
  let due := match de_last_logged d !! table with
             | None => true
             | Some last => (degraded_log_interval ticks_per_second <=? now - last)%Z
             end in
  if due then mkDegradedEvictions counts (<[table := now]> (de_last_logged d)) (S (de_warnings d))
  else mkDegradedEvictions counts (de_last_logged d) (de_warnings d).

(** ** The handlers *)

(** Every handler acts on the shared record and on the cache. *)
Abbreviation bound := (DegradedEvictions * AclCache)%type (only parsing).

Section Handlers.
Context (tps now : Z).

Definition on_group_member (message : CacheInvalidationMessage) (s : bound) : bound :=
  let kind := member_kind (column message "member_type") in
  let member_id := uuid_of (column message "member_id") in
  match kind, member_id with
  | Some k, Some i => (s.1, evict_group_member_row (Some k) (Some i) s.2)
  | _, _ => (record_degraded tps now T_GROUP_MEMBERS s.1, drop_membership_layer s.2)
  end.

Definition on_role_assignment (message : CacheInvalidationMessage) (s : bound) : bound :=
  match uuid_of (column message "group_id") with
  | None => (record_degraded tps now T_ROLE_ASSIGNMENTS s.1, drop_assignment_layers s.2)
  | Some group_id => (s.1, evict_role_assignment_row (Some group_id) s.2)
  end.

Definition on_role (message : CacheInvalidationMessage) (s : bound) : bound :=
  match uuid_of (key_part message ROLE_ID_AT) with
  | None => (record_degraded tps now T_ROLES s.1, drop_assignment_layers s.2)
  | Some role_id => (s.1, evict_role_row role_id s.2)
  end.

Definition on_group (message : CacheInvalidationMessage) (s : bound) : bound :=
  match uuid_of (key_part message GROUP_ID_AT) with
  | None => (record_degraded tps now T_GROUPS s.1, invalidate_all s.2)
  | Some group_id => (s.1, evict_group_row group_id s.2)
  end.

Definition on_namespace (message : CacheInvalidationMessage) (s : bound) : bound :=
  match uuid_of (key_part message NAMESPACE_ID_AT) with
  | None => (record_degraded tps now T_NAMESPACES s.1, drop_assignment_layers s.2)
  | Some namespace_id => (s.1, invalidate_namespace namespace_id s.2)
  end.

(** The registrations of [bind_acl_cache_to_access_tables], by table: [on_row] ... *)
Definition on_row (message : CacheInvalidationMessage) (s : bound) : bound :=
  if String.eqb (cm_table message) T_GROUP_MEMBERS then on_group_member message s
  else if String.eqb (cm_table message) T_ROLE_ASSIGNMENTS then on_role_assignment message s
  else if String.eqb (cm_table message) T_ROLES then on_role message s
  else if String.eqb (cm_table message) T_GROUPS then on_group message s
  else if String.eqb (cm_table message) T_NAMESPACES then on_namespace message s
  else s.
End Handlers.

(** ... and [on_table_dropped]. *)
Definition on_table_dropped (table : string) (c : AclCache) : AclCache :=
  if String.eqb table T_GROUP_MEMBERS then drop_membership_layer c
  else if String.eqb table T_ROLE_ASSIGNMENTS then drop_assignment_layers c
  else if String.eqb table T_ROLES then drop_assignment_layers c
  else if String.eqb table T_GROUPS then invalidate_all c
  else if String.eqb table T_NAMESPACES then drop_assignment_layers c
  else c.

(** ** The messages the writers of the five access tables publish *)

Definition member_message (ids : list string) (m : GroupMembership) : CacheInvalidationMessage :=
  row_message T_GROUP_MEMBERS ids
    (invalidation_values GroupMemberCollection_invalidation_columns
       (Some {[ "member_type" := Some (MemberType_value (gm_member_type m));
                "member_id" := Some (uuid_str (gm_member_id m));
                "group_id" := Some (uuid_str (gm_group_id m)) ]})).

Definition assignment_message (ids : list string) (a : RoleAssignment) : CacheInvalidationMessage :=
  row_message T_ROLE_ASSIGNMENTS ids
    (invalidation_values RoleAssignmentCollection_invalidation_columns
       (Some {[ "group_id" := Some (uuid_str (ra_group_id a)); "role_id" := Some (uuid_str (ra_role_id a)) ]})).

Definition role_message (role_id : UUID) : CacheInvalidationMessage :=
  row_message T_ROLES [uuid_str role_id] (invalidation_values [] None).

Definition group_message (row_scope : string) (group_id : UUID) : CacheInvalidationMessage :=
  row_message T_GROUPS [row_scope; uuid_str group_id] (invalidation_values [] None).

Definition namespace_message (row_scope : string) (namespace_id : UUID) : CacheInvalidationMessage :=
  row_message T_NAMESPACES [row_scope; uuid_str namespace_id] (invalidation_values [] None).

Lemma member_message_columns ids m :
  column (member_message ids m) "member_type" = Some (MemberType_value (gm_member_type m))
  /\ column (member_message ids m) "member_id" = Some (uuid_str (gm_member_id m)).
Proof. unfold member_message. generalize (uuid_str (gm_member_id m)) (uuid_str (gm_group_id m)). by destruct (gm_member_type m). Qed.

Lemma on_row_member tps now ids m d c : uuid_wf (gm_member_id m) ->
  on_row tps now (member_message ids m) (d, c)
  = (d, invalidate_membership (mkActorMembershipKey (MemberType_value (gm_member_type m)) (gm_member_id m)) c).
Proof.
  intros Hm. unfold on_row. simpl String.eqb. cbn match. unfold on_group_member.
  destruct (member_message_columns ids m) as [-> ->]. cbn [uuid_of]. rewrite UUID_of_string_str by done.
  by destruct (gm_member_type m).
Qed.

Lemma on_row_assignment tps now ids a d c : uuid_wf (ra_group_id a) ->
  on_row tps now (assignment_message ids a) (d, c) = (d, invalidate_group (ra_group_id a) c).
Proof.
  intros Ha. unfold on_row. simpl String.eqb. cbn match. unfold on_role_assignment.
  assert (column (assignment_message ids a) "group_id" = Some (uuid_str (ra_group_id a))) as ->.
  { unfold assignment_message. generalize (uuid_str (ra_group_id a)) (uuid_str (ra_role_id a)). done. }
  cbn [uuid_of]. by rewrite UUID_of_string_str.
Qed.

Lemma on_row_role tps now r d c : uuid_wf r -> on_row tps now (role_message r) (d, c) = (d, evict_role_row r c).
Proof.
  intros Hr. unfold on_row. simpl String.eqb. cbn match. unfold on_role.
  change (key_part (role_message r) ROLE_ID_AT) with (Some (uuid_str r)). cbn [uuid_of]. by rewrite UUID_of_string_str.
Qed.

Lemma on_row_group tps now scope g d c : uuid_wf g ->
  on_row tps now (group_message scope g) (d, c) = (d, evict_group_row g c).
Proof.
  intros Hg. unfold on_row. simpl String.eqb. cbn match. unfold on_group.
  change (key_part (group_message scope g) GROUP_ID_AT) with (Some (uuid_str g)). cbn [uuid_of]. by rewrite UUID_of_string_str.
Qed.

Lemma on_row_namespace tps now scope i d c : uuid_wf i ->
  on_row tps now (namespace_message scope i) (d, c) = (d, invalidate_namespace i c).
Proof.
  intros Hi. unfold on_row. simpl String.eqb. cbn match. unfold on_namespace.
  change (key_part (namespace_message scope i) NAMESPACE_ID_AT) with (Some (uuid_str i)). cbn [uuid_of]. by rewrite UUID_of_string_str.
Qed.

(** A broadcast in the shape its table's collection publishes is placed: every UUID and member
    kind survives the trip through strings, the row's own eviction runs, and nothing is counted as
    of unknown reach. *)
Theorem published_rows_are_placed tps now ids m a r scope g i d c :
  uuid_wf (gm_member_id m) -> uuid_wf (ra_group_id a) -> uuid_wf r -> uuid_wf g -> uuid_wf i ->
  on_row tps now (member_message ids m) (d, c)
    = (d, evict_group_member_row (Some (MemberType_value (gm_member_type m))) (Some (gm_member_id m)) c)
  /\ on_row tps now (assignment_message ids a) (d, c) = (d, evict_role_assignment_row (Some (ra_group_id a)) c)
  /\ on_row tps now (role_message r) (d, c) = (d, evict_role_row r c)
  /\ on_row tps now (group_message scope g) (d, c) = (d, evict_group_row g c)
  /\ on_row tps now (namespace_message scope i) (d, c) = (d, invalidate_namespace i c).
Proof.
  intros Hm Ha Hr Hg Hi.
  split_and!; [by apply on_row_member|by apply on_row_assignment|by apply on_row_role|by apply on_row_group|by apply on_row_namespace].
Qed.

Lemma published_rows_are_placed_witness :
  on_row 1 0 (role_message 77) (DegradedEvictions_init, AclCache_init) = (DegradedEvictions_init, evict_role_row 77 AclCache_init).
Proof.
  apply (published_rows_are_placed 1 0 ["a"; "b"] (mkGroupMembership 1 MemberUser 2 None)
    (mkRoleAssignment 3 4 5 ScopeAll None None None None) 77 "global" 6 8 DegradedEvictions_init AclCache_init);
    vm_compute; reflexivity.
Defined.

(** *** Unknown reach *)

Lemma on_row_facts tps now msg d c :
  cm_table msg ∈ ACCESS_TABLES ->
  let '(d', c') := on_row tps now msg (d, c) in
  shrinks c c' /\ ac_evictions c' = (ac_evictions c + 1)%Z
  /\ (d' = d \/ de_counts d' = <[cm_table msg := S (default O (de_counts d !! cm_table msg))]> (de_counts d)
             /\ (ac_membership c' = ∅ /\ (cm_table msg = T_GROUP_MEMBERS \/ cm_table msg = T_GROUPS)
                 \/ ac_group_namespace c' = ∅ /\ ac_group_type_customer c' = ∅)).
Proof.
  intros Ht. unfold ACCESS_TABLES in Ht. rewrite !elem_of_cons, elem_of_nil in Ht.
  assert (Hd : forall t, de_counts (record_degraded tps now t d) = <[t := S (default O (de_counts d !! t))]> (de_counts d)).
  { intros t. unfold record_degraded. by case_match. }
  unfold on_row.
  destruct Ht as [Ht|[Ht|[Ht|[Ht|[Ht|[]]]]]]; rewrite Ht; simpl String.eqb; cbn match.
  - unfold on_group. destruct (uuid_of _) as [g|]; simpl; rewrite ?Hd.
    + split_and!; [apply (run_op_shrinks (OpEvictGroupRow g))|done|by left].
    + split_and!; [apply (run_op_shrinks OpInvalidateAll)|done|right; auto].
  - unfold on_group_member. destruct (member_kind (column msg "member_type")) as [k|], (uuid_of (column msg "member_id")) as [i|]; simpl; rewrite ?Hd;
      (split_and!; [first [apply (run_op_shrinks (OpEvictGroupMemberRow (Some k) (Some i)))
                          |apply (run_op_shrinks OpDropMembershipLayer)]|done|first [by left|right; auto 10]]).
  - unfold on_role. destruct (uuid_of _) as [r|]; simpl; rewrite ?Hd.
    + split_and!; [apply (run_op_shrinks (OpEvictRoleRow r))|done|by left].
    + split_and!; [apply (run_op_shrinks OpDropAssignmentLayers)|done|right; auto].
  - unfold on_role_assignment. destruct (uuid_of _) as [g|]; simpl; rewrite ?Hd.
    + split_and!; [apply (run_op_shrinks (OpInvalidateGroup g))|done|by left].
    + split_and!; [apply (run_op_shrinks OpDropAssignmentLayers)|done|right; auto].
  - unfold on_namespace. destruct (uuid_of _) as [n|]; simpl; rewrite ?Hd.
    + split_and!; [apply (run_op_shrinks (OpInvalidateNamespace n))|done|by left].
    + split_and!; [apply (run_op_shrinks OpDropAssignmentLayers)|done|right; auto].
Qed.

(** A row of a followed table always evicts: whatever its columns hold, the fence moves, no
    entry is added, and when the row cannot be placed the layers derived from its table are empty
    and the row is counted against that table. *)
Theorem heard_row_always_evicts tps now msg d c :
  cm_table msg ∈ ACCESS_TABLES ->
  let '(d', c') := on_row tps now msg (d, c) in
  shrinks c c' /\ ac_evictions c' = (ac_evictions c + 1)%Z
  /\ (d' = d \/ de_counts d' = <[cm_table msg := S (default O (de_counts d !! cm_table msg))]> (de_counts d)
             /\ (ac_membership c' = ∅ /\ (cm_table msg = T_GROUP_MEMBERS \/ cm_table msg = T_GROUPS)
                 \/ ac_group_namespace c' = ∅ /\ ac_group_type_customer c' = ∅)).
Proof. apply on_row_facts. Qed.

Lemma heard_row_always_evicts_witness :
  ac_evictions (on_row 1 0 (mkMessage "roles" [] None) (DegradedEvictions_init, AclCache_init)).2 = 1%Z.
Proof.
  pose proof (heard_row_always_evicts 1 0 (mkMessage "roles" [] None) DegradedEvictions_init AclCache_init) as H.
  destruct (on_row _ _ _ _) as [d' c']. destruct H as (_ & H & _).
  - apply (bool_decide_unpack _). vm_compute. exact I.
  - exact H.
Defined.
