(* ===== verification/AclCoherence.v ===== *)
(** * The cache under concurrent writes

    The evaluator's coroutines, the writers of the access tables and the broadcasts that tell the
    cache of a write interleave freely. A [world] holds the tables, one process's cache, the signals
    not yet delivered (row broadcasts, and the drops a follower raises for a missed broadcast) and
    the reads in flight: a reader takes the fence, reads the tables one after another (at different
    times, so a write can fall between two of them) and then stores. A question carries a namespace
    row its caller read earlier, so a reader of a contribution holds a descriptor that may be out of
    date. The step relation [wstep] interleaves all of it over the five access tables, the stores
    and evictions being the cache's own operations.

    The invariant is that every entry agrees with the tables as they are now or is reached by a
    signal still to be delivered, so a cache that has heard everything is coherent
    ([AclRefinement.coherent]) and what is evaluated on it is exact. It holds as long as no reader
    takes its fence with a descriptor whose row's broadcast has already been heard ([timely]);
    [late_descriptor_is_kept] shows that the entry of such a reader stays in the cache. *)

From Stdlib Require Import Ascii String Bool List NArith ZArith Lia.
From stdpp Require Import base list gmap strings relations.
From S2P Require Import Prelude Namespaces AclTypes AclCache AclEvaluator AclRefinement AclWalls AclGuarantees AclBinding.

Open Scope string_scope.

(** ** Signals *)

Inductive signal :=
| RowHeard (message : CacheInvalidationMessage)
| TableDropped (table : string).

Definition signal_table (s : signal) : string :=
  match s with RowHeard m => cm_table m | TableDropped t => t end.

Definition deliver (tps now : Z) (s : signal) (dc : DegradedEvictions * AclCache) : DegradedEvictions * AclCache :=
  match s with
  | RowHeard m => on_row tps now m dc
  | TableDropped t => (dc.1, on_table_dropped t dc.2)
  end.

(** ** Reads in flight *)

Inductive inflight :=
| WantMembership (fence : Z) (key : ActorMembershipKey)
| ReadMembership (fence : Z) (key : ActorMembershipKey) (rows : list GroupMembership)
| WantContribution (fence : Z) (key : GroupNamespaceKey) (ns : Namespace)
| ReadAssignments (fence : Z) (key : GroupNamespaceKey) (ns : Namespace) (assignments : list RoleAssignment)
| ReadRoles (fence : Z) (key : GroupNamespaceKey) (ns : Namespace) (assignments : list RoleAssignment)
    (roles : gmap UUID Role)
| ReadGroups (fence : Z) (key : GroupNamespaceKey) (ns : Namespace) (assignments : list RoleAssignment)
    (roles : gmap UUID Role) (groups : gmap UUID Group).

Definition inflight_fence (r : inflight) : Z :=
  match r with
  | WantMembership f _ | ReadMembership f _ _ | WantContribution f _ _ | ReadAssignments f _ _ _
  | ReadRoles f _ _ _ _ | ReadGroups f _ _ _ _ _ => f
  end.

(** [w_namespaces] is what the rows of the namespaces table say, by id. *)
Record world := mkWorld {
  w_namespaces : UUID -> Namespace;
  w_db : AccessTables;
  w_degraded : DegradedEvictions;
  w_cache : AclCache;
  w_pending : list signal;
  w_inflight : list inflight;
}.

Section Coherence.
Context (tps : Z).

(** What a read of one group's assignments returns, as the loaders promise it. *)
Definition assignments_read (db : AccessTables) (k : GroupNamespaceKey) (ns : Namespace) (l : list RoleAssignment) : Prop :=
  NoDup l /\ forall a, ra_group_id a = gnk_group_id k -> covers a ns = true ->
    a ∈ l <-> a ∈ at_assignments db.

(** A write of one row of the other four tables, and the message its collection publishes. *)
Inductive table_write (db : AccessTables) : AccessTables -> CacheInvalidationMessage -> Prop :=
| write_member ids m members :
    uuid_wf (gm_member_id m) ->
    (forall m', gm_member_type m' <> gm_member_type m \/ gm_member_id m' <> gm_member_id m ->
       m' ∈ members <-> m' ∈ at_members db) ->
    table_write db (mkAccessTables members (at_assignments db) (at_roles db) (at_groups db)) (member_message ids m)
| write_assignment ids a assignments :
    uuid_wf (ra_group_id a) ->
    (forall a', ra_group_id a' <> ra_group_id a -> a' ∈ assignments <-> a' ∈ at_assignments db) ->
    table_write db (mkAccessTables (at_members db) assignments (at_roles db) (at_groups db)) (assignment_message ids a)
| write_role r roles :
    uuid_wf r -> (forall r', r' <> r -> roles !! r' = at_roles db !! r') ->
    table_write db (mkAccessTables (at_members db) (at_assignments db) roles (at_groups db)) (role_message r)
| write_group scope g groups :
    uuid_wf g -> (forall g', g' <> g -> groups !! g' = at_groups db !! g') ->
    table_write db (mkAccessTables (at_members db) (at_assignments db) (at_roles db) groups) (group_message scope g).

(** One read of a reader in flight, against the tables as they are. *)
Inductive read_step (db : AccessTables) : inflight -> inflight -> Prop :=
| read_membership f k rows :
    membership_coherent db k rows -> read_step db (WantMembership f k) (ReadMembership f k rows)
| read_assignments f k ns l :
    assignments_read db k ns l -> read_step db (WantContribution f k ns) (ReadAssignments f k ns l)
| read_roles f k ns l roles :
    (forall a, a ∈ l -> roles !! ra_role_id a = at_roles db !! ra_role_id a) ->
    read_step db (ReadAssignments f k ns l) (ReadRoles f k ns l roles)
| read_groups f k ns l roles groups :
    groups !! gnk_group_id k = at_groups db !! gnk_group_id k ->
    read_step db (ReadRoles f k ns l roles) (ReadGroups f k ns l roles groups).

(** The store that ends a read. *)
Definition store (now : Z) (r : inflight) (c : AclCache) : AclCache :=
  match r with
  | ReadMembership f k rows => put_membership now k rows (Some f) c
  | ReadGroups f k ns l roles groups =>
      let w := walk_assignments l roles groups {[gnk_group_id k]} ns in
      put_group_namespace now k w.1 w.2 (Some (list_to_set (map ra_role_id l))) (Some f) c
  | _ => c
  end.

(** [ask] says with which namespace row a contribution may be asked for. *)
Inductive wstep (ask : world -> Namespace -> Prop) : world -> world -> Prop :=
| step_write canon db db' msg d c pending inf :
    table_write db db' msg -> tables_wf db' ->
    wstep ask (mkWorld canon db d c pending inf) (mkWorld canon db' d c (pending ++ [RowHeard msg])%list inf)
| step_write_namespace canon canon' scope i db d c pending inf :
    uuid_wf i -> (forall j, j <> i -> canon' j = canon j) ->
    wstep ask (mkWorld canon db d c pending inf)
              (mkWorld canon' db d c (pending ++ [RowHeard (namespace_message scope i)])%list inf)
| step_deliver now canon db d c p1 s p2 inf :
    wstep ask (mkWorld canon db d c (p1 ++ s :: p2)%list inf)
          (mkWorld canon db (deliver tps now s (d, c)).1 (deliver tps now s (d, c)).2 (p1 ++ p2)%list inf)
| step_miss canon db d c p1 msg p2 inf :
    wstep ask (mkWorld canon db d c (p1 ++ RowHeard msg :: p2)%list inf)
          (mkWorld canon db d c (p1 ++ TableDropped (cm_table msg) :: p2)%list inf)
| step_want_membership canon db d c pending inf k :
    wstep ask (mkWorld canon db d c pending inf) (mkWorld canon db d c pending (WantMembership (read_fence c) k :: inf))
| step_want_contribution canon db d c pending inf g ns :
    ask (mkWorld canon db d c pending inf) ns ->
    wstep ask (mkWorld canon db d c pending inf)
      (mkWorld canon db d c pending (WantContribution (read_fence c) (mkGroupNamespaceKey g (ns_id ns)) ns :: inf))
| step_read canon db d c pending i1 r r' i2 :
    read_step db r r' ->
    wstep ask (mkWorld canon db d c pending (i1 ++ r :: i2)%list) (mkWorld canon db d c pending (i1 ++ r' :: i2)%list)
| step_store now canon db d c pending i1 r i2 :
    wstep ask (mkWorld canon db d c pending (i1 ++ r :: i2)%list) (mkWorld canon db d (store now r c) pending (i1 ++ i2)%list)
| step_op op canon db d c pending inf :
    wstep ask (mkWorld canon db d c pending inf) (mkWorld canon db d (run_op op c) pending inf).

(** ** Reach *)

Definition reaches_membership (k : ActorMembershipKey) (s : signal) : Prop :=
  forall now d c, ac_membership (deliver tps now s (d, c)).2 !! k = None.

(** A delivery of [s] removes the entry of [k] when it says it read [roles]. *)
Definition reaches_contribution (k : GroupNamespaceKey) (roles : option (gset UUID)) (s : signal) : Prop :=
  forall now d c e, ac_group_namespace c !! k = Some e -> gne_role_ids e = roles ->
    ac_group_namespace (deliver tps now s (d, c)).2 !! k = None.

(** ** The invariant *)

Definition fresh_contribution (canon : UUID -> Namespace) (db : AccessTables) (k : GroupNamespaceKey) (e : GroupNamespaceEntry) : Prop :=
  contribution_coherent canon db k (gne_actions e) (gne_trails e)
  /\ exists roles, gne_role_ids e = Some roles
     /\ forall a, a ∈ at_assignments db -> ra_group_id a = gnk_group_id k ->
          covers a (canon (gnk_namespace_id k)) = true -> ra_role_id a ∈ roles.

Definition group_signalled (pending : list signal) (g : UUID) : Prop :=
  exists s, s ∈ pending /\ forall ns roles, reaches_contribution (mkGroupNamespaceKey g ns) roles s.
Definition role_signalled (pending : list signal) (r : UUID) : Prop :=
  exists s, s ∈ pending /\ forall k roles, r ∈ roles -> reaches_contribution k (Some roles) s.

Definition membership_ok (db : AccessTables) (pending : list signal) (k : ActorMembershipKey)
    (rows : list GroupMembership) : Prop :=
  membership_coherent db k rows \/ Exists (reaches_membership k) pending.

(** The descriptor [ns] of the namespace [i] is its row, or is about to be found out of date. *)
Definition namespace_signalled (pending : list signal) (i : UUID) : Prop :=
  exists s, s ∈ pending /\ forall g roles, reaches_contribution (mkGroupNamespaceKey g i) roles s.
Definition namespace_ok (canon : UUID -> Namespace) (pending : list signal) (i : UUID) (ns : Namespace) : Prop :=
  ns = canon i \/ namespace_signalled pending i.

(** A question is timely when it takes its fence with the namespace's row as it stands, or before
    that row's broadcast is heard. *)
Definition timely (w : world) (ns : Namespace) : Prop := namespace_ok (w_namespaces w) (w_pending w) (ns_id ns) ns.

Definition assignments_ok (db : AccessTables) (pending : list signal) (k : GroupNamespaceKey)
    (ns : Namespace) (l : list RoleAssignment) : Prop :=
  assignments_read db k ns l \/ group_signalled pending (gnk_group_id k).
Definition roles_ok (db : AccessTables) (pending : list signal) (l : list RoleAssignment) (roles : gmap UUID Role) : Prop :=
  forall a, a ∈ l -> roles !! ra_role_id a = at_roles db !! ra_role_id a \/ role_signalled pending (ra_role_id a).
Definition groups_ok (db : AccessTables) (pending : list signal) (k : GroupNamespaceKey) (groups : gmap UUID Group) : Prop :=
  groups !! gnk_group_id k = at_groups db !! gnk_group_id k \/ group_signalled pending (gnk_group_id k).

(** What a read has collected so far, if its fence has not moved. *)
Definition read_ok (canon : UUID -> Namespace) (db : AccessTables) (pending : list signal) (r : inflight) : Prop :=
  match r with
  | WantMembership _ _ => True
  | WantContribution _ k ns => namespace_ok canon pending (gnk_namespace_id k) ns
  | ReadMembership _ k rows => membership_ok db pending k rows
  | ReadAssignments _ k ns l => namespace_ok canon pending (gnk_namespace_id k) ns /\ assignments_ok db pending k ns l
  | ReadRoles _ k ns l roles =>
      namespace_ok canon pending (gnk_namespace_id k) ns /\ assignments_ok db pending k ns l /\ roles_ok db pending l roles
  | ReadGroups _ k ns l roles groups =>
      namespace_ok canon pending (gnk_namespace_id k) ns
      /\ assignments_ok db pending k ns l /\ roles_ok db pending l roles /\ groups_ok db pending k groups
  end.

Definition inflight_ok (canon : UUID -> Namespace) (db : AccessTables) (c : AclCache) (pending : list signal)
    (r : inflight) : Prop :=
  (inflight_fence r <= read_fence c)%Z /\ (inflight_fence r = read_fence c -> read_ok canon db pending r).

Record world_ok (w : world) : Prop := {
  wo_wf : tables_wf (w_db w);
  wo_tables : forall s, s ∈ w_pending w -> signal_table s ∈ ACCESS_TABLES;
  wo_membership : forall k e, ac_membership (w_cache w) !! k = Some e ->
    membership_ok (w_db w) (w_pending w) k (ame_memberships e);
  wo_contribution : forall k e, ac_group_namespace (w_cache w) !! k = Some e ->
    fresh_contribution (w_namespaces w) (w_db w) k e \/ Exists (reaches_contribution k (gne_role_ids e)) (w_pending w);
  wo_inflight : forall r, r ∈ w_inflight w ->
    inflight_ok (w_namespaces w) (w_db w) (w_cache w) (w_pending w) r;
}.

(** ** Deliveries *)

Lemma deliver_shrinks now s d c :
  signal_table s ∈ ACCESS_TABLES ->
  shrinks c (deliver tps now s (d, c)).2 /\ (ac_evictions c < ac_evictions (deliver tps now s (d, c)).2)%Z.
Proof.
  destruct s as [m|t]; cbn [deliver signal_table]; intros Ht.
  - pose proof (on_row_facts tps now m d c Ht) as H. destruct (on_row tps now m (d, c)) as [d' c'].
    destruct H as (H1 & H2 & _). split; [done|]. simpl. lia.
  - unfold ACCESS_TABLES in Ht. rewrite !elem_of_cons, elem_of_nil in Ht. unfold on_table_dropped.
    destruct Ht as [->|[->|[->|[->|[->|[]]]]]]; simpl.
    + split; [apply (run_op_shrinks OpInvalidateAll)|lia].
    + split; [apply (run_op_shrinks OpDropMembershipLayer)|lia].
    + split; [apply (run_op_shrinks OpDropAssignmentLayers)|lia].
    + split; [apply (run_op_shrinks OpDropAssignmentLayers)|lia].
    + split; [apply (run_op_shrinks OpDropAssignmentLayers)|lia].
Qed.

(** Dropping a table reaches whatever a row of it reaches. *)
Lemma dropped_reaches_membership k m : reaches_membership k (RowHeard m) -> reaches_membership k (TableDropped (cm_table m)).
Proof.
  intros H now d c. simpl. unfold on_table_dropped.
  set (e := mkActorMembershipEntry [] 0).
  specialize (H now d (with_membership (fun _ => {[k := e]}) c)). simpl in H. unfold on_row in H.
  destruct (String.eqb (cm_table m) T_GROUP_MEMBERS); [apply lookup_empty|].
  destruct (String.eqb (cm_table m) T_ROLE_ASSIGNMENTS).
  { unfold on_role_assignment in H. destruct (uuid_of _); simpl in H; by rewrite lookup_singleton_eq in H. }
  destruct (String.eqb (cm_table m) T_ROLES).
  { unfold on_role in H. destruct (uuid_of _); simpl in H; by rewrite lookup_singleton_eq in H. }
  destruct (String.eqb (cm_table m) T_GROUPS); [apply lookup_empty|].
  destruct (String.eqb (cm_table m) T_NAMESPACES).
  { unfold on_namespace in H. destruct (uuid_of _); simpl in H; by rewrite lookup_singleton_eq in H. }
  simpl in H. by rewrite lookup_singleton_eq in H.
Qed.

Lemma dropped_reaches_contribution k roles m :
  reaches_contribution k roles (RowHeard m) -> reaches_contribution k roles (TableDropped (cm_table m)).
Proof.
  intros H now d c e0 _ _. simpl. unfold on_table_dropped.
  set (e := mkGroupNamespaceEntry ∅ [] 0 roles).
  specialize (H now d (with_group_namespace (fun _ => {[k := e]}) c) e). simpl in H. rewrite lookup_singleton_eq in H.
  specialize (H eq_refl eq_refl). unfold on_row in H.
  destruct (String.eqb (cm_table m) T_GROUP_MEMBERS).
  { unfold on_group_member in H. destruct (member_kind _), (uuid_of (column m "member_id")); simpl in H;
      by rewrite lookup_singleton_eq in H. }
  destruct (String.eqb (cm_table m) T_ROLE_ASSIGNMENTS); [apply lookup_empty|].
  destruct (String.eqb (cm_table m) T_ROLES); [apply lookup_empty|].
  destruct (String.eqb (cm_table m) T_GROUPS); [apply lookup_empty|].
  destruct (String.eqb (cm_table m) T_NAMESPACES); [apply lookup_empty|].
  simpl in H. by rewrite lookup_singleton_eq in H.
Qed.

(** Pending signals [p'] reach whatever [p] reaches. *)
Definition covers_pending (p p' : list signal) : Prop :=
  forall s, s ∈ p -> exists s', s' ∈ p'
    /\ (forall k, reaches_membership k s -> reaches_membership k s')
    /\ (forall k roles, reaches_contribution k roles s -> reaches_contribution k roles s').

Lemma covers_pending_subset p p' : (forall s, s ∈ p -> s ∈ p') -> covers_pending p p'.
Proof. intros H s Hs. exists s. auto. Qed.

Lemma covers_pending_miss p1 m p2 : covers_pending (p1 ++ RowHeard m :: p2) (p1 ++ TableDropped (cm_table m) :: p2).
Proof.
  intros s [Hs|[->|Hs]%elem_of_cons]%elem_of_app; [exists s; set_solver| |exists s; set_solver].
  exists (TableDropped (cm_table m)). split; [set_solver|].
  split; [intros k; apply dropped_reaches_membership|intros k roles; apply dropped_reaches_contribution].
Qed.

Section Mono.
Context (p p' : list signal) (Hp : covers_pending p p').

Lemma membership_signalled_mono k : Exists (reaches_membership k) p -> Exists (reaches_membership k) p'.
Proof. rewrite !Exists_exists. intros (s & Hs & Hr). destruct (Hp s Hs) as (s' & ? & ? & _). eauto. Qed.
Lemma contribution_signalled_mono k roles :
  Exists (reaches_contribution k roles) p -> Exists (reaches_contribution k roles) p'.
Proof. rewrite !Exists_exists. intros (s & Hs & Hr). destruct (Hp s Hs) as (s' & ? & _ & ?). eauto. Qed.
Lemma group_signalled_mono g : group_signalled p g -> group_signalled p' g.
Proof. intros (s & Hs & Hr). destruct (Hp s Hs) as (s' & ? & _ & ?). exists s'. auto. Qed.
Lemma namespace_signalled_mono i : namespace_signalled p i -> namespace_signalled p' i.
Proof. intros (s & Hs & Hr). destruct (Hp s Hs) as (s' & ? & _ & ?). exists s'. auto. Qed.
Lemma role_signalled_mono r : role_signalled p r -> role_signalled p' r.
Proof. intros (s & Hs & Hr). destruct (Hp s Hs) as (s' & ? & _ & ?). exists s'. auto. Qed.

Lemma read_ok_mono canon db r : read_ok canon db p r -> read_ok canon db p' r.
Proof.
  assert (Hn : forall i ns, namespace_ok canon p i ns -> namespace_ok canon p' i ns)
    by (intros i ns [?|?]; [by left|right; by apply namespace_signalled_mono]).
  assert (Ha : forall k ns l, assignments_ok db p k ns l -> assignments_ok db p' k ns l)
    by (intros k ns l [?|?]; [by left|right; by apply group_signalled_mono]).
  assert (Hr : forall l roles, roles_ok db p l roles -> roles_ok db p' l roles)
    by (intros l roles H a Hin; destruct (H a Hin); [by left|right; by apply role_signalled_mono]).
  destruct r; simpl; auto.
  - intros [?|?]; [by left|right; by apply membership_signalled_mono].
  - naive_solver.
  - naive_solver.
  - intros (? & ? & ? & [?|?]); (split_and!; [auto..|]); [by left|right; by apply group_signalled_mono].
Qed.
End Mono.

(** ** Writes *)

(** A group's contribution depends on its covering assignments, their roles and its own row. *)
Lemma spec_trails_agree db db' g ns :
  tables_wf db -> tables_wf db' ->
  (forall a, ra_group_id a = g -> covers a ns = true -> a ∈ at_assignments db <-> a ∈ at_assignments db') ->
  (forall a, a ∈ at_assignments db -> ra_group_id a = g -> covers a ns = true ->
     at_roles db !! ra_role_id a = at_roles db' !! ra_role_id a) ->
  at_groups db !! g = at_groups db' !! g ->
  spec_trails db g ns = spec_trails db' g ns.
Proof.
  intros Hwf Hwf' Ha Hr Hg.
  set (l := List.filter (fun a => bool_decide (ra_group_id a = g) && covers a ns) (at_assignments db)).
  assert (Hin : forall a, a ∈ l <-> a ∈ at_assignments db /\ ra_group_id a = g /\ covers a ns = true).
  { intros a. subst l. by rewrite elem_of_list_filter_bool, andb_true_iff, bool_decide_eq_true. }
  assert (Hnd : NoDup l) by apply NoDup_list_filter, (wf_assignment_nodup db Hwf).
  assert (H1 : walk_assignments l (at_roles db) (at_groups db) {[g]} ns = (trails_actions (spec_trails db g ns), spec_trails db g ns)).
  { apply walk_assignments_spec; [done|done| |done|done]. intros a Hag Hc. rewrite Hin. tauto. }
  assert (H2 : walk_assignments l (at_roles db) (at_groups db) {[g]} ns = (trails_actions (spec_trails db' g ns), spec_trails db' g ns)).
  { apply walk_assignments_spec; [done|done| | |done].
    - intros a Hag Hc. rewrite Hin, <- Ha by done. tauto.
    - intros a (? & ? & ?)%Hin. by apply Hr. }
  congruence.
Qed.

(** The kind a membership key names is the kind a row's message names. *)
Lemma kind_member_type_value kind mt : kind_member_type kind = Some mt -> kind = MemberType_value mt.
Proof.
  unfold kind_member_type. repeat case_match; intros [= <-]; by apply String.eqb_eq.
Qed.

Lemma forall_or_exists {A} (l : list A) (P Q : A -> Prop) :
  (forall x, x ∈ l -> P x \/ Q x) -> (forall x, x ∈ l -> P x) \/ exists x, x ∈ l /\ Q x.
Proof.
  induction l as [|x l IH]; intros H; [left; intros ? Hn; by apply not_elem_of_nil in Hn|].
  destruct IH as [IH|(y & Hy & HQ)]; [intros; apply H; set_solver| |right; exists y; set_solver].
  destruct (H x) as [Hx|Hx]; [set_solver| |right; exists x; set_solver]. left.
  intros y [->|Hy]%elem_of_cons; auto.
Qed.

Section Write.
Context (canon : UUID -> Namespace) (db db' : AccessTables) (msg : CacheInvalidationMessage) (p : list signal).
Context (Hw : table_write db db' msg) (Hwf : tables_wf db) (Hwf' : tables_wf db').
Let p' : list signal := (p ++ [RowHeard msg])%list.

Lemma write_pending : covers_pending p p'.
Proof using. clear. apply covers_pending_subset. subst p'. intros s Hs. apply elem_of_app. by left. Qed.

Lemma write_table : cm_table msg ∈ ACCESS_TABLES.
Proof. destruct Hw; set_solver. Qed.

Lemma membership_write k rows : membership_coherent db k rows -> membership_ok db' p' k rows.
Proof.
  intros Hc. unfold membership_ok, membership_coherent in *.
  destruct (kind_member_type (amk_actor_kind k)) as [mt|] eqn:Hk; [|by left].
  destruct Hw as [ids m members Hm Hsame| | |]; [|by left..]. simpl.
  destruct (decide (gm_member_type m = mt /\ gm_member_id m = amk_actor_id k)) as [[Ht Hi]|Hne].
  - right. apply Exists_app. right. constructor. intros now d c. cbn [deliver]. rewrite on_row_member by done. simpl.
    rewrite Ht, Hi, <- (kind_member_type_value _ _ Hk). destruct k as [kind i]. simpl. apply lookup_delete_eq.
  - left. intros m' Ht Hi. rewrite Hc by done. symmetry. apply Hsame.
    destruct (decide (gm_member_type m' = gm_member_type m)); [|by left]. right. intros He. apply Hne. split; congruence.
Qed.

(** A group touched by the write is signalled; one untouched keeps its assignments and row. *)
Lemma group_write g :
  group_signalled p' g
  \/ (forall a, ra_group_id a = g -> a ∈ at_assignments db <-> a ∈ at_assignments db')
     /\ at_groups db !! g = at_groups db' !! g.
Proof.
  assert (Hsig : (forall now d c, on_row tps now msg (d, c) = (d, invalidate_group g c)
                              \/ on_row tps now msg (d, c) = (d, evict_group_row g c)) -> group_signalled p' g).
  { intros H. exists (RowHeard msg). split; [subst p'; set_solver|]. intros ns roles now d c e _ _. cbn [deliver].
    destruct (H now d c) as [-> | ->]; simpl; apply map_lookup_filter_None_2; right; naive_solver. }
  destruct Hw as [|ids a assignments Ha Hsame| |scope g' groups Hg Hsame]; simpl; auto.
  - destruct (decide (ra_group_id a = g)) as [<-|Hne].
    + left. apply Hsig. intros. left. by apply on_row_assignment.
    + right. split; [|done]. intros a' <-. symmetry. apply Hsame. congruence.
  - destruct (decide (g' = g)) as [<-|Hne].
    + left. apply Hsig. intros. right. by apply on_row_group.
    + right. split; [done|]. symmetry. by apply Hsame.
Qed.

Lemma role_write r : role_signalled p' r \/ at_roles db !! r = at_roles db' !! r.
Proof.
  destruct Hw as [| |r' roles Hr Hsame|]; simpl; auto.
  destruct (decide (r' = r)) as [<-|Hne]; [left|right; symmetry; by apply Hsame].
  exists (RowHeard (role_message r')). split; [subst p'; set_solver|]. intros k rs Hin now d c e He Hrs. cbn [deliver].
  rewrite on_row_role by done. simpl. apply map_lookup_filter_None_2. right. intros e'. rewrite He. intros [= <-]. simpl.
  unfold role_unread. rewrite Hrs, bool_decide_true by done. done.
Qed.

Lemma assignments_write k ns l : assignments_read db k ns l -> assignments_ok db' p' k ns l.
Proof.
  intros [Hnd Hl]. destruct (group_write (gnk_group_id k)) as [?|[Ha _]]; [by right|]. left. split; [done|].
  intros a Hg Hc. by rewrite Hl, Ha.
Qed.

Lemma read_ok_write r : read_ok canon db p r -> read_ok canon db' p' r.
Proof.
  assert (HN : forall i ns, namespace_ok canon p i ns -> namespace_ok canon p' i ns).
  { intros i ns [?|H]; [by left|]. right. by eapply namespace_signalled_mono, H; apply write_pending. }
  assert (HA : forall k ns l, assignments_ok db p k ns l -> assignments_ok db' p' k ns l).
  { intros k ns l [?|?]; [by apply assignments_write|]. right. by eapply group_signalled_mono, H; apply write_pending. }
  assert (HR : forall l roles, roles_ok db p l roles -> roles_ok db' p' l roles).
  { intros l roles H a Ha. destruct (H a Ha) as [->|Hs].
    - destruct (role_write (ra_role_id a)); [by right|by left].
    - right. by eapply role_signalled_mono, Hs; apply write_pending. }
  destruct r; simpl; auto.
  - intros [?|H]; [by apply membership_write|]. right. by eapply membership_signalled_mono, H; apply write_pending.
  - naive_solver.
  - naive_solver.
  - intros (? & ? & ? & Hg). split_and!; [auto..|]. destruct Hg as [Hg|Hg].
    + destruct (group_write (gnk_group_id key)) as [?|[_ He]]; [by right|left; congruence].
    + right. by eapply group_signalled_mono, Hg; apply write_pending.
Qed.

Lemma signalled_Exists k roles : (exists s, s ∈ p' /\ reaches_contribution k roles s) -> Exists (reaches_contribution k roles) p'.
Proof. by rewrite Exists_exists. Qed.

Lemma contribution_write k e :
  fresh_contribution canon db k e -> fresh_contribution canon db' k e \/ Exists (reaches_contribution k (gne_role_ids e)) p'.
Proof.
  intros [[Hts Hacts] (roles & Hroles & Hin)].
  destruct (group_write (gnk_group_id k)) as [(s & Hs & Hr)|[Ha Hg]].
  { right. apply signalled_Exists. exists s. split; [done|]. destruct k. apply Hr. }
  destruct (forall_or_exists (at_assignments db)
    (fun a => ra_group_id a = gnk_group_id k -> covers a (canon (gnk_namespace_id k)) = true ->
              at_roles db !! ra_role_id a = at_roles db' !! ra_role_id a)
    (fun a => ra_role_id a ∈ roles /\ role_signalled p' (ra_role_id a))) as [Hrs|(a & _ & Hra & s & Hs & Hr)].
  - intros a Hain. destruct (decide (ra_group_id a = gnk_group_id k)) as [Hgk|]; [|left; naive_solver].
    destruct (covers a (canon (gnk_namespace_id k))) eqn:Hc; [|left; naive_solver].
    destruct (role_write (ra_role_id a)); [right|left]; auto.
  - left. split; [|exists roles; split; [done|]].
    + split; [|done]. rewrite Hts. apply spec_trails_agree; auto.
    + intros a Ha' Hga Hc. apply Hin; [by apply Ha|done..].
  - right. apply signalled_Exists. exists s. split; [done|]. rewrite Hroles. by apply Hr.
Qed.
End Write.

(** A write of a namespace row reaches every entry and every read of that namespace. *)
Section WriteNamespace.
Context (canon canon' : UUID -> Namespace) (scope : string) (i : UUID) (p : list signal).
Context (Hi : uuid_wf i) (Hsame : forall j, j <> i -> canon' j = canon j).
Abbreviation p' := (p ++ [RowHeard (namespace_message scope i)])%list.

Lemma written_namespace_signalled : namespace_signalled p' i.
Proof using Hi.
  clear Hsame canon canon'. exists (RowHeard (namespace_message scope i)).
  split; [apply elem_of_app; right; by apply list_elem_of_singleton|]. intros g roles now d c e _ _.
  cbn [deliver]. rewrite on_row_namespace by done. simpl. apply map_lookup_filter_None_2. right. naive_solver.
Qed.

Lemma read_ok_namespace db r : read_ok canon db p r -> read_ok canon' db p' r.
Proof using Hi Hsame.
  intros Hr. apply (read_ok_mono p p') in Hr; [|apply write_pending].
  assert (HN : forall j ns, namespace_ok canon p' j ns -> namespace_ok canon' p' j ns).
  { intros j ns [->|?]; [|by right]. destruct (decide (j = i)) as [Hj|Hne]; [rewrite Hj; right; apply written_namespace_signalled|].
    left. symmetry. by apply Hsame. }
  destruct r; simpl in *; naive_solver.
Qed.

Lemma contribution_namespace db k e :
  fresh_contribution canon db k e ->
  fresh_contribution canon' db k e \/ Exists (reaches_contribution k (gne_role_ids e)) p'.
Proof using Hi Hsame.
  intros Hf. destruct (decide (gnk_namespace_id k = i)) as [Hk|Hne].
  - right. destruct written_namespace_signalled as (s & Hs & Hr). apply Exists_exists. exists s. split; [done|].
    destruct k. simpl in Hk. subst. apply Hr.
  - left. unfold fresh_contribution, contribution_coherent in *. by rewrite Hsame.
Qed.
End WriteNamespace.

(** ** Every step keeps the invariant *)

Lemma world_ok_shrink canon db d d' c c' p inf inf' :
  world_ok (mkWorld canon db d c p inf) -> shrinks c c' -> (forall r, r ∈ inf' -> r ∈ inf) ->
  world_ok (mkWorld canon db d' c' p inf').
Proof.
  intros [Hwf Ht Hm Hc Hi] [S1 S2 _ S4] Hinf. simpl in *. split; simpl; [done|done| | |].
  - intros k e He. apply Hm. by eapply lookup_weaken.
  - intros k e He. apply Hc. by eapply lookup_weaken.
  - intros r Hr. destruct (Hi r (Hinf r Hr)) as [Hle Hok]. unfold inflight_ok, read_fence in *. simpl in *. split; [lia|].
    intros He. apply Hok. lia.
Qed.

Lemma store_guarded_cases f st c :
  shrinks c (store_guarded (Some f) st c) \/ f = read_fence c /\ store_guarded (Some f) st c = st c.
Proof.
  destruct (is_trusted c) eqn:Ht.
  - unfold store_guarded. rewrite trusted_locked_true by done. unfold fence_moved, read_fence.
    destruct (Z.eqb_spec f (ac_evictions c)); simpl; [by right|]. left. split; simpl; [done..|lia].
  - left. unfold store_guarded. pose proof (trusted_locked_shrinks c) as Hs. unfold is_trusted in Ht.
    destruct (trusted_locked c) as [t c1]. simpl in *. by subst t.
Qed.

Lemma step_deliver_ok now canon db d c p1 s p2 inf :
  world_ok (mkWorld canon db d c (p1 ++ s :: p2)%list inf) ->
  world_ok (mkWorld canon db (deliver tps now s (d, c)).1 (deliver tps now s (d, c)).2 (p1 ++ p2)%list inf).
Proof.
  intros [Hwf Ht Hm Hc Hi]. simpl in *. destruct (deliver_shrinks now s d c) as [[S1 S2 _ _] Hev]; [apply Ht; set_solver|].
  split; simpl; [done|intros; apply Ht; set_solver| | |].
  - intros k e He. destruct (Hm k e) as [?|Hr]; [by eapply lookup_weaken|by left|]. right.
    rewrite Exists_app, Exists_cons in Hr. rewrite Exists_app. destruct Hr as [?|[Hs|?]]; auto.
    specialize (Hs now d c). congruence.
  - intros k e He. pose proof (lookup_weaken _ _ _ _ He S2) as Hold. destruct (Hc k e Hold) as [?|Hr]; [by left|]. right.
    rewrite Exists_app, Exists_cons in Hr. rewrite Exists_app. destruct Hr as [?|[Hs|?]]; auto.
    specialize (Hs now d c e Hold eq_refl). congruence.
  - intros r Hr. destruct (Hi r Hr) as [Hle _]. unfold inflight_ok, read_fence in *. simpl in *. split; [lia|]. intros. lia.
Qed.

Lemma step_miss_ok canon db d c p1 m p2 inf :
  world_ok (mkWorld canon db d c (p1 ++ RowHeard m :: p2)%list inf) ->
  world_ok (mkWorld canon db d c (p1 ++ TableDropped (cm_table m) :: p2)%list inf).
Proof.
  intros [Hwf Ht Hm Hc Hi]. simpl in *. pose proof (covers_pending_miss p1 m p2) as Hp. split; simpl; [done| | | |].
  - intros s [Hs|[->|Hs]%elem_of_cons]%elem_of_app; [apply Ht; set_solver|apply (Ht (RowHeard m)); set_solver|apply Ht; set_solver].
  - intros k e He. destruct (Hm k e He) as [?|Hr]; [by left|right; by eapply membership_signalled_mono].
  - intros k e He. destruct (Hc k e He) as [?|Hr]; [by left|right; by eapply contribution_signalled_mono].
  - intros r Hr. destruct (Hi r Hr) as [Hle Hok]. split; [done|]. intros Hf. eapply read_ok_mono; eauto.
Qed.

Lemma step_write_ok canon db db' msg d c p inf :
  table_write db db' msg -> tables_wf db' ->
  world_ok (mkWorld canon db d c p inf) -> world_ok (mkWorld canon db' d c (p ++ [RowHeard msg])%list inf).
Proof.
  intros Hw Hwf' [Hwf Ht Hm Hc Hi]. simpl in *. pose proof (write_pending msg p) as Hp. split; simpl; [done| | | |].
  - intros s [Hs| ->%list_elem_of_singleton]%elem_of_app; [by apply Ht|]. by eapply write_table.
  - intros k e He. destruct (Hm k e He) as [?|Hr]; [by eapply membership_write|right; by eapply membership_signalled_mono].
  - intros k e He. destruct (Hc k e He) as [?|Hr]; [by eapply contribution_write|right; by eapply contribution_signalled_mono].
  - intros r Hr. destruct (Hi r Hr) as [Hle Hok]. split; [done|]. intros Hf. eapply read_ok_write; eauto.
Qed.

Lemma step_write_namespace_ok canon canon' scope i db d c p inf :
  uuid_wf i -> (forall j, j <> i -> canon' j = canon j) ->
  world_ok (mkWorld canon db d c p inf) ->
  world_ok (mkWorld canon' db d c (p ++ [RowHeard (namespace_message scope i)])%list inf).
Proof.
  intros Hi Hsame [Hwf Ht Hm Hc Hf]. simpl in *. pose proof (write_pending (namespace_message scope i) p) as Hp.
  split; simpl; [done| | | |].
  - intros s [Hs| ->%list_elem_of_singleton]%elem_of_app; [by apply Ht|]. unfold ACCESS_TABLES. simpl. set_solver.
  - intros k e He. destruct (Hm k e He) as [?|Hr]; [by left|right; by eapply membership_signalled_mono].
  - intros k e He. destruct (Hc k e He) as [?|Hr]; [by eapply contribution_namespace|right; by eapply contribution_signalled_mono].
  - intros r Hr. destruct (Hf r Hr) as [Hle Hok]. split; [done|]. intros. eapply read_ok_namespace; eauto.
Qed.

Lemma read_step_ok canon db p r r' :
  read_step db r r' -> inflight_fence r' = inflight_fence r /\ (read_ok canon db p r -> read_ok canon db p r').
Proof.
  destruct 1; simpl; (split; [done|]).
  - intros _. by left.
  - intros Hn. split; [done|by left].
  - intros [Hn Ha]. split_and!; [done..|]. intros a Hin. left. auto.
  - intros (Hn & Ha & Hr). split_and!; [done..|by left].
Qed.

(** The contribution a finished read stores is fresh, or a pending signal reaches it. *)
Lemma stored_contribution_ok now canon db p f k ns l roles groups :
  tables_wf db -> read_ok canon db p (ReadGroups f k ns l roles groups) ->
  let w := walk_assignments l roles groups {[gnk_group_id k]} ns in
  let e := mkGroupNamespaceEntry w.1 w.2 now (Some (list_to_set (map ra_role_id l))) in
  fresh_contribution canon db k e \/ Exists (reaches_contribution k (gne_role_ids e)) p.
Proof.
  intros Hwf (Hn & Ha & Hr & Hg) w e.
  destruct Hn as [-> |(s & Hs & Hr')]; [|right; apply Exists_exists; exists s; split; [done|]; destruct k; apply Hr'].
  assert (Hsig : group_signalled p (gnk_group_id k) -> Exists (reaches_contribution k (gne_role_ids e)) p).
  { intros (s & Hs & Hr'). apply Exists_exists. exists s. split; [done|]. destruct k. apply Hr'. }
  destruct Ha as [[Hnd Hl]|?]; [|auto]. destruct Hg as [Hg|?]; [|auto].
  destruct (forall_or_exists l _ _ Hr) as [Hrs|(a & Hin & s & Hs & Hrr)].
  - left. assert (Hwalk := walk_assignments_spec db _ _ l roles groups Hwf Hnd Hl Hrs Hg).
    split.
    + subst e w. simpl. by rewrite Hwalk.
    + eexists. split; [reflexivity|]. intros a Hain Hga Hc. apply elem_of_list_to_set, list_elem_of_fmap.
      exists a. split; [done|]. by apply Hl.
  - right. apply Exists_exists. exists s. split; [done|]. apply Hrr. apply elem_of_list_to_set, list_elem_of_fmap. eauto.
Qed.

Lemma step_store_ok now canon db d c p i1 r i2 :
  world_ok (mkWorld canon db d c p (i1 ++ r :: i2)%list) -> world_ok (mkWorld canon db d (store now r c) p (i1 ++ i2)%list).
Proof.
  intros Hok. assert (Hsub : forall r', r' ∈ (i1 ++ i2)%list -> r' ∈ (i1 ++ r :: i2)%list) by set_solver.
  pose proof Hok as [Hwf Ht Hm Hc Hi]. simpl in *. destruct (Hi r) as [Hle Hr]; [set_solver|].
  destruct r as [| f k rows | | | | f k ns l roles groups]; try (by apply (world_ok_shrink _ _ d _ _ _ _ _ _ Hok)).
  - unfold store, put_membership. simpl in *. destruct (store_guarded_cases f (with_membership (insert k (mkActorMembershipEntry rows now))) c)
      as [Hs|[Hf Hs]]; [by apply (world_ok_shrink _ _ d _ _ _ _ _ _ Hok)|]. rewrite Hs.
    split; simpl; [done|done| |done|intros r' Hr'; exact (Hi r' (Hsub r' Hr'))]. intros k' e [[<- <-]|[_ He]]%lookup_insert_Some; [by apply Hr|by apply Hm].
  - unfold store, put_group_namespace. simpl in *.
    match goal with |- context [store_guarded _ ?st c] =>
      destruct (store_guarded_cases f st c) as [Hs|[Hf Hs]]; [by apply (world_ok_shrink _ _ d _ _ _ _ _ _ Hok)|] end.
    rewrite Hs. split; simpl; [done|done|done| |intros r' Hr'; exact (Hi r' (Hsub r' Hr'))].
    intros k' e [[<- <-]|[_ He]]%lookup_insert_Some; [|by apply Hc].
    apply (stored_contribution_ok now canon db p f k ns l roles groups); [done|]. by apply Hr.
Qed.

Lemma wstep_ok w w' : wstep timely w w' -> world_ok w -> world_ok w'.
Proof.
  destruct 1 as [canon db db' msg d c p inf Hw Hwf'|canon canon' scope i db d c p inf Hi Hsame|now canon db d c p1 s p2 inf
                |canon db d c p1 m p2 inf|canon db d c p inf k|canon db d c p inf g ns Hask
                |canon db d c p i1 r r' i2 Hr|now canon db d c p i1 r i2|op canon db d c p inf].
  - by apply step_write_ok.
  - by apply step_write_namespace_ok.
  - apply step_deliver_ok.
  - apply step_miss_ok.
  - intros [Hwf Ht Hm Hc Hi]. split; [done..|]. intros r [->|Hr]%elem_of_cons; [by split|by apply Hi].
  - intros [Hwf Ht Hm Hc Hi]. split; [done..|]. intros r [->|Hr]%elem_of_cons; [by split|by apply Hi].
  - intros [Hwf Ht Hm Hc Hi]. split; [done..|]. simpl in *.
    intros r0 [Hr0|[->|Hr0]%elem_of_cons]%elem_of_app; [apply Hi; set_solver| |apply Hi; set_solver].
    destruct (Hi r) as [Hle Hok]; [set_solver|]. destruct (read_step_ok canon db p r r' Hr) as [Hf Himp].
    split; rewrite Hf; auto.
  - apply step_store_ok.
  - intros Hok. apply (world_ok_shrink _ _ d _ _ _ _ _ _ Hok); [apply run_op_shrinks|done].
Qed.

Lemma reachable_ok w w' : rtc (wstep timely) w w' -> world_ok w -> world_ok w'.
Proof. induction 1; eauto using wstep_ok. Qed.
End Coherence.

(** ** What the invariant gives *)

(** A process that starts following: nothing cached, nothing heard, nothing in flight. *)
Definition start (canon : UUID -> Namespace) (db : AccessTables) : world :=
  mkWorld canon db DegradedEvictions_init (followed_by (Some true) AclCache_init) [] [].

Lemma start_world_ok canon tps db : tables_wf db -> world_ok tps (start canon db).
Proof. intros Hwf. split; simpl; [done|..]; intros ? H; try (by intros ?); by apply not_elem_of_nil in H. Qed.

Lemma quiet_coherent tps w : world_ok tps w -> w_pending w = [] -> coherent (w_namespaces w) (w_db w) (w_cache w).
Proof.
  intros [_ _ Hm Hc _] Hp. split.
  - intros k e He. destruct (Hm k e He) as [?|Hr]; [done|]. rewrite Hp in Hr. by apply Exists_nil in Hr.
  - intros k e He. destruct (Hc k e He) as [[? _]|Hr]; [done|]. rewrite Hp in Hr. by apply Exists_nil in Hr.
Qed.

(** (C3) Through every interleaving of writes of the five access tables, deliveries, missed
    broadcasts, torn reads, stores and evictions, in which each read of a contribution takes its
    fence with its namespace's row as it stands or with that row's broadcast still to come, an entry
    the cache would serve agrees with the tables as they are at that moment, or a signal still to be
    delivered removes it. *)
Theorem cache_never_silently_stale canon tps db w :
  tables_wf db -> rtc (wstep tps (timely tps)) (start canon db) w ->
  (forall k e, (get_membership k (w_cache w)).1 = Some e ->
     membership_coherent (w_db w) k (ame_memberships e)
     \/ exists s, s ∈ w_pending w /\ forall now d c, ac_membership (deliver tps now s (d, c)).2 !! k = None)
  /\ (forall k e, (get_group_namespace k (w_cache w)).1 = Some e ->
     contribution_coherent (w_namespaces w) (w_db w) k (gne_actions e) (gne_trails e)
     \/ exists s, s ∈ w_pending w
        /\ forall now, ac_group_namespace (deliver tps now s (w_degraded w, w_cache w)).2 !! k = None).
Proof.
  intros Hwf Hr. destruct (reachable_ok tps _ _ Hr (start_world_ok canon tps db Hwf)) as [_ _ Hm Hc _].
  pose proof (trusted_locked_shrinks (w_cache w)) as [S1 S2 _ _].
  unfold get_membership, get_group_namespace. destruct (trusted_locked (w_cache w)) as [[] c1]; simpl in *; [|by split].
  split; intros k e He.
  - apply (lookup_weaken _ _ _ _ He) in S1. destruct (Hm k e S1) as [?|Hx]; [by left|right]. by apply Exists_exists in Hx.
  - apply (lookup_weaken _ _ _ _ He) in S2. destruct (Hc k e S2) as [[? _]|Hx]; [by left|right].
    apply Exists_exists in Hx as (s & Hs & Hx). exists s. split; [done|]. intros now. by eapply Hx.
Qed.

(** (C2) After any such interleaving, once every signal has been delivered, what is evaluated on the
    cache is what the tables say now: for a question that carries its namespace's row as it stands,
    the decision is reached, and it is True exactly when every side of the question is granted by
    the current rows. *)
Theorem drained_cache_decides_exactly canon tps db w `{HL : Loaders} `{HLL : !LoaderLaws (w_db w)} now max_depth ctx :
  tables_wf db -> rtc (wstep tps (timely tps)) (start canon db) w -> w_pending w = [] ->
  check_context ctx = Ok tt -> canonical (w_namespaces w) ctx ->
  exists b, (evaluate_decision now max_depth ctx (w_cache w)).1 = Ok b /\ (b = true <-> allowed (w_db w) max_depth ctx).
Proof.
  intros Hwf Hr Hp Hchk Hcan. pose proof (reachable_ok tps _ _ Hr (start_world_ok canon tps db Hwf)) as Hok.
  apply (evaluate_decision_allowed (w_db w) (w_namespaces w)); [apply (wo_wf _ _ Hok)| |done|done].
  by apply (quiet_coherent tps).
Qed.

Lemma drain tps w :
  exists w', rtc (wstep tps (timely tps)) w w' /\ w_db w' = w_db w /\ w_namespaces w' = w_namespaces w
    /\ w_inflight w' = w_inflight w /\ w_pending w' = [].
Proof.
  destruct w as [canon db d c p inf]. revert d c. induction p as [|s p IH]; intros d c.
  - exists (mkWorld canon db d c [] inf). by split_and!.
  - destruct (IH (deliver tps 0 s (d, c)).1 (deliver tps 0 s (d, c)).2) as (w' & Hr & Hrest).
    exists w'. split; [|done]. eapply rtc_l; [|exact Hr]. apply (step_deliver tps _ 0 canon db d c [] s p inf).
Qed.

(** A process can always catch up: from wherever the interleaving has led, delivering what is
    pending ends in a coherent cache over the same tables, even with reads still in flight. *)
Theorem cache_catches_up canon tps db w :
  tables_wf db -> rtc (wstep tps (timely tps)) (start canon db) w ->
  exists w', rtc (wstep tps (timely tps)) w w' /\ w_db w' = w_db w /\ w_inflight w' = w_inflight w
    /\ w_pending w' = [] /\ coherent (w_namespaces w) (w_db w) (w_cache w').
Proof.
  intros Hwf Hr. destruct (drain tps w) as (w' & Hs & Hdb & Hn & Hi & Hp). exists w'. split_and!; [done..|].
  rewrite <- Hdb, <- Hn. apply (quiet_coherent tps); [|done].
  apply (reachable_ok tps (start canon db)); [by etrans|by apply start_world_ok].
Qed.

(** ** A concrete interleaving *)

Module Interleaved.
Import Sample.

Definition new_member : GroupMembership := mkGroupMembership 10 MemberUser 9 (Some acme).

(** The tables after user 9 joins group 10. *)
Definition db' : AccessTables :=
  mkAccessTables (new_member :: at_members db) (at_assignments db) (at_roles db) (at_groups db).

Lemma db'_wf : tables_wf db'.
Proof. destruct db_wf. split; assumption. Defined.

#[export] Instance loaders' : Loaders := table_loaders false db'.
#[export] Instance laws' : LoaderLaws db'.
Proof. apply table_loaders_laws, db_nodup. Defined.

Definition msg : CacheInvalidationMessage := member_message ["10"; "1"] new_member.
Definition key9 : ActorMembershipKey := mkActorMembershipKey "user" 9.

Definition key50 : GroupNamespaceKey := mkGroupNamespaceKey 11 50.

(** The namespace's row after the tool is renamed to its next version. *)
Definition renamed_ns : Namespace :=
  mkNamespace 50 (Some acme) "tool" None (Some "tools.pentest.sqlmap.2-0") (Some (build_agent_namespace_name 3)).
Definition canon' (i : UUID) : Namespace := if decide (i = 50%N) then renamed_ns else canon i.
Definition ns_msg : CacheInvalidationMessage := namespace_message "acme" 50.

Definition caught : DegradedEvictions * AclCache :=
  deliver 1 0 (RowHeard msg) (w_degraded (start canon db), w_cache (start canon db)).
Definition caught' : DegradedEvictions * AclCache := deliver 1 0 (RowHeard ns_msg) caught.

(** What the reader of a contribution has collected when it stores. *)
Definition red_rows : list RoleAssignment := List.filter (fun a => bool_decide (ra_group_id a = 11%N)) (at_assignments db).
Definition torn (fence : Z) : inflight := ReadGroups fence key50 sqlmap_ns red_rows (at_roles db) (at_groups db).

(** Two readers take their fence and read, user 9 joins and the tool is renamed, both broadcasts
    arrive, and both stores, of rows that are no longer the tables', are refused. *)
Definition final : world :=
  mkWorld canon' db' caught'.1 (store 9 (torn 1) (store 7 (ReadMembership 1 key9 []) caught'.2)) [] [].

Lemma collects (ask : world -> Namespace -> Prop) cn d c pending inf :
  ask (mkWorld cn db d c pending inf) sqlmap_ns ->
  rtc (wstep 1 ask) (mkWorld cn db d c pending inf) (mkWorld cn db d c pending (torn (read_fence c) :: inf)).
Proof.
  intros Hask. set (f := read_fence c).
  eapply rtc_l; [apply (step_want_contribution 1 ask cn db d c pending inf 11 sqlmap_ns Hask)|].
  eapply rtc_l; [apply (step_read 1 ask cn db d c pending [] _ (ReadAssignments f key50 sqlmap_ns red_rows) inf)|].
  { apply read_assignments. split; [apply NoDup_list_filter, db_nodup|]. intros a Hg _. unfold red_rows.
    rewrite elem_of_list_filter_bool, bool_decide_eq_true. tauto. }
  eapply rtc_l; [apply (step_read 1 ask cn db d c pending [] _ (ReadRoles f key50 sqlmap_ns red_rows (at_roles db)) inf); by apply read_roles|].
  eapply rtc_l; [apply (step_read 1 ask cn db d c pending [] _ (torn f) inf); by apply read_groups|].
  apply rtc_refl.
Defined.

Lemma reached : rtc (wstep 1 (timely 1)) (start canon db) final.
Proof.
  eapply rtc_l; [apply (step_want_membership 1 _ canon db _ _ [] [] key9)|].
  eapply rtc_l; [apply (step_read 1 _ canon db _ _ [] [] _ (ReadMembership 1 key9 []) [])|].
  { apply read_membership. intros m Ht Hi. split; [intros Hn; by apply not_elem_of_nil in Hn|].
    intros Hin. exfalso. revert Ht Hi. pattern m. revert m Hin. apply Forall_forall.
    repeat constructor; simpl; intros; discriminate. }
  etrans; [apply (collects (timely 1)); left; reflexivity|].
  eapply rtc_l; [apply (step_write 1 _ canon db db' msg); [|apply db'_wf]|].
  { apply write_member; [vm_compute; reflexivity|]. intros m' Hne. simpl. rewrite elem_of_cons. split; [|by right].
    intros [->|?]; [|done]. simpl in Hne. by destruct Hne as [[]|[]]. }
  eapply rtc_l; [apply (step_write_namespace 1 _ canon canon' "acme" 50); [vm_compute; reflexivity|]|].
  { intros j Hj. unfold canon'. by rewrite decide_False. }
  eapply rtc_l; [apply (step_deliver 1 _ 0 canon' db' _ _ [] (RowHeard msg) [RowHeard ns_msg])|].
  eapply rtc_l; [apply (step_deliver 1 _ 0 canon' db' _ _ [] (RowHeard ns_msg) [])|].
  eapply rtc_l; [apply (step_store 1 _ 7 canon' db' _ _ [] [torn 1] (ReadMembership 1 key9 []) [])|].
  eapply rtc_l; [apply (step_store 1 _ 9 canon' db' _ _ [] [] (torn 1) [])|].
  apply rtc_refl.
Defined.

Example stores_refused : ac_membership (w_cache final) !! key9 = None /\ ac_group_namespace (w_cache final) !! key50 = None.
Proof. vm_compute. split; reflexivity. Qed.
End Interleaved.

Import Sample Interleaved.

(** Every entry the cache of [w] would serve is the tables'. *)
Definition entries_current (w : world) : Prop :=
  (forall k e, (get_membership k (w_cache w)).1 = Some e -> membership_coherent (w_db w) k (ame_memberships e))
  /\ (forall k e, (get_group_namespace k (w_cache w)).1 = Some e ->
        contribution_coherent (w_namespaces w) (w_db w) k (gne_actions e) (gne_trails e)).

Lemma cache_never_silently_stale_witness : entries_current final.
Proof.
  destruct (cache_never_silently_stale canon 1 db final db_wf reached) as [H1 H2].
  split; intros k e He.
  - destruct (H1 k e He) as [Hc|(s & Hs & _)]; [exact Hc|]. apply not_elem_of_nil in Hs. contradiction.
  - destruct (H2 k e He) as [Hc|(s & Hs & _)]; [exact Hc|]. apply not_elem_of_nil in Hs. contradiction.
Defined.

(** The question about the tool as it is called now. *)
Definition ask_renamed (user : UUID) : EvaluationContext := mkEvaluationContext renamed_ns "execute" (Some user) None None.

Lemma drained_cache_decides_exactly_witness : allowed db' 3 (ask_renamed 9).
Proof.
  destruct (drained_cache_decides_exactly canon 1 db final (HL := loaders') (HLL := laws') 8 3
    (ask_renamed 9) db_wf reached eq_refl eq_refl eq_refl) as (b & Hb & Hiff).
  apply Hiff.
  assert (E : (@evaluate_decision loaders' 8 3 (ask_renamed 9) (w_cache final)).1 = Ok true)
    by (vm_compute; reflexivity).
  congruence.
Defined.

Lemma cache_catches_up_witness :
  exists w', rtc (wstep 1 (timely 1)) final w' /\ w_pending w' = [] /\ coherent canon' db' (w_cache w').
Proof.
  destruct (cache_catches_up canon 1 db final db_wf reached) as (w' & H1 & _ & _ & H2 & H3).
  exists w'. split; [exact H1|split; [exact H2|exact H3]].
Defined.

(** ** A question that is not timely *)

(** The evaluator takes its fence after the membership reads, and the namespace row came with the
    question before them. *)
Module Late.
(** The tool is moved out of the subtree the red team was granted. *)
Definition moved_ns : Namespace :=
  mkNamespace 50 (Some acme) "tool" None (Some "tools.audit.sqlmap.1-0") (Some (build_agent_namespace_name 3)).
Definition moved (i : UUID) : Namespace := if decide (i = 50%N) then moved_ns else canon i.

Definition heard : DegradedEvictions * AclCache :=
  deliver 1 0 (RowHeard ns_msg) (w_degraded (start canon db), w_cache (start canon db)).
Definition stale : world := mkWorld moved db heard.1 (store 9 (torn (read_fence heard.2)) heard.2) [] [].

(** Questions carry rows read at the start. *)
Definition read_at_start (_ : world) (ns : Namespace) : Prop := ns = canon (ns_id ns).

Lemma reached_stale : rtc (wstep 1 read_at_start) (start canon db) stale.
Proof.
  eapply rtc_l; [apply (step_write_namespace 1 _ canon moved "acme" 50); [vm_compute; reflexivity|]|].
  { intros j Hj. unfold moved. by rewrite decide_False. }
  eapply rtc_l; [apply (step_deliver 1 _ 0 moved db _ _ [] (RowHeard ns_msg) [])|].
  etrans; [by apply (collects read_at_start)|].
  eapply rtc_l; [apply (step_store 1 _ 9 moved db _ _ [] [] (torn (read_fence heard.2)) [])|].
  apply rtc_refl.
Qed.

Definition ask_moved : EvaluationContext := mkEvaluationContext moved_ns "execute" (Some 1%N) None None.
End Late.

(** The limit of the fence: a question that carries a namespace row read before the row changed,
    and takes its fence after the row's broadcast was heard, stores what the old row grants; with
    nothing left to be delivered, the next question, which carries the new row, is let through on
    it though no row grants it. *)
Theorem late_descriptor_is_kept :
  exists w ctx, rtc (wstep 1 Late.read_at_start) (start canon db) w /\ w_pending w = []
    /\ canonical (w_namespaces w) ctx
    /\ (evaluate_decision (H := loaders) 10 3 ctx (w_cache w)).1 = Ok true /\ ~ allowed (w_db w) 3 ctx.
Proof.
  exists Late.stale, Late.ask_moved. split_and!; [exact Late.reached_stale|done|done|vm_compute; reflexivity|].
  destruct (evaluate_decision_allowed (HL := loaders) (HLL := laws) db Late.moved 10 3 Late.ask_moved AclCache_init db_wf) as (b & Hb & Hiff);
    [split; intros k e H; discriminate H|done|done|].
  assert (E : (evaluate_decision (H := loaders) 10 3 Late.ask_moved AclCache_init).1 = Ok false) by (vm_compute; reflexivity).
  intros Ha. apply Hiff in Ha. congruence.
Qed.
