(* ===== verification/AclAuthorize.v ===== *)
(** * The authorization entry points

    [src/packages/agent/acl/src/threetears/agent/acl/authorize.py]: the functions the rest of the
    platform calls. A namespace row is looked up by name (the collection is the consumer's, here the
    argument [get_by_name]), described to the evaluator, and a refusal is raised with the reason it
    carries; [authorize_from_claims] does the same for the subject of a verified token, refusing
    tokens of another audience and, under impersonation, every sensitive action. *)

From Stdlib Require Import Ascii String Bool List NArith ZArith Lia.
From stdpp Require Import base list gmap strings.
From S2P Require Import Prelude PyUuid Namespaces AclTypes AclCache AclEvaluator AclRefinement AclWalls AclGuarantees AclBinding.

Open Scope string_scope.

(** [threetears.interfaces.access.ImpersonationCategory]. *)
Inductive ImpersonationCategory :=
| CREDENTIAL_PASSKEY_MFA_MANAGEMENT | ACCOUNT_DELETION | APIKEY_MINT_ROTATE_FOR_TARGET
| EMAIL_CHANGE | RBAC_GRANT_CHANGE | AUDIT_EDITING.

Definition IMPERSONATION_ACT_REASON : string := "impersonation".
Definition INTERNAL_AUDIENCE : string := "aibots:internal".

(** The exception classes: [AccessDenied] itself and its two subclasses. *)
Inductive denial_class := DAccessDenied | DNamespaceNotFound | DExternalAudienceNotSupported.

Record AccessDenied := mkAccessDenied {
  ad_class : denial_class;
  ad_action : option string;
  ad_namespace_name : option string;
  ad_user_id : option UUID;
  ad_agent_id : option UUID;
  ad_reason : option string;
}.

(** What a call may raise: a denial, or the evaluator's own [ValueError]. *)
Inductive authorize_error :=
| Denied (d : AccessDenied)
| Malformed (e : eval_error).

(** [ClaimsForAuthorization], read off a token that is already verified. *)
Record ClaimsForAuthorization := mkClaims {
  cl_sub : string;
  cl_is_internal_audience : bool;
  cl_act_reason : option string;
}.

Definition from_verified_claims (sub : string) (aud act_reason : option string) : ClaimsForAuthorization :=
  mkClaims sub (bool_decide (aud = Some INTERNAL_AUDIENCE)) act_reason.

Section Authorize.
Context `{HL : Loaders} (now : Z) (max_depth : nat).

(** The descriptor [authorize_on_entity] builds; the caller's name wins over the row's. An entity is
    the six attributes a namespace row has, [None] where [getattr] would find none. *)
Definition acl_namespace (ns_entity : Namespace) (namespace_name : option string) : Namespace :=
  mkNamespace (ns_id ns_entity) (ns_customer_id ns_entity) (ns_type ns_entity) (ns_owner_agent_id ns_entity)
    (match namespace_name with Some n => Some n | None => ns_name ns_entity end) (ns_owner_namespace ns_entity).

Definition authorize_on_entity (ns_entity : Namespace) (action : string) (user_id agent_id : option UUID)
    (namespace_name : option string) : M AclCache (result EvaluationResult authorize_error) :=
  let eval_ctx := mkEvaluationContext (acl_namespace ns_entity namespace_name) action user_id agent_id None in
  let* r := evaluate_with_trail now max_depth eval_ctx in
  retM match r with
       | Err e => Err (Malformed e)
       | Ok result =>
           if er_decision result then Ok result
           else Err (Denied (mkAccessDenied DAccessDenied (Some action) namespace_name user_id agent_id (Some "evaluator_deny")))
       end.

Variable get_by_name : string -> option Namespace.

Definition namespace_missing (namespace_name action : string) (user_id agent_id : option UUID) : authorize_error :=
  Denied (mkAccessDenied DNamespaceNotFound (Some action) (Some namespace_name) user_id agent_id (Some "namespace_not_found")).

Definition authorize (namespace_name action : string) (user_id agent_id : option UUID)
  : M AclCache (result EvaluationResult authorize_error) :=
  match get_by_name namespace_name with
  | None => retM (Err (namespace_missing namespace_name action user_id agent_id))
  | Some ns_entity => authorize_on_entity ns_entity action user_id agent_id (Some namespace_name)
  end.

Definition authorize_with_trail (namespace_name action : string) (user_id agent_id : option UUID)
  : M AclCache (result (EvaluationResult * Namespace) authorize_error) :=
  match get_by_name namespace_name with
  | None => retM (Err (namespace_missing namespace_name action user_id agent_id))
  | Some ns_entity =>
      let* r := authorize_on_entity ns_entity action user_id agent_id (Some namespace_name) in
      retM match r with Ok result => Ok (result, ns_entity) | Err e => Err e end
  end.

Definition authorize_from_claims (namespace_name action : string) (claims : ClaimsForAuthorization)
    (sensitive_category : option ImpersonationCategory) : M AclCache (result EvaluationResult authorize_error) :=
  if negb (cl_is_internal_audience claims) then
    retM (Err (Denied (mkAccessDenied DExternalAudienceNotSupported (Some action) (Some namespace_name) None None
                         (Some "external_audience_not_supported"))))
  else match UUID_of_string (cl_sub claims) with
  | None => retM (Err (Denied (mkAccessDenied DAccessDenied (Some action) (Some namespace_name) None None (Some "invalid_sub"))))
  | Some user_id =>
      if bool_decide (cl_act_reason claims = Some IMPERSONATION_ACT_REASON) && isSome sensitive_category then
        retM (Err (Denied (mkAccessDenied DAccessDenied (Some action) (Some namespace_name) (Some user_id) None
                             (Some "impersonation_deny_list"))))
      else authorize namespace_name action (Some user_id) None
  end.
End Authorize.

(** ** What the entry points decide *)

(** The question [authorize] asks about a row. *)
Definition question (ns_entity : Namespace) (namespace_name action : string) (user_id agent_id : option UUID) : EvaluationContext :=
  mkEvaluationContext (acl_namespace ns_entity (Some namespace_name)) action user_id agent_id None.

(** A directory whose rows are found by their own name and described the one way. *)
Definition directory_ok (canon : UUID -> Namespace) (get_by_name : string -> option Namespace) : Prop :=
  forall name e, get_by_name name = Some e -> ns_name e = Some name /\ canon (ns_id e) = e.

Lemma acl_namespace_own e name : ns_name e = Some name -> acl_namespace e (Some name) = e.
Proof. destruct e. simpl. by intros ->. Qed.

Lemma question_check e name action user agent :
  is_Some user \/ is_Some agent -> check_context (question e name action user agent) = Ok tt.
Proof. unfold check_context. simpl. intros [[? ->]|[? ->]]; simpl; [done|]. by rewrite andb_false_r. Qed.

Section Exact.
Context `{HL : Loaders} {db : AccessTables} `{HLL : !LoaderLaws db}.
Context (Hwf : tables_wf db) (canon : UUID -> Namespace) (now : Z) (max_depth : nat).
Context (get_by_name : string -> option Namespace) (Hdir : directory_ok canon get_by_name).

(** The whole behaviour of [authorize] on a question that names an actor. *)
Lemma authorize_triple name action user agent :
  is_Some user \/ is_Some agent ->
  triple (coherent canon db) (authorize now max_depth get_by_name name action user agent)
    (fun r c => coherent canon db c /\
       match get_by_name name with
       | None => r = Err (namespace_missing name action user agent)
       | Some e => let ctx := question e name action user agent in
           (allowed db max_depth ctx /\ r = Ok (spec_answer db max_depth ctx))
           \/ (~ allowed db max_depth ctx
               /\ r = Err (Denied (mkAccessDenied DAccessDenied (Some action) (Some name) user agent (Some "evaluator_deny"))))
       end).
Proof using HLL Hwf Hdir.
  intros Hactor c Hc. unfold authorize. destruct (get_by_name name) as [e|] eqn:He; [|done].
  destruct (Hdir name e He) as [Hn Hcan]. pose proof (question_check e name action user agent Hactor) as Hchk.
  unfold authorize_on_entity, bindM. fold (question e name action user agent).
  assert (Hq : canonical canon (question e name action user agent)).
  { unfold canonical. simpl. by rewrite (acl_namespace_own e name Hn), Hcan. }
  destruct (evaluate_with_trail_triple Hwf canon now max_depth _ Hchk Hq c Hc) as [Hr Hc'].
  destruct (evaluate_with_trail now max_depth (question e name action user agent) c) as [r c']. simpl in Hr, Hc'. subst r.
  split; [done|]. cbn [fst retM]. pose proof (spec_answer_decision db max_depth _ Hchk) as Hd.
  destruct (er_decision _); [left|right]; (split; [|done]); [by apply Hd|]. intros Ha. by apply Hd in Ha.
Qed.
End Exact.

(** [authorize] returns a result exactly when the name has a row and every side of the question is
    granted by the access rows on that row's namespace; otherwise it raises [NamespaceNotFound] for a
    missing row, without touching the cache, and a denial with the reason for everything else. *)
Theorem authorize_exact `{HL : Loaders} db `{HLL : !LoaderLaws db} canon now max_depth get_by_name name action user agent c :
  tables_wf db -> directory_ok canon get_by_name -> coherent canon db c -> is_Some user \/ is_Some agent ->
  let out := authorize now max_depth get_by_name name action user agent c in
  ((exists r, out.1 = Ok r) <-> exists e, get_by_name name = Some e /\ allowed db max_depth (question e name action user agent))
  /\ (forall r, out.1 = Ok r -> er_decision r = true)
  /\ (out.1 = Err (namespace_missing name action user agent) <-> get_by_name name = None)
  /\ (get_by_name name = None -> out.2 = c)
  /\ (forall err, out.1 = Err err -> exists d, err = Denied d /\ ad_user_id d = user /\ ad_agent_id d = agent).
Proof.
  intros Hwf Hdir Hc Hactor out.
  destruct (authorize_triple Hwf canon now max_depth get_by_name Hdir name action user agent Hactor c Hc) as [_ H].
  fold out in H.
  assert (Hmiss : get_by_name name = None -> out.2 = c) by (subst out; unfold authorize; by intros ->).
  destruct (get_by_name name) as [e|].
  - destruct H as [[Ha Ho]|[Ha Ho]]; rewrite Ho; (split_and!; [split|..]; try done).
    + intros _. eauto.
    + eauto.
    + intros r [= <-]. by apply spec_answer_decision; [apply question_check|].
    + by intros [? ?].
    + intros (e' & [= <-] & ?). done.
    + intros err [= <-]. eauto.
  - rewrite H. split_and!; [split|..]; try done.
    + by intros [? ?].
    + by intros (? & ? & ?).
    + intros err [= <-]. unfold namespace_missing. eauto.
Qed.

(** (C32) A token is let through exactly when it is of the internal audience, its subject is a principal
    id, the action is not one that is deny-listed under impersonation, and that principal alone would
    be let through: nothing the caller says about the token's audience or subject widens it, and an
    impersonated session never performs a sensitive action whatever its target may do. *)
Theorem authorize_from_claims_exact `{HL : Loaders} db `{HLL : !LoaderLaws db} canon now max_depth get_by_name
    name action sub aud act_reason category c :
  tables_wf db -> directory_ok canon get_by_name -> coherent canon db c ->
  (exists r, (authorize_from_claims now max_depth get_by_name name action
                (from_verified_claims sub aud act_reason) category c).1 = Ok r)
  <-> aud = Some INTERNAL_AUDIENCE
      /\ ~ (act_reason = Some IMPERSONATION_ACT_REASON /\ is_Some category)
      /\ exists u e, UUID_of_string sub = Some u /\ get_by_name name = Some e
           /\ allowed db max_depth (question e name action (Some u) None).
Proof.
  intros Hwf Hdir Hc. unfold authorize_from_claims. cbn [from_verified_claims cl_is_internal_audience cl_sub cl_act_reason].
  destruct (bool_decide_reflect (aud = Some INTERNAL_AUDIENCE)) as [Haud|Haud]; cbn [negb];
    [|split; [by intros [? ?]|by intros [? _]]].
  destruct (UUID_of_string sub) as [u|]; [|split; [by intros [? ?]|by intros (_ & _ & ? & ? & ? & _)]].
  destruct (bool_decide_reflect (act_reason = Some IMPERSONATION_ACT_REASON)) as [Hi|Hi]; cbn [andb].
  1: destruct category as [cat|]; cbn [isSome].
  1: { split; [by intros [? ?]|]. intros (_ & Hn & _). destruct Hn. eauto. }
  all: pose proof (authorize_triple Hwf canon now max_depth get_by_name Hdir name action (Some u) None ltac:(eauto) c Hc) as [_ H].
  all: destruct (get_by_name name) as [e|]; [|rewrite H; split; [by intros [? ?]|by intros (_ & _ & ? & ? & _ & ? & _)]].
  all: destruct H as [[Ha ->]|[Ha ->]].
  all: split; [intros [? ?]|intros (_ & _ & u' & e' & [= <-] & [= <-] & ?)]; try done; eauto.
  all: split_and!; [done| |by eauto].
  all: first [by intros [? ?] | by intros [_ [? ?]]].
Qed.

(** ** Witnesses *)

Module AuthorizeSample.
Import Sample.

Definition directory (name : string) : option Namespace :=
  if String.eqb name "tools.pentest.sqlmap.1-0" then Some sqlmap_ns else None.

Lemma directory_is_ok : directory_ok canon directory.
Proof.
  intros name e. unfold directory. destruct (String.eqb_spec name "tools.pentest.sqlmap.1-0") as [->|]; [|discriminate].
  intros [= <-]. split; reflexivity.
Defined.
End AuthorizeSample.
Import Sample AuthorizeSample.

Lemma authorize_exact_witness :
  let out := authorize 0 3 directory "tools.pentest.sqlmap.1-0" "execute" (Some 1%N) None AclCache_init in
  (exists r, out.1 = Ok r) /\ (forall r, out.1 = Ok r -> er_decision r = true).
Proof.
  split; [vm_compute; eexists; reflexivity|].
  apply (authorize_exact db canon 0 3 directory "tools.pentest.sqlmap.1-0" "execute" (Some 1%N) None AclCache_init).
  - exact db_wf.
  - exact directory_is_ok.
  - exact fresh_coherent.
  - left. eexists. reflexivity.
Defined.

Lemma authorize_from_claims_exact_witness :
  ~ (exists r, (authorize_from_claims 0 3 directory "tools.pentest.sqlmap.1-0" "execute"
       (from_verified_claims "00000000-0000-0000-0000-000000000001" (Some INTERNAL_AUDIENCE) (Some "impersonation"))
       (Some EMAIL_CHANGE) AclCache_init).1 = Ok r)
  /\ exists r, (authorize_from_claims 0 3 directory "tools.pentest.sqlmap.1-0" "execute"
       (from_verified_claims "00000000-0000-0000-0000-000000000001" (Some INTERNAL_AUDIENCE) (Some "impersonation"))
       None AclCache_init).1 = Ok r.
Proof.
  split; [|vm_compute; eexists; reflexivity].
  intros H. apply (authorize_from_claims_exact db canon 0 3 directory) in H as (_ & Hn & _);
    [|exact db_wf|exact directory_is_ok|exact fresh_coherent].
  apply Hn. split; [reflexivity|]. eexists. reflexivity.
Defined.
