(* ===== verification/AclDescriptors.v ===== *)
(** * Several descriptors of one namespace

    The cache keeps a group's contribution under the group and the namespace's id, and the sites that
    evaluate describe a namespace in more than one way: the file gate of a workspace leaves out the name
    that the check of the whole workspace gives. A cache they share is not coherent for either. It is
    [sound] for the widest: every contribution it holds was made by rows that grant it on that descriptor.
    Evaluating with any [narrower] descriptor keeps a cache sound, and whatever an answer shows on either
    side is granted to a group of that side on the widest descriptor. *)

From Stdlib Require Import Ascii String Bool List NArith ZArith Lia.
From stdpp Require Import base list gmap strings.
From S2P Require Import Prelude Namespaces AclTypes AclCache AclEvaluator AclRefinement AclWalls AclGuarantees.

(** [ns] describes the namespace [ns'] does, with the same type, customer and owner, and no assignment
    covers it that does not cover [ns']. *)
Record narrower (ns ns' : Namespace) : Prop := {
  nar_id : ns_id ns = ns_id ns';
  nar_type : ns_type ns = ns_type ns';
  nar_customer : ns_customer_id ns = ns_customer_id ns';
  nar_owner : ns_owner_namespace ns = ns_owner_namespace ns';
  nar_covers : forall a, covers a ns = true -> covers a ns' = true;
}.

Lemma narrower_refl ns : narrower ns ns.
Proof. by split. Qed.

(** Leaving out the name narrows. *)
Lemma unnamed_narrower i customer ty owner name owner_namespace :
  narrower (mkNamespace i customer ty owner None owner_namespace) (mkNamespace i customer ty owner name owner_namespace).
Proof. split; [done..|]. intros a. unfold covers. simpl. destruct (ra_scope_type a); [done| |done|done]. by destruct (ra_scope_namespace_name a). Qed.

Section Descriptors.
Context `{HL : Loaders} {db : AccessTables} `{HLL : !LoaderLaws db}.
Context (Hwf : tables_wf db) (widest : UUID -> Namespace) (now : Z) (max_depth : nat).

Definition sound_contribution (k : GroupNamespaceKey) (actions : gset string) (trails : list Trail) : Prop :=
  forall t, t ∈ trails -> contributes db (widest (gnk_namespace_id k)) (gnk_group_id k) t.

Definition sound (c : AclCache) : Prop := coherent_for sound_contribution db c.

(** A cache that is coherent for the widest descriptors is sound for them. *)
Lemma coherent_sound c : coherent widest db c -> sound c.
Proof.
  intros [Hm Hg]. split; [done|]. intros k e He. destruct (Hg k e He) as [Ht _]. intros t. rewrite Ht. apply elem_of_spec_trails.
Qed.

Lemma contributes_narrower ns ns' g t : narrower ns ns' -> contributes db ns g t -> contributes db ns' g t.
Proof.
  intros [_ Ht Hc _ Hcov] (H1 & H2 & H3 & H4 & H5 & H6 & H7 & H8). split_and!; [done|done|by apply Hcov|done|done| | |by rewrite <- Ht].
  - by rewrite <- (customer_wall_ext _ ns ns').
  - by rewrite <- (customer_wall_ext _ ns ns').
Qed.

Definition res_sound (res : gmap GroupNamespaceKey (gset string * list Trail)) : Prop :=
  forall k v, res !! k = Some v -> sound_contribution k v.1 v.2.

Lemma res_sound_insert res k v : res_sound res -> sound_contribution k v.1 v.2 -> res_sound (<[k := v]> res).
Proof. intros Hr Hv k' v' [[<- <-]|[_ ?]]%lookup_insert_Some; auto. Qed.

Lemma contributions_scan_sound wanted :
  triple sound (contributions_scan wanted)
    (fun rm c => (res_sound rm.1 /\ forall kn, kn ∈ rm.2 -> kn ∈ wanted) /\ sound c).
Proof.
  apply (triple_for sound _ (fun l rm => res_sound rm.1 /\ forall kn, kn ∈ rm.2 -> kn ∈ l)).
  { split; [by intros k v|set_solver]. }
  intros done_ [k ns] todo [res missing] _ [H1 H2]. simpl in *.
  eapply triple_bind; [apply (get_group_namespace_triple sound_contribution db)|]. intros e c [He Hc]. simpl. split; [|done].
  destruct e as [e|]; simpl; [|set_solver]. split; [|set_solver]. apply res_sound_insert; [done|]. by apply He.
Qed.

(** What the evaluator computes for a descriptor narrower than the widest is sound. *)
Lemma group_namespace_contributions_sound ns wanted :
  narrower ns (widest (ns_id ns)) ->
  (forall k n, (k, n) ∈ wanted -> n = ns /\ gnk_namespace_id k = ns_id ns) ->
  triple sound (group_namespace_contributions now wanted) (fun res c => res_sound res /\ sound c).
Proof.
  intros Hn Hw. unfold group_namespace_contributions. eapply triple_bind; [apply contributions_scan_sound|].
  intros [res missing]. apply triple_pure. simpl. intros [Hr Hm].
  destruct missing as [|m0 ms] eqn:Hms; [by apply triple_ret|]. rewrite <- Hms in *. clear Hms.
  set (asked := fun i : UUID => if decide (i = ns_id ns) then ns else widest i).
  assert (Hok : wanted_ok asked missing).
  { intros k n [-> Hk]%Hm%Hw. unfold asked. by rewrite decide_True. }
  eapply (triple_bind _ _ _ (fun _ c => sound c)); [by intros c Hc|]. intros fence.
  unfold contributions_walk. apply (triple_for sound _ (fun _ r => res_sound r)); [done|].
  intros done_ [k n] todo r Hl Hres c Hc.
  assert (Hin : (k, n) ∈ missing) by (rewrite Hl; set_solver). destruct (Hw k n (Hm _ Hin)) as [-> Hk].
  destruct (held_assignments_ok Hwf asked missing k ns Hok Hin) as (l & Hgl & Hheld). rewrite Hgl. simpl default.
  pose proof (walk_missing Hwf asked missing k ns l Hok Hin Hgl Hheld) as Hwalk. simpl in Hwalk. rewrite Hwalk.
  assert (Hv : sound_contribution k (spec_contribution (db := db) asked k).1 (spec_contribution (db := db) asked k).2).
  { intros t. simpl. unfold asked. rewrite Hk, decide_True by done. rewrite elem_of_spec_trails. by apply contributes_narrower. }
  split; [by apply res_sound_insert|by apply put_group_namespace_coherent].
Qed.

Lemma accumulate_groups_sound groups ns res t :
  res_sound res -> t ∈ (accumulate_groups groups ns res).2 ->
  exists g, g ∈ groups /\ contributes db (widest (ns_id ns)) g t.
Proof.
  intros Hr. unfold accumulate_groups.
  assert (Hf : forall l acc, (forall t, t ∈ acc.2 -> exists g, g ∈ groups /\ contributes db (widest (ns_id ns)) g t) ->
    (forall g, g ∈ l -> g ∈ groups) ->
    forall t, t ∈ (fold_left (fun acc group_id =>
         let '(actions, trails) := res !!! mkGroupNamespaceKey group_id (ns_id ns) in
         (acc.1 ∪ actions, (acc.2 ++ trails)%list)) l acc).2 -> exists g, g ∈ groups /\ contributes db (widest (ns_id ns)) g t).
  { clear t. induction l as [|g l IH]; intros [s ts] Hacc Hl t; simpl; [apply Hacc|]. apply IH; [|set_solver]. simpl.
    rewrite lookup_total_alt. destruct (res !! _) as [[a ts']|] eqn:Hv; simpl; intros t' [Hin|Hin]%elem_of_app.
    - by apply Hacc.
    - exists g. split; [set_solver|]. by apply (Hr _ _ Hv).
    - by apply Hacc.
    - by apply elem_of_nil in Hin. }
  specialize (Hf groups (∅, [])). destruct (fold_left _ _ _) as [a ts] eqn:Hfold. simpl. rewrite elem_of_sort_by.
  intros Hin. apply Hf; [by intros ? ?%elem_of_nil|done|]. done.
Qed.

(** What an answer was assembled from: the trails of either side, each granted on the widest descriptor to a
    group of that side. *)
Definition assembled_soundly (ctx : EvaluationContext) (r : EvaluationResult) : Prop :=
  exists ua aa ut at_, r = assemble_result ctx ua aa ut at_ (spec_owner ctx)
    /\ (forall t, t ∈ ut -> exists g, g ∈ spec_user_groups db max_depth ctx
          /\ contributes db (widest (ns_id (ec_namespace ctx))) g t)
    /\ (forall t, t ∈ at_ -> exists g, g ∈ spec_agent_groups db max_depth ctx
          /\ contributes db (widest (ns_id (ec_namespace ctx))) g t).

Lemma evaluate_with_trail_sound ctx :
  check_context ctx = Ok tt -> narrower (ec_namespace ctx) (widest (ns_id (ec_namespace ctx))) ->
  triple sound (evaluate_with_trail now max_depth ctx)
    (fun r c => (exists er, r = Ok er /\ assembled_soundly ctx er) /\ sound c).
Proof.
  intros Hchk Hn. unfold evaluate_with_trail, evaluate_many_with_trail. cbn [check_contexts]. rewrite Hchk. cbn match.
  eapply (triple_bind _ _ _ (fun r c => (exists er, r = Ok [er] /\ assembled_soundly ctx er) /\ sound c)).
  2: { intros r. apply triple_pure. intros (er & -> & Her). apply triple_ret. intros c Hc. split; [|done]. by exists er. }
  eapply triple_bind; [apply (plan_all_triple sound_contribution)|]. intros plans. apply triple_pure. intros Hplans.
  apply Forall2_cons_inv_l in Hplans as (p & plans' & (_ & Hus & _ & Has & Ho) & Hnil & ->).
  apply Forall2_nil_inv_l in Hnil as ->. simpl zip. cbn [fold_left].
  eapply triple_bind; [apply (group_namespace_contributions_sound (ec_namespace ctx)); [done|]|].
  { intros k n [Hin|[-> Hk]]%want_pairs_spec; [by apply not_elem_of_nil in Hin|done]. }
  intros res. apply triple_pure. intros Hres. apply triple_ret. intros c Hc. split; [|done]. eexists. split; [reflexivity|].
  unfold assembled_soundly, answer_of. rewrite <- Ho.
  destruct (accumulate_groups (sp_user_groups p) (ec_namespace ctx) res) as [ua ut] eqn:Eu.
  assert (Hu : forall t, t ∈ ut -> exists g, g ∈ spec_user_groups db max_depth ctx
    /\ contributes db (widest (ns_id (ec_namespace ctx))) g t).
  { intros t Ht. rewrite <- Hus. destruct (accumulate_groups_sound (sp_user_groups p) (ec_namespace ctx) res t Hres) as (g & Hg & Hc');
      [by rewrite Eu|]. exists g. by rewrite elem_of_list_to_set. }
  destruct (sp_agent_groups p) as [|g0 gs] eqn:Hag.
  { eexists ua, _, ut, []. split; [reflexivity|]. split; [done|]. by intros t ?%elem_of_nil. }
  rewrite <- Hag in *. destruct (accumulate_groups (sp_agent_groups p) (ec_namespace ctx) res) as [aa at_] eqn:Ea.
  eexists ua, _, ut, at_. split; [reflexivity|]. split; [done|]. intros t Ht. rewrite <- Has.
  destruct (accumulate_groups_sound (sp_agent_groups p) (ec_namespace ctx) res t Hres) as (g & Hg & Hc'); [by rewrite Ea|].
  exists g. by rewrite elem_of_list_to_set.
Qed.
End Descriptors.
