(* ===== verification/AclDelegation.v ===== *)
(** * The ceiling on delegated grants

    [src/packages/agent/acl/src/threetears/agent/acl/delegation.py]: an admin may write a grant only for
    actions they hold on every namespace the grant will reach. [held_actions_on] intersects what the
    evaluator answers over a list of namespaces, [resolve_held_permissions] does so for every resource
    type of a role being authored, over the customer's namespaces of that type (the collection is the
    consumer's, here the argument [find_by_type_and_customer]), and [escalating_permissions] compares.
    The main theorem composes them with the evaluator: a role that passes the check, bound anywhere in
    the customer, contributes nothing its author is not allowed there. *)

From Stdlib Require Import Ascii String Bool List NArith ZArith Lia Sorted.
From stdpp Require Import base list gmap strings sorting.
From S2P Require Import Prelude Namespaces AclTypes AclCache AclEvaluator AclRefinement AclWalls AclGuarantees.

Open Scope string_scope.

Definition HELD_ACTIONS_PROBE : string := "acl.delegation.probe".

(** [EscalationViolation], less the sentence for the operator. *)
Record EscalationViolation := mkViolation {
  ev_resource_type : string;
  ev_action : option string;
}.

Record HeldPermissions := mkHeldPermissions {
  hp_actions_by_resource_type : gmap string (gset string);
  hp_trails : list Trail;
  hp_namespace_count : nat;
}.

(** [PermissionEscalation]. *)
Record PermissionEscalation := mkPermissionEscalation {
  pe_violations : list EscalationViolation;
  pe_trails : list Trail;
}.

Section Held.
Context `{HL : Loaders} (now : Z) (max_depth : nat).

Definition probe (ns : Namespace) (user_id : UUID) (agent_id : option UUID) : EvaluationContext :=
  mkEvaluationContext ns HELD_ACTIONS_PROBE (Some user_id) agent_id None.

(** The loop of [held_actions_on], left as soon as nothing survives. *)
Fixpoint held_loop (namespaces : list Namespace) (user_id : UUID) (agent_id : option UUID)
    (held : option (gset string)) (trails : list Trail)
  : M AclCache (result (gset string * list Trail) eval_error) :=
  match namespaces with
  | [] => retM (Ok (default ∅ held, trails))
  | ns :: rest =>
      let* r := evaluate_with_trail now max_depth (probe ns user_id agent_id) in
      match r with
      | Err e => retM (Err e)
      | Ok result =>
          let actions := er_effective_actions result in
          let held := match held with None => actions | Some h => h ∩ actions end in
          let trails := (trails ++ er_trails result ++ er_user_trails result ++ er_agent_trails result)%list in
          if set_falsy held then retM (Ok (held, trails)) else held_loop rest user_id agent_id (Some held) trails
      end
  end.

Definition held_actions_on (namespaces : list Namespace) (user_id : UUID) (agent_id : option UUID)
  : M AclCache (result (gset string * list Trail) eval_error) :=
  match namespaces with
  | [] => retM (Ok (∅, []))
  | _ => held_loop namespaces user_id agent_id None []
  end.

Variable find_by_type_and_customer : string -> UUID -> list Namespace.

(** [sorted(...)] of strings. *)
Definition sorted_str (l : list string) : list string := sort_by (fun s => (s, "")) l.

Fixpoint resolve_loop (resource_types : list string) (customer_id user_id : UUID) (agent_id : option UUID)
    (held : HeldPermissions) : M AclCache (result HeldPermissions eval_error) :=
  match resource_types with
  | [] => retM (Ok held)
  | resource_type :: rest =>
      if String.eqb resource_type WILDCARD_RESOURCE_TYPE then resolve_loop rest customer_id user_id agent_id held
      else
        let namespaces := find_by_type_and_customer resource_type customer_id in
        let* r := held_actions_on namespaces user_id agent_id in
        match r with
        | Err e => retM (Err e)
        | Ok (actions, resolved_trails) =>
            resolve_loop rest customer_id user_id agent_id
              (mkHeldPermissions (<[resource_type := actions]> (hp_actions_by_resource_type held))
                 (hp_trails held ++ resolved_trails) (hp_namespace_count held + length namespaces))
        end
  end.

Definition resolve_held_permissions (customer_id : UUID) (resource_types : list string) (user_id : UUID)
    (agent_id : option UUID) : M AclCache (result HeldPermissions eval_error) :=
  resolve_loop (sorted_str (elements (list_to_set resource_types : gset string))) customer_id user_id agent_id
    (mkHeldPermissions ∅ [] 0).
End Held.

(** The violations of one bucket. *)
Definition bucket_violations (held : HeldPermissions) (resource_type : string) (actions : list string)
  : list EscalationViolation :=
  match hp_actions_by_resource_type held !! resource_type with
  | None =>
      if String.eqb resource_type WILDCARD_RESOURCE_TYPE then [mkViolation resource_type None]
      else map (fun action => mkViolation resource_type (Some action)) (sorted_str actions)
  | Some held_actions =>
      map (fun action => mkViolation resource_type (Some action))
        (List.filter (fun action => negb (bool_decide (action ∈ held_actions))) (sorted_str actions))
  end.

Definition escalating_permissions (permissions : gmap string (list string)) (held : HeldPermissions)
  : list EscalationViolation :=
  flat_map (fun resource_type => bucket_violations held resource_type (default [] (permissions !! resource_type)))
    (sorted_str (elements (dom permissions))).

Definition enforce_within_held_permissions (permissions : gmap string (list string)) (held : HeldPermissions)
  : result unit PermissionEscalation :=
  match escalating_permissions permissions held with
  | [] => Ok tt
  | violations => Err (mkPermissionEscalation violations (hp_trails held))
  end.

(** ** What is refused *)

Lemma elem_of_sorted_str x l : x ∈ sorted_str l <-> x ∈ l.
Proof. apply elem_of_sort_by. Qed.

(** The pairs a check against [held] refuses. *)
Definition refused (permissions : gmap string (list string)) (held : HeldPermissions) (v : EscalationViolation) : Prop :=
  exists actions, permissions !! ev_resource_type v = Some actions
    /\ match ev_action v with
       | None => ev_resource_type v = WILDCARD_RESOURCE_TYPE /\ (hp_actions_by_resource_type held !! WILDCARD_RESOURCE_TYPE) = None
       | Some a => a ∈ actions /\ ~ (a ∈ default ∅ (hp_actions_by_resource_type held !! ev_resource_type v))
                   /\ (ev_resource_type v = WILDCARD_RESOURCE_TYPE -> is_Some (hp_actions_by_resource_type held !! WILDCARD_RESOURCE_TYPE))
       end.

Lemma elem_of_bucket_violations held rt actions v :
  v ∈ bucket_violations held rt actions <-> ev_resource_type v = rt
    /\ match ev_action v with
       | None => rt = WILDCARD_RESOURCE_TYPE /\ (hp_actions_by_resource_type held !! WILDCARD_RESOURCE_TYPE) = None
       | Some a => a ∈ actions /\ ~ (a ∈ default ∅ (hp_actions_by_resource_type held !! rt))
                   /\ (rt = WILDCARD_RESOURCE_TYPE -> is_Some (hp_actions_by_resource_type held !! WILDCARD_RESOURCE_TYPE))
       end.
Proof.
  unfold bucket_violations. destruct v as [t [a|]]; cbn [ev_resource_type ev_action].
  all: destruct (hp_actions_by_resource_type held !! rt) as [ha|] eqn:Hh; simpl.
  - rewrite list_elem_of_fmap. setoid_rewrite elem_of_list_filter_bool. setoid_rewrite elem_of_sorted_str.
    setoid_rewrite negb_true_iff. setoid_rewrite bool_decide_eq_false. split.
    + intros (x & [= -> ->] & Hx & Hn). split_and!; [done..|]. intros ->. rewrite Hh. eauto.
    + intros (-> & Ha & Hn & _). eauto.
  - destruct (String.eqb_spec rt WILDCARD_RESOURCE_TYPE) as [->|Hw].
    + rewrite list_elem_of_singleton. split; [by intros [= ]|]. intros (_ & _ & _ & H). rewrite Hh in H. by destruct (H eq_refl).
    + rewrite list_elem_of_fmap. setoid_rewrite elem_of_sorted_str. split.
      * intros (x & [= -> ->] & Hx). split_and!; [done..|set_solver|done].
      * intros (-> & Ha & _). eauto.
  - rewrite list_elem_of_fmap. split; [by intros (? & [=] & _)|]. intros (_ & -> & Hn). congruence.
  - destruct (String.eqb_spec rt WILDCARD_RESOURCE_TYPE) as [->|Hw].
    + rewrite list_elem_of_singleton. split; [by intros [= ->]|]. by intros [-> _].
    + rewrite list_elem_of_fmap. split; [by intros (? & [=] & _)|]. by intros (_ & ? & _).
Qed.

Lemma elem_of_escalating permissions held v : v ∈ escalating_permissions permissions held <-> refused permissions held v.
Proof.
  unfold escalating_permissions, refused. rewrite list_elem_of_In, in_flat_map. setoid_rewrite <- list_elem_of_In.
  setoid_rewrite elem_of_sorted_str. setoid_rewrite elem_of_elements. setoid_rewrite elem_of_dom.
  setoid_rewrite elem_of_bucket_violations. split.
  - intros (rt & [actions Hp] & <- & H). rewrite Hp in H. simpl in H. eauto.
  - intros (actions & Hp & H). exists (ev_resource_type v). rewrite Hp. simpl. eauto.
Qed.

(** The check reports exactly the pairs outside the ceiling, each under its own type, a wildcard bucket
    whole unless the ceiling has one, and passes exactly when there is none; a refusal carries every
    violation and the trails that show what the caller holds. *)
Theorem escalation_reported_exactly permissions held :
  (forall v, v ∈ escalating_permissions permissions held <-> refused permissions held v)
  /\ (enforce_within_held_permissions permissions held = Ok tt <-> forall v, ~ refused permissions held v)
  /\ (forall e, enforce_within_held_permissions permissions held = Err e ->
        pe_violations e = escalating_permissions permissions held /\ pe_violations e <> [] /\ pe_trails e = hp_trails held).
Proof.
  split_and!; [apply elem_of_escalating| |].
  - unfold enforce_within_held_permissions. setoid_rewrite <- elem_of_escalating.
    destruct (escalating_permissions permissions held) as [|v l]; [set_solver|]. split; [done|].
    intros H. destruct (H v). set_solver.
  - unfold enforce_within_held_permissions. intros e. destruct (escalating_permissions permissions held); [done|]. by intros [= <-].
Qed.

(** ** What is held *)

(** A question with a person on it has effective actions that do not depend on the action asked for. *)
Definition with_action (a : string) (ctx : EvaluationContext) : EvaluationContext :=
  mkEvaluationContext (ec_namespace ctx) a (ec_user_id ctx) (ec_agent_id ctx) (ec_group_id ctx).

Lemma spec_effective_action db max_depth ctx a :
  has_user ctx = true ->
  er_effective_actions (spec_answer db max_depth (with_action a ctx)) = er_effective_actions (spec_answer db max_depth ctx).
Proof.
  unfold has_user. intros Hu. unfold spec_answer, with_action, spec_user_groups, spec_agent_groups, spec_owner. simpl.
  unfold assemble_result. simpl. rewrite Hu. destruct (isSome (ec_agent_id ctx)); simpl; [|done].
  repeat case_match; simplify_eq; done.
Qed.

Lemma spec_decision_effective db max_depth ctx :
  er_decision (spec_answer db max_depth ctx) = true <-> ec_action ctx ∈ er_effective_actions (spec_answer db max_depth ctx).
Proof.
  unfold spec_answer, assemble_result. repeat case_match; simplify_eq; apply bool_decide_eq_true.
Qed.

Lemma probe_check ns u a : check_context (probe ns u a) = Ok tt.
Proof. done. Qed.

Lemma elem_of_probe db max_depth ns u ag a :
  a ∈ er_effective_actions (spec_answer db max_depth (probe ns u ag)) <-> allowed db max_depth (with_action a (probe ns u ag)).
Proof.
  rewrite <- (spec_answer_decision db max_depth (with_action a (probe ns u ag))) by done.
  by rewrite spec_decision_effective, (spec_effective_action db max_depth (probe ns u ag) a).
Qed.

Section HeldExact.
Context `{HL : Loaders} {db : AccessTables} `{HLL : !LoaderLaws db}.
Context (Hwf : tables_wf db) (canon : UUID -> Namespace) (now : Z) (max_depth : nat).
Context (u : UUID) (ag : option UUID).

Definition holds_on (ns : Namespace) (a : string) : Prop := allowed db max_depth (with_action a (probe ns u ag)).

Lemma held_loop_triple namespaces held trails :
  Forall (fun ns => canon (ns_id ns) = ns) namespaces ->
  triple (coherent canon db) (held_loop now max_depth namespaces u ag held trails)
    (fun r c => coherent canon db c /\ exists s ts, r = Ok (s, ts) /\ forall a,
       a ∈ s <-> match held with Some h => a ∈ h | None => namespaces <> [] end /\ Forall (fun ns => holds_on ns a) namespaces).
Proof using HLL Hwf.
  revert held trails. induction namespaces as [|ns rest IH]; intros held trails Hcan.
  - intros c Hc. split; [done|]. eexists _, _. split; [done|]. intros a.
    destruct held as [h|]; simpl; [by split; [intros ?; split|intros [? _]]|]. split; [set_solver|by intros [? _]].
  - inversion Hcan as [|? ? Hns Hrest]; subst. cbn [held_loop]. eapply triple_bind.
    { apply (evaluate_with_trail_triple Hwf canon now max_depth (probe ns u ag) (probe_check ns u ag)). unfold canonical. simpl. by rewrite Hns. }
    intros r. apply triple_pure. intros ->. cbv zeta. set (eff := er_effective_actions _).
    assert (Hin : forall a, a ∈ match held with None => eff | Some h => h ∩ eff end
              <-> match held with Some h => a ∈ h | None => True end /\ holds_on ns a).
    { intros a. unfold holds_on. rewrite <- elem_of_probe. fold eff. destruct held; set_solver. }
    set (held' := match held with None => eff | Some h => h ∩ eff end) in *.
    destruct (set_falsy held') eqn:Hf.
    + intros c Hc. split; [done|]. eexists _, _. split; [done|]. intros a. apply set_falsy_spec in Hf. rewrite Hf in Hin |- *.
      specialize (Hin a). split; [set_solver|]. intros [Hh Hall]. inversion Hall; subst. apply Hin. destruct held; naive_solver.
    + eapply triple_conseq; [apply (IH (Some held')); done|done|].
      intros r c (Hc & s & ts & -> & Hs). split; [done|]. eexists _, _. split; [done|]. intros a. rewrite Hs, Hin, Forall_cons.
      destruct held; naive_solver.
Qed.

Lemma held_actions_triple namespaces :
  Forall (fun ns => canon (ns_id ns) = ns) namespaces ->
  triple (coherent canon db) (held_actions_on now max_depth namespaces u ag)
    (fun r c => coherent canon db c /\ exists s ts, r = Ok (s, ts) /\ forall a,
       a ∈ s <-> namespaces <> [] /\ Forall (fun ns => holds_on ns a) namespaces).
Proof using HLL Hwf.
  intros Hcan. destruct namespaces as [|ns rest]; [|by apply held_loop_triple].
  intros c Hc. split; [done|]. eexists _, _. split; [done|]. intros a. split; [set_solver|by intros [? _]].
Qed.

Variable find : string -> UUID -> list Namespace.
Variable customer : UUID.
Hypothesis Hfind : forall rt, Forall (fun ns => canon (ns_id ns) = ns) (find rt customer).

(** What a ceiling says of one resource type. *)
Definition ceiling_ok (types : gset string) (held : HeldPermissions) : Prop :=
  forall rt, match hp_actions_by_resource_type held !! rt with
    | Some s => rt ∈ types /\ rt <> WILDCARD_RESOURCE_TYPE
                /\ forall a, a ∈ s <-> find rt customer <> [] /\ Forall (fun ns => holds_on ns a) (find rt customer)
    | None => rt ∉ types \/ rt = WILDCARD_RESOURCE_TYPE
    end.

Lemma resolve_loop_triple todo done_ held :
  ceiling_ok done_ held ->
  triple (coherent canon db) (resolve_loop now max_depth find todo customer u ag held)
    (fun r c => coherent canon db c /\ exists h, r = Ok h /\ ceiling_ok (done_ ∪ list_to_set todo) h).
Proof using HLL Hwf Hfind.
  revert done_ held. induction todo as [|rt todo IH]; intros done_ held Hd.
  - intros c Hc. split; [done|]. exists held. split; [done|]. simpl. by rewrite union_empty_r_L.
  - cbn [resolve_loop list_to_set]. destruct (String.eqb_spec rt WILDCARD_RESOURCE_TYPE) as [->|Hw].
    + eapply triple_conseq; [apply (IH ({[WILDCARD_RESOURCE_TYPE]} ∪ done_))|done|].
      * intros rt. specialize (Hd rt). destruct (_ !! rt).
        { destruct Hd as (H1 & H2 & H3). split_and!; [set_solver|done|done]. }
        destruct (decide (rt = WILDCARD_RESOURCE_TYPE)); [by right|]. left. set_solver.
      * intros r c (Hc & h & -> & Hh). split; [done|]. exists h. split; [done|]. by rewrite (union_comm_L _ done_), <- union_assoc_L in Hh.
    + eapply triple_bind; [by apply held_actions_triple|]. intros r c (Hc & s & ts & -> & Hs).
      destruct (IH ({[rt]} ∪ done_) (mkHeldPermissions (<[rt := s]> (hp_actions_by_resource_type held)) (hp_trails held ++ ts)
                  (hp_namespace_count held + length (find rt customer)))) with c as (Hc' & h & Hr & Hh); [|done|].
      { intros rt'. simpl. destruct (decide (rt' = rt)) as [->|Hne]; [rewrite lookup_insert_eq; split_and!; [set_solver|done|done]|].
        rewrite lookup_insert_ne by done. specialize (Hd rt'). destruct (_ !! rt').
        - destruct Hd as (H1 & H2 & H3). split_and!; [set_solver|done|done].
        - destruct Hd as [Hd|Hd]; [left; set_solver|by right]. }
      split; [done|]. exists h. split; [done|]. by rewrite (union_comm_L _ done_), <- union_assoc_L in Hh.
Qed.

Lemma resolve_held_triple types :
  triple (coherent canon db) (resolve_held_permissions now max_depth find customer types u ag)
    (fun r c => coherent canon db c /\ exists h, r = Ok h /\ ceiling_ok (list_to_set types) h).
Proof using HLL Hwf Hfind.
  eapply triple_conseq; [apply (resolve_loop_triple _ ∅)|done|].
  - intros rt. simpl. rewrite lookup_empty. set_solver.
  - intros r c (Hc & h & -> & Hh). split; [done|]. exists h. split; [done|].
    replace (list_to_set types) with (∅ ∪ list_to_set (sorted_str (elements (list_to_set types : gset string))) : gset string); [done|].
    apply set_eq. intros x. rewrite elem_of_union, !elem_of_list_to_set, elem_of_sorted_str, elem_of_elements. set_solver.
Qed.
End HeldExact.

(** A role as [Role] reads the map being written. *)
Definition role_of (permissions : gmap string (list string)) (r : Role) : Prop :=
  r_permissions r = list_to_set <$> permissions.

(** A collection that finds exactly the directory's namespaces of a type and customer. *)
Definition finds (directory : list Namespace) (find : string -> UUID -> list Namespace) : Prop :=
  forall rt customer ns, ns ∈ find rt customer <-> ns ∈ directory /\ ns_type ns = rt /\ ns_customer_id ns = Some customer.

Section Ceiling.
Context {db : AccessTables} (max_depth : nat) (u : UUID) (ag : option UUID).
Context (directory : list Namespace) (find : string -> UUID -> list Namespace) (customer : UUID).
Hypothesis Hfinds : finds directory find.

(** The author is allowed [a] on every namespace of the type the customer has, and it has one. *)
Definition held_across (rt : string) (a : string) : Prop :=
  (exists ns, ns ∈ directory /\ ns_type ns = rt /\ ns_customer_id ns = Some customer)
  /\ forall ns, ns ∈ directory -> ns_type ns = rt -> ns_customer_id ns = Some customer ->
       allowed db max_depth (mkEvaluationContext ns a (Some u) ag None).

Lemma found_iff rt a :
  find rt customer <> [] /\ Forall (fun ns => holds_on (db := db) max_depth u ag ns a) (find rt customer) <-> held_across rt a.
Proof using Hfinds.
  unfold held_across, holds_on, with_action. simpl. rewrite Forall_forall. split; intros [H1 H2]; split.
  - destruct (find rt customer) as [|ns l] eqn:Hf; [done|]. exists ns. apply Hfinds. rewrite Hf. set_solver.
  - intros ns Hns Ht Hc. apply H2, Hfinds. done.
  - destruct H1 as (ns & Hns%Hfinds). intros Hf. rewrite Hf in Hns. set_solver.
  - intros ns (Hns & Ht & Hc)%Hfinds. by apply H2.
Qed.

Lemma enforce_ceiling types permissions held :
  ceiling_ok (db := db) max_depth u ag find customer types held -> dom permissions ⊆ types ->
  enforce_within_held_permissions permissions held = Ok tt
  <-> permissions !! WILDCARD_RESOURCE_TYPE = None
      /\ forall rt actions a, permissions !! rt = Some actions -> a ∈ actions -> held_across rt a.
Proof using Hfinds.
  intros Hok Hdom. assert (Hen : enforce_within_held_permissions permissions held = Ok tt <-> forall v, ~ refused permissions held v).
  { unfold enforce_within_held_permissions. setoid_rewrite <- elem_of_escalating.
    destruct (escalating_permissions permissions held) as [|v l]; [set_solver|]. split; [done|]. intros H. destruct (H v). set_solver. }
  assert (Hwild : hp_actions_by_resource_type held !! WILDCARD_RESOURCE_TYPE = None).
  { specialize (Hok WILDCARD_RESOURCE_TYPE). destruct (_ !! _); [by destruct Hok as (_ & ? & _)|done]. }
  rewrite Hen. setoid_rewrite <- found_iff. split.
  - intros Hno. split.
    + destruct (permissions !! WILDCARD_RESOURCE_TYPE) as [l|] eqn:Hp; [|done].
      destruct (Hno (mkViolation WILDCARD_RESOURCE_TYPE None)). exists l. done.
    + intros rt actions a Hp Ha. specialize (Hok rt).
      assert (Hrt : rt ∈ types) by (apply Hdom, elem_of_dom; eauto).
      destruct (decide (rt = WILDCARD_RESOURCE_TYPE)) as [->|Hne].
      { destruct (Hno (mkViolation WILDCARD_RESOURCE_TYPE None)). exists actions. done. }
      destruct (hp_actions_by_resource_type held !! rt) as [hs|] eqn:Hh; [|by destruct Hok].
      apply Hok. destruct (decide (a ∈ hs)); [done|]. destruct (Hno (mkViolation rt (Some a))).
      exists actions. simpl. rewrite Hh. done.
  - intros [Hw Hall] [rt [a|]] (actions & Hp & H); simpl in *.
    + destruct H as (Ha & Hn & _). specialize (Hok rt). specialize (Hall rt actions a Hp Ha).
      assert (Hrt : rt ∈ types) by (apply Hdom, elem_of_dom; eauto).
      destruct (hp_actions_by_resource_type held !! rt) as [hs|]; [by apply Hn, Hok|]. destruct Hok as [?| ->]; [done|congruence].
    + destruct H as [-> _]. congruence.
Qed.
End Ceiling.

(** Authoring is refused exactly when the author would hand out more than they hold: the check on a
    role passes if and only if it has no wildcard bucket and its author is allowed each of its actions
    on every namespace of the type the customer has, and has at least one. *)
Theorem delegation_exact `{HL : Loaders} db `{HLL : !LoaderLaws db} canon now max_depth directory find customer u ag permissions c :
  tables_wf db -> coherent canon db c -> finds directory find -> Forall (fun ns => canon (ns_id ns) = ns) directory ->
  exists held, (resolve_held_permissions now max_depth find customer (elements (dom permissions)) u ag c).1 = Ok held
    /\ (enforce_within_held_permissions permissions held = Ok tt
        <-> permissions !! WILDCARD_RESOURCE_TYPE = None
            /\ forall rt actions a, permissions !! rt = Some actions -> a ∈ actions ->
                 held_across (db := db) max_depth u ag directory customer rt a).
Proof.
  intros Hwf Hc Hfinds Hcan.
  assert (Hf : forall rt, Forall (fun ns => canon (ns_id ns) = ns) (find rt customer)).
  { intros rt. rewrite Forall_forall in Hcan |- *. intros ns (Hns & _)%Hfinds. by apply Hcan. }
  destruct (resolve_held_triple Hwf canon now max_depth u ag find customer Hf (elements (dom permissions)) c Hc)
    as (_ & held & Hr & Hok).
  exists held. split; [done|]. eapply enforce_ceiling; [done|exact Hok|]. by rewrite list_to_set_elements_L.
Qed.

(** (C9) No escalation: whatever tables a role that passed the check is later bound in, on whichever
    namespace of the customer, to whichever group, what it contributes there its author was allowed
    there when they wrote it. *)
Theorem no_escalation `{HL : Loaders} db `{HLL : !LoaderLaws db} canon now max_depth directory find customer u ag types
    permissions c held r db' ns g t a :
  tables_wf db -> coherent canon db c -> finds directory find -> Forall (fun ns => canon (ns_id ns) = ns) directory ->
  (resolve_held_permissions now max_depth find customer types u ag c).1 = Ok held ->
  enforce_within_held_permissions permissions held = Ok tt -> role_of permissions r ->
  ns ∈ directory -> ns_customer_id ns = Some customer ->
  contributes db' ns g t -> t_role t = r -> a ∈ t_contributed_actions t ->
  allowed db max_depth (mkEvaluationContext ns a (Some u) ag None).
Proof.
  intros Hwf Hc Hfinds Hcan Hr Hen Hrole Hns Hcust Hcon Htr Ha.
  assert (Hf : forall rt, Forall (fun ns => canon (ns_id ns) = ns) (find rt customer)).
  { intros rt. rewrite Forall_forall in Hcan |- *. intros ns' (Hns' & _)%Hfinds. by apply Hcan. }
  destruct (resolve_held_triple Hwf canon now max_depth u ag find customer Hf types c Hc) as (_ & held' & Hr' & Hok).
  rewrite Hr in Hr'. injection Hr' as <-.
  assert (Hno : forall v, ~ refused permissions held v).
  { intros v. unfold enforce_within_held_permissions in Hen. rewrite <- elem_of_escalating.
    destruct (escalating_permissions permissions held); [set_solver|done]. }
  assert (Hwild : hp_actions_by_resource_type held !! WILDCARD_RESOURCE_TYPE = None).
  { specialize (Hok WILDCARD_RESOURCE_TYPE). destruct (_ !! _); [by destruct Hok as (_ & ? & _)|done]. }
  destruct Hcon as (_ & _ & _ & _ & _ & _ & _ & Hact). rewrite Hact, Htr in Ha. unfold actions_for in Ha. rewrite Hrole in Ha.
  rewrite !lookup_fmap in Ha.
  destruct (permissions !! WILDCARD_RESOURCE_TYPE) as [l|] eqn:Hpw.
  { destruct (Hno (mkViolation WILDCARD_RESOURCE_TYPE None)). exists l. done. }
  destruct (permissions !! ns_type ns) as [actions|] eqn:Hp; simpl in Ha; [|by rewrite union_empty_l_L, elem_of_empty in Ha].
  rewrite union_empty_r_L, elem_of_list_to_set in Ha. specialize (Hok (ns_type ns)). destruct (hp_actions_by_resource_type held !! ns_type ns) as [hs|] eqn:Hh.
  - destruct Hok as (_ & _ & Hs). destruct (decide (a ∈ hs)) as [Hin|Hnin].
    + apply Hs, (found_iff max_depth u ag directory find customer Hfinds) in Hin as [_ Hin]. by apply Hin.
    + destruct (Hno (mkViolation (ns_type ns) (Some a))). exists actions. simpl. rewrite Hh. split_and!; [done..|]. intros Hw. congruence.
  - destruct (Hno (mkViolation (ns_type ns) (Some a))). exists actions. simpl. rewrite Hh. simpl.
    split_and!; [done|done|apply not_elem_of_empty|]. intros Hw. congruence.
Qed.

(** ** Witnesses *)

Module DelegationSample.
Import Sample.

Definition directory : list Namespace := [sqlmap_ns].
Definition find (rt : string) (customer : UUID) : list Namespace :=
  List.filter (fun ns => bool_decide (ns_type ns = rt) && bool_decide (ns_customer_id ns = Some customer)) directory.

Lemma find_ok : finds directory find.
Proof.
  intros rt customer ns. unfold find. rewrite elem_of_list_filter_bool, andb_true_iff, !bool_decide_eq_true. tauto.
Qed.

Lemma directory_canonical : Forall (fun ns => canon (ns_id ns) = ns) directory.
Proof. repeat constructor. Qed.

(** What user 1 may and may not hand out. *)
Definition permissions : gmap string (list string) := {[ "tool" := ["execute"] ]}.
Example hands_out : match (resolve_held_permissions 0 3 find acme ["tool"] 1%N None AclCache_init).1 with
  | Ok held => enforce_within_held_permissions permissions held = Ok tt
      /\ map (fun v => (ev_resource_type v, ev_action v))
           (escalating_permissions {[ "tool" := ["write"; "execute"; "admin"]; "*" := ["read"]; "memory" := ["read"] ]} held)
         = [("*", None); ("memory", Some "read"); ("tool", Some "admin"); ("tool", Some "write")]
  | Err _ => False
  end.
Proof. vm_compute. split; reflexivity. Qed.

(** The role it writes, bound for the whole customer to a group of its own. *)
Definition role : Role := mkRole 40 "delegated" {[ "tool" := {["execute"]} ]} false (Some acme).
Definition bound : RoleAssignment := mkRoleAssignment 41 40 10 ScopeTypeCustomer None (Some "tool") (Some acme) None.
Definition later : AccessTables :=
  mkAccessTables (at_members db) (bound :: at_assignments db) (<[40%N := role]> (at_roles db)) (at_groups db).
Definition trail : Trail := mkTrail (mkGroup 10 "staff" (Some acme)) bound role {["execute"]}.
End DelegationSample.
Import Sample DelegationSample.

Lemma delegation_exact_witness :
  exists held, (resolve_held_permissions 0 3 find acme (elements (dom permissions)) 1%N None AclCache_init).1 = Ok held
    /\ (enforce_within_held_permissions permissions held = Ok tt
        <-> permissions !! WILDCARD_RESOURCE_TYPE = None
            /\ forall rt actions a, permissions !! rt = Some actions -> a ∈ actions ->
                 held_across (db := db) 3 1%N None directory acme rt a).
Proof.
  apply (delegation_exact db canon 0 3 directory find acme 1%N None permissions AclCache_init).
  - exact db_wf.
  - exact fresh_coherent.
  - exact find_ok.
  - exact directory_canonical.
Defined.

Lemma no_escalation_witness : allowed db 3 (mkEvaluationContext sqlmap_ns "execute" (Some 1%N) None None).
Proof.
  eapply (no_escalation db canon 0 3 directory find acme 1%N None ["tool"] permissions AclCache_init _ role later sqlmap_ns 10%N trail).
  - exact db_wf.
  - exact fresh_coherent.
  - exact find_ok.
  - exact directory_canonical.
  - vm_compute. reflexivity.
  - vm_compute. reflexivity.
  - reflexivity.
  - left.
  - reflexivity.
  - repeat split; reflexivity || left.
  - reflexivity.
  - apply (bool_decide_unpack _). vm_compute. exact I.
Defined.
