(* ===== verification/CircuitBreaker.v ===== *)
(** * Circuit breakers

    [src/packages/models/src/threetears/models/circuit_breaker.py] with the error classification of
    [errors.py] it calls: the three-state breaker (every method runs under the breaker's lock, so
    each is one function on its state), the LangChain callback that drives a provider's breaker and
    a model's rate-limit breaker, and the registry that creates, drops and reports breakers. Clock
    readings are integers of some fixed tick; a method that reads the clock more than once takes
    one argument per reading. *)

From Stdlib Require Import Ascii String Bool List NArith ZArith Lia.
From stdpp Require Import base list gmap strings.
From S2P Require Import Prelude.

Open Scope string_scope.
Open Scope Z_scope.

Inductive CircuitState := CLOSED | OPEN | HALF_OPEN.

#[export] Instance CircuitState_eq_dec : EqDecision CircuitState.
Proof. solve_decision. Defined.

(** ** One breaker *)

Record CircuitBreaker := mkCircuitBreaker {
  cb_provider_name : string;
  cb_credential_scoped : bool;
  cb_model_name : option string;
  cb_failure_threshold : Z;
  cb_recovery_timeout : Z;
  cb_probe_timeout : Z;
  cb_state : CircuitState;
  cb_failure_count : Z;
  cb_last_failure_time : Z;
  cb_last_activity : Z;
  cb_probe_in_flight : bool;
  cb_probe_started_at : Z;
}.

Record CircuitOpenError := mkCircuitOpenError {
  coe_provider_name : string;
  coe_remaining : Z;
  coe_credential_scoped : bool;
  coe_model_name : option string;
}.

Inductive config_error :=
| ProbeTimeoutNotPositive
| IdleSecondsNotPositive
| CapBelowOne.

(** [CircuitBreaker.__init__] at clock reading [t]. *)
Definition CircuitBreaker_init (provider_name : string) (failure_threshold recovery_timeout probe_timeout : Z)
    (credential_scoped : bool) (model_name : option string) (t : Z) : result CircuitBreaker config_error :=
  raise_if! (probe_timeout <=? 0) with ProbeTimeoutNotPositive ;;
  Ok (mkCircuitBreaker provider_name credential_scoped model_name failure_threshold recovery_timeout
        probe_timeout CLOSED 0 0 t false 0).

Definition with_state (s : CircuitState) (b : CircuitBreaker) : CircuitBreaker :=
  mkCircuitBreaker (cb_provider_name b) (cb_credential_scoped b) (cb_model_name b) (cb_failure_threshold b)
    (cb_recovery_timeout b) (cb_probe_timeout b) s (cb_failure_count b) (cb_last_failure_time b)
    (cb_last_activity b) (cb_probe_in_flight b) (cb_probe_started_at b).
Definition with_failures (n last : Z) (b : CircuitBreaker) : CircuitBreaker :=
  mkCircuitBreaker (cb_provider_name b) (cb_credential_scoped b) (cb_model_name b) (cb_failure_threshold b)
    (cb_recovery_timeout b) (cb_probe_timeout b) (cb_state b) n last
    (cb_last_activity b) (cb_probe_in_flight b) (cb_probe_started_at b).
Definition with_activity (t : Z) (b : CircuitBreaker) : CircuitBreaker :=
  mkCircuitBreaker (cb_provider_name b) (cb_credential_scoped b) (cb_model_name b) (cb_failure_threshold b)
    (cb_recovery_timeout b) (cb_probe_timeout b) (cb_state b) (cb_failure_count b) (cb_last_failure_time b)
    t (cb_probe_in_flight b) (cb_probe_started_at b).
Definition with_probe (in_flight : bool) (started : Z) (b : CircuitBreaker) : CircuitBreaker :=
  mkCircuitBreaker (cb_provider_name b) (cb_credential_scoped b) (cb_model_name b) (cb_failure_threshold b)
    (cb_recovery_timeout b) (cb_probe_timeout b) (cb_state b) (cb_failure_count b) (cb_last_failure_time b)
    (cb_last_activity b) in_flight started.

(** [CircuitBreaker.restore]: [t0] is the constructor's reading, [t1] its own. *)
Definition restore (provider_name : string) (state : CircuitState) (failure_count until_probe : Z)
    (failure_threshold recovery_timeout probe_timeout : Z) (credential_scoped : bool) (t0 t1 : Z)
  : result CircuitBreaker config_error :=
  do! breaker <- CircuitBreaker_init provider_name failure_threshold recovery_timeout probe_timeout
                   credential_scoped None t0 ;;
  Ok (with_failures (Z.max 0 failure_count) (t1 - recovery_timeout + Z.max 0 until_probe)
        (with_state state breaker)).

Definition open_error (b : CircuitBreaker) (remaining : Z) : CircuitOpenError :=
  mkCircuitOpenError (cb_provider_name b) remaining (cb_credential_scoped b) (cb_model_name b).

(** [CircuitBreaker.check], with its three clock readings in order. *)
Definition check (t0 t1 t2 : Z) : M CircuitBreaker (result unit CircuitOpenError) := fun b =>
  let b := with_activity t0 b in
  match cb_state b with
  | CLOSED => (Ok tt, b)
  | HALF_OPEN =>
      let probe_age := t1 - cb_probe_started_at b in
      if cb_probe_in_flight b && (probe_age <? cb_probe_timeout b)
      then (Err (open_error b (cb_probe_timeout b - probe_age)), b)
      else (Ok tt, with_probe true t2 b)
  | OPEN =>
      let elapsed := t1 - cb_last_failure_time b in
      if cb_recovery_timeout b <=? elapsed
      then (Ok tt, with_probe true t2 (with_state HALF_OPEN b))
      else (Err (open_error b (cb_recovery_timeout b - elapsed)), b)
  end.

(** [_close_after_probe_locked]. *)
Definition close_after_probe (b : CircuitBreaker) : CircuitBreaker :=
  with_probe false (cb_probe_started_at b) (with_failures 0 (cb_last_failure_time b) (with_state CLOSED b)).

Definition record_success (t : Z) (b : CircuitBreaker) : CircuitBreaker :=
  let b := with_activity t b in
  match cb_state b with
  | HALF_OPEN => close_after_probe b
  | CLOSED => with_failures 0 (cb_last_failure_time b) b
  | OPEN => b
  end.

Definition record_failure (t : Z) (b : CircuitBreaker) : CircuitBreaker :=
  let b := with_activity t (with_failures (cb_failure_count b + 1) t b) in
  match cb_state b with
  | HALF_OPEN => with_probe false (cb_probe_started_at b) (with_state OPEN b)
  | CLOSED => if cb_failure_threshold b <=? cb_failure_count b then with_state OPEN b else b
  | OPEN => b
  end.

Definition record_probe_answered (t : Z) (b : CircuitBreaker) : CircuitBreaker :=
  let b := with_activity t b in
  match cb_state b with HALF_OPEN => close_after_probe b | _ => b end.

Definition release_probe (b : CircuitBreaker) : CircuitBreaker :=
  match cb_state b with HALF_OPEN => with_probe false (cb_probe_started_at b) b | _ => b end.

Definition reset (t : Z) (b : CircuitBreaker) : CircuitBreaker :=
  with_probe false (cb_probe_started_at b)
    (with_failures 0 (cb_last_failure_time b) (with_state CLOSED (with_activity t b))).

(** ** What an exception says about the provider *)

(** What the classification reads of an exception: its classes, its [status_code] when that is an
    integer, whether its [response] is not [None], and its text. *)
Record model_exception := mkModelException {
  me_is_exception : bool;
  me_circuit_open : bool;
  me_model_rate_limit : bool;
  me_model_provider_error : bool;
  me_value_error : bool;
  me_status_code : option Z;
  me_response : bool;
  me_text : string;
}.

(** [p in s] for strings. *)
Fixpoint str_in (p s : string) : bool :=
  starts_with p s || match s with EmptyString => false | String _ s' => str_in p s' end.

Definition is_openrouter_stream_error (e : model_exception) : bool := me_value_error e && str_in "OpenRouter API" (me_text e).

Definition is_rate_limit (e : model_exception) : bool :=
  if me_model_rate_limit e || bool_decide (me_status_code e = Some 429) then true
  else is_openrouter_stream_error e && str_in "(code: 429)" (me_text e).

Definition is_provider_answer (e : model_exception) : bool :=
  me_model_provider_error e || isSome (me_status_code e) || me_response e || is_openrouter_stream_error e.

(** ** The callback: the provider's breaker, and the model's own for its rate limits *)

Record Callback := mkCallback {
  cl_breaker : CircuitBreaker;
  cl_rate_limit : option CircuitBreaker;
}.

(** [CircuitBreakerCallback._check], which [on_llm_start] and [on_chat_model_start] call. *)
Definition callback_check (t0 t1 t2 u0 u1 u2 : Z) : M Callback (result unit CircuitOpenError) := fun c =>
  let '(r, b) := check t0 t1 t2 (cl_breaker c) in
  match r with
  | Err e => (Err e, mkCallback b (cl_rate_limit c))
  | Ok _ =>
      match cl_rate_limit c with
      | None => (Ok tt, mkCallback b None)
      | Some rl =>
          let '(r2, rl') := check u0 u1 u2 rl in
          match r2 with
          | Err e => (Err e, mkCallback (release_probe b) (Some rl'))
          | Ok _ => (Ok tt, mkCallback b (Some rl'))
          end
      end
  end.

Definition on_llm_end (t u : Z) (c : Callback) : Callback :=
  mkCallback (record_success t (cl_breaker c)) (record_success u <$> cl_rate_limit c).

Definition on_llm_error (t u : Z) (e : model_exception) (c : Callback) : Callback :=
  if me_circuit_open e then c
  else if negb (me_is_exception e) then
    mkCallback (release_probe (cl_breaker c)) (release_probe <$> cl_rate_limit c)
  else match cl_rate_limit c with
  | Some rl =>
      if is_rate_limit e then mkCallback (record_probe_answered u (cl_breaker c)) (Some (record_failure t rl))
      else mkCallback (record_failure t (cl_breaker c))
             (Some (if is_provider_answer e then record_probe_answered u rl else release_probe rl))
  | None => mkCallback (record_failure t (cl_breaker c)) None
  end.

(** ** Runs of one breaker *)

(** The calls any number of threads make, in the order the lock grants them. *)
Inductive breaker_op :=
| OpCheck (t0 t1 t2 : Z)
| OpSuccess (t : Z)
| OpFailure (t : Z)
| OpAnswered (t : Z)
| OpRelease
| OpReset (t : Z).

(** One call; a check says whether it admitted the request. *)
Definition step_op (op : breaker_op) (b : CircuitBreaker) : list bool * CircuitBreaker :=
  match op with
  | OpCheck t0 t1 t2 => let '(r, b') := check t0 t1 t2 b in ([match r with Ok _ => true | Err _ => false end], b')
  | OpSuccess t => ([], record_success t b)
  | OpFailure t => ([], record_failure t b)
  | OpAnswered t => ([], record_probe_answered t b)
  | OpRelease => ([], release_probe b)
  | OpReset t => ([], reset t b)
  end.

(** The verdicts of the checks of a run, and the breaker it ends in. *)
Fixpoint run (ops : list breaker_op) (b : CircuitBreaker) : list bool * CircuitBreaker :=
  match ops with
  | [] => ([], b)
  | op :: rest =>
      let '(v, b1) := step_op op b in
      let '(vs, b2) := run rest b1 in
      ((v ++ vs)%list, b2)
  end.

Lemma run_app ops1 ops2 b :
  run (ops1 ++ ops2) b = (((run ops1 b).1 ++ (run ops2 (run ops1 b).2).1)%list, (run ops2 (run ops1 b).2).2).
Proof.
  revert b. induction ops1 as [|op ops1 IH]; intros b; simpl; [by destruct (run ops2 b)|].
  destruct (step_op op b) as [v b1]. rewrite IH. destruct (run ops1 b1) as [vs b2]. simpl. by rewrite <- app_assoc.
Qed.

(** The failures that trip a breaker: at least one. *)
Definition trip_at (b : CircuitBreaker) : Z := Z.max 1 (cb_failure_threshold b).

Record breaker_wf (b : CircuitBreaker) : Prop := {
  bw_probe_timeout : 0 < cb_probe_timeout b;
  bw_count : 0 <= cb_failure_count b;
  bw_probe : cb_probe_in_flight b = true -> cb_state b = HALF_OPEN;
  bw_closed : cb_state b = CLOSED -> cb_failure_count b < trip_at b;
  bw_tripped : cb_state b <> CLOSED -> 1 <= cb_failure_count b;
}.

(** Unfolds one call on a breaker whose state is known, and splits every test. *)
Ltac breaker_step :=
  unfold check, record_success, record_failure, record_probe_answered, release_probe, reset,
    close_after_probe, trip_at in *; simpl in *;
  repeat (case_match; simplify_eq/=);
  repeat match goal with
    | H : (_ && _) = true |- _ => apply andb_true_iff in H as [? ?]
    | H : (_ <=? _) = true |- _ => apply Z.leb_le in H
    | H : (_ <=? _) = false |- _ => apply Z.leb_gt in H
    | H : (_ <? _) = true |- _ => apply Z.ltb_lt in H
    | H : (_ <? _) = false |- _ => apply Z.ltb_ge in H
    end.

Lemma step_op_wf op b : breaker_wf b -> breaker_wf (step_op op b).2.
Proof.
  intros [H1 H2 H3 H4 H5]. destruct b as [pn cs mn ft rt pt st fc lf la pf ps]. simpl in *.
  destruct op, st; simpl in *; breaker_step; split; unfold trip_at; simpl in *; try done; try lia; try (by intros; auto);
    try (by specialize (H4 eq_refl); lia); try (by specialize (H5 ltac:(done)); lia);
    try (by intros Hp; specialize (H3 Hp)).
Qed.

Lemma run_wf ops b : breaker_wf b -> breaker_wf (run ops b).2.
Proof.
  revert b. induction ops as [|op ops IH]; intros b Hb; simpl; [done|].
  pose proof (step_op_wf op b Hb) as Hs. destruct (step_op op b) as [v b1]. simpl in *.
  specialize (IH b1 Hs). by destruct (run ops b1).
Qed.

Lemma init_wf pn ft rt pt cs mn t b : CircuitBreaker_init pn ft rt pt cs mn t = Ok b -> breaker_wf b.
Proof.
  unfold CircuitBreaker_init. destruct (Z.leb_spec pt 0); simpl; [done|]. intros [= <-].
  split; unfold trip_at; simpl; try done; lia.
Qed.

(** Every breaker the constructor builds stays consistent through any sequence of calls: a probe
    is out only in HALF_OPEN, a CLOSED breaker is below its threshold, a tripped one has failed. *)
Theorem breaker_stays_wf pn ft rt pt cs mn t b ops :
  CircuitBreaker_init pn ft rt pt cs mn t = Ok b -> breaker_wf (run ops b).2.
Proof. intros H. by eapply run_wf, init_wf. Qed.

(** *** Tripping *)

Definition is_failure (op : breaker_op) : bool := match op with OpFailure _ => true | _ => false end.
(** The calls that clear a CLOSED breaker's count. *)
Definition clears (op : breaker_op) : bool := match op with OpSuccess _ | OpReset _ => true | _ => false end.
Definition failures (ops : list breaker_op) : Z := Z.of_nat (length (List.filter is_failure ops)).

(** A CLOSED breaker below its threshold, with [n] failures counted. *)
Definition closed_at (n : Z) (b : CircuitBreaker) : Prop := cb_state b = CLOSED /\ cb_failure_count b = n.

Lemma step_closed op b n :
  clears op = false -> closed_at n b -> 0 <= n -> n + failures [op] < trip_at b ->
  closed_at (n + failures [op]) (step_op op b).2 /\ Forall (eq true) (step_op op b).1
  /\ trip_at (step_op op b).2 = trip_at b.
Proof.
  intros Hc [Hs Hn] H0 Hlt. destruct b as [pn cs mn ft rt pt st fc lf la pf ps]. simpl in *. subst.
  unfold failures in *. destruct op; simpl in *; try done; unfold closed_at; breaker_step;
    (split_and!; [done|lia|by repeat constructor|done]) || lia.
Qed.

Lemma run_closed ops b n :
  forallb (fun op => negb (clears op)) ops = true -> closed_at n b -> 0 <= n -> n + failures ops < trip_at b ->
  closed_at (n + failures ops) (run ops b).2 /\ Forall (eq true) (run ops b).1 /\ trip_at (run ops b).2 = trip_at b.
Proof.
  revert b n. induction ops as [|op ops IH]; intros b n; simpl.
  { intros _ Hb _ _. unfold failures. simpl. rewrite Z.add_0_r. by repeat split; try apply Hb. }
  intros [Hc%negb_true_iff Hops]%andb_true_iff Hb H0 Hlt.
  assert (Hf : failures (op :: ops) = failures [op] + failures ops).
  { unfold failures. simpl. destruct (is_failure op); simpl; lia. }
  assert (0 <= failures [op] /\ 0 <= failures ops) by (unfold failures; lia).
  destruct (step_closed op b n Hc Hb H0) as (H1 & H2 & H3); [lia|].
  destruct (step_op op b) as [v b1]. simpl in *. destruct (IH b1 (n + failures [op]) Hops H1) as (H4 & H5 & H6); [lia..|].
  destruct (run ops b1) as [vs b2]. simpl in *. rewrite Hf, Z.add_assoc. split_and!; [done|by apply Forall_app|congruence].
Qed.

(** A breaker trips on the failure that reaches its threshold and on no earlier one, counting only
    failures since the last success or reset: below it every request is admitted and the state is
    CLOSED whatever else is reported, and the failure that reaches it opens the breaker with its own
    time as the start of the recovery window. *)
Theorem trips_at_threshold ops b n t :
  forallb (fun op => negb (clears op)) ops = true -> closed_at n b -> 0 <= n ->
  (n + failures ops < trip_at b ->
     cb_state (run ops b).2 = CLOSED /\ Forall (eq true) (run ops b).1)
  /\ (n + failures ops + 1 = trip_at b ->
     let b' := (run (ops ++ [OpFailure t]) b).2 in
     cb_state b' = OPEN /\ cb_failure_count b' = trip_at b /\ cb_last_failure_time b' = t).
Proof.
  intros Hops Hb H0. split.
  - intros Hlt. destruct (run_closed ops b n Hops Hb H0 Hlt) as ([H1 _] & H2 & _). done.
  - intros He. destruct (run_closed ops b n Hops Hb H0 ltac:(lia)) as ([H1 H2] & _ & H3). rewrite run_app.
    destruct (run ops b) as [vs b1]. simpl in *. unfold record_failure. simpl. rewrite H1.
    unfold trip_at in *. destruct (Z.leb_spec (cb_failure_threshold b1) (cb_failure_count b1 + 1)); simpl; [|lia].
    split_and!; [done|lia|done].
Qed.

(** *** The recovery window *)

(** A call that falls inside the recovery window and reports no failure or reset. *)
Definition in_window (b : CircuitBreaker) (op : breaker_op) : bool :=
  match op with
  | OpCheck _ t1 _ => t1 <? cb_last_failure_time b + cb_recovery_timeout b
  | OpSuccess _ | OpAnswered _ | OpRelease => true
  | OpFailure _ | OpReset _ => false
  end.

Definition same_window (b b' : CircuitBreaker) : Prop :=
  cb_state b' = OPEN /\ cb_last_failure_time b' = cb_last_failure_time b
  /\ cb_recovery_timeout b' = cb_recovery_timeout b.

Lemma step_in_window op b :
  cb_state b = OPEN -> in_window b op = true -> same_window b (step_op op b).2 /\ Forall (eq false) (step_op op b).1.
Proof.
  intros Hs Hw. destruct b as [pn cs mn ft rt pt st fc lf la pf ps]. simpl in *. subst.
  destruct op; simpl in *; try done; unfold same_window; breaker_step; try lia; by repeat constructor.
Qed.

Lemma run_in_window ops b :
  cb_state b = OPEN -> forallb (in_window b) ops = true -> same_window b (run ops b).2 /\ Forall (eq false) (run ops b).1.
Proof.
  revert b. induction ops as [|op ops IH]; intros b Hs; simpl; [by repeat split|].
  intros [Ho Hops]%andb_true_iff. destruct (step_in_window op b Hs Ho) as [(H1 & H2 & H3) Hv].
  destruct (step_op op b) as [v b1]. simpl in *. destruct (IH b1 H1) as [(H4 & H5 & H6) Hvs].
  { apply forallb_forall. intros op' Hin. apply (proj1 (forallb_forall _ _) Hops) in Hin.
    destruct op'; simpl in *; by rewrite ?H2, ?H3. }
  destruct (run ops b1) as [vs b2]. simpl in *. split; [|by apply Forall_app]. split_and!; congruence.
Qed.

(** An OPEN breaker refuses every request of its recovery window, whatever successes, answers and
    releases arrive, and the first request after it is the probe: admitted, the breaker HALF_OPEN,
    the probe's start its own reading. A refusal says how much of the window is left. *)
Theorem open_window_exact ops b t0 t1 t2 :
  cb_state b = OPEN -> forallb (in_window b) ops = true ->
  let b' := (run ops b).2 in
  let close := cb_last_failure_time b + cb_recovery_timeout b in
  Forall (eq false) (run ops b).1
  /\ (t1 < close -> exists e, check t0 t1 t2 b' = (Err e, with_activity t0 b') /\ coe_remaining e = close - t1)
  /\ (close <= t1 -> exists b'', check t0 t1 t2 b' = (Ok tt, b'') /\ cb_state b'' = HALF_OPEN
       /\ cb_probe_in_flight b'' = true /\ cb_probe_started_at b'' = t2).
Proof.
  intros Hs Hops b' close. destruct (run_in_window ops b Hs Hops) as [(H1 & H2 & H3) Hv]. split; [done|].
  fold b' in H1, H2, H3. unfold check. cbn [with_activity cb_state]. rewrite H1.
  cbn [with_activity cb_last_failure_time cb_recovery_timeout]. rewrite H2, H3. subst close. split; intros Ht.
  - destruct (Z.leb_spec (cb_recovery_timeout b) (t1 - cb_last_failure_time b)); [lia|].
    eexists. split; [reflexivity|]. simpl. lia.
  - destruct (Z.leb_spec (cb_recovery_timeout b) (t1 - cb_last_failure_time b)); [|lia]. by eexists.
Qed.

(** *** One probe at a time *)

(** The readings of a check fall in the probe-timeout window that starts at [T]; the other calls may come at any time. *)
Definition check_within (T pt : Z) (op : breaker_op) : bool :=
  match op with
  | OpCheck _ t1 t2 => (T <=? t2) && (t1 <? T + pt)
  | _ => true
  end.

Definition admitted (vs : list bool) : nat := length (List.filter (fun v => v) vs).

(** The breaker does not close: no call of the run leaves it CLOSED. *)
Fixpoint stays_tripped (ops : list breaker_op) (b : CircuitBreaker) : bool :=
  negb (bool_decide (cb_state b = CLOSED)) && match ops with [] => true | op :: rest => stays_tripped rest (step_op op b).2 end.

(** The calls of a run that ended a probe, failed or released. *)
Fixpoint probes_ended (ops : list breaker_op) (b : CircuitBreaker) : nat :=
  match ops with
  | [] => 0
  | op :: rest => ((if cb_probe_in_flight b && negb (cb_probe_in_flight (step_op op b).2) then 1 else 0) + probes_ended rest (step_op op b).2)%nat
  end.

(** A probe is out since [T] or later. *)
Definition probe_out (T : Z) (b : CircuitBreaker) : Prop := cb_state b = HALF_OPEN /\ cb_probe_in_flight b = true /\ T <= cb_probe_started_at b.

(** One call of a tripped breaker in the window: a check that is refused changes nothing of the probe, one that is admitted sends it out, and admits only where
    none is out; any other call keeps the probe out or ends it. *)
Lemma tripped_step T op b : cb_state b <> CLOSED -> cb_state (step_op op b).2 <> CLOSED -> check_within T (cb_probe_timeout b) op = true ->
  cb_probe_timeout (step_op op b).2 = cb_probe_timeout b
  /\ (((step_op op b).1 = [true] /\ probe_out T (step_op op b).2 /\ ~ probe_out T b)
      \/ (admitted (step_op op b).1 = 0%nat /\ (probe_out T b -> probe_out T (step_op op b).2 \/ cb_probe_in_flight (step_op op b).2 = false))).
Proof.
  intros Hs Hs' Hop. destruct b as [pn cs mn ft rt pt st fc lf la pf ps]. unfold probe_out. simpl in *.
  destruct op as [t0 t1 t2|t|t|t| |t]; simpl in *.
  - apply andb_true_iff in Hop as [HT%Z.leb_le H1%Z.ltb_lt]. unfold check in *. simpl in *. destruct st; [done| |].
    + destruct (rt <=? t1 - lf); simpl; (split; [done|]); [left; split_and!; [done|done|done|done|intros [[=] _]]|right; split; [done|intros [[=] _]]].
    + destruct pf; simpl; [destruct (Z.ltb_spec (t1 - ps) pt) as [Hlt|Hge]|]; simpl; (split; [done|]).
      * right. split; [done|]. intros (_ & _ & HTps). left. by split_and!.
      * left. split_and!; [done|done|done|done|]. intros (_ & _ & HTps). lia.
      * left. split_and!; [done|done|done|done|]. intros (_ & [=] & _).
  - split; [by destruct st|]. right. split; [done|]. destruct st; [done|intros [[=] _]|by destruct Hs'].
  - split; [by destruct st; simpl; repeat case_match|]. right. split; [done|]. intros (-> & -> & _). by right.
  - split; [by destruct st|]. right. split; [done|]. destruct st; [done|intros [[=] _]|by destruct Hs'].
  - split; [by destruct st|]. right. split; [done|]. intros (-> & -> & _). by right.
  - done.
Qed.

Lemma admitted_app v vs : admitted (v ++ vs) = (admitted v + admitted vs)%nat.
Proof. unfold admitted. by rewrite List.filter_app, length_app. Qed.

Lemma run_admits T ops b : stays_tripped ops b = true -> forallb (check_within T (cb_probe_timeout b)) ops = true ->
  (admitted (run ops b).1 <= S (probes_ended ops b))%nat /\ (probe_out T b -> admitted (run ops b).1 <= probes_ended ops b)%nat.
Proof.
  revert b. induction ops as [|op ops IH]; intros b; [split; cbn; lia|]. cbn [stays_tripped forallb].
  intros [Hs Ht]%andb_true_iff [Ho Hops]%andb_true_iff. apply negb_true_iff, bool_decide_eq_false in Hs.
  assert (Hs' : cb_state (step_op op b).2 <> CLOSED) by (destruct ops; cbn in Ht; apply andb_true_iff in Ht as [Ht _]; by apply negb_true_iff, bool_decide_eq_false in Ht).
  destruct (tripped_step T op b Hs Hs' Ho) as [Hpt Hcase]. rewrite <- Hpt in Hops. specialize (IH _ Ht Hops).
  cbn [probes_ended run]. destruct (step_op op b) as [v b1]. cbn [fst snd] in *. destruct (run ops b1) as [vs b2]. cbn [fst snd] in *. rewrite admitted_app.
  destruct Hcase as [(-> & Hout & Hno)|[Hv Hkeep]].
  - destruct IH as [_ IH]. specialize (IH Hout). split; [cbn; lia|done].
  - rewrite Hv. destruct IH as [IH1 IH2]. split; [lia|]. intros Hout. destruct (Hkeep Hout) as [Hout'|Hended]; [specialize (IH2 Hout'); lia|].
    destruct Hout as (_ & -> & _). rewrite Hended. cbn. lia.
Qed.

(** (C31) A breaker that stays tripped lets through, in any window shorter than the probe timeout, at most one request more than the probes that were ended in it, failed or
    released, however many threads ask and report and whether or not the recovery wait ends inside it: at most one if no probe is ended. *)
Theorem at_most_one_probe T ops b :
  stays_tripped ops b = true -> forallb (check_within T (cb_probe_timeout b)) ops = true ->
  (admitted (run ops b).1 <= 1 + probes_ended ops b)%nat.
Proof. intros Ht Hops. by apply (run_admits T). Qed.

(** A lost probe never wedges a breaker: once the probe timeout has passed, the next request is
    admitted in its place. *)
Theorem lost_probe_is_replaced b t0 t1 t2 :
  cb_state b = HALF_OPEN -> cb_probe_started_at b + cb_probe_timeout b <= t1 ->
  exists b', check t0 t1 t2 b = (Ok tt, b') /\ cb_state b' = HALF_OPEN /\ cb_probe_in_flight b' = true
    /\ cb_probe_started_at b' = t2.
Proof.
  intros Hs Ht. unfold check. cbn [with_activity cb_state]. rewrite Hs.
  cbn [with_activity cb_probe_started_at cb_probe_timeout cb_probe_in_flight].
  destruct (Z.ltb_spec (t1 - cb_probe_started_at b) (cb_probe_timeout b)); [lia|]. rewrite andb_false_r.
  eexists. split; [reflexivity|]. by rewrite <- Hs.
Qed.

(** *** A breaker rebuilt from a durable row *)

(** A restored OPEN breaker admits its probe exactly when the persisted remaining time has passed
    since it was restored, and at once when none remained; its count is the persisted one, never
    negative, and no probe is taken to be out. *)
Theorem restore_resumes_window pn count until ft rt pt cs r0 r1 b t0 t1 t2 :
  restore pn OPEN count until ft rt pt cs r0 r1 = Ok b ->
  cb_failure_count b = Z.max 0 count /\ cb_probe_in_flight b = false
  /\ ((exists b', check t0 t1 t2 b = (Ok tt, b')) <-> Z.max 0 until <= t1 - r1).
Proof.
  unfold restore, CircuitBreaker_init. destruct (pt <=? 0); simpl; [done|]. intros [= <-]. simpl.
  split; [done|]. split; [done|]. unfold check. simpl.
  destruct (Z.leb_spec rt (t1 - (r1 - rt + Z.max 0 until))); (split; [intros [b' Hb']|intros Hle]).
  - lia.
  - by eexists.
  - done.
  - lia.
Qed.

(** ** The callback *)

Definition callback_wf (c : Callback) : Prop :=
  breaker_wf (cl_breaker c) /\ forall rl, cl_rate_limit c = Some rl -> breaker_wf rl.

(** Nothing the callback's request holds is left with a breaker. *)
Definition no_probe_out (c : Callback) : Prop :=
  cb_probe_in_flight (cl_breaker c) = false
  /\ forall rl, cl_rate_limit c = Some rl -> cb_probe_in_flight rl = false.

Lemma outcome_ends_probe b t :
  breaker_wf b ->
  cb_probe_in_flight (record_success t b) = false /\ cb_probe_in_flight (record_failure t b) = false
  /\ cb_probe_in_flight (record_probe_answered t b) = false /\ cb_probe_in_flight (release_probe b) = false.
Proof.
  intros [_ _ Hp _ _]. destruct b as [pn cs mn ft rt pt st fc lf la pf ps]. simpl in *.
  destruct pf; [specialize (Hp eq_refl); subst|destruct st]; breaker_step; done.
Qed.

(** However a model call ends (a success, a rate limit, any other error, a cancellation), the
    callback leaves no probe out on either breaker, so neither can be held HALF_OPEN by a call that
    reported back; and a call the callback refused to send leaves no probe behind that the refusing
    breaker did not already have out for another call. *)
Theorem callback_ends_every_probe c t u e :
  callback_wf c -> me_circuit_open e = false ->
  no_probe_out (on_llm_end t u c) /\ no_probe_out (on_llm_error t u e c)
  /\ (forall t0 t1 t2 u0 u1 u2 err c', callback_check t0 t1 t2 u0 u1 u2 c = (Err err, c') ->
        cb_probe_in_flight (cl_breaker c') = true -> cb_probe_in_flight (cl_breaker c) = true).
Proof.
  intros [Hb Hr] He. destruct c as [b rl]. simpl in *. split_and!.
  - split; simpl; [by apply outcome_ends_probe|]. intros rl' H. destruct rl as [r|]; [|done].
    injection H as <-. apply outcome_ends_probe; auto.
  - unfold on_llm_error. rewrite He. simpl. destruct (me_is_exception e); simpl.
    2: { split; simpl; [by apply outcome_ends_probe|]. intros rl' H. destruct rl as [r|]; [|done].
         injection H as <-. apply (outcome_ends_probe r 0); auto. }
    destruct rl as [r|]; simpl; [|by split; simpl; [apply outcome_ends_probe|]].
    assert (Hwr : breaker_wf r) by auto.
    destruct (is_rate_limit e); simpl; (split; simpl; [by apply outcome_ends_probe|]); intros rl' [= <-];
      [by apply outcome_ends_probe|].
    destruct (is_provider_answer e); by apply (outcome_ends_probe r u).
  - intros t0 t1 t2 u0 u1 u2 err c'. unfold callback_check. simpl.
    pose proof (step_op_wf (OpCheck t0 t1 t2) b Hb) as Hw. simpl in Hw.
    destruct (check t0 t1 t2 b) as [[[]|e1] b1] eqn:Hc; simpl in *.
    + destruct rl as [r|]; [|done]. destruct (check u0 u1 u2 r) as [[[]|e2] r1]; [done|]. intros [= _ <-]. simpl.
      by rewrite (proj2 (proj2 (proj2 (outcome_ends_probe b1 0 Hw)))).
    + intros [= _ <-]. simpl. destruct b as [pn cs mn ft rt pt st fc lf la pf ps]. unfold check in Hc. simpl in Hc.
      destruct st; repeat case_match; simplify_eq/=; done.
Qed.

(** What is counted: [b'] has counted no failure more than [b] and is not newly OPEN. *)
Definition not_blamed (b b' : CircuitBreaker) : Prop :=
  (cb_failure_count b' = cb_failure_count b \/ cb_failure_count b' = 0)
  /\ (cb_state b' = OPEN -> cb_state b = OPEN) /\ cb_last_failure_time b' = cb_last_failure_time b.

Lemma answered_not_blamed t b : not_blamed b (record_probe_answered t b).
Proof. destruct b as [pn cs mn ft rt pt st fc lf la pf ps]. unfold not_blamed. destruct st; breaker_step; split_and!; (done || auto). Qed.

Lemma released_not_blamed b : not_blamed b (release_probe b).
Proof. destruct b as [pn cs mn ft rt pt st fc lf la pf ps]. unfold not_blamed. destruct st; breaker_step; split_and!; (done || auto). Qed.

(** Blame goes to one breaker: a rate limit counts against the model's own breaker and never the
    provider's, any other error against the provider's and never the model's, and a cancellation
    or the breaker's own refusal against neither. *)
Theorem callback_blames_one c rl t u e :
  cl_rate_limit c = Some rl ->
  let c' := on_llm_error t u e c in
  exists rl', cl_rate_limit c' = Some rl'
    /\ (is_rate_limit e = true \/ me_is_exception e = false \/ me_circuit_open e = true -> not_blamed (cl_breaker c) (cl_breaker c'))
    /\ (is_rate_limit e = false \/ me_is_exception e = false \/ me_circuit_open e = true -> not_blamed rl rl')
    /\ (is_rate_limit e = true -> me_is_exception e = true -> me_circuit_open e = false ->
          cb_failure_count rl' = cb_failure_count rl + 1)
    /\ (is_rate_limit e = false -> me_is_exception e = true -> me_circuit_open e = false ->
          cb_failure_count (cl_breaker c') = cb_failure_count (cl_breaker c) + 1).
Proof.
  intros Hrl. destruct c as [b r]. simpl in *. subst r. unfold on_llm_error. simpl.
  assert (Hself : forall x, not_blamed x x) by (intros x; split; auto).
  assert (Hfail : forall x, cb_failure_count (record_failure t x) = cb_failure_count x + 1).
  { intros [? ? ? ? ? ? st ? ? ? ? ?]. destruct st; breaker_step; lia. }
  pose proof answered_not_blamed. pose proof released_not_blamed.
  destruct (me_circuit_open e); [by exists rl; simpl; split_and!|]. destruct (me_is_exception e); simpl.
  - destruct (is_rate_limit e); simpl; eexists; (split; [reflexivity|]); split_and!; try done; auto;
      try (by intros [?|[?|?]]). intros _. destruct (is_provider_answer e); auto.
  - eexists. split; [reflexivity|]. split_and!; auto; done.
Qed.

(** [release_probe] does not know whose probe it ends: a request admitted before the breaker
    tripped and cancelled after hands back another request's probe, and a second probe goes out while
    the first is still out. *)
Theorem cancelled_bystander_frees_a_probe :
  let cancelled := mkModelException false false false false false None false "" in
  let b0 := mkCircuitBreaker "openrouter" false None 1 30 300 CLOSED 0 0 0 false 0 in
  let '(bystander, b1) := step_op (OpCheck 1 1 1) b0 in
  let b2 := record_failure 2 b1 in
  let '(probe, b3) := step_op (OpCheck 40 40 40) b2 in
  let '(refused, b4) := step_op (OpCheck 41 41 41) b3 in
  let b5 := cl_breaker (on_llm_error 42 42 cancelled (mkCallback b4 None)) in
  let '(second, b6) := step_op (OpCheck 43 43 43) b5 in
  (bystander, probe, refused, second) = ([true], [true], [false], [true])
  /\ cb_state b6 = HALF_OPEN /\ cb_probe_started_at b6 - cb_probe_started_at b3 < cb_probe_timeout b6.
Proof. vm_compute. repeat split. Qed.

(** ** The registry *)

Module Registry.

(** [(provider_name, credential fingerprint or None, model or None)]. *)
Abbreviation key := (string * option string * option string)%type (only parsing).

(** [_breakers] is an [OrderedDict], least recently asked-for first. *)
Record CircuitBreakerRegistry := mkRegistry {
  rg_failure_threshold : Z;
  rg_recovery_timeout : Z;
  rg_probe_timeout : Z;
  rg_credential_idle : Z;
  rg_max_credential_breakers : Z;
  rg_breakers : list (key * CircuitBreaker);
  rg_last_get : gmap key Z;
  rg_providers : gset string;
}.

Definition registry_init (failure_threshold recovery_timeout probe_timeout credential_idle max_credential_breakers : Z)
  : result CircuitBreakerRegistry config_error :=
  raise_if! (credential_idle <=? 0) with IdleSecondsNotPositive ;;
  raise_if! (max_credential_breakers <? 1) with CapBelowOne ;;
  Ok (mkRegistry failure_threshold recovery_timeout probe_timeout credential_idle max_credential_breakers [] ∅ ∅).

Definition with_breakers (bs : list (key * CircuitBreaker)) (lg : gmap key Z) (r : CircuitBreakerRegistry) :=
  mkRegistry (rg_failure_threshold r) (rg_recovery_timeout r) (rg_probe_timeout r) (rg_credential_idle r)
    (rg_max_credential_breakers r) bs lg (rg_providers r).

(** [_droppable]. *)
Definition droppable (k : key) : bool := isSome k.1.2 || isSome k.2.

(** [OrderedDict.pop(key, None)]. *)
Definition od_pop (k : key) (d : list (key * CircuitBreaker)) : list (key * CircuitBreaker) :=
  List.filter (fun kb => negb (bool_decide (kb.1 = k))) d.

(** [_drop_locked]. *)
Definition drop_locked (k : key) (r : CircuitBreakerRegistry) : CircuitBreakerRegistry :=
  with_breakers (od_pop k (rg_breakers r)) (delete k (rg_last_get r)) r.

(** [last_used]: the CLOSED droppable breakers with the later of their last get and last activity. *)
Definition last_used (r : CircuitBreakerRegistry) : list (key * Z) :=
  omap (fun '(k, b) =>
    if droppable k && bool_decide (cb_state b = CLOSED)
    then Some (k, Z.max (default 0 (rg_last_get r !! k)) (cb_last_activity b)) else None)
    (rg_breakers r).

Definition credential_count (r : CircuitBreakerRegistry) : Z :=
  Z.of_nat (length (List.filter (fun kb => droppable kb.1) (rg_breakers r))).

(** [sorted(..., key=lambda k: last_used[k])], stable. *)
Fixpoint insert_used (x : key * Z) (l : list (key * Z)) : list (key * Z) :=
  match l with
  | [] => [x]
  | y :: l' => if x.2 <=? y.2 then x :: y :: l' else y :: insert_used x l'
  end.
Definition sort_used (l : list (key * Z)) : list (key * Z) := foldr insert_used [] l.

(** The loop that drops the least recently used until the count is below the cap. *)
Fixpoint drop_lru (keys : list (key * Z)) (count : Z) (r : CircuitBreakerRegistry) : Z * CircuitBreakerRegistry :=
  match keys with
  | [] => (count, r)
  | (k, _) :: rest =>
      if count <? rg_max_credential_breakers r then (count, r)
      else drop_lru rest (count - 1) (drop_locked k r)
  end.

Definition has_key (r : CircuitBreakerRegistry) (k : key) : bool := isSome (od_get k (rg_breakers r)).

(** [_evict_credential_breakers_locked]; the flag is the warning that the cap is exceeded. *)
Definition evict_credential_breakers (now : Z) (r : CircuitBreakerRegistry) : bool * CircuitBreakerRegistry :=
  let used := last_used r in
  let r1 := fold_left (fun r ku => if rg_credential_idle r <=? now - ku.2 then drop_locked ku.1 r else r) used r in
  let '(count, r2) := drop_lru (sort_used (List.filter (fun ku => has_key r1 ku.1) used)) (credential_count r1) r1 in
  (rg_max_credential_breakers r2 <=? count, r2).

Section Get.
(** [hashlib.blake2b] keyed with the registry's own key. *)
Variable fingerprint : string -> string.

(** [CircuitBreakerRegistry.get]: [now] is its own reading, [t] the new breaker's. *)
Definition get (provider_name : string) (credential model : option string) (now t : Z)
  : M CircuitBreakerRegistry (result CircuitBreaker config_error) := fun r =>
  let k := (provider_name, fingerprint <$> credential, model) in
  let touch (b : CircuitBreaker) (r : CircuitBreakerRegistry) :=
    (Ok b, with_breakers (od_pop k (rg_breakers r) ++ [(k, b)])%list (<[k := now]> (rg_last_get r)) r) in
  match od_get k (rg_breakers r) with
  | Some b => touch b r
  | None =>
      let r := if droppable k then (evict_credential_breakers now r).2 else r in
      match CircuitBreaker_init provider_name (rg_failure_threshold r) (rg_recovery_timeout r) (rg_probe_timeout r)
              (isSome k.1.2) model t with
      | Err e => (Err e, r)
      | Ok b =>
          touch b (mkRegistry (rg_failure_threshold r) (rg_recovery_timeout r) (rg_probe_timeout r)
                     (rg_credential_idle r) (rg_max_credential_breakers r) (rg_breakers r ++ [(k, b)])%list
                     (rg_last_get r) ({[provider_name]} ∪ rg_providers r))
      end
  end.

(** [CircuitBreakerRegistry.reset]. *)
Definition reset_provider (provider_name : string) (credential : option string) (t : Z)
    (r : CircuitBreakerRegistry) : CircuitBreakerRegistry :=
  with_breakers
    (map (fun '(k, b) =>
       if String.eqb k.1.1 provider_name
          && (negb (isSome credential) || bool_decide (k.1.2 = fingerprint <$> credential))
       then (k, reset t b) else (k, b)) (rg_breakers r))
    (rg_last_get r) r.
End Get.

(** What a caller holding the breaker of [k] does to it. *)
Definition act (k : key) (f : CircuitBreaker -> CircuitBreaker) (r : CircuitBreakerRegistry) : CircuitBreakerRegistry :=
  with_breakers (map (fun '(k', b) => if bool_decide (k' = k) then (k', f b) else (k', b)) (rg_breakers r)) (rg_last_get r) r.

Definition severity (s : CircuitState) : Z := match s with CLOSED => 0 | HALF_OPEN => 1 | OPEN => 2 end.

(** The worst state per name, over a result that may already hold one. *)
Definition worst (acc : gmap string CircuitState) (ns : string * CircuitState) : gmap string CircuitState :=
  match acc !! ns.1 with
  | None => <[ns.1 := ns.2]> acc
  | Some current => if severity current <? severity ns.2 then <[ns.1 := ns.2]> acc else acc
  end.

(** [status]. *)
Definition status (r : CircuitBreakerRegistry) : gmap string CircuitState :=
  let snapshot := omap (fun '((name, _, model), b) => if isSome model then None else Some (name, cb_state b))
                    (rg_breakers r) in
  fold_left worst snapshot (gset_to_gmap CLOSED (rg_providers r)).

(** [model_status]. *)
Definition model_status (r : CircuitBreakerRegistry) : gmap string CircuitState :=
  let snapshot := omap (fun '((name, _, model), b) =>
      match model with
      | Some m => if bool_decide (cb_state b = CLOSED) then None else Some (name ++ "/" ++ m, cb_state b)
      | None => None
      end) (rg_breakers r) in
  fold_left worst snapshot ∅.

(** *** Eviction *)

Definition keys_ok (r : CircuitBreakerRegistry) : Prop := NoDup (rg_breakers r).*1.

Lemma elem_of_od_pop k k' b d : (k', b) ∈ od_pop k d <-> (k', b) ∈ d /\ k' <> k.
Proof.
  unfold od_pop. rewrite !list_elem_of_In, filter_In. simpl. by rewrite negb_true_iff, bool_decide_eq_false.
Qed.

Lemma od_pop_keys k d : NoDup d.*1 -> NoDup (od_pop k d).*1 /\ forall k', k' ∈ (od_pop k d).*1 <-> k' ∈ d.*1 /\ k' <> k.
Proof.
  assert (Hk : forall k', k' ∈ (od_pop k d).*1 <-> k' ∈ d.*1 /\ k' <> k).
  { intros k'. rewrite !list_elem_of_fmap. split.
    - intros ([k0 b] & -> & [H1 H2]%elem_of_od_pop). eauto.
    - intros [([k0 b] & -> & H1) H2]. exists (k0, b). by rewrite elem_of_od_pop. }
  intros Hd. split; [|done]. clear Hk. induction d as [|[k0 b] d IH]; [constructor|]. simpl in *.
  apply NoDup_cons in Hd as [H1 H2]. case_bool_decide; simpl; [by apply IH|]. constructor; [|by apply IH].
  intros ([k1 b1] & -> & [H3 _]%elem_of_od_pop)%list_elem_of_fmap. apply H1, list_elem_of_fmap. by exists (k1, b1).
Qed.

Lemma od_pop_absent k d : k ∉ d.*1 -> od_pop k d = d.
Proof.
  induction d as [|[k1 b1] d IH]; [done|]. simpl. intros Hn. rewrite bool_decide_false by set_solver. simpl.
  by rewrite IH by set_solver.
Qed.

Lemma od_pop_perm k b d : NoDup d.*1 -> od_get k d = Some b -> (od_pop k d ++ [(k, b)])%list ≡ₚ d.
Proof.
  induction d as [|[k0 b0] d IH]; simpl; [done|]. intros [H1 H2]%NoDup_cons. case_decide as Hd.
  - intros [= ->]. subst. rewrite bool_decide_true by done. simpl. rewrite od_pop_absent by done.
    symmetry. apply Permutation_cons_append.
  - intros Hg. rewrite bool_decide_false by done. simpl. constructor. by apply IH.
Qed.

Lemma drop_locked_count k r :
  keys_ok r -> k ∈ (rg_breakers r).*1 -> droppable k = true ->
  credential_count (drop_locked k r) = credential_count r - 1.
Proof.
  unfold keys_ok, credential_count, drop_locked. simpl. induction (rg_breakers r) as [|[k0 b] d IH]; simpl; [set_solver|].
  intros [H1 H2]%NoDup_cons [->|Hin]%elem_of_cons Hk.
  - rewrite bool_decide_true by done. simpl. rewrite Hk. simpl.
    rewrite od_pop_absent by done. lia.
  - rewrite bool_decide_false by (intros ->; done). simpl. specialize (IH H2 Hin Hk). destruct (droppable k0); simpl; lia.
Qed.

(** Dropping from [r] may only remove breakers whose key is in [ks]. *)
Record drops (ks : list key) (r r' : CircuitBreakerRegistry) : Prop := {
  dr_keys : keys_ok r -> keys_ok r';
  dr_sub : forall k b, (k, b) ∈ rg_breakers r' -> (k, b) ∈ rg_breakers r;
  dr_keep : forall k b, (k, b) ∈ rg_breakers r -> k ∉ ks -> (k, b) ∈ rg_breakers r';
  dr_cap : rg_max_credential_breakers r' = rg_max_credential_breakers r;
  dr_probe : rg_probe_timeout r' = rg_probe_timeout r;
}.

Lemma drops_refl ks r : drops ks r r.
Proof. by split. Qed.

Lemma drops_trans ks r1 r2 r3 : drops ks r1 r2 -> drops ks r2 r3 -> drops ks r1 r3.
Proof. intros [] []. split; eauto; congruence. Qed.

Lemma drop_locked_drops k ks r : k ∈ ks -> drops ks r (drop_locked k r).
Proof.
  intros Hk. split; simpl; [by apply od_pop_keys| | |done|done].
  - by intros k' b [? _]%elem_of_od_pop.
  - intros k' b Hin Hn. apply elem_of_od_pop. split; [done|]. by intros ->.
Qed.

Lemma idle_drops now ks l r :
  (forall ku, ku ∈ l -> ku.1 ∈ ks) ->
  drops ks r (fold_left (fun r ku => if rg_credential_idle r <=? now - ku.2 then drop_locked ku.1 r else r) l r).
Proof.
  revert r. induction l as [|ku l IH]; intros r Hl; simpl; [apply drops_refl|].
  eapply drops_trans; [|apply IH; set_solver]. case_match; [|apply drops_refl]. apply drop_locked_drops. set_solver.
Qed.

Lemma drop_lru_spec ks l r :
  (forall ku, ku ∈ l -> ku.1 ∈ ks /\ droppable ku.1 = true /\ ku.1 ∈ (rg_breakers r).*1) -> NoDup l.*1 -> keys_ok r ->
  let '(count, r') := drop_lru l (credential_count r) r in
  drops ks r r' /\ count = credential_count r'
  /\ (count < rg_max_credential_breakers r \/ forall ku b, ku ∈ l -> (ku.1, b) ∉ rg_breakers r').
Proof.
  revert r. induction l as [|[k u] l IH]; intros r Hl Hnd Hok; simpl.
  { split_and!; [apply drops_refl|done|right; intros ?? H; by apply not_elem_of_nil in H]. }
  destruct (Z.ltb_spec (credential_count r) (rg_max_credential_breakers r)); [by split_and!; [apply drops_refl| |left]|].
  destruct (Hl (k, u)) as (H1 & H2 & H3); [set_solver|]. simpl in *. apply NoDup_cons in Hnd as [Hk Hnd].
  rewrite <- (drop_locked_count k r Hok H3 H2).
  assert (Hd : drops ks r (drop_locked k r)) by by apply drop_locked_drops.
  specialize (IH (drop_locked k r)). destruct (drop_lru l _ _) as [count r'].
  destruct IH as (H4 & H5 & H6); [|done|by apply (dr_keys _ _ _ Hd)|].
  - intros [k' u'] Hin. destruct (Hl (k', u')) as (? & ? & ?); [set_solver|]. split_and!; [done..|]. simpl.
    apply od_pop_keys; [done|]. split; [done|]. intros <-. apply Hk, list_elem_of_fmap. by exists (k', u').
  - split_and!; [by eapply drops_trans|done|]. destruct H6 as [?|H6]; [by left|]. right.
    intros ku b [->|Hin]%elem_of_cons; [|by apply H6]. simpl.
    intros Hin. apply (dr_sub _ _ _ H4) in Hin. apply elem_of_od_pop in Hin as [_ Hin]. done.
Qed.

Lemma insert_used_perm x l : insert_used x l ≡ₚ x :: l.
Proof. induction l as [|y l IH]; simpl; [done|]. case_match; [done|]. rewrite IH. by apply perm_swap. Qed.

Lemma sort_used_perm l : sort_used l ≡ₚ l.
Proof. induction l as [|x l IH]; simpl; [done|]. by rewrite insert_used_perm, IH. Qed.

Lemma elem_of_last_used r k u :
  (k, u) ∈ last_used r -> exists b, (k, b) ∈ rg_breakers r /\ droppable k = true /\ cb_state b = CLOSED.
Proof.
  unfold last_used. rewrite list_elem_of_omap. intros ([k' b] & Hin & H). destruct (_ && _) eqn:E; [|done].
  injection H as <- <-. apply andb_true_iff in E as [H1 H2%bool_decide_eq_true]. eauto.
Qed.

Lemma last_used_complete r k b :
  (k, b) ∈ rg_breakers r -> droppable k = true -> cb_state b = CLOSED -> k ∈ (last_used r).*1.
Proof.
  intros Hin Hd Hs. apply list_elem_of_fmap. eexists (k, _). split; [done|]. unfold last_used. apply list_elem_of_omap.
  exists (k, b). split; [done|]. by rewrite Hd, bool_decide_true.
Qed.

Lemma last_used_NoDup r : keys_ok r -> NoDup (last_used r).*1.
Proof.
  unfold keys_ok, last_used. induction (rg_breakers r) as [|[k b] d IH]; simpl; [constructor|].
  intros [H1 H2]%NoDup_cons. destruct (droppable k && bool_decide (cb_state b = CLOSED)); simpl; [|auto].
  constructor; [|auto]. intros ([k' u] & -> & ([k0 b0] & Hin & Heq)%list_elem_of_omap)%list_elem_of_fmap. case_match; [|done]. simplify_eq/=.
  apply H1, list_elem_of_fmap. by eexists (_, b0).
Qed.

Lemma has_key_elem r k : has_key r k = true -> k ∈ (rg_breakers r).*1.
Proof.
  unfold has_key. induction (rg_breakers r) as [|[k0 b] d IH]; simpl; [done|].
  case_decide; [subst; set_solver|]. intros ?%IH. set_solver.
Qed.

Lemma has_key_true r k b : (k, b) ∈ rg_breakers r -> has_key r k = true.
Proof.
  unfold has_key. induction (rg_breakers r) as [|[k0 b0] d IH]; simpl; [set_solver|].
  intros [[= -> ->]|Hin]%elem_of_cons; [by rewrite decide_True|]. case_decide; [done|auto].
Qed.

Lemma filter_keys_NoDup {A B} (f : A * B -> bool) (d : list (A * B)) : NoDup d.*1 -> NoDup (List.filter f d).*1.
Proof.
  induction d as [|x d IH]; simpl; [constructor|]. intros [H1 H2]%NoDup_cons. case_match; simpl; [|by apply IH].
  constructor; [|by apply IH]. intros (y & Hy & Hin)%list_elem_of_fmap. apply H1, list_elem_of_fmap. exists y.
  split; [done|]. apply list_elem_of_In in Hin. apply filter_In in Hin as [Hin _]. by apply list_elem_of_In.
Qed.

Lemma evict_spec now r :
  keys_ok r ->
  let '(warned, r') := evict_credential_breakers now r in
  drops (last_used r).*1 r r'
  /\ (credential_count r' < rg_max_credential_breakers r
      \/ forall k b, (k, b) ∈ rg_breakers r' -> droppable k = true -> cb_state b <> CLOSED)
  /\ (warned = true <-> rg_max_credential_breakers r <= credential_count r').
Proof.
  intros Hok. unfold evict_credential_breakers. set (ks := (last_used r).*1).
  assert (Hks : forall ku, ku ∈ last_used r -> ku.1 ∈ ks) by (intros ku Hin; apply list_elem_of_fmap; eauto).
  pose proof (idle_drops now ks (last_used r) r Hks) as Hd1.
  set (r1 := fold_left _ (last_used r) r) in *. set (l := sort_used _).
  assert (Hl : forall ku, ku ∈ l <-> ku ∈ last_used r /\ has_key r1 ku.1 = true).
  { intros ku. subst l. rewrite sort_used_perm, !list_elem_of_In, filter_In. done. }
  assert (Hnd : NoDup l.*1).
  { subst l. rewrite sort_used_perm. by apply filter_keys_NoDup, last_used_NoDup. }
  pose proof (drop_lru_spec ks l r1) as Hlru. destruct (drop_lru l (credential_count r1) r1) as [count r2].
  destruct Hlru as (Hd2 & -> & Hcap); [|done|by apply (dr_keys _ _ _ Hd1)|].
  { intros [k u] [Hu Hk]%Hl. split; [by apply (Hks (k, u))|]. destruct (elem_of_last_used _ _ _ Hu) as (b & _ & Hdr & _).
    split; [done|]. by apply has_key_elem. }
  rewrite (dr_cap _ _ _ Hd1) in Hcap. split_and!.
  - by eapply drops_trans.
  - destruct Hcap as [?|Hgone]; [by left|right]. intros k b Hin Hdr Hs.
    assert (Hin1 := dr_sub _ _ _ Hd2 _ _ Hin). assert (Hin0 := dr_sub _ _ _ Hd1 _ _ Hin1).
    apply last_used_complete in Hin0 as ([k' u] & -> & Hu)%list_elem_of_fmap; [|done..]. simpl in *.
    apply (Hgone (k', u) b); [|done]. apply Hl. split; [done|]. by eapply has_key_true.
  - rewrite (dr_cap _ _ _ Hd2), (dr_cap _ _ _ Hd1). apply Z.leb_le.
Qed.

(** Making room never forgets a tripped credential: an eviction only removes breakers, keeps every
    provider's own and every tripped one, and ends below the cap unless all that is left to drop is
    tripped, which is when it warns. *)
Theorem eviction_keeps_tripped now r :
  keys_ok r ->
  let '(warned, r') := evict_credential_breakers now r in
  (forall k b, (k, b) ∈ rg_breakers r' -> (k, b) ∈ rg_breakers r)
  /\ (forall k b, (k, b) ∈ rg_breakers r -> droppable k = false \/ cb_state b <> CLOSED -> (k, b) ∈ rg_breakers r')
  /\ (credential_count r' < rg_max_credential_breakers r
      \/ forall k b, (k, b) ∈ rg_breakers r' -> droppable k = true -> cb_state b <> CLOSED)
  /\ (warned = true <-> rg_max_credential_breakers r <= credential_count r').
Proof.
  intros Hok. pose proof (evict_spec now r Hok) as H. destruct (evict_credential_breakers now r) as [w r'].
  destruct H as (Hd & Hcap & Hw). split_and!; [apply (dr_sub _ _ _ Hd)| |done|done].
  intros k b Hin Hk. apply (dr_keep _ _ _ Hd); [done|]. intros ([k' u] & -> & Hu)%list_elem_of_fmap. simpl in *.
  destruct (elem_of_last_used _ _ _ Hu) as (b' & Hin' & Hdr & Hs).
  assert (b' = b) as ->; [|by destruct Hk; congruence].
  apply (od_get_Some k' b' _ Hok) in Hin'. apply (od_get_Some k' b _ Hok) in Hin. congruence.
Qed.

Section GetFacts.
Variable fingerprint : string -> string.

Lemma od_get_app_last (k : key) (b : CircuitBreaker) d : k ∉ d.*1 -> od_get k (d ++ [(k, b)])%list = Some b.
Proof.
  induction d as [|[k0 b0] d IH]; simpl; [by rewrite decide_True|]. intros Hn.
  rewrite decide_False by set_solver. apply IH. set_solver.
Qed.

Lemma touch_keys (k : key) (b : CircuitBreaker) d :
  NoDup d.*1 -> NoDup (od_pop k d ++ [(k, b)])%list.*1 /\ k ∉ (od_pop k d).*1.
Proof.
  intros Hd. destruct (od_pop_keys k d Hd) as [H1 H2]. assert (Hn : k ∉ (od_pop k d).*1) by (rewrite H2; naive_solver).
  split; [|done]. rewrite fmap_app. simpl. apply NoDup_app. split_and!; [done| |repeat constructor; set_solver].
  intros x Hx ->%list_elem_of_singleton. done.
Qed.

(** [get] is a lookup: a key it knows is answered with the breaker it has, unchanged and without
    evicting anything; a key it has not seen gets a fresh CLOSED breaker, and asking again gives that
    one. Keys stay distinct throughout. *)
Theorem get_is_stable provider credential model now t r :
  keys_ok r -> 0 < rg_probe_timeout r ->
  exists b r', get fingerprint provider credential model now t r = (Ok b, r') /\ keys_ok r'
    /\ (let k := (provider, fingerprint <$> credential, model) in
        od_get k (rg_breakers r') = Some b
        /\ (forall b0, od_get k (rg_breakers r) = Some b0 -> b = b0 /\ rg_breakers r' ≡ₚ rg_breakers r)
        /\ (od_get k (rg_breakers r) = None -> cb_state b = CLOSED /\ cb_failure_count b = 0)
        /\ forall now' t', (get fingerprint provider credential model now' t' r').1 = Ok b).
Proof.
  intros Hok Hpt. unfold get. set (k := (provider, fingerprint <$> credential, model)).
  destruct (od_get k (rg_breakers r)) as [b|] eqn:Hk.
  - eexists b, _. split; [reflexivity|]. destruct (touch_keys k b _ Hok) as [Hn Hnk]. split; [exact Hn|]. simpl.
    rewrite od_get_app_last by done. split_and!; [done| |done|done]. intros b0 [= <-]. split; [done|].
    by apply od_pop_perm.
  - set (r1 := if droppable k then _ else r).
    assert (Hr1 : drops (last_used r).*1 r r1).
    { subst r1. pose proof (evict_spec now r Hok) as H. destruct (evict_credential_breakers now r) as [w r'].
      destruct (droppable k); [apply H|apply drops_refl]. }
    assert (Hok1 : keys_ok r1) by by apply (dr_keys _ _ _ Hr1).
    assert (Hnk : k ∉ (rg_breakers r1).*1).
    { intros ([k' b'] & Heq & Hin)%list_elem_of_fmap. simpl in Heq. subst k'. apply (dr_sub _ _ _ Hr1) in Hin.
      apply (od_get_Some k b' _ Hok) in Hin. congruence. }
    unfold CircuitBreaker_init. rewrite (dr_probe _ _ _ Hr1). destruct (Z.leb_spec (rg_probe_timeout r) 0); [lia|]. simpl.
    eexists _, _. split; [reflexivity|]. unfold keys_ok. simpl.
    match goal with |- context [(k, ?bb)] => set (b := bb) end.
    assert (Hp : od_pop k (rg_breakers r1 ++ [(k, b)]) = rg_breakers r1).
    { unfold od_pop. rewrite List.filter_app. simpl. rewrite bool_decide_true by done. simpl. rewrite app_nil_r.
      by apply od_pop_absent. }
    rewrite Hp, od_get_app_last by done. split.
    + rewrite <- (od_pop_absent k (rg_breakers r1) Hnk). by apply touch_keys.
    + by split_and!.
Qed.
End GetFacts.

(** *** Reporting *)

Lemma worst_step acc ns name :
  exists s, worst acc ns !! ns.1 = Some s /\ severity ns.2 <= severity s
    /\ (forall s0, acc !! ns.1 = Some s0 -> severity s0 <= severity s)
    /\ (acc !! ns.1 = Some s \/ s = ns.2)
    /\ (name <> ns.1 -> worst acc ns !! name = acc !! name).
Proof.
  unfold worst. destruct (acc !! ns.1) as [cur|] eqn:Hc.
  - destruct (Z.ltb_spec (severity cur) (severity ns.2)).
    + exists ns.2. rewrite lookup_insert_eq. split_and!; [done|lia|intros s0 [= <-]; lia|by right|].
      intros Hne. by rewrite lookup_insert_ne.
    + exists cur. split_and!; [done|lia|intros s0 [= <-]; lia|by left|done].
  - exists ns.2. rewrite lookup_insert_eq. split_and!; [done|lia|done|by right|].
    intros Hne. by rewrite lookup_insert_ne.
Qed.

Lemma worst_fold l acc name :
  (is_Some (acc !! name) \/ exists s', (name, s') ∈ l) ->
  exists s, fold_left worst l acc !! name = Some s
    /\ (forall s', (name, s') ∈ l -> severity s' <= severity s)
    /\ (forall s0, acc !! name = Some s0 -> severity s0 <= severity s)
    /\ (acc !! name = Some s \/ (name, s) ∈ l).
Proof.
  revert acc. induction l as [|[n v] l IH]; intros acc Hex; simpl.
  { destruct Hex as [[s Hs]|[s' Hn]]; [|by apply not_elem_of_nil in Hn]. exists s. split_and!; [done|set_solver| |by left].
    intros s0. rewrite Hs. intros [= <-]. lia. }
  destruct (worst_step acc (n, v) name) as (s1 & H1 & H2 & H3 & H4 & H5). simpl in *.
  destruct (decide (name = n)) as [->|Hne].
  - destruct (IH (worst acc (n, v))) as (s & G1 & G2 & G3 & G4); [left; by eexists|]. exists s.
    specialize (G3 _ H1). split_and!; [done| | |].
    + intros s' [[= ->]|Hin]%elem_of_cons; [lia|auto].
    + intros s0 Hs0%H3. lia.
    + rewrite H1 in G4. destruct G4 as [[= ->]|Hin]; [|right; set_solver]. destruct H4 as [?|?]; [by left|subst; right; set_solver].
  - specialize (H5 Hne). destruct (IH (worst acc (n, v))) as (s & G1 & G2 & G3 & G4).
    { rewrite H5. destruct Hex as [?|[s' [[= -> ->]|Hin]%elem_of_cons]]; [by left|done|right; eauto]. }
    rewrite H5 in G3, G4. exists s. split_and!; [done| |done|].
    + intros s' [[= -> ->]|Hin]%elem_of_cons; [done|auto].
    + destruct G4 as [?|?]; [by left|right; set_solver].
Qed.

(** [status] reports every provider ever asked for, one state each: the worst of that provider's
    own breakers (a model's rate limit is not the provider's state), CLOSED when none is left. *)
Theorem status_reports_worst r name :
  name ∈ rg_providers r ->
  exists s, status r !! name = Some s
    /\ (forall fp b, ((name, fp, None), b) ∈ rg_breakers r -> severity (cb_state b) <= severity s)
    /\ (s = CLOSED \/ exists fp b, ((name, fp, None), b) ∈ rg_breakers r /\ cb_state b = s).
Proof.
  intros Hp. unfold status. set (l := omap _ _).
  assert (Hl : forall n s, (n, s) ∈ l <-> exists fp b, ((n, fp, None), b) ∈ rg_breakers r /\ cb_state b = s).
  { intros n s. subst l. rewrite list_elem_of_omap. split.
    - intros ([[[n' fp] [m|]] b] & Hin & Heq); simpl in Heq; [done|]. injection Heq as <- <-. eauto.
    - intros (fp & b & Hin & <-). by exists ((n, fp, None), b). }
  assert (Hc : gset_to_gmap CLOSED (rg_providers r) !! name = Some CLOSED) by by apply lookup_gset_to_gmap_Some.
  destruct (worst_fold l (gset_to_gmap CLOSED (rg_providers r)) name) as (s & H1 & H2 & H3 & H4); [left; by eexists|].
  exists s. split_and!; [done| |].
  - intros fp b Hin. apply H2, Hl. eauto.
  - destruct H4 as [H4|H4]; [left; congruence|right; by apply Hl].
Qed.
End Registry.

(** ** Witnesses *)

(** A breaker of threshold two, and the same one tripped at time ten. *)
Definition sample_closed : CircuitBreaker := mkCircuitBreaker "openai" false None 2 30 300 CLOSED 0 0 0 false 0.
Definition sample_open : CircuitBreaker := mkCircuitBreaker "openai" false None 2 30 300 OPEN 2 10 10 false 0.
Definition sample_probing : CircuitBreaker := mkCircuitBreaker "openai" false None 2 30 300 HALF_OPEN 2 10 50 true 50.
Definition sample_429 : model_exception := mkModelException true false false false false (Some 429) false "slow down".

Lemma sample_wf : breaker_wf sample_closed /\ breaker_wf sample_open /\ breaker_wf sample_probing.
Proof. split_and!; split; unfold trip_at; simpl; try done; lia. Defined.

Lemma breaker_stays_wf_witness : breaker_wf (run [OpFailure 1; OpFailure 2; OpCheck 40 40 40; OpRelease] sample_closed).2.
Proof. apply (breaker_stays_wf "openai" 2 30 300 false None 0 sample_closed). reflexivity. Defined.

Lemma trips_at_threshold_witness : cb_state (run ([OpFailure 1; OpCheck 2 2 2] ++ [OpFailure 3]) sample_closed).2 = OPEN.
Proof.
  apply (trips_at_threshold [OpFailure 1; OpCheck 2 2 2] sample_closed 0 3).
  - reflexivity.
  - split; reflexivity.
  - lia.
  - reflexivity.
Defined.

Lemma open_window_exact_witness : Forall (eq false) (run [OpCheck 11 11 11; OpSuccess 12; OpCheck 39 39 39] sample_open).1.
Proof.
  apply (open_window_exact [OpCheck 11 11 11; OpSuccess 12; OpCheck 39 39 39] sample_open 40 40 40).
  - reflexivity.
  - reflexivity.
Defined.

(** Three requests, the probe handed back, and two more. *)
Definition released_once : list breaker_op := [OpCheck 41 41 41; OpCheck 42 42 42; OpCheck 43 43 43; OpRelease; OpCheck 44 44 44; OpCheck 45 45 45].

Lemma at_most_one_probe_witness : probes_ended released_once sample_open = 1%nat /\ (admitted (run released_once sample_open).1 <= 1 + 1)%nat.
Proof.
  split; [vm_compute; reflexivity|]. apply (at_most_one_probe 40 released_once sample_open).
  - reflexivity.
  - reflexivity.
Defined.

Lemma lost_probe_is_replaced_witness : exists b', check 350 350 351 sample_probing = (Ok tt, b') /\ cb_probe_started_at b' = 351.
Proof.
  destruct (lost_probe_is_replaced sample_probing 350 350 351) as (b' & H1 & _ & _ & H2).
  - reflexivity.
  - simpl. lia.
  - exists b'. split; assumption.
Defined.

Lemma restore_resumes_window_witness :
  let b := mkCircuitBreaker "openai" false None 2 30 300 OPEN 2 (1000 - 30 + 12) 999 false 0 in
  exists b', check 1012 1012 1012 b = (Ok tt, b').
Proof.
  intros b. apply (restore_resumes_window "openai" 2 12 2 30 300 false 999 1000 b 1012 1012 1012).
  - reflexivity.
  - simpl. lia.
Defined.

Lemma callback_ends_every_probe_witness : no_probe_out (on_llm_error 60 61 sample_429 (mkCallback sample_probing (Some sample_closed))).
Proof.
  apply (callback_ends_every_probe (mkCallback sample_probing (Some sample_closed)) 60 61 sample_429).
  - split; [apply sample_wf|]. intros rl H. injection H as <-. apply sample_wf.
  - reflexivity.
Defined.

Lemma callback_blames_one_witness : cb_failure_count (cl_breaker (on_llm_error 60 61 sample_429 (mkCallback sample_open (Some sample_closed)))) = 2.
Proof.
  destruct (callback_blames_one (mkCallback sample_open (Some sample_closed)) sample_closed 60 61 sample_429 eq_refl)
    as (rl' & _ & H & _).
  destruct (H (or_introl eq_refl)) as [[H0|H0] _]; [exact H0|]. vm_compute in H0. discriminate H0.
Defined.

Definition sample_registry : Registry.CircuitBreakerRegistry :=
  Registry.mkRegistry 2 30 300 3600 1
    [(("openai", Some "a1", None), sample_open); (("openai", Some "b2", None), sample_closed); (("openai", None, None), sample_closed)]
    ∅ {["openai"]}.

Lemma sample_registry_keys : Registry.keys_ok sample_registry.
Proof. apply (bool_decide_unpack _). vm_compute. exact I. Defined.

Lemma eviction_keeps_tripped_witness :
  (("openai", Some "a1", None), sample_open) ∈ Registry.rg_breakers (Registry.evict_credential_breakers 5000 sample_registry).2.
Proof.
  pose proof (Registry.eviction_keeps_tripped 5000 sample_registry sample_registry_keys) as H.
  destruct (Registry.evict_credential_breakers 5000 sample_registry) as [w r'].
  destruct H as (_ & H & _). apply H.
  - apply elem_of_cons. left. reflexivity.
  - right. discriminate.
Defined.

Lemma get_is_stable_witness :
  exists b r', Registry.get (fun c => c) "openai" (Some "b2") None 5000 5001 sample_registry = (Ok b, r') /\ Registry.keys_ok r'.
Proof.
  destruct (Registry.get_is_stable (fun c => c) "openai" (Some "b2") None 5000 5001 sample_registry) as (b & r' & H1 & H2 & _).
  - apply sample_registry_keys.
  - simpl. lia.
  - exists b, r'. split; assumption.
Defined.

Lemma status_reports_worst_witness : exists s, Registry.status sample_registry !! "openai" = Some s /\ 2 <= Registry.severity s.
Proof.
  destruct (Registry.status_reports_worst sample_registry "openai") as (s & H1 & H2 & _).
  - apply (bool_decide_unpack _). vm_compute. exact I.
  - exists s. split; [exact H1|]. apply (H2 (Some "a1") sample_open). apply elem_of_cons. left. reflexivity.
Defined.
