(* ===== verification/CasStore.v ===== *)
(** * The compare-and-swap store behind the coordination primitives

    The primitives of [src/packages/core/src/threetears/core/coordination] keep their state in a NATS
    JetStream KV bucket, reached through the [KvBucketLike] protocol of
    [src/packages/nats/src/threetears/nats/kv.py]. The server is not part of the sources, so the
    bucket is the interface [CasStore], with the documented behaviour of [get_entry], [create] and
    [update] as the laws [CasStoreLaws]; [table_store] is a store that satisfies them.
    [_owner_scope.py], which renders the keys, is modelled here too. *)

From Stdlib Require Import Ascii String Bool List NArith ZArith Lia.
From stdpp Require Import base list gmap strings.
From S2P Require Import Prelude.

Open Scope string_scope.

Class CasStore (St V : Type) := {
  cas_get : St -> string -> option (V * Z);
  cas_create : string -> V -> St -> option Z * St;
  cas_update : string -> V -> Z -> St -> option Z * St;
}.

(** [written s k v rev s']: [s'] is [s] with [k] holding [v] at revision [rev]. *)
Definition written {St V} `{CasStore St V} (s : St) (k : string) (v : V) (rev : Z) (s' : St) : Prop :=
  cas_get s' k = Some (v, rev) /\ forall k', k' <> k -> cas_get s' k' = cas_get s k'.

Class CasStoreLaws (St V : Type) `{CasStore St V} : Prop := {
  create_absent : forall s k v, cas_get s k = None ->
    exists rev s', cas_create k v s = (Some rev, s') /\ written s k v rev s';
  create_present : forall s k v e, cas_get s k = Some e -> cas_create k v s = (None, s);
  update_current : forall s k v v0 rev, cas_get s k = Some (v0, rev) ->
    exists rev' s', cas_update k v rev s = (Some rev', s') /\ written s k v rev' s';
  update_fresh : forall s k v rev rev' s', cas_update k v rev s = (Some rev', s') -> rev' <> rev;
  update_stale : forall s k v rev, (forall v0, cas_get s k <> Some (v0, rev)) -> cas_update k v rev s = (None, s);
}.

(** A revision names one value: whatever others do to the store, a key whose revision is the one read
    holds the value read. *)
Definition revisions_unique {St V} `{CasStore St V} (f : St -> St) : Prop :=
  forall s k v v' rev, cas_get s k = Some (v, rev) -> cas_get (f s) k = Some (v', rev) -> v' = v.

(** ** A store in memory *)

Record table_store (V : Type) := mkTableStore {
  ts_entries : gmap string (V * Z);
  ts_sequence : Z;
}.
Arguments mkTableStore {V}.
Arguments ts_entries {V}.
Arguments ts_sequence {V}.

(** The highest revision given out. *)
Definition ts_top {V} (s : table_store V) : Z :=
  foldr (fun (kv : string * (V * Z)) acc => Z.max kv.2.2 acc) (ts_sequence s) (map_to_list (ts_entries s)).

Definition ts_write {V} (k : string) (v : V) (s : table_store V) : option Z * table_store V :=
  let rev := (ts_top s + 1)%Z in (Some rev, mkTableStore (<[k := (v, rev)]> (ts_entries s)) rev).

Lemma ts_top_spec {V} (s : table_store V) x :
  (ts_top s <= x)%Z <-> (ts_sequence s <= x)%Z /\ forall k v rev, ts_entries s !! k = Some (v, rev) -> (rev <= x)%Z.
Proof.
  unfold ts_top. setoid_rewrite <- elem_of_map_to_list.
  induction (map_to_list (ts_entries s)) as [|[k [v rev]] l IH]; simpl; [set_solver|]. rewrite Z.max_lub_iff, IH. split.
  - intros (H1 & H2 & H3). split; [done|]. intros k' v' rev' [[= -> -> ->]|H]%elem_of_cons; eauto.
  - intros [H1 H2]. split_and!; [by eapply H2, list_elem_of_here|done|]. intros k' v' rev' H. by eapply H2, list_elem_of_further.
Qed.

Lemma ts_top_bound {V} (s : table_store V) k v rev : ts_entries s !! k = Some (v, rev) -> (rev <= ts_top s)%Z.
Proof. intros H. by apply (proj2 (proj1 (ts_top_spec s (ts_top s)) (Z.le_refl _)) k v). Qed.

#[export] Instance table_cas_store V : CasStore (table_store V) V := {|
  cas_get s k := ts_entries s !! k;
  cas_create k v s := match ts_entries s !! k with None => ts_write k v s | Some _ => (None, s) end;
  cas_update k v rev s :=
    match ts_entries s !! k with
    | Some (_, r) => if (r =? rev)%Z then ts_write k v s else (None, s)
    | None => (None, s)
    end;
|}.

Lemma ts_write_written {V} k (v : V) s : exists rev s', ts_write k v s = (Some rev, s') /\ written s k v rev s'.
Proof.
  eexists _, _. split; [reflexivity|]. split; simpl; [by rewrite lookup_insert_eq|].
  intros k' Hk. by rewrite lookup_insert_ne.
Qed.

#[export] Instance table_cas_laws V : CasStoreLaws (table_store V) V.
Proof.
  split; simpl.
  - intros s k v ->. apply ts_write_written.
  - by intros s k v e ->.
  - intros s k v v0 rev ->. rewrite Z.eqb_refl. apply ts_write_written.
  - intros s k v rev rev' s'. unfold ts_write. destruct (ts_entries s !! k) as [[v0 r]|] eqn:Hk; [|done].
    destruct (Z.eqb_spec r rev) as [->|]; [|done]. intros [= <- _]. apply ts_top_bound in Hk. lia.
  - intros s k v rev Hne. destruct (ts_entries s !! k) as [[v0 r]|]; [|done].
    destruct (Z.eqb_spec r rev) as [->|]; [|done]. by destruct (Hne v0).
Qed.

(** ** Owner-scoped keys *)

(** One character of [KV_KEY_SCOPE_GRAMMAR], [^[-_=a-zA-Z0-9]+$]. *)
Definition scope_char (c : ascii) : bool :=
  let n := N_of_ascii c in
  (Ascii.eqb c "-" || Ascii.eqb c "_" || Ascii.eqb c "=")
  || ((97 <=? n) && (n <=? 122) || (65 <=? n) && (n <=? 90) || (48 <=? n) && (n <=? 57))%N.

(** The grammar's match from the start of the string; its [$] also matches before a final newline. *)
Fixpoint scope_rest (s : string) : bool :=
  match s with
  | EmptyString => true
  | String c EmptyString => scope_char c || Ascii.eqb c "010"
  | String c s' => scope_char c && scope_rest s'
  end.
Definition KV_KEY_SCOPE_GRAMMAR_match (s : string) : bool :=
  match s with
  | EmptyString => false
  | String c s' => scope_char c && scope_rest s'
  end.

(** [validated_key_scope]; [None] is the refusal. *)
Definition validated_key_scope (key_scope : option string) : option (option string) :=
  match key_scope with
  | Some s => if KV_KEY_SCOPE_GRAMMAR_match s then Some (Some s) else None
  | None => Some None
  end.

Definition owner_scoped_key (key_scope : option string) (key : string) : string :=
  match key_scope with
  | None => key
  | Some s => s ++ "." ++ key
  end.

Lemma scope_char_not_dot c : scope_char c = true -> Ascii.eqb c "." = false.
Proof. intros H. apply Ascii.eqb_neq. by intros ->. Qed.

Lemma scope_rest_no_dot s : scope_rest s = true -> str_has "." s = false.
Proof.
  induction s as [|c [|c' s] IH]; [done| |].
  - simpl. rewrite orb_true_iff. intros [H|H]; [by rewrite scope_char_not_dot|]. by apply Ascii.eqb_eq in H as ->.
  - intros [H1 H2]%andb_true_iff. change (Ascii.eqb c "." || str_has "." (String c' s) = false).
    rewrite scope_char_not_dot by done. by apply IH.
Qed.

Lemma scope_no_dot s : validated_key_scope (Some s) = Some (Some s) -> str_has "." s = false.
Proof.
  simpl. destruct (KV_KEY_SCOPE_GRAMMAR_match s) eqn:H; [|done]. intros _. destruct s as [|c s]; [done|].
  apply andb_true_iff in H as [H1 H2]. simpl. by rewrite scope_char_not_dot, scope_rest_no_dot.
Qed.

(** Owners sharing a bucket never share a key: two owner-scoped keys are equal only for one owner
    and one key, and every key starts with its owner's scope and a dot, the prefix the owner's grant
    is narrowed to. *)
Theorem owner_scoped_keys_disjoint s1 s2 k1 k2 :
  validated_key_scope (Some s1) = Some (Some s1) -> validated_key_scope (Some s2) = Some (Some s2) ->
  (owner_scoped_key (Some s1) k1 = owner_scoped_key (Some s2) k2 <-> s1 = s2 /\ k1 = k2)
  /\ starts_with (s1 ++ ".") (owner_scoped_key (Some s1) k1) = true.
Proof.
  intros H1%scope_no_dot H2%scope_no_dot. split; [split|].
  - unfold owner_scoped_key. simpl. intros H. pose proof H as Hs.
    apply (f_equal (split_on "."%char)) in Hs.
    change (s1 ++ String "." k1) with (s1 ++ String "."%char k1) in Hs. rewrite !split_on_sep in Hs.
    rewrite (split_on_plain _ s1), (split_on_plain _ s2) in Hs by done. simpl in Hs. injection Hs as -> Hk.
    split; [done|]. by apply split_on_inj in Hk.
  - by intros [-> ->].
  - apply starts_with_iff. exists k1. unfold owner_scoped_key. by rewrite str_app_assoc.
Qed.

Lemma owner_scoped_keys_disjoint_witness : owner_scoped_key (Some "pod-a") "b" <> owner_scoped_key (Some "pod") "a.b".
Proof.
  intros H. apply (owner_scoped_keys_disjoint "pod-a" "pod" "b" "a.b") in H as [H _]; [discriminate H|reflexivity..].
Defined.

(** A scope with a newline at its end passes the grammar, [$] matching before it. *)
Theorem scope_grammar_admits_newline :
  let scope := ("pod" ++ String "010"%char "")%string in validated_key_scope (Some scope) = Some (Some scope).
Proof. reflexivity. Qed.
