(* ===== verification/KvProtocol.v ===== *)
(** * Programs over a shared bucket

    The coordination primitives are coroutines whose every [await] is one operation on a KV bucket
    that other processes use at the same time. A coroutine is a [prog]: a tree whose nodes are the
    operations it awaits and whose branches are their answers, so its definition reads like the code.
    [wstep] interleaves any number of processes on one bucket. An operation may raise: the caller goes
    on without an answer while its request may still land at any later moment, or never.

    The rest of the file is a rely-guarantee logic for such systems. [safe] says of one program that
    every request it sends is one it may send, from what it has learned of the bucket's history and of
    the time; [reachable_sound] turns that into an invariant of every reachable state of the system.

    The bucket is the interface [CasStore] extended with deletion ([KvBucket]); one server clock is
    shared by all processes, and the bucket is not wiped (a wiped bucket numbers its revisions anew). *)

From Stdlib Require Import Ascii String Bool List NArith ZArith Lia.
From stdpp Require Import base list gmap strings functions relations.
From S2P Require Import Prelude CasStore.

(** ** The bucket *)

Class KvBucket (St V : Type) `{CasStore St V} := {
  cas_delete : string -> Z -> St -> bool * St;
  cas_expire : string -> St -> St;
  cas_sequence : St -> Z;
}.

(** [removed s k s']: [s'] is [s] without [k]. *)
Definition removed {St V} `{CasStore St V} (s : St) (k : string) (s' : St) : Prop :=
  cas_get s' k = None /\ forall k', k' <> k -> cas_get s' k' = cas_get s k'.

Class KvBucketLaws (St V : Type) `{KvBucket St V} : Prop := {
  bucket_cas :: CasStoreLaws St V;
  revision_bounded : forall s k v rev, cas_get s k = Some (v, rev) -> (rev <= cas_sequence s)%Z;
  create_advances : forall s k v rev s', cas_create k v s = (Some rev, s') ->
    (cas_sequence s < rev)%Z /\ cas_sequence s' = rev;
  update_advances : forall s k v r rev s', cas_update k v r s = (Some rev, s') ->
    (cas_sequence s < rev)%Z /\ cas_sequence s' = rev;
  delete_current : forall s k v rev, cas_get s k = Some (v, rev) ->
    exists s', cas_delete k rev s = (true, s') /\ removed s k s' /\ (cas_sequence s <= cas_sequence s')%Z;
  delete_stale : forall s k rev, (forall v, cas_get s k <> Some (v, rev)) -> cas_delete k rev s = (false, s);
  expire_removes : forall s k, removed s k (cas_expire k s) /\ cas_sequence (cas_expire k s) = cas_sequence s;
}.

(** The store in memory is such a bucket. *)
#[export] Instance table_bucket V : KvBucket (table_store V) V := {|
  cas_delete k rev s :=
    match ts_entries s !! k with
    | Some (_, r) => if (r =? rev)%Z then (true, mkTableStore (delete k (ts_entries s)) (ts_top s + 1)) else (false, s)
    | None => (false, s)
    end;
  cas_expire k s := mkTableStore (delete k (ts_entries s)) (ts_top s);
  cas_sequence := ts_top;
|}.

Lemma ts_top_eq {V} (s : table_store V) x :
  ts_sequence s = x -> (forall k v rev, ts_entries s !! k = Some (v, rev) -> (rev <= x)%Z) -> ts_top s = x.
Proof.
  intros Hs Hr. apply Z.le_antisymm; [apply ts_top_spec; rewrite Hs; by split|].
  rewrite <- Hs. by apply (proj1 (ts_top_spec s (ts_top s)) (Z.le_refl _)).
Qed.

Lemma ts_write_top {V} k (v : V) s rev s' : ts_write k v s = (Some rev, s') -> (ts_top s < rev)%Z /\ ts_top s' = rev.
Proof.
  unfold ts_write. intros [= <- <-]. split; [lia|]. apply ts_top_eq; [done|]. simpl. intros k' v' rev'.
  rewrite lookup_insert_Some. intros [[_ [= _ <-]]|[_ H%ts_top_bound]]; lia.
Qed.

Lemma ts_deleted_top {V} k (s : table_store V) x : (ts_top s <= x)%Z -> ts_top (mkTableStore (delete k (ts_entries s)) x) = x.
Proof. intros Hx. apply ts_top_eq; [done|]. simpl. intros k' v rev [_ H%ts_top_bound]%lookup_delete_Some. lia. Qed.

Lemma ts_deleted_removed {V} k (s : table_store V) x : removed s k (mkTableStore (delete k (ts_entries s)) x).
Proof. split; simpl; [apply lookup_delete_eq|]. intros k' Hk. by rewrite lookup_delete_ne. Qed.

#[export] Instance table_bucket_laws V : KvBucketLaws (table_store V) V.
Proof.
  split; simpl; try apply _.
  - intros s k v rev. apply ts_top_bound.
  - intros s k v rev s'. destruct (ts_entries s !! k); [done|]. apply ts_write_top.
  - intros s k v r rev s'. destruct (ts_entries s !! k) as [[v0 r0]|]; [|done]. destruct (r0 =? r)%Z; [|done]. apply ts_write_top.
  - intros s k v rev ->. rewrite Z.eqb_refl. eexists. split; [done|]. split; [apply ts_deleted_removed|].
    rewrite ts_deleted_top; lia.
  - intros s k rev Hne. destruct (ts_entries s !! k) as [[v0 r]|]; [|done].
    destruct (Z.eqb_spec r rev) as [->|]; [|done]. by destruct (Hne v0).
  - intros s k. split; [apply ts_deleted_removed|]. by apply ts_deleted_top.
Qed.

(** ** Programs *)

Inductive request (V : Type) :=
| RCreate (k : string) (v : V)
| RUpdate (k : string) (v : V) (rev : Z)
| RDelete (k : string) (rev : Z).
Arguments RCreate {V}.
Arguments RUpdate {V}.
Arguments RDelete {V}.

(** What the caller of a write hears: it was applied (at a revision, for a create or an update), it was
    refused by the bucket's own comparison, or the call raised and it may or may not be applied. *)
Inductive write_answer := Applied (rev : Z) | Refused | Raised.

Inductive prog (V A : Type) :=
| Ret (a : A)
| ReadClock (k : Z -> prog V A)
| GetEntry (key : string) (k : option (option (V * Z)) -> prog V A)
| Write (r : request V) (k : write_answer -> prog V A).
Arguments Ret {V A}.
Arguments ReadClock {V A}.
Arguments GetEntry {V A}.
Arguments Write {V A}.

Fixpoint pbind {V A B} (p : prog V A) (f : A -> prog V B) : prog V B :=
  match p with
  | Ret a => f a
  | ReadClock k => ReadClock (fun t => pbind (k t) f)
  | GetEntry key k => GetEntry key (fun e => pbind (k e) f)
  | Write r k => Write r (fun a => pbind (k a) f)
  end.

Declare Scope prog_scope.
Delimit Scope prog_scope with prog.
Notation "x <- p ;; q" := (pbind p (fun x => q)) (at level 100, p at next level, right associativity) : prog_scope.
Notation "'clock' t ;; q" := (ReadClock (fun t => q)) (at level 100, t name, right associativity) : prog_scope.

(** ** What a request does *)

(** Every value a bucket has held, by revision: what the bucket's stream has seen. *)
Abbreviation history V := (gmap Z (string * V)).

Section Bucket.
Context {St V : Type} `{HB : KvBucket St V}.

Definition request_key (r : request V) : string :=
  match r with RCreate k _ | RUpdate k _ _ | RDelete k _ => k end.

Definition request_value (r : request V) : option V :=
  match r with RCreate _ v | RUpdate _ v _ => Some v | RDelete _ _ => None end.

Definition exec (r : request V) (s : St) : write_answer * St :=
  match r with
  | RCreate k v => let '(o, s') := cas_create k v s in (match o with Some rev => Applied rev | None => Refused end, s')
  | RUpdate k v rev => let '(o, s') := cas_update k v rev s in (match o with Some rev' => Applied rev' | None => Refused end, s')
  | RDelete k rev => let '(b, s') := cas_delete k rev s in (if b then Applied (cas_sequence s') else Refused, s')
  end.

Definition record (r : request V) (a : write_answer) (lg : history V) : history V :=
  match a, request_value r with
  | Applied rev, Some v => <[rev := (request_key r, v)]> lg
  | _, _ => lg
  end.

(** A history fits a bucket: it holds every entry, and no revision still to come. *)
Record fits (s : St) (lg : history V) : Prop := {
  fits_entry : forall k v rev, cas_get s k = Some (v, rev) -> lg !! rev = Some (k, v);
  fits_past : forall rev e, lg !! rev = Some e -> (rev <= cas_sequence s)%Z;
}.

(** Alone on a bucket, with the clock readings it will take (the last one repeats); [run_from] also
    returns the readings left. *)
Fixpoint run_from {A} (p : prog V A) (times : list Z) (now : Z) (s : St) : A * (list Z * Z * St) :=
  match p with
  | Ret a => (a, (times, now, s))
  | ReadClock k => match times with [] => run_from (k now) [] now s | t :: ts => run_from (k t) ts t s end
  | GetEntry key k => run_from (k (Some (cas_get s key))) times now s
  | Write r k => let '(a, s') := exec r s in run_from (k a) times now s'
  end.

Definition run_alone {A} (p : prog V A) (times : list Z) (now : Z) (s : St) : A * St :=
  let '(a, (_, _, s')) := run_from p times now s in (a, s').
End Bucket.

(** What an applied request changed. *)
Section Exec.
Context {St V : Type} `{HB : KvBucket St V} `{HL : !KvBucketLaws St V}.

(** What the comparison of a request demands of the bucket. *)
Definition matches (r : request V) (s : St) : Prop :=
  match r with
  | RCreate k _ => cas_get s k = None
  | RUpdate k _ rev | RDelete k rev => exists v, cas_get s k = Some (v, rev)
  end.

Lemma entry_at (s : St) k r : (exists v, cas_get s k = Some (v, r)) \/ (forall v, cas_get s k <> Some (v, r)).
Proof.
  destruct (cas_get s k) as [[v0 r0]|]; [|by right]. destruct (decide (r0 = r)) as [->|Hne]; [left; eauto|right; congruence].
Qed.

Lemma exec_applied r s rev s' :
  exec r s = (Applied rev, s') ->
  matches r s /\ (forall k, k <> request_key r -> cas_get s' k = cas_get s k)
  /\ (cas_sequence s <= cas_sequence s')%Z
  /\ match request_value r with
     | Some v => cas_get s' (request_key r) = Some (v, rev) /\ (cas_sequence s < rev)%Z /\ cas_sequence s' = rev
     | None => cas_get s' (request_key r) = None
     end.
Proof using HL.
  destruct r as [k v|k v r|k r]; simpl.
  - destruct (cas_create k v s) as [[rev0|] s0] eqn:Hc; [|done]. intros [= <- <-].
    destruct (create_advances s k v rev0 s0 Hc) as [H1 H2].
    destruct (cas_get s k) as [e|] eqn:Hg; [by rewrite (create_present s k v e Hg) in Hc|].
    destruct (create_absent s k v Hg) as (rev' & s' & Hc' & Hw & Ho). rewrite Hc in Hc'. injection Hc' as <- <-.
    split_and!; try done. lia.
  - destruct (cas_update k v r s) as [[rev0|] s0] eqn:Hc; [|done]. intros [= <- <-].
    destruct (update_advances s k v r rev0 s0 Hc) as [H1 H2].
    destruct (entry_at s k r) as [[v0 Hg]|Hg]; [|by rewrite (update_stale s k v r Hg) in Hc].
    destruct (update_current s k v v0 r Hg) as (rev' & s' & Hc' & Hw & Ho). rewrite Hc in Hc'.
    injection Hc' as <- <-. split_and!; try done; [eauto|lia].
  - destruct (cas_delete k r s) as [[] s0] eqn:Hc; [|done]. intros [= <- <-].
    destruct (entry_at s k r) as [[v0 Hg]|Hg]; [|by rewrite (delete_stale s k r Hg) in Hc].
    destruct (delete_current s k v0 r Hg) as (s' & Hc' & [Hw Ho] & Hs). rewrite Hc in Hc'.
    injection Hc' as <-. split_and!; try done; eauto.
Qed.

Lemma exec_refused r s a s' : exec r s = (a, s') -> (forall rev, a <> Applied rev) -> a = Refused /\ s' = s.
Proof using HL.
  intros He Ha. destruct r as [k v|k v r|k r]; simpl in He.
  - destruct (cas_get s k) as [e|] eqn:Hg; [rewrite (create_present s k v e Hg) in He; by injection He as <- <-|].
    destruct (create_absent s k v Hg) as (rev & s0 & Hc & _). rewrite Hc in He. injection He as <- <-. by destruct (Ha rev).
  - destruct (entry_at s k r) as [[v0 Hg]|Hg]; [|rewrite (update_stale s k v r Hg) in He; by injection He as <- <-].
    destruct (update_current s k v v0 r Hg) as (rev & s0 & Hc & _). rewrite Hc in He. injection He as <- <-. by destruct (Ha rev).
  - destruct (entry_at s k r) as [[v0 Hg]|Hg]; [|rewrite (delete_stale s k r Hg) in He; by injection He as <- <-].
    destruct (delete_current s k v0 r Hg) as (s0 & Hc & _). rewrite Hc in He. injection He as <- <-. by destruct (Ha (cas_sequence s0)).
Qed.

Lemma fits_exec r s a s' lg : fits s lg -> exec r s = (a, s') -> fits s' (record r a lg) /\ lg ⊆ record r a lg.
Proof using HL.
  intros [Hent Hpast] He. destruct a as [rev| |].
  2-3: destruct (exec_refused r s _ s' He) as [_ ->]; [done|by split].
  destruct (exec_applied r s rev s' He) as (_ & Ho & Hseq & Hv). unfold record. destruct (request_value r) as [v|].
  - destruct Hv as (Hg & Hlt & Heq).
    assert (Hfresh : lg !! rev = None).
    { destruct (lg !! rev) as [e|] eqn:Hl; [|done]. apply Hpast in Hl. lia. }
    split; [split|by apply insert_subseteq].
    + intros k v' rev' Hk. destruct (decide (k = request_key r)) as [->|Hne].
      * rewrite Hg in Hk. injection Hk as <- <-. by rewrite lookup_insert_eq.
      * rewrite Ho in Hk by done. apply Hent in Hk. rewrite lookup_insert_ne; [done|]. intros <-. congruence.
    + intros rev' e. rewrite lookup_insert_Some. intros [[<- _]|[_ Hl%Hpast]]; lia.
  - split; [split|done].
    + intros k v' rev' Hk. destruct (decide (k = request_key r)) as [->|Hne]; [congruence|]. rewrite Ho in Hk by done. by apply Hent.
    + intros rev' e Hl%Hpast. lia.
Qed.

Lemma fits_expire s k lg : fits s lg -> fits (cas_expire k s) lg.
Proof using HL.
  intros [Hent Hpast]. destruct (expire_removes s k) as [[Hg Ho] Hs]. split.
  - intros k' v rev Hk. destruct (decide (k' = k)) as [->|Hne]; [congruence|]. rewrite Ho in Hk by done. by apply Hent.
  - intros rev e Hl%Hpast. lia.
Qed.

(** The steps of a program that runs alone. *)
Lemma run_from_bind {A B} (p : prog V A) (f : A -> prog V B) times now s :
  run_from (pbind p f) times now s = (let '(a, (times', now', s')) := run_from p times now s in run_from (f a) times' now' s').
Proof using.
  revert times now s. induction p as [a|k IH|key k IH|r k IH]; intros times now s; simpl; [done| |apply IH|].
  - destruct times; apply IH.
  - destruct (exec r s) as [a s']. apply IH.
Qed.

Lemma run_create_absent {A} k v (f : write_answer -> prog V A) times now s :
  cas_get s k = None -> exists rev s', written s k v rev s'
    /\ run_from (Write (RCreate k v) f) times now s = run_from (f (Applied rev)) times now s'.
Proof using HL. intros Hg. destruct (create_absent s k v Hg) as (rev & s' & Hc & Hw). exists rev, s'. simpl. by rewrite Hc. Qed.

Lemma run_create_present {A} k v e (f : write_answer -> prog V A) times now s :
  cas_get s k = Some e -> run_from (Write (RCreate k v) f) times now s = run_from (f Refused) times now s.
Proof using HL. intros Hg. simpl. by rewrite (create_present s k v e Hg). Qed.

Lemma run_update_current {A} k v v0 rev (f : write_answer -> prog V A) times now s :
  cas_get s k = Some (v0, rev) -> exists rev' s', written s k v rev' s'
    /\ run_from (Write (RUpdate k v rev) f) times now s = run_from (f (Applied rev')) times now s'.
Proof using HL. intros Hg. destruct (update_current s k v v0 rev Hg) as (rev' & s' & Hc & Hw). exists rev', s'. simpl. by rewrite Hc. Qed.

Lemma run_update_stale {A} k v rev (f : write_answer -> prog V A) times now s :
  (forall v0, cas_get s k <> Some (v0, rev)) -> run_from (Write (RUpdate k v rev) f) times now s = run_from (f Refused) times now s.
Proof using HL. intros Hg. simpl. by rewrite (update_stale s k v rev Hg). Qed.

Lemma run_delete_current {A} k v0 rev (f : write_answer -> prog V A) times now s :
  cas_get s k = Some (v0, rev) -> exists rev' s', removed s k s'
    /\ run_from (Write (RDelete k rev) f) times now s = run_from (f (Applied rev')) times now s'.
Proof using HL. intros Hg. destruct (delete_current s k v0 rev Hg) as (s' & Hc & Hw & _). exists (cas_sequence s'), s'. simpl. by rewrite Hc. Qed.

Lemma run_delete_stale {A} k rev (f : write_answer -> prog V A) times now s :
  (forall v0, cas_get s k <> Some (v0, rev)) -> run_from (Write (RDelete k rev) f) times now s = run_from (f Refused) times now s.
Proof using HL. intros Hg. simpl. by rewrite (delete_stale s k rev Hg). Qed.
End Exec.

(** ** Many processes on one bucket *)

Section System.
Context {St V : Type} `{HB : KvBucket St V}.
(** What a process keeps between operations; which operations it may start, and what of its state the
    start already changes; when the server may drop an entry of its own accord. *)
Context {L : Type} (offers : string -> L -> L -> prog V L -> Prop) (may_expire : string -> V -> Z -> Prop).

Record process := mkProcess {
  pr_local : L;
  pr_run : option (prog V L);
}.

Record world := mkWorld {
  w_store : St;
  w_clock : Z;
  w_history : history V;
  w_unanswered : list (string * request V);
  w_procs : gmap string process;
}.

Inductive wstep : world -> world -> Prop :=
| step_tick s t t' lg pool ps : (t <= t')%Z -> wstep (mkWorld s t lg pool ps) (mkWorld s t' lg pool ps)
| step_start s t lg pool ps i l l' p :
    ps !! i = Some (mkProcess l None) -> offers i l l' p ->
    wstep (mkWorld s t lg pool ps) (mkWorld s t lg pool (<[i := mkProcess l' (Some p)]> ps))
| step_finish s t lg pool ps i l l' :
    ps !! i = Some (mkProcess l (Some (Ret l'))) ->
    wstep (mkWorld s t lg pool ps) (mkWorld s t lg pool (<[i := mkProcess l' None]> ps))
| step_clock s t lg pool ps i l k :
    ps !! i = Some (mkProcess l (Some (ReadClock k))) ->
    wstep (mkWorld s t lg pool ps) (mkWorld s t lg pool (<[i := mkProcess l (Some (k t))]> ps))
| step_get s t lg pool ps i l key k :
    ps !! i = Some (mkProcess l (Some (GetEntry key k))) ->
    wstep (mkWorld s t lg pool ps) (mkWorld s t lg pool (<[i := mkProcess l (Some (k (Some (cas_get s key))))]> ps))
| step_get_raises s t lg pool ps i l key k :
    ps !! i = Some (mkProcess l (Some (GetEntry key k))) ->
    wstep (mkWorld s t lg pool ps) (mkWorld s t lg pool (<[i := mkProcess l (Some (k None))]> ps))
| step_write s s' t lg pool ps i l r k a :
    ps !! i = Some (mkProcess l (Some (Write r k))) -> exec r s = (a, s') ->
    wstep (mkWorld s t lg pool ps) (mkWorld s' t (record r a lg) pool (<[i := mkProcess l (Some (k a))]> ps))
| step_write_raises s t lg pool ps i l r k :
    ps !! i = Some (mkProcess l (Some (Write r k))) ->
    wstep (mkWorld s t lg pool ps) (mkWorld s t lg ((i, r) :: pool) (<[i := mkProcess l (Some (k Raised))]> ps))
| step_lands s s' t lg pool1 pool2 ps i r a :
    exec r s = (a, s') ->
    wstep (mkWorld s t lg (pool1 ++ (i, r) :: pool2) ps) (mkWorld s' t (record r a lg) (pool1 ++ pool2) ps)
| step_expires s t lg pool ps key v rev :
    cas_get s key = Some (v, rev) -> may_expire key v t ->
    wstep (mkWorld s t lg pool ps) (mkWorld (cas_expire key s) t lg pool ps).

(** The next step of one process, its operation answered: a schedule that can be computed. *)
Definition advance (i : string) (w : world) : world :=
  match w with
  | mkWorld s t lg pool ps =>
      match ps !! i with
      | Some (mkProcess l (Some p)) =>
          match p with
          | Ret l' => mkWorld s t lg pool (<[i := mkProcess l' None]> ps)
          | ReadClock k => mkWorld s t lg pool (<[i := mkProcess l (Some (k t))]> ps)
          | GetEntry key k => mkWorld s t lg pool (<[i := mkProcess l (Some (k (Some (cas_get s key))))]> ps)
          | Write r k => let '(a, s') := exec r s in mkWorld s' t (record r a lg) pool (<[i := mkProcess l (Some (k a))]> ps)
          end
      | _ => w
      end
  end.

Lemma advance_reaches i w : rtc wstep w (advance i w).
Proof using.
  destruct w as [s t lg pool ps]. unfold advance. destruct (ps !! i) as [[l [p|]]|] eqn:Hi; [|done|done].
  destruct p as [l'|k|key k|r k].
  - by eapply rtc_once, step_finish.
  - by eapply rtc_once, step_clock.
  - by eapply rtc_once, step_get.
  - destruct (exec r s) as [a s'] eqn:He. by eapply rtc_once, step_write.
Qed.

Lemma schedule_reaches schedule w : rtc wstep w (foldl (flip advance) w schedule).
Proof using. revert w. induction schedule as [|i schedule IH]; intros w; [done|]. etrans; [apply (advance_reaches i)|apply IH]. Qed.
End System.
Arguments process : clear implicits.
Arguments world : clear implicits.

(** ** The logic *)

Section Logic.
Context {St V : Type} `{HB : KvBucket St V} `{HL : !KvBucketLaws St V}.
Context {L : Type} (offers : string -> L -> L -> prog V L -> Prop) (may_expire : string -> V -> Z -> Prop).
(** Each process has a ghost value. [believes]: what its state claims, kept true at every moment;
    [good]: what holds of it between operations, stable as the history and the clock grow;
    [may_send]: which requests it may send, and the ghost while one is unanswered; [won]: the ghost once
    one is known to be applied; [inv]: the invariant of the bucket, the requests unanswered and all ghosts. *)
Context {G : Type} (believes : string -> L -> G -> Prop) (good : string -> L -> G -> history V -> Z -> Prop).
Context (may_send : string -> G -> request V -> history V -> Z -> G -> Prop) (won : G -> request V -> G).
Context (inv : St -> history V -> Z -> list (string * request V) -> (string -> G) -> Prop).

Fixpoint safe {A} (i : string) (l : L) (p : prog V A) (post : A -> G -> history V -> Z -> Prop)
    (g : G) (lg : history V) (t : Z) : Prop :=
  match p with
  | Ret a => post a g lg t
  | ReadClock k => forall lg' t', lg ⊆ lg' -> (t <= t')%Z -> safe i l (k t') post g lg' t'
  | GetEntry key k => forall lg' t', lg ⊆ lg' -> (t <= t')%Z ->
      safe i l (k None) post g lg' t' /\ safe i l (k (Some None)) post g lg' t'
      /\ forall v rev, lg' !! rev = Some (key, v) -> safe i l (k (Some (Some (v, rev)))) post g lg' t'
  | Write r k => forall lg' t', lg ⊆ lg' -> (t <= t')%Z ->
      exists g1, may_send i g r lg' t' g1 /\ believes i l g1
        /\ safe i l (k Raised) post g1 lg' t' /\ safe i l (k Refused) post g lg' t'
        /\ forall rev, lg' ⊆ record r (Applied rev) lg' -> believes i l (won g1 r)
             /\ safe i l (k (Applied rev)) post (won g1 r) (record r (Applied rev) lg') t'
  end.

Definition stable {A} (post : A -> G -> history V -> Z -> Prop) : Prop :=
  forall a g lg t lg' t', post a g lg t -> lg ⊆ lg' -> (t <= t')%Z -> post a g lg' t'.

Lemma safe_mono {A} i l (p : prog V A) post g lg t lg' t' :
  stable post -> safe i l p post g lg t -> lg ⊆ lg' -> (t <= t')%Z -> safe i l p post g lg' t'.
Proof using.
  intros Hst. destruct p as [a|k|key k|r k]; simpl; intros Hs Hlg Ht; [by eapply Hst|..].
  all: intros lg2 t2 Hlg2 Ht2; apply Hs; [by etrans|lia].
Qed.

Lemma safe_bind {A B} i l (p : prog V A) (f : A -> prog V B) mid post g lg t :
  safe i l p mid g lg t -> (forall a g lg t, mid a g lg t -> safe i l (f a) post g lg t) ->
  safe i l (pbind p f) post g lg t.
Proof using.
  intros Hp Hf. revert g lg t Hp. induction p as [a|k IH|key k IH|r k IH]; simpl; intros g lg t Hp; [auto|..];
    intros lg' t' Hlg Ht; specialize (Hp lg' t' Hlg Ht).
  - auto.
  - destruct Hp as (H1 & H2 & H3). auto.
  - destruct Hp as (g1 & H1 & H2 & H3 & H4 & H5). exists g1. split_and!; [done|done|auto|auto|].
    intros rev Hrev. destruct (H5 rev Hrev) as [H6 H7]. auto.
Qed.

Lemma safe_conseq {A} i l (p : prog V A) (mid post : A -> G -> history V -> Z -> Prop) g lg t :
  safe i l p mid g lg t -> (forall a g lg t, mid a g lg t -> post a g lg t) -> safe i l p post g lg t.
Proof using.
  intros Hp Hpost. revert g lg t Hp. induction p as [a|k IH|key k IH|r k IH]; simpl; intros g lg t Hp; [auto|..];
    intros lg' t' Hlg Ht; specialize (Hp lg' t' Hlg Ht).
  - auto.
  - destruct Hp as (H1 & H2 & H3). auto.
  - destruct Hp as (g1 & H1 & H2 & H3 & H4 & H5). exists g1. split_and!; [done|done|auto|auto|].
    intros rev Hrev. destruct (H5 rev Hrev) as [H6 H7]. auto.
Qed.

(** What an instance proves of its parameters. *)
Record protocol_ok : Prop := {
  good_stable : forall i, stable (good i);
  good_believes : forall i l g lg t, good i l g lg t -> believes i l g;
  start_safe : forall i l l' p g lg t, offers i l l' p -> good i l g lg t ->
    believes i l' g /\ safe i l' p (good i) g lg t;
  inv_tick : forall s lg t t' pool gs, inv s lg t pool gs -> (t <= t')%Z -> inv s lg t' pool gs;
  inv_sent : forall s lg t pool gs i r g1, fits s lg -> inv s lg t pool gs -> may_send i (gs i) r lg t g1 ->
    inv s lg t ((i, r) :: pool) (<[i := g1]> gs);
  inv_applied : forall s lg t pool gs i r g1 rev s', fits s lg -> inv s lg t pool gs -> may_send i (gs i) r lg t g1 ->
    exec r s = (Applied rev, s') -> inv s' (record r (Applied rev) lg) t pool (<[i := won g1 r]> gs);
  inv_lands : forall s lg t pool1 pool2 gs i r a s', fits s lg -> inv s lg t (pool1 ++ (i, r) :: pool2) gs ->
    exec r s = (a, s') -> inv s' (record r a lg) t (pool1 ++ pool2) gs;
  inv_expires : forall s lg t pool gs key v rev, fits s lg -> inv s lg t pool gs ->
    cas_get s key = Some (v, rev) -> may_expire key v t -> inv (cas_expire key s) lg t pool gs;
}.

Definition process_ok (lg : history V) (t : Z) (gs : string -> G) (i : string) (pr : process V L) : Prop :=
  match pr_run pr with
  | None => good i (pr_local pr) (gs i) lg t
  | Some p => believes i (pr_local pr) (gs i) /\ safe i (pr_local pr) p (good i) (gs i) lg t
  end.

(** The invariant of the whole system. *)
Definition system_ok (w : world St V L) : Prop :=
  exists gs, fits (w_store w) (w_history w)
    /\ inv (w_store w) (w_history w) (w_clock w) (w_unanswered w) gs
    /\ map_Forall (process_ok (w_history w) (w_clock w) gs) (w_procs w).

Hypothesis Hok : protocol_ok.

Lemma process_ok_mono lg t gs lg' t' gs' i pr :
  process_ok lg t gs i pr -> lg ⊆ lg' -> (t <= t')%Z -> gs' i = gs i -> process_ok lg' t' gs' i pr.
Proof using Hok.
  unfold process_ok. intros Hp Hlg Ht ->. destruct (pr_run pr).
  - destruct Hp as [Hb Hs]. split; [done|]. eapply safe_mono; [|exact Hs|done|done]. apply (good_stable Hok).
  - by eapply (good_stable Hok).
Qed.

(** All processes but one keep their ghost; that one is shown directly. *)
Lemma procs_ok_update lg t gs lg' t' i g (ps : gmap string (process V L)) pr :
  map_Forall (process_ok lg t gs) ps -> lg ⊆ lg' -> (t <= t')%Z -> process_ok lg' t' (<[i := g]> gs) i pr ->
  map_Forall (process_ok lg' t' (<[i := g]> gs)) (<[i := pr]> ps).
Proof using Hok.
  intros Hps Hlg Ht Hpr j pj. destruct (decide (j = i)) as [->|Hne].
  - rewrite lookup_insert_eq. by intros [= <-].
  - rewrite lookup_insert_ne by done. intros Hj%Hps. eapply process_ok_mono; [exact Hj|done|done|].
    by rewrite fn_lookup_insert_ne.
Qed.

Lemma procs_ok_mono lg t gs lg' t' (ps : gmap string (process V L)) :
  map_Forall (process_ok lg t gs) ps -> lg ⊆ lg' -> (t <= t')%Z -> map_Forall (process_ok lg' t' gs) ps.
Proof using Hok. intros Hps Hlg Ht i pr Hi%Hps. by eapply process_ok_mono. Qed.

(** A process that only moved on. *)
Lemma procs_ok_advance lg t gs i (ps : gmap string (process V L)) pr :
  map_Forall (process_ok lg t gs) ps -> process_ok lg t gs i pr -> map_Forall (process_ok lg t gs) (<[i := pr]> ps).
Proof using. intros Hps Hpr. by apply map_Forall_insert_2. Qed.

Lemma wstep_sound w w' : wstep offers may_expire w w' -> system_ok w -> system_ok w'.
Proof using Hok HL.
  intros Hstep (gs & Hfit & Hinv & Hps).
  destruct Hstep as [s t t' lg pool ps Ht|s t lg pool ps i l l' p Hi Hof|s t lg pool ps i l l' Hi|s t lg pool ps i l k Hi
    |s t lg pool ps i l key k Hi|s t lg pool ps i l key k Hi|s s' t lg pool ps i l r k a Hi He|s t lg pool ps i l r k Hi
    |s s' t lg pool1 pool2 ps i r a He|s t lg pool ps key v rev Hg Hexp]; simpl in *.
  - exists gs. split_and!; [done|by eapply (inv_tick Hok)|by eapply procs_ok_mono].
  - exists gs. split_and!; [done..|]. apply procs_ok_advance; [done|]. specialize (Hps i _ Hi). unfold process_ok in *. simpl in *.
    by eapply (start_safe Hok).
  - exists gs. split_and!; [done..|]. apply procs_ok_advance; [done|]. by destruct (Hps i _ Hi) as [_ Hs].
  - exists gs. split_and!; [done..|]. apply procs_ok_advance; [done|]. destruct (Hps i _ Hi) as [Hb Hs]. split; [done|]. by apply Hs.
  - exists gs. split_and!; [done..|]. apply procs_ok_advance; [done|]. destruct (Hps i _ Hi) as [Hb Hs]. split; [done|].
    simpl in Hs. destruct (Hs lg t) as (_ & H2 & H3); [done|done|]. cbn [pr_local]. destruct (cas_get s key) as [[v rev]|] eqn:Hg; [|done].
    by apply H3, (fits_entry _ _ Hfit).
  - exists gs. split_and!; [done..|]. apply procs_ok_advance; [done|]. destruct (Hps i _ Hi) as [Hb Hs]. split; [done|].
    simpl in Hs. by destruct (Hs lg t) as (H1 & _ & _).
  - destruct (Hps i _ Hi) as [Hb Hs]. simpl in Hs. destruct (Hs lg t) as (g1 & Hsend & Hb1 & _ & Href & Happ); [done|done|].
    destruct (fits_exec r s a s' lg Hfit He) as [Hfit' Hlg].
    destruct a as [rev| |].
    + exists (<[i := won g1 r]> gs). split_and!; [done|by eapply (inv_applied Hok)|]. eapply procs_ok_update; [done..|].
      unfold process_ok. simpl. rewrite fn_lookup_insert. by apply Happ.
    + destruct (exec_refused r s _ s' He) as [_ ->]; [done|]. exists gs. split_and!; [done|done|].
      apply procs_ok_advance; [done|]. by split.
    + by destruct (exec_refused r s _ s' He).
  - destruct (Hps i _ Hi) as [Hb Hs]. simpl in Hs. destruct (Hs lg t) as (g1 & Hsend & Hb1 & Hraise & _); [done|done|].
    exists (<[i := g1]> gs). split_and!; [done|by apply (inv_sent Hok s lg t pool gs i r g1)|]. eapply procs_ok_update; [done..|].
    unfold process_ok. simpl. by rewrite fn_lookup_insert.
  - destruct (fits_exec r s a s' lg Hfit He) as [Hfit' Hlg]. exists gs.
    split_and!; [done|by eapply (inv_lands Hok)|]. by eapply procs_ok_mono.
  - exists gs. split_and!; [by apply fits_expire|by eapply (inv_expires Hok)|done].
Qed.

(** Every reachable state of the system keeps the invariant. *)
Lemma reachable_sound w w' : rtc (wstep offers may_expire) w w' -> system_ok w -> system_ok w'.
Proof using Hok HL. induction 1; [done|]. eauto using wstep_sound. Qed.
End Logic.
