(* ===== verification/TokenBucket.v ===== *)
(** * The distributed token bucket

    [src/packages/core/src/threetears/core/coordination/token_bucket.py]. Token counts and instants are
    integers of a fixed unit and tick where the source has floats (the refill rate is units per tick; the
    arithmetic is exact), the retry estimate is the exact quotient. Every [await] of the read-modify-write loop is a point where other claimers act on
    the bucket: an [iteration] carries the clock reading, what others do before the read and between
    the read and the write, and whether the transport fails. *)

From Stdlib Require Import Ascii String Bool List NArith ZArith QArith Lia.
From stdpp Require Import base list gmap strings.
From S2P Require Import Prelude CasStore KvProtocol.

Open Scope string_scope.
Open Scope Z_scope.

(** ** The stored value *)

Record BucketState := mkBucketState {
  bs_tokens : Z;
  bs_last_refill : Z;
}.

(** What the bytes under a key can be, as [_decode_state] looks at them. *)
Inductive json_tokens := TokNumber (n : Z) | TokBool | TokOther.
Inductive json_stamp := StampAware (t : Z) | StampNaive | StampUnparseable | StampNotString.
Inductive stored_value :=
| NotJson
| NotObject
| Payload (tokens : json_tokens) (last_refill : json_stamp).

Inductive bucket_error :=
| ExceedsCapacity
| BadJson | BadObject | BadTokens | MissingStamp | BadStamp | NaiveStamp
| KvFailure
| TokenBucketConflict.

Definition encode_state (tokens last_refill : Z) : stored_value := Payload (TokNumber tokens) (StampAware last_refill).

Definition decode_state (data : stored_value) : result BucketState bucket_error :=
  match data with
  | NotJson => Err BadJson
  | NotObject => Err BadObject
  | Payload tokens stamp =>
      match tokens with
      | TokNumber n =>
          match stamp with
          | StampNotString => Err MissingStamp
          | StampUnparseable => Err BadStamp
          | StampNaive => Err NaiveStamp
          | StampAware t => Ok (mkBucketState n t)
          end
      | _ => Err BadTokens
      end
  end.

(** ** The bucket *)

(** Rate and capacity, in exact arithmetic of one unit of tokens per tick; [kv_ttl] in the whole seconds the bucket is opened with; the scope. *)
Record TokenBucket := mkTokenBucket {
  tb_refill_rate : Z;
  tb_capacity : Z;
  tb_kv_ttl : option Z;
  tb_key_scope : option string;
}.

Inductive init_error := BadKeyScope | RateNotPositive | CapacityNotPositive.

Definition TokenBucket_init (refill_rate capacity : Z) (kv_ttl : option Z) (key_scope : option string) : result TokenBucket init_error :=
  match validated_key_scope key_scope with
  | None => Err BadKeyScope
  | Some scope =>
      raise_if! (refill_rate <=? 0) with RateNotPositive ;;
      raise_if! (capacity <=? 0) with CapacityNotPositive ;;
      Ok (mkTokenBucket refill_rate capacity kv_ttl scope)
  end.

Definition CAS_MAX_RETRIES : nat := 30.

Record TokenClaimResult := mkTokenClaimResult {
  tc_claimed : bool;
  tc_tokens_remaining : Z;
  tc_retry_after : Q;
}.

(** How a write ends when the transport fails it: the caller does not learn whether it landed. *)
Inductive write_fate := WriteAnswered | WriteFails (landed : bool).

Section Bucket.
Context {St : Type} `{CasStore St stored_value}.
Variable b : TokenBucket.

(** One pass of the loop: the clock reading it takes first, and what happens around its awaits. *)
Record iteration := mkIteration {
  it_now : Z;
  it_before_read : St -> St;
  it_read_fails : bool;
  it_before_write : St -> St;
  it_write : write_fate;
}.

(** [min(capacity, tokens + max(0, now - last_refill) * refill_rate)]. *)
Definition refilled (now : Z) (st : BucketState) : Z :=
  Z.min (tb_capacity b) (bs_tokens st + Z.max 0 (now - bs_last_refill st) * tb_refill_rate b).

(** What the read finds: the tokens available at [now], and the revision to write against. *)
Definition read_tokens (now : Z) (entry : option (stored_value * Z)) : result (Z * option Z) bucket_error :=
  match entry with
  | None => Ok (tb_capacity b, None)
  | Some (value, revision) => do! st <- decode_state value ;; Ok (refilled now st, Some revision)
  end.

(** The create or update, and what the caller hears of it. *)
Definition cas_write (key : string) (value : stored_value) (revision : option Z) (fate : write_fate) (s : St)
  : result (option Z) bucket_error * St :=
  let '(new_revision, s') := match revision with
                             | None => cas_create key value s
                             | Some rev => cas_update key value rev s
                             end in
  match fate with
  | WriteAnswered => (Ok new_revision, s')
  | WriteFails landed => (Err KvFailure, if landed then s' else s)
  end.

(** The [for attempt in range(...)] of [_attempt]. *)
Fixpoint attempt_loop (its : list iteration) (key : string) (tokens : Z) : M St (result TokenClaimResult bucket_error) :=
  match its with
  | [] => retM (Err TokenBucketConflict)
  | it :: rest => fun s =>
      let now := it_now it in
      let s := it_before_read it s in
      if it_read_fails it then (Err KvFailure, s) else
      match read_tokens now (cas_get s key) with
      | Err e => (Err e, s)
      | Ok (current_tokens, revision) =>
          if current_tokens <? tokens then
            let shortfall := tokens - current_tokens in
            (Ok (mkTokenClaimResult false current_tokens (inject_Z shortfall / inject_Z (tb_refill_rate b))), s)
          else
            let new_tokens := current_tokens - tokens in
            let s := it_before_write it s in
            let '(r, s) := cas_write key (encode_state new_tokens now) revision (it_write it) s in
            match r with
            | Err e => (Err e, s)
            | Ok (Some _) => (Ok (mkTokenClaimResult true new_tokens 0), s)
            | Ok None => attempt_loop rest key tokens s
            end
      end
  end.

(** [_attempt]. *)
Definition attempt (its : list iteration) (key : string) (tokens : Z) : M St (result TokenClaimResult bucket_error) :=
  attempt_loop (firstn CAS_MAX_RETRIES its) key tokens.

(** The [while True] of [claim]: one round per pass, with the clock reading taken after it. *)
Fixpoint claim_loop (rounds : list (list iteration * Z)) (key : string) (tokens : Z) (deadline : option Z)
  : M St (option (result TokenClaimResult bucket_error)) :=
  match rounds with
  | [] => retM None
  | (its, later) :: rest => fun s =>
      let '(r, s) := attempt its key tokens s in
      match r with
      | Err e => (Some (Err e), s)
      | Ok result =>
          if tc_claimed result then (Some (Ok result), s)
          else match deadline with
               | None => (Some (Ok result), s)
               | Some d => if d - later <=? 0 then (Some (Ok result), s) else claim_loop rest key tokens deadline s
               end
      end
  end.

(** [claim]; [started] is the clock reading the deadline is counted from. *)
Definition claim (rounds : list (list iteration * Z)) (key : string) (tokens max_wait started : Z)
  : M St (option (result TokenClaimResult bucket_error)) :=
  if tb_capacity b <? tokens then retM (Some (Err ExceedsCapacity))
  else
    let stored := owner_scoped_key (tb_key_scope b) key in
    let deadline := if 0 <? max_wait then Some (started + max_wait) else None in
    claim_loop rounds stored tokens deadline.

(** The loop of [refund]; [Ok None] is the loop's end with every swap lost. *)
Fixpoint refund_loop (its : list iteration) (key : string) (tokens : Z) : M St (result (option Z) bucket_error) :=
  match its with
  | [] => retM (Ok None)
  | it :: rest => fun s =>
      let now := it_now it in
      let s := it_before_read it s in
      if it_read_fails it then (Err KvFailure, s) else
      match cas_get s key with
      | None => (Ok (Some (tb_capacity b)), s)
      | Some (value, revision) =>
          match decode_state value with
          | Err e => (Err e, s)
          | Ok st =>
              let restored := Z.min (tb_capacity b) (refilled now st + tokens) in
              let s := it_before_write it s in
              let '(r, s) := cas_write key (encode_state restored now) (Some revision) (it_write it) s in
              match r with
              | Err e => (Err e, s)
              | Ok (Some _) => (Ok (Some restored), s)
              | Ok None => refund_loop rest key tokens s
              end
          end
      end
  end.

(** [refund]: every failure is swallowed and reported as [-1]. *)
Definition refund (its : list iteration) (key : string) (tokens : Z) : M St Z := fun s =>
  if tokens <=? 0 then (-1, s)
  else
    let '(r, s) := refund_loop (firstn CAS_MAX_RETRIES its) (owner_scoped_key (tb_key_scope b) key) tokens s in
    (match r with Ok (Some restored) => restored | Ok None | Err _ => -1 end, s).
End Bucket.

(** ** The abstract bucket *)

(** What a fresh key and a stored one have at [now]. *)
Definition available (b : TokenBucket) (now : Z) (st : option BucketState) : Z :=
  match st with None => tb_capacity b | Some st => refilled b now st end.

(** One atomic claim. *)
Definition spend (b : TokenBucket) (now tokens : Z) (st : option BucketState) : option BucketState :=
  if available b now st <? tokens then None else Some (mkBucketState (available b now st - tokens) now).

(** ** The loop implements the abstract claim *)

Section Linearize.
Context {St : Type} `{HC : CasStore St stored_value} `{HL : !CasStoreLaws St stored_value}.
Variable b : TokenBucket.

(** What a key holds, decoded. *)
Definition holds (s : St) (key : string) (st : option BucketState) : Prop :=
  match st with
  | None => cas_get s key = None
  | Some st => exists v rev, cas_get s key = Some (v, rev) /\ decode_state v = Ok st
  end.

(** Others leave a revision its value between the read and the write. *)
Definition fair (it : iteration (St := St)) : Prop := revisions_unique (it_before_write it).

Lemma read_tokens_holds now s key avail rev :
  read_tokens b now (cas_get s key) = Ok (avail, rev) ->
  exists st, holds s key st /\ avail = available b now st
    /\ match rev with None => cas_get s key = None | Some r => exists v, cas_get s key = Some (v, r) end.
Proof.
  unfold read_tokens. destruct (cas_get s key) as [[v r]|] eqn:Hg.
  - destruct (decode_state v) as [st|] eqn:Hd; [|done]. intros [= <- <-]. exists (Some st). simpl. split; [|by eauto].
    by exists v, r.
  - intros [= <- <-]. by exists None.
Qed.

Lemma cas_write_success key v rev f s s1 s' r :
  revisions_unique f -> s1 = f s ->
  match rev with None => cas_get s key = None | Some r => exists v, cas_get s key = Some (v, r) end ->
  cas_write key v rev WriteAnswered s1 = (Ok (Some r), s') ->
  (forall st, holds s key st -> holds s1 key st) /\ exists r', written s1 key v r' s'.
Proof.
  intros Hu Hs1 Hrev. unfold cas_write. destruct rev as [rv|].
  - destruct Hrev as [v0 Hv0].
    destruct (cas_get s1 key) as [[v1 r1]|] eqn:Hg1.
    + destruct (decide (r1 = rv)) as [->|Hne].
      * destruct (update_current s1 key v v1 rv Hg1) as (r' & s2 & -> & Hw). intros [= <- <-]. split; [|by eauto].
        assert (v1 = v0) as -> by (subst s1; by eapply Hu).
        intros [st|]; simpl; rewrite Hv0, Hg1; [|done]. naive_solver.
      * rewrite (update_stale s1 key v rv); [done|]. intros v2. rewrite Hg1. congruence.
    + rewrite (update_stale s1 key v rv); [done|]. intros v2. by rewrite Hg1.
  - destruct (cas_get s1 key) as [e|] eqn:Hg1; [by rewrite (create_present s1 key v e Hg1)|].
    destruct (create_absent s1 key v Hg1) as (r' & s2 & -> & Hw). intros [= <- <-]. split; [|by eauto].
    intros [st|]; simpl; rewrite Hrev, Hg1; [|done]. naive_solver.
Qed.

Lemma attempt_loop_claimed its key tokens s r s' :
  Forall fair its -> attempt_loop b its key tokens s = (Ok r, s') -> tc_claimed r = true ->
  exists it s1 st st' rev, it ∈ its /\ holds s1 key st /\ spend b (it_now it) tokens st = Some st'
    /\ written s1 key (encode_state (bs_tokens st') (bs_last_refill st')) rev s' /\ tc_tokens_remaining r = bs_tokens st'.
Proof.
  revert s. induction its as [|it its IH]; intros s Hf; cbn [attempt_loop]; [done|].
  inversion Hf as [|? ? Hit Hits]; subst. set (s0 := it_before_read it s).
  destruct (it_read_fails it); [done|]. destruct (read_tokens b (it_now it) (cas_get s0 key)) as [[avail rev]|e] eqn:Hrd; [|done].
  apply read_tokens_holds in Hrd as (st & Hst & Hav & Hrev).
  destruct (Z.ltb_spec avail tokens); [by intros [= <- <-]|].
  set (s1 := it_before_write it s0). destruct (cas_write _ _ _ _ s1) as [w s2] eqn:Hw.
  destruct w as [[rv|]|e]; [|intros Hl Hc|done].
  - intros [= <- <-] _. destruct (it_write it) eqn:Hfate; [|unfold cas_write in Hw; by repeat case_match].
    destruct (cas_write_success key _ rev (it_before_write it) s0 s1 s2 rv Hit eq_refl Hrev Hw) as [Hh [r' Hw']].
    exists it, s1, st, (mkBucketState (avail - tokens) (it_now it)), r'. split_and!; [set_solver|by apply Hh| |done|done].
    unfold spend. rewrite <- Hav. by destruct (Z.ltb_spec avail tokens); [lia|].
  - destruct (IH s2 Hits Hl Hc) as (it' & s1' & st1 & st2 & rv & ? & ?). exists it', s1', st1, st2, rv. set_solver.
Qed.
End Linearize.

(** The rounds of a claim, and what it does when one of them is granted. *)
Definition fair_rounds {St} `{CasStore St stored_value} (rounds : list (list (iteration (St := St)) * Z)) : Prop :=
  Forall (fun round => Forall fair round.1) rounds.

Lemma claim_loop_granted {St} `{HC : CasStore St stored_value} b (rounds : list (list (iteration (St := St)) * Z)) key tokens deadline s r s' :
  claim_loop b rounds key tokens deadline s = (Some (Ok r), s') -> tc_claimed r = true ->
  exists its later s0, (its, later) ∈ rounds /\ attempt b its key tokens s0 = (Ok r, s').
Proof.
  revert s. induction rounds as [|[its later] rounds IH]; intros s; cbn [claim_loop]; [done|]. intros Hl Hc.
  destruct (attempt b its key tokens s) as [[res|e] s1] eqn:Ha; [|done].
  assert (Hdone : (Some (Ok res : result TokenClaimResult bucket_error), s1) = (Some (Ok r), s') -> exists its' later' s0,
            (its', later') ∈ (its, later) :: rounds /\ attempt b its' key tokens s0 = (Ok r, s')).
  { intros [= -> ->]. exists its, later, s. split; [set_solver|done]. }
  destruct (tc_claimed res); [auto|]. destruct deadline as [d|]; [|auto]. destruct (d - later <=? 0); [auto|].
  destruct (IH s1 Hl Hc) as (its' & later' & s0 & Hin & H). exists its', later', s0. split; [set_solver|done].
Qed.

(** (C29) A granted claim is one atomic withdrawal: however long it waited and however other claimers'
    writes fall around its awaits, it took effect at a single moment, on what the owner's key held at
    that moment, at the clock reading its pass took, leaving the key between empty and capacity less
    the claim. *)
Theorem claim_linearizes {St} `{HC : CasStore St stored_value} `{HL : !CasStoreLaws St stored_value}
    b (rounds : list (list (iteration (St := St)) * Z)) key tokens max_wait started s r s' :
  fair_rounds rounds -> 0 <= tokens ->
  claim b rounds key tokens max_wait started s = (Some (Ok r), s') -> tc_claimed r = true ->
  let stored := owner_scoped_key (tb_key_scope b) key in
  exists round it s1 st st' rev, round ∈ rounds /\ it ∈ round.1 /\ holds s1 stored st
    /\ spend b (it_now it) tokens st = Some st'
    /\ written s1 stored (encode_state (bs_tokens st') (bs_last_refill st')) rev s'
    /\ tc_tokens_remaining r = bs_tokens st' /\ 0 <= bs_tokens st' <= tb_capacity b - tokens.
Proof.
  intros Hf Ht. unfold claim. destruct (tb_capacity b <? tokens); [done|]. intros Hcl Hc.
  apply claim_loop_granted in Hcl as (its & later & s0 & Hin & Ha); [|done]. set (stored := owner_scoped_key _ _) in *.
  unfold fair_rounds in Hf. rewrite Forall_forall in Hf. specialize (Hf _ Hin). simpl in Hf.
  destruct (attempt_loop_claimed b (firstn CAS_MAX_RETRIES its) stored tokens s0 r s')
    as (it & s1 & st & st' & rev & H1 & H2 & H3 & H4 & H5); [by apply Forall_take|done|done|].
  exists (its, later), it, s1, st, st', rev. split_and!; [done| |done..| |].
  - apply list_elem_of_lookup in H1 as [i Hi]. apply lookup_take_Some in Hi as [Hi _]. by eapply list_elem_of_lookup_2.
  - unfold spend in H3. destruct (Z.ltb_spec (available b (it_now it) st) tokens); [done|]. injection H3 as <-. simpl. lia.
  - unfold spend in H3. destruct (Z.ltb_spec (available b (it_now it) st) tokens); [done|]. injection H3 as <-. simpl.
    unfold available, refilled. destruct st; lia.
Qed.

(** ** A claimer alone *)

(** A pass no one interferes with. *)
Definition alone {St} (now : Z) : iteration (St := St) := mkIteration now (fun s => s) false (fun s => s) WriteAnswered.

Section Alone.
Context {St : Type} `{HC : CasStore St stored_value} `{HL : !CasStoreLaws St stored_value}.
Variable b : TokenBucket.

Lemma attempt_alone now key tokens s st :
  holds s key st ->
  let avail := available b now st in
  if avail <? tokens
  then attempt b [alone now] key tokens s
       = (Ok (mkTokenClaimResult false avail (inject_Z (tokens - avail) / inject_Z (tb_refill_rate b))), s)
  else exists rev s', attempt b [alone now] key tokens s = (Ok (mkTokenClaimResult true (avail - tokens) 0), s')
       /\ written s key (encode_state (avail - tokens) now) rev s'.
Proof.
  intros Hst avail. unfold attempt. cbn [firstn CAS_MAX_RETRIES attempt_loop alone it_now it_before_read it_read_fails
    it_before_write it_write]. unfold read_tokens, cas_write.
  destruct st as [st|]; simpl in Hst.
  - destruct Hst as (v & rev & Hg & Hd). rewrite Hg. simpl. rewrite Hd. simpl. change (refilled b now st) with avail.
    destruct (avail <? tokens); [done|].
    destruct (update_current s key (encode_state (avail - tokens) now) v rev Hg) as (rev' & s' & -> & Hw). eauto.
  - rewrite Hst. simpl. change (tb_capacity b) with avail. destruct (avail <? tokens); [done|].
    destruct (create_absent s key (encode_state (avail - tokens) now) Hst) as (rev' & s' & -> & Hw). eauto.
Qed.

(** A claimer is fair to the others. *)
Lemma attempt_fair now key tokens : revisions_unique (fun s => (attempt b [alone now] key tokens s).2).
Proof using HL.
  intros s k v v' rev Hk. unfold attempt. cbn [firstn CAS_MAX_RETRIES attempt_loop alone it_now it_before_read it_read_fails
    it_before_write it_write]. destruct (read_tokens b now (cas_get s key)) as [[avail rev0]|e] eqn:Hrd; simpl; [|congruence].
  destruct (avail <? tokens); simpl; [congruence|]. apply read_tokens_holds in Hrd as (st & _ & _ & Hrev).
  unfold cas_write. set (val := encode_state _ _). destruct rev0 as [r0|].
  - destruct Hrev as [v0 Hg]. destruct (update_current s key val v0 r0 Hg) as (r' & s' & Hu & Hw & Ho). rewrite Hu. simpl.
    destruct (decide (k = key)) as [->|Hne]; [|rewrite Ho by done; congruence].
    pose proof (update_fresh s key val r0 r' s' Hu). congruence.
  - destruct (create_absent s key val Hrev) as (r' & s' & -> & Hw & Ho). simpl.
    destruct (decide (k = key)) as [->|Hne]; [congruence|]. rewrite Ho by done. congruence.
Qed.

(** Refilling past a shortfall that the capacity does not forbid. *)
Lemma available_later now d st tokens :
  0 < tb_refill_rate b -> 0 <= d -> tokens <= tb_capacity b ->
  (forall st', st = Some st' -> bs_last_refill st' <= now) -> available b now st < tokens ->
  tokens <= available b (now + d) st <-> tokens - available b now st <= d * tb_refill_rate b.
Proof.
  intros Hr Hd Hc Hn Ha. destruct st as [st|]; simpl in *; [|lia]. specialize (Hn st eq_refl). unfold refilled in *.
  rewrite Z.max_r in * by lia. rewrite Z.max_r by lia. nia.
Qed.

Lemma quotient_le x r d : 0 < r -> (inject_Z x / inject_Z r <= inject_Z d)%Q <-> x <= d * r.
Proof.
  intros Hr. destruct r as [|p|p]; [lia| |lia]. unfold Qle, Qdiv, Qinv, inject_Z, Qmult. simpl.
  rewrite Z.mul_1_r, Z.mul_1_r. done.
Qed.
End Alone.

(** The retry estimate of a refusal is exact: with no one else drawing on the key, the same claim
    is granted after a wait if and only if the wait is at least the estimate. *)
Theorem retry_after_exact {St} `{HC : CasStore St stored_value} `{HL : !CasStoreLaws St stored_value}
    b now d key tokens s st r :
  0 < tb_refill_rate b -> 0 <= d -> tokens <= tb_capacity b -> holds s key st ->
  (forall st', st = Some st' -> bs_last_refill st' <= now) ->
  (attempt b [alone now] key tokens s).1 = Ok r -> tc_claimed r = false ->
  (attempt b [alone now] key tokens s).2 = s
  /\ (exists r', (attempt b [alone (now + d)] key tokens s).1 = Ok r' /\ (tc_claimed r' = true <-> (tc_retry_after r <= inject_Z d)%Q)).
Proof.
  intros Hr Hd Hc Hst Hn Ha Hf. pose proof (attempt_alone b now key tokens s st Hst) as H1. simpl in H1.
  destruct (Z.ltb_spec (available b now st) tokens) as [Hlt|Hge].
  2: { destruct H1 as (rev & s' & H1 & _). rewrite H1 in Ha. injection Ha as <-. done. }
  rewrite H1 in Ha |- *. injection Ha as <-. split; [done|]. cbn [tc_retry_after].
  pose proof (attempt_alone b (now + d) key tokens s st Hst) as H2. simpl in H2.
  pose proof (available_later b now d st tokens Hr Hd Hc Hn Hlt) as Hiff.
  assert (Hq := quotient_le (tokens - available b now st) (tb_refill_rate b) d Hr). rewrite <- Hiff in Hq.
  destruct (Z.ltb_spec (available b (now + d) st) tokens) as [Hl|Hg].
  - rewrite H2. eexists. split; [reflexivity|]. cbn [tc_claimed]. rewrite Hq. split; [done|lia].
  - destruct H2 as (rev & s' & H2 & _). rewrite H2. eexists. split; [reflexivity|]. cbn [tc_claimed]. rewrite Hq. tauto.
Qed.

(** ** Refunds *)

Section Refund.
Context {St : Type} `{HC : CasStore St stored_value}.
Variable b : TokenBucket.

Lemma refund_loop_capped its key tokens s r : (refund_loop b its key tokens s).1 = Ok (Some r) -> r <= tb_capacity b.
Proof.
  revert s. induction its as [|it its IH]; intros s; cbn [refund_loop]; [done|].
  destruct (it_read_fails it); [done|]. destruct (cas_get _ key) as [[v rev]|]; simpl; [|intros [= <-]; lia].
  destruct (decode_state v) as [st|]; simpl; [|done].
  destruct (cas_write _ _ _ _ _) as [[[w|]|e] s2]; simpl; [|apply IH|done]. intros [= <-]. lia.
Qed.
End Refund.

(** A refund cannot mint budget: whatever interferes, it reports failure or at most the capacity;
    alone on a key it puts the count at the refilled tokens plus the refund, capped at capacity; and
    on a key nothing was ever claimed from it writes nothing. *)
Theorem refund_never_mints {St} `{HC : CasStore St stored_value} `{HL : !CasStoreLaws St stored_value}
    b its now key tokens s st :
  0 < tokens -> 0 < tb_capacity b -> holds s (owner_scoped_key (tb_key_scope b) key) st ->
  (refund b its key tokens s).1 <= tb_capacity b
  /\ match st with
     | None => refund b [alone now] key tokens s = (tb_capacity b, s)
     | Some st => exists rev s', let after := Z.min (tb_capacity b) (refilled b now st + tokens) in
         refund b [alone now] key tokens s = (after, s')
         /\ written s (owner_scoped_key (tb_key_scope b) key) (encode_state after now) rev s'
     end.
Proof.
  intros Ht Hc Hst. unfold refund. destruct (Z.leb_spec tokens 0); [lia|]. split.
  - pose proof (refund_loop_capped b (firstn CAS_MAX_RETRIES its) (owner_scoped_key (tb_key_scope b) key) tokens s) as Hcap.
    destruct (refund_loop b _ _ tokens s) as [[[r|]|e] s']; simpl in *; [auto|lia|lia].
  - cbn [firstn CAS_MAX_RETRIES refund_loop alone it_now it_before_read it_read_fails it_before_write it_write].
    destruct st as [st|]; simpl in Hst; [|by rewrite Hst]. destruct Hst as (v & rev & Hg & Hd). rewrite Hg, Hd. unfold cas_write.
    destruct (update_current s (owner_scoped_key (tb_key_scope b) key)
      (encode_state (Z.min (tb_capacity b) (refilled b now st + tokens)) now) v rev Hg) as (rev' & s' & -> & Hw). eauto.
Qed.

(** ** A key served over time *)

(** What callers ask of one key, one after another, and when the server may forget it, at which instant. *)
Inductive request :=
| Claim (now tokens : Z)
| Refund (now tokens : Z)
| Forget (now : Z).
Definition request_now (q : request) : Z := match q with Claim now _ | Refund now _ | Forget now => now end.

Fixpoint ordered_from (t : Z) (qs : list request) : bool :=
  match qs with
  | [] => true
  | q :: rest => (t <=? request_now q) && ordered_from (request_now q) rest
  end.
Fixpoint last_instant (t : Z) (qs : list request) : Z :=
  match qs with [] => t | q :: rest => last_instant (request_now q) rest end.
Definition refunded (qs : list request) : Z :=
  foldr (fun q acc => match q with Refund _ n => Z.max 0 n + acc | _ => acc end) 0 qs.
Definition forgotten (qs : list request) : Z := foldr (fun q acc => match q with Forget _ => 1 + acc | _ => acc end) 0 qs.

Section Serve.
Context {St : Type} `{HB : KvBucket St stored_value} `{HL : !KvBucketLaws St stored_value}.
Variable b : TokenBucket.
Variable key : string.
Let stored := owner_scoped_key (tb_key_scope b) key.

(** The server forgets a key nobody has written for [kv_ttl]; it counts from the write, which is not before the instant written. *)
Definition forget (now : Z) (s : St) : St :=
  match tb_kv_ttl b, cas_get s stored with
  | Some ttl, Some (value, _) =>
      match decode_state value with
      | Ok st => if bs_last_refill st + ttl <=? now then cas_expire stored s else s
      | Err _ => s
      end
  | _, _ => s
  end.

(** What a forgotten key is given beyond what it had refilled to. *)
Definition forget_excess : Z := match tb_kv_ttl b with Some ttl => Z.max 0 (tb_capacity b - ttl * tb_refill_rate b) | None => 0 end.

(** The calls one after another; the tokens the claims among them were granted. *)
Fixpoint granted (qs : list request) : M St Z :=
  match qs with
  | [] => retM 0
  | Claim now tokens :: rest => fun s =>
      let '(r, s) := claim b [([alone now], now)] key tokens 0 now s in
      let '(more, s) := granted rest s in
      (match r with Some (Ok r) => if tc_claimed r then tokens + more else more | _ => more end, s)
  | Refund now tokens :: rest => fun s => let '(_, s) := refund b [alone now] key tokens s in granted rest s
  | Forget now :: rest => fun s => granted rest (forget now s)
  end.

Lemma claim_alone now tokens s st :
  holds s stored st ->
  exists r s' st', claim b [([alone now], now)] key tokens 0 now s = (Some r, s') /\ holds s' stored st'
    /\ match r with
       | Ok r => if tc_claimed r then spend b now tokens st = st' /\ is_Some st' else st' = st
       | Err _ => st' = st
       end.
Proof.
  intros Hst. unfold claim. destruct (tb_capacity b <? tokens); [by eexists _, s, st|]. cbn [claim_loop].
  pose proof (attempt_alone b now stored tokens s st Hst) as Ha. cbv zeta in Ha. fold stored.
  destruct (available b now st <? tokens) eqn:Hlt.
  - rewrite Ha. cbn. by eexists _, s, st.
  - destruct Ha as (rev & s' & -> & Hw). cbn.
    eexists _, s', (Some (mkBucketState (available b now st - tokens) now)). split_and!; [done| |].
    + simpl. destruct Hw as [Hg _]. eauto.
    + cbn. unfold spend. rewrite Hlt. eauto.
Qed.

Lemma refund_alone now tokens s st :
  holds s stored st ->
  exists r s' st', refund b [alone now] key tokens s = (r, s') /\ holds s' stored st'
    /\ (st' = st \/ exists st0, st = Some st0
         /\ st' = Some (mkBucketState (Z.min (tb_capacity b) (refilled b now st0 + tokens)) now) /\ 0 < tokens).
Proof.
  intros Hst. unfold refund. destruct (Z.leb_spec tokens 0); [by eexists _, s, st; auto|].
  cbn [firstn CAS_MAX_RETRIES refund_loop alone it_now it_before_read it_read_fails it_before_write it_write].
  fold stored. destruct st as [st|]; simpl in Hst.
  2: { rewrite Hst. eexists _, s, None. auto. }
  destruct Hst as (v & rev & Hg & Hd). rewrite Hg, Hd. unfold cas_write.
  destruct (update_current s stored (encode_state (Z.min (tb_capacity b) (refilled b now st + tokens)) now) v rev Hg)
    as (rev' & s' & -> & Hw).
  eexists _, s', (Some _). split_and!; [done| |right; by eauto]. destruct Hw as [Hg' _]. simpl. eauto.
Qed.
Definition not_negative (st : option BucketState) : Prop := forall st', st = Some st' -> 0 <= bs_tokens st'.

Lemma available_nonneg t st : 0 <= tb_capacity b -> 0 <= tb_refill_rate b -> not_negative st -> 0 <= available b t st.
Proof. intros Hc Hr Hst. destruct st as [st|]; simpl; [|done]. specialize (Hst st eq_refl). unfold refilled. nia. Qed.

Lemma available_grows t t' st : 0 <= tb_refill_rate b -> t <= t' ->
  available b t' st <= available b t st + (t' - t) * tb_refill_rate b.
Proof. intros Hr Ht. destruct st as [st|]; simpl; [|nia]. unfold refilled. nia. Qed.

Lemma available_now now n : available b now (Some (mkBucketState n now)) <= n.
Proof. simpl. unfold refilled. simpl. lia. Qed.

Lemma forget_bound now s st : holds s stored st -> not_negative st -> 0 <= tb_refill_rate b -> 0 <= tb_capacity b ->
  exists st', holds (forget now s) stored st' /\ not_negative st' /\ available b now st' <= available b now st + forget_excess.
Proof.
  intros Hst Hn Hr Hc. assert (Hex : 0 <= forget_excess) by (unfold forget_excess; destruct (tb_kv_ttl b); lia).
  assert (Hsame : forget now s = s -> exists st', holds (forget now s) stored st' /\ not_negative st' /\ available b now st' <= available b now st + forget_excess).
  { intros ->. exists st. split_and!; [done|done|lia]. }
  unfold forget in *. destruct (tb_kv_ttl b) as [ttl|] eqn:Httl; [|by apply Hsame]. destruct st as [st|]; [|simpl in Hst; rewrite Hst in Hsame |- *; by apply Hsame].
  destruct Hst as (v & rev & Hg & Hd). rewrite Hg, Hd in Hsame |- *. destruct (Z.leb_spec (bs_last_refill st + ttl) now) as [Hle|]; [|by apply Hsame].
  exists None. split_and!; [apply (expire_removes s stored)|by intros ?|]. specialize (Hn st eq_refl).
  simpl. unfold forget_excess, refilled. rewrite Httl. nia.
Qed.

Lemma granted_bound qs t s st :
  0 <= tb_refill_rate b -> 0 <= tb_capacity b -> holds s stored st -> not_negative st -> ordered_from t qs = true ->
  (granted qs s).1 <= available b t st + (last_instant t qs - t) * tb_refill_rate b + refunded qs + forgotten qs * forget_excess.
Proof.
  intros Hr Hc. assert (Hex : 0 <= forget_excess) by (unfold forget_excess; destruct (tb_kv_ttl b); lia).
  revert t s st. induction qs as [|[now n|now n|now] qs IH]; intros t s st Hst Hn; cbn [ordered_from request_now].
  - intros _. pose proof (available_nonneg t st Hc Hr Hn). cbn. lia.
  - intros [Ht%Z.leb_le Ho]%andb_true_iff. cbn [granted last_instant request_now refunded forgotten foldr].
    destruct (claim_alone now n s st Hst) as (r & s' & st' & -> & Hst' & Hr').
    pose proof (available_grows t now st Hr Ht) as Hg.
    destruct r as [r|e]; [destruct (tc_claimed r) eqn:Htc|].
    + destruct Hr' as [Hsp [st0 ->]]. unfold spend in Hsp.
      destruct (Z.ltb_spec (available b now st) n) as [|Hge]; [done|]. injection Hsp as <-.
      specialize (IH now s' _ Hst' ltac:(intros ? [= <-]; simpl; lia) Ho).
      pose proof (available_now now (available b now st - n)). destruct (granted qs s') as [more s2]. cbn [fst] in *. rewrite ?Htc.
      unfold refunded, forgotten in *. lia.
    + subst st'. specialize (IH now s' _ Hst' Hn Ho). destruct (granted qs s') as [more s2]. cbn [fst] in *. rewrite ?Htc.
      unfold refunded, forgotten in *. lia.
    + subst st'. specialize (IH now s' _ Hst' Hn Ho). destruct (granted qs s') as [more s2]. cbn [fst] in *.
      unfold refunded, forgotten in *. lia.
  - intros [Ht%Z.leb_le Ho]%andb_true_iff. cbn [granted last_instant request_now refunded forgotten foldr].
    destruct (refund_alone now n s st Hst) as (r & s' & st' & -> & Hst' & Hr').
    pose proof (available_grows t now st Hr Ht) as Hg.
    destruct Hr' as [->|(st0 & -> & -> & Hpos)].
    + specialize (IH now s' _ Hst' Hn Ho). unfold refunded, forgotten in *. lia.
    + pose proof (available_nonneg now (Some st0) Hc Hr Hn) as H0. simpl in H0, Hg.
      specialize (IH now s' _ Hst' ltac:(intros ? [= <-]; simpl; lia) Ho).
      pose proof (available_now now (Z.min (tb_capacity b) (refilled b now st0 + n))). simpl available in *. unfold refunded, forgotten in *. lia.
  - intros [Ht%Z.leb_le Ho]%andb_true_iff. cbn [granted last_instant request_now refunded forgotten foldr].
    destruct (forget_bound now s st Hst Hn Hr Hc) as (st' & Hst' & Hn' & Hle). specialize (IH now _ _ Hst' Hn' Ho).
    pose proof (available_grows t now st Hr Ht). unfold refunded, forgotten in *. lia.
Qed.
End Serve.

(** (C38) Tokens are never over-issued while instants do not go back: whatever is claimed from a key and refunded to it, from its first call on, and whenever the
    server forgets the key, the grants add up to at most the capacity, the refill of the time they span, what was put back, and for each time the key was
    forgotten what the capacity exceeds the refill of [kv_ttl] by: nothing, when an empty bucket refills within [kv_ttl]. *)
Theorem claims_never_over_issue {St} `{HB : KvBucket St stored_value} `{HL : !KvBucketLaws St stored_value}
    b key qs t s :
  0 < tb_refill_rate b -> 0 < tb_capacity b ->
  cas_get s (owner_scoped_key (tb_key_scope b) key) = None -> ordered_from t qs = true ->
  (granted b key qs s).1 <= tb_capacity b + (last_instant t qs - t) * tb_refill_rate b + refunded qs
    + forgotten qs * match tb_kv_ttl b with Some ttl => Z.max 0 (tb_capacity b - ttl * tb_refill_rate b) | None => 0 end.
Proof. intros Hr Hc Hs Ho. apply (granted_bound b key qs t s None); [lia|lia|done|by intros ?|done]. Qed.

(** ** Instants that go back *)

Definition sample_bucket : TokenBucket := mkTokenBucket 1 10 (Some 3600) None.
Definition empty_store : table_store stored_value := mkTableStore ∅ 0.

(** The bound needs instants that do not go back, and the code does not enforce it: a pass reads its
    clock before its read of the key, so a claimer that is overtaken between the two (or whose clock is
    behind) rewinds the stored instant, and the time since is refilled twice. Here a bucket of capacity
    10 refilled at 1 per tick grants 30 tokens within 10 ticks. *)
Theorem overtaken_claim_refills_twice :
  let claimed now n s := attempt sample_bucket [alone now] "k" n s in
  let '(r1, s1) := claimed 0 10 empty_store in
  let overtaken := mkIteration 0 (fun s => (claimed 10 9 s).2) false (fun s => s) WriteAnswered in
  let '(r2, s2) := attempt sample_bucket [overtaken] "k" 1 s1 in
  let '(r3, s3) := claimed 10 10 s2 in
  (tc_claimed <$> match r1 with Ok r => Some r | Err _ => None end) = Some true
  /\ (tc_claimed <$> match (claimed 10 9 s1).1 with Ok r => Some r | Err _ => None end) = Some true
  /\ (tc_claimed <$> match r2 with Ok r => Some r | Err _ => None end) = Some true
  /\ (tc_claimed <$> match r3 with Ok r => Some r | Err _ => None end) = Some true.
Proof. vm_compute. repeat split. Qed.

(** ** Witnesses *)

Definition sample_requests : list request := [Claim 0 10; Claim 4 3; Refund 5 2; Claim 6 9; Claim 10 8; Forget 3700; Claim 3700 10].

Lemma claims_never_over_issue_witness :
  (granted sample_bucket "k" sample_requests empty_store).1 = 31
  /\ (granted sample_bucket "k" sample_requests empty_store).1 <= 10 + (3700 - 0) * 1 + 2 + 1 * Z.max 0 (10 - 3600 * 1).
Proof.
  split; [vm_compute; reflexivity|].
  apply (claims_never_over_issue sample_bucket "k" sample_requests 0 empty_store); reflexivity.
Defined.

(** A bucket that takes longer than [kv_ttl] to refill is given the difference by being forgotten: one of capacity 10 refilled at 1 per tick, with a [kv_ttl] of 3,
    grants 20 tokens within 3 ticks, which the comment on [kv_ttl] calls a pure cleanup knob. *)
Theorem forgotten_key_over_issues : (granted (mkTokenBucket 1 10 (Some 3) None) "k" [Claim 0 10; Forget 3; Claim 3 10] empty_store).1 = 20.
Proof. vm_compute. reflexivity. Qed.

(** Two rounds: the first finds too little, the second is overtaken by another claim and then granted. *)
Definition drained_store : table_store stored_value := (attempt sample_bucket [alone 3] "k" 10 empty_store).2.
Definition overtaken_pass : iteration (St := table_store stored_value) :=
  mkIteration 8 (fun s => s) false (fun s => (attempt sample_bucket [alone 8] "k" 1 s).2) WriteAnswered.
Definition sample_rounds : list (list (iteration (St := table_store stored_value)) * Z) :=
  [([alone 4], 4); ([overtaken_pass; alone 9], 9)].

Lemma claim_linearizes_witness :
  exists r s', claim sample_bucket sample_rounds "k" 5 20 3 drained_store = (Some (Ok r), s')
  /\ exists round it s1 st st' rev, round ∈ sample_rounds /\ it ∈ round.1 /\ holds s1 "k" st
    /\ spend sample_bucket (it_now it) 5 st = Some st'
    /\ written s1 "k" (encode_state (bs_tokens st') (bs_last_refill st')) rev s'
    /\ tc_tokens_remaining r = bs_tokens st' /\ 0 <= bs_tokens st' <= 10 - 5.
Proof.
  eexists _, _. split; [vm_compute; reflexivity|].
  apply (claim_linearizes sample_bucket sample_rounds "k" 5 20 3 drained_store).
  - assert (Hid : forall t, fair (alone (St := table_store stored_value) t)) by (intros t s k v v' rev H1 H2; simpl in *; congruence).
    assert (Hov : fair overtaken_pass) by (apply (attempt_fair sample_bucket 8 "k" 1)).
    repeat (constructor; simpl; auto).
  - lia.
  - vm_compute. reflexivity.
  - reflexivity.
Defined.

Lemma retry_after_exact_witness :
  exists r', (attempt sample_bucket [alone (3 + 4)] "k" 4 drained_store).1 = Ok r' /\ (tc_claimed r' = true <-> (inject_Z 4 / inject_Z 1 <= inject_Z 4)%Q).
Proof.
  apply (retry_after_exact sample_bucket 3 4 "k" 4 drained_store (Some (mkBucketState 0 3))
    (mkTokenClaimResult false 0 (inject_Z 4 / inject_Z 1))).
  - reflexivity.
  - lia.
  - simpl. lia.
  - vm_compute. eexists _, _. split; reflexivity.
  - intros st' H. injection H as <-. simpl. lia.
  - vm_compute. reflexivity.
  - reflexivity.
Defined.

Lemma refund_never_mints_witness : (refund sample_bucket [alone 5; alone 6] "k" 40 drained_store).1 <= 10.
Proof.
  apply (refund_never_mints sample_bucket [alone 5; alone 6] 5 "k" 40 drained_store (Some (mkBucketState 0 3))).
  - lia.
  - reflexivity.
  - vm_compute. eexists _, _. split; reflexivity.
Defined.
