(* ===== verification/Lease.v ===== *)
(** * The distributed lease

    [src/packages/core/src/threetears/core/coordination/lease.py]: [KVLease], [LeaseHandle] and
    [HeldLease], a mutex with an expiry over one bucket entry. Each method is a program of
    [KvProtocol.v] whose nodes are its awaits. A handle is a mutable object in the code; here it is
    threaded, so a method that raises half-way still returns the handle as it left it. A holder is the
    [pod_id] of one [KVLease], which holds the key once at a time.

    The theorems here are of one call alone on the bucket; [LeaseExclusion.v] has any number of holders.

    The clock is shared: [datetime.now(UTC)] and [loop.time()] read the same one, in ticks, and every
    process reads it when it says it does. The expiry timer of a [HeldLease] is the comparison of its
    expiry with the clock. *)

From Stdlib Require Import Ascii String Bool List NArith ZArith Lia.
From stdpp Require Import base list gmap strings functions relations.
From S2P Require Import Prelude CasStore KvProtocol.

Open Scope Z_scope.

(** ** Data *)

(** What an entry's bytes decode to: an envelope, or nothing readable. *)
Inductive lease_value :=
| Envelope (holder : string) (date_expires date_acquired : Z)
| Unreadable (raw : string).

#[export] Instance lease_value_eq : EqDecision lease_value.
Proof. solve_decision. Defined.

(** [LockLossReason]. *)
Inductive LeaseLossReason := EXPIRED | TAKEN | RENEWAL_FAILED | MAX_HOLD.

Inductive lease_error :=
| KvError
| ValueError
| LeaseUnavailable
| LeaseTimeout
| LeaseLost (reason : LeaseLossReason).

Record LeaseHandle := mkLeaseHandle {
  lh_holder : string;
  lh_revision : Z;
  lh_ttl_seconds : Z;
  lh_date_expires : option Z;
  lh_released : bool;
  lh_in_flight_value : option lease_value;
}.

Definition set_revision (rev : Z) (h : LeaseHandle) : LeaseHandle :=
  mkLeaseHandle (lh_holder h) rev (lh_ttl_seconds h) (lh_date_expires h) (lh_released h) (lh_in_flight_value h).
Definition set_in_flight (v : option lease_value) (h : LeaseHandle) : LeaseHandle :=
  mkLeaseHandle (lh_holder h) (lh_revision h) (lh_ttl_seconds h) (lh_date_expires h) (lh_released h) v.
Definition set_ttl (ttl : Z) (h : LeaseHandle) : LeaseHandle :=
  mkLeaseHandle (lh_holder h) (lh_revision h) ttl (lh_date_expires h) (lh_released h) (lh_in_flight_value h).
Definition set_expires (e : Z) (h : LeaseHandle) : LeaseHandle :=
  mkLeaseHandle (lh_holder h) (lh_revision h) (lh_ttl_seconds h) (Some e) (lh_released h) (lh_in_flight_value h).
Definition set_released (h : LeaseHandle) : LeaseHandle :=
  mkLeaseHandle (lh_holder h) (lh_revision h) (lh_ttl_seconds h) (lh_date_expires h) true (lh_in_flight_value h).

Record HeldLease := mkHeldLease {
  hl_handle : LeaseHandle;
  hl_ttl : Z;
  hl_expires_at : Z;
  hl_retake : bool;
  hl_hold_deadline : option Z;
  hl_lost : option LeaseLossReason;
  hl_released : bool;
}.

Definition held (h : HeldLease) : bool := negb (isSome (hl_lost h)) && negb (hl_released h).

(** [_mark_lost]. *)
Definition mark_lost (reason : LeaseLossReason) (h : HeldLease) : HeldLease :=
  if isSome (hl_lost h) || hl_released h then h
  else mkHeldLease (hl_handle h) (hl_ttl h) (hl_expires_at h) (hl_retake h) (hl_hold_deadline h) (Some reason) (hl_released h).

(** [_on_expired]. *)
Definition on_expired (h : HeldLease) : HeldLease := if hl_retake h then h else mark_lost RENEWAL_FAILED h.

Definition with_handle (lh : LeaseHandle) (h : HeldLease) : HeldLease :=
  mkHeldLease lh (hl_ttl h) (hl_expires_at h) (hl_retake h) (hl_hold_deadline h) (hl_lost h) (hl_released h).
Definition with_expires_at (e : Z) (h : HeldLease) : HeldLease :=
  mkHeldLease (hl_handle h) (hl_ttl h) e (hl_retake h) (hl_hold_deadline h) (hl_lost h) (hl_released h).

(** A tick is a microsecond. *)
Definition second : Z := 1000000.

(** ** Programs *)

Section Programs.
(** The stored key ([owner_scoped_key] of the caller's) and this lease's [pod_id]. *)
Variable key : string.
Variable pod_id : string.

Abbreviation kprog := (prog lease_value).

(** [_maybe_reclaim_stale]. *)
Definition maybe_reclaim_stale (ttl_seconds now date_expires : Z) : kprog (result (option LeaseHandle) lease_error) :=
  GetEntry key (fun entry =>
    match entry with
    | None => Ret (Err KvError)
    | Some None => Ret (Ok None)
    | Some (Some (value, revision)) =>
        match value with
        | Unreadable _ => Ret (Ok None)
        | Envelope _ expires _ =>
            if now <? expires then Ret (Ok None)
            else Write (RUpdate key (Envelope pod_id date_expires now) revision) (fun a =>
                   Ret match a with
                       | Raised => Err KvError
                       | Refused => Ok None
                       | Applied rev => Ok (Some (mkLeaseHandle pod_id rev ttl_seconds (Some date_expires) false None))
                       end)
        end
    end).

(** [_try_once], after and with its reading of the clock. *)
Definition try_at (ttl_seconds now : Z) : kprog (result (option LeaseHandle) lease_error) :=
  let date_expires := now + ttl_seconds in
  let payload := Envelope pod_id date_expires now in
  let won rev := Ret (Ok (Some (mkLeaseHandle pod_id rev ttl_seconds (Some date_expires) false None))) in
  Write (RCreate key payload) (fun a =>
    match a with
    | Raised => Ret (Err KvError)
    | Applied rev => won rev
    | Refused =>
        GetEntry key (fun entry =>
          match entry with
          | None => Ret (Err KvError)
          | Some None =>
              Write (RCreate key payload) (fun a =>
                match a with
                | Raised => Ret (Err KvError)
                | Applied rev => won rev
                | Refused => maybe_reclaim_stale ttl_seconds now date_expires
                end)
          | Some (Some _) => maybe_reclaim_stale ttl_seconds now date_expires
          end)
    end).

Definition try_once (ttl_seconds : Z) : kprog (result (option LeaseHandle) lease_error) := ReadClock (try_at ttl_seconds).

(** The [while] of [acquire], for at most [rounds] of it; [None] while it would still be waiting. *)
Fixpoint acquire_loop (rounds : nat) (ttl_seconds max_wait_seconds deadline : Z)
  : kprog (option (result LeaseHandle lease_error)) :=
  match rounds with
  | O => Ret None
  | S rounds =>
      pbind (try_once ttl_seconds) (fun attempt =>
        match attempt with
        | Err e => Ret (Some (Err e))
        | Ok (Some handle) => Ret (Some (Ok handle))
        | Ok None =>
            ReadClock (fun now =>
              if max_wait_seconds =? 0 then Ret (Some (Err LeaseUnavailable))
              else if deadline - now <=? 0 then Ret (Some (Err LeaseTimeout))
              else acquire_loop rounds ttl_seconds max_wait_seconds deadline)
        end)
  end.

Definition acquire (rounds : nat) (ttl_seconds max_wait_seconds : Z) : kprog (option (result LeaseHandle lease_error)) :=
  ReadClock (fun now => acquire_loop rounds ttl_seconds max_wait_seconds (now + max_wait_seconds)).

(** [refresh_handle]: the handle as the call leaves it, and the call's outcome. *)
Definition refresh_handle (handle : LeaseHandle) (ttl_seconds : option Z) (adopt_own_revision : bool)
  : kprog (LeaseHandle * result unit lease_error) :=
  GetEntry key (fun entry =>
    match entry with
    | None => Ret (handle, Err KvError)
    | Some None => Ret (handle, Err (LeaseLost EXPIRED))
    | Some (Some (Unreadable _, _)) => Ret (handle, Err (LeaseLost TAKEN))
    | Some (Some (Envelope holder e date_acquired as value, observed)) =>
        if negb (String.eqb holder (lh_holder handle)) then Ret (handle, Err (LeaseLost TAKEN))
        else
          let unanswered := lh_in_flight_value handle in
          let adopts := negb (observed =? lh_revision handle) && (adopt_own_revision || bool_decide (Some value = unanswered)) in
          let handle := if adopts then set_revision observed handle else handle in
          let unanswered := if adopts then None else unanswered in
          let effective_ttl := default (lh_ttl_seconds handle) ttl_seconds in
          ReadClock (fun now =>
            let payload := Envelope (lh_holder handle) (now + effective_ttl) date_acquired in
            let handle := set_in_flight (Some payload) handle in
            let renewed rev := (set_ttl effective_ttl (set_revision rev (set_in_flight None handle)), Ok tt) in
            Write (RUpdate key payload (lh_revision handle)) (fun a =>
              match a, unanswered with
              | Raised, _ => Ret (handle, Err KvError)
              | Applied rev, _ => Ret (renewed rev)
              | Refused, None => Ret (set_in_flight None handle, Err (LeaseLost TAKEN))
              | Refused, Some u =>
                  let handle := set_in_flight (Some u) handle in
                  GetEntry key (fun landed =>
                    match landed with
                    | None => Ret (handle, Err KvError)
                    | Some (Some (v, r)) =>
                        if bool_decide (v = u) then
                          let handle := set_in_flight (Some payload) (set_revision r handle) in
                          Write (RUpdate key payload r) (fun a =>
                            match a with
                            | Raised => Ret (handle, Err KvError)
                            | Applied rev => Ret (renewed rev)
                            | Refused => Ret (set_in_flight None handle, Err (LeaseLost TAKEN))
                            end)
                        else Ret (handle, Err (LeaseLost TAKEN))
                    | Some None => Ret (handle, Err (LeaseLost TAKEN))
                    end)
              end))
    end).

(** [retake_handle]. *)
Definition retake_handle (handle : LeaseHandle) : kprog (LeaseHandle * result bool lease_error) :=
  ReadClock (fun now =>
    let date_expires := now + lh_ttl_seconds handle in
    let payload := Envelope (lh_holder handle) date_expires now in
    let handle := set_in_flight (Some payload) handle in
    Write (RCreate key payload) (fun a =>
      match a with
      | Raised => Ret (handle, Err KvError)
      | Refused => Ret (set_in_flight None handle, Ok false)
      | Applied rev => Ret (set_expires date_expires (set_revision rev (set_in_flight None handle)), Ok true)
      end)).

(** [release_handle]. *)
Definition release_handle (handle : LeaseHandle) : kprog (LeaseHandle * result unit lease_error) :=
  if lh_released handle then Ret (handle, Ok tt)
  else
    GetEntry key (fun entry =>
      match entry with
      | None => Ret (handle, Err KvError)
      | Some None | Some (Some (Unreadable _, _)) => Ret (set_released handle, Ok tt)
      | Some (Some (Envelope holder e a as value, observed)) =>
          if negb (String.eqb holder (lh_holder handle)) then Ret (set_released handle, Ok tt)
          else
            let revision := if negb (observed =? lh_revision handle) && bool_decide (lh_in_flight_value handle = Some value)
                            then observed else lh_revision handle in
            if revision <=? 0 then Ret (set_released handle, Ok tt)
            else Write (RDelete key revision) (fun a =>
                   match a with
                   | Raised => Ret (handle, Err KvError)
                   | _ => Ret (set_released handle, Ok tt)
                   end)
      end).

(** [_hold_seconds], on ticks. *)
Definition hold_seconds (ttl renew_every : Z) : result (Z * Z) lease_error :=
  if (ttl <? second) || negb (ttl mod second =? 0) then Err ValueError
  else if renew_every <=? 0 then Err ValueError
  else if ttl <=? renew_every then Err ValueError
  else Ok (ttl, renew_every).

(** [hold]: the expiry is taken over to the loop's clock, which is read first. *)
Definition hold (rounds : nat) (ttl renew_every max_wait_seconds : Z) (retake : bool) (max_hold : option Z)
  : kprog (option (result HeldLease lease_error)) :=
  match hold_seconds ttl renew_every with
  | Err e => Ret (Some (Err e))
  | Ok (ttl_seconds, _) =>
      if match max_hold with Some m => m <? 0 | None => false end then Ret (Some (Err ValueError))
      else pbind (acquire rounds ttl_seconds max_wait_seconds) (fun r =>
        match r with
        | Some (Ok handle) =>
            ReadClock (fun loop_time => ReadClock (fun now => ReadClock (fun created =>
              let expires_at := loop_time + (default now (lh_date_expires handle) - now) in
              Ret (Some (Ok (mkHeldLease handle ttl_seconds expires_at retake (Z.add created <$> max_hold) None false))))))
        | Some (Err e) => Ret (Some (Err e))
        | None => Ret None
        end)
  end.

(** [_renew_once]. *)
Definition renew_once (h : HeldLease) : kprog (LeaseHandle * result unit lease_error) :=
  pbind (refresh_handle (hl_handle h) None (hl_retake h)) (fun r =>
    match r with
    | (handle, Err (LeaseLost reason)) =>
        if hl_retake h then
          pbind (retake_handle handle) (fun r =>
            Ret match r with
                | (handle, Ok true) => (handle, Ok tt)
                | (handle, Ok false) => (handle, Err (LeaseLost reason))
                | (handle, Err e) => (handle, Err e)
                end)
        else Ret (handle, Err (LeaseLost reason))
    | _ => Ret r
    end).

(** One turn of the loop of [_renew], from the end of its pause; the last reading is the expiry timer,
    which has fired if the renewal outlived the expiry. *)
Definition renew_answered (h : HeldLease) (started : Z) (r : LeaseHandle * result unit lease_error) : kprog HeldLease :=
  ReadClock (fun now =>
    let '(handle, outcome) := r in
    let h := with_handle handle h in
    let h := if hl_expires_at h <=? now then on_expired h else h in
    Ret match outcome with
        | Ok _ => with_expires_at (started + hl_ttl h) h
        | Err (LeaseLost reason) => mark_lost reason h
        | Err _ => h
        end).

Definition renew (h : HeldLease) : kprog HeldLease :=
  if negb (held h) then Ret h
  else
    ReadClock (fun t =>
      if match hl_hold_deadline h with Some d => d <=? t | None => false end then Ret (mark_lost MAX_HOLD h)
      else ReadClock (fun started =>
        if (hl_expires_at h - started <=? 0) && negb (hl_retake h) then Ret (on_expired h)
        else pbind (renew_once h) (renew_answered h started))).

(** [release]: the lease stops being held before its entry is deleted, and a failure is contained. The
    wait for a renewal still under way is the order of a holder's operations. *)
Definition released (h : HeldLease) : HeldLease :=
  mkHeldLease (hl_handle h) (hl_ttl h) (hl_expires_at h) (hl_retake h) (hl_hold_deadline h) (hl_lost h) true.
Definition delete_entry (h : HeldLease) : kprog HeldLease :=
  pbind (release_handle (hl_handle h)) (fun r => Ret (with_handle r.1 h)).
Definition release (h : HeldLease) : kprog HeldLease := if hl_released h then Ret h else delete_entry (released h).

(** [held] and [holder]. *)
Definition held_by : kprog (result (option (string * Z)) lease_error) :=
  GetEntry key (fun entry =>
    match entry with
    | None => Ret (Err KvError)
    | Some (Some (Envelope holder e a, _)) => ReadClock (fun now => Ret (Ok (if now <? e then Some (holder, a) else None)))
    | Some _ => Ret (Ok None)
    end).
Definition holder : kprog (result (option string) lease_error) :=
  pbind held_by (fun r => Ret match r with Ok holding => Ok (fst <$> holding) | Err e => Err e end).
End Programs.

(** ** One call, alone on the bucket *)

Section Alone.
Context {St : Type} `{HB : KvBucket St lease_value} `{HL : !KvBucketLaws St lease_value}.
Variables (key i : string).

(** Whether an entry keeps others out at [now]: an unreadable one does, whoever's it is. *)
Definition blocks (now : Z) (entry : option (lease_value * Z)) : bool :=
  match entry with
  | None => false
  | Some (Envelope _ e _, _) => now <? e
  | Some (Unreadable _, _) => true
  end.

Lemma reclaim_free ttl now times now0 s v rev :
  cas_get s key = Some (v, rev) -> blocks now (Some (v, rev)) = false ->
  exists rev s', written s key (Envelope i (now + ttl) now) rev s'
    /\ run_from (maybe_reclaim_stale key i ttl now (now + ttl)) times now0 s
       = (Ok (Some (mkLeaseHandle i rev ttl (Some (now + ttl)) false None)), (times, now0, s')).
Proof using HL.
  intros Hg Hb. cbn [run_from maybe_reclaim_stale]. rewrite Hg. destruct v as [j e a|]; [|done]. simpl in Hb. rewrite Hb.
  destruct (run_update_current (A := result (option LeaseHandle) lease_error) key (Envelope i (now + ttl) now) _ rev
    (fun a => Ret match a with Raised => Err KvError | Refused => Ok None
      | Applied rev => Ok (Some (mkLeaseHandle i rev ttl (Some (now + ttl)) false None)) end) times now0 s Hg) as (rev' & s' & Hw & Hr).
  exists rev', s'. by split.
Qed.

Lemma reclaim_blocked ttl now times now0 s :
  blocks now (cas_get s key) = true ->
  run_from (maybe_reclaim_stale key i ttl now (now + ttl)) times now0 s = (Ok None, (times, now0, s)).
Proof using.
  intros Hb. cbn [run_from maybe_reclaim_stale]. destruct (cas_get s key) as [[[j e a|raw] rev]|]; [|done|done]. simpl in Hb. by rewrite Hb.
Qed.

Lemma try_once_run ttl times now0 s (now := match times with t :: _ => t | [] => now0 end) :
  if blocks now (cas_get s key)
  then run_from (try_once key i ttl) times now0 s = (Ok None, (tail times, now, s))
  else exists rev s', written s key (Envelope i (now + ttl) now) rev s'
    /\ run_from (try_once key i ttl) times now0 s
       = (Ok (Some (mkLeaseHandle i rev ttl (Some (now + ttl)) false None)), (tail times, now, s')).
Proof using HL.
  assert (Hstep : run_from (try_once key i ttl) times now0 s = run_from (try_at key i ttl now) (tail times) now s) by (by destruct times).
  rewrite Hstep. clearbody now. unfold try_at. cbv zeta. destruct (cas_get s key) as [[v rev]|] eqn:Hg.
  - rewrite (run_create_present key _ _ _ _ _ s Hg). cbn [run_from]. rewrite Hg. destruct (blocks now (Some (v, rev))) eqn:Hb.
    + rewrite reclaim_blocked; [done|by rewrite Hg].
    + by eapply reclaim_free.
  - simpl. destruct (create_absent s key (Envelope i (now + ttl) now) Hg) as (rev & s' & Hc & Hw). rewrite Hc. by exists rev, s'.
Qed.

(** One attempt of [acquire], alone on the bucket: it takes the key when there is no entry or a
    readable one whose expiry has come, with an expiry a time to live away, and else changes nothing. *)
Theorem try_once_exact ttl now s :
  if blocks now (cas_get s key)
  then run_alone (try_once key i ttl) [now] now s = (Ok None, s)
  else exists rev s', written s key (Envelope i (now + ttl) now) rev s'
    /\ run_alone (try_once key i ttl) [now] now s = (Ok (Some (mkLeaseHandle i rev ttl (Some (now + ttl)) false None)), s').
Proof using HL.
  pose proof (try_once_run ttl [now] now s) as H1. unfold run_alone. cbv beta iota zeta in H1. destruct (blocks now (cas_get s key)).
  - by rewrite H1.
  - destruct H1 as (rev & s' & Hw & Hr). exists rev, s'. split; [done|]. by rewrite Hr.
Qed.
(** Clock readings, each later than the last. *)
Fixpoint ticking (now : Z) (times : list Z) : Prop :=
  match times with [] => True | t :: ts => now < t /\ ticking t ts end.

(** How a call of [acquire] made at [now] may end: with the key taken at an attempt that found it free,
    or with the bucket as it was and an attempt that found it held. *)
Definition acquire_ends (ttl max_wait now : Z) (s : St) (r : result LeaseHandle lease_error) (s' : St) : Prop :=
  match r with
  | Ok lh => exists n, now < n /\ blocks n (cas_get s key) = false /\ written s key (Envelope i (n + ttl) n) (lh_revision lh) s'
      /\ lh = mkLeaseHandle i (lh_revision lh) ttl (Some (n + ttl)) false None
  | Err e => s' = s /\ e = (if max_wait =? 0 then LeaseUnavailable else LeaseTimeout)
      /\ exists n, now < n /\ blocks n (cas_get s key) = true
  end.

Lemma acquire_ends_later ttl max_wait now now' s r s' : acquire_ends ttl max_wait now' s r s' -> now <= now' -> acquire_ends ttl max_wait now s r s'.
Proof.
  destruct r as [lh|e]; simpl.
  - intros (n & Hn & Hrest) Hle. exists n. split; [lia|done].
  - intros (H1 & H2 & n & Hn & Hb) Hle. split_and!; [done|done|]. exists n. split; [lia|done].
Qed.

Lemma acquire_loop_run rounds ttl max_wait deadline times now s :
  ticking now times -> (0 < rounds)%nat -> (2 * rounds <= length times)%nat -> deadline - now <= 2 * Z.of_nat rounds ->
  exists r s' rest, run_from (acquire_loop key i rounds ttl max_wait deadline) times now s = (Some r, (rest, s'))
    /\ acquire_ends ttl max_wait now s r s'.
Proof using HL.
  revert times now. induction rounds as [|rounds IH]; intros times now Htick Hr Hlen Hdl; [lia|].
  destruct times as [|t1 [|t2 ts]]; simpl in Hlen; [lia..|]. destruct Htick as (Ht1 & Ht2 & Htick).
  pose proof (try_once_run ttl (t1 :: t2 :: ts) now s) as Htry. cbv beta iota zeta in Htry.
  cbn [acquire_loop]. rewrite run_from_bind. destruct (blocks t1 (cas_get s key)) eqn:Hb.
  - rewrite Htry. cbn [tail run_from].
    assert (Hend : acquire_ends ttl max_wait now s (Err (if max_wait =? 0 then LeaseUnavailable else LeaseTimeout)) s).
    { split_and!; [done|done|]. exists t1. by split. }
    destruct (max_wait =? 0) eqn:Hmw; [by do 3 eexists|]. destruct (deadline - t2 <=? 0) eqn:Hd; [by do 3 eexists|].
    destruct (IH ts t2) as (r & s' & rest & Hrun & He); [done|lia..|].
    exists r, s', rest. split; [done|]. eapply acquire_ends_later; [exact He|lia].
  - destruct Htry as (rev & s' & Hw & ->). cbn [run_from]. do 3 eexists. split; [done|]. exists t1. by split_and!.
Qed.

(** [acquire] always answers: with readings that advance, a round for each tick of the wait is
    enough; the key is taken by an attempt that found it free, or the bucket is unchanged and the
    error says whether waiting was asked for. *)
Theorem acquire_answers rounds ttl max_wait times now s :
  ticking now times -> 0 <= max_wait -> max_wait < Z.of_nat rounds -> (2 * rounds < length times)%nat ->
  exists r s', run_alone (acquire key i rounds ttl max_wait) times now s = (Some r, s') /\ acquire_ends ttl max_wait now s r s'.
Proof using HL.
  intros Htick Hmw Hr Hlen. destruct times as [|t ts]; simpl in Hlen; [lia|]. destruct Htick as [Ht Htick].
  destruct (acquire_loop_run rounds ttl max_wait (t + max_wait) ts t s) as (r & s' & [rest now'] & Hrun & He); [done|lia..|].
  exists r, s'. split; [|eapply acquire_ends_later; [exact He|lia]]. unfold run_alone. cbn [acquire run_from]. by rewrite Hrun.
Qed.

(** What a renewal recognises as its own entry. *)
Definition renews (adopt : bool) (lh : LeaseHandle) (value : lease_value) (observed : Z) : bool :=
  (observed =? lh_revision lh) || adopt || bool_decide (lh_in_flight_value lh = Some value).

(** A renewal, alone on the bucket. An entry that is gone is [EXPIRED]; another's, or an unreadable
    one, is [TAKEN]; its holder's own at the handle's revision, or carrying the write whose answer the
    handle never heard, is renewed for a whole time to live and keeps the date it was acquired; its
    holder's at another revision is [TAKEN] and unchanged. *)
Theorem refresh_handle_exact lh ttl adopt now s :
  match cas_get s key with
  | None => run_alone (refresh_handle key lh ttl adopt) [now] now s = ((lh, Err (LeaseLost EXPIRED)), s)
  | Some (Unreadable _, _) => run_alone (refresh_handle key lh ttl adopt) [now] now s = ((lh, Err (LeaseLost TAKEN)), s)
  | Some (Envelope j e a as value, observed) =>
      if negb (String.eqb j (lh_holder lh)) then run_alone (refresh_handle key lh ttl adopt) [now] now s = ((lh, Err (LeaseLost TAKEN)), s)
      else if renews adopt lh value observed then
        let ttl' := default (lh_ttl_seconds lh) ttl in
        exists rev s', written s key (Envelope (lh_holder lh) (now + ttl') a) rev s'
          /\ run_alone (refresh_handle key lh ttl adopt) [now] now s
             = ((mkLeaseHandle (lh_holder lh) rev ttl' (lh_date_expires lh) (lh_released lh) None, Ok tt), s')
      else run_alone (refresh_handle key lh ttl adopt) [now] now s = ((lh, Err (LeaseLost TAKEN)), s)
  end.
Proof using HL.
  unfold run_alone, refresh_handle. cbn [run_from]. destruct (cas_get s key) as [[[j e a|raw] observed]|] eqn:Hg; [|done|done].
  destruct (negb (String.eqb j (lh_holder lh))); [done|]. cbv zeta. cbn [run_from]. unfold renews.
  destruct (Z.eqb_spec observed (lh_revision lh)) as [Hrev|Hrev]; cbn [negb andb orb].
  - destruct (update_current s key (Envelope (lh_holder lh) (now + default (lh_ttl_seconds lh) ttl) a) _ _ Hg) as (rev & s' & Hc & Hw).
    exists rev, s'. split; [done|]. cbn. rewrite <- Hrev, Hc. by destruct (lh_in_flight_value lh).
  - assert (Hsym : bool_decide (Some (Envelope j e a) = lh_in_flight_value lh) = bool_decide (lh_in_flight_value lh = Some (Envelope j e a))).
    { apply bool_decide_ext. naive_solver. }
    rewrite Hsym. destruct (adopt || bool_decide (lh_in_flight_value lh = Some (Envelope j e a))) eqn:Hadopt.
    + destruct (update_current s key (Envelope (lh_holder lh) (now + default (lh_ttl_seconds lh) ttl) a) _ _ Hg) as (rev & s' & Hc & Hw).
      exists rev, s'. split; [done|]. cbn. by rewrite Hc.
    + cbn. rewrite update_stale by congruence. destruct lh as [holder r0 ttl0 de rel [u|]]; cbn in *; [|done].
      rewrite Hg.
      destruct (decide (Envelope j e a = u)) as [<-|Hu]; [|by rewrite (bool_decide_eq_false_2 _ Hu)].
      by rewrite (bool_decide_eq_true_2 _ eq_refl), orb_true_r in Hadopt.
Qed.

(** A release, alone on the bucket: it deletes the entry exactly when it is the holder's own, at the
    handle's revision or carrying the write the handle never heard of, and else leaves the bucket as it
    is; the handle is released either way. *)
Theorem release_handle_exact lh now s :
  lh_released lh = false ->
  let own := match cas_get s key with
             | Some (Envelope j e a as value, observed) => String.eqb j (lh_holder lh) && renews false lh value observed && (0 <? observed)
             | _ => false
             end in
  exists s', run_alone (release_handle key lh) [] now s = ((set_released lh, Ok tt), s')
    /\ if own then removed s key s' else s' = s.
Proof using HL.
  intros Hrel. cbv zeta. unfold run_alone, release_handle. rewrite Hrel. cbn [run_from].
  destruct (cas_get s key) as [[[j e a|raw] observed]|] eqn:Hg; [|by exists s..].
  destruct (String.eqb j (lh_holder lh)); cbn [negb andb]; [|by exists s]. unfold renews. cbn [run_from orb].
  destruct (Z.eqb_spec observed (lh_revision lh)) as [Hrev|Hrev]; cbn [negb andb orb].
  - rewrite <- Hrev, Z.leb_antisym. destruct (0 <? observed); cbn [negb]; [|by exists s].
    destruct (delete_current s key _ _ Hg) as (s' & Hd & Hrm & _). exists s'. cbn. by rewrite Hd.
  - case_bool_decide as Hfl; cbn [andb].
    + rewrite Z.leb_antisym. destruct (0 <? observed); cbn [negb]; [|by exists s].
      destruct (delete_current s key _ _ Hg) as (s' & Hd & Hrm & _). exists s'. cbn. by rewrite Hd.
    + exists s. split; [|done]. destruct (lh_revision lh <=? 0); [done|]. cbn. rewrite delete_stale; [done|congruence].
Qed.
End Alone.

(** Stores with no entry, a live one and one whose expiry has come. *)
Definition lease_store (entry : option (lease_value * Z)) : table_store lease_value :=
  mkTableStore (match entry with Some e => {["lock" := e]} | None => ∅ end) 5.

Lemma try_once_exact_witness :
  run_alone (try_once "lock" "b" 30) [100] 100 (lease_store (Some (Envelope "a" 120 90, 4))) = (Ok None, lease_store (Some (Envelope "a" 120 90, 4)))
  /\ exists rev s', written (lease_store (Some (Envelope "a" 95 90, 4))) "lock" (Envelope "b" 130 100) rev s'
    /\ run_alone (try_once "lock" "b" 30) [100] 100 (lease_store (Some (Envelope "a" 95 90, 4)))
       = (Ok (Some (mkLeaseHandle "b" rev 30 (Some 130) false None)), s').
Proof.
  split.
  - exact (try_once_exact "lock" "b" 30 100 (lease_store (Some (Envelope "a" 120 90, 4)))).
  - exact (try_once_exact "lock" "b" 30 100 (lease_store (Some (Envelope "a" 95 90, 4)))).
Defined.

Lemma acquire_answers_witness :
  exists r s', run_alone (acquire "lock" "b" 3 30 2) [101; 102; 103; 104; 105; 106; 107] 100 (lease_store (Some (Envelope "a" 104 90, 4)))
    = (Some r, s') /\ acquire_ends "lock" "b" 30 2 100 (lease_store (Some (Envelope "a" 104 90, 4))) r s'.
Proof. apply (acquire_answers "lock" "b" 3 30 2); [by repeat split|lia|lia|simpl; lia]. Defined.

Lemma refresh_handle_exact_witness :
  exists rev s', written (lease_store (Some (Envelope "a" 120 90, 4))) "lock" (Envelope "a" 140 90) rev s'
    /\ run_alone (refresh_handle "lock" (mkLeaseHandle "a" 3 30 (Some 115) false (Some (Envelope "a" 120 90))) None false) [110] 110
         (lease_store (Some (Envelope "a" 120 90, 4)))
       = ((mkLeaseHandle "a" rev 30 (Some 115) false None, Ok tt), s').
Proof.
  exact (refresh_handle_exact "lock" (mkLeaseHandle "a" 3 30 (Some 115) false (Some (Envelope "a" 120 90))) None false 110
    (lease_store (Some (Envelope "a" 120 90, 4)))).
Defined.

Lemma release_handle_exact_witness :
  exists s', run_alone (release_handle "lock" (mkLeaseHandle "a" 4 30 (Some 115) false None)) [] 110 (lease_store (Some (Envelope "a" 120 90, 4)))
      = ((mkLeaseHandle "a" 4 30 (Some 115) true None, Ok tt), s')
    /\ removed (lease_store (Some (Envelope "a" 120 90, 4))) "lock" s'.
Proof.
  exact (release_handle_exact "lock" (mkLeaseHandle "a" 4 30 (Some 115) false None) 110 (lease_store (Some (Envelope "a" 120 90, 4))) eq_refl).
Defined.
