(* ===== verification/LeaseExclusion.v ===== *)
(** * Mutual exclusion of the distributed lease

    Any number of holders run the programs of [Lease.v] on one bucket, interleaved as [KvProtocol.v]
    allows: a call may raise and its write land later or never, an entry may expire at the server once
    its time has come, and the clock may advance at any point. [lease_protocol_ok] shows the programs
    safe in the logic of that file; [lease_mutual_exclusion] is what follows of every reachable state. *)

From Stdlib Require Import Ascii String Bool List NArith ZArith Lia.
From stdpp Require Import base list gmap strings functions relations.
From S2P Require Import Prelude CasStore KvProtocol Lease.

Open Scope Z_scope.

(** ** The system of holders *)

Section Protocol.
Context {St : Type} `{HB : KvBucket St lease_value} `{HL : !KvBucketLaws St lease_value}.
Variable key : string.

(** What a holder does next, one operation at a time: take the key, renew, be told by its timer, release. *)
Inductive offers (i : string) : option HeldLease -> option HeldLease -> prog lease_value (option HeldLease) -> Prop :=
| offers_hold rounds ttl renew_every max_wait retake max_hold :
    offers i None None (pbind (hold key i rounds ttl renew_every max_wait retake max_hold) (fun r =>
      Ret match r with Some (Ok h) => Some h | _ => None end))
| offers_renew h : offers i (Some h) (Some h) (pbind (renew key h) (fun h => Ret (Some h)))
| offers_timer h : offers i (Some h) (Some (on_expired h)) (Ret (Some (on_expired h)))
| offers_release h : offers i (Some h) (Some (released h)) (pbind (release key h) (fun h => Ret None)).

(** The server drops an entry only once its time to live has passed. *)
Definition may_expire (k : string) (v : lease_value) (t : Z) : Prop :=
  match v with Envelope _ e _ => e <= t | Unreadable _ => True end.

(** *** The ghost of a holder: until when its entry is known to stand *)

Definition believes (i : string) (l : option HeldLease) (g : option Z) : Prop :=
  forall h, l = Some h -> held h = true -> exists e, g = Some e /\ hl_expires_at h <= e.

Definition own (i : string) (lg : history lease_value) (rev : Z) : Prop :=
  exists e a, lg !! rev = Some (key, Envelope i e a).

Definition own_value (i : string) (v : lease_value) : Prop := exists e a, v = Envelope i e a.

Record handle_ok (i : string) (lg : history lease_value) (lh : LeaseHandle) : Prop := {
  ho_holder : lh_holder lh = i;
  ho_revision : own i lg (lh_revision lh);
  ho_in_flight : forall v, lh_in_flight_value lh = Some v -> own_value i v;
}.

Definition good (i : string) (l : option HeldLease) (g : option Z) (lg : history lease_value) (t : Z) : Prop :=
  believes i l g /\ forall h, l = Some h -> handle_ok i lg (hl_handle h) /\ lh_ttl_seconds (hl_handle h) = hl_ttl h
    /\ hl_expires_at h <= t + hl_ttl h.

(** A revision a holder may write against: one of its own, or one that has expired. *)
Definition writable (i : string) (lg : history lease_value) (t rev : Z) : Prop :=
  own i lg rev \/ exists j e a, lg !! rev = Some (key, Envelope j e a) /\ e <= t.

Definition may_send (i : string) (g : option Z) (r : request lease_value) (lg : history lease_value) (t : Z) (g1 : option Z) : Prop :=
  match r with
  | RCreate k v => k = key /\ own_value i v /\ g1 = g
  | RUpdate k v rev => k = key /\ (exists e a, v = Envelope i e a /\ g1 = Z.min e <$> g) /\ writable i lg t rev
  | RDelete k rev => k = key /\ own i lg rev /\ g1 = None
  end.

Definition won (g : option Z) (r : request lease_value) : option Z :=
  match request_value r with Some (Envelope _ e _) => Some e | _ => g end.

(** *** The invariant *)

(** While a belief lasts, the entry is its holder's and lasts as long. *)
Definition beliefs_stand (s : St) (t : Z) (gs : string -> option Z) : Prop :=
  forall i e, gs i = Some e -> t < e -> exists rev e' a, cas_get s key = Some (Envelope i e' a, rev) /\ e <= e'.

(** What a request that may still land cannot undo. *)
Definition harmless (s : St) (lg : history lease_value) (t : Z) (gs : string -> option Z) (ir : string * request lease_value) : Prop :=
  let '(i, r) := ir in
  match r with
  | RCreate k v => k = key /\ own_value i v
  | RUpdate k v rev => k = key /\ writable i lg t rev
      /\ exists e a, v = Envelope i e a /\ forall v0 e', cas_get s key = Some (v0, rev) -> gs i = Some e' -> e' <= e
  | RDelete k rev => k = key /\ own i lg rev /\ forall v0, cas_get s key = Some (v0, rev) -> gs i = None
  end.

Definition inv (s : St) (lg : history lease_value) (t : Z) (pool : list (string * request lease_value)) (gs : string -> option Z) : Prop :=
  beliefs_stand s t gs /\ Forall (harmless s lg t gs) pool.

Lemma own_mono i lg lg' rev : own i lg rev -> lg ⊆ lg' -> own i lg' rev.
Proof. intros (e & a & Hv) Hlg. exists e, a. by eapply lookup_weaken. Qed.

Lemma writable_mono i lg t rev lg' t' : writable i lg t rev -> lg ⊆ lg' -> t <= t' -> writable i lg' t' rev.
Proof.
  intros [Ho|(j & e & a & Hv & He)] Hlg Ht; [left; by eapply own_mono|right].
  exists j, e, a. split; [by eapply lookup_weaken|lia].
Qed.

Lemma handle_ok_mono i lg lg' lh : handle_ok i lg lh -> lg ⊆ lg' -> handle_ok i lg' lh.
Proof. intros [H1 H2 H3] Hlg. split; [done| |done]. by eapply own_mono. Qed.

Lemma writable_known i lg t rev : writable i lg t rev -> is_Some (lg !! rev).
Proof. intros [(e & a & ->)|(j & e & a & -> & _)]; eauto. Qed.

(** An applied write of [i] touches no other holder's belief. *)
Lemma applied_spares s lg t gs i r g1 rev s' j e :
  fits s lg -> beliefs_stand s t gs -> may_send i (gs i) r lg t g1 \/ harmless s lg t gs (i, r) ->
  exec r s = (Applied rev, s') -> gs j = Some e -> t < e -> j = i /\ exists k v rv, r = RUpdate k v rv \/ r = RDelete k rv.
Proof using HL.
  intros Hfit Hb Hsend He Hj Hte. destruct (Hb j e Hj Hte) as (rev0 & e' & a0 & Hcur & Hle).
  pose proof (exec_applied r s rev s' He) as (Hm & _). pose proof (fits_entry _ _ Hfit _ _ _ Hcur) as Hlg.
  destruct r as [k v|k v rv|k rv]; simpl in *.
  - destruct Hsend as [(-> & _)|(-> & _)]; congruence.
  - assert (Hw : k = key /\ writable i lg t rv) by (destruct Hsend as [(? & _ & ?)|(? & ? & _)]; done).
    destruct Hw as [-> Hw]. destruct Hm as [v0 Hm]. rewrite Hcur in Hm. injection Hm as <- <-.
    destruct Hw as [(e1 & a1 & H1)|(j1 & e1 & a1 & H1 & Hexp)]; rewrite Hlg in H1; injection H1 as -> -> ->; [|lia].
    split; [done|]. eauto.
  - assert (Hw : k = key /\ own i lg rv) by (destruct Hsend as [(? & ? & _)|(? & ? & _)]; done).
    destruct Hw as [-> (e1 & a1 & H1)]. destruct Hm as [v0 Hm]. rewrite Hcur in Hm. injection Hm as <- <-.
    rewrite Hlg in H1. injection H1 as -> -> ->. split; [done|]. exists key, (Unreadable ""), rev0. by right.
Qed.

Lemma sent_key s lg t gs i r g1 : may_send i (gs i) r lg t g1 \/ harmless s lg t gs (i, r) -> request_key r = key.
Proof. destruct r; simpl; intros [Hs|Hs]; by destruct Hs as (-> & _). Qed.

(** Once any write on the key is applied, a request against an older revision can no longer land. *)
Lemma harmless_after s lg t gs gs' r rev s' ir :
  fits s lg -> request_key r = key -> exec r s = (Applied rev, s') -> harmless s lg t gs ir ->
  harmless s' (record r (Applied rev) lg) t gs' ir.
Proof using HL.
  intros Hfit Hk He Hh. destruct (fits_exec r s _ s' lg Hfit He) as [_ Hlg].
  destruct (exec_applied r s rev s' He) as (_ & _ & _ & Hv). rewrite Hk in Hv.
  assert (Hgone : forall v0 rv, is_Some (lg !! rv) -> cas_get s' key <> Some (v0, rv)).
  { intros v0 rv [x Hx] Hg. apply (fits_past _ _ Hfit) in Hx. destruct (request_value r) as [v|]; [|congruence].
    destruct Hv as (Hg' & Hlt & _). rewrite Hg in Hg'. injection Hg' as _ ->. lia. }
  destruct ir as [i [k v|k v rv|k rv]]; simpl in *; [done|..].
  - destruct Hh as (-> & Hw & e & a & -> & Hc). split_and!; [done|by eapply writable_mono|].
    exists e, a. split; [done|]. intros v0 e' Hg. by destruct (Hgone v0 rv (writable_known _ _ _ _ Hw)).
  - destruct Hh as (-> & Hw & Hc). split_and!; [done|by eapply own_mono|]. intros v0 Hg. destruct (Hgone v0 rv); [|done].
    destruct Hw as (e & a & ->). eauto.
Qed.

Lemma inv_applied_ok s lg t pool gs i r g1 rev s' :
  fits s lg -> inv s lg t pool gs -> may_send i (gs i) r lg t g1 -> exec r s = (Applied rev, s') ->
  inv s' (record r (Applied rev) lg) t pool (<[i := won g1 r]> gs).
Proof using HL.
  intros Hfit [Hb Hp] Hsend He. pose proof (sent_key s lg t gs i r g1 (or_introl Hsend)) as Hk. split.
  - intros j e Hj Hte. destruct (decide (j = i)) as [->|Hne].
    + rewrite fn_lookup_insert in Hj. destruct (exec_applied r s rev s' He) as (_ & _ & _ & Hv). rewrite Hk in Hv.
      unfold won in Hj. destruct r as [k v|k v rv|k rv]; simpl in *.
      * destruct Hsend as (_ & (e1 & a1 & ->) & _). injection Hj as <-. destruct Hv as [Hv _]. exists rev, e1, a1. split; [done|lia].
      * destruct Hsend as (_ & (e1 & a1 & -> & _) & _). injection Hj as <-. destruct Hv as [Hv _]. exists rev, e1, a1. split; [done|lia].
      * destruct Hsend as (_ & _ & ->). done.
    + rewrite fn_lookup_insert_ne in Hj by done.
      by destruct (applied_spares s lg t gs i r g1 rev s' j e Hfit Hb (or_introl Hsend) He Hj Hte).
  - eapply Forall_impl; [exact Hp|]. intros ir Hh. by eapply harmless_after.
Qed.

Lemma inv_lands_ok s lg t pool1 pool2 gs i r a s' :
  fits s lg -> inv s lg t (pool1 ++ (i, r) :: pool2) gs -> exec r s = (a, s') ->
  inv s' (record r a lg) t (pool1 ++ pool2) gs.
Proof using HL.
  intros Hfit [Hb Hp] He. rewrite Forall_app, Forall_cons in Hp. destruct Hp as (Hp1 & Hr & Hp2).
  destruct a as [rev| |].
  2-3: destruct (exec_refused r s _ s' He) as [_ ->]; [done|]; split; [done|by rewrite Forall_app].
  pose proof (sent_key s lg t gs i r None (or_intror Hr)) as Hk. split.
  - intros j e Hj Hte.
    destruct (applied_spares s lg t gs i r None rev s' j e Hfit Hb (or_intror Hr) He Hj Hte) as [-> Hkind].
    destruct (exec_applied r s rev s' He) as (Hm & _ & _ & Hv). rewrite Hk in Hv.
    destruct r as [k v|k v rv|k rv]; simpl in *; [by destruct Hkind as (? & ? & ? & [?|?])|..].
    + destruct Hr as (-> & _ & e1 & a1 & -> & Hc). destruct Hm as [v0 Hm], Hv as [Hv _].
      exists rev, e1, a1. split; [done|]. by eapply Hc.
    + destruct Hr as (-> & _ & Hc). destruct Hm as [v0 Hm]. apply Hc in Hm. congruence.
  - rewrite Forall_app. split; [eapply Forall_impl; [exact Hp1|]|eapply Forall_impl; [exact Hp2|]];
      intros ir Hh; by eapply harmless_after.
Qed.

Lemma harmless_ghost s lg t t' gs gs' ir :
  harmless s lg t gs ir -> t <= t' ->
  (forall i e', gs' i = Some e' -> exists e, gs i = Some e /\ e' <= e) -> harmless s lg t' gs' ir.
Proof.
  intros Hh Ht Hg. destruct ir as [i [k v|k v rv|k rv]]; simpl in *; [done|..].
  - destruct Hh as (-> & Hw & e & a & -> & Hc). split_and!; [done|by eapply writable_mono|].
    exists e, a. split; [done|]. intros v0 e' Hcur He'. destruct (Hg i e' He') as (e0 & He0 & Hle).
    specialize (Hc v0 e0 Hcur He0). lia.
  - destruct Hh as (-> & Hw & Hc). split_and!; [done|done|]. intros v0 Hcur. specialize (Hc v0 Hcur).
    destruct (gs' i) as [e'|] eqn:Hi; [|done]. destruct (Hg i e' Hi) as (e0 & He0 & _). congruence.
Qed.

Lemma may_send_lowers i g r lg t g1 e' : may_send i g r lg t g1 -> g1 = Some e' -> exists e, g = Some e /\ e' <= e.
Proof.
  destruct r as [k v|k v rv|k rv]; simpl.
  - intros (_ & _ & ->) ->. eauto with lia.
  - intros (_ & (e & a & _ & ->) & _). destruct g as [g|]; [|done]. intros [= <-]. exists g. split; [done|lia].
  - by intros (_ & _ & ->).
Qed.

Lemma inv_sent_ok s lg t pool gs i r g1 :
  inv s lg t pool gs -> may_send i (gs i) r lg t g1 ->
  inv s lg t ((i, r) :: pool) (<[i := g1]> gs).
Proof.
  intros [Hb Hp] Hsend.
  assert (Hlow : forall j e', <[i := g1]> gs j = Some e' -> exists e, gs j = Some e /\ e' <= e).
  { intros j e'. destruct (decide (j = i)) as [->|Hne].
    - rewrite fn_lookup_insert. by apply may_send_lowers with (1 := Hsend).
    - rewrite fn_lookup_insert_ne by done. eauto with lia. }
  assert (Hb' : beliefs_stand s t (<[i := g1]> gs)).
  { intros j e' Hj Hte. destruct (Hlow j e' Hj) as (e & He & Hle). destruct (Hb j e He ltac:(lia)) as (rev & e2 & a & Hcur & Hle2).
    exists rev, e2, a. split; [done|lia]. }
  assert (Hp' : Forall (harmless s lg t (<[i := g1]> gs)) pool).
  { eapply Forall_impl; [exact Hp|]. intros ir Hh. by eapply harmless_ghost. }
  split; [done|]. constructor; [|done].
  destruct r as [k v|k v rv|k rv]; simpl in *.
  - by destruct Hsend as (-> & Hv & _).
  - destruct Hsend as (-> & (e & a & -> & ->) & Hw). split_and!; [done|done|]. exists e, a. split; [done|].
    intros v0 e' _. rewrite fn_lookup_insert. destruct (gs i); simpl; [|done]. intros [= <-]. lia.
  - destruct Hsend as (-> & Ho & ->). split_and!; [done|done|]. intros v0 _. by rewrite fn_lookup_insert.
Qed.

Lemma inv_tick_ok s lg t t' pool gs : inv s lg t pool gs -> t <= t' -> inv s lg t' pool gs.
Proof.
  intros [Hb Hp] Ht. split; [intros i e Hi Hte; apply (Hb i e Hi); lia|].
  eapply Forall_impl; [exact Hp|]. intros ir Hh. eapply harmless_ghost; [done|done|]. eauto with lia.
Qed.

Lemma inv_expires_ok s lg t pool gs k v rev :
  inv s lg t pool gs -> cas_get s k = Some (v, rev) -> may_expire k v t -> inv (cas_expire k s) lg t pool gs.
Proof using HL.
  intros [Hb Hp] Hg Hexp. destruct (expire_removes s k) as [[Hgone Ho] _].
  assert (Hless : forall x, cas_get (cas_expire k s) key = Some x -> cas_get s key = Some x).
  { intros x. destruct (decide (key = k)) as [->|Hne]; [congruence|]. by rewrite Ho. }
  split.
  - intros i e Hi Hte. destruct (Hb i e Hi Hte) as (rev0 & e' & a & Hcur & Hle).
    destruct (decide (key = k)) as [<-|Hne]; [|exists rev0, e', a; by rewrite Ho].
    rewrite Hg in Hcur. injection Hcur as -> ->. simpl in Hexp. lia.
  - eapply Forall_impl; [exact Hp|]. intros [i [k' v'|k' v' rv|k' rv]]; simpl; [done|..].
    + intros (-> & Hw & e & a & -> & Hc). split_and!; [done|done|]. exists e, a. split; [done|]. intros v0 e' Hcur%Hless. by eapply Hc.
    + intros (-> & Hw & Hc). split_and!; [done|done|]. intros v0 Hcur%Hless. by eapply Hc.
Qed.
(** *** Every program is safe *)

Abbreviation lsafe := (safe believes may_send won).

Lemma own_subseteq i lg lg' rev : lg ⊆ lg' -> own i lg rev -> own i lg' rev.
Proof. intros Hlg Ho. by eapply own_mono. Qed.

Lemma own_recorded i r rev e a lg : request_key r = key -> request_value r = Some (Envelope i e a) -> own i (record r (Applied rev) lg) rev.
Proof. intros Hk Hv. exists e, a. unfold record. by rewrite Hv, lookup_insert_eq, Hk. Qed.

(** What a successful attempt leaves: a handle on an entry of its own, believed until its expiry. *)
Definition taken (i : string) (ttl : Z) (lh : LeaseHandle) (g : option Z) (lg : history lease_value) (t : Z) : Prop :=
  handle_ok i lg lh /\ lh_ttl_seconds lh = ttl /\ exists e, lh_date_expires lh = Some e /\ g = Some e /\ e <= t + ttl.

Lemma taken_mono i ttl lh g lg t lg' t' : taken i ttl lh g lg t -> lg ⊆ lg' -> t <= t' -> taken i ttl lh g lg' t'.
Proof.
  intros (Hh & Httl & e & He & Hg & Hle) Hlg Ht. split_and!; [by eapply handle_ok_mono|done|]. exists e. split_and!; [done..|lia].
Qed.

Lemma taken_now i ttl r rev now lg t a :
  request_key r = key -> request_value r = Some (Envelope i (now + ttl) a) -> now <= t ->
  taken i ttl (mkLeaseHandle i rev ttl (Some (now + ttl)) false None) (Some (now + ttl)) (record r (Applied rev) lg) t.
Proof.
  intros Hk Hv Ht. split_and!; [|done|exists (now + ttl); split_and!; [done..|lia]]. split; simpl; [done| |done]. by eapply own_recorded.
Qed.

Definition attempted (i : string) (ttl : Z) (r : result (option LeaseHandle) lease_error) (g : option Z) (lg : history lease_value) (t : Z) : Prop :=
  match r with Ok (Some lh) => taken i ttl lh g lg t | _ => True end.

Lemma believes_none i g : believes i None g.
Proof. by intros h. Qed.
Hint Resolve believes_none : core.

Lemma maybe_reclaim_safe i ttl now g lg t :
  now <= t -> lsafe i None (maybe_reclaim_stale key i ttl now (now + ttl)) (attempted i ttl) g lg t.
Proof using HL.
  intros Hnow lg1 t1 Hlg1 Ht1. split_and!; [done|done|]. intros [j e a|raw] rev Hv; [|done].
  destruct (Z.ltb_spec now e) as [|Hexp]; [done|]. intros lg2 t2 Hlg2 Ht2. eexists. split; [split_and!; [done|by eauto|]|].
  - right. exists j, e, a. split; [by eapply lookup_weaken|lia].
  - split_and!; [done..|]. intros rev' _. split; [done|]. eapply taken_now; [done..|lia].
Qed.

Lemma try_once_safe i ttl g lg t : lsafe i None (try_once key i ttl) (attempted i ttl) g lg t.
Proof using HL.
  assert (Hcreate : forall now g lg t, may_send i g (RCreate key (Envelope i (now + ttl) now)) lg t g).
  { intros now g0 lg0 t0. split_and!; [done|by do 2 eexists|done]. }
  intros lg1 t1 Hlg1 Ht1 lg2 t2 Hlg2 Ht2. exists g. split_and!; [done..| |].
  - intros lg3 t3 Hlg3 Ht3. split_and!; [done| |intros v rev _; apply maybe_reclaim_safe; lia].
    intros lg4 t4 Hlg4 Ht4. exists g. split_and!; [done..|apply maybe_reclaim_safe; lia|].
    intros rev _. split; [done|]. eapply taken_now; [done..|lia].
  - intros rev _. split; [done|]. eapply taken_now; [done..|lia].
Qed.

Definition acquired (i : string) (ttl : Z) (r : option (result LeaseHandle lease_error)) (g : option Z) (lg : history lease_value) (t : Z) : Prop :=
  match r with Some (Ok lh) => taken i ttl lh g lg t | _ => True end.

Lemma acquire_loop_safe i rounds ttl max_wait deadline g lg t :
  lsafe i None (acquire_loop key i rounds ttl max_wait deadline) (acquired i ttl) g lg t.
Proof using HL.
  revert g lg t. induction rounds as [|rounds IH]; intros g lg t; [done|].
  eapply safe_bind; [apply try_once_safe|]. intros [[lh|]|e] g1 lg1 t1 Hmid; [done| |done].
  intros lg2 t2 _ _. destruct (max_wait =? 0); [done|]. destruct (deadline - t2 <=? 0); [done|]. apply IH.
Qed.

Lemma hold_safe i rounds ttl renew_every max_wait retake max_hold g lg t :
  lsafe i None (pbind (hold key i rounds ttl renew_every max_wait retake max_hold) (fun r =>
      Ret match r with Some (Ok h) => Some h | _ => None end)) (good i) g lg t.
Proof using HL.
  assert (Hnone : forall g lg t, good i None g lg t) by (intros; by split).
  unfold hold. destruct (hold_seconds ttl renew_every) as [[ttl' re]|]; [|apply Hnone].
  case_match; [apply Hnone|]. eapply safe_bind.
  2: { intros r g1 lg1 t1 Hmid. exact Hmid. }
  eapply safe_bind; [intros lg1 t1 _ _; apply acquire_loop_safe|].
  intros [[lh|]|] g1 lg1 t1 Hmid; [|apply Hnone..].
  intros lg2 t2 Hlg2 Ht2 lg3 t3 Hlg3 Ht3 lg4 t4 Hlg4 Ht4. destruct Hmid as (Hh & Httl & e & He & -> & Hle). rewrite He. simpl.
  split; [intros h [= <-] _; exists e; split; [done|simpl; lia]|]. intros h [= <-]. simpl.
  split_and!; [|done|lia]. eapply handle_ok_mono; [done|by do 2 (etrans; [done|])].
Qed.
(** What a renewal that began at [started] leaves of a lease that is believed until [expires_at]. *)
Definition stands (x : Z) (g : option Z) : Prop := exists e, g = Some e /\ x <= e.

Definition renewing (i : string) (expires_at started ttl : Z) (lh : LeaseHandle) (ok : bool)
    (g : option Z) (lg : history lease_value) (t : Z) : Prop :=
  handle_ok i lg lh /\ lh_ttl_seconds lh = ttl /\ stands expires_at g /\ (ok = true -> stands (started + ttl) g) /\ started <= t.

Section Renewal.
Variables (i : string) (l : option HeldLease) (expires_at started ttl : Z).
Hypothesis Hbelieves : forall g, stands expires_at g -> believes i l g.
Hypothesis Httl : expires_at <= started + ttl.

Lemma renewing_mono lh ok g lg t lg' t' :
  renewing i expires_at started ttl lh ok g lg t -> lg ⊆ lg' -> t <= t' -> renewing i expires_at started ttl lh ok g lg' t'.
Proof using. intros (H1 & H2 & H3 & H4 & H5) Hlg Ht. split_and!; [by eapply handle_ok_mono|done|done|done|lia]. Qed.

Lemma renewing_in_flight v lh ok g lg t :
  renewing i expires_at started ttl lh ok g lg t -> (forall v', v = Some v' -> own_value i v') ->
  renewing i expires_at started ttl (set_in_flight v lh) ok g lg t.
Proof using. intros ([H1 H1' H1''] & H2 & H3 & H4 & H5) Hv. by split_and!; [split|..]. Qed.

Lemma renewing_revision rev lh ok g lg t :
  renewing i expires_at started ttl lh ok g lg t -> own i lg rev -> renewing i expires_at started ttl (set_revision rev lh) ok g lg t.
Proof using. intros ([H1 H1' H1''] & H2 & H3 & H4 & H5) Hv. by split_and!; [split|..]. Qed.

Lemma stands_min x e g : stands x g -> x <= e -> stands x (Z.min e <$> g).
Proof. intros (e' & -> & Hle) He. eexists. split; [done|lia]. Qed.

(** A write of the renewal, whatever its answer. *)
Lemma renewal_write {A} r e a lh g lg t (k : write_answer -> prog lease_value A) post :
  renewing i expires_at started ttl lh false g lg t ->
  (r = RCreate key (Envelope i e a) \/ exists rev, r = RUpdate key (Envelope i e a) rev /\ own i lg rev) ->
  started + ttl <= e ->
  (forall ans g' lg' t', ans = Raised \/ ans = Refused -> lg ⊆ lg' -> renewing i expires_at started ttl lh false g' lg' t' ->
     lsafe i l (k ans) post g' lg' t') ->
  (forall rev g' lg' t', own i lg' rev -> lg ⊆ lg' -> renewing i expires_at started ttl lh true g' lg' t' ->
     lsafe i l (k (Applied rev)) post g' lg' t') ->
  lsafe i l (Write r k) post g lg t.
Proof using Hbelieves Httl HL.
  intros Hren Hr He Hfail Hok lg1 t1 Hlg Ht.
  pose proof (renewing_mono _ _ _ _ _ _ _ Hren Hlg Ht) as Hren1. destruct Hren1 as (H1 & H2 & H3 & _ & H5).
  exists (match r with RCreate _ _ => g | _ => Z.min e <$> g end).
  assert (Hst : stands expires_at (match r with RCreate _ _ => g | _ => Z.min e <$> g end)).
  { destruct Hr as [->|(rev & -> & _)]; [done|]. apply stands_min; [done|lia]. }
  assert (Hren' : renewing i expires_at started ttl lh false (match r with RCreate _ _ => g | _ => Z.min e <$> g end) lg1 t1) by done.
  split_and!; [|by apply Hbelieves|by apply Hfail; auto|by apply Hfail; auto|].
  - destruct Hr as [->|(rev & -> & Ho)]; simpl; split_and!; try done; [by do 2 eexists|by do 2 eexists|left; by eapply own_mono].
  - intros rev Hlg'.
    assert (Hk : request_key r = key /\ request_value r = Some (Envelope i e a)) by (by destruct Hr as [->|(rv & -> & _)]).
    destruct Hk as [Hk Hv]. unfold won. rewrite Hv. split; [apply Hbelieves; exists e; split; [done|lia]|].
    apply Hok; [by eapply own_recorded|by etrans|]. split_and!; [by eapply handle_ok_mono|done|exists e; split; [done|lia]| |done].
    intros _. by exists e.
Qed.

Definition refreshed (r : LeaseHandle * result unit lease_error) : option Z -> history lease_value -> Z -> Prop :=
  renewing i expires_at started ttl r.1 (match r.2 with Ok _ => true | Err _ => false end).

Lemma refreshed_renewed lh lh' rev g lg t :
  renewing i expires_at started ttl lh true g lg t -> own i lg rev -> lh_holder lh' = i ->
  refreshed (set_ttl ttl (set_revision rev (set_in_flight None lh')), Ok tt) g lg t.
Proof using. intros ([H1 H1' H1''] & H2 & H3 & H4 & H5) Hv Hh. by split_and!; [split|..]. Qed.

Lemma refresh_handle_safe adopt lh g lg t :
  renewing i expires_at started ttl lh false g lg t -> lsafe i l (refresh_handle key lh None adopt) refreshed g lg t.
Proof using Hbelieves Httl HL.
  intros Hren lg1 t1 Hlg1 Ht1. pose proof (renewing_mono _ _ _ _ _ _ _ Hren Hlg1 Ht1) as Hren1.
  split_and!; [done..|]. intros [j e a|raw] observed Hobs; [|done].
  assert (Hlh : lh_holder lh = i) by apply Hren. rewrite Hlh.
  destruct (String.eqb_spec j i) as [->|Hne]; [|done]. cbv zeta. cbn [negb].
  assert (Hown : own i lg1 observed) by (by do 2 eexists).
  set (adopts := negb (observed =? lh_revision lh) && _).
  set (lh1 := if adopts then set_revision observed lh else lh).
  assert (Hren1' : renewing i expires_at started ttl lh1 false g lg1 t1) by (destruct adopts; [by apply renewing_revision|done]).
  set (unanswered := if adopts then None else lh_in_flight_value lh).
  assert (Hun : forall v, unanswered = Some v -> own_value i v).
  { subst unanswered. destruct adopts; [done|]. apply Hren. }
  clearbody lh1 unanswered. clear Hren Hren1 Hobs. intros lg2 t2 Hlg2 Ht2.
  assert (Hh1 : lh_holder lh1 = i /\ lh_ttl_seconds lh1 = ttl) by (split; apply Hren1'). destruct Hh1 as [-> ->]. cbn [default].
  pose proof (renewing_mono _ _ _ _ _ _ _ Hren1' Hlg2 Ht2) as Hren2.
  set (payload := Envelope i (t2 + ttl) a).
  assert (Hpay : forall v, Some payload = Some v -> own_value i v) by (intros v [= <-]; by do 2 eexists).
  pose proof (renewing_in_flight (Some payload) _ _ _ _ _ Hren2 Hpay) as Hren3.
  assert (He : started + ttl <= t2 + ttl) by (destruct Hren2 as (_ & _ & _ & _ & ?); lia).
  eapply (renewal_write _ (t2 + ttl) a); [exact Hren3|right; eexists; split; [done|apply Hren3]|done| |].
  - intros ans g' lg3 t3 Hans Hlg3 Hr3. destruct Hans as [->| ->]; [by destruct unanswered|].
    destruct unanswered as [u|]; [|by apply renewing_in_flight].
    pose proof (renewing_in_flight (Some u) _ _ _ _ _ Hr3 Hun) as Hr4.
    intros lg5 t5 Hlg5 Ht5. pose proof (renewing_mono _ _ _ _ _ _ _ Hr4 Hlg5 Ht5) as Hr5.
    split_and!; [done..|]. intros v rev Hv. case_bool_decide as Hvu; [|done]. subst u.
    assert (Hrev : own i lg5 rev) by (destruct (Hun v eq_refl) as (e1 & a1 & ->); by do 2 eexists).
    pose proof (renewing_in_flight (Some payload) _ _ _ _ _ (renewing_revision rev _ _ _ _ _ Hr5 Hrev) Hpay) as Hr6.
    eapply (renewal_write _ (t2 + ttl) a); [exact Hr6|right; eexists; split; [done|done]|done| |].
    + intros ans g6 lg6 t6 [->| ->] Hlg6 Hr7; [done|]. by apply renewing_in_flight.
    + intros rev' g6 lg6 t6 Ho Hlg6 Hr7. eapply refreshed_renewed; [exact Hr7|done|apply Hren3].
  - intros rev g' lg3 t3 Ho Hlg3 Hr3.
    destruct unanswered; (eapply refreshed_renewed; [exact Hr3|done|apply Hren3]).
Qed.

Lemma retake_handle_safe lh g lg t :
  renewing i expires_at started ttl lh false g lg t ->
  lsafe i l (retake_handle key lh) (fun r => renewing i expires_at started ttl r.1 (match r.2 with Ok b => b | Err _ => false end)) g lg t.
Proof using Hbelieves Httl HL.
  intros Hren lg1 t1 Hlg1 Ht1. pose proof (renewing_mono _ _ _ _ _ _ _ Hren Hlg1 Ht1) as Hren1.
  assert (Hh : lh_holder lh = i /\ lh_ttl_seconds lh = ttl) by (split; apply Hren). destruct Hh as [Hh1 Hh2]. rewrite Hh1, Hh2.
  set (payload := Envelope i (t1 + ttl) t1).
  assert (Hpay : forall v, Some payload = Some v -> own_value i v) by (intros v [= <-]; by do 2 eexists).
  pose proof (renewing_in_flight (Some payload) _ _ _ _ _ Hren1 Hpay) as Hren2.
  eapply (renewal_write _ (t1 + ttl) t1); [exact Hren2|by left|destruct Hren1 as (_ & _ & _ & _ & ?); lia| |].
  - intros ans g' lg2 t2 [->| ->] Hlg2 Hr; [done|]. by apply renewing_in_flight.
  - intros rev g' lg2 t2 Ho Hlg2 Hr. destruct Hr as ([H1 H1' H1''] & H2 & H3 & H4 & H5). by split_and!; [split|..].
Qed.

Lemma renew_once_safe h g lg t :
  renewing i expires_at started ttl (hl_handle h) false g lg t -> lsafe i l (renew_once key h) refreshed g lg t.
Proof using Hbelieves Httl HL.
  intros Hren. eapply safe_bind; [by apply refresh_handle_safe|]. intros [lh [[]|e]] g1 lg1 t1 Hmid; [done|].
  destruct e as [| | | |reason]; try done. destruct (hl_retake h); [|done].
  eapply safe_bind; [by apply retake_handle_safe|]. by intros [lh' [[]|e]] g2 lg2 t2 Hmid'.
Qed.
End Renewal.

Lemma held_mark_lost reason h : held (mark_lost reason h) = false.
Proof. unfold held, mark_lost. by destruct h as [? ? ? ? ? [] []]. Qed.

Lemma good_lost i h h' g lg t : good i (Some h) g lg t -> hl_handle h' = hl_handle h -> hl_ttl h' = hl_ttl h ->
  hl_expires_at h' = hl_expires_at h -> (held h' = true -> held h = true) -> good i (Some h') g lg t.
Proof.
  intros [Hb Hg] H1 H2 H3 H4. destruct (Hg h eq_refl) as (Hg1 & Hg2 & Hg3). split.
  - intros h0 [= <-] Hheld. rewrite H3. by apply Hb, H4.
  - intros h0 [= <-]. by rewrite H1, H2, H3.
Qed.

Lemma good_mark_lost i reason h g lg t : good i (Some h) g lg t -> good i (Some (mark_lost reason h)) g lg t.
Proof.
  intros Hg. eapply good_lost; [exact Hg|by unfold mark_lost; case_match..|]. by rewrite held_mark_lost.
Qed.

Lemma good_on_expired i h g lg t : good i (Some h) g lg t -> good i (Some (on_expired h)) g lg t.
Proof. intros Hg. unfold on_expired. destruct (hl_retake h); [done|]. by apply good_mark_lost. Qed.

Lemma good_is_stable i : stable (good i).
Proof.
  intros l g lg t lg' t' [Hb Hg] Hlg Ht. split; [done|]. intros h Hl. destruct (Hg h Hl) as (H1 & H2 & H3).
  split_and!; [by eapply handle_ok_mono|done|lia].
Qed.

Lemma on_expired_ttl h : hl_ttl (on_expired h) = hl_ttl h /\ hl_handle (on_expired h) = hl_handle h
  /\ hl_expires_at (on_expired h) = hl_expires_at h /\ hl_released (on_expired h) = hl_released h.
Proof. unfold on_expired, mark_lost. by repeat case_match. Qed.

Lemma renew_turn_safe i h started g lg :
  good i (Some h) g lg started -> held h = true ->
  lsafe i (Some h) (pbind (renew_once key h) (renew_answered h started)) (fun h => good i (Some h)) g lg started.
Proof using HL.
  intros [Hb Hg] Hheld. destruct (Hg h eq_refl) as (Hh & Httl & Hle). destruct (Hb h eq_refl Hheld) as (e & -> & Hexp).
  assert (Hbel : forall g, stands (hl_expires_at h) g -> believes i (Some h) g).
  { intros g0 (e0 & -> & He0) h0 [= <-] _. by exists e0. }
  assert (Hren : renewing i (hl_expires_at h) started (hl_ttl h) (hl_handle h) false (Some e) lg started).
  { split_and!; [done|done|by exists e|done|lia]. }
  eapply safe_bind; [by apply (renew_once_safe i (Some h) (hl_expires_at h) started (hl_ttl h) Hbel Hle)|].
  intros [lh outcome] g3 lg3 t3 (Hh3 & Httl3 & Hst3 & Hok3 & Hs3) lg4 t4 Hlg4 Ht4. simpl in *.
  assert (Hgood4 : good i (Some (with_handle lh h)) g3 lg4 t4).
  { split; [intros h0 [= <-] _; exact Hst3|]. intros h0 [= <-]. simpl. split_and!; [by eapply handle_ok_mono|done|lia]. }
  set (h5 := if hl_expires_at h <=? t4 then on_expired (with_handle lh h) else with_handle lh h).
  assert (Hgood5 : good i (Some h5) g3 lg4 t4) by (subst h5; destruct (hl_expires_at h <=? t4); [by apply good_on_expired|done]).
  assert (Httl5 : hl_ttl h5 = hl_ttl h) by (subst h5; destruct (hl_expires_at h <=? t4); [by rewrite (proj1 (on_expired_ttl _))|done]).
  destruct outcome as [[]|[| | | |reason]]; simpl; [|done..|by apply good_mark_lost].
  destruct Hgood5 as [Hb5 Hg5]. destruct (Hg5 h5 eq_refl) as (H1 & H2 & H3). rewrite Httl5. split.
  - intros h0 [= <-] _. by apply Hok3.
  - intros h0 [= <-]. simpl. rewrite Httl5 in *. split_and!; [done|done|lia].
Qed.

Lemma renew_safe i h g lg t : good i (Some h) g lg t -> lsafe i (Some h) (renew key h) (fun h => good i (Some h)) g lg t.
Proof using HL.
  intros Hgood. unfold renew. destruct (held h) eqn:Hheld; cbn [negb]; [|done].
  intros lg1 t1 Hlg1 Ht1. pose proof (good_is_stable i _ _ _ _ _ _ Hgood Hlg1 Ht1) as Hgood1.
  destruct (match hl_hold_deadline h with Some d => d <=? t1 | None => false end); [by apply good_mark_lost|].
  intros lg2 started Hlg2 Ht2. pose proof (good_is_stable i _ _ _ _ _ _ Hgood1 Hlg2 Ht2) as Hgood2.
  destruct ((hl_expires_at h - started <=? 0) && negb (hl_retake h)); [by apply good_on_expired|].
  by apply renew_turn_safe.
Qed.

Lemma release_safe i h g lg t :
  good i (Some h) g lg t -> lsafe i (Some (released h)) (pbind (release key h) (fun h => Ret None)) (good i) g lg t.
Proof using HL.
  assert (Hnone : forall g lg t, good i None g lg t) by (intros; by split).
  assert (Hbel : forall g, believes i (Some (released h)) g).
  { intros g0 h0 [= <-] Hheld. unfold held in Hheld. simpl in Hheld. by rewrite andb_false_r in Hheld. }
  intros [_ Hg]. destruct (Hg h eq_refl) as ([Hh1 Hh2 Hh3] & _). unfold release. destruct (hl_released h); [apply Hnone|].
  unfold delete_entry, release_handle. simpl. destruct (lh_released (hl_handle h)); [apply Hnone|].
  intros lg1 t1 Hlg1 Ht1. split_and!; [apply Hnone..|]. intros [j e a|raw] rev Hv; [|apply Hnone].
  rewrite Hh1. destruct (String.eqb_spec j i) as [->|Hne]; [|apply Hnone]. simpl. case_match; [apply Hnone|].
  intros lg2 t2 Hlg2 Ht2. exists None. split_and!; [|done|apply Hnone..|].
  - simpl. split_and!; [done| |done]. case_match; [exists e, a; by eapply lookup_weaken|by eapply own_mono, transitivity].
  - intros rev' _. split; [done|]. apply Hnone.
Qed.

Lemma lease_protocol_ok : protocol_ok offers may_expire believes good may_send won inv.
Proof using HL.
  split.
  - apply good_is_stable.
  - by intros i l g lg t [Hb _].
  - intros i l l' p g lg t Hof Hg. destruct Hof as [rounds ttl re mw retake mh|h|h|h].
    + split; [done|]. apply hold_safe.
    + split; [by apply Hg|]. eapply safe_bind; [by apply renew_safe|]. by intros.
    + split; [by apply good_on_expired with (1 := Hg)|]. by apply good_on_expired.
    + split; [|by apply release_safe]. intros h0 [= <-] Hheld. unfold held in Hheld. simpl in Hheld. by rewrite andb_false_r in Hheld.
  - intros s lg t t' pool gs. apply inv_tick_ok.
  - intros s lg t pool gs i r g1 _. apply inv_sent_ok.
  - apply inv_applied_ok.
  - apply inv_lands_ok.
  - intros s lg t pool gs k v rev _. apply inv_expires_ok.
Qed.
(** *** Exclusion *)

Definition at_rest (w : world St lease_value (option HeldLease)) : Prop :=
  fits (w_store w) (w_history w) /\ w_unanswered w = [] /\ map_Forall (fun _ pr => pr = mkProcess None None) (w_procs w).

(** [holding w i h]: [i] has [h], does not know it lost, and its expiry has not come. *)
Definition holding (w : world St lease_value (option HeldLease)) (i : string) (h : HeldLease) : Prop :=
  exists run, w_procs w !! i = Some (mkProcess (Some h) run) /\ held h = true /\ w_clock w < hl_expires_at h.

Lemma at_rest_ok w : at_rest w -> system_ok believes good may_send won inv w.
Proof.
  intros (Hfit & Hpool & Hps). exists (fun _ => None). split_and!; [done|by rewrite Hpool|].
  intros i pr Hi. rewrite (Hps i pr Hi). by split.
Qed.

Lemma holding_entry w i h :
  system_ok believes good may_send won inv w -> holding w i h ->
  exists rev e a, cas_get (w_store w) key = Some (Envelope i e a, rev) /\ hl_expires_at h <= e.
Proof.
  intros (gs & _ & [Hb _] & Hps) (run & Hi & Hheld & Hclock).
  assert (Hbel : believes i (Some h) (gs i)) by (destruct run; by destruct (Hps i _ Hi)).
  destruct (Hbel h eq_refl Hheld) as (e & Hg & Hle). destruct (Hb i e Hg ltac:(lia)) as (rev & e' & a & Hcur & Hle').
  exists rev, e', a. split; [done|lia].
Qed.

(** (C4) However the operations of any number of holders interleave, whatever calls raise and whenever
    their requests still land: while a holder holds the lease and its expiry has not come, the
    bucket's entry is its own and lasts at least as long, [holder] says so, and no other holder holds
    the lease. *)
Theorem lease_mutual_exclusion w w' i h :
  at_rest w -> rtc (wstep offers may_expire) w w' -> holding w' i h ->
  (exists rev e a, cas_get (w_store w') key = Some (Envelope i e a, rev) /\ hl_expires_at h <= e)
  /\ run_alone (holder key) [] (w_clock w') (w_store w') = (Ok (Some i), w_store w')
  /\ forall j h', holding w' j h' -> j = i.
Proof using HL.
  intros Hw Hsteps Hi.
  assert (Hok : system_ok believes good may_send won inv w').
  { by eapply (reachable_sound _ _ _ _ _ _ _ lease_protocol_ok), at_rest_ok. }
  pose proof (holding_entry w' i h Hok Hi) as Hent. split; [done|]. destruct Hent as (rev & e & a & Hcur & Hle). split.
  { destruct Hi as (run & _ & _ & Hclock). unfold run_alone. cbn. rewrite Hcur. cbn.
    by replace (w_clock w' <? e) with true by (symmetry; apply Z.ltb_lt; lia). }
  intros j h' Hj. destruct (holding_entry w' j h' Hok Hj) as (rev' & e' & a' & Hcur' & _). congruence.
Qed.
End Protocol.

Definition two_idle : world (table_store lease_value) lease_value (option HeldLease) :=
  mkWorld (mkTableStore ∅ 0) 100 ∅ [] {["a" := mkProcess None None; "b" := mkProcess None None]}.

Definition first_holds : world (table_store lease_value) lease_value (option HeldLease) :=
  foldl (flip advance) (mkWorld (mkTableStore ∅ 0) 100 ∅ []
    (<["a" := mkProcess None (Some (pbind (hold "lock" "a" 1 (30 * second) (10 * second) 0 false None)
       (fun r => Ret match r with Some (Ok h) => Some h | _ => None end)))]> (w_procs two_idle))) (replicate 9 "a"%string).

Lemma lease_mutual_exclusion_witness :
  (exists h, holding first_holds "a" h)
  /\ forall j h', holding first_holds j h' -> j = "a"%string.
Proof.
  assert (Ha : holding first_holds "a" (mkHeldLease (mkLeaseHandle "a" 1 (30 * second) (Some (100 + 30 * second)) false None)
    (30 * second) (100 + 30 * second) false None None false)).
  { exists None. split_and!; vm_compute; reflexivity. }
  split; [eexists; exact Ha|].
  apply (lease_mutual_exclusion "lock" two_idle first_holds "a") with (3 := Ha).
  - split_and!; [split|done|].
    + intros k v rev Hk. discriminate Hk.
    + intros rev e He. discriminate He.
    + apply map_Forall_insert_2; [done|]. by apply map_Forall_singleton.
  - eapply rtc_l; [|apply schedule_reaches]. by apply (step_start _ _ _ _ _ _ _ "a" None None), offers_hold.
Defined.
