(* ===== verification/DistributedCounter.v ===== *)
(** * The distributed counter

    [src/packages/core/src/threetears/core/coordination/distributed_counter.py]: an atomic add over one
    bucket entry, a read, modify and compare-and-swap that is tried again when another writer got there
    first. Each method is a program of [KvProtocol.v].

    [no_lost_update] is the guarantee for any number of callers on one key: the counter is the sum of
    the deltas whose calls returned, and of some of those whose calls raised without an answer, each
    once. In a bucket with a time to live the entry may expire, here at any moment, and the count starts
    over: it is then the sum of some of those deltas, each still once. *)

From Stdlib Require Import Ascii String Bool List NArith ZArith Lia.
From stdpp Require Import base list gmap strings functions relations.
From S2P Require Import Prelude CasStore KvProtocol.

Open Scope list_scope.
Open Scope Z_scope.

(** ** Data and programs *)

(** What an entry's bytes decode to. *)
Inductive counter_value := Counted (value : Z) | Malformed (raw : string).

Inductive counter_error := CounterKvError | CounterDecodeError | DistributedCounterConflict.

Definition CAS_MAX_RETRIES : nat := 30.

Section Programs.
Variable key : string.

(** The [for] of [_apply_delta], with the attempts left. *)
Fixpoint apply_attempts (attempts : nat) (delta : Z) : prog counter_value (result Z counter_error) :=
  match attempts with
  | O => Ret (Err DistributedCounterConflict)
  | S attempts =>
      GetEntry key (fun entry =>
        match entry with
        | None => Ret (Err CounterKvError)
        | Some None =>
            Write (RCreate key (Counted delta)) (fun a =>
              match a with
              | Raised => Ret (Err CounterKvError)
              | Applied _ => Ret (Ok delta)
              | Refused => apply_attempts attempts delta
              end)
        | Some (Some (Malformed _, _)) => Ret (Err CounterDecodeError)
        | Some (Some (Counted current, revision)) =>
            Write (RUpdate key (Counted (current + delta)) revision) (fun a =>
              match a with
              | Raised => Ret (Err CounterKvError)
              | Applied _ => Ret (Ok (current + delta))
              | Refused => apply_attempts attempts delta
              end)
        end)
  end.

Definition apply_delta (delta : Z) : prog counter_value (result Z counter_error) := apply_attempts CAS_MAX_RETRIES delta.
Definition increment (delta : Z) : prog counter_value (result Z counter_error) := apply_delta delta.
Definition decrement (delta : Z) : prog counter_value (result Z counter_error) := apply_delta (- delta).

Definition counter_get : prog counter_value (result Z counter_error) :=
  GetEntry key (fun entry =>
    Ret match entry with
        | None => Err CounterKvError
        | Some None => Ok 0
        | Some (Some (Counted value, _)) => Ok value
        | Some (Some (Malformed _, _)) => Err CounterDecodeError
        end).
End Programs.

(** ** Many callers *)

(** What a caller knows: the deltas whose calls returned, the latest first, and the deltas of those that raised. *)
Record tally := mkTally { ta_confirmed : list Z; ta_doubtful : list Z }.

Definition account (d : Z) (r : result Z counter_error) (l : tally) : tally :=
  match r with
  | Ok _ => mkTally (d :: ta_confirmed l) (ta_doubtful l)
  | Err CounterKvError => mkTally (ta_confirmed l) (d :: ta_doubtful l)
  | Err _ => l
  end.

Abbreviation total := (foldr Z.add 0).

Lemma total_app l1 l2 : total (l1 ++ l2) = total l1 + total l2.
Proof. induction l1; simpl; lia. Qed.

Lemma total_at {A} (l : list A) (f f' : A -> Z) i d :
  NoDup l -> i ∈ l -> (forall j, j <> i -> f' j = f j) -> f' i = f i + d -> total (map f' l) = total (map f l) + d.
Proof.
  intros Hnd Hi Hother Hhere. induction Hnd as [|x l Hx Hnd IH]; [by apply elem_of_nil in Hi|]. simpl.
  apply elem_of_cons in Hi as [->|Hi].
  - rewrite Hhere. enough (map f' l = map f l) as -> by lia. apply map_ext_in. intros j Hj. apply Hother.
    intros ->. by apply Hx, list_elem_of_In.
  - rewrite IH by done. rewrite Hother; [lia|]. by intros ->.
Qed.

Section Callers.
Context {St : Type} `{HB : KvBucket St counter_value} `{HL : !KvBucketLaws St counter_value}.
Variable key : string.
Variable callers : list string.

Inductive adds (i : string) : tally -> tally -> prog counter_value tally -> Prop :=
| adds_increment l d : i ∈ callers -> adds i l l (pbind (increment key d) (fun r => Ret (account d r l)))
| adds_decrement l d : i ∈ callers -> adds i l l (pbind (decrement key d) (fun r => Ret (account (- d) r l))).

(** Whether the bucket has a time to live ([ttl] of the constructor): an entry of one may expire. *)
Variable has_ttl : bool.
Definition may_expire (_ : string) (_ : counter_value) (_ : Z) : Prop := has_ttl = true.

Definition count (s : St) : option Z :=
  match cas_get s key with
  | None => Some 0
  | Some (Counted v, _) => Some v
  | Some (Malformed _, _) => None
  end.

(** What a request adds, if it is applied. *)
Definition delta_of (lg : history counter_value) (r : request counter_value) : option Z :=
  match r with
  | RCreate _ (Counted v) => Some v
  | RUpdate _ (Counted v) rev => match lg !! rev with Some (_, Counted v0) => Some (v - v0) | _ => None end
  | _ => None
  end.

Definition pending (lg : history counter_value) (pool : list (string * request counter_value)) (i : string) : list Z :=
  omap (fun jr : string * request counter_value => if decide (jr.1 = i) then delta_of lg jr.2 else None) pool.

Definition can_add (i : string) (r : request counter_value) (lg : history counter_value) (d : Z) : Prop :=
  i ∈ callers /\ request_key r = key /\ delta_of lg r = Some d.

(** The ghost of a caller is its tally once every answer is in. *)
Definition c_believes (i : string) (l : tally) (g : tally) : Prop := True.
Definition c_good (i : string) (l : tally) (g : tally) (lg : history counter_value) (t : Z) : Prop :=
  ta_confirmed g = ta_confirmed l /\ ta_doubtful g ⊆+ ta_doubtful l.
Definition c_may_send (i : string) (g : tally) (r : request counter_value) (lg : history counter_value) (t : Z) (g1 : tally) : Prop :=
  exists d, can_add i r lg d /\ g1 = mkTally (ta_confirmed g) (d :: ta_doubtful g).
Definition c_won (g : tally) (r : request counter_value) : tally :=
  match ta_doubtful g with d :: ds => mkTally (d :: ta_confirmed g) ds | [] => g end.

Variable base : Z.

(** Of the deltas that were added, confirmed or landed in doubt, the count holds some, all if nothing expires, on top of where it started. *)
Definition c_inv (s : St) (lg : history counter_value) (t : Z) (pool : list (string * request counter_value)) (gs : string -> tally) : Prop :=
  exists (landed held : string -> list Z) (start : Z),
    (forall i, landed i ++ pending lg pool i ⊆+ ta_doubtful (gs i))
    /\ Forall (fun jr => exists d, can_add jr.1 jr.2 lg d) pool
    /\ (forall i, held i ⊆+ ta_confirmed (gs i) ++ landed i)
    /\ (start = base \/ start = 0)
    /\ (has_ttl = false -> start = base /\ forall i, held i ≡ₚ ta_confirmed (gs i) ++ landed i)
    /\ count s = Some (start + total (map (fun i => total (held i)) callers)).

Lemma delta_of_mono lg lg' r d : delta_of lg r = Some d -> lg ⊆ lg' -> delta_of lg' r = Some d.
Proof.
  intros Hd Hlg. destruct r as [k [v|]|k [v|] rev|k rev]; simpl in *; try done.
  destruct (lg !! rev) as [[k0 v0]|] eqn:Hl; [|done]. by rewrite (lookup_weaken _ _ _ _ Hl Hlg).
Qed.

Lemma can_add_mono i r lg lg' d : can_add i r lg d -> lg ⊆ lg' -> can_add i r lg' d.
Proof. intros (H1 & H2 & H3) Hlg. split_and!; [done|done|by eapply delta_of_mono]. Qed.

Lemma pending_mono lg lg' pool i :
  Forall (fun jr => exists d, can_add jr.1 jr.2 lg d) pool -> lg ⊆ lg' -> pending lg' pool i = pending lg pool i.
Proof.
  intros Hp Hlg. induction Hp as [|[j r] pool (d & _ & _ & Hd) Hp IH]; [done|]. simpl in *. unfold pending in *. simpl.
  rewrite IH. destruct (decide (j = i)); [|done]. by rewrite Hd, (delta_of_mono _ _ _ _ Hd Hlg).
Qed.

Lemma pool_mono lg lg' pool :
  Forall (fun jr => exists d, can_add jr.1 jr.2 lg d) pool -> lg ⊆ lg' -> Forall (fun jr => exists d, can_add jr.1 jr.2 lg' d) pool.
Proof. intros Hp Hlg. eapply Forall_impl; [exact Hp|]. intros jr [d Hd]. exists d. by eapply can_add_mono. Qed.

(** An applied request adds its delta. *)
Lemma applied_adds i r lg d s rev s' v :
  fits s lg -> can_add i r lg d -> exec r s = (Applied rev, s') -> count s = Some v -> count s' = Some (v + d).
Proof using HL.
  intros Hfit (_ & Hk & Hd) He Hc. destruct (exec_applied r s rev s' He) as (Hm & _ & _ & Hv). rewrite Hk in Hv. unfold count in *.
  destruct r as [k [x|]|k [x|] r0|k r0]; simpl in *; try done; subst k.
  - rewrite Hm in Hc. injection Hc as <-. destruct Hv as [-> _]. injection Hd as ->. f_equal; lia.
  - destruct Hm as [v0 Hm], Hv as [-> _]. rewrite (fits_entry _ _ Hfit _ _ _ Hm) in Hd. rewrite Hm in Hc.
    destruct v0 as [v0|]; [|done]. injection Hc as <-. injection Hd as <-. f_equal; lia.
Qed.

Hypothesis Hcallers : NoDup callers.

Lemma c_inv_sent s lg t pool gs i r g1 :
  c_inv s lg t pool gs -> c_may_send i (gs i) r lg t g1 -> c_inv s lg t ((i, r) :: pool) (<[i := g1]> gs).
Proof using.
  intros (landed & held & start & Hl & Hp & Hh & Hs & Hall & Hc) (d & Hadd & ->).
  assert (Hconf : forall j, ta_confirmed (<[i := mkTally (ta_confirmed (gs i)) (d :: ta_doubtful (gs i))]> gs j) = ta_confirmed (gs j)).
  { intros j. destruct (decide (i = j)) as [<-|Hne]; [by rewrite fn_lookup_insert|by rewrite fn_lookup_insert_ne]. }
  exists landed, held, start. split_and!; [| |intros j; rewrite Hconf; apply Hh|done|intros Hno; split; [by apply Hall|intros j; rewrite Hconf; by apply Hall]|done].
  - intros j. unfold pending in *. simpl. destruct (decide (i = j)) as [<-|Hne].
    + rewrite fn_lookup_insert. simpl. destruct Hadd as (_ & _ & ->). rewrite <- Permutation_middle. by apply submseteq_skip.
    + rewrite fn_lookup_insert_ne by done. apply Hl.
  - constructor; [by exists d|done].
Qed.

(** One caller's held deltas grow by one. *)
Lemma held_grows (held : string -> list Z) i d : i ∈ callers ->
  total (map (fun j => total (<[i := d :: held i]> held j)) callers) = total (map (fun j => total (held j)) callers) + d.
Proof using Hcallers.
  intros Hi. apply (total_at _ _ _ i); [done|done| |].
  - intros j Hne. by rewrite fn_lookup_insert_ne.
  - rewrite fn_lookup_insert. simpl. lia.
Qed.

Lemma c_inv_applied s lg t pool gs i r g1 rev s' :
  fits s lg -> c_inv s lg t pool gs -> c_may_send i (gs i) r lg t g1 -> exec r s = (Applied rev, s') ->
  c_inv s' (record r (Applied rev) lg) t pool (<[i := c_won g1 r]> gs).
Proof using Hcallers HL.
  intros Hfit (landed & held & start & Hl & Hp & Hh & Hs & Hall & Hc) (d & Hadd & ->) He. destruct (fits_exec r s _ s' lg Hfit He) as [_ Hlg].
  exists landed, (<[i := d :: held i]> held), start. split_and!; [|by eapply pool_mono| |done| |].
  - intros j. rewrite (pending_mono _ _ _ _ Hp Hlg). destruct (decide (i = j)) as [<-|Hne].
    + rewrite fn_lookup_insert. apply Hl.
    + rewrite fn_lookup_insert_ne by done. apply Hl.
  - intros j. destruct (decide (i = j)) as [<-|Hne]; [rewrite !fn_lookup_insert; by apply submseteq_skip|rewrite !fn_lookup_insert_ne by done; apply Hh].
  - intros Hno. destruct (Hall Hno) as [-> Hheld]. split; [done|]. intros j.
    destruct (decide (i = j)) as [<-|Hne]; [rewrite !fn_lookup_insert; simpl; by rewrite Hheld|rewrite !fn_lookup_insert_ne by done; apply Hheld].
  - rewrite (applied_adds i r lg d s rev s' _ Hfit Hadd He Hc), held_grows by apply Hadd. f_equal. lia.
Qed.

Lemma c_inv_lands s lg t pool1 pool2 gs i r a s' :
  fits s lg -> c_inv s lg t (pool1 ++ (i, r) :: pool2) gs -> exec r s = (a, s') ->
  c_inv s' (record r a lg) t (pool1 ++ pool2) gs.
Proof using Hcallers HL.
  intros Hfit (landed & held & start & Hl & Hp & Hh & Hs & Hall & Hc) He. destruct (fits_exec r s _ s' lg Hfit He) as [_ Hlg].
  rewrite Forall_app, Forall_cons in Hp. destruct Hp as (Hp1 & (d & Hadd) & Hp2). simpl in Hadd.
  assert (Hp : Forall (fun jr => exists d, can_add jr.1 jr.2 lg d) (pool1 ++ pool2)) by (by apply Forall_app).
  assert (Hpend : forall j, pending lg (pool1 ++ (i, r) :: pool2) j ≡ₚ (if decide (i = j) then [d] else []) ++ pending lg (pool1 ++ pool2) j).
  { intros j. unfold pending. rewrite !omap_app. simpl. destruct (decide (i = j)); [|done].
    destruct Hadd as (_ & _ & ->). by rewrite <- Permutation_middle. }
  destruct a as [rev| |].
  - exists (<[i := d :: landed i]> landed), (<[i := d :: held i]> held), start. split_and!; [|by eapply pool_mono| |done| |].
    + intros j. rewrite (pending_mono _ _ _ _ Hp Hlg). specialize (Hl j). rewrite Hpend in Hl. destruct (decide (i = j)) as [<-|Hne].
      * rewrite fn_lookup_insert. simpl in *. by rewrite Permutation_middle.
      * by rewrite fn_lookup_insert_ne.
    + intros j. destruct (decide (i = j)) as [<-|Hne]; [|rewrite !fn_lookup_insert_ne by done; apply Hh].
      rewrite !fn_lookup_insert, <- Permutation_middle. by apply submseteq_skip.
    + intros Hno. destruct (Hall Hno) as [-> Hheld]. split; [done|]. intros j. destruct (decide (i = j)) as [<-|Hne]; [|rewrite !fn_lookup_insert_ne by done; apply Hheld].
      rewrite !fn_lookup_insert, <- Permutation_middle. by rewrite Hheld.
    + rewrite (applied_adds i r lg d s rev s' _ Hfit Hadd He Hc), held_grows by apply Hadd. f_equal. lia.
  - destruct (exec_refused r s _ s' He) as [_ ->]; [done|]. exists landed, held, start. split_and!; [|done|done|done|done|done].
    intros j. etrans; [|apply (Hl j)]. apply submseteq_app; [done|]. simpl. rewrite Hpend. by apply submseteq_inserts_l.
  - by destruct (exec_refused r s _ s' He).
Qed.

(** The entry expires, or that of another key. *)
Lemma c_inv_expires s lg t pool gs k v rev : c_inv s lg t pool gs -> cas_get s k = Some (v, rev) -> may_expire k v t -> c_inv (cas_expire k s) lg t pool gs.
Proof using HL.
  intros (landed & held & start & Hl & Hp & Hh & Hs & Hall & Hc) Hg Httl. unfold may_expire in Httl. destruct (expire_removes s k) as [[Hnone Hother] _].
  destruct (decide (k = key)) as [->|Hne].
  - exists landed, (fun _ => []), 0. split_and!; [done|done|intros j; apply submseteq_nil_l|by right|intros Hno; congruence|].
    unfold count. rewrite Hnone. f_equal. clear. induction callers as [|x l IH]; simpl in *; lia.
  - exists landed, held, start. split_and!; try done. unfold count in *. by rewrite Hother.
Qed.

Abbreviation csafe := (safe c_believes c_may_send c_won).

(** What one call leaves of its caller's ghost. *)
Definition added (d : Z) (g0 : tally) (r : result Z counter_error) (g : tally) (lg : history counter_value) (t : Z) : Prop :=
  match r with
  | Ok _ => g = mkTally (d :: ta_confirmed g0) (ta_doubtful g0)
  | Err CounterKvError => ta_confirmed g = ta_confirmed g0 /\ ta_doubtful g ⊆+ d :: ta_doubtful g0
  | Err _ => g = g0
  end.

Lemma apply_attempts_safe i l attempts d g lg t :
  i ∈ callers -> csafe i l (apply_attempts key attempts d) (added d g) g lg t.
Proof using HL.
  intros Hi. revert lg t. induction attempts as [|attempts IH]; intros lg t; [done|]. intros lg1 t1 Hlg1 Ht1. split_and!.
  - split; [done|]. by apply submseteq_cons.
  - intros lg2 t2 Hlg2 Ht2. exists (mkTally (ta_confirmed g) (d :: ta_doubtful g)).
    split_and!; [by exists d|done|done|apply IH|]. intros rev _. done.
  - intros [v|raw] rev Hv; [|done]. intros lg2 t2 Hlg2 Ht2. exists (mkTally (ta_confirmed g) (d :: ta_doubtful g)).
    split_and!; [|done|done|apply IH|done]. exists d. split; [|done]. split_and!; [done|done|]. simpl.
    rewrite (lookup_weaken _ _ _ _ Hv Hlg2). f_equal; lia.
Qed.

Lemma added_good i d l g r g' lg t : c_good i l g lg t -> added d g r g' lg t -> c_good i (account d r l) g' lg t.
Proof using.
  intros [H1 H2] Ha. destruct r as [v|[| |]]; simpl in *; [subst g'|destruct Ha as [Ha1 Ha2]|by subst g'..].
  - split; simpl; [by rewrite H1|done].
  - split; simpl; [by rewrite Ha1|]. etrans; [exact Ha2|]. by apply submseteq_skip.
Qed.

Lemma counter_protocol_ok : protocol_ok adds may_expire c_believes c_good c_may_send c_won c_inv.
Proof using Hcallers HL.
  split.
  - intros i l g lg t lg' t' Hg _ _. exact Hg.
  - done.
  - intros i l l' p g lg t Hof Hg. split; [done|]. destruct Hof as [l d Hi|l d Hi].
    + eapply safe_bind; [by apply apply_attempts_safe|]. intros r g1 lg1 t1 Ha. by eapply added_good.
    + eapply safe_bind; [by apply apply_attempts_safe|]. intros r g1 lg1 t1 Ha. by eapply added_good.
  - intros s lg t t' pool gs Hinv _. exact Hinv.
  - intros s lg t pool gs i r g1 _. apply c_inv_sent.
  - apply c_inv_applied.
  - apply c_inv_lands.
  - intros s lg t pool gs k v rev _. apply c_inv_expires.
Qed.

(** No call in progress, nothing unanswered, nothing counted yet by any caller. *)
Definition counting_starts (w : world St counter_value tally) : Prop :=
  fits (w_store w) (w_history w) /\ w_unanswered w = [] /\ count (w_store w) = Some base
  /\ map_Forall (fun _ pr => pr = mkProcess (mkTally [] []) None) (w_procs w).

(** The caller's tally, once its calls are over. *)
Definition settled (w : world St counter_value tally) (i : string) (l : tally) : Prop := w_procs w !! i = Some (mkProcess l None).

(** (C30) However the calls of any number of callers interleave, and whatever raises or lands late: once no call is in progress the counter is
    where it started, plus the deltas of all calls that returned, plus those of some of the calls that raised; no update is lost and
    none is applied twice. That is in a bucket without a time to live. In one with a time to live, where the entry may expire at any moment, the count
    may have started over from zero: it is then the sum of some of those deltas, and still none is applied twice. *)
Theorem no_lost_update w w' (tallies : string -> tally) :
  counting_starts w -> rtc (wstep adds may_expire) w w' -> (forall i, i ∈ callers -> settled w' i (tallies i)) ->
  exists (landed held : string -> list Z) start,
    (forall i, i ∈ callers -> landed i ⊆+ ta_doubtful (tallies i) /\ held i ⊆+ ta_confirmed (tallies i) ++ landed i)
    /\ (start = base \/ start = 0)
    /\ count (w_store w') = Some (start + total (map (fun i => total (held i)) callers))
    /\ (has_ttl = false -> start = base /\ forall i, i ∈ callers -> held i ≡ₚ ta_confirmed (tallies i) ++ landed i).
Proof using Hcallers HL.
  intros (Hfit & Hpool & Hbase & Hps) Hsteps Hset.
  assert (Hok : system_ok c_believes c_good c_may_send c_won c_inv w).
  { exists (fun _ => mkTally [] []). split_and!; [done| |].
    - exists (fun _ => []), (fun _ => []), base. rewrite Hpool. split_and!; [done|done|done|by left|done|]. rewrite Hbase. f_equal.
      cbn. clear. induction callers as [|i l IH]; simpl in *; lia.
    - intros i pr Hi. by rewrite (Hps i pr Hi). }
  destruct (reachable_sound _ _ _ _ _ _ _ counter_protocol_ok _ _ Hsteps Hok) as (gs & _ & (landed & held & start & Hl & _ & Hh & Hs & Hall & Hc) & Hps').
  assert (Hgs : forall i, i ∈ callers -> c_good i (tallies i) (gs i) (w_history w') (w_clock w')).
  { intros i Hi. exact (Hps' i _ (Hset i Hi)). }
  exists landed, held, start. split_and!; [|done|done|].
  - intros i Hi. destruct (Hgs i Hi) as [Hconf Hd]. split; [|rewrite <- Hconf; apply Hh]. etrans; [|exact Hd]. etrans; [|apply (Hl i)]. by apply submseteq_inserts_r.
  - intros Hno. destruct (Hall Hno) as [Hst Hheld]. split; [done|]. intros i Hi. destruct (Hgs i Hi) as [<- _]. apply Hheld.
Qed.
End Callers.

(** Two callers read the same value; the one that writes second is refused, reads again and adds. *)
Definition both_start : world (table_store counter_value) counter_value tally :=
  mkWorld (mkTableStore {["hits" := (Counted 10, 3)]} 3) 0 {[3 := ("hits"%string, Counted 10)]} []
    {["a" := mkProcess (mkTally [] []) None; "b" := mkProcess (mkTally [] []) None]}.

Definition both_run : world (table_store counter_value) counter_value tally :=
  mkWorld (w_store both_start) 0 (w_history both_start) []
    (<["b" := mkProcess (mkTally [] []) (Some (pbind (increment "hits" 5) (fun r => Ret (account 5 r (mkTally [] [])))))]>
    (<["a" := mkProcess (mkTally [] []) (Some (pbind (decrement "hits" 2) (fun r => Ret (account (-2) r (mkTally [] [])))))]> (w_procs both_start))).

Definition both_added : world (table_store counter_value) counter_value tally :=
  foldl (flip advance) both_run ["a"; "b"; "a"; "b"; "a"; "b"; "b"; "b"]%string.

Lemma no_lost_update_witness :
  exists (landed held : string -> list Z) start,
    (forall i, i ∈ ["a"; "b"]%string -> landed i ⊆+ [] /\ held i ≡ₚ (if String.eqb i "a" then [-2] else [5]) ++ landed i)
    /\ start = 10 /\ count "hits" (w_store both_added) = Some (start + total (map (fun i => total (held i)) ["a"; "b"]%string)).
Proof.
  assert (Hnd : NoDup ["a"; "b"]%string) by (apply (bool_decide_unpack _); vm_compute; exact I).
  destruct (no_lost_update "hits" ["a"; "b"]%string false 10 Hnd both_start both_added
    (fun i => mkTally (if String.eqb i "a" then [-2] else [5]) [])) as (landed & held & start & Hl & _ & Hc & Hall).
  - split_and!; [split|done|done|].
    + intros k v rev Hk. cbn in Hk. apply lookup_singleton_Some in Hk as [<- [= <- <-]]. done.
    + intros rev e He. cbn in He. apply lookup_singleton_Some in He as [<- _]. done.
    + apply map_Forall_insert_2; [done|]. by apply map_Forall_singleton.
  - unfold both_added. etrans; [|apply schedule_reaches]. unfold both_run. cbn [w_store w_history both_start].
    eapply rtc_l; [by eapply (step_start _ _ _ _ _ _ _ "a"), (adds_decrement _ _ _ _ 2), list_elem_of_here|].
    eapply rtc_l; [by eapply (step_start _ _ _ _ _ _ _ "b"), (adds_increment _ _ _ _ 5), list_elem_of_further, list_elem_of_here|].
    reflexivity.
  - intros i Hi. apply elem_of_cons in Hi as [->|Hi]; [vm_compute; reflexivity|].
    apply list_elem_of_singleton in Hi as ->. vm_compute. reflexivity.
  - destruct (Hall eq_refl) as [Hst Hheld]. exists landed, held, start. split_and!; [|exact Hst|exact Hc]. intros i Hi. split; [apply (Hl i Hi)|apply (Hheld i Hi)].
Defined.

(** ** One call, alone on the bucket *)

Section Alone.
Context {St : Type} `{HB : KvBucket St counter_value} `{HL : !KvBucketLaws St counter_value}.

Lemma apply_attempts_run key delta attempts now (s : St) :
  match count key s with
  | Some v => exists rev s', written s key (Counted (v + delta)) rev s'
      /\ run_alone (apply_attempts key (S attempts) delta) [] now s = (Ok (v + delta), s')
  | None => run_alone (apply_attempts key (S attempts) delta) [] now s = (Err CounterDecodeError, s)
  end.
Proof using HL.
  unfold run_alone, count. cbn. destruct (cas_get s key) as [[[v|raw] rev]|] eqn:Hg; [|done|]; cbn.
  - destruct (update_current s key (Counted (v + delta)) _ _ Hg) as (rev' & s' & Hu & Hw). exists rev', s'. by rewrite Hu.
  - destruct (create_absent s key (Counted delta) Hg) as (rev & s' & Hu & Hw). exists rev, s'. by rewrite Hu.
Qed.

(** One call, alone on the bucket: the value is the one there was plus the delta, a missing counter
    being zero, and is what a read then answers; a malformed entry is an error and is left alone. *)
Theorem apply_delta_exact key delta now (s : St) :
  match count key s with
  | Some v => exists rev s', written s key (Counted (v + delta)) rev s'
      /\ run_alone (apply_delta key delta) [] now s = (Ok (v + delta), s')
      /\ run_alone (counter_get key) [] now s' = (Ok (v + delta), s')
  | None => run_alone (apply_delta key delta) [] now s = (Err CounterDecodeError, s)
  end.
Proof using HL.
  unfold apply_delta, CAS_MAX_RETRIES. pose proof (apply_attempts_run key delta 29 now s) as Hrun. destruct (count key s) as [v|]; [|done].
  destruct Hrun as (rev & s' & Hw & Hr). exists rev, s'. split_and!; [done|done|]. unfold run_alone. cbn. by rewrite (proj1 Hw).
Qed.
End Alone.

Lemma apply_delta_exact_witness :
  exists rev s', written (mkTableStore {["hits" := (Counted 10, 3)]} 3) "hits" (Counted 12) rev s'
    /\ run_alone (apply_delta "hits" 2) [] 0 (mkTableStore {["hits" := (Counted 10, 3)]} 3) = (Ok 12, s')
    /\ run_alone (counter_get "hits") [] 0 s' = (Ok 12, s').
Proof. exact (apply_delta_exact "hits" 2 0 (mkTableStore {["hits" := (Counted 10, 3)]} 3 : table_store counter_value)). Defined.
