(* ===== verification/ReplayGuard.v ===== *)
(** * The replay guard

    [src/packages/core/src/threetears/core/coordination/replay_guard.py] and the issue-time check of
    [src/packages/core/src/threetears/core/security/freshness.py]: a signed artifact carries a nonce
    and an issue time; a verifier accepts it once. The ledger of nonces is a memory-backed bucket that
    a broker restart wipes, so a fresh record also compares the issue time with the bucket's creation
    time; an anchor, a durable record of the ledger's first existence, tells a first run from a wipe.

    A method is a program ([gprog]) whose nodes are its awaits and its accesses to the guard's shared
    field. [sha256] and the anchor's storage are not modelled: the key of a nonce is any function, and
    the anchor is claim-or-read, as its protocol says. The theorems here are of one guard, alone;
    [ReplaySystem.v] has any number of replicas. *)

From Stdlib Require Import Ascii String Bool List NArith ZArith Lia.
From stdpp Require Import base list gmap strings functions relations.
From S2P Require Import Prelude.

Open Scope Z_scope.

(** ** Freshness *)

Definition usec : Z := 1000000.

Inductive guard_error := GuardValueError | GuardKvError.

Definition ISSUE_TIME_FUTURE_TOLERANCE : Z := 5 * usec.
Definition CLIENT_ISSUE_TIME_FUTURE_TOLERANCE : Z := 60 * usec.
Definition DEFAULT_PROOF_MAX_AGE : Z := 60 * usec.

(** [issue_time_is_fresh]: times in whole seconds, bounds in microseconds. *)
Definition issue_time_is_fresh (issued_at now max_age future_tolerance : Z) : result bool guard_error :=
  if max_age <? 0 then Err GuardValueError
  else if future_tolerance <? 0 then Err GuardValueError
  else let lead_seconds := issued_at - now in
       Ok ((- max_age <=? lead_seconds * usec) && (lead_seconds * usec <=? future_tolerance)).

(** ** Programs of a guard *)

Definition CLOCK_DRIFT_ALLOWANCE : Z := 5 * usec.

(** [GLedger] and [GSetLedger] access [_ledger_first_existed]; [None] answers a call that raised. *)
Inductive gprog (A : Type) :=
| GRet (a : A)
| GClock (k : Z -> gprog A)
| GLedger (k : option Z -> gprog A)
| GSetLedger (moment : Z) (k : gprog A)
| GAnchor (now : Z) (k : option Z -> gprog A)
| GCreate (key : string) (k : option bool -> gprog A)
| GDateCreated (k : option Z -> gprog A).
Arguments GRet {A}.
Arguments GClock {A}.
Arguments GLedger {A}.
Arguments GSetLedger {A}.
Arguments GAnchor {A}.
Arguments GCreate {A}.
Arguments GDateCreated {A}.

Fixpoint gbind {A B} (p : gprog A) (f : A -> gprog B) : gprog B :=
  match p with
  | GRet a => f a
  | GClock k => GClock (fun t => gbind (k t) f)
  | GLedger k => GLedger (fun x => gbind (k x) f)
  | GSetLedger m k => GSetLedger m (gbind k f)
  | GAnchor now k => GAnchor now (fun x => gbind (k x) f)
  | GCreate key k => GCreate key (fun x => gbind (k x) f)
  | GDateCreated k => GDateCreated (fun x => gbind (k x) f)
  end.

Section Guard.
(** [_key], whether the guard has an anchor, and [_verifier_future_tolerance]. *)
Variable key_of : string -> string.
Variable anchored : bool.
Variable tolerance : Z.

(** The checks of [__init__] on its numbers. *)
Definition guard_init (ttl_seconds verifier_future_tolerance : Z) : result unit guard_error :=
  if ttl_seconds <=? 0 then Err GuardValueError
  else if verifier_future_tolerance <? 0 then Err GuardValueError
  else Ok tt.

Definition require_covers (future_tolerance : Z) : result unit guard_error :=
  if tolerance <? future_tolerance then Err GuardValueError else Ok tt.

(** [_read_anchor]. *)
Definition read_anchor : gprog unit :=
  if anchored then
    GLedger (fun first_existed =>
      match first_existed with
      | Some _ => GRet tt
      | None => GClock (fun now => GAnchor now (fun r =>
                  match r with Some moment => GSetLedger moment (GRet tt) | None => GRet tt end))
      end)
  else GRet tt.

(** [_bound_bucket]: the call that binds reads the anchor. *)
Definition bound_bucket (bound : bool) : gprog unit := if bound then GRet tt else read_anchor.

(** [_bucket_replaced_a_lost_one]. *)
Definition bucket_replaced_a_lost_one (date_created : Z) : gprog bool :=
  if anchored then
    GLedger (fun first_existed =>
      GRet match first_existed with
           | Some moment => moment <? date_created - CLOCK_DRIFT_ALLOWANCE
           | None => true
           end)
  else GRet true.

(** [_refuses_artifacts_issued_before]. *)
Definition refuses_artifacts_issued_before (date_created : Z) : gprog (option Z) :=
  gbind (bucket_replaced_a_lost_one date_created) (fun replaced =>
    GRet (if replaced then Some (date_created + tolerance + CLOCK_DRIFT_ALLOWANCE) else None)).

(** [record_unique], from its create on and whole. *)
Definition record_nonce (nonce : string) (issued_at : Z) : gprog (result bool guard_error) :=
  GCreate (key_of nonce) (fun r =>
    match r with
    | None => GRet (Err GuardKvError)
    | Some false => GRet (Ok false)
    | Some true =>
        GDateCreated (fun c =>
          match c with
          | None => GRet (Err GuardKvError)
          | Some date_created =>
              gbind (refuses_artifacts_issued_before date_created) (fun refuses_before =>
                GRet (Ok match refuses_before with Some b => negb (issued_at <? b) | None => true end))
          end)
    end).

Definition record_unique (bound : bool) (nonce : string) (aware : bool) (issued_at : Z) : gprog (result bool guard_error) :=
  if negb aware then GRet (Err GuardValueError)
  else gbind (bound_bucket bound) (fun _ => gbind read_anchor (fun _ => record_nonce nonce issued_at)).

Definition refusing_until (bound : bool) : gprog (result (option Z) guard_error) :=
  gbind (bound_bucket bound) (fun _ =>
  gbind read_anchor (fun _ =>
  GDateCreated (fun c =>
    match c with
    | None => GRet (Err GuardKvError)
    | Some date_created =>
        gbind (refuses_artifacts_issued_before date_created) (fun refuses_before =>
          GClock (fun now =>
            GRet (Ok match refuses_before with Some b => if now <? b then Some b else None | None => None end)))
    end))).
End Guard.

(** The bucket: when it was created, and when each nonce was recorded. *)
Record ledger := mkLedger { lb_created : Z; lb_nonces : gmap string Z }.

(** ** One guard, alone *)

Record guard_state := mkGuardState {
  gs_now : Z;
  gs_first : option Z;
  gs_anchor : option Z;
  gs_bucket : ledger;
}.

Fixpoint grun {A} (p : gprog A) (st : guard_state) : A * guard_state :=
  match p with
  | GRet a => (a, st)
  | GClock k => grun (k (gs_now st)) st
  | GLedger k => grun (k (gs_first st)) st
  | GSetLedger m k => grun k (mkGuardState (gs_now st) (Some m) (gs_anchor st) (gs_bucket st))
  | GAnchor now k => let m := default now (gs_anchor st) in
      grun (k (Some m)) (mkGuardState (gs_now st) (gs_first st) (Some m) (gs_bucket st))
  | GCreate key k =>
      match lb_nonces (gs_bucket st) !! key with
      | Some _ => grun (k (Some false)) st
      | None => grun (k (Some true)) (mkGuardState (gs_now st) (gs_first st) (gs_anchor st)
                  (mkLedger (lb_created (gs_bucket st)) (<[key := gs_now st]> (lb_nonces (gs_bucket st)))))
      end
  | GDateCreated k => grun (k (Some (lb_created (gs_bucket st)))) st
  end.

Lemma grun_bind {A B} (p : gprog A) (f : A -> gprog B) st : grun (gbind p f) st = (let '(a, st') := grun p st in grun (f a) st').
Proof.
  revert st. induction p as [a|k IH|k IH|m k IH|now k IH|key k IH|k IH]; intros st; simpl; auto. by destruct (lb_nonces (gs_bucket st) !! key).
Qed.

Section Alone.
Variable key_of : string -> string.
Variable anchored : bool.
Variable tolerance : Z.

(** The moment of first existence a guard that can reach its anchor goes by. *)
Definition first_existence (st : guard_state) : Z := default (default (gs_now st) (gs_anchor st)) (gs_first st).

(** The issue time below which it refuses, if the bucket replaced a lost one. *)
Definition watermark (st : guard_state) : option Z :=
  if negb anchored || (first_existence st <? lb_created (gs_bucket st) - CLOCK_DRIFT_ALLOWANCE)
  then Some (lb_created (gs_bucket st) + tolerance + CLOCK_DRIFT_ALLOWANCE) else None.

Lemma read_anchor_run st :
  exists st', grun (read_anchor anchored) st = (tt, st') /\ gs_bucket st' = gs_bucket st /\ gs_now st' = gs_now st
    /\ first_existence st' = first_existence st /\ (anchored = true -> gs_first st' = Some (first_existence st)).
Proof.
  unfold read_anchor. destruct anchored; [|by exists st]. simpl. destruct (gs_first st) as [f|] eqn:Hf; simpl.
  - exists st. unfold first_existence. by rewrite Hf.
  - eexists. split; [done|]. unfold first_existence. by rewrite Hf.
Qed.

Lemma prologue_run bound st :
  exists st', (forall A (f : gprog A), grun (gbind (bound_bucket anchored bound) (fun _ => gbind (read_anchor anchored) (fun _ => f))) st = grun f st')
    /\ gs_bucket st' = gs_bucket st /\ gs_now st' = gs_now st /\ (anchored = true -> gs_first st' = Some (first_existence st)).
Proof.
  destruct bound; simpl.
  - destruct (read_anchor_run st) as (st1 & H1 & H2 & H3 & H4 & H5). exists st1. split_and!; [|done..].
    intros A f. by rewrite grun_bind, H1.
  - destruct (read_anchor_run st) as (st1 & H1 & H2 & H3 & H4 & H5), (read_anchor_run st1) as (st2 & K1 & K2 & K3 & K4 & K5).
    exists st2. split_and!; [|congruence..|by rewrite <- H4]. intros A f. by rewrite grun_bind, H1, grun_bind, K1.
Qed.

Lemma refuses_run st (st' : guard_state) :
  (anchored = true -> gs_first st' = Some (first_existence st)) ->
  grun (refuses_artifacts_issued_before anchored tolerance (lb_created (gs_bucket st))) st' = (watermark st, st').
Proof.
  intros Hf. unfold refuses_artifacts_issued_before, bucket_replaced_a_lost_one, watermark. destruct anchored; simpl; [|done].
  by rewrite (Hf eq_refl).
Qed.

(** What a record answers. *)
Definition fresh_by (nonce : string) (issued : Z) (st : guard_state) : bool :=
  match lb_nonces (gs_bucket st) !! key_of nonce with
  | Some _ => false
  | None => match watermark st with Some b => negb (issued <? b) | None => true end
  end.

Lemma record_unique_run bound nonce issued st :
  exists st', grun (record_unique key_of anchored tolerance bound nonce true issued) st = (Ok (fresh_by nonce issued st), st')
    /\ is_Some (lb_nonces (gs_bucket st') !! key_of nonce) /\ lb_created (gs_bucket st') = lb_created (gs_bucket st)
    /\ forall key, key <> key_of nonce -> lb_nonces (gs_bucket st') !! key = lb_nonces (gs_bucket st) !! key.
Proof.
  unfold record_unique, fresh_by. cbn [negb]. destruct (prologue_run bound st) as (st1 & Hrun & Hb & _ & Hf). rewrite Hrun.
  unfold record_nonce. cbn [grun]. rewrite Hb. destruct (lb_nonces (gs_bucket st) !! key_of nonce) as [x|] eqn:Hn; cbn [grun].
  - exists st1. rewrite Hb, Hn. by split_and!.
  - cbn [gs_bucket lb_created]. rewrite grun_bind, (refuses_run st); [|done]. eexists. split; [done|].
    split_and!; [cbn; rewrite lookup_insert_eq; eauto|done|]. intros key Hne. cbn. by rewrite lookup_insert_ne.
Qed.

(** A record with every tier answering: an artifact is fresh exactly when its nonce is not in the
    ledger and its issue time is not below the watermark of a bucket that replaced a lost one, and then
    its nonce is in the ledger; a naive issue time is an error and records nothing. *)
Theorem record_unique_exact bound nonce aware issued st :
  let '(r, st') := grun (record_unique key_of anchored tolerance bound nonce aware issued) st in
  if aware then
    r = Ok (fresh_by nonce issued st)
    /\ is_Some (lb_nonces (gs_bucket st') !! key_of nonce) /\ lb_created (gs_bucket st') = lb_created (gs_bucket st)
    /\ forall key, key <> key_of nonce -> lb_nonces (gs_bucket st') !! key = lb_nonces (gs_bucket st) !! key
  else r = Err GuardValueError /\ st' = st.
Proof.
  destruct aware; [|done]. destruct (record_unique_run bound nonce issued st) as (st' & -> & Hrest). by split.
Qed.

(** [refusing_until] is what [record_unique] will do: it answers a moment exactly while the clock is
    below the watermark, every artifact issued below that moment is then refused, and when it answers
    none, an artifact with a new nonce issued now or later is accepted. *)
Theorem refusing_until_exact bound st :
  let now := gs_now st in
  match (grun (refusing_until anchored tolerance bound) st).1 with
  | Ok (Some until) => now < until /\ forall nonce issued, issued < until ->
      (grun (record_unique key_of anchored tolerance bound nonce true issued) st).1 = Ok false
  | Ok None => forall nonce issued, now <= issued -> lb_nonces (gs_bucket st) !! key_of nonce = None ->
      (grun (record_unique key_of anchored tolerance bound nonce true issued) st).1 = Ok true
  | Err _ => False
  end.
Proof.
  assert (Hrec : forall nonce issued, (grun (record_unique key_of anchored tolerance bound nonce true issued) st).1 = Ok (fresh_by nonce issued st)).
  { intros nonce issued. by destruct (record_unique_run bound nonce issued st) as (st' & -> & _). }
  unfold fresh_by in Hrec.
  unfold refusing_until. destruct (prologue_run bound st) as (st1 & Hrun & Hb & Hnow & Hf). rewrite Hrun. cbn [grun].
  rewrite Hb, grun_bind, (refuses_run st) by done. cbn [grun fst]. rewrite Hnow. destruct (watermark st) as [b|].
  - destruct (Z.ltb_spec (gs_now st) b) as [Hlt|Hge].
    + split; [done|]. intros nonce issued Hi. rewrite Hrec. replace (issued <? b) with true by (symmetry; by apply Z.ltb_lt).
      by destruct (lb_nonces (gs_bucket st) !! key_of nonce).
    + intros nonce issued Hi Hn. rewrite Hrec, Hn. by replace (issued <? b) with false by (symmetry; apply Z.ltb_ge; lia).
  - intros nonce issued _ Hn. by rewrite Hrec, Hn.
Qed.
End Alone.
