(* ===== verification/ReplaySystem.v ===== *)
(** * Replicas of the replay guard

    [rstep] interleaves the calls of any number of replicas of [ReplayGuard.v] with wipes of the bucket,
    expiry of its entries, calls that raise and creates that land late. Time is the broker's, in
    microseconds; each replica's clock is a function of it, within the drift allowance. [no_replay] is
    the guarantee; [early_wipe_admits_replay] and [late_claim_admits_replay] show what it does not
    cover when an anchor is used. *)

From Stdlib Require Import Ascii String Bool List NArith ZArith Lia.
From stdpp Require Import base list gmap strings functions relations.
From S2P Require Import Prelude ReplayGuard.

Open Scope Z_scope.

(** ** Replicas, one ledger, and wipes *)

(** A call of [record_unique]: the replica, the artifact, the broker's time when the verifier checked
    its issue time, and what is left to run. *)
Record call := mkCall {
  c_guard : string;
  c_nonce : string;
  c_issued : Z;
  c_checked : Z;
  c_run : gprog (result bool guard_error);
}.

Record rworld := mkRWorld {
  rw_time : Z;
  rw_bucket : ledger;
  rw_anchor : option Z;
  rw_first : gmap string Z;
  rw_calls : list call;
}.

Section System.
Variable key_of : string -> string.
Variable anchored : bool.
Variable tolerance : Z.
(** The clock of a replica by the broker's time; the verifier's bounds; how long the server keeps an
    entry; how late after the check the create is answered. *)
Variable clk : string -> Z -> Z.
Variables max_age future_tolerance ttl latency : Z.
(** Which wipes may happen: at the time given, from the world given. *)
Variable wipes : rworld -> Z -> Prop.

Definition put_call (w : rworld) (n : nat) (c : call) (run : gprog (result bool guard_error)) : rworld :=
  mkRWorld (rw_time w) (rw_bucket w) (rw_anchor w) (rw_first w)
    (<[n := mkCall (c_guard c) (c_nonce c) (c_issued c) (c_checked c) run]> (rw_calls w)).

Definition put_anchor (w : rworld) (moment : Z) : rworld :=
  mkRWorld (rw_time w) (rw_bucket w) (Some moment) (rw_first w) (rw_calls w).

Definition put_first (w : rworld) (g : string) (moment : Z) : rworld :=
  mkRWorld (rw_time w) (rw_bucket w) (rw_anchor w) (<[g := moment]> (rw_first w)) (rw_calls w).

Definition put_bucket (w : rworld) (t : Z) (b : ledger) : rworld :=
  mkRWorld t b (rw_anchor w) (rw_first w) (rw_calls w).

Definition put_nonce (w : rworld) (key : string) : rworld :=
  put_bucket w (rw_time w) (mkLedger (lb_created (rw_bucket w)) (<[key := rw_time w]> (lb_nonces (rw_bucket w)))).

Inductive rstep : rworld -> rworld -> Prop :=
| rstep_tick w t : rw_time w <= t -> rstep w (put_bucket w t (rw_bucket w))
| rstep_wipe w t : rw_time w < t -> wipes w t -> rstep w (put_bucket w t (mkLedger t ∅))
| rstep_expire w key x :
    lb_nonces (rw_bucket w) !! key = Some x -> x + ttl <= rw_time w ->
    rstep w (put_bucket w (rw_time w) (mkLedger (lb_created (rw_bucket w)) (delete key (lb_nonces (rw_bucket w)))))
| rstep_stray w key : lb_nonces (rw_bucket w) !! key = None -> rstep w (put_nonce w key)
| rstep_check w g nonce iat bound :
    issue_time_is_fresh iat (clk g (rw_time w) / usec) max_age future_tolerance = Ok true ->
    rstep w (mkRWorld (rw_time w) (rw_bucket w) (rw_anchor w) (rw_first w)
      (rw_calls w ++ [mkCall g nonce (iat * usec) (rw_time w) (record_unique key_of anchored tolerance bound nonce true (iat * usec))]))
| rstep_clock w n c k :
    rw_calls w !! n = Some c -> c_run c = GClock k -> rstep w (put_call w n c (k (clk (c_guard c) (rw_time w))))
| rstep_ledger w n c k :
    rw_calls w !! n = Some c -> c_run c = GLedger k -> rstep w (put_call w n c (k (rw_first w !! c_guard c)))
| rstep_set w n c m k :
    rw_calls w !! n = Some c -> c_run c = GSetLedger m k -> rstep w (put_call (put_first w (c_guard c) m) n c k)
| rstep_anchor w n c now k (m := default now (rw_anchor w)) :
    rw_calls w !! n = Some c -> c_run c = GAnchor now k -> rstep w (put_call (put_anchor w m) n c (k (Some m)))
| rstep_anchor_raises w n c now k :
    rw_calls w !! n = Some c -> c_run c = GAnchor now k -> rstep w (put_call w n c (k None))
| rstep_anchor_claims w n c now k (m := default now (rw_anchor w)) :
    rw_calls w !! n = Some c -> c_run c = GAnchor now k -> rstep w (put_call (put_anchor w m) n c (k None))
| rstep_create w n c key k :
    rw_calls w !! n = Some c -> c_run c = GCreate key k -> rw_time w <= c_checked c + latency ->
    rstep w (match lb_nonces (rw_bucket w) !! key with
             | None => put_call (put_nonce w key) n c (k (Some true))
             | Some _ => put_call w n c (k (Some false))
             end)
| rstep_create_raises w n c key k :
    rw_calls w !! n = Some c -> c_run c = GCreate key k -> rstep w (put_call w n c (k None))
| rstep_date w n c k :
    rw_calls w !! n = Some c -> c_run c = GDateCreated k -> rstep w (put_call w n c (k (Some (lb_created (rw_bucket w)))))
| rstep_date_raises w n c k :
    rw_calls w !! n = Some c -> c_run c = GDateCreated k -> rstep w (put_call w n c (k None)).

(** A call that accepted its artifact. *)
Definition accepts (w : rworld) (n : nat) (nonce : string) (issued : Z) : Prop :=
  exists c, rw_calls w !! n = Some c /\ c_nonce c = nonce /\ c_issued c = issued /\ c_run c = GRet (Ok true).

(** A system that has just been deployed: an empty ledger, no anchor claimed, no call made. *)
Definition deployed (w : rworld) : Prop :=
  lb_nonces (rw_bucket w) = ∅ /\ lb_created (rw_bucket w) <= rw_time w /\ rw_anchor w = None /\ rw_first w = ∅ /\ rw_calls w = [].

(** ** What a call's program may still do *)

Abbreviation drift := CLOCK_DRIFT_ALLOWANCE.

(** A wipe at [c0] is told from a first run. *)
Definition told (c0 : Z) (an : option Z) : Prop :=
  anchored = true -> exists f, an = Some f /\ f < c0 - drift.

(** Whatever it is still answered, with the bucket created no sooner than [c0], it does not accept. *)
Fixpoint denies (c0 : Z) (an : option Z) (p : gprog (result bool guard_error)) : Prop :=
  match p with
  | GRet r => r <> Ok true
  | GClock k => forall t, denies c0 an (k t)
  | GLedger k => anchored = true /\ forall x, x = None \/ x = an -> denies c0 an (k x)
  | GDateCreated k => denies c0 an (k None) /\ forall c, c0 <= c -> denies c0 an (k (Some c))
  | GSetLedger _ _ | GAnchor _ _ | GCreate _ _ => False
  end.

(** It no longer writes anything. *)
Fixpoint quiet (p : gprog (result bool guard_error)) : Prop :=
  match p with
  | GRet _ => True
  | GClock k => forall t, quiet (k t)
  | GLedger k => forall x, quiet (k x)
  | GDateCreated k => forall x, quiet (k x)
  | GSetLedger _ _ | GAnchor _ _ | GCreate _ _ => False
  end.

(** It has yet to create its nonce, and accepts only after it has. *)
Fixpoint tries (key : string) (issued : Z) (an : option Z) (p : gprog (result bool guard_error)) : Prop :=
  match p with
  | GRet r => r <> Ok true
  | GClock k => forall t, tries key issued an (k t)
  | GLedger k => forall x, tries key issued an (k x)
  | GSetLedger m k => an = Some m /\ tries key issued an k
  | GAnchor now k => anchored = true /\ (forall an', tries key issued an' (k None)) /\ (forall m, tries key issued (Some m) (k (Some m)))
  | GCreate key' k => key' = key
      /\ tries key issued an (k None) /\ tries key issued an (k (Some false)) /\ quiet (k (Some true))
      /\ (forall c0 an', issued < c0 + tolerance + drift -> told c0 an' -> denies c0 an' (k (Some true)))
  | GDateCreated _ => False
  end.

Lemma tries_claim key issued an an' p : tries key issued an p -> an = None \/ an = an' -> tries key issued an' p.
Proof.
  intros Hp Han. revert Hp. induction p as [a|k IH|k IH|m k IH|now k IH|key' k IH|k IH]; simpl; auto.
  - intros [-> Hp]. destruct Han as [|<-]; [done|]. auto.
  - intros (-> & H1 & H2 & H3 & H4). auto.
Qed.

Lemma read_anchor_tries key issued an (f : unit -> gprog (result bool guard_error)) :
  (forall an, tries key issued an (f tt)) -> tries key issued an (gbind (read_anchor anchored) f).
Proof.
  intros Hf. unfold read_anchor. destruct anchored eqn:Ha; [|apply Hf]. intros [x|]; simpl; [apply Hf|]. intros t.
  split_and!; [done|intros an'; apply Hf|]. intros m. split; [done|apply Hf].
Qed.

Lemma record_unique_tries bound nonce issued an :
  tries (key_of nonce) issued an (record_unique key_of anchored tolerance bound nonce true issued).
Proof.
  set (p := record_nonce key_of anchored tolerance nonce issued).
  assert (Hp : forall an, tries (key_of nonce) issued an p).
  { intros an0. simpl. split_and!; [done|done|done| |].
    - intros [c|]; [|done]. unfold refuses_artifacts_issued_before, bucket_replaced_a_lost_one. by destruct anchored.
    - intros c0 an' Hc Htold. split; [done|]. intros c Hle. unfold refuses_artifacts_issued_before, bucket_replaced_a_lost_one, told in *.
      destruct anchored eqn:Ha; simpl.
      + split; [done|]. destruct (Htold eq_refl) as (f & -> & Hf).
        assert (Hlate : (issued <? c + tolerance + drift) = true) by (apply Z.ltb_lt; lia).
        intros x [->| ->]; [by rewrite Hlate|]. replace (f <? c - drift) with true by (symmetry; apply Z.ltb_lt; lia). by rewrite Hlate.
      + by replace (issued <? c + tolerance + drift) with true by (symmetry; apply Z.ltb_lt; lia). }
  assert (Hread : forall an, tries (key_of nonce) issued an (gbind (read_anchor anchored) (fun _ => p))).
  { intros an0. by apply read_anchor_tries. }
  unfold record_unique. cbn [negb]. destruct bound; simpl; [apply Hread|].
  by apply read_anchor_tries.
Qed.

(** ** The invariant *)

(** The first call to create a nonce for an artifact, and when. *)
Abbreviation winners := (gmap (string * Z) (nat * Z)).

Definition remembered (w : rworld) (key : string) (since : Z) : Prop :=
  (exists x, lb_nonces (rw_bucket w) !! key = Some x /\ since <= x)
  \/ since + ttl <= rw_time w
  \/ since < lb_created (rw_bucket w) /\ told (lb_created (rw_bucket w)) (rw_anchor w).

Definition winner_ok (w : rworld) (ni : string * Z) (mt : nat * Z) : Prop :=
  ni.2 <= mt.2 + drift + future_tolerance /\ mt.2 <= rw_time w /\ remembered w (key_of ni.1) mt.2.

Definition call_ok (w : rworld) (first : winners) (n : nat) (c : call) : Prop :=
  c_checked c <= rw_time w /\ c_issued c <= c_checked c + drift + future_tolerance
  /\ c_checked c < c_issued c + max_age + usec + drift
  /\ (tries (key_of (c_nonce c)) (c_issued c) (rw_anchor w) (c_run c)
      \/ (quiet (c_run c) /\ exists since, first !! (c_nonce c, c_issued c) = Some (n, since))
      \/ exists c0 an, denies c0 an (c_run c) /\ c0 <= lb_created (rw_bucket w)
           /\ (anchored = true -> is_Some an /\ rw_anchor w = an)).

Record world_ok (w : rworld) (first : winners) : Prop := {
  wo_created : lb_created (rw_bucket w) <= rw_time w;
  wo_first : forall g m, rw_first w !! g = Some m -> rw_anchor w = Some m;
  wo_winners : map_Forall (winner_ok w) first;
  wo_calls : forall n c, rw_calls w !! n = Some c -> call_ok w first n c;
}.

(** Worlds in which time passed, the bucket may be a later one and the anchor may have been claimed. *)
Record later (w w' : rworld) : Prop := {
  la_time : rw_time w <= rw_time w';
  la_created : lb_created (rw_bucket w) <= lb_created (rw_bucket w');
  la_anchor : rw_anchor w = None \/ rw_anchor w' = rw_anchor w;
  la_remembers : forall key since, since <= rw_time w -> remembered w key since -> remembered w' key since;
}.

Lemma told_later c0 an c0' an' : told c0 an -> c0 <= c0' -> an = None \/ an' = an -> told c0' an'.
Proof. intros Ht Hc Han Ha. destruct (Ht Ha) as (f & -> & Hf). destruct Han as [| ->]; [done|]. exists f. split; [done|lia]. Qed.

Lemma winner_ok_later w w' ni mt : winner_ok w ni mt -> later w w' -> winner_ok w' ni mt.
Proof. intros (H1 & H2 & H3) [L1 L2 L3 L4]. split_and!; [done|lia|by apply L4]. Qed.

Lemma call_ok_later w w' first n c : call_ok w first n c -> later w w' -> call_ok w' first n c.
Proof.
  intros (H1 & H2 & H3 & H4) [L1 L2 L3 L4]. split_and!; [lia|done|done|]. destruct H4 as [H4|[H4|(c0 & an & Hd & Hc & Ha)]].
  - left. eapply tries_claim; [done|]. destruct L3 as [| ->]; auto.
  - by right; left.
  - right. right. exists c0, an. split_and!; [done|lia|]. intros Hanch. destruct (Ha Hanch) as [[f Hf] Heq]. split; [by exists f|].
    destruct L3 as [L3|L3]; congruence.
Qed.

Lemma world_ok_later w w' first :
  world_ok w first -> later w w' -> rw_calls w' = rw_calls w -> lb_created (rw_bucket w') <= rw_time w' ->
  (forall g m, rw_first w' !! g = Some m -> rw_anchor w' = Some m) -> world_ok w' first.
Proof.
  intros [H1 H2 H3 H4] Hl Hc Hcr Hf. split; [done|done| |].
  - intros ni mt Hni. eapply winner_ok_later; [by apply H3|done].
  - intros n c. rewrite Hc. intros Hn. eapply call_ok_later; [by apply H4|done].
Qed.

(** A call that moved on. *)
Lemma world_ok_put w first n c run :
  world_ok w first -> rw_calls w !! n = Some c ->
  call_ok w first n (mkCall (c_guard c) (c_nonce c) (c_issued c) (c_checked c) run) -> world_ok (put_call w n c run) first.
Proof.
  intros [H1 H2 H3 H4] Hn Hc. split; [done|done|done|]. intros m c' Hm. simpl in Hm.
  apply list_lookup_insert_Some in Hm as [(<- & <- & _)|[_ Hm]]; [done|]. by apply (H4 m c').
Qed.

(** A step that only answers a call with what it read. *)
Lemma call_ok_step w first n c (run : gprog (result bool guard_error)) :
  call_ok w first n c ->
  (tries (key_of (c_nonce c)) (c_issued c) (rw_anchor w) (c_run c) -> tries (key_of (c_nonce c)) (c_issued c) (rw_anchor w) run) ->
  (quiet (c_run c) -> quiet run) ->
  (forall c0 an, denies c0 an (c_run c) -> c0 <= lb_created (rw_bucket w) -> (anchored = true -> rw_anchor w = an) -> denies c0 an run) ->
  call_ok w first n (mkCall (c_guard c) (c_nonce c) (c_issued c) (c_checked c) run).
Proof.
  intros (H1 & H2 & H3 & H4) Ht Hq Hd. split_and!; [done..|]. simpl. destruct H4 as [H4|[[H4 H5]|(c0 & an & H4 & H5 & H6)]].
  - left. auto.
  - right. left. auto.
  - right. right. exists c0, an. split_and!; [|done|done]. apply Hd; [done|done|]. intros Ha. by apply H6.
Qed.

(** ** Every step keeps the invariant *)

(** A wipe that loses a nonce comes more than the drift allowance after the anchor's moment. *)
Definition recognised (w : rworld) (t : Z) : Prop := lb_nonces (rw_bucket w) = ∅ \/ told t (rw_anchor w).

Record deployment_ok : Prop := {
  do_clocks : forall g t, t - drift <= clk g t <= t + drift;
  do_covers : require_covers tolerance future_tolerance = Ok tt;
  do_ttl : 2 * drift + future_tolerance + max_age + usec + latency < ttl;
  do_wipes : forall w t, wipes w t -> recognised w t;
}.

Lemma fresh_bounds iat g t :
  (forall g t, t - drift <= clk g t <= t + drift) ->
  issue_time_is_fresh iat (clk g t / usec) max_age future_tolerance = Ok true ->
  iat * usec <= t + drift + future_tolerance /\ t < iat * usec + max_age + usec + drift.
Proof.
  intros Hclk. unfold issue_time_is_fresh. destruct (max_age <? 0); [done|]. destruct (future_tolerance <? 0); [done|].
  intros [= [H1%Z.leb_le H2%Z.leb_le]%andb_true_iff]. specialize (Hclk g t).
  pose proof (Z.mul_div_le (clk g t) usec eq_refl). pose proof (Z.mul_succ_div_gt (clk g t) usec eq_refl). lia.
Qed.

Lemma later_refl_anchor w w' :
  rw_time w' = rw_time w -> rw_bucket w' = rw_bucket w -> rw_anchor w = None \/ rw_anchor w' = rw_anchor w -> later w w'.
Proof.
  intros Ht Hb Ha. split; rewrite ?Ht, ?Hb; try done. intros key since Hs [H|[H|[H1 H2]]]; unfold remembered; rewrite Ht, Hb; auto.
  right. right. split; [done|]. by eapply told_later.
Qed.

Lemma later_tick w t : rw_time w <= t -> later w (put_bucket w t (rw_bucket w)).
Proof.
  intros Ht. split; simpl; [lia|lia|by auto|]. intros key since Hs [H|[H|H]]; unfold remembered; simpl; auto. right. left. lia.
Qed.

Lemma later_wipe w t : lb_created (rw_bucket w) <= rw_time w -> rw_time w < t -> recognised w t -> later w (put_bucket w t (mkLedger t ∅)).
Proof.
  intros Hc Ht Hr. split; simpl; [lia|lia|auto|]. intros key since Hs [(x & Hx & Hle)|[H|[H1 H2]]]; unfold remembered; simpl.
  - right. right. split; [lia|]. destruct Hr as [Hr|Hr]; [|done]. rewrite Hr in Hx. done.
  - right. left. lia.
  - right. right. split; [lia|]. eapply told_later; [done|lia|auto].
Qed.

Lemma later_expire w key x :
  lb_nonces (rw_bucket w) !! key = Some x -> x + ttl <= rw_time w ->
  later w (put_bucket w (rw_time w) (mkLedger (lb_created (rw_bucket w)) (delete key (lb_nonces (rw_bucket w))))).
Proof.
  intros Hx Hexp. split; simpl; [lia|lia|by auto|]. intros key' since Hs [(y & Hy & Hle)|[H|H]]; unfold remembered; simpl; auto.
  destruct (decide (key' = key)) as [->|Hne]; [|left; exists y; by rewrite lookup_delete_ne].
  right. left. rewrite Hx in Hy. injection Hy as <-. lia.
Qed.

Lemma later_nonce w key : lb_nonces (rw_bucket w) !! key = None -> later w (put_nonce w key).
Proof.
  intros Hn. split; simpl; [lia|lia|by auto|]. intros key' since Hs [(y & Hy & Hle)|[H|H]]; unfold remembered; simpl; auto.
  left. exists y. rewrite lookup_insert_ne; [done|]. congruence.
Qed.

Lemma world_ok_nonce w first key : world_ok w first -> lb_nonces (rw_bucket w) !! key = None -> world_ok (put_nonce w key) first.
Proof. intros Hw Hn. eapply world_ok_later; [exact Hw|by apply later_nonce|done|apply Hw|apply Hw]. Qed.

Lemma world_ok_anchor w first now : world_ok w first -> world_ok (put_anchor w (default now (rw_anchor w))) first.
Proof.
  intros Hw. eapply world_ok_later; [exact Hw| |done|apply Hw|].
  - apply later_refl_anchor; [done|done|]. simpl. destruct (rw_anchor w); auto.
  - intros g m Hm. simpl in *. by rewrite (wo_first _ _ Hw g m Hm).
Qed.

(** The answer to a create: the first of its artifact, or one that will be refused. *)
Lemma create_ok w first n c key k :
  deployment_ok -> world_ok w first -> rw_calls w !! n = Some c -> c_run c = GCreate key k -> rw_time w <= c_checked c + latency ->
  lb_nonces (rw_bucket w) !! key = None ->
  exists first', world_ok (put_call (put_nonce w key) n c (k (Some true))) first'.
Proof.
  intros Hdo Hw Hn Hrun Hlat Habs. pose proof (world_ok_nonce w first key Hw Habs) as Hw1.
  destruct (wo_calls _ _ Hw n c Hn) as (H1 & H2 & H3 & H4). rewrite Hrun in H4.
  destruct H4 as [(-> & _ & _ & Hquiet & Hdoom)|[[[] _]|(c0 & an & [] & _)]].
  set (w1 := put_nonce w (key_of (c_nonce c))) in *.
  destruct (first !! (c_nonce c, c_issued c)) as [[m since]|] eqn:Hfirst.
  - exists first. apply world_ok_put; [done|done|]. split_and!; [done..|]. simpl. right. right.
    destruct (wo_winners _ _ Hw _ _ Hfirst) as (Hi & Hs & [(x & Hx & _)|[Hexp|[Hlt Htold]]]); simpl in *; [congruence| |].
    + pose proof (do_ttl Hdo). lia.
    + exists (lb_created (rw_bucket w)), (rw_anchor w). split_and!; [|lia|].
      * apply Hdoom; [|done]. pose proof (do_covers Hdo) as Hc. unfold require_covers in Hc.
        destruct (Z.ltb_spec tolerance future_tolerance); [done|lia].
      * intros Ha. destruct (Htold Ha) as (f & -> & _). by split.
  - exists (<[(c_nonce c, c_issued c) := (n, rw_time w)]> first).
    assert (Hw2 : world_ok w1 (<[(c_nonce c, c_issued c) := (n, rw_time w)]> first)).
    { destruct Hw1 as [W1 W2 W3 W4]. split; [done|done| |].
      - apply map_Forall_insert_2; [|done]. split_and!; simpl; [lia|lia|]. left. exists (rw_time w). split; [apply lookup_insert_eq|lia].
      - intros m c' Hm. destruct (W4 m c' Hm) as (X1 & X2 & X3 & X4). split_and!; [done..|].
        destruct X4 as [X4|[(X4 & since & X5)|X4]]; [by left| |by right; right]. right. left. split; [done|]. exists since.
        rewrite lookup_insert_ne; [done|]. congruence. }
    apply world_ok_put; [done|done|]. split_and!; [done..|]. simpl. right. left. split; [done|]. exists (rw_time w). by rewrite lookup_insert_eq.
Qed.

Lemma rstep_ok w w' first : deployment_ok -> rstep w w' -> world_ok w first -> exists first', world_ok w' first'.
Proof.
  intros Hdo Hstep Hw. destruct Hstep as [w t Ht|w t Ht Hwi|w key x Hx Hexp|w key Habs|w g nonce iat bound Hfresh|w n c k Hn Hrun
    |w n c k Hn Hrun|w n c m k Hn Hrun|w n c now k m Hn Hrun|w n c now k Hn Hrun|w n c now k m Hn Hrun|w n c key k Hn Hrun Hlat
    |w n c key k Hn Hrun|w n c k Hn Hrun|w n c k Hn Hrun].
  - exists first. eapply world_ok_later; [exact Hw|by apply later_tick|done| |apply Hw]. pose proof (wo_created _ _ Hw). simpl. lia.
  - exists first. eapply world_ok_later; [exact Hw| |done|done|apply Hw].
    apply later_wipe; [apply Hw|done|by apply (do_wipes Hdo)].
  - exists first. eapply world_ok_later; [exact Hw|by eapply later_expire|done|apply Hw|apply Hw].
  - exists first. by apply world_ok_nonce.
  - exists first. destruct Hw as [W1 W2 W3 W4]. split; [done|done|done|]. intros n c Hn. simpl in Hn.
    apply lookup_app_Some in Hn as [Hn|[_ Hn]]; [by apply W4|]. apply list_lookup_singleton_Some in Hn as [_ <-].
    destruct (fresh_bounds iat g (rw_time w) (do_clocks Hdo) Hfresh). split_and!; simpl; [lia..|]. left. apply record_unique_tries.
  - exists first. apply world_ok_put; [done|done|]. eapply call_ok_step; [by apply Hw|rewrite Hrun; by auto..].
  - exists first. apply world_ok_put; [done|done|]. eapply call_ok_step; [by apply Hw|rewrite Hrun; by auto..|].
    rewrite Hrun. intros c0 an [Ha Hd] _ Han. apply Hd. destruct (rw_first w !! c_guard c) as [m|] eqn:Hm; [right|by left].
    rewrite <- (Han Ha). symmetry. by apply (wo_first _ _ Hw (c_guard c)).
  - exists first. destruct (wo_calls _ _ Hw n c Hn) as (H1 & H2 & H3 & H4). rewrite Hrun in H4.
    destruct H4 as [[Han Ht]|[[[] _]|(c0 & an & [] & _)]]. apply world_ok_put; [|done|by split_and!; [..|left]].
    eapply world_ok_later; [exact Hw|by apply later_refl_anchor; auto|done|apply Hw|].
    intros g m'. simpl. rewrite lookup_insert_Some. intros [[_ <-]|[_ Hm]]; [done|]. by apply (wo_first _ _ Hw g).
  - exists first. pose proof (world_ok_anchor w first now Hw) as Hw1. fold m in Hw1. destruct (wo_calls _ _ Hw n c Hn) as (H1 & H2 & H3 & H4).
    rewrite Hrun in H4. destruct H4 as [(_ & _ & Ht)|[[[] _]|(c0 & an & [] & _)]]. apply world_ok_put; [done|done|].
    split_and!; [done..|]. left. apply Ht.
  - exists first. destruct (wo_calls _ _ Hw n c Hn) as (H1 & H2 & H3 & H4). rewrite Hrun in H4.
    destruct H4 as [(_ & Ht & _)|[[[] _]|(c0 & an & [] & _)]]. apply world_ok_put; [done|done|]. split_and!; [done..|]. left. apply Ht.
  - exists first. pose proof (world_ok_anchor w first now Hw) as Hw1. fold m in Hw1. destruct (wo_calls _ _ Hw n c Hn) as (H1 & H2 & H3 & H4).
    rewrite Hrun in H4. destruct H4 as [(_ & Ht & _)|[[[] _]|(c0 & an & [] & _)]]. apply world_ok_put; [done|done|].
    split_and!; [done..|]. left. apply Ht.
  - destruct (lb_nonces (rw_bucket w) !! key) as [x|] eqn:Habs; [|by eapply create_ok].
    exists first. apply world_ok_put; [done|done|]. destruct (wo_calls _ _ Hw n c Hn) as (H1 & H2 & H3 & H4). rewrite Hrun in H4.
    destruct H4 as [(_ & _ & Ht & _)|[[[] _]|(c0 & an & [] & _)]]. split_and!; [done..|]. by left.
  - exists first. apply world_ok_put; [done|done|]. destruct (wo_calls _ _ Hw n c Hn) as (H1 & H2 & H3 & H4). rewrite Hrun in H4.
    destruct H4 as [(_ & Ht & _)|[[[] _]|(c0 & an & [] & _)]]. split_and!; [done..|]. by left.
  - exists first. apply world_ok_put; [done|done|]. eapply call_ok_step; [by apply Hw|rewrite Hrun; by auto..|].
    rewrite Hrun. intros c0 an [_ Hd] Hle _. by apply Hd.
  - exists first. apply world_ok_put; [done|done|]. eapply call_ok_step; [by apply Hw|rewrite Hrun; by auto..|].
    rewrite Hrun. by intros c0 an [Hd _] _ _.
Qed.

Lemma deployed_ok w : deployed w -> world_ok w ∅.
Proof.
  intros (H1 & H2 & H3 & H4 & H5). split; [done| |done|].
  - intros g m. by rewrite H4.
  - intros n c. by rewrite H5.
Qed.

Lemma replicas_ok w w' first : deployment_ok -> rtc rstep w w' -> world_ok w first -> exists first', world_ok w' first'.
Proof.
  intros Hdo Hsteps. revert first. induction Hsteps as [|w1 w2 w3 H12 _ IH]; intros first Hw; [by exists first|].
  destruct (rstep_ok w1 w2 first Hdo H12 Hw) as [first' Hw']. by eapply IH.
Qed.

Lemma accepts_first w first n nonce issued : world_ok w first -> accepts w n nonce issued -> exists since, first !! (nonce, issued) = Some (n, since).
Proof.
  intros Hw (c & Hn & <- & <- & Hrun). destruct (wo_calls _ _ Hw n c Hn) as (_ & _ & _ & H4). rewrite Hrun in H4.
  by destruct H4 as [H4|[[_ H4]|(c0 & an & H4 & _)]].
Qed.

(** (C8) However the calls of any number of replicas interleave, whatever raises, lands late, expires or
    is wiped: an artifact is accepted at most once, provided clocks keep to the drift allowance, the
    guard covers its verifier's tolerance, the bucket keeps a nonce for the whole window in which its
    artifact is accepted, and a wipe that loses a nonce is one the anchor can tell from a first run. *)
Theorem no_replay w w' n1 n2 nonce issued :
  deployment_ok -> deployed w -> rtc rstep w w' -> accepts w' n1 nonce issued -> accepts w' n2 nonce issued -> n1 = n2.
Proof.
  intros Hdo Hw Hsteps H1 H2. destruct (replicas_ok w w' ∅ Hdo Hsteps (deployed_ok w Hw)) as [first Hok].
  destruct (accepts_first _ _ _ _ _ Hok H1) as [s1 F1], (accepts_first _ _ _ _ _ Hok H2) as [s2 F2]. congruence.
Qed.

(** ** Schedules that can be computed *)

(** The next step of a call, answered. *)
Definition radvance (n : nat) (w : rworld) : rworld :=
  match rw_calls w !! n with
  | None => w
  | Some c =>
      match c_run c with
      | GRet _ => w
      | GClock k => put_call w n c (k (clk (c_guard c) (rw_time w)))
      | GLedger k => put_call w n c (k (rw_first w !! c_guard c))
      | GSetLedger m k => put_call (put_first w (c_guard c) m) n c k
      | GAnchor now k => let m := default now (rw_anchor w) in put_call (put_anchor w m) n c (k (Some m))
      | GCreate key k =>
          if rw_time w <=? c_checked c + latency then
            match lb_nonces (rw_bucket w) !! key with
            | None => put_call (put_nonce w key) n c (k (Some true))
            | Some _ => put_call w n c (k (Some false))
            end
          else w
      | GDateCreated k => put_call w n c (k (Some (lb_created (rw_bucket w))))
      end
  end.

Lemma radvance_reaches m n w : rtc rstep w (Nat.iter m (radvance n) w).
Proof.
  induction m as [|m IH]; [done|]. etrans; [exact IH|]. simpl. generalize (Nat.iter m (radvance n) w). clear w IH.
  intros w. unfold radvance. destruct (rw_calls w !! n) as [c|] eqn:Hn; [|done]. destruct (c_run c) as [a|k|k|mo k|now k|key k|k] eqn:Hrun.
  - done.
  - by eapply rtc_once, rstep_clock.
  - by eapply rtc_once, rstep_ledger.
  - by eapply rtc_once, rstep_set.
  - by eapply rtc_once, rstep_anchor.
  - destruct (Z.leb_spec (rw_time w) (c_checked c + latency)); [|done]. by eapply rtc_once, rstep_create.
  - by eapply rtc_once, rstep_date.
Qed.

(** An artifact checked now and the call run to its end. *)
Definition present (g nonce : string) (iat : Z) (w : rworld) : rworld :=
  Nat.iter 12 (radvance (length (rw_calls w)))
    (mkRWorld (rw_time w) (rw_bucket w) (rw_anchor w) (rw_first w)
      (rw_calls w ++ [mkCall g nonce (iat * usec) (rw_time w) (record_unique key_of anchored tolerance true nonce true (iat * usec))])).

Lemma present_reaches g nonce iat w :
  issue_time_is_fresh iat (clk g (rw_time w) / usec) max_age future_tolerance = Ok true -> rtc rstep w (present g nonce iat w).
Proof. intros Hf. eapply rtc_l; [by eapply rstep_check|]. apply radvance_reaches. Qed.
End System.

(** The guard of a pod-signed proof: broker and replicas agree on the time. *)
Definition pod_step (anchored : bool) (wipes : rworld -> Z -> Prop) : rworld -> rworld -> Prop :=
  rstep id anchored ISSUE_TIME_FUTURE_TOLERANCE (fun _ t => t) DEFAULT_PROOF_MAX_AGE ISSUE_TIME_FUTURE_TOLERANCE (120 * usec) (2 * usec) wipes.

Definition pod_present (anchored : bool) : string -> string -> Z -> rworld -> rworld :=
  present id anchored ISSUE_TIME_FUTURE_TOLERANCE (fun _ t => t) (2 * usec).

Definition new_deployment : rworld := mkRWorld 0 (mkLedger 0 ∅) None ∅ [].

Definition at_time (t : Z) (w : rworld) : rworld := put_bucket w (t * usec) (rw_bucket w).
Definition wiped_at (t : Z) (w : rworld) : rworld := put_bucket w (t * usec) (mkLedger (t * usec) ∅).

Lemma pod_waits anchored wipes t w : rw_time w <= t * usec -> rtc (pod_step anchored wipes) w (at_time t w).
Proof. intros Ht. by apply rtc_once, rstep_tick. Qed.

Lemma pod_wiped anchored wipes t w : rw_time w < t * usec -> wipes w (t * usec) -> rtc (pod_step anchored wipes) w (wiped_at t w).
Proof. intros Ht Hw. by apply rtc_once, rstep_wipe. Qed.

Lemma pod_presents anchored wipes g nonce iat w :
  issue_time_is_fresh iat (rw_time w / usec) DEFAULT_PROOF_MAX_AGE ISSUE_TIME_FUTURE_TOLERANCE = Ok true ->
  rtc (pod_step anchored wipes) w (pod_present anchored g nonce iat w).
Proof. intros Hf. by apply present_reaches. Qed.

Ltac pod_schedule :=
  repeat (first [etrans; [|apply pod_presents; vm_compute; reflexivity]
                |etrans; [|apply pod_wiped; [vm_compute; reflexivity|exact I]]
                |apply pod_waits; vm_compute; discriminate]).

(** A replica records at 20s an artifact issued then; the bucket is wiped; another is shown it at 30s. *)
Definition replayed_after_wipe : rworld :=
  pod_present false "r2" "n" 20 (wiped_at 30 (pod_present false "r1" "n" 20 (at_time 20 new_deployment))).

Lemma no_replay_witness :
  accepts replayed_after_wipe 0 "n" (20 * usec) /\ forall n, accepts replayed_after_wipe n "n" (20 * usec) -> 0%nat = n.
Proof.
  assert (H0 : accepts replayed_after_wipe 0 "n" (20 * usec)).
  { eexists. split_and!; [vm_compute; reflexivity|reflexivity..]. }
  split; [done|]. intros n.
  apply (no_replay id false ISSUE_TIME_FUTURE_TOLERANCE (fun _ t => t) DEFAULT_PROOF_MAX_AGE ISSUE_TIME_FUTURE_TOLERANCE (120 * usec) (2 * usec)
    (fun _ _ => True) new_deployment replayed_after_wipe 0 n "n" (20 * usec)); [|by split_and!| |done].
  - split; [unfold CLOCK_DRIFT_ALLOWANCE, usec; intros; lia|done|done|]. intros w t _. by right.
  - change (rtc (pod_step false (fun _ _ => True)) new_deployment replayed_after_wipe). unfold replayed_after_wipe.
    pod_schedule.
Defined.

(** The wipe condition is needed. With an anchor, a wipe within the drift allowance of the anchor's
    moment reads as a first run: an artifact recorded before it is accepted again. *)
Theorem early_wipe_admits_replay :
  exists w, rtc (pod_step true (fun _ _ => True)) new_deployment w
    /\ accepts w 0 "n" (1 * usec) /\ accepts w 1 "n" (1 * usec).
Proof.
  exists (pod_present true "r2" "n" 1 (wiped_at 3 (pod_present true "r1" "n" 1 (at_time 1 new_deployment)))). split.
  - pod_schedule.
  - split; eexists; (split_and!; [vm_compute; reflexivity|reflexivity..]).
Qed.

(** The anchor's storage fails for a call's first two reads of it. *)
Definition blind (n : nat) (w : rworld) : rworld :=
  match rw_calls w !! n with
  | Some c => match c_run c with GAnchor _ k => put_call w n c (k None) | _ => w end
  | None => w
  end.

Lemma blind_reaches anchored wipes n w : rtc (pod_step anchored wipes) w (blind n w).
Proof.
  unfold blind. destruct (rw_calls w !! n) as [c|] eqn:Hn; [|done]. destruct (c_run c) eqn:Hrun; try done. by eapply rtc_once, rstep_anchor_raises.
Qed.

Definition pod_advance (n : nat) : rworld -> rworld :=
  radvance (fun _ t => t) (2 * usec) n.

Definition pod_check (g nonce : string) (iat : Z) (w : rworld) : rworld :=
  mkRWorld (rw_time w) (rw_bucket w) (rw_anchor w) (rw_first w)
    (rw_calls w ++ [mkCall g nonce (iat * usec) (rw_time w) (record_unique id true ISSUE_TIME_FUTURE_TOLERANCE true nonce true (iat * usec))]).

Lemma pod_checks wipes g nonce iat w :
  issue_time_is_fresh iat (rw_time w / usec) DEFAULT_PROOF_MAX_AGE ISSUE_TIME_FUTURE_TOLERANCE = Ok true ->
  rtc (pod_step true wipes) w (pod_check g nonce iat w).
Proof. intros Hf. by apply rtc_once, rstep_check. Qed.

Lemma pod_advances wipes m n w : rtc (pod_step true wipes) w (Nat.iter m (pod_advance n) w).
Proof. apply radvance_reaches. Qed.

(** A replica that cannot reach the anchor records an artifact at 12s. *)
Definition recorded_blind : rworld :=
  Nat.iter 6 (pod_advance 0) (blind 0 (Nat.iter 2 (pod_advance 0) (pod_check "r1" "n" 12 (at_time 12 new_deployment)))).

Lemma recorded_blind_reached : rtc (pod_step true (fun _ _ => True)) new_deployment recorded_blind.
Proof.
  unfold recorded_blind. etrans; [apply (pod_waits true _ 12); vm_compute; discriminate|].
  etrans; [apply (pod_checks _ "r1" "n" 12); vm_compute; reflexivity|].
  etrans; [apply (pod_advances _ 2 0)|]. etrans; [apply (blind_reaches _ _ 0)|]. apply pod_advances.
Qed.

(** Nor is a later wipe told from a first run when the anchor could not be claimed before the nonces
    it erased: the first claim that succeeds, after the wipe, stamps a moment that reads as one. *)
Theorem late_claim_admits_replay :
  exists w, rtc (pod_step true (fun _ _ => True)) new_deployment w
    /\ accepts w 0 "n" (12 * usec) /\ accepts w 1 "n" (12 * usec).
Proof.
  exists (pod_present true "r2" "n" 12 (wiped_at 40 recorded_blind)). split.
  - etrans; [apply recorded_blind_reached|]. etrans; [apply (pod_wiped true _ 40); [vm_compute; reflexivity|exact I]|].
    apply pod_presents. vm_compute. reflexivity.
  - split; eexists; (split_and!; [vm_compute; reflexivity|reflexivity..]).
Qed.
