(* ===== verification/ToolSchema.v ===== *)
(** * Self-contained tool schemas

    [src/packages/tool-schema/src/threetears/tool_schema/self_contained.py]: a JSON Schema with every
    local reference inlined and every optional union collapsed, and the one type a property declares.

    A mapping is its items in insertion order, keys distinct; a merge [{**a, **b}] keeps [a]'s order.
    [_inline_refs] and [_declared_type] follow references, so their models carry a depth and answer
    [Unfinished] when it runs out; [inline_refs_terminates] and [declared_type_terminates] say which
    depth is always enough, cyclic definitions included. *)

From Stdlib Require Import Ascii String Bool List NArith ZArith Lia.
From stdpp Require Import base list gmap strings.
From S2P Require Import Prelude.

Open Scope string_scope.

(** ** JSON *)

#[local] Set Warnings "-register-all".

Inductive json :=
| JNull
| JBool (b : bool)
| JInt (n : Z)
| JFloat (repr : string)
| JStr (s : string)
| JArr (l : list json)
| JObj (items : list (string * json)).

(** Python's truth of a value. *)
Definition truthy (j : json) : bool :=
  match j with
  | JNull => false
  | JBool b => b
  | JInt n => negb (n =? 0)%Z
  | JFloat repr => negb (String.eqb repr "0.0" || String.eqb repr "-0.0")
  | JStr s => str_truthy s
  | JArr l => match l with [] => false | _ => true end
  | JObj items => match items with [] => false | _ => true end
  end.

Inductive schema_error := SchemaValueError (ref : string) | SchemaTypeError | SchemaAttributeError.

(** What a call gives: a value, an exception, or nothing yet at this depth. *)
Inductive outcome (A : Type) := Done (a : A) | Raise (e : schema_error) | Unfinished.
Arguments Done {A}.
Arguments Raise {A}.
Arguments Unfinished {A}.

Definition obind {A B} (m : outcome A) (f : A -> outcome B) : outcome B :=
  match m with Done a => f a | Raise e => Raise e | Unfinished => Unfinished end.

Notation "'try!' x <- m ;; k" := (obind m (fun x => k)) (at level 100, x pattern, m at next level, right associativity).

(** ** Walking a schema *)

Definition SUBSCHEMA_KEYWORDS : list string :=
  ["items"; "additionalProperties"; "not"; "contains"; "if"; "then"; "else"; "propertyNames"; "unevaluatedItems"].
Definition SUBSCHEMA_LIST_KEYWORDS : list string := ["anyOf"; "oneOf"; "allOf"; "prefixItems"].
Definition SUBSCHEMA_MAP_KEYWORDS : list string := ["properties"; "patternProperties"; "dependentSchemas"; "$defs"; "definitions"].
Definition DEFINITION_PREFIXES : list string := ["#/$defs/"; "#/definitions/"].

Definition is_in (k : string) (l : list string) : bool := existsb (String.eqb k) l.
#[global] Arguments is_in : simpl never.

Fixpoint each_item (f : json -> outcome json) (l : list json) : outcome (list json) :=
  match l with
  | [] => Done []
  | x :: l => try! y <- f x;; try! l <- each_item f l;; Done (y :: l)
  end.

Fixpoint each_value (f : json -> outcome json) (items : list (string * json)) : outcome (list (string * json)) :=
  match items with
  | [] => Done []
  | (k, x) :: items => try! y <- f x;; try! items <- each_value f items;; Done ((k, y) :: items)
  end.

(** [_walk_subschemas]. *)
Fixpoint walk_subschemas (f : json -> outcome json) (node : list (string * json)) : outcome (list (string * json)) :=
  match node with
  | [] => Done []
  | (key, value) :: node =>
      try! walked <- match value with
                     | JObj items =>
                         if is_in key SUBSCHEMA_KEYWORDS then f value
                         else if is_in key SUBSCHEMA_MAP_KEYWORDS then try! items <- each_value f items;; Done (JObj items)
                         else Done value
                     | JArr l => if is_in key SUBSCHEMA_LIST_KEYWORDS then try! l <- each_item f l;; Done (JArr l) else Done value
                     | _ => Done value
                     end;;
      try! node <- walk_subschemas f node;; Done ((key, walked) :: node)
  end.

(** [{**a, **b}]. *)
Definition merged (a b : list (string * json)) : list (string * json) := fold_left (fun d kv => od_set kv.1 kv.2 d) b a.

Definition without (keys : list string) (d : list (string * json)) : list (string * json) :=
  List.filter (fun kv => negb (is_in kv.1 keys)) d.

(** [m.get("type") == "null"] of a mapping. *)
Definition is_null_type (m : json) : bool :=
  match m with JObj items => match od_get "type" items with Some (JStr t) => String.eqb t "null" | _ => false end | _ => false end.

(** The collapse of a walked node. *)
Definition collapse_union (result : list (string * json)) : outcome json :=
  let union_key := if isSome (od_get "anyOf" result) then Some "anyOf" else if isSome (od_get "oneOf" result) then Some "oneOf" else None in
  match union_key with
  | Some union_key =>
      if isSome (od_get "type" result) then Done (JObj result)
      else
        match od_get union_key result with
        | Some (JArr members) =>
            match List.filter (fun m => negb (is_null_type m)) members with
            | [JObj real] =>
                if (1 <? length members)%nat then
                  let field := List.filter (fun kv => negb (String.eqb kv.1 union_key)
                    && negb (String.eqb kv.1 "default" && match kv.2 with JNull => true | _ => false end)) result in
                  Done (JObj (merged real field))
                else Done (JObj result)
            | _ => Done (JObj result)
            end
        | Some (JObj _) | Some (JStr _) => Done (JObj result)
        | _ => Raise SchemaTypeError
        end
  | None => Done (JObj result)
  end.

(** [_collapse_optional]. *)
Fixpoint collapse_optional (node : json) : outcome json :=
  match node with
  | JObj items => try! result <- walk_subschemas collapse_optional items;; collapse_union result
  | _ => Done node
  end.

(** ** References *)

(** [s.replace("ab", "c")]. *)
Fixpoint replace_pair (a b new : ascii) (s : string) : string :=
  match s with
  | String x (String y rest as tail) =>
      if Ascii.eqb x a && Ascii.eqb y b then String new (replace_pair a b new rest) else String x (replace_pair a b new tail)
  | _ => s
  end.

(** [_local_definition_name]. *)
Definition local_definition_name (ref : string) : option string :=
  match find (fun p => starts_with p ref) DEFINITION_PREFIXES with
  | Some prefix =>
      let rest := str_drop (String.length prefix) ref in
      if str_has "/" rest then None else Some (replace_pair "~" "0" "~" (replace_pair "~" "1" "/" rest))
  | None => None
  end.

(** [{**value}] of [schema.get(key) or {}]. *)
Definition definitions_under (key : string) (schema : list (string * json)) : outcome (list (string * json)) :=
  match od_get key schema with
  | None => Done []
  | Some v => if truthy v then match v with JObj items => Done items | _ => Raise SchemaTypeError end else Done []
  end.

(** [_definitions]. *)
Definition definitions_of (schema : list (string * json)) : outcome (list (string * json)) :=
  try! old <- definitions_under "definitions" schema;;
  try! new <- definitions_under "$defs" schema;;
  Done (merged old new).

Section Inline.
(** [str()] of a value that is not a string. *)
Variable str_of : json -> string.

Definition format (j : json) : string := match j with JStr s => s | _ => str_of j end.

(** Where a definition recurs: its type and a note in words, the reference's own keywords over them. *)
Definition recursion_note (name : string) (definition : json) (siblings : list (string * json)) : list (string * json) :=
  let note := "A " ++ name ++ ": the same shape as the " ++ name ++ " that contains it." in
  let text := match od_get "description" siblings with
              | Some d => if truthy d then format d ++ " " ++ note else note
              | None => note
              end in
  let recursion := [("description", JStr text)] in
  let recursion := match definition with
                   | JObj items => match od_get "type" items with Some t => ("type", t) :: recursion | None => recursion end
                   | _ => recursion
                   end in
  merged recursion (without ["description"] siblings).

(** [_inline_refs], to a depth. *)
Fixpoint inline_refs (depth : nat) (definitions : list (string * json)) (expanding : list string) (node : json) : outcome json :=
  match node with
  | JObj items =>
      match depth with
      | O => Unfinished
      | S depth =>
          try! siblings <- walk_subschemas (inline_refs depth definitions expanding)
                             (without ["$ref"; "title"; "$defs"; "definitions"] items);;
          match od_get "$ref" items with
          | Some (JStr ref) =>
              match local_definition_name ref with
              | None => Raise (SchemaValueError ref)
              | Some name =>
                  match od_get name definitions with
                  | None => Raise (SchemaValueError ref)
                  | Some definition =>
                      if is_in name expanding then Done (JObj (recursion_note name definition siblings))
                      else
                        try! expanded <- inline_refs depth definitions (expanding ++ [name])%list definition;;
                        Done (match expanded with JObj e => JObj (merged e siblings) | _ => expanded end)
                  end
              end
          | _ => Done (JObj siblings)
          end
      end
  | _ => Done node
  end.

(** How deep a value nests. *)
Fixpoint jdepth (j : json) : nat :=
  match j with
  | JArr l => S (list_max (map jdepth l))
  | JObj items => S (list_max (map (fun kv => jdepth kv.2) items))
  | _ => 1
  end.

Definition defs_depth (definitions : list (string * json)) : nat := list_max (map (fun kv => jdepth kv.2) definitions).

(** A depth that is always enough: each definition opens at most once inside itself. *)
Definition enough (definitions : list (string * json)) (node : json) : nat :=
  jdepth node + length definitions * S (defs_depth definitions).

(** [list(required or [])]. *)
Definition required_list (required : option json) : outcome (list json) :=
  match required with
  | None => Done []
  | Some r =>
      if truthy r then
        match r with
        | JArr l => Done l
        | JStr s => Done (map (fun c => JStr (String c "")) (list_ascii_of_string s))
        | JObj items => Done (map (fun kv => JStr kv.1) items)
        | _ => Raise SchemaTypeError
        end
      else Done []
  end.

(** [self_contained_input_schema]. The collapse of a mapping is one; [root.pop] of what is none raises a [TypeError] of a list, which takes
    one argument, and an [AttributeError] of anything else. *)
Definition self_contained_input_schema (schema : list (string * json)) : outcome (list (string * json)) :=
  try! collapsed <- collapse_optional (JObj schema);;
  match collapsed with
  | JObj items =>
      try! definitions <- definitions_of items;;
      try! root <- inline_refs (enough definitions collapsed) definitions [] collapsed;;
      match root with
      | JObj root =>
          let root := without ["description"] root in
          let properties := match od_get "properties" root with Some p => if truthy p then p else JObj [] | None => JObj [] end in
          try! required <- required_list (od_get "required" root);;
          Done (merged root [("type", JStr "object"); ("properties", properties); ("required", JArr required)])
      | JArr _ => Raise SchemaTypeError
      | _ => Raise SchemaAttributeError
      end
  | _ => Raise SchemaTypeError
  end.
End Inline.

(** The one member of [prop.get("anyOf") or prop.get("oneOf")] that is not the null type. *)
Definition sole_member (p : list (string * json)) : option json :=
  match (match od_get "anyOf" p with Some m => if truthy m then Some m else od_get "oneOf" p | None => od_get "oneOf" p end) with
  | Some (JArr members) =>
      match List.filter (fun m => negb (is_null_type m)) members with [real] => Some real | _ => None end
  | _ => None
  end.

(** [_declared_type], to a depth. *)
Fixpoint declared_type_at (depth : nat) (schema : list (string * json)) (following : list string) (prop : json) : outcome (option string) :=
  match prop with
  | JObj p =>
      match depth with
      | O => Unfinished
      | S depth =>
          let by_members := match sole_member p with Some real => declared_type_at depth schema following real | None => Done None end in
          match od_get "type" p with
          | Some (JStr t) => Done (Some t)
          | Some (JArr ts) =>
              Done (match List.filter (fun t => match t with JStr s => negb (String.eqb s "null") | _ => true end) ts with
                    | [JStr t] => Some t
                    | _ => None
                    end)
          | _ =>
              match od_get "$ref" p with
              | Some (JStr ref) =>
                  if is_in ref following then by_members
                  else
                    match local_definition_name ref with
                    | None => Done None
                    | Some name =>
                        try! definitions <- definitions_of schema;;
                        match od_get name definitions with
                        | Some definition => declared_type_at depth schema (ref :: following) definition
                        | None => Done None
                        end
                    end
              | _ => by_members
              end
          end
      end
  | _ => Done None
  end.

(** ** Walks *)

Lemma list_max_in {A} (f : A -> nat) x l : x ∈ l -> f x <= list_max (map f l).
Proof. induction 1; simpl; lia. Qed.

(** [x] is a subschema of the node: where [walk_subschemas] calls. *)
Definition subschema (x : json) (node : list (string * json)) : Prop :=
  exists key value, (key, value) ∈ node /\
    match value with
    | JObj items => (is_in key SUBSCHEMA_KEYWORDS = true /\ x = value)
        \/ (is_in key SUBSCHEMA_KEYWORDS = false /\ is_in key SUBSCHEMA_MAP_KEYWORDS = true /\ exists name, (name, x) ∈ items)
    | JArr l => is_in key SUBSCHEMA_LIST_KEYWORDS = true /\ x ∈ l
    | _ => False
    end.

Lemma subschema_depth x node : subschema x node -> jdepth x < jdepth (JObj node).
Proof.
  intros (key & value & Hin & Hx). pose proof (list_max_in (fun kv => jdepth kv.2) _ _ Hin) as Hv. simpl in *.
  destruct value as [| | | | |l|items]; try done.
  - destruct Hx as [_ Hx]. pose proof (list_max_in jdepth _ _ Hx). simpl in *. lia.
  - destruct Hx as [[_ ->]|(_ & _ & name & Hx)]; [simpl in *; lia|].
    pose proof (list_max_in (fun kv => jdepth kv.2) _ _ Hx). simpl in *. lia.
Qed.

Lemma subschema_cons x kv node : subschema x node -> subschema x (kv :: node).
Proof. intros (key & value & Hin & Hx). exists key, value. split; [by apply list_elem_of_further|done]. Qed.

Lemma subschema_filter x f node : subschema x (List.filter f node) -> subschema x node.
Proof.
  intros (key & value & Hin & Hx). exists key, value. split; [|done]. apply list_elem_of_In, filter_In in Hin as [Hin _]. by apply list_elem_of_In.
Qed.

(** How a call ends: in a value with [P], in an exception with [E], or, when [U], unfinished. *)
Definition ends {A} (P : A -> Prop) (E : schema_error -> Prop) (U : Prop) (m : outcome A) : Prop :=
  match m with Done a => P a | Raise e => E e | Unfinished => U end.

Lemma ends_bind {A B} (P : A -> Prop) (Q : B -> Prop) E U m (f : A -> outcome B) :
  ends P E U m -> (forall a, m = Done a -> P a -> ends Q E U (f a)) -> ends Q E U (obind m f).
Proof. destruct m; simpl; auto. Qed.

Lemma ends_conseq {A} (P Q : A -> Prop) (E : schema_error -> Prop) U m :
  ends P E U m -> (forall a, m = Done a -> P a -> Q a) -> ends Q E U m.
Proof. destruct m; simpl; auto. Qed.

Section Walk.
Context (f : json -> outcome json) (R : json -> json -> Prop) (E : schema_error -> Prop) (U : Prop).

Lemma each_item_ends l : (forall x, x ∈ l -> ends (R x) E U (f x)) -> ends (Forall2 R l) E U (each_item f l).
Proof.
  induction l as [|x l IH]; intros Hl; simpl; [constructor|].
  eapply ends_bind; [apply Hl, list_elem_of_here|]. intros y _ Hy.
  eapply ends_bind; [apply IH; intros z Hz; by apply Hl, list_elem_of_further|]. intros l' _ Hl'. by constructor.
Qed.

Definition same_key (kv kv' : string * json) : Prop := kv'.1 = kv.1 /\ R kv.2 kv'.2.

Lemma each_value_ends items : (forall k x, (k, x) ∈ items -> ends (R x) E U (f x)) -> ends (Forall2 same_key items) E U (each_value f items).
Proof.
  induction items as [|[k x] items IH]; intros Hl; simpl; [constructor|].
  eapply ends_bind; [eapply Hl, list_elem_of_here|]. intros y _ Hy.
  eapply ends_bind; [apply IH; intros k' z Hz; by eapply Hl, list_elem_of_further|]. intros l' _ Hl'. by constructor.
Qed.

(** What the walk makes of one entry. *)
Definition walked (kv kv' : string * json) : Prop :=
  kv'.1 = kv.1 /\
  match kv.2 with
  | JObj items =>
      if is_in kv.1 SUBSCHEMA_KEYWORDS then R kv.2 kv'.2
      else if is_in kv.1 SUBSCHEMA_MAP_KEYWORDS then exists items', kv'.2 = JObj items' /\ Forall2 same_key items items'
      else kv'.2 = kv.2
  | JArr l => if is_in kv.1 SUBSCHEMA_LIST_KEYWORDS then exists l', kv'.2 = JArr l' /\ Forall2 R l l' else kv'.2 = kv.2
  | _ => kv'.2 = kv.2
  end.

Lemma walk_ends node : (forall x, subschema x node -> ends (R x) E U (f x)) -> ends (Forall2 walked node) E U (walk_subschemas f node).
Proof.
  induction node as [|[key value] node IH]; intros Hsub; simpl; [constructor|].
  assert (Hhere : forall x, subschema x [(key, value)] -> ends (R x) E U (f x)).
  { intros x (k & v & Hin & Hx). apply Hsub. exists k, v. apply list_elem_of_singleton in Hin as ->. split; [apply list_elem_of_here|done]. }
  eapply ends_bind with (P := fun v' => walked (key, value) (key, v')).
  - destruct value as [| | | | |l|items]; simpl; try (by split).
    + destruct (is_in key SUBSCHEMA_LIST_KEYWORDS) eqn:Hk; [|unfold ends, walked; simpl; by rewrite Hk].
      eapply ends_bind; [apply each_item_ends|].
      * intros x Hx. apply Hhere. exists key, (JArr l). split; [apply list_elem_of_here|done].
      * intros l' _ Hl'. split; simpl; rewrite ?Hk; [done|]. by exists l'.
    + destruct (is_in key SUBSCHEMA_KEYWORDS) eqn:Hk.
      * apply (ends_conseq (R (JObj items))); 
          [apply (Hhere (JObj items)); exists key; exists (JObj items); split; [apply list_elem_of_here|by left]|].
        intros y _ Hy. split; simpl; rewrite ?Hk; done.
      * destruct (is_in key SUBSCHEMA_MAP_KEYWORDS) eqn:Hm; [|unfold ends, walked; simpl; by rewrite Hk, Hm].
        eapply ends_bind; [apply each_value_ends|].
        -- intros k x Hx. apply Hhere. exists key, (JObj items). split; [apply list_elem_of_here|right; eauto].
        -- intros l' _ Hl'. split; simpl; rewrite ?Hk, ?Hm; [done|]. by exists l'.
  - intros v' _ Hv'. eapply ends_bind; [apply IH; intros x Hx; by apply Hsub, subschema_cons|]. intros node' _ Hn'. by constructor.
Qed.
End Walk.

(** ** What inlining leaves *)

Definition INLINED_AWAY : list string := ["$ref"; "title"; "$defs"; "definitions"].

(** No reference, title or definitions on any schema reached through the keywords that are walked. *)
Fixpoint clean (j : json) : bool :=
  match j with
  | JObj items =>
      forallb (fun '(k, v) => negb (is_in k INLINED_AWAY) &&
        match v with
        | JObj sub => if is_in k SUBSCHEMA_KEYWORDS then clean v
                      else if is_in k SUBSCHEMA_MAP_KEYWORDS then forallb (fun '(_, x) => clean x) sub else true
        | JArr l => if is_in k SUBSCHEMA_LIST_KEYWORDS then forallb clean l else true
        | _ => true
        end) items
  | _ => true
  end.

Definition clean_entry (kv : string * json) : Prop := clean (JObj [kv]) = true.

Lemma clean_entries items : clean (JObj items) = true <-> Forall clean_entry items.
Proof.
  induction items as [|[k v] items IH]; [by split; [constructor|]|]. rewrite Forall_cons, <- IH. unfold clean_entry. simpl.
  rewrite !andb_true_iff. tauto.
Qed.

Lemma merged_Forall (P : string * json -> Prop) a b : Forall P a -> Forall P b -> Forall P (merged a b).
Proof.
  unfold merged. intros Ha Hb. revert a Ha. induction Hb as [|[k v] b Hk Hb IH]; intros a Ha; simpl; [done|]. apply IH.
  apply Forall_forall. intros [k' v'] Hin. apply od_set_elem in Hin as [[= -> ->]|Hin]; [done|]. rewrite Forall_forall in Ha. auto.
Qed.

Lemma without_Forall (P : string * json -> Prop) keys d : Forall P d -> Forall P (without keys d).
Proof.
  rewrite !Forall_forall. intros Hd kv Hin. apply list_elem_of_In, filter_In in Hin as [Hin _]. by apply Hd, list_elem_of_In.
Qed.


Lemma clean_merged a b : clean (JObj a) = true -> clean (JObj b) = true -> clean (JObj (merged a b)) = true.
Proof. rewrite !clean_entries. apply merged_Forall. Qed.

Lemma clean_values items items' : Forall2 (same_key (fun _ y => clean y = true)) items items' -> forallb (fun '(_, x) => clean x) items' = true.
Proof. induction 1 as [|[k v] [k' v'] l l' [_ H] Hl IH]; simpl in *; [done|]. by rewrite H, IH. Qed.

Lemma clean_list (l l' : list json) : Forall2 (fun _ y => clean y = true) l l' -> forallb clean l' = true.
Proof. induction 1 as [|x y l l' H Hl IH]; simpl; [done|]. by rewrite H, IH. Qed.

Lemma keywords_disjoint k : is_in k SUBSCHEMA_KEYWORDS = true -> is_in k SUBSCHEMA_LIST_KEYWORDS = false.
Proof.
  unfold is_in at 1. rewrite existsb_exists. intros (x & Hx & ->%String.eqb_eq). simpl in Hx. by repeat destruct Hx as [<-|Hx].
Qed.

Lemma walked_clean node node' :
  Forall2 (walked (fun _ y => clean y = true)) node node' -> Forall (fun kv => is_in kv.1 INLINED_AWAY = false) node -> clean (JObj node') = true.
Proof.
  intros Hw Hk. rewrite clean_entries. revert Hk. induction Hw as [|[k v] [k' v'] node node' [Hkey Hv] Hw IH]; [constructor|].
  intros [Hkd Hk]%Forall_cons. constructor; [|auto]. simpl in *. subst k'. unfold clean_entry. cbn [clean forallb].
  rewrite Hkd. cbn [negb andb]. rewrite andb_true_r. destruct v as [| | | | |l|items]; try (by rewrite Hv).
  - destruct (is_in k SUBSCHEMA_LIST_KEYWORDS) eqn:Hl; [|by rewrite Hv]. destruct Hv as (l' & -> & Hl'). by eapply clean_list.
  - destruct (is_in k SUBSCHEMA_KEYWORDS) eqn:Hs.
    + destruct v' as [| | | | |l|items']; try done. by rewrite (keywords_disjoint k Hs).
    + destruct (is_in k SUBSCHEMA_MAP_KEYWORDS) eqn:Hm; [|by rewrite Hv]. destruct Hv as (items' & -> & Hi). by eapply clean_values.
Qed.

Lemma without_keys keys d : Forall (fun kv => is_in kv.1 keys = false) (without keys d).
Proof.
  apply Forall_forall. intros kv Hin. apply list_elem_of_In, filter_In in Hin as [_ Hk]. by destruct (is_in kv.1 keys).
Qed.

Lemma is_in_true k l : is_in k l = true <-> k ∈ l.
Proof.
  unfold is_in. rewrite existsb_exists. split.
  - intros (x & Hx & ->%String.eqb_eq). by apply list_elem_of_In.
  - intros Hk. exists k. split; [by apply list_elem_of_In|apply String.eqb_refl].
Qed.

(** A reference the definitions do not answer. *)
Definition unresolved (definitions : list (string * json)) (ref : string) : Prop :=
  match local_definition_name ref with None => True | Some name => od_get name definitions = None end.

(** The definitions not being expanded, and the depth a node needs. *)
Definition unopened (definitions : list (string * json)) (expanding : list string) : nat :=
  length (List.filter (fun kv => negb (is_in kv.1 expanding)) definitions).

Definition needs (definitions : list (string * json)) (expanding : list string) (node : json) : nat :=
  jdepth node + unopened definitions expanding * S (defs_depth definitions).

Lemma jdepth_pos j : 1 <= jdepth j.
Proof. destruct j; simpl; lia. Qed.

Lemma filter_length_lt {A} (f g : A -> bool) l x :
  (forall y, g y = true -> f y = true) -> x ∈ l -> f x = true -> g x = false -> length (List.filter g l) < length (List.filter f l).
Proof.
  intros Hgf Hx Hfx Hgx. induction l as [|y l IH]; [by apply elem_of_nil in Hx|].
  assert (Hle : length (List.filter g l) <= length (List.filter f l)).
  { clear -Hgf. induction l as [|z l IH]; simpl; [done|]. destruct (g z) eqn:Hz; [rewrite (Hgf z Hz); simpl; lia|]. destruct (f z); simpl; lia. }
  simpl. apply elem_of_cons in Hx as [->|Hx].
  - rewrite Hfx, Hgx. simpl. lia.
  - specialize (IH Hx). destruct (g y) eqn:Hy; [rewrite (Hgf y Hy); simpl; lia|]. destruct (f y); simpl; lia.
Qed.

(** Opening a definition leaves one fewer. *)
Lemma needs_definition definitions expanding name definition items :
  od_get name definitions = Some definition -> is_in name expanding = false ->
  needs definitions (expanding ++ [name])%list definition < needs definitions expanding (JObj items).
Proof.
  intros Hd Hn. apply od_get_elem in Hd. unfold needs.
  assert (Hlt : unopened definitions (expanding ++ [name])%list < unopened definitions expanding).
  { eapply filter_length_lt; [|exact Hd|simpl; by rewrite Hn|].
    - intros kv Hkv. destruct (is_in kv.1 expanding) eqn:Hin; [|done]. apply is_in_true in Hin.
      assert (Hin' : is_in kv.1 (expanding ++ [name])%list = true) by (apply is_in_true, elem_of_app; by left).
      by rewrite Hin' in Hkv.
    - simpl. assert (is_in name (expanding ++ [name])%list = true) as -> ; [|done].
      apply is_in_true, elem_of_app. right. apply list_elem_of_here. }
  pose proof (list_max_in (fun kv => jdepth kv.2) _ _ Hd) as Hdepth. simpl in Hdepth. fold (defs_depth definitions) in Hdepth.
  pose proof (jdepth_pos (JObj items)). nia.
Qed.

Lemma ends_weaken {A} (P : A -> Prop) (E : schema_error -> Prop) (U U' : Prop) m : ends P E U m -> (U -> U') -> ends P E U' m.
Proof. destruct m; simpl; auto. Qed.

Section Inlined.
Variable str_of : json -> string.

Lemma clean_recursion_note name definition siblings : clean (JObj siblings) = true -> clean (JObj (recursion_note str_of name definition siblings)) = true.
Proof.
  intros Hs. apply clean_merged.
  - by destruct definition as [| | | | | |items]; try done; destruct (od_get "type" items) as [[]|].
  - rewrite clean_entries in *. by apply without_Forall.
Qed.

(** Inlining ends: in a clean schema, in the refusal of a reference that names no definition, or, short
    of the depth needed, unfinished. *)
Lemma inline_refs_ends definitions depth expanding node :
  ends (fun r => clean r = true) (fun e => exists ref, e = SchemaValueError ref /\ unresolved definitions ref)
    (depth < needs definitions expanding node) (inline_refs str_of depth definitions expanding node).
Proof.
  revert expanding node. induction depth as [|depth IH]; intros expanding node; destruct node as [| | | | | |items]; try done.
  - simpl. pose proof (jdepth_pos (JObj items)). unfold needs. simpl in *. lia.
  - cbn [inline_refs]. eapply ends_bind.
    + eapply walk_ends. intros x Hx. eapply ends_weaken; [apply IH|]. intros Hlt.
      apply subschema_filter, subschema_depth in Hx. unfold needs in *. lia.
    + intros siblings _ Hs. apply walked_clean in Hs; [|apply without_keys].
      destruct (od_get "$ref" items) as [[| | | |ref| |]|]; try done. destruct (local_definition_name ref) as [name|] eqn:Hname.
      2: { exists ref. split; [done|]. unfold unresolved. by rewrite Hname. }
      destruct (od_get name definitions) as [definition|] eqn:Hdef.
      2: { exists ref. split; [done|]. unfold unresolved. by rewrite Hname. }
      destruct (is_in name expanding) eqn:Hexp; [by apply clean_recursion_note|].
      eapply ends_bind; [eapply ends_weaken; [apply IH|]|].
      * pose proof (needs_definition definitions expanding name definition items Hdef Hexp). lia.
      * intros expanded _ He. simpl. destruct expanded; try done. by apply clean_merged.
Qed.

Lemma enough_needs definitions node : needs definitions [] node <= enough definitions node.
Proof.
  unfold needs, enough, unopened. pose proof (List.filter_length_le (fun kv : string * json => negb (is_in kv.1 [])) definitions). nia.
Qed.

(** Inlining always ends, whatever the definitions refer to, themselves included: in a schema with no
    reference, title or definitions left on any subschema it walks, or in an error that names a
    reference pointing elsewhere or at a definition the schema does not carry. *)
Theorem inline_refs_terminates definitions node :
  match inline_refs str_of (enough definitions node) definitions [] node with
  | Done r => clean r = true
  | Raise e => exists ref, e = SchemaValueError ref /\ unresolved definitions ref
  | Unfinished => False
  end.
Proof.
  pose proof (inline_refs_ends definitions (enough definitions node) [] node) as H. pose proof (enough_needs definitions node).
  destruct (inline_refs str_of (enough definitions node) definitions [] node); simpl in H; [done|done|lia].
Qed.

(** *** Inlining what is inlined *)

Lemma clean_subschema x items : clean (JObj items) = true -> subschema x items -> clean x = true.
Proof.
  rewrite clean_entries. intros Hc (key & value & Hin & Hx). rewrite Forall_forall in Hc. apply Hc in Hin. unfold clean_entry in Hin.
  cbn [clean forallb] in Hin. rewrite andb_true_r in Hin. apply andb_true_iff in Hin as [_ Hin]. destruct value as [| | | | |l|sub]; try done.
  - destruct Hx as [Hk Hx]. rewrite Hk, forallb_forall in Hin. by apply Hin, list_elem_of_In.
  - destruct Hx as [[Hk ->]|(Hs & Hm & name & Hx)]; [by rewrite Hk in Hin|]. rewrite Hs, Hm, forallb_forall in Hin.
    by apply (Hin (name, x)), list_elem_of_In.
Qed.

Lemma walked_id node node' : Forall2 (walked (fun x y => y = x)) node node' -> node' = node.
Proof.
  assert (Hsame : forall l l', Forall2 (same_key (fun x y => y = x)) l l' -> l' = l).
  { induction 1 as [|[k v] [k' v'] l l' [H1 H2] Hl IH]; simpl in *; [done|]. congruence. }
  assert (Hall : forall l l' : list json, Forall2 (fun x y => y = x) l l' -> l' = l).
  { induction 1 as [|x y l l' H1 Hl IH]; [done|]. congruence. }
  induction 1 as [|[k v] [k' v'] node node' [Hk Hv] Hw IH]; [done|]. simpl in *. subst k' node'. do 2 f_equal.
  destruct v as [| | | | |l|items]; try done.
  - destruct (is_in k SUBSCHEMA_LIST_KEYWORDS); [|done]. destruct Hv as (l' & -> & Hl). f_equal. by apply Hall.
  - destruct (is_in k SUBSCHEMA_KEYWORDS); [done|]. destruct (is_in k SUBSCHEMA_MAP_KEYWORDS); [|done].
    destruct Hv as (l' & -> & Hl). f_equal. by apply Hsame.
Qed.

Lemma clean_without items : clean (JObj items) = true -> without INLINED_AWAY items = items /\ od_get "$ref" items = None.
Proof.
  rewrite clean_entries. induction 1 as [|[k v] items Hk Hi IH]; [done|]. unfold clean_entry in Hk. cbn [clean forallb] in Hk.
  rewrite andb_true_r in Hk. apply andb_true_iff in Hk as [Hk _]. unfold without in *. simpl. rewrite Hk. destruct IH as [-> ->].
  split; [done|]. destruct (decide (k = "$ref")) as [->|]; [done|done].
Qed.

Lemma inline_clean definitions depth expanding node :
  clean node = true -> jdepth node <= depth -> inline_refs str_of depth definitions expanding node = Done node.
Proof.
  intros Hc Hd. enough (ends (fun r => r = node) (fun _ => False) False (inline_refs str_of depth definitions expanding node)) as He.
  { by destruct (inline_refs str_of depth definitions expanding node) as [r| |]; [simpl in He; rewrite He|..]. }
  revert expanding node Hc Hd. induction depth as [|depth IH]; intros expanding node Hc Hd; destruct node as [| | | | | |items]; try done.
  - simpl in Hd. lia.
  - destruct (clean_without items Hc) as [Hw Href]. unfold INLINED_AWAY in Hw. cbn [inline_refs]. rewrite Hw, Href.
    eapply ends_bind with (P := fun s => s = items); [|by intros s _ ->].
    eapply ends_conseq; [eapply (walk_ends _ (fun x y => y = x))|].
    + intros x Hx. apply IH; [by eapply clean_subschema|]. apply subschema_depth in Hx. lia.
    + intros node' _ Hn. by apply walked_id.
Qed.

(** Inlining is idempotent: a schema it returned is returned again as it is, whatever the definitions. *)
Theorem inline_refs_idempotent definitions definitions' node r :
  inline_refs str_of (enough definitions node) definitions [] node = Done r ->
  inline_refs str_of (enough definitions' r) definitions' [] r = Done r.
Proof.
  intros Hr. pose proof (inline_refs_ends definitions (enough definitions node) [] node) as H. rewrite Hr in H. simpl in H.
  apply inline_clean; [done|]. unfold enough. lia.
Qed.

(** *** The whole function *)


Lemma definitions_end schema : ends (fun _ => True) (fun e => e = SchemaTypeError) False (definitions_of schema).
Proof.
  assert (Hu : forall k, ends (fun _ => True) (fun e => e = SchemaTypeError) False (definitions_under k schema)).
  { intros k. unfold definitions_under. destruct (od_get k schema) as [v|]; [|done]. destruct (truthy v); [|done]. by destruct v. }
  eapply ends_bind; [apply Hu|]. intros old _ _. eapply ends_bind; [apply Hu|]. done.
Qed.




(** **** Which references are walked *)





(** **** Schemas of the usual shape *)






















(** **** What a property says *)






Abbreviation collapses_to := (fun x y => collapse_optional x = Done y).














(** **** How the whole function ends *)
















End Inlined.

(** ** The declared type *)

(** Every reference written anywhere in a value. *)
Fixpoint refs_in (j : json) : list string :=
  match j with
  | JArr l => flat_map refs_in l
  | JObj items => flat_map (fun '(k, v) => (match v with JStr r => if String.eqb k "$ref" then [r] else [] | _ => [] end) ++ refs_in v)%list items
  | _ => []
  end.

Definition all_refs (definitions : list (string * json)) (prop : json) : list string :=
  (refs_in prop ++ flat_map (fun kv => refs_in kv.2) definitions)%list.

(** A depth that is always enough: each reference is followed at most once. *)
Definition declared_depth (schema : list (string * json)) (prop : json) : nat :=
  match definitions_of schema with
  | Done definitions => jdepth prop + length (all_refs definitions prop) * S (defs_depth definitions)
  | _ => jdepth prop
  end.

(** [declared_type]. *)
Definition declared_type (prop : json) (schema : list (string * json)) : outcome (option string) :=
  declared_type_at (declared_depth schema prop) schema [] prop.

Lemma refs_in_value k v items : (k, v) ∈ items -> refs_in v ⊆ refs_in (JObj items).
Proof.
  intros Hin r Hr. apply list_elem_of_In, in_flat_map. exists (k, v). split; [by apply list_elem_of_In|].
  apply in_or_app. right. by apply list_elem_of_In.
Qed.

Lemma refs_in_here r p : od_get "$ref" p = Some (JStr r) -> r ∈ refs_in (JObj p).
Proof.
  intros Hr%od_get_elem. apply list_elem_of_In, in_flat_map. exists ("$ref", JStr r). split; [by apply list_elem_of_In|by left].
Qed.

Lemma refs_in_item x l : x ∈ l -> refs_in x ⊆ refs_in (JArr l).
Proof. intros Hx r Hr. apply list_elem_of_In, in_flat_map. exists x. split; by apply list_elem_of_In. Qed.

(** The member of a union is under [anyOf] or [oneOf]. *)
Lemma sole_member_inside p real : sole_member p = Some real -> jdepth real < jdepth (JObj p) /\ refs_in real ⊆ refs_in (JObj p).
Proof.
  unfold sole_member. intros Hs.
  assert (Hk : exists k members, (k, JArr members) ∈ p /\ List.filter (fun m => negb (is_null_type m)) members = [real]).
  { destruct (od_get "anyOf" p) as [m|] eqn:Ha; [destruct (truthy m)|]; [|destruct (od_get "oneOf" p) as [m'|] eqn:Ho; [|done]..].
    - destruct m as [| | | | |l|]; try done. exists "anyOf", l. split; [by apply od_get_elem|].
      destruct (List.filter _ l) as [|x [|]]; try done. by injection Hs as ->.
    - destruct m' as [| | | | |l|]; try done. exists "oneOf", l. split; [by apply od_get_elem|].
      destruct (List.filter _ l) as [|x [|]]; try done. by injection Hs as ->.
    - destruct m' as [| | | | |l|]; try done. exists "oneOf", l. split; [by apply od_get_elem|].
      destruct (List.filter _ l) as [|x [|]]; try done. by injection Hs as ->. }
  destruct Hk as (k & members & Hk & Hf).
  assert (Hreal : real ∈ members).
  { apply list_elem_of_In. apply (filter_In (fun m => negb (is_null_type m))). rewrite Hf. by left. }
  pose proof (list_max_in (fun kv => jdepth kv.2) _ _ Hk) as H1. pose proof (list_max_in jdepth _ _ Hreal) as H2. simpl in *. split; [lia|].
  etrans; [by apply refs_in_item|]. by apply (refs_in_value k).
Qed.

Definition unfollowed (refs following : list string) : nat := length (List.filter (fun r => negb (is_in r following)) refs).

Lemma declared_ends schema definitions refs depth following prop :
  definitions_of schema = Done definitions -> (forall k d, (k, d) ∈ definitions -> refs_in d ⊆ refs) -> refs_in prop ⊆ refs ->
  ends (fun _ => True) (fun _ => False) (depth < jdepth prop + unfollowed refs following * S (defs_depth definitions))
    (declared_type_at depth schema following prop).
Proof.
  intros Hdefs Hd. revert following prop. induction depth as [|depth IH]; intros following prop Hp; destruct prop as [| | | | | |p]; try done.
  - simpl. lia.
  - cbn [declared_type_at].
    set (by_members := match sole_member p with Some _ => _ | None => _ end).
    assert (Hmembers : ends (fun _ => True) (fun _ => False) (S depth < jdepth (JObj p) + unfollowed refs following * S (defs_depth definitions)) by_members).
    { subst by_members. destruct (sole_member p) as [real|] eqn:Hm; [|done]. destruct (sole_member_inside p real Hm) as [Hlt Hsub]. eapply ends_weaken; [apply IH; by etrans|]. lia. }
    clearbody by_members.
    assert (Href : ends (fun _ => True) (fun _ => False) (S depth < jdepth (JObj p) + unfollowed refs following * S (defs_depth definitions))
      (match od_get "$ref" p with
       | Some (JStr ref) =>
           if is_in ref following then by_members
           else match local_definition_name ref with
                | None => Done None
                | Some name =>
                    try! definitions <- definitions_of schema;;
                    match od_get name definitions with
                    | Some definition => declared_type_at depth schema (ref :: following) definition
                    | None => Done None
                    end
                end
       | _ => by_members
       end)).
    { destruct (od_get "$ref" p) as [[| | | |ref| |]|] eqn:Href; try done. destruct (is_in ref following) eqn:Hin; [done|].
      destruct (local_definition_name ref) as [name|]; [|done]. rewrite Hdefs. simpl. destruct (od_get name definitions) as [d|] eqn:Hname; [|done].
      apply od_get_elem in Hname. eapply ends_weaken; [apply IH; by eapply Hd|]. intros Hlt.
      assert (Hfewer : unfollowed refs (ref :: following) < unfollowed refs following).
      { apply (filter_length_lt _ _ _ ref); [|by apply Hp, refs_in_here|by rewrite Hin|].
        - intros r. unfold is_in. simpl. destruct (String.eqb r ref); [done|]. done.
        - unfold is_in. simpl. by rewrite String.eqb_refl. }
      pose proof (list_max_in (fun kv => jdepth kv.2) _ _ Hname) as Hdepth. simpl in Hdepth. fold (defs_depth definitions) in Hdepth.
      pose proof (jdepth_pos (JObj p)). nia. }
    destruct (od_get "type" p) as [[]|]; done.
Qed.

Lemma declared_unread schema depth following prop :
  (forall d, definitions_of schema <> Done d) -> jdepth prop <= depth ->
  ends (fun _ => True) (fun e => e = SchemaTypeError) False (declared_type_at depth schema following prop).
Proof.
  intros Hdefs. revert following prop. induction depth as [|depth IH]; intros following prop Hp; destruct prop as [| | | | | |p]; try done.
  - simpl in Hp. lia.
  - cbn [declared_type_at].
    set (by_members := match sole_member p with Some _ => _ | None => _ end).
    assert (Hmembers : ends (fun _ => True) (fun e => e = SchemaTypeError) False by_members).
    { subst by_members. destruct (sole_member p) as [real|] eqn:Hm; [|done]. destruct (sole_member_inside p real Hm) as [Hlt _]. apply IH. lia. }
    clearbody by_members.
    assert (Hd : forall f, ends (fun _ => True) (fun e => e = SchemaTypeError) False (try! definitions <- definitions_of schema;; f definitions : outcome (option string))).
    { intros f. eapply ends_bind; [apply definitions_end|]. intros d Hd. by destruct (Hdefs d). }
    destruct (od_get "type" p) as [[]|]; try done.
    all: destruct (od_get "$ref" p) as [[| | | |ref| |]|]; try done; destruct (is_in ref following); try done.
    all: destruct (local_definition_name ref); [apply Hd|done].
Qed.

(** [declared_type] always answers, references that lead back to themselves included, and raises
    only for a schema whose definitions are not a mapping. *)
Theorem declared_type_terminates prop schema :
  match declared_type prop schema with
  | Done _ => True
  | Raise e => e = SchemaTypeError /\ forall d, definitions_of schema <> Done d
  | Unfinished => False
  end.
Proof.
  unfold declared_type, declared_depth. destruct (definitions_of schema) as [definitions| |] eqn:Hdefs.
  - set (refs := all_refs definitions prop).
    assert (H : ends (fun _ => True) (fun _ => False) (jdepth prop + length refs * S (defs_depth definitions) < jdepth prop + unfollowed refs [] * S (defs_depth definitions))
      (declared_type_at (jdepth prop + length refs * S (defs_depth definitions)) schema [] prop)).
    { apply declared_ends; [done| |].
      - intros k d Hk r Hr. apply elem_of_app. right. apply list_elem_of_In, in_flat_map. exists (k, d). split; by apply list_elem_of_In.
      - intros r Hr. apply elem_of_app. by left. }
    assert (Hle : unfollowed refs [] * S (defs_depth definitions) <= length refs * S (defs_depth definitions)).
    { apply Nat.mul_le_mono_r, List.filter_length_le. }
    destruct (declared_type_at _ schema [] prop); cbn [ends] in H; [done|done|lia].
  - assert (Hne : forall d, definitions_of schema <> Done d) by (intros d; by rewrite Hdefs).
    pose proof (declared_unread schema (jdepth prop) [] prop Hne (Nat.le_refl _)) as H.
    destruct (declared_type_at _ schema [] prop); simpl in H; [done|by split|done].
  - pose proof (definitions_end schema) as H. by rewrite Hdefs in H.
Qed.

(** ** A recursive model, and what is not reached *)

(** A tree: [Node] has children that are [Node]s. *)
Definition node_definition : json :=
  JObj [("type", JStr "object"); ("title", JStr "Node");
        ("properties", JObj [("children", JObj [("type", JStr "array"); ("items", JObj [("$ref", JStr "#/$defs/Node")])])])].

Definition node_inlined : json :=
  JObj [("type", JStr "object");
        ("properties", JObj [("children", JObj [("type", JStr "array");
           ("items", JObj [("type", JStr "object"); ("description", JStr "A Node: the same shape as the Node that contains it.")])])])].

Lemma inline_refs_idempotent_witness :
  inline_refs (fun _ => "") (enough [("Node", node_definition)] (JObj [("$ref", JStr "#/$defs/Node")])) [("Node", node_definition)] []
    (JObj [("$ref", JStr "#/$defs/Node")]) = Done node_inlined
  /\ inline_refs (fun _ => "") (enough [] node_inlined) [] [] node_inlined = Done node_inlined.
Proof.
  split; [vm_compute; reflexivity|].
  apply (inline_refs_idempotent (fun _ => "") [("Node", node_definition)] [] (JObj [("$ref", JStr "#/$defs/Node")])). vm_compute. reflexivity.
Defined.





(** [items] as a list, as draft 7 writes a tuple, is not walked: its references stay, and the
    definitions they name are gone. *)
Theorem list_items_keep_refs :
  exists r, self_contained_input_schema (fun _ => "")
      [("type", JStr "object");
       ("properties", JObj [("pair", JObj [("type", JStr "array"); ("items", JArr [JObj [("$ref", JStr "#/definitions/P")]])])]);
       ("definitions", JObj [("P", JObj [("type", JStr "string")])])] = Done r
    /\ refs_in (JObj r) = ["#/definitions/P"] /\ od_get "definitions" r = None.
Proof. eexists. split; [vm_compute; reflexivity|]. by split. Qed.

(** Definitions that are not a mapping make [declared_type] raise. *)
Theorem declared_type_raises :
  declared_type (JObj [("$ref", JStr "#/$defs/P")]) [("$defs", JArr [JInt 1])] = Raise SchemaTypeError.
Proof. vm_compute. reflexivity. Qed.
