(* ===== verification/Retention.v ===== *)
(** * Backup retention

    [src/packages/backup/src/threetears/backup/retention.py]: grandfather-father-son rotation, which
    keeps the newest backup of each of the most recent days, weeks and months.

    A [datetime] is its microseconds since the start of year 1, in UTC; [year_month_day] and
    [isocalendar] are the proleptic Gregorian arithmetic of Python's [datetime] module. The theorems
    compare [select] with what it is for: a backup is kept when it is the newest of its period and fewer
    periods than the tier keeps are newer. *)

From Stdlib Require Import Ascii String Bool List NArith ZArith Lia.
From stdpp Require Import base list fin_sets gmap strings sorting.
From S2P Require Import Prelude.

Open Scope list_scope.
Open Scope Z_scope.

(** ** Dates *)

Definition DAY : Z := 86400 * 1000000.

Definition DAYS_BEFORE_MONTH : list Z := [-1; 0; 31; 59; 90; 120; 151; 181; 212; 243; 273; 304; 334].
Definition DAYS_IN_MONTH : list Z := [-1; 31; 28; 31; 30; 31; 30; 31; 31; 30; 31; 30; 31].
Definition nth_z (l : list Z) (i : Z) : Z := nth (Z.to_nat i) l 0.

(** [date.fromordinal]: year, month and day of a day number, 1 January of year 1 being 1. *)
Definition year_month_day (ordinal : Z) : Z * Z * Z :=
  let n := ordinal - 1 in
  let n400 := n / 146097 in let n := n mod 146097 in
  let n100 := n / 36524 in let n := n mod 36524 in
  let n4 := n / 1461 in let n := n mod 1461 in
  let n1 := n / 365 in let n := n mod 365 in
  let year := n400 * 400 + 1 + n100 * 100 + n4 * 4 + n1 in
  if (n1 =? 4) || (n100 =? 4) then (year - 1, 12, 31)
  else
    let leapyear := (n1 =? 3) && (negb (n4 =? 24) || (n100 =? 3)) in
    let month := Z.shiftr (n + 50) 5 in
    let preceding := nth_z DAYS_BEFORE_MONTH month + (if (2 <? month) && leapyear then 1 else 0) in
    let '(month, preceding) :=
      if n <? preceding
      then let month := month - 1 in (month, preceding - (nth_z DAYS_IN_MONTH month + (if (month =? 2) && leapyear then 1 else 0)))
      else (month, preceding) in
    (year, month, n - preceding + 1).

(** [date(year, 1, 1).toordinal()], and the Monday of ISO week 1. *)
Definition first_day (year : Z) : Z := let y := year - 1 in y * 365 + y / 4 - y / 100 + y / 400 + 1.
Definition isoweek1monday (year : Z) : Z :=
  let firstday := first_day year in
  let firstweekday := (firstday + 6) mod 7 in
  let week1monday := firstday - firstweekday in
  if 3 <? firstweekday then week1monday + 7 else week1monday.

(** [isocalendar]: ISO year and week. *)
Definition isocalendar (ordinal : Z) : Z * Z :=
  let '(year, _, _) := year_month_day ordinal in
  let week := (ordinal - isoweek1monday year) / 7 in
  if week <? 0 then (year - 1, (ordinal - isoweek1monday (year - 1)) / 7 + 1)
  else if (52 <=? week) && (isoweek1monday (year + 1) <=? ordinal) then (year + 1, 1)
  else (year, week + 1).

Definition ordinal_of (when : Z) : Z := when / DAY + 1.

Definition day_key (when : Z) : list Z := let '(y, m, d) := year_month_day (ordinal_of when) in [y; m; d].
Definition week_key (when : Z) : list Z := let '(y, w) := isocalendar (ordinal_of when) in [y; w].
Definition month_key (when : Z) : list Z := let '(y, m, _) := year_month_day (ordinal_of when) in [y; m].

(** ** Retention *)

Record BackupRecord := mkBackupRecord {
  br_key : string;
  br_created_at : Z;
  br_size_bytes : Z;
}.

Record RetentionDecision := mkDecision {
  rd_keep : list BackupRecord;
  rd_delete : list BackupRecord;
}.

Record GfsRetention := mkGfs { gfs_daily : nat; gfs_weekly : nat; gfs_monthly : nat }.

Inductive retention_error := RetentionValueError (label : string).

(** [GfsRetention.__init__]. *)
Definition gfs_init (daily weekly monthly : Z) : result GfsRetention retention_error :=
  if daily <? 1 then Err (RetentionValueError "daily")
  else if weekly <? 1 then Err (RetentionValueError "weekly")
  else if monthly <? 1 then Err (RetentionValueError "monthly")
  else Ok (mkGfs (Z.to_nat daily) (Z.to_nat weekly) (Z.to_nat monthly)).

(** [(a.created_at, a.key) > (b.created_at, b.key)]. *)
Definition newer (a b : BackupRecord) : bool :=
  (br_created_at b <? br_created_at a)
  || ((br_created_at a =? br_created_at b) && match String.compare (br_key b) (br_key a) with Lt => true | _ => false end).

(** [sorted(records, key=..., reverse=True)], which is stable. *)
Fixpoint insert_newest (x : BackupRecord) (l : list BackupRecord) : list BackupRecord :=
  match l with
  | [] => [x]
  | y :: l' => if newer y x then y :: insert_newest x l' else x :: l
  end.
Definition newest_first (records : list BackupRecord) : list BackupRecord := foldr insert_newest [] records.

(** [dict.setdefault]. *)
Definition setdefault (k : list Z) (v : string) (d : list (list Z * string)) : list (list Z * string) :=
  if isSome (od_get k d) then d else d ++ [(k, v)].

(** [_period_keepers]. *)
Definition period_keepers (ordered : list BackupRecord) (period_of : Z -> list Z) (keep_periods : nat) : gset string :=
  let newest_in_period := fold_left (fun d r => setdefault (period_of (br_created_at r)) (br_key r) d) ordered [] in
  list_to_set (take keep_periods newest_in_period).*2.

(** [select]. *)
Definition select (policy : GfsRetention) (records : list BackupRecord) : RetentionDecision :=
  let ordered := newest_first records in
  let daily := period_keepers ordered day_key (gfs_daily policy) in
  let weekly := period_keepers ordered week_key (gfs_weekly policy) in
  let monthly := period_keepers ordered month_key (gfs_monthly policy) in
  let keep_keys := daily ∪ weekly ∪ monthly in
  mkDecision (List.filter (fun r => bool_decide (br_key r ∈ keep_keys)) ordered)
             (List.filter (fun r => negb (bool_decide (br_key r ∈ keep_keys))) ordered).

Example dates :
  map (fun o => year_month_day o) [1; 365; 366; 719163; 738945; 739252] =
    [(1, 1, 1); (1, 12, 31); (2, 1, 1); (1970, 1, 1); (2024, 2, 29); (2025, 1, 1)].
Proof. reflexivity. Qed.

Example iso_weeks :
  map isocalendar [739250; 739982; 737790; 737793; 735966; 739249] = [(2025, 1); (2026, 53); (2020, 53); (2020, 53); (2015, 53); (2024, 52)].
Proof. reflexivity. Qed.

(** ** The order *)

Lemma newer_irrefl a : newer a a = false.
Proof. unfold newer. rewrite Z.ltb_irrefl, Z.eqb_refl. simpl. by rewrite str_compare_refl. Qed.

Lemma newer_spec a b :
  newer a b = true <-> br_created_at b < br_created_at a
    \/ (br_created_at a = br_created_at b /\ String.compare (br_key b) (br_key a) = Lt).
Proof.
  unfold newer. rewrite orb_true_iff, andb_true_iff, Z.ltb_lt, Z.eqb_eq. by destruct (String.compare (br_key b) (br_key a)); intuition.
Qed.

Lemma newer_trans a b c : newer a b = true -> newer b c = true -> newer a c = true.
Proof.
  rewrite !newer_spec. intros [H1|[H1 H1']] [H2|[H2 H2']]; [left; lia..|]. right. split; [lia|]. by eapply str_compare_lt_trans.
Qed.

Lemma newer_asym a b : newer a b = true -> newer b a = false.
Proof. intros H. destruct (newer b a) eqn:Hb; [|done]. pose proof (newer_trans a b a H Hb). by rewrite newer_irrefl in *. Qed.

Lemma newer_total a b : br_key a <> br_key b -> newer a b = true \/ newer b a = true.
Proof.
  intros Hk. rewrite !newer_spec. destruct (Z.lt_trichotomy (br_created_at a) (br_created_at b)) as [|[|]]; [auto| |auto].
  pose proof (String.compare_antisym (br_key a) (br_key b)) as Ha. destruct (String.compare (br_key b) (br_key a)) eqn:Hc; simpl in Ha; auto.
  by apply String.compare_eq_iff in Hc.
Qed.

Lemma insert_newest_perm x l : insert_newest x l ≡ₚ x :: l.
Proof. induction l as [|y l IH]; simpl; [done|]. destruct (newer y x); [|done]. rewrite IH. apply perm_swap. Qed.

Lemma newest_first_perm l : newest_first l ≡ₚ l.
Proof. induction l as [|x l IH]; simpl; [done|]. by rewrite insert_newest_perm, IH. Qed.

Definition ordered_by (l : list BackupRecord) : Prop := StronglySorted (fun a b => newer b a = false) l.

Lemma insert_newest_ordered x l : ordered_by l -> ordered_by (insert_newest x l).
Proof.
  induction 1 as [|y l Hl IH Hy]; simpl; [repeat constructor|]. destruct (newer y x) eqn:Hyx.
  - constructor; [done|]. rewrite insert_newest_perm, Forall_cons. split; [by apply newer_asym|done].
  - constructor; [by constructor|]. constructor; [done|]. rewrite Forall_forall in *. intros z Hz.
    destruct (newer z x) eqn:Hzx; [|done]. specialize (Hy z Hz).
    destruct (decide (br_key x = br_key y /\ br_created_at x = br_created_at y)) as [[Hk Hc]|Hne].
    + unfold newer in *. by rewrite Hk, Hc in Hzx; rewrite Hzx in Hy.
    + enough (newer x y = true) as Hxy; [pose proof (newer_trans z x y Hzx Hxy); congruence|].
      rewrite newer_spec. unfold newer in Hyx. apply orb_false_iff in Hyx as [H1%Z.ltb_ge H2].
      destruct (Z.eq_dec (br_created_at x) (br_created_at y)) as [Heq|Hneq]; [|left; lia]. right. split; [done|].
      rewrite Heq, Z.eqb_refl in H2. pose proof (String.compare_antisym (br_key x) (br_key y)) as Ha.
      destruct (String.compare (br_key x) (br_key y)) eqn:Hc; [|done|by destruct (String.compare (br_key y) (br_key x))].
      destruct Hne. apply String.compare_eq_iff in Hc. done.
Qed.

Lemma newest_first_ordered l : ordered_by (newest_first l).
Proof. induction l as [|x l IH]; simpl; [constructor|]. by apply insert_newest_ordered. Qed.

(** With distinct keys, what stands before a record is what is newer. *)
Lemma ordered_before l1 r l2 :
  ordered_by (l1 ++ r :: l2) -> NoDup (map br_key (l1 ++ r :: l2)) ->
  (forall x, x ∈ l1 -> newer x r = true) /\ (forall x, x ∈ r :: l2 -> newer x r = false).
Proof.
  unfold ordered_by. rewrite StronglySorted_app. intros (Hcross & _ & Htail) Hnd. rewrite map_app in Hnd. apply NoDup_app in Hnd as (_ & Hnd & _). split.
  - intros x Hx. destruct (newer_total x r) as [|Hr]; [|done|].
    + intros Heq. apply (Hnd (br_key x)); [by apply list_elem_of_fmap_2|]. simpl. rewrite Heq. apply list_elem_of_here.
    + rewrite (Hcross x r) in Hr; [done|done|apply list_elem_of_here].
  - intros x [->|Hx]%elem_of_cons; [apply newer_irrefl|]. apply StronglySorted_inv in Htail as [_ Htail]. rewrite Forall_forall in Htail. auto.
Qed.

(** Two such orders of the same records are one. *)
Lemma ordered_unique l l' : NoDup (map br_key l) -> ordered_by l' -> ordered_by l -> l' ≡ₚ l -> l' = l.
Proof.
  revert l'. induction l as [|x l IH]; intros l' Hnd Ho' Ho Hp; [by apply Permutation_nil_r in Hp|].
  destruct l' as [|y l']; [by apply Permutation_nil_l in Hp|].
  apply StronglySorted_inv in Ho' as [Ho1 Hy], Ho as [Ho2 Hx]. rewrite Forall_forall in *.
  assert (Hxy : br_key x = br_key y).
  { destruct (decide (br_key x = br_key y)) as [|Hne]; [done|].
    assert (Hxin : x ∈ y :: l') by (rewrite Hp; apply list_elem_of_here). assert (Hyin : y ∈ x :: l) by (rewrite <- Hp; apply list_elem_of_here).
    apply elem_of_cons in Hxin as [->|Hxin]; [done|]. apply elem_of_cons in Hyin as [->|Hyin]; [done|].
    specialize (Hy x Hxin). specialize (Hx y Hyin). destruct (newer_total x y Hne); congruence. }
  assert (Heq : x = y).
  { assert (Hyin : y ∈ x :: l) by (rewrite <- Hp; apply list_elem_of_here). apply elem_of_cons in Hyin as [->|Hyin]; [done|].
    apply NoDup_cons in Hnd as [Hnd _]. destruct Hnd. rewrite Hxy. by apply list_elem_of_fmap_2. }
  subst y. f_equal. apply Permutation_cons_inv in Hp. apply NoDup_cons in Hnd as [_ Hnd]. by apply IH.
Qed.

(** ** The keepers of a tier *)

Section Tier.
Variable period_of : Z -> list Z.
Abbreviation period r := (period_of (br_created_at r)).

(** The records that are the first of their period, past the periods already [seen]. *)
Fixpoint firsts (seen : gset (list Z)) (l : list BackupRecord) : list BackupRecord :=
  match l with
  | [] => []
  | r :: l => if decide (period r ∈ seen) then firsts seen l else r :: firsts ({[period r]} ∪ seen) l
  end.

Abbreviation periods l := (list_to_set (map (fun r => period r) l) : gset (list Z)).

Lemma fold_setdefault l d :
  fold_left (fun d r => setdefault (period r) (br_key r) d) l d
  = d ++ map (fun r => (period r, br_key r)) (firsts (list_to_set d.*1) l).
Proof.
  revert d. induction l as [|r l IH]; intros d; simpl; [by rewrite app_nil_r|]. rewrite IH. unfold setdefault.
  destruct (od_get (period r) d) as [v|] eqn:Hd; simpl.
  - rewrite decide_True; [done|]. apply elem_of_list_to_set. clear -Hd. induction d as [|[k x] d IH]; simpl in *; [done|].
    case_decide; [subst; apply list_elem_of_here|]. by apply list_elem_of_further, IH.
  - rewrite decide_False.
    + rewrite <- app_assoc. simpl. do 4 f_equal. rewrite fmap_app, list_to_set_app_L. simpl. set_solver.
    + rewrite elem_of_list_to_set. clear -Hd. induction d as [|[k x] d IH]; simpl in *; [apply not_elem_of_nil|].
      case_decide; [done|]. apply not_elem_of_cons. split; [done|auto].
Qed.

Lemma firsts_app seen l1 l2 : firsts seen (l1 ++ l2) = firsts seen l1 ++ firsts (periods l1 ∪ seen) l2.
Proof.
  revert seen. induction l1 as [|r l1 IH]; intros seen; simpl; [by rewrite union_empty_l_L|]. case_decide as Hr.
  - rewrite IH. do 2 f_equal. set_solver.
  - simpl. rewrite IH. do 3 f_equal. set_solver.
Qed.

Lemma firsts_count seen l : length (firsts seen l) = size (periods l ∖ seen).
Proof.
  revert seen. induction l as [|r l IH]; intros seen; simpl.
  { replace (∅ ∖ seen) with (∅ : gset (list Z)) by set_solver. by rewrite size_empty. }
  case_decide as Hr; simpl; rewrite IH.
  - f_equal. set_solver.
  - assert (Hdisj : {[period r]} ## periods l ∖ ({[period r]} ∪ seen)) by set_solver.
    pose proof (size_union _ _ Hdisj) as Hsize. rewrite size_singleton in Hsize. etrans; [symmetry; exact Hsize|]. f_equal.
    apply set_eq. intros x. destruct (decide (x = period r)); set_solver.
Qed.

Lemma firsts_subseteq seen l r : r ∈ firsts seen l -> r ∈ l.
Proof.
  revert seen. induction l as [|x l IH]; intros seen; simpl; [done|]. case_decide; [|rewrite elem_of_cons; intros [->|Hr]; [apply list_elem_of_here|]].
  all: intros; apply list_elem_of_further; eauto.
Qed.

(** A record is among the first [n] of them when it is the first of its period and fewer than [n]
    periods stand before it. *)
Lemma firsts_take n l1 r l2 :
  NoDup (map br_key (l1 ++ r :: l2)) ->
  (br_key r ∈ map br_key (take n (firsts ∅ (l1 ++ r :: l2))) <-> ~ (period r ∈ periods l1) /\ (size (periods l1) < n)%nat).
Proof.
  intros Hnd. rewrite firsts_app, union_empty_r_L. simpl. rewrite take_app, map_app, elem_of_app, firsts_count, difference_empty_L.
  rewrite map_app in Hnd. simpl in Hnd. apply NoDup_app in Hnd as (Hnd1 & Hdisj & [Hr Hnd2]%NoDup_cons).
  assert (Hno1 : forall k, ~ (br_key r ∈ map br_key (take k (firsts ∅ l1)))).
  { intros k Hin. apply list_elem_of_fmap in Hin as (x & Hk & Hx). apply elem_of_take in Hx as (idx & Hx%list_elem_of_lookup_2%firsts_subseteq & _).
    apply (Hdisj (br_key x)); [by apply list_elem_of_fmap_2|]. rewrite <- Hk. apply list_elem_of_here. }
  assert (Hno2 : forall k seen, ~ (br_key r ∈ map br_key (take k (firsts seen l2)))).
  { intros k seen Hin. apply list_elem_of_fmap in Hin as (x & Hk & Hx). apply elem_of_take in Hx as (idx & Hx%list_elem_of_lookup_2%firsts_subseteq & _).
    apply Hr. rewrite Hk. by apply list_elem_of_fmap_2. }
  case_decide as Hp.
  - split; [intros [H|H]; [by apply Hno1 in H|by apply Hno2 in H]|]. by intros [].
  - split.
    + intros [H|H]; [by apply Hno1 in H|]. split; [done|]. destruct (n - size (periods l1))%nat eqn:Hn; [by apply elem_of_nil in H|lia].
    + intros [_ Hlt]. right. destruct (n - size (periods l1))%nat eqn:Hn; [lia|]. apply list_elem_of_here.
Qed.
End Tier.

(** ** What is kept *)

(** What a tier is for: the newest backup of each of the most recent [n] periods. *)
Definition kept_by (period_of : Z -> list Z) (n : nat) (records : list BackupRecord) (r : BackupRecord) : Prop :=
  (forall x, x ∈ records -> period_of (br_created_at x) = period_of (br_created_at r) -> newer x r = false)
  /\ (size (list_to_set (map (fun x => period_of (br_created_at x)) (List.filter (fun x => newer x r) records)) : gset (list Z)) < n)%nat.

Definition kept (policy : GfsRetention) (records : list BackupRecord) (r : BackupRecord) : Prop :=
  kept_by day_key (gfs_daily policy) records r \/ kept_by week_key (gfs_weekly policy) records r
  \/ kept_by month_key (gfs_monthly policy) records r.

Lemma filter_newer_before l1 r l2 :
  ordered_by (l1 ++ r :: l2) -> NoDup (map br_key (l1 ++ r :: l2)) -> List.filter (fun x => newer x r) (l1 ++ r :: l2) = l1.
Proof.
  intros Ho Hnd. destruct (ordered_before l1 r l2 Ho Hnd) as [H1 H2]. rewrite List.filter_app.
  replace (List.filter (fun x => newer x r) l1) with l1.
  - replace (List.filter (fun x => newer x r) (r :: l2)) with (@nil BackupRecord); [apply app_nil_r|].
    clear -H2. induction (r :: l2) as [|x l IH]; [done|]. simpl. rewrite (H2 x) by apply list_elem_of_here. apply IH.
    intros y Hy. by apply H2, list_elem_of_further.
  - clear -H1. induction l1 as [|x l IH]; [done|]. simpl. rewrite (H1 x) by apply list_elem_of_here. f_equal. apply IH.
    intros y Hy. by apply H1, list_elem_of_further.
Qed.

Lemma periods_perm (f : BackupRecord -> list Z) l l' :
  l ≡ₚ l' -> (list_to_set (map f l) : gset (list Z)) = list_to_set (map f l').
Proof. intros Hp. apply list_to_set_perm_L. by apply Permutation_map. Qed.

Lemma filter_perm {A} (f : A -> bool) l l' : l ≡ₚ l' -> List.filter f l ≡ₚ List.filter f l'.
Proof.
  induction 1 as [|x l l' H IH|x y l|l1 l2 l3 _ IH1 _ IH2]; simpl; [done| | |by etrans].
  - destruct (f x); [by rewrite IH|done].
  - destruct (f x), (f y); try done. apply perm_swap.
Qed.

Lemma kept_by_perm f n l l' r : l ≡ₚ l' -> kept_by f n l r -> kept_by f n l' r.
Proof.
  intros Hp [H1 H2]. split.
  - intros x Hx. apply H1. by rewrite Hp.
  - by rewrite (periods_perm _ _ _ (filter_perm _ _ _ Hp)) in H2.
Qed.

Lemma period_keepers_spec f n ordered r :
  ordered_by ordered -> NoDup (map br_key ordered) -> r ∈ ordered -> br_key r ∈ period_keepers ordered f n <-> kept_by f n ordered r.
Proof.
  intros Ho Hnd Hr. unfold period_keepers. rewrite fold_setdefault. simpl. rewrite elem_of_list_to_set.
  apply list_elem_of_split in Hr as (l1 & l2 & ->).
  assert (Hkeys : (take n (map (fun x => (f (br_created_at x), br_key x)) (firsts f ∅ (l1 ++ r :: l2)))).*2
    = map br_key (take n (firsts f ∅ (l1 ++ r :: l2)))).
  { rewrite <- fmap_take. change (map ?g ?l) with (g <$> l). rewrite <- list_fmap_compose. done. }
  rewrite Hkeys, firsts_take by done. unfold kept_by. rewrite (filter_newer_before l1 r l2 Ho Hnd).
  destruct (ordered_before l1 r l2 Ho Hnd) as [H1 H2]. split; intros [Ha Hb]; (split; [|done]).
  - intros x [Hx|Hx]%elem_of_app Hp; [|by apply H2]. destruct Ha. rewrite elem_of_list_to_set, <- Hp. by apply (list_elem_of_fmap_2 (fun x => f (br_created_at x))).
  - rewrite elem_of_list_to_set. intros Hin. apply (list_elem_of_fmap (fun x => f (br_created_at x))) in Hin as (x & Hp & Hx).
    specialize (H1 x Hx). rewrite (Ha x) in H1; [done|apply elem_of_app; by left|done].
Qed.

Lemma elem_of_filter_bool {A} (f : A -> bool) x l : x ∈ List.filter f l <-> x ∈ l /\ f x = true.
Proof. by rewrite !list_elem_of_In, filter_In. Qed.

Lemma select_keep policy records r :
  NoDup (map br_key records) -> r ∈ rd_keep (select policy records) <-> r ∈ records /\ kept policy records r.
Proof.
  intros Hnd. pose proof (newest_first_perm records) as Hp.
  assert (Hnd' : NoDup (map br_key (newest_first records))) by (by rewrite Hp).
  assert (Hel : r ∈ newest_first records <-> r ∈ records) by (by rewrite Hp).
  unfold select. cbn [rd_keep]. rewrite elem_of_filter_bool, bool_decide_eq_true, Hel.
  split; intros [Hr Hk]; (split; [done|]); apply Hel in Hr;
    rewrite !elem_of_union, !period_keepers_spec in * by (done || apply newest_first_ordered); unfold kept in *.
  - destruct Hk as [[Hk|Hk]|Hk]; eauto using kept_by_perm.
  - symmetry in Hp. destruct Hk as [Hk|[Hk|Hk]]; eauto using kept_by_perm.
Qed.

Lemma select_delete policy records r :
  NoDup (map br_key records) -> r ∈ rd_delete (select policy records) <-> r ∈ records /\ ~ kept policy records r.
Proof.
  intros Hnd. pose proof (select_keep policy records r Hnd) as Hk.
  assert (Hel : r ∈ newest_first records <-> r ∈ records) by (by rewrite (newest_first_perm records)).
  unfold select in *. cbn [rd_keep rd_delete] in *. rewrite elem_of_filter_bool in *. rewrite negb_true_iff, bool_decide_eq_false.
  rewrite bool_decide_eq_true in Hk. tauto.
Qed.

Lemma filter_split {A} (f : A -> bool) l : List.filter f l ++ List.filter (fun x => negb (f x)) l ≡ₚ l.
Proof.
  induction l as [|x l IH]; [done|]. simpl. destruct (f x); simpl; [by rewrite IH|]. by rewrite <- Permutation_middle, IH.
Qed.

Lemma filter_ordered f l : ordered_by l -> ordered_by (List.filter f l).
Proof.
  induction 1 as [|x l Hl IH Hx]; simpl; [constructor|]. destruct (f x); [|done]. constructor; [done|].
  rewrite Forall_forall in *. intros y [Hy _]%elem_of_filter_bool. auto.
Qed.

(** (C40) A backup is kept exactly when, for one of the three tiers, it is the newest of its period and
    fewer periods than the tier keeps have a newer backup; every other backup is to be deleted, and the
    two lists, newest first, are the backups given. *)
Theorem select_exact policy records :
  NoDup (map br_key records) ->
  (forall r, r ∈ records -> (r ∈ rd_keep (select policy records) <-> kept policy records r)
                         /\ (r ∈ rd_delete (select policy records) <-> ~ kept policy records r))
  /\ rd_keep (select policy records) ++ rd_delete (select policy records) ≡ₚ records
  /\ ordered_by (rd_keep (select policy records)) /\ ordered_by (rd_delete (select policy records)).
Proof.
  intros Hnd. split_and!.
  - intros r Hr. rewrite select_keep, select_delete by done. tauto.
  - unfold select. cbn [rd_keep rd_delete]. rewrite filter_split. apply newest_first_perm.
  - apply filter_ordered, newest_first_ordered.
  - apply filter_ordered, newest_first_ordered.
Qed.

Lemma period_keepers_size ordered f n : (size (period_keepers ordered f n) <= n)%nat.
Proof.
  unfold period_keepers. generalize (fold_left (fun d r => setdefault (f (br_created_at r)) (br_key r) d) ordered []). intros d.
  assert (Hs : forall l : list string, (size (list_to_set l : gset string) <= length l)%nat).
  { induction l as [|x l IH]; [by rewrite list_to_set_nil, size_empty|]. rewrite list_to_set_cons, size_union_alt, size_singleton. simpl.
    assert (size (list_to_set l ∖ {[x]} : gset string) <= size (list_to_set l : gset string))%nat by (apply subseteq_size; set_solver). lia. }
  etrans; [apply Hs|]. rewrite length_fmap, length_take. lia.
Qed.

(** Rotation keeps at most as many backups as its three tiers name. *)
Theorem select_bounded policy records :
  NoDup (map br_key records) ->
  (length (rd_keep (select policy records)) <= gfs_daily policy + gfs_weekly policy + gfs_monthly policy)%nat.
Proof.
  intros Hnd. unfold select. cbn [rd_keep]. set (keys := _ ∪ _ ∪ _).
  assert (Hkeys : (size keys <= gfs_daily policy + gfs_weekly policy + gfs_monthly policy)%nat).
  { subst keys. rewrite !size_union_alt.
    pose proof (period_keepers_size (newest_first records) day_key (gfs_daily policy)).
    assert (Hle : forall X Y : gset string, (size (X ∖ Y) <= size X)%nat) by (intros; apply subseteq_size; set_solver).
    pose proof (Hle (period_keepers (newest_first records) week_key (gfs_weekly policy)) (period_keepers (newest_first records) day_key (gfs_daily policy))).
    pose proof (period_keepers_size (newest_first records) week_key (gfs_weekly policy)).
    pose proof (period_keepers_size (newest_first records) month_key (gfs_monthly policy)).
    pose proof (Hle (period_keepers (newest_first records) month_key (gfs_monthly policy))
      (period_keepers (newest_first records) day_key (gfs_daily policy) ∪ period_keepers (newest_first records) week_key (gfs_weekly policy))). lia. }
  etrans; [|exact Hkeys].
  assert (Hnd' : NoDup (map br_key (newest_first records))) by (by rewrite newest_first_perm).
  clearbody keys. generalize dependent (newest_first records). intros l Hl. rewrite <- (length_map br_key).
  rewrite <- (size_list_to_set (C := gset string)).
  - apply subseteq_size. intros k Hk. rewrite elem_of_list_to_set in Hk. apply list_elem_of_fmap in Hk as (r & -> & Hr).
    apply elem_of_filter_bool in Hr as [_ Hr]. by apply bool_decide_eq_true in Hr.
  - clear -Hl. induction l as [|r l IH]; simpl in *; [constructor|]. apply NoDup_cons in Hl as [Hr Hl]. destruct (bool_decide _); simpl; [|auto].
    constructor; [|auto]. intros Hin. apply Hr. apply list_elem_of_fmap in Hin as (x & -> & Hx). apply elem_of_filter_bool in Hx as [Hx _].
    by apply list_elem_of_fmap_2.
Qed.

Lemma kept_by_subset f n records records' r :
  NoDup (map br_key records) -> (forall x, x ∈ records' -> x ∈ records) -> kept_by f n records r -> kept_by f n records' r.
Proof.
  intros Hnd Hsub [H1 H2]. split; [auto|]. eapply Nat.le_lt_trans; [|exact H2]. apply subseteq_size. intros p Hp.
  rewrite elem_of_list_to_set in *. apply (list_elem_of_fmap (fun x => f (br_created_at x))) in Hp as (x & -> & Hx).
  apply (list_elem_of_fmap_2 (fun x => f (br_created_at x))). apply elem_of_filter_bool in Hx as [Hx Hn]. apply elem_of_filter_bool. auto.
Qed.

Lemma keys_filter f (l : list BackupRecord) : NoDup (map br_key l) -> NoDup (map br_key (List.filter f l)).
Proof.
  induction l as [|r l IH]; simpl; [done|]. intros [Hr Hl]%NoDup_cons. destruct (f r); simpl; [|auto]. constructor; [|auto].
  intros Hin. apply Hr. apply list_elem_of_fmap in Hin as (x & -> & Hx). apply elem_of_filter_bool in Hx as [Hx _]. by apply list_elem_of_fmap_2.
Qed.

(** A prune settles: run again on what it kept, it keeps all of it and deletes nothing; and it never
    deletes the newest backup. *)
Theorem select_settles policy records :
  NoDup (map br_key records) -> (0 < gfs_daily policy)%nat ->
  rd_keep (select policy (rd_keep (select policy records))) = rd_keep (select policy records)
  /\ rd_delete (select policy (rd_keep (select policy records))) = []
  /\ forall r, r ∈ records -> (forall x, x ∈ records -> newer x r = false) -> r ∈ rd_keep (select policy records).
Proof.
  intros Hnd Hd. set (keep := rd_keep (select policy records)).
  assert (Hndk : NoDup (map br_key keep)).
  { apply keys_filter. by rewrite newest_first_perm. }
  assert (Hall : forall r, r ∈ keep -> kept policy keep r).
  { intros r Hr. assert (Hk := Hr). apply select_keep in Hk as [_ Hk]; [|done].
    assert (Hsub : forall x, x ∈ keep -> x ∈ records) by (intros x Hx; by apply select_keep in Hx as [Hx _]).
    destruct Hk as [Hk|[Hk|Hk]]; unfold kept; eauto using kept_by_subset. }
  assert (Hdel : rd_delete (select policy keep) = []).
  { destruct (rd_delete (select policy keep)) as [|r l] eqn:Hl; [done|].
    assert (Hr : r ∈ rd_delete (select policy keep)) by (rewrite Hl; apply list_elem_of_here).
    apply select_delete in Hr as [Hr Hn]; [|done]. by destruct (Hn (Hall r Hr)). }
  split_and!; [|done|].
  - assert (Hp : rd_keep (select policy keep) ≡ₚ keep).
    { etrans; [|apply newest_first_perm]. rewrite <- (app_nil_r (rd_keep _)), <- Hdel. apply filter_split. }
    eapply (ordered_unique _ _ Hndk); [apply filter_ordered, newest_first_ordered..|done].
  - intros r Hr Hnew. apply select_keep; [done|]. split; [done|]. left. split; [auto|].
    replace (List.filter (fun x => newer x r) records) with (@nil BackupRecord); [by cbn [map]; rewrite list_to_set_nil, size_empty|].
    symmetry. clear -Hnew. induction records as [|x l IH]; [done|]. simpl. rewrite (Hnew x) by apply list_elem_of_here. apply IH.
    intros y Hy. by apply Hnew, list_elem_of_further.
Qed.

(** Six backups over two weeks of 2025, one of each of the last three days kept. *)
Definition on_day (k : string) (ordinal : Z) : BackupRecord := mkBackupRecord k ((ordinal - 1) * DAY) 1.
Definition fortnight : list BackupRecord :=
  [on_day "a" 739252; on_day "b" 739253; on_day "c" 739259; on_day "d" 739260; on_day "e" 739261; on_day "f" 739262].
Definition three_one_one : GfsRetention := mkGfs 3 1 1.

Lemma fortnight_keys : NoDup (map br_key fortnight).
Proof. apply (bool_decide_unpack _). vm_compute. exact I. Defined.

Lemma select_exact_witness :
  map br_key (rd_keep (select three_one_one fortnight)) = ["f"; "e"; "d"]%string
  /\ rd_keep (select three_one_one fortnight) ++ rd_delete (select three_one_one fortnight) ≡ₚ fortnight.
Proof. split; [vm_compute; reflexivity|]. apply (select_exact three_one_one fortnight). exact fortnight_keys. Defined.

Lemma select_bounded_witness : (length (rd_keep (select three_one_one fortnight)) <= 3 + 1 + 1)%nat.
Proof. apply (select_bounded three_one_one fortnight). exact fortnight_keys. Defined.

Lemma select_settles_witness :
  rd_delete (select three_one_one (rd_keep (select three_one_one fortnight))) = [].
Proof. apply (select_settles three_one_one fortnight); [exact fortnight_keys|simpl; lia]. Defined.
