(* ===== verification/Reschedule.v ===== *)
(** * The next fire of a scheduled job

    [src/packages/scheduled-jobs/src/threetears/scheduled_jobs/reschedule.py]: [compute_next_fire_at]
    and the branch of each schedule type.

    An instant is its microseconds since the start of year 1 in UTC; a [datetime] with the zone of the
    schedule is a wall clock reading in microseconds and its fold. A zone is its offsets and the instants
    at which they change, read the way [zoneinfo] reads them: two readings of one zone are compared and
    subtracted by the wall clock, and a reading that [datetime.combine] or an addition makes has fold 0.
    What the module takes from elsewhere is a parameter: the zone database, the parser of ISO dates, the
    cron trigger and the random draw. *)

From Stdlib Require Import Ascii String Bool List NArith ZArith Lia.
From stdpp Require Import base list gmap strings pretty.
From S2P Require Import Prelude.

Open Scope Z_scope.

(** ** Dates and zones *)

Definition SECOND : Z := 1000000.
Definition MINUTE : Z := 60 * SECOND.
Definition HOUR : Z := 60 * MINUTE.
Definition DAY_SPAN : Z := 24 * HOUR.

(** [datetime.max], in the same unit: year 9999 ends after 3652059 days. *)
Definition DATE_END : Z := 3652059 * DAY_SPAN.

(** [SchedTypeError] is the error of a value of the wrong type. *)
Inductive sched_error :=
| SchedValueError
| SchedKeyError (key : string)
| SchedTypeError
| SchedOverflowError.

(** A date outside the range of [datetime] is an [OverflowError]. *)
Definition dated (t : Z) : result Z sched_error :=
  if (0 <=? t) && (t <? DATE_END) then Ok t else Err SchedOverflowError.

(** The offset before the first change, and each change with the offset it brings. *)
Record zone := mkZone { zone_first : Z; zone_changes : list (Z * Z) }.

(** The offset and the fold of an instant; [prev] is the last change before it and the offset it ended. *)
Definition fold_at (prev : option (Z * Z)) (off t : Z) : bool :=
  match prev with Some (u, before) => t - u <? before - off | None => false end.

Fixpoint locate (prev : option (Z * Z)) (off : Z) (changes : list (Z * Z)) (t : Z) : Z * bool :=
  match changes with
  | (u, o) :: rest => if u <=? t then locate (Some (u, off)) o rest t else (off, fold_at prev off t)
  | [] => (off, fold_at prev off t)
  end.

(** The offset of a wall clock reading. *)
Fixpoint offset_at (fold : bool) (off : Z) (changes : list (Z * Z)) (w : Z) : Z :=
  match changes with
  | (u, o) :: rest =>
      let edge := u + if fold then Z.min off o else Z.max off o in
      if edge <=? w then offset_at fold o rest w else off
  | [] => off
  end.

(** [t.astimezone(tz)] of an instant, and a reading's way back. *)
Definition to_local (tz : zone) (t : Z) : result (Z * bool) sched_error :=
  let '(off, fold) := locate None (zone_first tz) (zone_changes tz) t in
  do! w <- dated (t + off);; Ok (w, fold).

Definition ensure_utc (tz : zone) (w : Z) (fold : bool) : result Z sched_error :=
  dated (w - offset_at fold (zone_first tz) (zone_changes tz) w).

(** [datetime.combine(date, time(hour, minute), tzinfo)]. *)
Definition time_of (hour minute : Z) : result Z sched_error :=
  if (0 <=? hour) && (hour <=? 23) && (0 <=? minute) && (minute <=? 59) then Ok (hour * HOUR + minute * MINUTE)
  else Err SchedValueError.

Definition date_of (w : Z) : Z := w / DAY_SPAN.
Definition hour_of (w : Z) : Z := (w mod DAY_SPAN) / HOUR.

(** A date moved by some days. *)
Definition date_plus (d n : Z) : result Z sched_error :=
  do! t <- dated ((d + n) * DAY_SPAN);; Ok (d + n).

Definition combine (d time : Z) : Z := d * DAY_SPAN + time.

(** ** Configuration *)

(** A value of [schedule_config]: a float as the integer [int] makes of it and its text. *)
Inductive cfg_value :=
| VNone
| VBool (b : bool)
| VInt (n : Z)
| VFloat (trunc : Z) (repr : string)
| VStr (s : string)
| VOther (repr : string).

Definition int_of (v : cfg_value) : result Z sched_error :=
  match v with
  | VBool b => Ok (if b then 1 else 0)
  | VInt n => Ok n
  | VFloat trunc _ => Ok trunc
  | VStr s => match py_int s with Some n => Ok n | None => Err SchedValueError end
  | VNone | VOther _ => Err SchedTypeError
  end.

Definition str_of_value (v : cfg_value) : string :=
  match v with
  | VNone => "None"
  | VBool b => if b then "True" else "False"
  | VInt n => pretty n
  | VFloat _ repr => repr
  | VStr s => s
  | VOther repr => repr
  end%string.

Abbreviation sched_config := (gmap string cfg_value).

(** [config[key]] and [int(config[key])]. *)
Definition cfg_get (key : string) (config : sched_config) : result cfg_value sched_error :=
  match config !! key with Some v => Ok v | None => Err (SchedKeyError key) end.

Definition cfg_int (key : string) (config : sched_config) : result Z sched_error :=
  do! v <- cfg_get key config;; int_of v.

(** [int(config.get(key, default))]. *)
Definition cfg_int_or (key : string) (dflt : Z) (config : sched_config) : result Z sched_error :=
  match config !! key with Some v => int_of v | None => Ok dflt end.

Definition DEFAULT_TZ : string := "UTC".

(** ** Delays *)

Definition lower_char (c : ascii) : ascii :=
  let n := N_of_ascii c in if ((65 <=? n) && (n <=? 90))%N then ascii_of_N (n + 32) else c.

(** [_parse_delay]. *)
Definition parse_delay (delay : string) : result Z sched_error :=
  match str_rev delay with
  | EmptyString => Err SchedValueError
  | String last rest =>
      match py_int (str_rev rest) with
      | None => Err SchedValueError
      | Some value =>
          match lower_char last with
          | "s"%char => Ok (value * SECOND)
          | "m"%char => Ok (value * MINUTE)
          | "h"%char => Ok (value * HOUR)
          | "d"%char => Ok (value * DAY_SPAN)
          | _ => Err SchedValueError
          end
      end
  end.

(** ** Fixed steps *)

(** [_next_fixed_step]; [//] of two [timedelta]s rounds down. *)
Definition next_fixed_step (step : Z) (missed_fire_policy : string) (current_fire_at : option Z) (now : Z) : result Z sched_error :=
  match current_fire_at with
  | None => dated (now + step)
  | Some anchor =>
      if String.eqb missed_fire_policy "catch_up" then dated (anchor + step)
      else
        let steps := if now <? anchor then 1 else (now - anchor) / step + 1 in
        dated (anchor + step * steps)
  end.

Definition next_every_n_hours (config : sched_config) (missed_fire_policy : string) (current_fire_at : option Z) (now : Z) : result Z sched_error :=
  do! n <- cfg_int "n" config;;
  raise_if! n <=? 0 with SchedValueError;;
  next_fixed_step (n * HOUR) missed_fire_policy current_fire_at now.

Definition next_interval (config : sched_config) (missed_fire_policy : string) (current_fire_at : option Z) (now : Z) : result Z sched_error :=
  do! seconds <- cfg_int "seconds" config;;
  raise_if! seconds <=? 0 with SchedValueError;;
  next_fixed_step (seconds * SECOND) missed_fire_policy current_fire_at now.

(** ** Windows *)

(** [timedelta / int] rounds half to even. *)
Definition div_round (a b : Z) : Z :=
  let q := a / b in
  let r := a mod b in
  if (b <? 2 * r) || ((b =? 2 * r) && Z.odd q) then q + 1 else q.

(** [_window_bounds]. *)
Definition window_bounds (start_hour end_hour now_local : Z) : result (Z * Z) sched_error :=
  if start_hour <? end_hour then
    do! s <- time_of start_hour 0;;
    do! e <- time_of end_hour 0;;
    Ok (combine (date_of now_local) s, combine (date_of now_local) e)
  else
    do! anchor_date <- (if hour_of now_local <? end_hour then date_plus (date_of now_local) (-1) else Ok (date_of now_local));;
    do! s <- time_of start_hour 0;;
    do! next <- date_plus anchor_date 1;;
    do! e <- time_of end_hour 0;;
    Ok (combine anchor_date s, combine next e).

(** [_select_slot], from slot [index] on with [slots] of them to try. *)
Fixpoint select_slot (slots : nat) (index : Z) (start_dt slot_span now_local : Z) (already_fired : bool) : option (Z * Z) :=
  match slots with
  | O => None
  | S slots =>
      let slot_start := start_dt + slot_span * index in
      let slot_end := slot_start + slot_span in
      let boundary := if already_fired then slot_start else slot_end in
      if now_local <? boundary then Some (slot_start, slot_end)
      else select_slot slots (index + 1) start_dt slot_span now_local already_fired
  end.

Section Schedules.
(** The zone database: [ZoneInfo(key)]. *)
Variable ZoneInfo : string -> result zone sched_error.
(** [datetime.fromisoformat] then [_ensure_utc]. *)
Variable fromisoformat : string -> result Z sched_error.
(** [CronTrigger.from_crontab(expr, tz).get_next_fire_time(anchor, anchor)]. *)
Variable cron_next : string -> zone -> Z -> result (option Z) sched_error.
(** [timedelta(seconds=random.uniform(0.0, span))]. *)
Variable draw : Z -> Z.

(** [_tz]. *)
Definition tz_of (config : sched_config) : result zone sched_error :=
  match config !! "tz" with
  | None => ZoneInfo DEFAULT_TZ
  | Some (VStr key) => ZoneInfo key
  | Some _ => Err SchedTypeError
  end.

(** [_next_daily_at]. *)
Definition next_daily_at (config : sched_config) (missed_fire_policy : string) (current_fire_at : option Z) (now : Z) : result Z sched_error :=
  do! hour <- cfg_int "hour" config;;
  do! minute <- cfg_int_or "minute" 0 config;;
  do! tz <- tz_of config;;
  do! now_reading <- to_local tz now;;
  let now_local := now_reading.1 in
  do! time <- time_of hour minute;;
  let candidate_local := combine (date_of now_local) time in
  match (if String.eqb missed_fire_policy "catch_up" then current_fire_at else None) with
  | Some current =>
      do! current_reading <- to_local tz current;;
      do! next <- date_plus (date_of current_reading.1) 1;;
      ensure_utc tz (combine next time) false
  | None =>
      if candidate_local <=? now_local then
        do! next <- date_plus (date_of now_local) 1;;
        ensure_utc tz (combine next time) false
      else ensure_utc tz candidate_local false
  end.

(** The slot of the next fire: the window's, or the first one a day after it. *)
Definition random_slot (start_dt end_dt : Z) (fires_per_day : Z) (now_local : Z) (already_fired : bool) : result (Z * Z) sched_error :=
  let slot_span := div_round (end_dt - start_dt) fires_per_day in
  match select_slot (Z.to_nat fires_per_day) 0 start_dt slot_span now_local already_fired with
  | Some slot => Ok slot
  | None =>
      do! next_start <- dated (start_dt + DAY_SPAN);;
      do! next_end <- dated (next_start + slot_span);;
      Ok (next_start, next_end)
  end.

(** The reading drawn in a slot, not before now. *)
Definition random_reading (slot_start slot_end now_local : Z) : Z :=
  let floor_local := Z.max slot_start now_local in
  if slot_end - floor_local <=? 0 then slot_start + draw (slot_end - slot_start)
  else floor_local + draw (slot_end - floor_local).

(** [_next_random_within_window]. *)
Definition next_random_within_window (config : sched_config) (last_fired_at : option Z) (now : Z) : result Z sched_error :=
  do! start_hour <- cfg_int "start_hour" config;;
  do! end_hour <- cfg_int "end_hour" config;;
  raise_if! start_hour =? end_hour with SchedValueError;;
  do! fires_per_day <- cfg_int_or "fires_per_day" 1 config;;
  raise_if! fires_per_day <=? 0 with SchedValueError;;
  do! tz <- tz_of config;;
  do! now_reading <- to_local tz now;;
  let now_local := now_reading.1 in
  do! bounds <- window_bounds start_hour end_hour now_local;;
  do! slot <- random_slot bounds.1 bounds.2 fires_per_day now_local (isSome last_fired_at);;
  ensure_utc tz (random_reading slot.1 slot.2 now_local) false.

(** [_next_one_shot_at]. *)
Definition next_one_shot_at (config : sched_config) (last_fired_at : option Z) (now : Z) : result (option Z) sched_error :=
  if isSome last_fired_at then Ok None
  else
    do! iso <- cfg_get "fire_at_iso" config;;
    match iso with
    | VStr iso => do! fire_at <- fromisoformat iso;; Ok (Some (if fire_at <=? now then now else fire_at))
    | _ => Err SchedTypeError
    end.

(** [_next_cron]. *)
Definition next_cron (config : sched_config) (missed_fire_policy : string) (current_fire_at : option Z) (now : Z) : result Z sched_error :=
  do! expr <- cfg_get "expr" config;;
  do! tz <- tz_of config;;
  match expr with
  | VStr expr =>
      let anchor := match (if String.eqb missed_fire_policy "catch_up" then current_fire_at else None) with
                    | Some current => current
                    | None => now
                    end in
      do! fire_time <- cron_next expr tz anchor;;
      match fire_time with Some t => Ok t | None => Err SchedValueError end
  | _ => Err SchedTypeError
  end.

(** [_next_relative_delay]. *)
Definition next_relative_delay (config : sched_config) (last_fired_at : option Z) (now : Z) : result (option Z) sched_error :=
  if isSome last_fired_at then Ok None
  else
    do! v <- cfg_get "delay" config;;
    do! delay <- parse_delay (str_of_value v);;
    do! t <- dated (now + delay);; Ok (Some t).

Definition some_date (r : result Z sched_error) : result (option Z) sched_error := do! t <- r;; Ok (Some t).

(** [compute_next_fire_at]. *)
Definition compute_next_fire_at (schedule_type : string) (schedule_config : sched_config) (missed_fire_policy : string)
    (last_fired_at : option Z) (now : Z) (current_fire_at : option Z) : result (option Z) sched_error :=
  if String.eqb schedule_type "daily_at" then some_date (next_daily_at schedule_config missed_fire_policy current_fire_at now)
  else if String.eqb schedule_type "every_n_hours" then some_date (next_every_n_hours schedule_config missed_fire_policy current_fire_at now)
  else if String.eqb schedule_type "random_within_window" then some_date (next_random_within_window schedule_config last_fired_at now)
  else if String.eqb schedule_type "one_shot_at" then next_one_shot_at schedule_config last_fired_at now
  else if String.eqb schedule_type "cron" then some_date (next_cron schedule_config missed_fire_policy current_fire_at now)
  else if String.eqb schedule_type "relative_delay" then next_relative_delay schedule_config last_fired_at now
  else if String.eqb schedule_type "interval" then some_date (next_interval schedule_config missed_fire_policy current_fire_at now)
  else Err SchedValueError.

(** ** Fixed steps keep their grid *)

(** The step of a fixed-step schedule. *)
Definition step_of (schedule_type : string) (config : sched_config) : option Z :=
  let positive unit r := match r with Ok n => if n <=? 0 then None else Some (n * unit) | Err _ => None end in
  if String.eqb schedule_type "every_n_hours" then positive HOUR (cfg_int "n" config)
  else if String.eqb schedule_type "interval" then positive SECOND (cfg_int "seconds" config)
  else None.

Lemma dated_Ok t r : dated t = Ok r <-> r = t /\ 0 <= t < DATE_END.
Proof. unfold dated. destruct (Z.leb_spec 0 t), (Z.ltb_spec t DATE_END); simpl; split; intros Ht; destruct_and?; simplify_eq; (done || lia). Qed.

Lemma step_of_compute schedule_type config step policy last now current :
  step_of schedule_type config = Some step ->
  0 < step /\ compute_next_fire_at schedule_type config policy last now current = some_date (next_fixed_step step policy current now).
Proof.
  unfold step_of, compute_next_fire_at, next_every_n_hours, next_interval.
  destruct (String.eqb_spec schedule_type "every_n_hours") as [->|]; [|destruct (String.eqb_spec schedule_type "interval") as [->|]; [|done]]; simpl;
    (destruct (cfg_int _ config) as [count|]; [|done]); destruct (Z.leb_spec count 0); simpl; intros [= <-];
    (split; [unfold HOUR, MINUTE, SECOND; lia|done]).
Qed.

(** The slot a fixed-step schedule is to fire at next. *)
Definition grid_next (step : Z) (policy : string) (current : option Z) (now next : Z) : Prop :=
  match current with
  | None => next = now + step
  | Some anchor =>
      if String.eqb policy "catch_up" then next = anchor + step
      else now < next /\ exists k, 1 <= k /\ next = anchor + k * step /\ forall j, 1 <= j < k -> anchor + j * step <= now
  end.

(** A fixed-step schedule keeps its grid: with an occurrence in flight, coalescing answers the first
    slot after it on its own grid that is still to come, however late the tick and whatever was missed;
    catching up answers the very next slot; with none, the next fire is a step away. The answer is that
    date, or an [OverflowError] when it is not one that [datetime] has. *)
Theorem fixed_step_keeps_grid schedule_type config step policy last now current :
  step_of schedule_type config = Some step ->
  exists next, grid_next step policy current now next
    /\ compute_next_fire_at schedule_type config policy last now current = some_date (dated next).
Proof.
  intros Hs. destruct (step_of_compute _ _ _ policy last now current Hs) as [Hpos ->]. unfold grid_next, next_fixed_step.
  destruct current as [anchor|]; [|by eexists]. destruct (String.eqb policy "catch_up"); [by eexists|].
  eexists. split; [|done]. destruct (Z.ltb_spec now anchor).
  - split; [lia|]. exists 1. split_and!; [lia..|]. intros; lia.
  - pose proof (Z.div_mod (now - anchor) step ltac:(lia)). pose proof (Z.mod_pos_bound (now - anchor) step Hpos).
    pose proof (Z.div_pos (now - anchor) step ltac:(lia) Hpos). split; [nia|]. exists ((now - anchor) / step + 1).
    split_and!; [lia|lia|]. intros j Hj. nia.
Qed.

(** ** Zones *)

(** A zone's changes come in order, and the wall clock readings one repeats or skips end before those
    of the next begin. *)
Fixpoint spaced (u off o : Z) (changes : list (Z * Z)) : Prop :=
  match changes with
  | (u', o') :: rest => u < u' /\ u + Z.max off o <= u' + Z.min o o' /\ spaced u' o o' rest
  | [] => True
  end.

Definition zone_ok (tz : zone) : Prop :=
  match zone_changes tz with (u, o) :: rest => spaced u (zone_first tz) o rest | [] => True end.

(** Past a change, a reading is of an instant at or after it. *)
Lemma offset_at_after u off o rest w : spaced u off o rest -> u + o <= w -> u <= w - offset_at false o rest w.
Proof.
  revert u off o. induction rest as [|[u' o'] rest IH]; intros u off o; simpl; [lia|]. intros (Hu & _ & Hs) Hw.
  destruct (Z.leb_spec (u' + Z.max o o') w); [|lia]. specialize (IH _ _ _ Hs). lia.
Qed.

(** Past a change, an instant that is not a repeated reading reads past what the change repeats. *)
Lemma locate_after u off o rest t f off' :
  spaced u off o rest -> u <= t -> locate (Some (u, off)) o rest t = (off', f) -> f = false -> u + Z.max off o <= t + off'.
Proof.
  revert u off o. induction rest as [|[u' o'] rest IH]; intros u off o; simpl.
  - intros _ Ht [= <- <-]. rewrite Z.ltb_ge. lia.
  - intros (Hu & He & Hs) Ht. destruct (Z.leb_spec u' t) as [Ht'|Ht']; [|intros [= <- <-]; rewrite Z.ltb_ge; lia].
    intros Hl Hf. specialize (IH _ _ _ Hs Ht' Hl Hf). lia.
Qed.

(** A later reading of an instant that is not a repeated one is a later instant. *)
Lemma later_reading tz t w off : zone_ok tz ->
  locate None (zone_first tz) (zone_changes tz) t = (off, false) -> t + off < w ->
  t < w - offset_at false (zone_first tz) (zone_changes tz) w.
Proof.
  unfold zone_ok. generalize (@None (Z * Z)) as prev. destruct tz as [first changes]; simpl. revert first.
  induction changes as [|[u o] rest IH]; intros first prev; simpl; [intros _ [= -> _]; lia|].
  intros Hs Hl Hw. destruct (Z.leb_spec u t) as [Ht|Ht].
  - pose proof (locate_after _ _ _ _ _ _ _ Hs Ht Hl eq_refl). destruct (Z.leb_spec (u + Z.max first o) w); [|lia].
    refine (IH o _ _ Hl Hw). destruct rest as [|[u' o'] rest]; [done|]. apply Hs.
  - injection Hl as -> _. destruct (Z.leb_spec (u + Z.max off o) w) as [Hw'|Hw']; [|lia].
    pose proof (offset_at_after u off o rest w Hs). lia.
Qed.

(** ** A time of day *)

(** The day whose reading at [time] comes first after [now_local]. *)
Definition first_day_after (time now_local d : Z) : Prop := now_local < combine d time <= now_local + DAY_SPAN.

Lemma time_of_Ok hour minute time : time_of hour minute = Ok time -> 0 <= time < DAY_SPAN.
Proof. unfold time_of, DAY_SPAN, HOUR, MINUTE. case_match eqn:Hb; [|done]. intros [= <-]. unfold MINUTE, SECOND in *. lia. Qed.

Lemma candidate_first time w : 0 <= time < DAY_SPAN ->
  first_day_after time w (if combine (date_of w) time <=? w then date_of w + 1 else date_of w).
Proof.
  intros Ht. unfold first_day_after, combine, date_of. pose proof (Z.div_mod w DAY_SPAN ltac:(done)). pose proof (Z.mod_pos_bound w DAY_SPAN ltac:(done)).
  destruct (Z.leb_spec (w / DAY_SPAN * DAY_SPAN + time) w); lia.
Qed.

Lemma date_plus_Ok d k d' : date_plus d k = Ok d' -> d' = d + k.
Proof. unfold date_plus. destruct (dated _); [|done]. by intros [= <-]. Qed.

(** A daily job that coalesces, asked at an instant whose reading is not a repeated one: its next fire is
    still to come, and it is the reading at its time of day on the first day that has it later than now. *)
Theorem daily_at_is_ahead config tz now next last current policy w hour minute time :
  policy <> "catch_up"%string \/ current = None ->
  tz_of config = Ok tz -> zone_ok tz -> to_local tz now = Ok (w, false) ->
  cfg_int "hour" config = Ok hour -> cfg_int_or "minute" 0 config = Ok minute -> time_of hour minute = Ok time ->
  compute_next_fire_at "daily_at" config policy last now current = Ok (Some next) ->
  now < next /\ exists d, first_day_after time w d /\ ensure_utc tz (combine d time) false = Ok next.
Proof.
  intros Hpol Htz Hzone Hl Hh Hm Ht. cbn. unfold some_date, next_daily_at. rewrite Hh, Hm, Htz, Hl, Ht. simpl.
  replace (if (policy =? "catch_up")%string then current else None) with (@None Z)
    by (destruct Hpol as [Hp|Hc]; [by apply String.eqb_neq in Hp as -> | rewrite Hc; by case_match]).
  pose proof (candidate_first time w (time_of_Ok _ _ _ Ht)) as Hfirst. intros Hnext.
  assert (exists d, first_day_after time w d /\ ensure_utc tz (combine d time) false = Ok next) as (d & Hd & Hu).
  { destruct (combine (date_of w) time <=? w).
    - destruct (date_plus _ 1) eqn:Hp; [|done]. apply date_plus_Ok in Hp as ->. exists (date_of w + 1). split; [done|].
      by destruct (ensure_utc _ _ _); [injection Hnext as ->|].
    - exists (date_of w). split; [done|]. by destruct (ensure_utc _ _ _); [injection Hnext as ->|]. }
  split; [|by exists d]. apply dated_Ok in Hu as [-> _]. unfold to_local in Hl. destruct (locate _ _ _ _) as [off f] eqn:Hloc.
  destruct (dated _) eqn:Hdate; [|done]. injection Hl as -> ->. apply dated_Ok in Hdate as [-> _].
  apply (later_reading tz now _ off); [done|done|apply Hd].
Qed.

(** ** Windows *)

(** Slot [i] of a window, whose boundary is its start once the schedule has fired and its end before. *)
Definition boundary (start_dt span : Z) (already_fired : bool) (i : Z) : Z :=
  start_dt + span * i + if already_fired then 0 else span.

Lemma select_slot_spec slots index start_dt span now_local fired :
  match select_slot slots index start_dt span now_local fired with
  | Some (a, b) => exists i, index <= i < index + Z.of_nat slots /\ a = start_dt + span * i /\ b = a + span
      /\ now_local < boundary start_dt span fired i /\ forall j, index <= j < i -> boundary start_dt span fired j <= now_local
  | None => forall j, index <= j < index + Z.of_nat slots -> boundary start_dt span fired j <= now_local
  end.
Proof.
  revert index. induction slots as [|slots IH]; intros index; cbn [select_slot]; [intros; lia|].
  unfold boundary. destruct (Z.ltb_spec now_local (if fired then start_dt + span * index else start_dt + span * index + span)) as [Hb|Hb].
  - exists index. split_and!; [lia..|destruct fired; lia|intros; lia].
  - specialize (IH (index + 1)). assert (Hhere : forall j, j = index -> start_dt + span * j + (if fired then 0 else span) <= now_local).
    { intros j ->. destruct fired; lia. }
    destruct (select_slot _ _ _ _ _ _) as [[a b]|].
    + destruct IH as (i & Hi & Ha & Hb' & Hn & Hj). exists i. split_and!; [lia..|done|done|done|]. intros j Hj'.
      destruct (decide (j = index)); [by apply Hhere|]. apply Hj. lia.
    + intros j Hj. destruct (decide (j = index)); [by apply Hhere|]. apply IH. lia.
Qed.

(** The window is the one the day's reading is in or the next one to open: a day later starts after now. *)
Lemma window_bounds_Ok start_hour end_hour w a b : start_hour <> end_hour ->
  window_bounds start_hour end_hour w = Ok (a, b) -> a < b /\ w < a + DAY_SPAN.
Proof.
  intros Hne. unfold window_bounds, time_of. pose proof (Z.div_mod w DAY_SPAN ltac:(done)). pose proof (Z.mod_pos_bound w DAY_SPAN ltac:(done)).
  assert (hour_of w * HOUR <= w mod DAY_SPAN < (hour_of w + 1) * HOUR).
  { unfold hour_of. pose proof (Z.div_mod (w mod DAY_SPAN) HOUR ltac:(done)). pose proof (Z.mod_pos_bound (w mod DAY_SPAN) HOUR ltac:(done)). lia. }
  unfold date_plus, combine, date_of in *. unfold DAY_SPAN, HOUR, MINUTE, SECOND in *. repeat case_match; try done; intros; simplify_eq; lia.
Qed.

(** What a draw answers for a span. *)
Definition draws_within : Prop := forall span, 0 <= span -> 0 <= draw span <= span.

Lemma random_reading_within a b now_local : draws_within -> a <= b -> now_local < b \/ now_local <= a ->
  a <= random_reading a b now_local <= b /\ now_local <= random_reading a b now_local.
Proof.
  intros Hd Hab Hn. unfold random_reading. destruct (Z.leb_spec (b - Z.max a now_local) 0).
  - pose proof (Hd (b - a) ltac:(lia)). lia.
  - pose proof (Hd (b - Z.max a now_local) ltac:(lia)). lia.
Qed.

Lemma div_round_nonneg a b : 0 <= a -> 0 < b -> 0 <= div_round a b.
Proof. intros Ha Hb. unfold div_round. pose proof (Z.div_pos a b Ha Hb). case_match; lia. Qed.

(** A window schedule fires once per slot: the next fire is drawn in the first slot of the window that is
    still open, counting a slot the schedule has fired in as spent, or in the first slot a day later when
    none is; it is never before now, and after a fire it is in a slot that starts later. *)
Theorem random_fire_in_its_slot config tz now next last policy current w fold start_hour end_hour fires bounds :
  draws_within -> tz_of config = Ok tz -> to_local tz now = Ok (w, fold) ->
  cfg_int "start_hour" config = Ok start_hour -> cfg_int "end_hour" config = Ok end_hour ->
  cfg_int_or "fires_per_day" 1 config = Ok fires -> window_bounds start_hour end_hour w = Ok bounds ->
  compute_next_fire_at "random_within_window" config policy last now current = Ok (Some next) ->
  let fired := isSome last in
  let span := div_round (bounds.2 - bounds.1) fires in
  exists a r, ensure_utc tz r false = Ok next /\ a <= r <= a + span /\ w <= r /\ (fired = true -> w < a)
    /\ ((exists i, 0 <= i < fires /\ a = bounds.1 + span * i /\ w < boundary bounds.1 span fired i
            /\ forall j, 0 <= j < i -> boundary bounds.1 span fired j <= w)
        \/ (a = bounds.1 + DAY_SPAN /\ forall j, 0 <= j < fires -> boundary bounds.1 span fired j <= w)).
Proof.
  intros Hdraw Htz Hl Hs He Hf Hb. destruct bounds as [start_dt end_dt]. cbn -[boundary].
  unfold some_date, next_random_within_window. rewrite Hs, He, Hf, Htz, Hl. simpl. rewrite Hb. simpl.
  destruct (Z.eqb_spec start_hour end_hour) as [|Hne]; [done|]. destruct (Z.leb_spec fires 0) as [|Hpos]; [done|].
  destruct (window_bounds_Ok _ _ _ _ _ Hne Hb) as [Hw Hday]. set (span := div_round _ _).
  assert (Hspan : 0 <= span) by (apply div_round_nonneg; lia).
  destruct (random_slot _ _ _ _ _) as [[a b]|] eqn:Hslot; [|done]. simpl. intros Hnext.
  exists a, (random_reading a b w). destruct (ensure_utc tz _ false) eqn:Hu; [|done]. injection Hnext as ->. split; [done|].
  unfold random_slot in Hslot. fold span in Hslot. pose proof (select_slot_spec (Z.to_nat fires) 0 start_dt span w (isSome last)) as Hsel.
  rewrite Z.add_0_l, Z2Nat.id in Hsel by lia. destruct (select_slot _ _ _ _ _ _) as [[a' b']|].
  - injection Hslot as -> ->. destruct Hsel as (i & Hi & -> & -> & Hnow & Hj).
    assert (Hopen : isSome last = true -> w < start_dt + span * i) by (intros Hfired; unfold boundary in Hnow; rewrite Hfired in Hnow; lia).
    pose proof (random_reading_within (start_dt + span * i) (start_dt + span * i + span) w Hdraw ltac:(lia)
      ltac:(unfold boundary in Hnow; destruct (isSome last); [right|left]; lia)).
    split_and!; [tauto..|]. left. eauto 6.
  - destruct (dated (start_dt + DAY_SPAN)) eqn:Hd1; [|done]. apply dated_Ok in Hd1 as [-> _].
    destruct (dated _) eqn:Hd2 in Hslot; [|done]. apply dated_Ok in Hd2 as [-> _]. injection Hslot as <- <-.
    pose proof (random_reading_within (start_dt + DAY_SPAN) (start_dt + DAY_SPAN + span) w Hdraw ltac:(lia) ltac:(right; lia)).
    split_and!; [tauto..|]. by right.
Qed.

(** ** Terminal schedules *)

Lemma some_date_not_None r : some_date r <> Ok None.
Proof. unfold some_date. by destruct r. Qed.

(** A schedule is over exactly when it is one that fires once and it has fired: no other type, and no
    configuration, ends a schedule. *)
Theorem only_one_shots_end schedule_type config policy last now current :
  compute_next_fire_at schedule_type config policy last now current = Ok None
  <-> (schedule_type = "one_shot_at" \/ schedule_type = "relative_delay")%string /\ is_Some last.
Proof.
  split.
  - unfold compute_next_fire_at. repeat (case_match; [try (intros H'; by apply some_date_not_None in H')|]); [..|done].
    + unfold next_one_shot_at. destruct last; simpl; [intros _|by repeat case_match]. apply String.eqb_eq in H2. eauto.
    + unfold next_relative_delay. destruct last; simpl; [intros _|by repeat case_match]. apply String.eqb_eq in H4. eauto.
  - intros [[-> | ->] [t ->]]; done.
Qed.
End Schedules.

(** ** On a sample *)

(** The clocks of New York on 2 November 2025, turned back an hour at 06:00 UTC. *)
Definition turned_back : Z := 739556 * DAY_SPAN + 6 * HOUR.
Definition new_york : zone := mkZone (-4 * HOUR) [(turned_back, -5 * HOUR)].

Definition sample_zones (key : string) : result zone sched_error :=
  if String.eqb key "UTC" then Ok (mkZone 0 [])
  else if String.eqb key "America/New_York" then Ok new_york else Err (SchedKeyError key).
Definition sample_iso (_ : string) : result Z sched_error := Err SchedValueError.
Definition sample_cron (_ : string) (_ : zone) (anchor : Z) : result (option Z) sched_error := Ok (Some (anchor + DAY_SPAN)).
Definition sample_draw (span : Z) : Z := span / 2.

Abbreviation sample_next := (compute_next_fire_at sample_zones sample_iso sample_cron sample_draw).

Definition half_hourly : sched_config := {["seconds" := VInt 1800]}.
Definition half_past_one : sched_config := {["hour" := VInt 1; "minute" := VStr "30"; "tz" := VStr "America/New_York"]}.
Definition office_hours : sched_config := {["start_hour" := VInt 9; "end_hour" := VInt 17; "fires_per_day" := VInt 4]}.

(** An outage of three and a half hours costs one fire and no shift of the grid. *)
Lemma fixed_step_keeps_grid_witness :
  exists next, grid_next (1800 * SECOND) "coalesce" (Some (739556 * DAY_SPAN)) (739556 * DAY_SPAN + 3 * HOUR + 40 * MINUTE) next
    /\ sample_next "interval" half_hourly "coalesce" None (739556 * DAY_SPAN + 3 * HOUR + 40 * MINUTE) (Some (739556 * DAY_SPAN))
       = some_date (dated next).
Proof. apply (fixed_step_keeps_grid sample_zones sample_iso sample_cron sample_draw "interval"). reflexivity. Defined.

Lemma daily_at_is_ahead_witness :
  turned_back - 20 * MINUTE < turned_back + DAY_SPAN + 30 * MINUTE
  /\ exists d, first_day_after (HOUR + 30 * MINUTE) (739556 * DAY_SPAN + 100 * MINUTE) d
       /\ ensure_utc new_york (combine d (HOUR + 30 * MINUTE)) false = Ok (turned_back + DAY_SPAN + 30 * MINUTE).
Proof.
  apply (daily_at_is_ahead sample_zones sample_iso sample_cron sample_draw half_past_one new_york (turned_back - 20 * MINUTE)
    (turned_back + DAY_SPAN + 30 * MINUTE) None None "coalesce" (739556 * DAY_SPAN + 100 * MINUTE) 1 30 (HOUR + 30 * MINUTE)).
  - by right.
  - reflexivity.
  - done.
  - vm_compute. reflexivity.
  - reflexivity.
  - reflexivity.
  - reflexivity.
  - vm_compute. reflexivity.
Defined.

Lemma sample_draws_within : draws_within sample_draw.
Proof. intros span Hs. unfold sample_draw. pose proof (Z.div_mod span 2 ltac:(done)). pose proof (Z.mod_pos_bound span 2 ltac:(done)). lia. Qed.

Lemma random_fire_in_its_slot_witness :
  let w := 739556 * DAY_SPAN + 10 * HOUR in
  let start := 739556 * DAY_SPAN + 9 * HOUR in
  exists a r, ensure_utc (mkZone 0 []) r false = Ok (739556 * DAY_SPAN + 12 * HOUR) /\ a <= r <= a + 2 * HOUR /\ w <= r /\ (true = true -> w < a)
    /\ ((exists i, 0 <= i < 4 /\ a = start + 2 * HOUR * i /\ w < boundary start (2 * HOUR) true i
            /\ forall j, 0 <= j < i -> boundary start (2 * HOUR) true j <= w)
        \/ (a = start + DAY_SPAN /\ forall j, 0 <= j < 4 -> boundary start (2 * HOUR) true j <= w)).
Proof.
  apply (random_fire_in_its_slot sample_zones sample_iso sample_cron sample_draw office_hours (mkZone 0 []) (739556 * DAY_SPAN + 10 * HOUR)
    (739556 * DAY_SPAN + 12 * HOUR) (Some 0) "coalesce" None (739556 * DAY_SPAN + 10 * HOUR) false 9 17 4
    (739556 * DAY_SPAN + 9 * HOUR, 739556 * DAY_SPAN + 17 * HOUR)); [exact sample_draws_within|vm_compute; reflexivity..].
Defined.

(** In the repeated hour a daily job does not advance: late by forty minutes, it is rescheduled to the
    occurrence it has just fired, which is past and so due again. *)
Theorem daily_repeated_hour_does_not_advance :
  let fired := turned_back - 30 * MINUTE in
  let now := turned_back + 10 * MINUTE in
  fired < now /\ sample_next "daily_at" half_past_one "coalesce" None now (Some fired) = Ok (Some fired).
Proof. split; [done|]. vm_compute. reflexivity. Qed.
