(* ===== verification/JobStore.v ===== *)
(** * The tables of scheduled jobs

    [src/packages/scheduled-jobs/src/threetears/scheduled_jobs/collections.py], [types.py] and
    [config.py]: the rows of [scheduled_jobs] and [job_fires] and the statements the tick engine and the
    admin surface run on them. Each statement is one SQL command and so one atomic step on the tables; a
    command that violates a key raises and changes nothing. The cache tiers above the tables, which the
    commands bypass and evict, are not modelled, and the pool is there.

    A row's dates are instants as in [Reschedule.v]; a payload and an output are opaque. *)

From Stdlib Require Import Ascii String Bool List NArith ZArith Lia.
From stdpp Require Import base list gmap strings sorting.
From S2P Require Import Prelude Reschedule.

Open Scope Z_scope.

Abbreviation row_key := (UUID * UUID)%type.

Record job := mkJob {
  j_partition_key : UUID;
  j_job_id : UUID;
  j_kind : string;
  j_payload : string;
  j_schedule_type : string;
  j_schedule_config : sched_config;
  j_status : string;
  j_next_fire_at : option Z;
  j_last_fired_at : option Z;
  j_missed_fire_policy : string;
  j_name : option string;
  j_date_updated : Z;
}.

Record fire := mkFire {
  f_job_id : UUID;
  f_scheduled_fire_at : Z;
  f_actual_fired_at : Z;
  f_status : string;
  f_output : option string;
  f_latency_ms : option Z;
  f_error : option string;
}.

Record tables := mkTables { t_jobs : gmap row_key job; t_fires : gmap row_key fire }.

Definition with_jobs (jobs : gmap row_key job) (db : tables) : tables := mkTables jobs (t_fires db).
Definition with_fires (fires : gmap row_key fire) (db : tables) : tables := mkTables (t_jobs db) fires.

(** [UPDATE scheduled_jobs SET ... WHERE key AND guard RETURNING job_id]: whether a row changed. *)
Definition update_job (key : row_key) (guard : job -> bool) (set : job -> job) (db : tables) : bool * tables :=
  match t_jobs db !! key with
  | Some j => if guard j then (true, with_jobs (<[key := set j]> (t_jobs db)) db) else (false, db)
  | None => (false, db)
  end.

Definition set_job_status (status : string) (now : Z) (j : job) : job :=
  mkJob (j_partition_key j) (j_job_id j) (j_kind j) (j_payload j) (j_schedule_type j) (j_schedule_config j) status
    (j_next_fire_at j) (j_last_fired_at j) (j_missed_fire_policy j) (j_name j) now.
Definition set_job_next (next : option Z) (now : Z) (j : job) : job :=
  mkJob (j_partition_key j) (j_job_id j) (j_kind j) (j_payload j) (j_schedule_type j) (j_schedule_config j) (j_status j)
    next (j_last_fired_at j) (j_missed_fire_policy j) (j_name j) now.
Definition set_job_config (config : sched_config) (j : job) : job :=
  mkJob (j_partition_key j) (j_job_id j) (j_kind j) (j_payload j) (j_schedule_type j) config (j_status j)
    (j_next_fire_at j) (j_last_fired_at j) (j_missed_fire_policy j) (j_name j) (j_date_updated j).
Definition set_job_fired (now : Z) (j : job) : job :=
  mkJob (j_partition_key j) (j_job_id j) (j_kind j) (j_payload j) (j_schedule_type j) (j_schedule_config j) (j_status j)
    (j_next_fire_at j) (Some now) (j_missed_fire_policy j) (j_name j) (j_date_updated j).

(** ** Jobs *)

Definition is_due (now : Z) (kinds : list string) (j : job) : bool :=
  String.eqb (j_status j) "active" && match j_next_fire_at j with Some t => t <=? now | None => false end
  && existsb (String.eqb (j_kind j)) kinds.

(** [ORDER BY next_fire_at ASC]. *)
Definition fires_before (a b : job) : bool :=
  match j_next_fire_at a, j_next_fire_at b with Some x, Some y => x <=? y | _, _ => true end.
Fixpoint insert_due (j : job) (l : list job) : list job :=
  match l with
  | [] => [j]
  | x :: l' => if fires_before j x then j :: l else x :: insert_due j l'
  end.

Definition list_due_for_tick (now : Z) (kinds : list string) (limit : nat) (db : tables) : list job :=
  match kinds with
  | [] => []
  | _ => take limit (foldr insert_due [] (List.filter (is_due now kinds) (map_to_list (t_jobs db)).*2))
  end.

Definition SCHEDULE_STATUSES : list string := ["active"; "paused"; "expired"]%string.

Definition set_status (key : row_key) (status : string) (now : Z) (db : tables) : result bool sched_error * tables :=
  if negb (existsb (String.eqb status) SCHEDULE_STATUSES) then (Err SchedValueError, db)
  else let '(changed, db) := update_job key (fun _ => true) (set_job_status status now) db in (Ok changed, db).

Definition request_immediate_fire (key : row_key) (now : Z) (db : tables) : bool * tables :=
  update_job key (fun j => String.eqb (j_status j) "active") (set_job_next (Some now) now) db.

(** The claim: a compare-and-swap on [next_fire_at] alone. *)
Definition claim_and_reschedule (key : row_key) (expected_next_fire : Z) (computed_next_fire : option Z) (new_status : string)
    (now : Z) (db : tables) : bool * tables :=
  update_job key (fun j => bool_decide (j_next_fire_at j = Some expected_next_fire))
    (fun j => set_job_fired now (set_job_next computed_next_fire now (set_job_status new_status now j))) db.

Definition undo_claim (key : row_key) (scheduled_fire_at claimed_at : Z) (claimed_next_fire_at : option Z) (claimed_status : string)
    (now : Z) (db : tables) : bool * tables :=
  update_job key
    (fun j => String.eqb (j_status j) claimed_status && bool_decide (j_next_fire_at j = claimed_next_fire_at)
              && bool_decide (j_last_fired_at j = Some claimed_at) && (j_date_updated j =? claimed_at))
    (fun j => set_job_next (Some scheduled_fire_at) now (set_job_status "active" now j)) db.

(** ** Fires *)

Definition REAPED_DISPATCH_ERROR : string := "reaped: dispatch abandoned in 'dispatching' (pod died mid-dispatch)".

(** [INSERT INTO job_fires], which raises on a key that is taken. *)
Definition create_dispatching (key : row_key) (job_id : UUID) (scheduled_fire_at actual_fired_at : Z) (db : tables) : option unit * tables :=
  match t_fires db !! key with
  | Some _ => (None, db)
  | None => (Some tt, with_fires (<[key := mkFire job_id scheduled_fire_at actual_fired_at "dispatching" None None None]> (t_fires db)) db)
  end.

Definition finalize_success (key : row_key) (status : string) (output : option string) (latency_ms : option Z) (db : tables) : tables :=
  with_fires (alter (fun f => mkFire (f_job_id f) (f_scheduled_fire_at f) (f_actual_fired_at f) status output latency_ms (f_error f)) key (t_fires db)) db.

Definition finalize_failed (key : row_key) (error : string) (latency_ms : option Z) (output : option string) (db : tables) : tables :=
  with_fires (alter (fun f => mkFire (f_job_id f) (f_scheduled_fire_at f) (f_actual_fired_at f) "failed"
    (match output with Some o => Some o | None => f_output f end) latency_ms (Some error)) key (t_fires db)) db.

Definition reaped (f : fire) : fire :=
  mkFire (f_job_id f) (f_scheduled_fire_at f) (f_actual_fired_at f) "failed" (f_output f) (f_latency_ms f) (Some REAPED_DISPATCH_ERROR).

(** The rows of a sweep: in flight since before the cutoff, of a job of one of the kinds. *)
Definition stale (cutoff : Z) (kinds : list string) (jobs : gmap row_key job) (f : fire) : bool :=
  String.eqb (f_status f) "dispatching" && (f_actual_fired_at f <? cutoff)
  && existsb (fun j => bool_decide (j_job_id j = f_job_id f) && existsb (String.eqb (j_kind j)) kinds) (map_to_list jobs).*2.

Definition reap_stale_dispatching (now older_than : Z) (kinds : list string) (db : tables) : nat * tables :=
  match kinds with
  | [] => (0%nat, db)
  | _ =>
      let hit := stale (now - older_than) kinds (t_jobs db) in
      (length (List.filter hit (map_to_list (t_fires db)).*2), with_fires ((fun f => if hit f then reaped f else f) <$> t_fires db) db)
  end.

Definition in_flight_of (fire_ids : list UUID) (key : row_key) (f : fire) : bool :=
  String.eqb (f_status f) "dispatching" && existsb (N.eqb key.2) fire_ids.

Definition reap_fires (fire_ids : list UUID) (db : tables) : list UUID * tables :=
  match fire_ids with
  | [] => ([], db)
  | _ =>
      ((List.filter (fun '(key, f) => in_flight_of fire_ids key f) (map_to_list (t_fires db))).*1.*2,
       with_fires (map_imap (fun key f => Some (if in_flight_of fire_ids key f then reaped f else f)) (t_fires db)) db)
  end.

(** ** Configuration *)

Record JobConfig := mkJobConfig {
  jc_tick_due_limit : nat;
  jc_dispatch_reap_after_seconds : Z;
  jc_dispatch_reap_after_seconds_by_kind : gmap string Z;
}.

Definition DEFAULT_JOB_CONFIG : JobConfig := mkJobConfig 200 900 ∅.

Definition reap_after_seconds_for_kind (config : JobConfig) (kind : string) : Z :=
  default (jc_dispatch_reap_after_seconds config) (jc_dispatch_reap_after_seconds_by_kind config !! kind).

(** ** What a statement leaves of the schedules *)

(** The schedules stay: every job keeps its row, what it is scheduled by and when it is next due. *)
Definition same_schedule (j j' : job) : Prop :=
  j_partition_key j' = j_partition_key j /\ j_job_id j' = j_job_id j /\ j_schedule_type j' = j_schedule_type j
  /\ j_schedule_config j' = j_schedule_config j /\ j_missed_fire_policy j' = j_missed_fire_policy j.

Definition steady (db db' : tables) : Prop :=
  forall key j', t_jobs db' !! key = Some j' -> exists j, t_jobs db !! key = Some j /\ same_schedule j j' /\ j_next_fire_at j' = j_next_fire_at j.

Lemma steady_refl db : steady db db.
Proof. intros key j Hj. exists j. unfold same_schedule. auto 10. Qed.

Lemma steady_fires fires db : steady db (with_fires fires db).
Proof. exact (steady_refl db). Qed.

Lemma steady_update key guard set db :
  (forall j, same_schedule j (set j) /\ j_next_fire_at (set j) = j_next_fire_at j) -> steady db (update_job key guard set db).2.
Proof.
  intros Hset. unfold update_job. destruct (t_jobs db !! key) as [j|] eqn:Hj; [|apply steady_refl].
  destruct (guard j); [|apply steady_refl]. intros key' j'. simpl. rewrite lookup_insert_Some. intros [[<- <-]|[_ H']].
  - exists j. destruct (Hset j). auto.
  - by apply steady_refl.
Qed.

(** Pausing and resuming, settling a fire and reaping leave every schedule where it was. *)
Theorem admin_statements_keep_schedules key status now db fire_key status' output latency error output' older_than kinds fire_ids :
  steady db (set_status key status now db).2
  /\ steady db (finalize_success fire_key status' output latency db)
  /\ steady db (finalize_failed fire_key error latency output' db)
  /\ steady db (reap_stale_dispatching now older_than kinds db).2
  /\ steady db (reap_fires fire_ids db).2.
Proof.
  split_and!; try apply steady_fires.
  - unfold set_status. case_match; [apply steady_refl|]. pose proof (steady_update key (fun _ => true) (set_job_status status now) db) as Hs.
    destruct (update_job _ _ _ _). apply Hs. by intros j.
  - unfold reap_stale_dispatching. destruct kinds; [apply steady_refl|apply steady_fires].
  - unfold reap_fires. destruct fire_ids; [apply steady_refl|apply steady_fires].
Qed.

Lemma fires_order_insert j l x : x ∈ insert_due j l <-> x = j \/ x ∈ l.
Proof. induction l as [|y l IH]; simpl; [set_solver|]. case_match; set_solver. Qed.

Lemma elem_of_sorted_due l x : x ∈ foldr insert_due [] l <-> x ∈ l.
Proof. induction l as [|y l IH]; simpl; [done|]. rewrite fires_order_insert. set_solver. Qed.

(** A row the scan returns is a row of the table, active, due and of a kind asked for. *)
Lemma list_due_sound now kinds limit db j : j ∈ list_due_for_tick now kinds limit db ->
  is_due now kinds j = true /\ exists key, t_jobs db !! key = Some j.
Proof.
  unfold list_due_for_tick. destruct kinds as [|kind kinds]; [by intros ?%elem_of_nil|]. intros Hj.
  apply elem_of_take in Hj as (i & Hj & _). apply list_elem_of_lookup_2, elem_of_sorted_due, list_elem_of_In, filter_In in Hj as [Hj Hd].
  split; [done|]. apply list_elem_of_In, list_elem_of_fmap in Hj as ([key j'] & -> & Hin). exists key. by apply elem_of_map_to_list.
Qed.

Lemma insert_due_perm j l : insert_due j l ≡ₚ j :: l.
Proof. induction l as [|x l IH]; simpl; [done|]. case_match; [done|]. rewrite IH. apply Permutation_swap. Qed.

Lemma sorted_due_perm l : foldr insert_due [] l ≡ₚ l.
Proof. induction l as [|x l IH]; simpl; [done|]. by rewrite insert_due_perm, IH. Qed.

Definition job_key (j : job) : row_key := (j_partition_key j, j_job_id j).

(** A scan returns a row at most once. *)
Lemma list_due_keys now kinds limit db : (forall key j, t_jobs db !! key = Some j -> key = job_key j) ->
  NoDup (map job_key (list_due_for_tick now kinds limit db)).
Proof.
  intros Hkeys. unfold list_due_for_tick. destruct kinds as [|kind kinds]; [constructor|]. generalize (kind :: kinds) as ks. intros ks.
  change (NoDup (job_key <$> take limit (foldr insert_due [] (List.filter (is_due now ks) (map_to_list (t_jobs db)).*2)))).
  rewrite fmap_take. eapply sublist_NoDup; [|apply sublist_take]. rewrite sorted_due_perm.
  assert (Hall : NoDup (job_key <$> (map_to_list (t_jobs db)).*2)).
  { rewrite <- list_fmap_compose. rewrite (list_fmap_ext _ fst); [apply NoDup_fst_map_to_list|].
    intros i [key j] Hi. symmetry. apply Hkeys, elem_of_map_to_list, list_elem_of_lookup. eauto. }
  revert Hall. generalize (map_to_list (t_jobs db)).*2 as l. intros l. induction l as [|j l IH]; simpl; [done|].
  intros [Hj Hl]%NoDup_cons. case_match; [|by apply IH]. simpl. constructor; [|by apply IH]. intros Hin. apply Hj.
  apply list_elem_of_fmap in Hin as (j' & Heq & Hin). apply list_elem_of_In, filter_In in Hin as [Hin _].
  apply list_elem_of_fmap. exists j'. split; [done|]. by apply list_elem_of_In.
Qed.

Definition due_no_later (a b : job) : Prop := exists x y, j_next_fire_at a = Some x /\ j_next_fire_at b = Some y /\ x <= y.

Lemma insert_due_sorted j l : is_Some (j_next_fire_at j) -> Forall (fun x => is_Some (j_next_fire_at x)) l ->
  StronglySorted due_no_later l -> StronglySorted due_no_later (insert_due j l).
Proof.
  intros [t Ht] Hl Hs. induction Hs as [|x l Hs IH Hx]; simpl; [by repeat constructor|]. apply Forall_cons in Hl as [[tx Htx] Hl].
  unfold fires_before. rewrite Ht, Htx. destruct (Z.leb_spec t tx).
  - constructor; [by constructor|]. constructor; [by exists t, tx|]. eapply Forall_impl; [exact Hx|].
    intros y (a & b & Ha & Hb & Hab). simplify_eq. exists t, b. split_and!; [done|done|lia].
  - constructor; [by apply IH|]. rewrite insert_due_perm. constructor; [|done]. exists tx, t. split_and!; [done|done|lia].
Qed.

(** The rows that are due, oldest first, before the limit. *)
Definition due_rows (now : Z) (kinds : list string) (db : tables) : list job :=
  foldr insert_due [] (List.filter (is_due now kinds) (map_to_list (t_jobs db)).*2).

Lemma due_rows_sorted now kinds db : StronglySorted due_no_later (due_rows now kinds db).
Proof.
  unfold due_rows.
  assert (Hdue : Forall (fun x => is_Some (j_next_fire_at x)) (List.filter (is_due now kinds) (map_to_list (t_jobs db)).*2)).
  { apply Forall_forall. intros j [_ Hd]%list_elem_of_In%filter_In. unfold is_due in Hd. destruct (j_next_fire_at j); [done|].
    by rewrite andb_false_r in Hd. }
  induction Hdue; simpl; [constructor|]. apply insert_due_sorted; [done|by rewrite sorted_due_perm|done].
Qed.

Lemma list_due_take now kinds limit db : kinds <> [] -> list_due_for_tick now kinds limit db = take limit (due_rows now kinds db).
Proof. by destruct kinds. Qed.

Lemma list_due_sorted now kinds limit db : StronglySorted due_no_later (list_due_for_tick now kinds limit db).
Proof.
  destruct (decide (kinds = [])) as [->|Hk]; [constructor|]. rewrite list_due_take by done.
  apply (StronglySorted_app_1_l _ _ (drop limit (due_rows now kinds db))). rewrite take_drop. apply due_rows_sorted.
Qed.

(** A row that is due is listed, or the limit is filled with rows due no later. *)
Lemma list_due_complete now kinds limit db key j : t_jobs db !! key = Some j -> is_due now kinds j = true ->
  let due := list_due_for_tick now kinds limit db in
  j ∈ due \/ length due = limit /\ Forall (fun j' => due_no_later j' j) due.
Proof.
  intros Hj Hd. cbv zeta. rewrite list_due_take by (intros ->; unfold is_due in Hd; by rewrite andb_false_r in Hd).
  assert (Hin : j ∈ due_rows now kinds db).
  { apply elem_of_sorted_due, list_elem_of_In, filter_In. split; [|done]. apply list_elem_of_In, list_elem_of_fmap. exists (key, j).
    split; [done|]. by apply elem_of_map_to_list. }
  pose proof (due_rows_sorted now kinds db) as Hs. rewrite <- (take_drop limit (due_rows now kinds db)) in Hin, Hs.
  apply elem_of_app in Hin as [Hin|Hin]; [by left|right]. split.
  - apply length_take_le. destruct (le_lt_dec limit (length (due_rows now kinds db))) as [?|?]; [done|].
    rewrite drop_ge in Hin by lia. by apply elem_of_nil in Hin.
  - apply Forall_forall. intros j' Hj'. by eapply StronglySorted_app_1_elem_of.
Qed.

Lemma undo_moved key e tick next status now db : (forall row, t_jobs db !! key = Some row -> j_date_updated row <> tick) ->
  undo_claim key e tick next status now db = (false, db).
Proof.
  intros Hmoved. unfold undo_claim, update_job. destruct (t_jobs db !! key) as [row|]; [|done].
  destruct (Z.eqb_spec (j_date_updated row) tick) as [Heq|_]; [by apply Hmoved in Heq|]. by rewrite andb_false_r.
Qed.

Lemma update_stamps key guard set db db' t : (forall j, j_date_updated (set j) = t) -> update_job key guard set db = (true, db') ->
  forall row, t_jobs db' !! key = Some row -> j_date_updated row = t.
Proof.
  intros Hset. unfold update_job. destruct (t_jobs db !! key) as [j|]; [|done]. destruct (guard j); [|done]. intros [= <-] row. simpl.
  rewrite lookup_insert_eq. by intros [= <-].
Qed.

(** An undo takes back its own claim and nothing else: right after the claim the occurrence is due and
    active again; after a later claim, a pause or a requested fire, at any other instant, the row stays
    as that left it. *)
Theorem undo_takes_back_its_claim key e next status tick now db db' : claim_and_reschedule key e next status tick db = (true, db') ->
  (exists db'' row, undo_claim key e tick next status now db' = (true, db'') /\ t_jobs db'' !! key = Some row
     /\ j_next_fire_at row = Some e /\ j_status row = "active"%string)
  /\ forall t db'', t <> tick ->
       (exists e' next' status', claim_and_reschedule key e' next' status' t db' = (true, db''))
       \/ (exists status', set_status key status' t db' = (Ok true, db'')) \/ request_immediate_fire key t db' = (true, db'') ->
       undo_claim key e tick next status now db'' = (false, db'').
Proof.
  intros Hclaim. split.
  - unfold claim_and_reschedule, update_job in Hclaim. destruct (t_jobs db !! key) as [j|]; [|done]. case_bool_decide; [|done].
    injection Hclaim as <-. unfold undo_claim, update_job. simpl. rewrite lookup_insert_eq. simpl.
    rewrite String.eqb_refl, !bool_decide_eq_true_2, Z.eqb_refl by done. simpl. eexists _, _. split; [done|]. simpl. rewrite lookup_insert_eq. by split_and!.
  - intros t db'' Ht Hop. apply undo_moved. intros row Hrow.
    assert (j_date_updated row = t) as ->; [|done]. destruct Hop as [(e' & next' & status' & Hop)|[(status' & Hop)|Hop]].
    + by eapply (update_stamps key _ _ db' db'' t); [|exact Hop|].
    + unfold set_status in Hop. case_match; [done|]. destruct (update_job _ _ _ _) as [changed db0] eqn:Hu. injection Hop as -> ->.
      by eapply (update_stamps key _ _ db' db'' t); [|exact Hu|].
    + by eapply (update_stamps key _ _ db' db'' t); [|exact Hop|].
Qed.

Definition claimable : tables :=
  mkTables {[(1%N, 2%N) := mkJob 1 2 "report" "{}" "interval" {["seconds" := VInt 60]} "active" (Some 5) None "coalesce" None 0]} ∅.

Lemma undo_takes_back_its_claim_witness :
  exists db'' row, undo_claim (1%N, 2%N) 5 70 (Some 125) "active" 80 (claim_and_reschedule (1%N, 2%N) 5 (Some 125) "active" 70 claimable).2 = (true, db'')
    /\ t_jobs db'' !! (1%N, 2%N) = Some row /\ j_next_fire_at row = Some 5 /\ j_status row = "active"%string.
Proof. apply (undo_takes_back_its_claim (1%N, 2%N) 5 (Some 125) "active" 70 80 claimable). vm_compute. reflexivity. Defined.
