(* ===== verification/JobTick.v ===== *)
(** * The tick engine of scheduled jobs

    [src/packages/scheduled-jobs/src/threetears/scheduled_jobs/tick.py]: one pass of the scheduler. A
    pass takes the cross-pod lock, reaps abandoned fires, lists the due schedules of its kinds, claims
    each by a compare-and-swap, records the fire and calls the handler of its kind.

    A coroutine is a [tprog], a tree whose nodes are what it awaits: a statement on the tables (which may
    raise, before or after the database applied it), the clock, a new fire id, the lock, the handler, the
    start of a background retry. [tstep] interleaves any number of passes and retries, of any number of
    pods with clocks of their own, with one another and with whatever else writes the tables: pausing,
    resuming, settling, reaping, rescheduling, asking for a fire now, taking a claim back, adding and
    removing jobs. *)

From Stdlib Require Import Ascii String Bool List NArith ZArith Lia.
From stdpp Require Import base list gmap strings relations sorting.
From S2P Require Import Prelude Reschedule JobStore.

Open Scope Z_scope.

(** ** Data *)

Record JobTrigger := mkJobTrigger {
  jt_job_id : UUID;
  jt_partition_key : UUID;
  jt_kind : string;
  jt_schedule_type : string;
  jt_fired_at : Z;
  jt_scheduled_fire_at : Z;
  jt_payload : string;
  jt_name : option string;
  jt_claimed_next_fire_at : option Z;
  jt_claimed_status : option string;
}.

(** A retry pause is in microseconds. *)
Record JobFireResult := mkJobFireResult {
  jr_status : string;
  jr_output : option string;
  jr_latency_ms : option Z;
  jr_error : option string;
  jr_handed_off : bool;
  jr_retry_after : option Z;
}.

(** What a call of a handler gives: a result, nothing, or an exception with its text. *)
Inductive handler_answer := Returned (result : option JobFireResult) | HandlerRaised (error : string).

Inductive lock_answer := LockTaken | LockIsHeld | LockKvError | LockFailed.

(** A task of its own: the one retry of a fire. *)
Record retry_task := mkRetryTask {
  rt_schedule : job;
  rt_trigger : JobTrigger;
  rt_fire_id : UUID;
  rt_pause : Z;
}.

Inductive tick_error := TickValueError | TickRaised.

Inductive tprog (A : Type) :=
| TRet (a : A)
| TNow (k : Z -> tprog A)
| TElapsed (k : Z -> tprog A)
| TFireId (k : UUID -> tprog A)
| TLock (k : lock_answer -> tprog A)
| TStmt (effect : tables -> tables) (answer : tables -> tprog A) (raised : tprog A)
| TCall (trigger : JobTrigger) (fire_id : UUID) (k : handler_answer -> tprog A)
| TSpawn (task : retry_task) (k : tprog A).
Arguments TRet {A}.
Arguments TNow {A}.
Arguments TElapsed {A}.
Arguments TFireId {A}.
Arguments TLock {A}.
Arguments TStmt {A}.
Arguments TCall {A}.
Arguments TSpawn {A}.

Fixpoint tbind {A B} (p : tprog A) (f : A -> tprog B) : tprog B :=
  match p with
  | TRet a => f a
  | TNow k => TNow (fun t => tbind (k t) f)
  | TElapsed k => TElapsed (fun t => tbind (k t) f)
  | TFireId k => TFireId (fun i => tbind (k i) f)
  | TLock k => TLock (fun a => tbind (k a) f)
  | TStmt effect answer raised => TStmt effect (fun db => tbind (answer db) f) (tbind raised f)
  | TCall trigger fire_id k => TCall trigger fire_id (fun a => tbind (k a) f)
  | TSpawn task k => TSpawn task (tbind k f)
  end.

(** A statement, whose answer is [None] when it raised. *)
Definition stmt {A B} (f : tables -> B * tables) (k : option B -> tprog A) : tprog A :=
  TStmt (fun db => (f db).2) (fun db => k (Some (f db).1)) (k None).

(** What a coroutine that may raise gives. *)
Abbreviation outcome := (result unit tick_error).

Definition quiet (r : option unit) : tprog outcome := TRet (match r with Some _ => Ok tt | None => Err TickRaised end).

(** ** Settling a fire *)

Definition FIRE_RETRY_MAX : Z := 30 * SECOND.
Definition ONE_SHOT_SCHEDULE_TYPES : list string := ["one_shot_at"; "relative_delay"]%string.

(** [_resolve_latency_ms]; the clock's reading is in milliseconds. *)
Definition elapsed_ms (reading : Z) : Z := Z.max 0 reading.
Definition resolve_latency_ms (result : JobFireResult) (reading : Z) : Z := default (elapsed_ms reading) (jr_latency_ms result).

(** [_settle_fire]. *)
Definition settle_fire (schedule : job) (fire_id : UUID) (answer : handler_answer) : tprog outcome :=
  let key := (j_partition_key schedule, fire_id) in
  let fail error output latency := stmt (fun db => (tt, finalize_failed key error (Some latency) output db)) quiet in
  match answer with
  | HandlerRaised error => TElapsed (fun t => fail error None (elapsed_ms t))
  | Returned None => TElapsed (fun t => fail "the fire's handler returned nothing"%string None (elapsed_ms t))
  | Returned (Some result) =>
      if jr_handed_off result then TRet (Ok tt)
      else if String.eqb (jr_status result) "failed" then
        TElapsed (fun t =>
          fail (match jr_error result with Some e => if str_truthy e then e else "dispatch returned status='failed' without an error string"
                | None => "dispatch returned status='failed' without an error string" end)%string
            (jr_output result) (resolve_latency_ms result t))
      else TElapsed (fun t =>
        stmt (fun db => (tt, finalize_success key (jr_status result) (jr_output result) (Some (resolve_latency_ms result t)) db)) quiet)
  end.

(** [_retry_fire], after its pause. *)
Definition retry_fire (task : retry_task) : tprog outcome :=
  TCall (rt_trigger task) (rt_fire_id task) (settle_fire (rt_schedule task) (rt_fire_id task)).

(** Whether a failed result asks for the fire once more. *)
Definition asks_retry (answer : handler_answer) : option Z :=
  match answer with
  | Returned (Some result) => if String.eqb (jr_status result) "failed" then jr_retry_after result else None
  | _ => None
  end.

(** ** One schedule *)

Section Engine.
Context (ZoneInfo : string -> result zone sched_error) (fromisoformat : string -> result Z sched_error)
        (cron_next : string -> zone -> Z -> result (option Z) sched_error) (draw : Z -> Z).

Abbreviation next_fire := (compute_next_fire_at ZoneInfo fromisoformat cron_next draw).

Definition computed_next (schedule : job) (expected_next_fire tick_at : Z) : result (option Z) sched_error :=
  if existsb (String.eqb (j_schedule_type schedule)) ONE_SHOT_SCHEDULE_TYPES then Ok None
  else next_fire (j_schedule_type schedule) (j_schedule_config schedule) (j_missed_fire_policy schedule)
         (j_last_fired_at schedule) tick_at (Some expected_next_fire).

Definition status_of (computed_next_fire : option Z) : string := if isSome computed_next_fire then "active" else "expired".

Definition trigger_of (schedule : job) (expected_next_fire : Z) (computed_next_fire : option Z) (tick_at : Z) : JobTrigger :=
  mkJobTrigger (j_job_id schedule) (j_partition_key schedule) (j_kind schedule) (j_schedule_type schedule) tick_at expected_next_fire
    (j_payload schedule) (j_name schedule) computed_next_fire (Some (status_of computed_next_fire)).

(** The call of the handler and what follows it. *)
Definition call_handler (schedule : job) (trigger : JobTrigger) (fire_id : UUID) : tprog outcome :=
  TCall trigger fire_id (fun answer =>
    match asks_retry answer with
    | Some after => TSpawn (mkRetryTask schedule trigger fire_id (Z.min (Z.max 0 after) FIRE_RETRY_MAX)) (TRet (Ok tt))
    | None => settle_fire schedule fire_id answer
    end).

(** [_dispatch_one]. *)
Definition dispatch_one (routes : list string) (schedule : job) (tick_at : Z) : tprog outcome :=
  if negb (existsb (String.eqb (j_kind schedule)) routes) then TRet (Ok tt)
  else
    match j_next_fire_at schedule with
    | None => TRet (Ok tt)
    | Some expected_next_fire =>
        match computed_next schedule expected_next_fire tick_at with
        | Err _ => TRet (Err TickRaised)
        | Ok computed_next_fire =>
            stmt (claim_and_reschedule (j_partition_key schedule, j_job_id schedule) expected_next_fire computed_next_fire
                    (status_of computed_next_fire) tick_at) (fun claimed =>
              match claimed with
              | None => TRet (Err TickRaised)
              | Some false => TRet (Ok tt)
              | Some true =>
                  TFireId (fun fire_id =>
                    stmt (create_dispatching (j_partition_key schedule, fire_id) (j_job_id schedule) expected_next_fire tick_at) (fun created =>
                      match created with
                      | Some (Some _) => call_handler schedule (trigger_of schedule expected_next_fire computed_next_fire tick_at) fire_id
                      | _ => TRet (Err TickRaised)
                      end))
              end)
        end
    end.

(** ** A pass *)

(** [_group_kinds_by_reap_threshold]; the kinds come sorted, so each group is too. *)
Fixpoint insert_group (seconds : Z) (kind : string) (groups : list (Z * list string)) : list (Z * list string) :=
  match groups with
  | [] => [(seconds, [kind])]
  | (s, kinds) :: rest =>
      if seconds =? s then (s, kinds ++ [kind]) :: rest
      else if seconds <? s then (seconds, [kind]) :: groups
      else (s, kinds) :: insert_group seconds kind rest
  end%list.

Definition group_kinds_by_reap_threshold (routed_kinds : list string) (config : JobConfig) : list (Z * list string) :=
  fold_left (fun groups kind => insert_group (reap_after_seconds_for_kind config kind) kind groups) routed_kinds [].

(** [_reap_stale_dispatching]: a sweep that raises does not stop the next one. *)
Fixpoint reap_groups (groups : list (Z * list string)) (now : Z) (k : tprog outcome) : tprog outcome :=
  match groups with
  | [] => k
  | (seconds, kinds) :: rest => stmt (reap_stale_dispatching now (seconds * SECOND) kinds) (fun _ => reap_groups rest now k)
  end.

(** The loop over the due schedules: one that raises does not stop the next one. *)
Fixpoint dispatch_all (routes : list string) (due : list job) (now : Z) : tprog outcome :=
  match due with
  | [] => TRet (Ok tt)
  | schedule :: rest => tbind (dispatch_one routes schedule now) (fun _ => dispatch_all routes rest now)
  end.

(** [_run_tick_body]. *)
Definition run_tick_body (routes : list string) (config : JobConfig) : tprog outcome :=
  TNow (fun now =>
    reap_groups (group_kinds_by_reap_threshold routes config) now
      (stmt (fun db => (list_due_for_tick now routes (jc_tick_due_limit config) db, db)) (fun due =>
         match due with
         | None => TRet (Err TickRaised)
         | Some due => dispatch_all routes due now
         end))).

(** [_validate_routes]: the kinds a pass routes, in order. *)
Definition validate_routes (routes : list string) : result (list string) tick_error :=
  match routes with [] => Err TickValueError | _ => Ok (sort_by (fun s => (s, ""%string)) routes) end.

(** [scheduled_tick_job]: a held lock skips the pass, a lock that cannot be reached does not. *)
Definition scheduled_tick_job (routes : list string) (config : JobConfig) : tprog outcome :=
  match validate_routes routes with
  | Err e => TRet (Err e)
  | Ok routed_kinds =>
      TLock (fun answer =>
        match answer with
        | LockTaken | LockKvError => run_tick_body routed_kinds config
        | LockIsHeld => TRet (Ok tt)
        | LockFailed => TRet (Err TickRaised)
        end)
  end.

(** [ScheduledJobCollection.update_schedule]: a read of the row, and a write of the new schedule with the
    next fire it gives from now. *)
Definition update_schedule (key : row_key) (schedule_config : sched_config) (now : Z) : tprog (result bool sched_error) :=
  stmt (fun db => (t_jobs db !! key, db)) (fun row =>
    match row with
    | None => TRet (Err SchedValueError)
    | Some None => TRet (Ok false)
    | Some (Some j) =>
        match next_fire (j_schedule_type j) schedule_config (j_missed_fire_policy j) (j_last_fired_at j) now None with
        | Err e => TRet (Err e)
        | Ok next_fire_at =>
            stmt (update_job key (fun _ => true) (fun j => set_job_next next_fire_at now (set_job_config schedule_config j))) (fun changed =>
              TRet (match changed with Some c => Ok c | None => Err SchedValueError end))
        end
    end).

(** ** Interleaving *)

Definition trigger_key (t : JobTrigger) : row_key := (jt_partition_key t, jt_job_id t).

(** One thing a coroutine awaits: where it goes on, the tables, the fire id it took, the handler calls
    and the tasks it made. *)
Inductive runs : tprog outcome -> tables -> gset UUID -> tprog outcome * tables -> option UUID -> list (JobTrigger * UUID) -> list retry_task -> Prop :=
| runs_now k t db ids : runs (TNow k) db ids (k t, db) None [] []
| runs_elapsed k t db ids : runs (TElapsed k) db ids (k t, db) None [] []
| runs_fire_id k i db ids : i ∉ ids -> runs (TFireId k) db ids (k i, db) (Some i) [] []
| runs_lock k a db ids : runs (TLock k) db ids (k a, db) None [] []
| runs_stmt effect answer raised db ids : runs (TStmt effect answer raised) db ids (answer db, effect db) None [] []
| runs_unanswered effect answer raised db ids : runs (TStmt effect answer raised) db ids (raised, effect db) None [] []
| runs_refused effect answer raised db ids : runs (TStmt effect answer raised) db ids (raised, db) None [] []
| runs_call trigger i k a db ids : runs (TCall trigger i k) db ids (k a, db) None [(trigger, i)] []
| runs_spawn task k db ids : runs (TSpawn task k) db ids (k, db) None [] [task].

(** A schedule whose next fire, whenever it is asked for, is later than the occurrence being fired. *)
Definition advancing (j : job) : Prop := forall last now current next, current <= now ->
  next_fire (j_schedule_type j) (j_schedule_config j) (j_missed_fire_policy j) last now (Some current) = Ok (Some next) -> current < next.

Definition tables_ok (db : tables) : Prop :=
  forall key j, t_jobs db !! key = Some j -> key = (j_partition_key j, j_job_id j) /\ advancing j.

(** The jobs a write of something else than a pass puts to another instant, with that instant. *)
Definition rearmed (db db' : tables) : list (row_key * Z) :=
  omap (fun '(key, j') =>
    match j_next_fire_at j' with
    | Some t => if bool_decide ((t_jobs db !! key) ≫= j_next_fire_at = Some t) then None else Some (key, t)
    | None => None
    end) (map_to_list (t_jobs db')).

(** [tw_calls] are the handler calls made and [tw_armed] the instants jobs were put to from elsewhere. *)
Record tworld := mkTWorld {
  tw_db : tables;
  tw_tasks : list (tprog outcome);
  tw_ids : gset UUID;
  tw_calls : list (JobTrigger * UUID);
  tw_armed : list (row_key * Z);
}.

(** A pass starts, on any pod, with any routes; a task takes its next step; a task is gone with its pod;
    something else writes the tables, in any way that keeps the schedules advancing. *)
Inductive tstep : tworld -> tworld -> Prop :=
| step_starts routes config w :
    tstep w (mkTWorld (tw_db w) (scheduled_tick_job routes config :: tw_tasks w) (tw_ids w) (tw_calls w) (tw_armed w))
| step_runs w l1 p l2 q db' taken calls spawned :
    tw_tasks w = l1 ++ p :: l2 -> runs p (tw_db w) (tw_ids w) (q, db') taken calls spawned ->
    tstep w (mkTWorld db' (map retry_fire spawned ++ l1 ++ q :: l2)
               (match taken with Some i => {[i]} ∪ tw_ids w | None => tw_ids w end) (calls ++ tw_calls w) (tw_armed w))
| step_gone w l1 p l2 : tw_tasks w = l1 ++ p :: l2 -> tstep w (mkTWorld (tw_db w) (l1 ++ l2) (tw_ids w) (tw_calls w) (tw_armed w))
| step_elsewhere w db' : tables_ok db' ->
    tstep w (mkTWorld db' (tw_tasks w) (tw_ids w) (tw_calls w) (rearmed (tw_db w) db' ++ tw_armed w)).

(** ** What a coroutine may do *)

(** [db'] is [db] with the occurrence [e] of a job taken off its schedule. *)
Definition passed (e : Z) (next : option Z) : Prop := match next with Some n => e < n | None => True end.
Definition takes (key : row_key) (e : Z) (db db' : tables) : Prop :=
  exists j j', t_jobs db !! key = Some j /\ j_next_fire_at j = Some e /\ same_schedule j j' /\ passed e (j_next_fire_at j')
    /\ t_jobs db' = <[key := j']> (t_jobs db).

(** What a coroutine holds: nothing, an occurrence it has claimed, or a fire of one. *)
Inductive ticket := Idle | Claimed (key : row_key) (e : Z) | Firing (key : row_key) (e : Z) (fire_id : UUID).

Definition named (i : UUID) (tk : ticket) : ticket := match tk with Claimed key e => Firing key e i | _ => tk end.

Fixpoint ok {A} (tk : ticket) (p : tprog A) : Prop :=
  match p with
  | TRet _ => True
  | TNow k | TElapsed k => forall t, ok tk (k t)
  | TFireId k => forall i, ok (named i tk) (k i)
  | TLock k => forall a, ok tk (k a)
  | TStmt effect answer raised => ok tk raised /\ forall db, tables_ok db ->
      (steady db (effect db) /\ ok tk (answer db)) \/ exists key e, takes key e db (effect db) /\ ok (Claimed key e) (answer db)
  | TCall trigger i k => tk = Firing (trigger_key trigger) (jt_scheduled_fire_at trigger) i /\ forall a, ok tk (k a)
  | TSpawn task k => tk = Firing (trigger_key (rt_trigger task)) (jt_scheduled_fire_at (rt_trigger task)) (rt_fire_id task) /\ ok tk k
  end.

Lemma ok_idle {A} (p : tprog A) tk : ok Idle p -> ok tk p.
Proof.
  revert tk. induction p as [a|k IH|k IH|k IH|k IH|effect answer IHa raised IHr|trigger i k IH|task k IH]; intros tk; simpl; [done| | | | | |by intros [? _]..].
  - intros Hk t. apply IH, Hk.
  - intros Hk t. apply IH, Hk.
  - intros Hk i. apply IH, Hk.
  - intros Hk a. apply IH, Hk.
  - intros [Hr Hs]. split; [by apply IHr|]. intros db Hdb. destruct (Hs db Hdb) as [[? Ha]|]; [left; split; [done|by apply IHa]|by right].
Qed.

Lemma ok_bind {A B} (p : tprog A) (f : A -> tprog B) tk : ok tk p -> (forall a, ok Idle (f a)) -> ok tk (tbind p f).
Proof.
  intros Hp Hf. revert tk Hp. induction p as [a|k IH|k IH|k IH|k IH|effect answer IHa raised IHr|trigger i k IH|task k IH]; intros tk; simpl.
  - intros _. by apply ok_idle.
  - intros Hk t. apply IH, Hk.
  - intros Hk t. apply IH, Hk.
  - intros Hk i. apply IH, Hk.
  - intros Hk a. apply IH, Hk.
  - intros [Hr Hs]. split; [by apply IHr|]. intros db Hdb. destruct (Hs db Hdb) as [[? Ha]|(key & e & Ht & Ha)].
    + left. split; [done|by apply IHa].
    + right. exists key, e. split; [done|by apply IHa].
  - intros [-> Hk]. split; [done|]. intros a. apply IH, Hk.
  - intros [-> Hk]. split; [done|]. by apply IH.
Qed.

Lemma ok_stmt {A B} (f : tables -> B * tables) (k : option B -> tprog A) tk :
  (forall db, steady db (f db).2) -> (forall b, ok tk (k b)) -> ok tk (stmt f k).
Proof. intros Hf Hk. split; [apply Hk|]. intros db _. left. split; [apply Hf|apply Hk]. Qed.

Lemma ok_fire_id {A} (k : UUID -> tprog A) tk : (forall i, ok (named i tk) (k i)) -> ok tk (TFireId k).
Proof. done. Qed.

Lemma settle_fire_ok schedule i answer tk : ok tk (settle_fire schedule i answer).
Proof.
  unfold settle_fire. repeat case_match; try exact I; intros t; (apply ok_stmt; [intros db; apply steady_fires|by intros []]).
Qed.

Lemma retry_fire_ok task : ok (Firing (trigger_key (rt_trigger task)) (jt_scheduled_fire_at (rt_trigger task)) (rt_fire_id task)) (retry_fire task).
Proof. split; [done|]. intros a. apply settle_fire_ok. Qed.

Lemma call_handler_ok schedule trigger i : ok (Firing (trigger_key trigger) (jt_scheduled_fire_at trigger) i) (call_handler schedule trigger i).
Proof. split; [done|]. intros a. destruct (asks_retry a); [done|apply settle_fire_ok]. Qed.

Lemma computed_passes schedule e tick_at next : advancing schedule -> e <= tick_at ->
  computed_next schedule e tick_at = Ok next -> passed e next.
Proof.
  intros Hadv He. unfold computed_next. case_match; [by intros [= <-]|]. destruct next as [n|]; [|done]. by apply Hadv.
Qed.

Lemma claim_effect schedule e next status now db : passed e next ->
  let key := (j_partition_key schedule, j_job_id schedule) in
  let '(claimed, db') := claim_and_reschedule key e next status now db in
  if claimed then takes key e db db' else db' = db.
Proof.
  intros Hp. cbv zeta. unfold claim_and_reschedule, update_job. destruct (t_jobs db !! _) as [j|] eqn:Hj; [|done].
  case_bool_decide as He; [|done]. exists j, (set_job_fired now (set_job_next next now (set_job_status status now j))). by split_and!.
Qed.

Lemma dispatch_one_ok routes schedule tick_at : advancing schedule ->
  (forall e, j_next_fire_at schedule = Some e -> e <= tick_at) -> ok Idle (dispatch_one routes schedule tick_at).
Proof.
  intros Hadv Hdue. unfold dispatch_one. case_match; [done|]. destruct (j_next_fire_at schedule) as [e|] eqn:Hn; [|done].
  destruct (computed_next schedule e tick_at) as [next|] eqn:Hc; [|done].
  pose proof (computed_passes _ _ _ _ Hadv (Hdue e eq_refl) Hc) as Hp. split; [done|]. intros db _.
  pose proof (claim_effect schedule e next (status_of next) tick_at db Hp) as He. cbv zeta in He.
  destruct (claim_and_reschedule _ _ _ _ _ db) as [[] db'] eqn:Hclaim; [right|left; simpl; subst db'; split; [apply steady_refl|done]].
  exists (j_partition_key schedule, j_job_id schedule), e. split; [done|].
  apply ok_fire_id. intros i. apply (ok_stmt _ _ (Firing (j_partition_key schedule, j_job_id schedule) e i)).
  - intros db0. unfold create_dispatching. case_match; [apply steady_refl|apply steady_fires].
  - intros [[u|]|]; [|done|done]. apply (call_handler_ok schedule (trigger_of schedule e next tick_at) i).
Qed.

Lemma dispatch_all_ok routes due now :
  (forall j, j ∈ due -> advancing j /\ forall e, j_next_fire_at j = Some e -> e <= now) -> ok Idle (dispatch_all routes due now).
Proof.
  induction due as [|j due IH]; intros Hdue; [done|]. simpl. apply ok_bind.
  - destruct (Hdue j ltac:(set_solver)). by apply dispatch_one_ok.
  - intros _. apply IH. intros j' Hj'. apply Hdue. set_solver.
Qed.

Lemma reap_groups_ok groups now k : ok Idle k -> ok Idle (reap_groups groups now k).
Proof.
  intros Hk. induction groups as [|[seconds kinds] groups IH]; [done|]. apply ok_stmt; [|done].
  intros db. unfold reap_stale_dispatching. destruct kinds; [apply steady_refl|apply steady_fires].
Qed.

Lemma run_tick_body_ok routes config : ok Idle (run_tick_body routes config).
Proof.
  intros now. apply reap_groups_ok. split; [done|]. intros db Hdb. left. split; [apply steady_refl|].
  apply dispatch_all_ok. intros j [Hd [key Hj]]%list_due_sound. split; [apply (Hdb _ _ Hj)|].
  unfold is_due in Hd. intros e He. rewrite He in Hd. destruct (e <=? now) eqn:Hle; [lia|]. by rewrite andb_false_r in Hd.
Qed.

Lemma tick_ok routes config : ok Idle (scheduled_tick_job routes config).
Proof. unfold scheduled_tick_job. destruct (validate_routes routes); [|done]. intros []; try done; apply run_tick_body_ok. Qed.

(** ** Every occurrence is fired at most once *)

Definition claim_of (tk : ticket) : option (row_key * Z) := match tk with Claimed key e => Some (key, e) | _ => None end.

(** The claims held for an occurrence, its fires, whether its job is still to reach it, and how often the
    job was put to that instant or an earlier one from elsewhere. *)
Definition claims_of (tks : list ticket) (x : row_key * Z) : nat :=
  sum_list_with (fun tk => if bool_decide (claim_of tk = Some x) then 1%nat else 0%nat) tks.
Definition fires_of (fires : gmap UUID (row_key * Z)) (x : row_key * Z) : nat := size (filter (fun p => p.2 = x) fires).
Definition ahead (next : option Z) (e : Z) : nat := match next with Some n => if n <=? e then 1%nat else 0%nat | None => 0%nat end.
Definition waits (db : tables) (x : row_key * Z) : nat := ahead ((t_jobs db !! x.1) ≫= j_next_fire_at) x.2.
Definition rearms (armed : list (row_key * Z)) (x : row_key * Z) : nat :=
  sum_list_with (fun y => if bool_decide (y.1 = x.1 /\ y.2 <= x.2) then 1%nat else 0%nat) armed.

(** The fires named so far, against the tickets held and the calls made. *)
Record ledger_ok (fires : gmap UUID (row_key * Z)) (tks : list ticket) (db : tables) (ids : gset UUID)
    (calls : list (JobTrigger * UUID)) (armed : list (row_key * Z)) : Prop := {
  lo_tables : tables_ok db;
  lo_bound : forall x, (claims_of tks x + fires_of fires x + waits db x <= 1 + rearms armed x)%nat;
  lo_firing : forall key e i, Firing key e i ∈ tks -> fires !! i = Some (key, e);
  lo_calls : forall t i, (t, i) ∈ calls -> fires !! i = Some (trigger_key t, jt_scheduled_fire_at t);
  lo_ids : forall x i, fires !! i = Some x -> i ∈ ids;
}.

Definition world_ok (w : tworld) : Prop :=
  exists fires tks, Forall2 ok tks (tw_tasks w) /\ ledger_ok fires tks (tw_db w) (tw_ids w) (tw_calls w) (tw_armed w).

Lemma steady_tables db db' : steady db db' -> tables_ok db -> tables_ok db'.
Proof.
  intros Hs Hok key j' Hj'. destruct (Hs _ _ Hj') as (j & Hj & (Hp & Hi & Ht & Hc & Hm) & _). destruct (Hok _ _ Hj) as [-> Hadv].
  split; [congruence|]. unfold advancing in *. by rewrite Ht, Hc, Hm.
Qed.

Lemma takes_tables key e db db' : takes key e db db' -> tables_ok db -> tables_ok db'.
Proof.
  intros (j & j' & Hj & _ & (Hp & Hi & Ht & Hc & Hm) & _ & Hdb) Hok key0 j0. rewrite Hdb, lookup_insert_Some.
  intros [[<- <-]|[_ H0]]; [|by apply Hok]. destruct (Hok _ _ Hj) as [-> Hadv]. split; [congruence|]. unfold advancing in *. by rewrite Ht, Hc, Hm.
Qed.

(** What a write does to a job's wait for an occurrence: nothing brings it back but a write from elsewhere,
    and a claim ends it. *)
Lemma steady_waits db db' x : steady db db' -> (waits db' x <= waits db x)%nat.
Proof.
  intros Hs. unfold waits. destruct (t_jobs db' !! x.1) as [j'|] eqn:Hj'; simpl; [|lia].
  destruct (Hs _ _ Hj') as (j & -> & _ & ->). done.
Qed.

Lemma takes_waits key e db db' x : takes key e db db' ->
  ((if bool_decide ((key, e) = x) then 1%nat else 0%nat) + waits db' x <= waits db x)%nat.
Proof.
  intros (j & j' & Hj & He & _ & Hp & Hdb). destruct x as [key0 e0]. unfold waits. simpl. rewrite Hdb.
  destruct (decide (key = key0)) as [<-|Hne].
  - rewrite lookup_insert_eq, Hj. simpl. rewrite He. simpl. unfold ahead.
    destruct (j_next_fire_at j') as [n|]; simpl in Hp; case_bool_decide; simplify_eq; repeat case_match; lia.
  - rewrite lookup_insert_ne by done. rewrite bool_decide_eq_false_2 by congruence. lia.
Qed.

Lemma rearmed_waits db db' x : (waits db' x <= waits db x + rearms (rearmed db db') x)%nat.
Proof.
  destruct x as [key e]. unfold waits. simpl. destruct (t_jobs db' !! key) as [j'|] eqn:Hj'; simpl; [|lia].
  destruct (j_next_fire_at j') as [n|] eqn:Hn; simpl; [|lia]. destruct (Z.leb_spec n e); [|lia].
  destruct (decide ((t_jobs db !! key) ≫= j_next_fire_at = Some n)) as [Heq|Hne].
  - rewrite Heq. simpl. destruct (Z.leb_spec n e); lia.
  - assert (Hin : (key, n) ∈ rearmed db db').
    { unfold rearmed. apply list_elem_of_omap. exists (key, j'). split; [by apply elem_of_map_to_list|].
      rewrite Hn, bool_decide_eq_false_2 by done. done. }
    pose proof (sum_list_with_in _ (fun y : row_key * Z => if bool_decide (y.1 = key /\ y.2 <= e) then 1%nat else 0%nat) _ Hin) as Hs.
    simpl in Hs. rewrite bool_decide_eq_true_2 in Hs by done. unfold rearms. simpl. lia.
Qed.


Lemma fires_of_new fires i x y : fires !! i = None ->
  fires_of (<[i := y]> fires) x = ((if bool_decide (y = x) then 1%nat else 0%nat) + fires_of fires x)%nat.
Proof.
  intros Hi. unfold fires_of. case_bool_decide as Hy.
  - rewrite map_filter_insert_True by done. rewrite map_size_insert_None; [done|]. apply map_lookup_filter_None_2. by left.
  - rewrite map_filter_insert_False by done. by rewrite delete_id.
Qed.


(** What one step of a task does to its ticket and to the fires named. *)
Inductive ticket_step (ids : gset UUID) (db : tables) (tk : ticket) (fires : gmap UUID (row_key * Z))
  : ticket -> gmap UUID (row_key * Z) -> tables -> option UUID -> Prop :=
| ticket_steady db' : steady db db' -> ticket_step ids db tk fires tk fires db' None
| ticket_taken key e db' : takes key e db db' -> ticket_step ids db tk fires (Claimed key e) fires db' None
| ticket_lost key e db' : takes key e db db' -> ticket_step ids db tk fires tk fires db' None
| ticket_named i : i ∉ ids ->
    ticket_step ids db tk fires (named i tk) (match tk with Claimed key e => <[i := (key, e)]> fires | _ => fires end) db (Some i).

Lemma runs_ticket p db ids q db' taken calls spawned tk fires :
  runs p db ids (q, db') taken calls spawned -> tables_ok db -> ok tk p ->
  exists tk' fires', ticket_step ids db tk fires tk' fires' db' taken /\ ok tk' q
    /\ (forall t i, (t, i) ∈ calls -> tk = Firing (trigger_key t) (jt_scheduled_fire_at t) i)
    /\ (forall task, task ∈ spawned -> tk = Firing (trigger_key (rt_trigger task)) (jt_scheduled_fire_at (rt_trigger task)) (rt_fire_id task)).
Proof.
  intros Hr Hdb Hok. inversion Hr; subst; clear Hr; simpl in Hok.
  1,2,4: exists tk, fires; split_and!; [apply ticket_steady, steady_refl|apply Hok|set_solver..].
  - exists (named i tk). eexists. split_and!; [by apply ticket_named|apply Hok|set_solver..].
  - destruct Hok as [_ Hok]. destruct (Hok db Hdb) as [[Hs Ha]|(key & e & Ht & Ha)].
    + exists tk, fires. split_and!; [by apply ticket_steady|done|set_solver..].
    + exists (Claimed key e), fires. split_and!; [by apply ticket_taken|done|set_solver..].
  - destruct Hok as [Hq Hok]. destruct (Hok db Hdb) as [[Hs _]|(key & e & Ht & _)].
    + exists tk, fires. split_and!; [by apply ticket_steady|done|set_solver..].
    + exists tk, fires. split_and!; [by eapply ticket_lost|done|set_solver..].
  - exists tk, fires. split_and!; [apply ticket_steady, steady_refl|apply Hok|set_solver..].
  - destruct Hok as [Htk Hok]. exists tk, fires. split_and!; [apply ticket_steady, steady_refl|apply Hok| |set_solver].
    intros t i0 [= -> ->]%list_elem_of_singleton. done.
  - destruct Hok as [Htk Hok]. exists tk, fires. split_and!; [apply ticket_steady, steady_refl|apply Hok|set_solver|].
    intros task0 ->%list_elem_of_singleton. done.
Qed.

Lemma ledger_perm fires tks tks' db ids calls armed :
  tks ≡ₚ tks' -> ledger_ok fires tks db ids calls armed -> ledger_ok fires tks' db ids calls armed.
Proof.
  intros Hp [H1 H2 H3 H4 H5]. split; [done| | |done..].
  - intros x. unfold claims_of. rewrite <- Hp. apply H2.
  - intros key e i. rewrite <- Hp. apply H3.
Qed.

Lemma ledger_tail fires tk tks db ids calls armed : ledger_ok fires (tk :: tks) db ids calls armed -> ledger_ok fires tks db ids calls armed.
Proof.
  intros [H1 H2 H3 H4 H5]. split; [done| | |done..].
  - intros x. specialize (H2 x). unfold claims_of in *. simpl in H2. lia.
  - intros key e i Hin. apply H3. by apply list_elem_of_further.
Qed.

(** A claimed occurrence gets its fire id. *)
Lemma ledger_named fires tk tks db ids calls armed i : i ∉ ids -> ledger_ok fires (tk :: tks) db ids calls armed ->
  ledger_ok (match tk with Claimed key e => <[i := (key, e)]> fires | _ => fires end) (named i tk :: tks) db ({[i]} ∪ ids) calls armed.
Proof.
  intros Hi [H1 H2 H3 H4 H5]. destruct tk as [|key e|key e i0]; simpl.
  1,3: split; [done..|]; intros x j Hx; apply H5 in Hx; set_solver.
  assert (Hfree : fires !! i = None). { destruct (fires !! i) as [x|] eqn:Hx; [|done]. apply H5 in Hx. done. }
  assert (Hkeep : forall x j, fires !! j = Some x -> <[i := (key, e)]> fires !! j = Some x).
  { intros x j Hx. rewrite lookup_insert_ne; [done|]. intros <-. congruence. }
  split; [done| | |eauto|].
  - intros x. specialize (H2 x). rewrite fires_of_new by done. unfold claims_of in *. simpl in *.
    destruct (decide ((key, e) = x)) as [He|He].
    + rewrite bool_decide_eq_true_2 in H2 by congruence. rewrite (bool_decide_eq_true_2 ((key, e) = x)) by done. lia.
    + rewrite (bool_decide_eq_false_2 ((key, e) = x)) by done. lia.
  - intros key0 e0 j [[= -> -> ->]|Hin]%elem_of_cons; [apply lookup_insert_eq|]. apply Hkeep, H3. by apply list_elem_of_further.
  - intros x j. rewrite lookup_insert_Some. intros [[<- _]|[_ Hx%H5]]; set_solver.
Qed.

Lemma ledger_step fires fires' tk tk' tks db db' ids calls armed taken : ticket_step ids db tk fires tk' fires' db' taken ->
  ledger_ok fires (tk :: tks) db ids calls armed ->
  ledger_ok fires' (tk' :: tks) db' (match taken with Some i => {[i]} ∪ ids | None => ids end) calls armed.
Proof.
  intros Hstep Hlo. inversion Hstep as [? Hs|key e ? Ht|key e ? Ht|i Hi]; subst.
  - destruct Hlo as [H1 H2 H3 H4 H5]. split; [by eapply steady_tables| |done..].
    intros x. specialize (H2 x). pose proof (steady_waits _ _ x Hs). lia.
  - apply ledger_tail in Hlo as [H1 H2 H3 H4 H5]. split; [by eapply takes_tables| | |done..].
    + intros x. specialize (H2 x). pose proof (takes_waits _ _ _ _ x Ht) as Hw. unfold claims_of in *. simpl.
      destruct (decide ((key, e) = x)) as [He|He].
      * rewrite bool_decide_eq_true_2 in Hw by done. case_bool_decide; lia.
      * rewrite bool_decide_eq_false_2 in Hw by done. rewrite bool_decide_eq_false_2 by congruence. lia.
    + intros key0 e0 i [?|Hin]%elem_of_cons; [done|by apply H3].
  - destruct Hlo as [H1 H2 H3 H4 H5]. split; [by eapply takes_tables| |done..].
    intros x. specialize (H2 x). pose proof (takes_waits _ _ _ _ x Ht). lia.
  - by apply ledger_named.
Qed.

(** A fire stays what it is. *)
Lemma fires_stay ids db tk fires tk' fires' db' taken i x : ticket_step ids db tk fires tk' fires' db' taken ->
  (forall y j, fires !! j = Some y -> j ∈ ids) -> fires !! i = Some x -> fires' !! i = Some x.
Proof.
  intros Hstep Hids Hi. inversion Hstep as [| | |j Hj]; subst; [done..|]. destruct tk; [done| |done].
  rewrite lookup_insert_ne; [done|]. intros ->. by apply Hids in Hi.
Qed.

(** A ticket that claims nothing may be handed out. *)
Lemma ledger_more fires tk tks db ids calls armed : claim_of tk = None -> (forall key e i, tk = Firing key e i -> fires !! i = Some (key, e)) ->
  ledger_ok fires tks db ids calls armed -> ledger_ok fires (tk :: tks) db ids calls armed.
Proof.
  intros Hc Hf [H1 H2 H3 H4 H5]. split; [done| | |done..].
  - intros x. specialize (H2 x). unfold claims_of in *. simpl. rewrite Hc. case_bool_decide; [done|]. lia.
  - intros key e i [Htk|Hin]%elem_of_cons; [by apply Hf|by apply H3].
Qed.

Lemma ledger_call fires tks db ids calls armed t i : fires !! i = Some (trigger_key t, jt_scheduled_fire_at t) ->
  ledger_ok fires tks db ids calls armed -> ledger_ok fires tks db ids ((t, i) :: calls) armed.
Proof. intros Hi [H1 H2 H3 H4 H5]. split; try done. intros t0 i0 [[= -> ->]|Hin]%elem_of_cons; [done|by apply H4]. Qed.

(** Whatever else writes the tables is counted where it puts a job to another instant. *)
Lemma ledger_elsewhere fires tks db db' ids calls armed : tables_ok db' -> ledger_ok fires tks db ids calls armed ->
  ledger_ok fires tks db' ids calls (rearmed db db' ++ armed).
Proof.
  intros Hok [H1 H2 H3 H4 H5]. split; [done| |done..]. intros x. specialize (H2 x). pose proof (rearmed_waits db db' x) as Hw.
  unfold rearms in *. rewrite sum_list_with_app. lia.
Qed.

Lemma tstep_ok w w' : tstep w w' -> world_ok w -> world_ok w'.
Proof.
  intros Hstep (fires & tks & Htasks & Hlo). destruct Hstep as [routes config w|w l1 p l2 q db' taken calls spawned Hw Hr|w l1 p l2 Hw|w db' Hs].
  - exists fires, (Idle :: tks). split; [constructor; [apply tick_ok|done]|]. by apply ledger_more.
  - rewrite Hw in Htasks. apply Forall2_app_inv_r in Htasks as (k1 & k2' & Hk1 & Hk2 & ->).
    apply Forall2_cons_inv_r in Hk2 as (tk & k2 & Htk & Hk2 & ->).
    destruct (runs_ticket _ _ _ _ _ _ _ _ tk fires Hr (lo_tables _ _ _ _ _ _ Hlo) Htk) as (tk' & fires' & Hts & Hq & Hcalls & Hspawned).
    apply (ledger_perm _ _ (tk :: k1 ++ k2)) in Hlo; [|by rewrite Permutation_middle]. pose proof (ledger_step _ _ _ _ _ _ _ _ _ _ _ Hts Hlo) as Hlo'.
    assert (Hfire : forall key e i, tk = Firing key e i -> fires' !! i = Some (key, e)).
    { intros key e i ->. eapply fires_stay; [done|apply (lo_ids _ _ _ _ _ _ Hlo)|]. apply (lo_firing _ _ _ _ _ _ Hlo), list_elem_of_here. }
    apply (ledger_perm _ _ (k1 ++ tk' :: k2)) in Hlo'; [|by rewrite Permutation_middle].
    assert (Hall : exists extra, Forall2 ok extra (map retry_fire spawned) /\ ledger_ok fires' (extra ++ k1 ++ tk' :: k2) db'
      (match taken with Some i => {[i]} ∪ tw_ids w | None => tw_ids w end) (calls ++ tw_calls w) (tw_armed w)).
    { inversion Hr; subst; simpl; try (by exists []).
      - exists []. split; [done|]. apply ledger_call; [|done]. apply Hfire, Hcalls. by apply list_elem_of_singleton.
      - eexists [_]. split; [constructor; [apply retry_fire_ok|constructor]|]. apply ledger_more; [done| |done].
        intros key e i [= <- <- <-]. apply Hfire, Hspawned. by apply list_elem_of_singleton. }
    destruct Hall as (extra & He & Hl). exists fires', (extra ++ k1 ++ tk' :: k2). split; [|done]. simpl.
    apply Forall2_app; [done|]. apply Forall2_app; [done|]. by constructor.
  - rewrite Hw in Htasks. apply Forall2_app_inv_r in Htasks as (k1 & k2' & Hk1 & Hk2 & ->).
    apply Forall2_cons_inv_r in Hk2 as (tk & k2 & Htk & Hk2 & ->). exists fires, (k1 ++ k2). split; [by apply Forall2_app|].
    apply ledger_tail with tk. eapply ledger_perm; [|done]. by rewrite Permutation_middle.
  - exists fires, tks. split; [done|]. by apply ledger_elsewhere.
Qed.

Lemma world_reachable_ok w w' : rtc tstep w w' -> world_ok w -> world_ok w'.
Proof. induction 1; eauto using tstep_ok. Qed.

Lemma start_ok db : tables_ok db -> world_ok (mkTWorld db [] ∅ [] []).
Proof.
  intros Hdb. exists ∅, []. split; [constructor|]. split; simpl; [done| |by intros ? ? ? ?%elem_of_nil|by intros ? ? ?%elem_of_nil|done].
  intros x. unfold waits, ahead, fires_of. rewrite map_filter_empty, map_size_empty. simpl. repeat case_match; lia.
Qed.

Lemma reachable_tables db w : tables_ok db -> rtc tstep (mkTWorld db [] ∅ [] []) w -> tables_ok (tw_db w).
Proof. intros Hdb Hr. destruct (world_reachable_ok _ _ Hr (start_ok _ Hdb)) as (fires & tks & _ & Hlo). apply (lo_tables _ _ _ _ _ _ Hlo). Qed.


(** A single-row statement re-arms no job but its own, and to the instant it writes. *)
Lemma update_rearms key guard set db x : x ∈ rearmed db (update_job key guard set db).2 ->
  x.1 = key /\ exists j, t_jobs db !! key = Some j /\ j_next_fire_at (set j) = Some x.2.
Proof.
  unfold rearmed. intros ([k j'] & Hin%elem_of_map_to_list & Hx)%list_elem_of_omap.
  destruct (j_next_fire_at j') as [t|] eqn:Ht; [|done]. case_bool_decide as Hb; [done|]. injection Hx as <-. simpl.
  unfold update_job in Hin. destruct (t_jobs db !! key) as [j|] eqn:Hj; [destruct (guard j)|]; simpl in Hin.
  - apply lookup_insert_Some in Hin as [[<- <-]|[_ Hin]]; [split; [done|]; by exists j|]. rewrite Hin in Hb. by contradict Hb.
  - rewrite Hin in Hb. by contradict Hb.
  - rewrite Hin in Hb. by contradict Hb.
Qed.

Lemma update_tables_ok key guard set db : (forall j, same_schedule j (set j)) -> tables_ok db -> tables_ok (update_job key guard set db).2.
Proof.
  intros Hset Hok. unfold update_job. destruct (t_jobs db !! key) as [j|] eqn:Hj; [|done]. destruct (guard j); [|done].
  intros k j0. simpl. rewrite lookup_insert_Some. intros [[<- <-]|[_ H0]]; [|by apply Hok].
  destruct (Hset j) as (Hp & Hi & Ht & Hc & Hm). destruct (Hok _ _ Hj) as [-> Hadv]. split; [congruence|]. unfold advancing in *. by rewrite Ht, Hc, Hm.
Qed.

(** What the statements of the admin surface and of a shutting pod may add to the fires of a job: an undo
    its own occurrence, a fire asked for now the present, a pause or a resumption nothing. *)
Theorem statements_rearm key e tick next status now db :
  tables_ok db ->
  (forall x, x ∈ rearmed db (undo_claim key e tick next status now db).2 -> x = (key, e))
  /\ (forall x, x ∈ rearmed db (request_immediate_fire key now db).2 -> x = (key, now))
  /\ (forall x, x ∉ rearmed db (set_status key status now db).2)
  /\ tables_ok (undo_claim key e tick next status now db).2 /\ tables_ok (request_immediate_fire key now db).2
  /\ tables_ok (set_status key status now db).2.
Proof.
  intros Hok. split_and!.
  - intros [k t] (Hk & j & _ & Hn)%update_rearms. simpl in *. congruence.
  - intros [k t] (Hk & j & _ & Hn)%update_rearms. simpl in *. congruence.
  - intros x Hx. assert (Hs : steady db (set_status key status now db).2)
      by apply (admin_statements_keep_schedules key status now db (0, 0)%N "" None None "" None 0 [] []).
    unfold rearmed in Hx. apply list_elem_of_omap in Hx as ([k j'] & Hin%elem_of_map_to_list & Hx). destruct (Hs _ _ Hin) as (j & Hj & _ & Hn).
    rewrite Hj in Hx. simpl in Hx. rewrite Hn in Hx. destruct (j_next_fire_at j); [|done]. by rewrite bool_decide_eq_true_2 in Hx.
  - by apply update_tables_ok.
  - by apply update_tables_ok.
  - eapply steady_tables; [|done]. apply (admin_statements_keep_schedules key status now db (0, 0)%N "" None None "" None 0 [] []).
Qed.

(** Fixed-step schedules advance, whatever the policy; so do schedules that fire once. *)
Lemma fixed_step_advancing j step : step_of (j_schedule_type j) (j_schedule_config j) = Some step -> advancing j.
Proof.
  intros Hs last now current next Hle. destruct (step_of_compute ZoneInfo fromisoformat cron_next draw _ _ _ (j_missed_fire_policy j) last now (Some current) Hs) as [Hpos ->].
  unfold some_date, next_fixed_step. case_match eqn:Hd; [|done]. intros [= <-]. case_match.
  - apply dated_Ok in Hd as [-> _]. lia.
  - apply dated_Ok in Hd as [-> _]. destruct (Z.ltb_spec now current); [lia|].
    pose proof (Z.div_pos (now - current) step ltac:(lia) Hpos). nia.
Qed.

(** ** One schedule, alone *)

(** What a coroutine gives with nothing running beside it, every statement answered, the fire ids [ids]
    to take from: its outcome, the tables, the handler calls, the tasks it started, the ids left. *)
Record alone (A : Type) := mkAlone {
  al_out : A;
  al_db : tables;
  al_calls : list (JobTrigger * UUID);
  al_tasks : list retry_task;
  al_ids : list UUID;
}.
Arguments mkAlone {A}.
Arguments al_out {A}.
Arguments al_db {A}.
Arguments al_calls {A}.
Arguments al_tasks {A}.
Arguments al_ids {A}.

Section Alone.
Context (now elapsed : Z) (lock : lock_answer) (answer : JobTrigger -> handler_answer).

Fixpoint run_alone {A} (p : tprog A) (db : tables) (ids : list UUID) : alone A :=
  match p with
  | TRet a => mkAlone a db [] [] ids
  | TNow k => run_alone (k now) db ids
  | TElapsed k => run_alone (k elapsed) db ids
  | TFireId k => run_alone (k (default 0%N (head ids))) db (tail ids)
  | TLock k => run_alone (k lock) db ids
  | TStmt effect next _ => run_alone (next db) (effect db) ids
  | TCall trigger i k =>
      let r := run_alone (k (answer trigger)) db ids in mkAlone (al_out r) (al_db r) ((trigger, i) :: al_calls r) (al_tasks r) (al_ids r)
  | TSpawn task k => let r := run_alone k db ids in mkAlone (al_out r) (al_db r) (al_calls r) (task :: al_tasks r) (al_ids r)
  end.

Lemma run_alone_bind {A B} (p : tprog A) (f : A -> tprog B) db ids :
  let r := run_alone p db ids in
  let r' := run_alone (f (al_out r)) (al_db r) (al_ids r) in
  run_alone (tbind p f) db ids = mkAlone (al_out r') (al_db r') (al_calls r ++ al_calls r') (al_tasks r ++ al_tasks r') (al_ids r').
Proof.
  revert db ids. induction p as [a|k IH|k IH|k IH|k IH|effect next IHn raised IHr|trigger i k IH|task k IH]; intros db ids; simpl;
    [by destruct (run_alone _ _ _)|by rewrite IH|by rewrite IH|by rewrite IH|by rewrite IH|by rewrite IHn|by rewrite IH|by rewrite IH].
Qed.

(** The row of a fire once its handler has answered. *)
Definition settled (answer : handler_answer) (f : fire) : fire :=
  let close status output latency error := mkFire (f_job_id f) (f_scheduled_fire_at f) (f_actual_fired_at f) status output (Some latency) error in
  match answer with
  | HandlerRaised error => close "failed"%string (f_output f) (elapsed_ms elapsed) (Some error)
  | Returned None => close "failed"%string (f_output f) (elapsed_ms elapsed) (Some "the fire's handler returned nothing"%string)
  | Returned (Some r) =>
      if isSome (asks_retry answer) || jr_handed_off r then f
      else if String.eqb (jr_status r) "failed" then
        close "failed"%string (match jr_output r with Some o => Some o | None => f_output f end) (resolve_latency_ms r elapsed)
          (Some match jr_error r with Some e => if str_truthy e then e else "dispatch returned status='failed' without an error string"
                | None => "dispatch returned status='failed' without an error string" end)%string
      else close (jr_status r) (jr_output r) (resolve_latency_ms r elapsed) (f_error f)
  end.

Definition retries (schedule : job) (trigger : JobTrigger) (fire_id : UUID) : list retry_task :=
  match asks_retry (answer trigger) with Some after => [mkRetryTask schedule trigger fire_id (Z.min (Z.max 0 after) FIRE_RETRY_MAX)] | None => [] end.

Lemma call_handler_alone schedule trigger fire_id db ids f : t_fires db !! (j_partition_key schedule, fire_id) = Some f ->
  run_alone (call_handler schedule trigger fire_id) db ids
  = mkAlone (Ok tt) (with_fires (<[(j_partition_key schedule, fire_id) := settled (answer trigger) f]> (t_fires db)) db)
      [(trigger, fire_id)] (retries schedule trigger fire_id) ids.
Proof.
  intros Hf. assert (Hsame : with_fires (<[(j_partition_key schedule, fire_id) := f]> (t_fires db)) db = db).
  { unfold with_fires. rewrite insert_id by done. by destruct db. }
  assert (Halter : forall g, with_fires (alter g (j_partition_key schedule, fire_id) (t_fires db)) db
                             = with_fires (<[(j_partition_key schedule, fire_id) := g f]> (t_fires db)) db).
  { intros g. unfold with_fires. f_equal. apply map_eq. intros key. destruct (decide (key = (j_partition_key schedule, fire_id))) as [->|Hne].
    - by rewrite lookup_alter_eq, Hf, lookup_insert_eq.
    - by rewrite lookup_alter_ne, lookup_insert_ne by done. }
  unfold call_handler, settled, retries, settle_fire. cbn [run_alone].
  destruct (answer trigger) as [[r|]|error]; cbn [asks_retry]; [|cbn; unfold finalize_failed; by rewrite Halter..].
  destruct (String.eqb (jr_status r) "failed") eqn:Hs; [destruct (jr_retry_after r)|]; cbn [isSome orb run_alone al_out al_db al_calls al_tasks al_ids]; [by rewrite Hsame| |];
    destruct (jr_handed_off r); cbn; unfold finalize_failed, finalize_success; rewrite ?Hsame, ?Halter; done.
Qed.

(** One due schedule, with nothing else writing: when the row still waits for the occurrence that was
    listed, the row is advanced, the fire is recorded, the handler is called once with that occurrence,
    and the fire's row says how it went; when it does not, nothing happens. *)
Lemma dispatch_one_run routes schedule tick_at db fire_id ids e next :
  existsb (String.eqb (j_kind schedule)) routes = true -> j_next_fire_at schedule = Some e -> computed_next schedule e tick_at = Ok next ->
  t_fires db !! (j_partition_key schedule, fire_id) = None ->
  let key := (j_partition_key schedule, j_job_id schedule) in
  let trigger := trigger_of schedule e next tick_at in
  run_alone (dispatch_one routes schedule tick_at) db (fire_id :: ids)
  = match t_jobs db !! key with
    | Some row =>
        if bool_decide (j_next_fire_at row = Some e) then
          mkAlone (Ok tt)
            (mkTables (<[key := set_job_fired tick_at (set_job_next next tick_at (set_job_status (status_of next) tick_at row))]> (t_jobs db))
               (<[(j_partition_key schedule, fire_id) := settled (answer trigger) (mkFire (j_job_id schedule) e tick_at "dispatching" None None None)]>
                  (t_fires db)))
            [(trigger, fire_id)] (retries schedule trigger fire_id) ids
        else mkAlone (Ok tt) db [] [] (fire_id :: ids)
    | None => mkAlone (Ok tt) db [] [] (fire_id :: ids)
    end.
Proof.
  intros Hk He Hc Hfree. cbv zeta. unfold dispatch_one. rewrite Hk, He, Hc. cbn [negb]. unfold stmt at 1. cbn [run_alone].
  unfold claim_and_reschedule, update_job. destruct (t_jobs db !! _) as [row|]; [|done]. case_bool_decide; [|done].
  cbn [fst snd run_alone head tail from_option id]. unfold stmt. cbn [run_alone]. unfold create_dispatching. cbn [with_jobs t_fires].
  rewrite Hfree. cbn [fst snd].
  erewrite call_handler_alone; [|apply lookup_insert_eq]. cbn [with_fires with_jobs t_jobs t_fires]. by rewrite insert_insert_eq.
Qed.


(** What a due schedule is to be fired with, if its next fire can be computed. *)
Definition due_trigger (j : job) : option JobTrigger :=
  match j_next_fire_at j with
  | Some e => match computed_next j e now with Ok next => Some (trigger_of j e next now) | Err _ => None end
  | None => None
  end.

(** Ids that no fire has. *)
Definition unused (ids : list UUID) (db : tables) : Prop := NoDup ids /\ forall i p, i ∈ ids -> t_fires db !! (p, i) = None.

(** One schedule whose row is as listed: it is fired when its next fire can be computed, and whatever
    happens no other schedule's row changes. *)
Lemma dispatch_listed routes j db ids :
  existsb (String.eqb (j_kind j)) routes = true -> t_jobs db !! job_key j = Some j -> unused ids db -> ids <> [] ->
  let r := run_alone (dispatch_one routes j now) db ids in
  (al_calls r).*1 = option_list (due_trigger j) /\ (length ids <= S (length (al_ids r)))%nat /\ unused (al_ids r) (al_db r)
  /\ forall key, key <> job_key j -> t_jobs (al_db r) !! key = t_jobs db !! key.
Proof.
  intros Hk Hj [Hnd Hfree] Hne. destruct ids as [|i ids]; [done|]. unfold due_trigger.
  destruct (j_next_fire_at j) as [e|] eqn:He; [|cbv zeta; unfold dispatch_one; rewrite Hk, He; simpl; split_and!; [done|lia|done|done]].
  destruct (computed_next j e now) as [next|] eqn:Hc; [|cbv zeta; unfold dispatch_one; rewrite Hk, He, Hc; simpl; split_and!; [done|lia|done|done]].
  cbv zeta. rewrite (dispatch_one_run routes j now db i ids e next Hk He Hc) by (apply Hfree, list_elem_of_here).
  fold (job_key j). rewrite Hj, He, bool_decide_eq_true_2 by done. simpl. apply NoDup_cons in Hnd as [Hi Hnd].
  split_and!; [done|lia| |].
  - split; [done|]. intros i' p Hi'. simpl. rewrite lookup_insert_ne; [|by intros [= _ ->]]. apply Hfree. by apply list_elem_of_further.
  - intros key Hkey. by rewrite lookup_insert_ne.
Qed.

Lemma dispatch_all_run routes due db ids :
  (forall j, j ∈ due -> existsb (String.eqb (j_kind j)) routes = true /\ t_jobs db !! job_key j = Some j) -> NoDup (map job_key due) ->
  unused ids db -> (length due <= length ids)%nat ->
  (al_calls (run_alone (dispatch_all routes due now) db ids)).*1 = omap due_trigger due.
Proof.
  revert db ids. induction due as [|j due IH]; intros db ids Hdue Hnd Hu Hlen; [done|]. simpl in Hnd, Hlen. apply NoDup_cons in Hnd as [Hj Hnd].
  cbn [dispatch_all]. rewrite run_alone_bind. cbn [al_calls]. rewrite fmap_app. destruct (Hdue j ltac:(apply list_elem_of_here)) as [Hk Hrow].
  destruct (dispatch_listed routes j db ids Hk Hrow Hu) as (Hc & Hl & Hu' & Hother); [by intros ->; simpl in Hlen; lia|].
  cbv zeta in *. rewrite Hc, IH.
  - simpl. by destruct (due_trigger j).
  - intros j' Hj'. destruct (Hdue j' ltac:(by apply list_elem_of_further)) as [Hk' Hrow']. split; [done|]. rewrite Hother; [done|].
    intros Heq. apply Hj. rewrite <- Heq. apply list_elem_of_fmap. by exists j'.
  - done.
  - done.
  - lia.
Qed.

Lemma reap_groups_run groups k db ids : exists db', t_jobs db' = t_jobs db /\ (unused ids db -> unused ids db')
  /\ run_alone (reap_groups groups now k) db ids = run_alone k db' ids.
Proof.
  revert db. induction groups as [|[seconds kinds] groups IH]; intros db; simpl; [by exists db|].
  destruct (IH (reap_stale_dispatching now (seconds * SECOND) kinds db).2) as (db' & Hj & Hu & Hr). exists db'. rewrite Hr.
  unfold reap_stale_dispatching in *. destruct kinds; simpl in *; [done|]. split_and!; [done| |done]. intros [Hnd Hfree]. apply Hu.
  split; [done|]. intros i p Hi. simpl. by rewrite lookup_fmap, Hfree.
Qed.

Lemma scheduled_tick_run routes config db ids kinds :
  validate_routes routes = Ok kinds -> (lock = LockTaken \/ lock = LockKvError) ->
  (forall key j, t_jobs db !! key = Some j -> key = job_key j) -> unused ids db ->
  (length (list_due_for_tick now kinds (jc_tick_due_limit config) db) <= length ids)%nat ->
  (al_calls (run_alone (scheduled_tick_job routes config) db ids)).*1
  = omap due_trigger (list_due_for_tick now kinds (jc_tick_due_limit config) db).
Proof.
  intros Hv Hlock Hkeys Hu Hlen. unfold scheduled_tick_job. rewrite Hv. cbn [run_alone].
  replace (match lock with LockTaken | LockKvError => run_tick_body kinds config | LockIsHeld => TRet (Ok tt) | LockFailed => TRet (Err TickRaised) end)
    with (run_tick_body kinds config) by (by destruct Hlock as [-> | ->]).
  unfold run_tick_body. cbn [run_alone].
  destruct (reap_groups_run (group_kinds_by_reap_threshold kinds config)
    (stmt (fun db => (list_due_for_tick now kinds (jc_tick_due_limit config) db, db)) (fun due =>
       match due with None => TRet (Err TickRaised) | Some due => dispatch_all kinds due now end)) db ids) as (db' & Hj & Hu' & ->).
  cbn [stmt run_alone fst snd].
  assert (Hsame : list_due_for_tick now kinds (jc_tick_due_limit config) db' = list_due_for_tick now kinds (jc_tick_due_limit config) db).
  { unfold list_due_for_tick. by rewrite Hj. }
  rewrite Hsame. apply dispatch_all_run; [| |by apply Hu'|done].
  - intros j [Hd [key Hrow]]%list_due_sound. unfold is_due in Hd. rewrite !andb_true_iff in Hd. split; [apply Hd|].
    rewrite Hj. rewrite <- (Hkeys _ _ Hrow). done.
  - by apply list_due_keys.
Qed.

(** (C7) A pass that runs (its lock taken, or out of reach) with nothing beside it and every statement
    answered fires the rows that are active, due and of a kind it routes, as many as the scan's limit and
    the oldest first: each one whose next fire can be computed is handed to its handler once, in that
    order, whatever the other rows and handlers do, and a due row that is left for the next pass is due
    no earlier than any of them. *)
Theorem pass_fires_what_is_due routes config db ids kinds :
  let due := list_due_for_tick now kinds (jc_tick_due_limit config) db in
  validate_routes routes = Ok kinds -> (lock = LockTaken \/ lock = LockKvError) ->
  (forall key j, t_jobs db !! key = Some j -> key = job_key j) -> unused ids db -> (length due <= length ids)%nat ->
  (al_calls (run_alone (scheduled_tick_job routes config) db ids)).*1 = omap due_trigger due
  /\ StronglySorted due_no_later due /\ NoDup (map job_key due)
  /\ forall j, (j ∈ due -> is_due now kinds j = true)
       /\ (t_jobs db !! job_key j = Some j -> is_due now kinds j = true ->
           j ∈ due \/ length due = jc_tick_due_limit config /\ Forall (fun j' => due_no_later j' j) due).
Proof.
  cbv zeta. intros Hv Hlock Hkeys Hu Hlen. split; [|split; [apply list_due_sorted|split; [by apply list_due_keys|]]].
  { by apply scheduled_tick_run. }
  intros j. split; [by intros [? _]%list_due_sound|]. intros Hj Hd. by eapply list_due_complete.
Qed.
End Alone.
End Engine.

(** ** On a sample *)

Section Schedule.
Context (ZoneInfo : string -> result zone sched_error) (fromisoformat : string -> result Z sched_error)
        (cron_next : string -> zone -> Z -> result (option Z) sched_error) (draw : Z -> Z).

(** Task [n] takes its next step, every statement answered, the lock taken. *)
Definition tadvance (now : Z) (i : UUID) (answer : handler_answer) (n : nat) (w : tworld) : tworld :=
  match tw_tasks w !! n with
  | None => w
  | Some p =>
      let go q db' ids calls spawned :=
        mkTWorld db' (map retry_fire spawned ++ take n (tw_tasks w) ++ q :: drop (S n) (tw_tasks w)) ids (calls ++ tw_calls w) (tw_armed w) in
      let db := tw_db w in
      match p with
      | TRet _ => w
      | TNow k => go (k now) db (tw_ids w) [] []
      | TElapsed k => go (k now) db (tw_ids w) [] []
      | TFireId k => if decide (i ∈ tw_ids w) then w else go (k i) db ({[i]} ∪ tw_ids w) [] []
      | TLock k => go (k LockTaken) db (tw_ids w) [] []
      | TStmt effect next _ => go (next db) (effect db) (tw_ids w) [] []
      | TCall trigger j k => go (k answer) db (tw_ids w) [(trigger, j)] []
      | TSpawn task k => go k db (tw_ids w) [] [task]
      end
  end.

Abbreviation step := (tstep ZoneInfo fromisoformat cron_next draw).

Lemma tadvance_reaches now i answer n w : rtc step w (tadvance now i answer n w).
Proof.
  unfold tadvance. destruct (tw_tasks w !! n) as [p|] eqn:Hn; [|done]. pose proof (take_drop_middle _ _ _ Hn) as Hw. symmetry in Hw.
  destruct p; [done| | |case_decide; [done|]| | | |]; apply rtc_once; cbv beta zeta; (eapply (step_runs _ _ _ _ w _ _ _ _ _ None) || eapply (step_runs _ _ _ _ w _ _ _ _ _ (Some i)));
    try exact Hw; by constructor.
Qed.

Lemma schedule_of_tasks now answer (l : list (nat * UUID)) w : rtc step w (foldl (fun w '(n, i) => tadvance now i answer n w) w l).
Proof. revert w. induction l as [|[n i] l IH]; intros w; simpl; [done|]. etrans; [apply tadvance_reaches|apply IH]. Qed.

Lemma pass_starts routes config w :
  rtc step w (mkTWorld (tw_db w) (scheduled_tick_job ZoneInfo fromisoformat cron_next draw routes config :: tw_tasks w) (tw_ids w) (tw_calls w) (tw_armed w)).
Proof. apply rtc_once, step_starts. Qed.
End Schedule.

Definition report : job :=
  mkJob 1 2 "report" "{}" "interval" half_hourly "active" (Some (739556 * DAY_SPAN)) None "coalesce" None 0.
Definition reports : tables := mkTables {[(1%N, 2%N) := report]} ∅.
Definition noon : Z := 739556 * DAY_SPAN + 12 * HOUR.
Definition done_well : handler_answer := Returned (Some (mkJobFireResult "succeeded" None None None false None)).

Abbreviation sample_tick := (scheduled_tick_job sample_zones sample_iso sample_cron sample_draw ["report"%string] DEFAULT_JOB_CONFIG).
Abbreviation sample_step := (tstep sample_zones sample_iso sample_cron sample_draw).
Abbreviation sample_run := (foldl (fun w '(n, i) => tadvance noon i done_well n w)).

Lemma reports_ok : tables_ok sample_zones sample_iso sample_cron sample_draw reports.
Proof.
  intros key j Hj. change (({[(1%N, 2%N) := report]} : gmap row_key job) !! key = Some j) in Hj.
  apply lookup_singleton_Some in Hj as [<- <-]. split; [done|]. by apply (fixed_step_advancing _ _ _ _ report (1800 * SECOND)).
Qed.

(** Two passes list the job together; both claim, one wins, and the job is fired once. *)
Definition both_pass : tworld :=
  sample_run (mkTWorld reports [sample_tick; sample_tick] ∅ [] [])
    [(0, 7%N); (1, 7%N); (0, 7%N); (1, 7%N); (0, 7%N); (1, 7%N); (0, 7%N); (1, 7%N); (0, 7%N); (1, 7%N); (0, 7%N); (1, 7%N); (0, 7%N); (1, 7%N);
     (0, 7%N); (1, 7%N); (0, 7%N); (1, 7%N); (0, 7%N); (1, 7%N)]%nat.


Example both_pass_fires_once : length (tw_calls both_pass) = 1%nat /\ f_status <$> t_fires (tw_db both_pass) !! (1%N, 7%N) = Some "succeeded"%string.
Proof. split; vm_compute; reflexivity. Qed.





(** A pass over two due jobs, the handler of the older one raising. *)
Definition audit : job := mkJob 1 4 "report" "{}" "every_n_hours" {["n" := VInt 6]} "active" (Some (739556 * DAY_SPAN - HOUR)) None "catch_up" None 0.
Definition two_jobs : tables := mkTables {[(1%N, 2%N) := report; (1%N, 4%N) := audit]} ∅.
Definition audit_raises (t : JobTrigger) : handler_answer := if N.eqb (jt_job_id t) 4 then HandlerRaised "no disk" else done_well.

Lemma pass_fires_what_is_due_witness :
  (al_calls _ (run_alone noon 0 LockKvError audit_raises sample_tick two_jobs [7%N; 8%N])).*1
  = [trigger_of audit (739556 * DAY_SPAN - HOUR) (Some (739556 * DAY_SPAN + 5 * HOUR)) noon;
     trigger_of report (739556 * DAY_SPAN) (Some (noon + 30 * MINUTE)) noon].
Proof.
  assert (Hkeys : forall key j, t_jobs two_jobs !! key = Some j -> key = job_key j).
  { intros key j Hj. change (({[(1%N, 2%N) := report; (1%N, 4%N) := audit]} : gmap row_key job) !! key = Some j) in Hj.
    apply lookup_insert_Some in Hj as [[<- <-]|[_ Hj]]; [done|]. by apply lookup_singleton_Some in Hj as [<- <-]. }
  assert (Hunused : unused [7%N; 8%N] two_jobs) by (split; [apply (bool_decide_unpack _); vm_compute; exact I|done]).
  assert (Hlen : (length (list_due_for_tick noon ["report"%string] 200 two_jobs) <= length [7%N; 8%N])%nat) by (vm_compute; lia).
  destruct (pass_fires_what_is_due sample_zones sample_iso sample_cron sample_draw noon 0 LockKvError audit_raises ["report"%string] DEFAULT_JOB_CONFIG
    two_jobs [7%N; 8%N] ["report"%string] eq_refl (or_intror eq_refl) Hkeys Hunused Hlen) as [Hcalls _].
  rewrite Hcalls. vm_compute. reflexivity.
Defined.

(** ** What the claim does not look at *)

(** A pause that lands between the scan and the claim is undone: the claim compares the next fire alone
    and writes the status, so the job fires and is active again. *)
Definition after_scan : tworld := sample_run (mkTWorld reports [sample_tick] ∅ [] []) [(0, 7%N); (0, 7%N); (0, 7%N); (0, 7%N)]%nat.
Definition paused : tworld := mkTWorld (set_status (1%N, 2%N) "paused" noon (tw_db after_scan)).2 (tw_tasks after_scan) (tw_ids after_scan) (tw_calls after_scan) (tw_armed after_scan).
Definition pass_ends : tworld := sample_run paused [(0, 7%N); (0, 7%N); (0, 7%N); (0, 7%N); (0, 7%N); (0, 7%N)]%nat.

Theorem claim_overrides_pause :
  rtc sample_step (mkTWorld reports [] ∅ [] []) paused /\ rtc sample_step paused pass_ends
  /\ j_status <$> t_jobs (tw_db paused) !! (1%N, 2%N) = Some "paused"%string /\ tw_calls paused = []
  /\ j_status <$> t_jobs (tw_db pass_ends) !! (1%N, 2%N) = Some "active"%string /\ length (tw_calls pass_ends) = 1%nat.
Proof.
  split_and!; [|apply schedule_of_tasks|vm_compute; reflexivity..].
  assert (Ha : rtc sample_step (mkTWorld reports [] ∅ [] []) after_scan).
  { etrans; [apply pass_starts|]. apply schedule_of_tasks. }
  pose proof (statements_rearm sample_zones sample_iso sample_cron sample_draw (1%N, 2%N) 0 0 None "paused" noon (tw_db after_scan)
    (reachable_tables _ _ _ _ _ _ reports_ok Ha)) as (_ & _ & Hnone & _ & _ & Hok).
  assert (Hp : paused = mkTWorld (tw_db paused) (tw_tasks after_scan) (tw_ids after_scan) (tw_calls after_scan)
    (rearmed (tw_db after_scan) (tw_db paused) ++ tw_armed after_scan)).
  { assert (Hempty : rearmed (tw_db after_scan) (tw_db paused) = []) by (vm_compute; reflexivity). by rewrite Hempty. }
  etrans; [exact Ha|]. rewrite Hp. apply rtc_once, step_elsewhere. exact Hok.
Qed.

(** A window schedule fires twice in its first slot: the pass reschedules with the [last_fired_at] it
    listed, which is still empty at the first fire, so the slot being fired counts as open. *)
Definition survey : job :=
  mkJob 1 3 "report" "{}" "random_within_window" office_hours "active" (Some (739556 * DAY_SPAN + 10 * HOUR)) None "coalesce" None 0.
Definition surveyed (tick_at : Z) (i : UUID) (db : tables) : tables :=
  match t_jobs db !! (1%N, 3%N) with
  | Some j => al_db _ (run_alone tick_at 0 LockTaken (fun _ => done_well) (dispatch_one sample_zones sample_iso sample_cron sample_draw ["report"%string] j tick_at) db [i])
  | None => db
  end.

Theorem first_window_slot_fires_twice :
  let nine := 739556 * DAY_SPAN + 9 * HOUR in
  let db := surveyed (nine + 90 * MINUTE) 8%N (surveyed (nine + HOUR) 7%N (mkTables {[(1%N, 3%N) := survey]} ∅)) in
  window_bounds 9 17 (nine + HOUR) = Ok (nine, nine + 8 * HOUR)
  /\ f_scheduled_fire_at <$> t_fires db !! (1%N, 7%N) = Some (nine + HOUR)
  /\ f_scheduled_fire_at <$> t_fires db !! (1%N, 8%N) = Some (nine + 90 * MINUTE)
  /\ nine + 90 * MINUTE < nine + div_round (8 * HOUR) 4.
Proof. split_and!; vm_compute; reflexivity. Qed.

(** A daily job that is late into the repeated hour is fired again by every pass of it: the claim writes
    the occurrence it took. *)
Definition nightly : job :=
  mkJob 1 3 "report" "{}" "daily_at" half_past_one "active" (Some (turned_back - 30 * MINUTE)) None "coalesce" None 0.

Theorem repeated_hour_fires_every_pass :
  let db := surveyed (turned_back + 11 * MINUTE) 8%N (surveyed (turned_back + 10 * MINUTE) 7%N (mkTables {[(1%N, 3%N) := nightly]} ∅)) in
  f_scheduled_fire_at <$> t_fires db !! (1%N, 7%N) = Some (turned_back - 30 * MINUTE)
  /\ f_scheduled_fire_at <$> t_fires db !! (1%N, 8%N) = Some (turned_back - 30 * MINUTE)
  /\ j_next_fire_at <$> t_jobs db !! (1%N, 3%N) = Some (Some (turned_back - 30 * MINUTE)).
Proof. split_and!; vm_compute; reflexivity. Qed.
