(* ===== verification/CasMutate.v ===== *)
(** * Compare-and-swap rows in three tiers

    [BaseCollection.l2_cas_mutate] of [src/packages/core/src/threetears/core/collections/base.py] on a
    collection with an L3 pool, with [collections/l2_order.py] and the ordered upsert of
    [backends/schema_sql.py]: a row is swapped in L2 (a NATS KV bucket) under its revision, then written
    to L3 (the database) under the order the swap won, the creation time of the bucket and the revision.

    A call is a [cprog], a tree whose nodes are the operations it awaits. [cstep] interleaves any number
    of calls on one row; a wiped bucket comes back with a later creation time and its revisions back at
    one. Modelled are the tables without an expiry column, written synchronously, whose rows name every
    column; L1, the broadcast and the write generation, which follow the write to L3, are not. *)

From Stdlib Require Import Ascii String Bool List NArith ZArith Lia.
From stdpp Require Import base list gmap strings relations functions.
From S2P Require Import Prelude.

Open Scope Z_scope.

(** ** Orders *)

Record L2Order := mkL2Order { o_epoch : Z; o_revision : Z }.

Definition order_lt (a b : L2Order) : bool :=
  (o_epoch a <? o_epoch b) || ((o_epoch a =? o_epoch b) && (o_revision a <? o_revision b)).

(** Microseconds since 1970. *)
Definition L2_ORDER_FLOOR : L2Order := mkL2Order 0 0.

Definition order_le (a b : L2Order) : Prop := o_epoch a < o_epoch b \/ (o_epoch a = o_epoch b /\ o_revision a <= o_revision b).

Lemma order_lt_false a b : order_lt a b = false <-> order_le b a.
Proof. unfold order_lt, order_le. rewrite orb_false_iff, andb_false_iff, Z.ltb_ge, Z.eqb_neq, Z.ltb_ge. lia. Qed.

Lemma order_lt_true a b : order_lt a b = true <-> ~ order_le b a.
Proof. rewrite <- order_lt_false. by destruct (order_lt a b). Qed.

Section Tiers.
(** The columns of a row besides its dates and its order. *)
Context {F : Type} `{EqDecision F}.

(** ** Rows *)

Record row := mkRow { r_fields : F; r_date_created : option Z; r_date_updated : option Z }.

#[export] Instance row_eq_dec : EqDecision row.
Proof. solve_decision. Defined.

(** What an L2 entry decodes to. *)
Inductive l2_value := Live (r : row) | AbsentMarker | CorruptEntry.

#[export] Instance l2_value_eq_dec : EqDecision l2_value.
Proof. solve_decision. Defined.

(** A row of L3 with its order columns. *)
Record stored := mkStored { s_row : row; s_l2_epoch : option Z; s_l2_revision : option Z }.

Definition l2_order_of (s : stored) : option L2Order :=
  match s_l2_epoch s, s_l2_revision s with Some e, Some r => Some (mkL2Order e r) | _, _ => None end.

Definition with_l2_order (r : row) (o : L2Order) : stored := mkStored r (Some (o_epoch o)) (Some (o_revision o)).
Definition without_l2_order (r : row) : stored := mkStored r None None.

Inductive cas_action := Upsert (r : row) | Delete | Noop.

(** [new_row] with its dates: [date_updated] now, [date_created] kept when the callback or the prior row has one. *)
Definition stamped (now : Z) (prior : option row) (new_row : row) : row :=
  mkRow (r_fields new_row)
    (match r_date_created new_row with
     | Some d => Some d
     | None => match prior with Some p => Some (default now (r_date_created p)) | None => Some now end
     end) (Some now).

(** ** Programs *)

Inductive cas_error := CasKvError | CasStoreError | ConcurrentModificationError | CasValueError | L2EpochRegressedError | CasRuntimeError.

Record CasMutation := mkCasMutation { cm_action : string; cm_row : option stored }.

(** An answer is [None] when the operation raised; a write is answered by the revision it got, a delete
    and a save by whether a row changed. *)
Inductive cprog :=
| CRet (r : result CasMutation cas_error)
| CNow (k : Z -> cprog)
| CEpoch (k : option Z -> cprog)
| CEntry (k : option (option (l2_value * Z)) -> cprog)
| CFetch (k : option (option stored) -> cprog)
| CCreate (r : row) (k : option (option Z) -> cprog)
| CUpdate (r : row) (revision : Z) (k : option (option Z) -> cprog)
| CDeleteAt (revision : Z) (k : option bool -> cprog)
| CSave (s : stored) (k : option bool -> cprog).

(** [_l2_epoch]: the creation time as last read, or read now. *)
Definition l2_epoch (remembered : option Z) (k : option Z -> cprog) : cprog :=
  match remembered with Some e => k (Some e) | None => CEpoch k end.

(** [_refuse_regressed_epoch]. *)
Definition refuse_regressed_epoch (epoch : Z) (seeded : stored) (k : result Z cas_error -> cprog) : cprog :=
  match l2_order_of seeded with
  | Some stored_order =>
      if epoch <? o_epoch stored_order then
        CEpoch (fun fresh =>
          match fresh with
          | None => k (Err CasKvError)
          | Some fresh => k (if fresh <? o_epoch stored_order then Err L2EpochRegressedError else Ok fresh)
          end)
      else k (Ok epoch)
  | None => k (Ok epoch)
  end.

(** [_won_order]: the stream a won swap landed in. *)
Definition won_order (epoch won_revision : Z) (payload : row) (k : result L2Order cas_error -> cprog) : cprog :=
  CEpoch (fun current =>
    match current with
    | None => k (Err CasKvError)
    | Some current =>
        if current =? epoch then k (Ok (mkL2Order epoch won_revision))
        else
          CEntry (fun entry =>
            match entry with
            | None => k (Err CasKvError)
            | Some entry => k (Ok (mkL2Order (if bool_decide (entry = Some (Live payload, won_revision)) then current else epoch) won_revision))
            end)
    end).

(** [_withdraw_unpersisted_cas], and the error again. *)
Definition withdraw (won_revision : Z) (e : cas_error) : cprog := CDeleteAt won_revision (fun _ => CRet (Err e)).

(** [_confirm_superseded]: [k] when L3 holds the row under an order not older than ours. *)
Definition confirm_superseded (new_row : stored) (won_revision : Z) (k : cprog) : cprog :=
  CFetch (fun fetched =>
    match fetched with
    | None => withdraw won_revision CasStoreError
    | Some stored =>
        match l2_order_of new_row, stored ≫= l2_order_of with
        | Some ours, Some theirs => if order_lt theirs ours then withdraw won_revision CasRuntimeError else k
        | _, _ => withdraw won_revision CasRuntimeError
        end
    end).

(** [_persist_cas_result], its failures withdrawn as [l2_cas_mutate] does: [k] once the row is in L3 or a newer one is. *)
Definition persist_cas_result (new_row : stored) (won_revision : Z) (k : cprog) : cprog :=
  CSave new_row (fun saved =>
    match saved with
    | None => withdraw won_revision CasStoreError
    | Some true => k
    | Some false => confirm_superseded new_row won_revision k
    end).

Section Call.
Variable mutate : option row -> cas_action.

(** What follows a swap that won. *)
Definition after_won (prior : option row) (epoch won_revision : Z) (new_row : row) : cprog :=
  won_order epoch won_revision new_row (fun order =>
    match order with
    | Err e => CRet (Err e)
    | Ok order =>
        let new_row := with_l2_order new_row order in
        persist_cas_result new_row won_revision (CRet (Ok (mkCasMutation (if isSome prior then "updated" else "created") (Some new_row))))
    end).

(** One round from the prior row on: the callback, the swap and what follows it. *)
Definition swap_round (again : Z -> cprog) (prior : option row) (revision : option Z) (epoch : Z) : cprog :=
  match mutate prior with
  | Noop => CRet (Ok (mkCasMutation "noop" None))
  | Delete => CRet (Err CasValueError)
  | Upsert new_row =>
      CNow (fun now =>
        let new_row := stamped now prior new_row in
        let answered won :=
          match won with
          | None => CRet (Err CasKvError)
          | Some None => again epoch
          | Some (Some won_revision) => after_won prior epoch won_revision new_row
          end in
        match revision with
        | None => CCreate new_row answered
        | Some revision => CUpdate new_row revision answered
        end)
  end.

(** The rounds of [l2_cas_mutate]. *)
Fixpoint cas_rounds (attempts : nat) (epoch : Z) : cprog :=
  match attempts with
  | O => CRet (Err ConcurrentModificationError)
  | S attempts =>
      CEntry (fun entry =>
        match entry with
        | None => CRet (Err CasKvError)
        | Some entry =>
            let revision := snd <$> entry in
            match entry with
            | Some (Live prior, _) => swap_round (cas_rounds attempts) (Some prior) revision epoch
            | _ =>
                CFetch (fun fetched =>
                  match fetched with
                  | None => CRet (Err CasStoreError)
                  | Some None => swap_round (cas_rounds attempts) None revision epoch
                  | Some (Some seeded) =>
                      refuse_regressed_epoch epoch seeded (fun epoch =>
                        match epoch with
                        | Err e => CRet (Err e)
                        | Ok epoch => swap_round (cas_rounds attempts) (Some (s_row seeded)) revision epoch
                        end)
                  end)
            end
        end)
  end.

Definition MAX_RETRIES : nat := 8.

(** [l2_cas_mutate]; [remembered] is the creation time the collection read last. *)
Definition l2_cas_mutate (remembered : option Z) : cprog :=
  l2_epoch remembered (fun epoch => match epoch with None => CRet (Err CasKvError) | Some epoch => cas_rounds MAX_RETRIES epoch end).
End Call.

(** ** Interleaving *)

(** A call: its callback, whether its swap has won, and what it has left to do. *)
Record call := mkCall { c_mutate : option row -> cas_action; c_won : bool; c_prog : cprog }.

(** The bucket's creation time, its last revision and the row's entry; the row in L3; the calls. *)
Record cworld := mkCWorld {
  cw_epoch : Z;
  cw_seq : Z;
  cw_entry : option (l2_value * Z);
  cw_l3 : option stored;
  cw_calls : gmap nat call;
}.

(** The comparison of the ordered upsert: a null epoch is before every time and a null revision is -1. *)
Definition stored_before (old : stored) (o : L2Order) : bool :=
  match s_l2_epoch old with
  | None => true
  | Some e => order_lt (mkL2Order e (default (-1) (s_l2_revision old))) o
  end.

(** [INSERT ... ON CONFLICT DO UPDATE ... WHERE stored order < new order] of a row with order [o]: whether a row changed. *)
Definition upsert_ordered (s : stored) (o : L2Order) (l3 : option stored) : bool * option stored :=
  match l3 with
  | None => (true, Some s)
  | Some old => if stored_before old o then (true, Some s) else (false, l3)
  end.

(** An operation answered: what the tiers become and how the call goes on, and whether its swap just won. *)
Inductive answers (w : cworld) : cprog -> (Z * option (l2_value * Z) * option stored) -> cprog -> bool -> Prop :=
| answers_now k t : answers w (CNow k) (cw_seq w, cw_entry w, cw_l3 w) (k t) false
| answers_epoch k : answers w (CEpoch k) (cw_seq w, cw_entry w, cw_l3 w) (k (Some (cw_epoch w))) false
| answers_entry k : answers w (CEntry k) (cw_seq w, cw_entry w, cw_l3 w) (k (Some (cw_entry w))) false
| answers_fetch k : answers w (CFetch k) (cw_seq w, cw_entry w, cw_l3 w) (k (Some (cw_l3 w))) false
| answers_created r k : cw_entry w = None ->
    answers w (CCreate r k) (cw_seq w + 1, Some (Live r, cw_seq w + 1), cw_l3 w) (k (Some (Some (cw_seq w + 1)))) true
| answers_not_created r k : is_Some (cw_entry w) -> answers w (CCreate r k) (cw_seq w, cw_entry w, cw_l3 w) (k (Some None)) false
| answers_updated r revision k : snd <$> cw_entry w = Some revision ->
    answers w (CUpdate r revision k) (cw_seq w + 1, Some (Live r, cw_seq w + 1), cw_l3 w) (k (Some (Some (cw_seq w + 1)))) true
| answers_not_updated r revision k : snd <$> cw_entry w <> Some revision ->
    answers w (CUpdate r revision k) (cw_seq w, cw_entry w, cw_l3 w) (k (Some None)) false
| answers_deleted revision k : snd <$> cw_entry w = Some revision ->
    answers w (CDeleteAt revision k) (cw_seq w + 1, None, cw_l3 w) (k (Some true)) false
| answers_not_deleted revision k : snd <$> cw_entry w <> Some revision ->
    answers w (CDeleteAt revision k) (cw_seq w, cw_entry w, cw_l3 w) (k (Some false)) false
| answers_saved s o k : l2_order_of s = Some o ->
    answers w (CSave s k) (cw_seq w, cw_entry w, (upsert_ordered s o (cw_l3 w)).2) (k (Some (upsert_ordered s o (cw_l3 w)).1)) false.

(** An operation that raised, and did nothing; the save of a row without an order can only raise. *)
Inductive raises : cprog -> cprog -> Prop :=
| raises_epoch k : raises (CEpoch k) (k None)
| raises_entry k : raises (CEntry k) (k None)
| raises_fetch k : raises (CFetch k) (k None)
| raises_create r k : raises (CCreate r k) (k None)
| raises_update r revision k : raises (CUpdate r revision k) (k None)
| raises_delete revision k : raises (CDeleteAt revision k) (k None)
| raises_save s k : raises (CSave s k) (k None).

Definition finished (c : call) : Prop := exists r, c_prog c = CRet r.
Definition at_rest (w : cworld) : Prop := forall i c, cw_calls w !! i = Some c -> finished c.

(** [careful] is what the tiers promise: a call whose swap has won is not cut off from them, and L2 loses
    the row only while no call runs. Without it anything may raise, and L2 lose the row, at any moment. *)
Inductive cstep (careful : Prop) (w : cworld) : cworld -> Prop :=
| step_starts i mutate remembered : cw_calls w !! i = None -> (forall e, remembered = Some e -> e <= cw_epoch w) ->
    cstep careful w (mkCWorld (cw_epoch w) (cw_seq w) (cw_entry w) (cw_l3 w) (<[i := mkCall mutate false (l2_cas_mutate mutate remembered)]> (cw_calls w)))
| step_answers i c seq' entry' l3' q won : cw_calls w !! i = Some c -> answers w (c_prog c) (seq', entry', l3') q won ->
    cstep careful w (mkCWorld (cw_epoch w) seq' entry' l3' (<[i := mkCall (c_mutate c) (won || c_won c) q]> (cw_calls w)))
| step_raises i c q : cw_calls w !! i = Some c -> (careful -> c_won c = false) -> raises (c_prog c) q ->
    cstep careful w (mkCWorld (cw_epoch w) (cw_seq w) (cw_entry w) (cw_l3 w) (<[i := mkCall (c_mutate c) (c_won c) q]> (cw_calls w)))
| step_key_lost : (careful -> at_rest w) -> cstep careful w (mkCWorld (cw_epoch w) (cw_seq w) None (cw_l3 w) (cw_calls w))
| step_wiped epoch' : (careful -> at_rest w) -> cw_epoch w < epoch' -> cstep careful w (mkCWorld epoch' 0 None (cw_l3 w) (cw_calls w)).

(** ** What a call may do *)

(** A row the callback makes of a prior one, at some time. *)
Definition swap_of (mutate : option row -> cas_action) (prior : option row) (r : row) : Prop :=
  exists new_row now, mutate prior = Upsert new_row /\ r = stamped now prior new_row.

(** What a call knows or owes: that the entry at a revision is not a live row; the row to build on while
    the entry is at a revision; that its swap won, and is or is not the last one; that L3 holds a newer
    order; that its row is in L3. *)
Inductive ticket :=
| Idle
| Gap (revision : option Z)
| Ready (prior : option row) (revision : option Z)
| Won (revision : Z) (r : row)
| Checked (revision : Z) (r : row) (last : bool)
| Refused (o : L2Order) (r : row)
| Landed (r : row).

Definition won_ticket (tk : ticket) : bool := match tk with Idle | Gap _ | Ready _ _ => false | _ => true end.
Definition ticket_row (tk : ticket) : option row :=
  match tk with Won _ r | Checked _ r _ | Refused _ r | Landed r => Some r | _ => None end.
Definition pending (tk : ticket) : option Z := match tk with Won rev _ | Checked rev _ _ => Some rev | _ => None end.

Definition seen (entry : option (l2_value * Z)) : ticket :=
  match entry with Some (Live prior, rev) => Ready (Some prior) (Some rev) | _ => Gap (snd <$> entry) end.

Section Ok.
Variable E : Z.
Variable mutate : option row -> cas_action.

Fixpoint ok (tk : ticket) (p : cprog) : Prop :=
  match p with
  | CRet (Ok m) =>
      match tk with
      | Landed r => s_row <$> cm_row m = Some r
      | _ => won_ticket tk = false /\ cm_row m = None
      end
  | CRet (Err _) => won_ticket tk = false
  | CNow k => forall t, ok tk (k t)
  | CEpoch k => ok tk (k (Some E)) /\ (won_ticket tk = false -> ok tk (k None))
  | CEntry k =>
      match tk with
      | Won rev r => forall v rev', rev < rev' \/ (rev = rev' /\ v = r) ->
          ok (Checked rev r (bool_decide (rev = rev'))) (k (Some (Some (Live v, rev'))))
      | _ => won_ticket tk = false /\ ok tk (k None) /\ forall entry, ok (seen entry) (k (Some entry))
      end
  | CFetch k =>
      match tk with
      | Gap revision => ok tk (k None) /\ forall s, ok (Ready (s_row <$> s) revision) (k (Some s))
      | Refused o r => forall s o', l2_order_of s = Some o' -> order_le o o' -> ok (Landed r) (k (Some (Some s)))
      | _ => False
      end
  | CCreate r k => exists prior, tk = Ready prior None /\ swap_of mutate prior r /\ ok Idle (k None) /\ ok Idle (k (Some None))
      /\ forall rev, ok (Won rev r) (k (Some (Some rev)))
  | CUpdate r revision k => exists prior, tk = Ready prior (Some revision) /\ swap_of mutate prior r /\ ok Idle (k None) /\ ok Idle (k (Some None))
      /\ forall rev, ok (Won rev r) (k (Some (Some rev)))
  | CDeleteAt _ _ => False
  | CSave s k => exists rev o, s = with_l2_order (s_row s) o /\ order_le o (mkL2Order E rev)
      /\ (tk = Won rev (s_row s) /\ o = mkL2Order E rev
          \/ exists last, tk = Checked rev (s_row s) last /\ (last = true -> o = mkL2Order E rev))
      /\ ok (Landed (s_row s)) (k (Some true)) /\ ok (Refused o (s_row s)) (k (Some false))
  end.

Lemma with_order_of r o : l2_order_of (with_l2_order r o) = Some o.
Proof. by destruct o. Qed.

Lemma persist_ok tk r o rev k : order_le o (mkL2Order E rev) ->
  (tk = Won rev r /\ o = mkL2Order E rev \/ exists last, tk = Checked rev r last /\ (last = true -> o = mkL2Order E rev)) ->
  ok (Landed r) k -> ok tk (persist_cas_result (with_l2_order r o) rev k).
Proof.
  intros Ho Htk Hk. exists rev, o. split_and!; [done|done|done|done|]. intros s o' Hs Hle.
  rewrite with_order_of. simpl. rewrite Hs. simpl. by apply order_lt_false in Hle as ->.
Qed.

Lemma after_won_ok prior epoch rev r : epoch <= E -> ok (Won rev r) (after_won prior epoch rev r).
Proof.
  intros He. split; [|done]. destruct (Z.eqb_spec E epoch) as [<-|Hne].
  - apply persist_ok; [right; simpl; lia|by left|done].
  - intros v rev' Hrev. refine (persist_ok (Checked rev r (bool_decide (rev = rev'))) r _ rev _ _ (or_intror _) _); [| |done].
    + unfold order_le. case_bool_decide; simpl; lia.
    + eexists. split; [done|]. rewrite bool_decide_eq_true. intros <-. f_equal. destruct Hrev as [|[_ ->]]; [lia|].
      by rewrite bool_decide_eq_true_2.
Qed.

Lemma swap_round_ok again prior revision epoch : epoch <= E -> (forall epoch, epoch <= E -> ok Idle (again epoch)) ->
  ok (Ready prior revision) (swap_round mutate again prior revision epoch).
Proof.
  intros He Hagain. unfold swap_round. destruct (mutate prior) as [r| |] eqn:Hm; [|done|done]. intros now.
  destruct revision as [revision|]; exists prior; (split_and!; [done|by exists r, now|done|by apply Hagain|intros rev; by apply after_won_ok]).
Qed.

Lemma cas_rounds_ok attempts epoch : epoch <= E -> ok Idle (cas_rounds mutate attempts epoch).
Proof.
  revert epoch. induction attempts as [|attempts IH]; intros epoch He; [done|]. split_and!; [done|done|]. intros entry.
  assert (Hgap : forall revision, ok (Gap revision) (CFetch (fun fetched =>
    match fetched with
    | None => CRet (Err CasStoreError)
    | Some None => swap_round mutate (cas_rounds mutate attempts) None revision epoch
    | Some (Some seeded) =>
        refuse_regressed_epoch epoch seeded (fun epoch =>
          match epoch with Err e => CRet (Err e) | Ok epoch => swap_round mutate (cas_rounds mutate attempts) (Some (s_row seeded)) revision epoch end)
    end))).
  { intros revision. split; [done|]. intros [seeded|]; simpl; [|by apply swap_round_ok]. unfold refuse_regressed_epoch.
    destruct (l2_order_of seeded) as [o|]; [|by apply swap_round_ok]. destruct (epoch <? o_epoch o); [|by apply swap_round_ok].
    split; [|done]. destruct (E <? o_epoch o); [done|]. apply swap_round_ok; [lia|done]. }
  destruct entry as [[[prior| |] rev]|]; [by apply swap_round_ok|apply Hgap..].
Qed.

Lemma l2_cas_mutate_ok remembered : (forall e, remembered = Some e -> e <= E) -> ok Idle (l2_cas_mutate mutate remembered).
Proof.
  intros Hr. unfold l2_cas_mutate, l2_epoch. destruct remembered as [e|]; [exact (cas_rounds_ok MAX_RETRIES e (Hr e eq_refl))|].
  exact (conj (cas_rounds_ok MAX_RETRIES E (Z.le_refl E)) (fun _ => eq_refl)).
Qed.
End Ok.

(** ** The row is the chain of the swaps *)

(** [swaps] applied in order lead from one row to another, each by the callback of its call. *)
Inductive chain (calls : gmap nat call) (start : option row) : list (nat * row) -> option row -> Prop :=
| chain_nil : chain calls start [] start
| chain_snoc swaps mid i c r : chain calls start swaps mid -> calls !! i = Some c -> swap_of (c_mutate c) mid r ->
    chain calls start (swaps ++ [(i, r)]) (Some r).

(** Both order columns are null or none is, as [with_l2_order], [without_l2_order] and the migration leave them. *)
Definition paired (s : stored) : Prop := isSome (s_l2_epoch s) = isSome (s_l2_revision s).
Definition not_live (entry : option (l2_value * Z)) : Prop := forall v r, entry <> Some (Live v, r).
Definition below (l3 : option stored) (o : L2Order) : Prop := forall s o', l3 = Some s -> l2_order_of s = Some o' -> ~ order_le o o'.

(** What a ticket says of the tiers; [cur] is the row the swaps have led to. *)
Definition agrees (w : cworld) (cur : option row) (tk : ticket) : Prop :=
  match tk with
  | Idle | Landed _ => True
  | Gap revision => (forall rev, revision = Some rev -> rev <= cw_seq w) /\ (snd <$> cw_entry w = revision -> not_live (cw_entry w))
  | Ready prior revision => (forall rev, revision = Some rev -> rev <= cw_seq w) /\ (snd <$> cw_entry w = revision -> prior = cur)
  | Won rev r => exists v r', cw_entry w = Some (Live v, r') /\ (rev < r' \/ (rev = r' /\ v = r))
  | Checked rev r last => exists v r', cw_entry w = Some (Live v, r') /\ (rev < r' \/ (rev = r' /\ v = r /\ last = true))
  | Refused o _ => exists s o', cw_l3 w = Some s /\ l2_order_of s = Some o' /\ order_le o o'
  end.

(** L3 has the row, under an order no pending swap is above, or the call that swapped it has it to write. *)
Definition covered (w : cworld) (T : nat -> ticket) (v : row) (r : Z) : Prop :=
  (exists s, cw_l3 w = Some s /\ s_row s = v /\
     forall i c rev, cw_calls w !! i = Some c -> pending (T i) = Some rev ->
       rev = r \/ exists o, l2_order_of s = Some o /\ order_le (mkL2Order (cw_epoch w) rev) o)
  \/ ((exists i c, cw_calls w !! i = Some c /\ pending (T i) = Some r) /\ below (cw_l3 w) (mkL2Order (cw_epoch w) r)).

Definition tiers_agree (w : cworld) (T : nat -> ticket) (cur : option row) : Prop :=
  match cw_entry w with
  | Some (Live v, r) => cur = Some v /\ covered w T v r
  | _ => s_row <$> cw_l3 w = cur
  end.

Record sound (start : option row) (w : cworld) (T : nat -> ticket) (swaps : list (nat * row)) (cur : option row) : Prop := mkSound {
  sd_calls : forall i c, cw_calls w !! i = Some c -> ok (cw_epoch w) (c_mutate c) (T i) (c_prog c) /\ c_won c = won_ticket (T i) /\ agrees w cur (T i);
  sd_chain : chain (cw_calls w) start swaps cur;
  sd_once : NoDup swaps.*1;
  sd_swaps : forall i r, (i, r) ∈ swaps <-> is_Some (cw_calls w !! i) /\ ticket_row (T i) = Some r;
  sd_seq : forall v r, cw_entry w = Some (v, r) -> r <= cw_seq w;
  sd_paired : forall s, cw_l3 w = Some s -> paired s;
  sd_l3 : forall s o, cw_l3 w = Some s -> l2_order_of s = Some o -> order_le o (mkL2Order (cw_epoch w) (cw_seq w));
  sd_tiers : tiers_agree w T cur;
}.

Lemma order_le_trans a b c : order_le a b -> order_le b c -> order_le a c.
Proof. unfold order_le. lia. Qed.

Lemma won_ticket_row tk : won_ticket tk = isSome (ticket_row tk).
Proof. by destruct tk. Qed.

Lemma chain_calls calls calls' start swaps cur : chain calls start swaps cur ->
  (forall i c, calls !! i = Some c -> exists c', calls' !! i = Some c' /\ c_mutate c' = c_mutate c) -> chain calls' start swaps cur.
Proof.
  intros Hc Hkeep. induction Hc as [|swaps mid i c r _ IH Hi Hswap]; [constructor|]. destruct (Hkeep i c Hi) as (c' & Hc' & Hm).
  econstructor; [exact IH|exact Hc'|by rewrite Hm].
Qed.

(** A call goes on, and what the tiers do meanwhile. *)
Lemma chain_goes_on calls start swaps cur i c won q : calls !! i = Some c -> chain calls start swaps cur ->
  chain (<[i := mkCall (c_mutate c) won q]> calls) start swaps cur.
Proof.
  intros Hi Hc. refine (chain_calls _ _ _ _ _ Hc _). intros j d Hj. destruct (decide (i = j)) as [<-|Hne].
  - rewrite lookup_insert_eq. eexists. split; [done|]. by simplify_eq.
  - rewrite lookup_insert_ne by done. by exists d.
Qed.

Abbreviation set_call w i c q := (mkCWorld (cw_epoch w) (cw_seq w) (cw_entry w) (cw_l3 w) (<[i := mkCall (c_mutate c) (c_won c) q]> (cw_calls w))).

(** The tickets of the calls after one of them went on. *)
Lemma calls_go_on w w' (T : nat -> ticket) cur cur' i c tk' won q :
  cw_calls w' = <[i := mkCall (c_mutate c) won q]> (cw_calls w) -> cw_epoch w' = cw_epoch w ->
  (forall j d, cw_calls w !! j = Some d -> ok (cw_epoch w) (c_mutate d) (T j) (c_prog d) /\ c_won d = won_ticket (T j) /\ agrees w cur (T j)) ->
  (forall j d, i <> j -> cw_calls w !! j = Some d -> agrees w cur (T j) -> agrees w' cur' (T j)) ->
  ok (cw_epoch w) (c_mutate c) tk' q -> won = won_ticket tk' -> agrees w' cur' tk' ->
  forall j d, cw_calls w' !! j = Some d ->
    ok (cw_epoch w') (c_mutate d) (<[i := tk']> T j) (c_prog d) /\ c_won d = won_ticket (<[i := tk']> T j) /\ agrees w' cur' (<[i := tk']> T j).
Proof.
  intros Hcalls Hep Hall Hother Hok Hwon Hag j d. rewrite Hcalls, Hep. destruct (decide (i = j)) as [<-|Hne].
  - rewrite lookup_insert_eq, fn_lookup_insert. by intros [= <-].
  - rewrite lookup_insert_ne, fn_lookup_insert_ne by done. intros Hj. destruct (Hall j d Hj) as (Ho & Hw & Ha).
    split_and!; [done|done|]. by apply (Hother j d).
Qed.

Lemma swaps_go_on {calls : gmap nat call} {T : nat -> ticket} {swaps : list (nat * row)} {i c c' tk'} : calls !! i = Some c ->
  (forall j r, (j, r) ∈ swaps <-> is_Some (calls !! j) /\ ticket_row (T j) = Some r) -> ticket_row tk' = ticket_row (T i) ->
  forall j r, (j, r) ∈ swaps <-> is_Some (<[i := c']> calls !! j) /\ ticket_row (<[i := tk']> T j) = Some r.
Proof.
  intros Hi Hs Hrow j r. rewrite Hs. destruct (decide (i = j)) as [<-|Hne].
  - rewrite lookup_insert_eq, fn_lookup_insert, Hrow, Hi. split; intros [_ ?]; (split; [eauto|done]).
  - by rewrite lookup_insert_ne, fn_lookup_insert_ne.
Qed.

Lemma sound_quiet start w T swaps cur i c tk' q : sound start w T swaps cur -> cw_calls w !! i = Some c ->
  ok (cw_epoch w) (c_mutate c) tk' q -> agrees w cur tk' -> ticket_row tk' = ticket_row (T i) -> pending tk' = pending (T i) ->
  sound start (set_call w i c q) (<[i := tk']> T) swaps cur.
Proof.
  intros Hs Hi Hok Hag Hrow Hpend. destruct (sd_calls _ _ _ _ _ Hs i c Hi) as (_ & Hwon & _).
  assert (Hp : forall j, pending (<[i := tk']> T j) = pending (T j)).
  { intros j. destruct (decide (i = j)) as [<-|]; [by rewrite fn_lookup_insert|by rewrite fn_lookup_insert_ne]. }
  assert (Hin : forall j, is_Some (<[i := mkCall (c_mutate c) (c_won c) q]> (cw_calls w) !! j) <-> is_Some (cw_calls w !! j)).
  { intros j. rewrite lookup_insert_is_Some'. split; [intros [<-|]|]; eauto. }
  constructor; simpl; [|by apply chain_goes_on, Hs|apply Hs|by apply (swaps_go_on Hi), Hrow; apply Hs|apply Hs|apply Hs|apply Hs|].
  - refine (calls_go_on w (set_call w i c q) T cur cur i c tk' (c_won c) q eq_refl eq_refl (sd_calls _ _ _ _ _ Hs) _ Hok _ Hag); [done|].
    by rewrite Hwon, !won_ticket_row, Hrow.
  - pose proof (sd_tiers _ _ _ _ _ Hs) as Ht. unfold tiers_agree, covered in *. simpl. destruct (cw_entry w) as [[[v| |] r]|]; try done.
    destruct Ht as [-> [(s & Hl3 & Hv & Hall)|[(j & d & Hj & Hr) Hb]]]; (split; [done|]); [left|right].
    + exists s. split_and!; [done|done|]. intros j d rev Hj. rewrite Hp. destruct (proj1 (Hin j) (mk_is_Some _ _ Hj)) as [d' Hd']. by apply (Hall j d').
    + split; [|done]. destruct (proj2 (Hin j) (mk_is_Some _ _ Hj)) as [d' Hd']. exists j, d'. by rewrite Hp.
Qed.

(** A swap wins: the entry moves past every revision a ticket names. *)
Lemma sound_won start w T swaps cur i c prior revision r q : sound start w T swaps cur -> cw_calls w !! i = Some c ->
  T i = Ready prior revision -> snd <$> cw_entry w = revision -> swap_of (c_mutate c) prior r ->
  ok (cw_epoch w) (c_mutate c) (Won (cw_seq w + 1) r) q ->
  sound start (mkCWorld (cw_epoch w) (cw_seq w + 1) (Some (Live r, cw_seq w + 1)) (cw_l3 w) (<[i := mkCall (c_mutate c) true q]> (cw_calls w)))
    (<[i := Won (cw_seq w + 1) r]> T) (swaps ++ [(i, r)]) (Some r).
Proof.
  intros Hs Hi HT Hrev Hswap Hok. destruct (sd_calls _ _ _ _ _ Hs i c Hi) as (_ & Hwon & Hag). rewrite HT in Hag, Hwon.
  assert (prior = cur) as -> by by apply Hag.
  assert (Hnew : forall r', (i, r') ∉ swaps) by (intros r' Hin; apply (sd_swaps _ _ _ _ _ Hs) in Hin as [_ Hin]; by rewrite HT in Hin).
  constructor; simpl.
  - refine (calls_go_on w (mkCWorld _ _ _ _ _) T cur (Some r) i c _ true q eq_refl eq_refl (sd_calls _ _ _ _ _ Hs) _ Hok eq_refl _);
      [|exists r, (cw_seq w + 1); by auto].
    intros j d _ _. destruct (T j) as [|revision'|prior' revision'|rev' r'|rev' r' last|o r'|r']; simpl; try done.
    + intros [Hle _]. split; [intros rev' ->; specialize (Hle rev' eq_refl); lia|intros <-; specialize (Hle _ eq_refl); lia].
    + intros [Hle _]. split; [intros rev' ->; specialize (Hle rev' eq_refl); lia|intros <-; specialize (Hle _ eq_refl); lia].
    + intros (v & r1 & He & Hr). exists r, (cw_seq w + 1). split; [done|]. left. pose proof (sd_seq _ _ _ _ _ Hs _ _ He). lia.
    + intros (v & r1 & He & Hr). exists r, (cw_seq w + 1). split; [done|]. left. pose proof (sd_seq _ _ _ _ _ Hs _ _ He). lia.
  - econstructor; [by apply chain_goes_on, Hs|by rewrite lookup_insert_eq|done].
  - rewrite fmap_app. apply list.NoDup_app. split_and!; [apply Hs| |apply NoDup_singleton].
    intros j ([j' r'] & -> & Hin)%list_elem_of_fmap. simpl. rewrite list_elem_of_singleton. intros ->. by apply (Hnew r').
  - intros j r'. rewrite elem_of_app, list_elem_of_singleton. destruct (decide (i = j)) as [<-|Hne].
    + rewrite lookup_insert_eq, fn_lookup_insert. simpl. split; [intros [Hin|[= ->]]; [by apply Hnew in Hin|eauto]|].
      intros [_ [= ->]]. by right.
    + rewrite lookup_insert_ne, fn_lookup_insert_ne by done. rewrite <- (sd_swaps _ _ _ _ _ Hs). split; [|by left].
      intros [|[= <- _]]; done.
  - intros v r' [= _ <-]. lia.
  - apply Hs.
  - intros s o Hl3 Ho. pose proof (sd_l3 _ _ _ _ _ Hs s o Hl3 Ho) as Hle. unfold order_le in *. simpl in *. lia.
  - split; [done|]. right. split.
    + eexists i, _. simpl. by rewrite lookup_insert_eq, fn_lookup_insert.
    + intros s o Hl3 Ho Hle. pose proof (sd_l3 _ _ _ _ _ Hs s o Hl3 Ho) as Hle'. unfold order_le in *. simpl in *. lia.
Qed.

(** A new call. *)
Lemma sound_starts start w T swaps cur i mutate p : sound start w T swaps cur -> cw_calls w !! i = None -> ok (cw_epoch w) mutate Idle p ->
  sound start (mkCWorld (cw_epoch w) (cw_seq w) (cw_entry w) (cw_l3 w) (<[i := mkCall mutate false p]> (cw_calls w))) (<[i := Idle]> T) swaps cur.
Proof.
  intros Hs Hi Hok.
  assert (Hne : forall j d, cw_calls w !! j = Some d -> i <> j) by (intros j d Hj ->; by rewrite Hi in Hj).
  constructor; simpl.
  - intros j d. destruct (decide (i = j)) as [<-|Hij].
    + rewrite lookup_insert_eq, fn_lookup_insert. by intros [= <-].
    + rewrite lookup_insert_ne, fn_lookup_insert_ne by done. apply (sd_calls _ _ _ _ _ Hs).
  - refine (chain_calls _ _ _ _ _ (sd_chain _ _ _ _ _ Hs) _). intros j d Hj. exists d. by rewrite lookup_insert_ne by eauto.
  - apply Hs.
  - intros j r. rewrite (sd_swaps _ _ _ _ _ Hs). destruct (decide (i = j)) as [<-|Hij].
    + rewrite lookup_insert_eq, fn_lookup_insert, Hi. split; [intros [[] _]; done|by intros [_ ?]].
    + by rewrite lookup_insert_ne, fn_lookup_insert_ne.
  - apply Hs.
  - apply Hs.
  - apply Hs.
  - pose proof (sd_tiers _ _ _ _ _ Hs) as Ht. unfold tiers_agree, covered in *. simpl. destruct (cw_entry w) as [[[v| |] r]|]; try done.
    destruct Ht as [-> [(s & Hl3 & Hv & Hall)|[(j & d & Hj & Hr) Hb]]]; (split; [done|]); [left|right].
    + exists s. split_and!; [done|done|]. intros j d rev. destruct (decide (i = j)) as [<-|Hij]; [by rewrite fn_lookup_insert|].
      rewrite lookup_insert_ne, fn_lookup_insert_ne by done. apply Hall.
    + split; [|done]. exists j, d. by rewrite lookup_insert_ne, fn_lookup_insert_ne by eauto.
Qed.

Lemma upsert_spec r o l3 : (forall s, l3 = Some s -> paired s) ->
  (upsert_ordered (with_l2_order r o) o l3 = (true, Some (with_l2_order r o)) /\ below l3 o)
  \/ (upsert_ordered (with_l2_order r o) o l3 = (false, l3) /\ exists s o', l3 = Some s /\ l2_order_of s = Some o' /\ order_le o o').
Proof.
  intros Hp. unfold upsert_ordered. destruct l3 as [old|]; [|by left]. specialize (Hp old eq_refl). unfold paired in Hp. unfold stored_before, below.
  destruct (s_l2_epoch old) as [e|] eqn:He; [|left; split; [done|]; intros s o1 [= <-]; unfold l2_order_of; by rewrite He].
  destruct (s_l2_revision old) as [rev|] eqn:Hr; [|done]. simpl.
  assert (Ho : l2_order_of old = Some (mkL2Order e rev)) by (unfold l2_order_of; by rewrite He, Hr).
  destruct (order_lt (mkL2Order e rev) o) eqn:Hlt; [left|right]; (split; [done|]).
  - intros s o1 [= <-]. rewrite Ho. intros [= <-]. by apply order_lt_true.
  - exists old, (mkL2Order e rev). by rewrite order_lt_false in Hlt.
Qed.

Lemma not_order_le a b : ~ order_le a b -> order_le b a.
Proof. unfold order_le. lia. Qed.

(** The tiers still agree after the write of a pending swap, whichever way it went. *)
Lemma covered_saved w T i c c' tk' v r' rev r o : (forall s, cw_l3 w = Some s -> paired s) -> cw_calls w !! i = Some c -> pending (T i) = Some rev -> pending tk' = None ->
  (rev < r' \/ (rev = r' /\ v = r /\ o = mkL2Order (cw_epoch w) rev)) -> order_le o (mkL2Order (cw_epoch w) rev) ->
  (forall j d rev', cw_calls w !! j = Some d -> pending (T j) = Some rev' -> rev' <= r') -> covered w T v r' ->
  covered (mkCWorld (cw_epoch w) (cw_seq w) (cw_entry w) (upsert_ordered (with_l2_order r o) o (cw_l3 w)).2 (<[i := c']> (cw_calls w))) (<[i := tk']> T) v r'.
Proof.
  intros Hl3p Hi Hp Hp' Hrev Ho Hmax Hcov.
  assert (Hback : forall j d rev', <[i := c']> (cw_calls w) !! j = Some d -> pending (<[i := tk']> T j) = Some rev' ->
    exists d', cw_calls w !! j = Some d' /\ pending (T j) = Some rev').
  { intros j d rev'. destruct (decide (i = j)) as [<-|]; [rewrite fn_lookup_insert, Hp'; done|].
    rewrite lookup_insert_ne, fn_lookup_insert_ne by done. eauto. }
  unfold covered. simpl. destruct (upsert_spec r o (cw_l3 w) Hl3p) as [[-> Hb]|[-> Hge]]; simpl.
  - destruct Hrev as [Hlt|(-> & -> & ->)].
    + right. destruct Hcov as [(s & Hl3 & Hv & Hall)|[(j & d & Hj & Hr) Hbj]].
      { exfalso. destruct (Hall i c rev Hi Hp) as [|(o' & Ho' & Hle)]; [lia|]. apply (Hb s o' Hl3 Ho'). by apply (order_le_trans _ _ _ Ho). }
      split; [|intros s o' [= <-]; rewrite with_order_of; intros [= <-] Hle; unfold order_le in *; simpl in *; lia].
      exists j, d. assert (i <> j) by (intros ->; rewrite Hp in Hr; injection Hr; lia). by rewrite lookup_insert_ne, fn_lookup_insert_ne by done.
    + left. eexists. split_and!; [done|done|]. intros j d rev' Hj Hr. destruct (Hback j d rev' Hj Hr) as (d' & Hd' & Hr').
      right. eexists. rewrite with_order_of. split; [done|]. right. simpl. specialize (Hmax j d' rev' Hd' Hr'). lia.
  - destruct Hcov as [(s & Hl3 & Hv & Hall)|[(j & d & Hj & Hr) Hbj]]; [left|right].
    + exists s. split_and!; [done|done|]. intros j d rev' Hj Hr. destruct (Hback j d rev' Hj Hr) as (d' & Hd' & Hr'). by apply (Hall j d').
    + split; [|done]. exists j, d. assert (i <> j) as Hij; [|by rewrite lookup_insert_ne, fn_lookup_insert_ne by done].
      intros <-. rewrite Hp in Hr. injection Hr as ->. destruct Hge as (s & o' & Hl3 & Ho' & Hle). apply (Hbj s o' Hl3 Ho').
      destruct Hrev as [|(_ & _ & ->)]; [lia|done].
Qed.

Lemma pending_agrees w cur tk rev : pending tk = Some rev -> agrees w cur tk ->
  exists v r', cw_entry w = Some (Live v, r') /\ rev <= r'.
Proof. destruct tk; simpl; try done; intros [= <-] (v & r' & He & Hr); exists v, r'; (split; [done|lia]). Qed.

Lemma upsert_raises_order s r o l3 o1 : (forall s, l3 = Some s -> paired s) -> l3 = Some s -> l2_order_of s = Some o1 ->
  exists s' o2, (upsert_ordered (with_l2_order r o) o l3).2 = Some s' /\ l2_order_of s' = Some o2 /\ order_le o1 o2.
Proof.
  intros Hl3p Hl3 Ho. destruct (upsert_spec r o l3 Hl3p) as [[-> Hb]|[-> _]]; simpl; [|by exists s, o1; split_and!; try done; right; lia].
  exists (with_l2_order r o), o. split_and!; [done|apply with_order_of|]. apply not_order_le. by apply (Hb s).
Qed.

Lemma sound_saved start w T swaps cur i c rev r o v r' q : sound start w T swaps cur -> cw_calls w !! i = Some c ->
  pending (T i) = Some rev -> ticket_row (T i) = Some r -> cw_entry w = Some (Live v, r') ->
  (rev < r' \/ (rev = r' /\ v = r /\ o = mkL2Order (cw_epoch w) rev)) -> order_le o (mkL2Order (cw_epoch w) rev) ->
  let saved := (upsert_ordered (with_l2_order r o) o (cw_l3 w)).1 in
  ok (cw_epoch w) (c_mutate c) (if saved then Landed r else Refused o r) q ->
  sound start (mkCWorld (cw_epoch w) (cw_seq w) (cw_entry w) (upsert_ordered (with_l2_order r o) o (cw_l3 w)).2
      (<[i := mkCall (c_mutate c) (c_won c) q]> (cw_calls w)))
    (<[i := if saved then Landed r else Refused o r]> T) swaps cur.
Proof.
  intros Hs Hi Hp Hrow He Hrev Ho saved Hok. pose proof (sd_paired _ _ _ _ _ Hs) as Hl3p. destruct (sd_calls _ _ _ _ _ Hs i c Hi) as (_ & Hwon & _).
  assert (Hrow' : ticket_row (if saved then Landed r else Refused o r) = ticket_row (T i)) by (rewrite Hrow; by destruct saved).
  constructor; simpl; [|by apply chain_goes_on, Hs|apply Hs|by apply (swaps_go_on Hi), Hrow'; apply Hs|apply Hs| | |].
  - refine (calls_go_on w (mkCWorld _ _ _ _ _) T cur cur i c _ (c_won c) q eq_refl eq_refl (sd_calls _ _ _ _ _ Hs) _ Hok _ _).
    + intros j d _ _. destruct (T j) as [| | | | |o1 r1|]; simpl; try done. intros (s & o' & Hl3 & Ho' & Hle).
      destruct (upsert_raises_order s r o (cw_l3 w) o' Hl3p Hl3 Ho') as (s' & o2 & Hs' & Ho2 & Hle').
      exists s', o2. split_and!; [done|done|]. by apply (order_le_trans _ _ _ Hle).
    + by rewrite Hwon, !won_ticket_row, Hrow'.
    + unfold saved. destruct (upsert_spec r o (cw_l3 w) Hl3p) as [[-> _]|[-> Hge]]; done.
  - intros s. destruct (upsert_spec r o (cw_l3 w) Hl3p) as [[-> _]|[-> _]]; simpl; [by intros [= <-]|apply Hl3p].
  - intros s o1. destruct (upsert_spec r o (cw_l3 w) Hl3p) as [[-> _]|[-> _]]; simpl; [|apply Hs].
    intros [= <-]. rewrite with_order_of. intros [= <-]. apply (order_le_trans _ _ _ Ho). right. simpl.
    pose proof (sd_seq _ _ _ _ _ Hs _ _ He). lia.
  - pose proof (sd_tiers _ _ _ _ _ Hs) as Ht. unfold tiers_agree in *. simpl. rewrite He in *. destruct Ht as [-> Hcov]. split; [done|].
    rewrite <- He. refine (covered_saved w T i c _ _ v r' rev r o Hl3p Hi Hp _ Hrev Ho _ Hcov); [by destruct saved|].
    intros j d rev' Hj Hr. destruct (pending_agrees w (Some v) (T j) rev' Hr) as (v1 & r1 & He1 & Hle); [by apply (sd_calls _ _ _ _ _ Hs j d Hj)|].
    by simplify_eq.
Qed.

(** *** Once no call runs *)

Definition done_ticket (tk : ticket) : ticket := match ticket_row tk with Some r => Landed r | None => Idle end.

Lemma done_ticket_row tk : ticket_row (done_ticket tk) = ticket_row tk.
Proof. by destruct tk. Qed.

Lemma done_ticket_won tk : won_ticket (done_ticket tk) = won_ticket tk.
Proof. by destruct tk. Qed.

Lemma ok_returned E mutate tk r : ok E mutate tk (CRet r) -> pending tk = None /\ forall E', ok E' mutate (done_ticket tk) (CRet r).
Proof. destruct r as [m|e]; simpl; destruct tk; simpl; intuition congruence. Qed.

Lemma rest_in_l3 start w T swaps cur : sound start w T swaps cur -> at_rest w -> s_row <$> cw_l3 w = cur.
Proof.
  intros Hs Hrest. pose proof (sd_tiers _ _ _ _ _ Hs) as Ht. unfold tiers_agree in Ht. destruct (cw_entry w) as [[[v| |] r]|]; try done.
  destruct Ht as [-> [(s & -> & <- & _)|[(i & c & Hi & Hp) _]]]; [done|]. exfalso. destruct (Hrest i c Hi) as [res Hres].
  destruct (sd_calls _ _ _ _ _ Hs i c Hi) as (Hok & _ & _). rewrite Hres in Hok. apply ok_returned in Hok as [Hnone _]. congruence.
Qed.

Lemma sound_lost start w T swaps cur epoch' seq' : sound start w T swaps cur -> at_rest w ->
  order_le (mkL2Order (cw_epoch w) (cw_seq w)) (mkL2Order epoch' seq') ->
  sound start (mkCWorld epoch' seq' None (cw_l3 w) (cw_calls w)) (fun i => done_ticket (T i)) swaps cur.
Proof.
  intros Hs Hrest Hle. constructor; simpl; [|apply Hs|apply Hs| |done|apply Hs| |by apply (rest_in_l3 _ _ _ _ _ Hs)].
  - intros i c Hi. destruct (sd_calls _ _ _ _ _ Hs i c Hi) as (Hok & Hwon & _). destruct (Hrest i c Hi) as [res Hres].
    rewrite Hres, done_ticket_won in *. apply ok_returned in Hok as [_ Hok]. split_and!; [apply Hok|done|]. by destruct (T i).
  - intros i r. rewrite done_ticket_row. apply Hs.
  - intros s o Hl3 Ho. by apply (order_le_trans _ _ _ (sd_l3 _ _ _ _ _ Hs s o Hl3 Ho)).
Qed.

(** *** Every step *)

Lemma seen_agrees start w T swaps cur : sound start w T swaps cur -> agrees w cur (seen (cw_entry w)).
Proof.
  intros Hs. pose proof (sd_tiers _ _ _ _ _ Hs) as Ht. pose proof (sd_seq _ _ _ _ _ Hs) as Hseq. unfold tiers_agree in Ht.
  destruct (cw_entry w) as [[[v| |] r]|] eqn:He; simpl; rewrite ?He; (split; [intros rev [= <-]; by eapply Hseq|]); try done.
  by destruct Ht as [-> _].
Qed.

Lemma sound_answers start w T swaps cur i c seq' entry' l3' q won : sound start w T swaps cur -> cw_calls w !! i = Some c ->
  answers w (c_prog c) (seq', entry', l3') q won ->
  exists T' swaps' cur', sound start (mkCWorld (cw_epoch w) seq' entry' l3' (<[i := mkCall (c_mutate c) (won || c_won c) q]> (cw_calls w))) T' swaps' cur'.
Proof.
  intros Hs Hi Ha. destruct (sd_calls _ _ _ _ _ Hs i c Hi) as (Hok & Hwon & Hag).
  assert (quiet : forall tk' q', ok (cw_epoch w) (c_mutate c) tk' q' -> agrees w cur tk' -> ticket_row tk' = ticket_row (T i) -> pending tk' = pending (T i) ->
    exists T' swaps' cur', sound start (set_call w i c q') T' swaps' cur').
  { intros tk' q' Hok' Hag' Hrow Hpend. exists (<[i := tk']> T), swaps, cur. by apply sound_quiet. }
  remember (seq', entry', l3') as tiers eqn:Htiers. remember (c_prog c) as p eqn:Hp.
  destruct Ha; injection Htiers as <- <- <-; simpl in Hok; clear Hp.
  - apply (quiet (T i) _); try done.
  - apply (quiet (T i) _); try done. apply Hok.
  - destruct (T i) as [| | |rev r|rev r last|o r|r] eqn:HT; try (destruct Hok as (Hnot & _ & Hok); try done);
      try (refine (quiet (seen (cw_entry w)) _ _ _ _ _); [apply Hok|by apply seen_agrees with start T swaps|by destruct (cw_entry w) as [[[]]|]..]).
    destruct Hag as (v & r' & He & Hr). apply (quiet (Checked rev r (bool_decide (rev = r'))) _); [|  |done|done].
    + rewrite He. by apply Hok.
    + exists v, r'. split; [done|]. rewrite bool_decide_eq_true. naive_solver.
  - destruct (T i) as [|revision| | | |o r|] eqn:HT; try done.
    + apply (quiet (Ready (s_row <$> cw_l3 w) revision) _); [apply Hok| |done|done]. split; [apply Hag|]. intros Hrev.
      apply (proj2 Hag) in Hrev. pose proof (sd_tiers _ _ _ _ _ Hs) as Ht. unfold tiers_agree in Ht.
      destruct (cw_entry w) as [[[v| |] r]|]; try done. by destruct (Hrev v r).
    + destruct Hag as (s & o' & Hl3 & Ho & Hle). apply (quiet (Landed r) _); [|done|done|done]. rewrite Hl3. by apply (Hok s o').
  - destruct Hok as (prior & HT & Hswap & _ & _ & Hok). exists (<[i := Won (cw_seq w + 1) r]> T), (swaps ++ [(i, r)]), (Some r).
    apply (sound_won _ _ _ _ cur i c prior None); try done. by rewrite H.
  - destruct Hok as (prior & HT & _ & _ & Hok & _). by apply (quiet Idle _); [done|done|rewrite HT|rewrite HT].
  - destruct Hok as (prior & HT & Hswap & _ & _ & Hok). exists (<[i := Won (cw_seq w + 1) r]> T), (swaps ++ [(i, r)]), (Some r).
    by apply (sound_won _ _ _ _ cur i c prior (Some revision)).
  - destruct Hok as (prior & HT & _ & _ & Hok & _). by apply (quiet Idle _); [done|done|rewrite HT|rewrite HT].
  - done.
  - done.
  - destruct Hok as (rev & o' & Hso & Ho & HT & Hyes & Hno).
    assert (o' = o) as -> by (rewrite Hso, with_order_of in H; by injection H). rewrite Hso. clear H.
    assert (exists v r', pending (T i) = Some rev /\ ticket_row (T i) = Some (s_row s) /\ cw_entry w = Some (Live v, r') /\
      (rev < r' \/ (rev = r' /\ v = s_row s /\ o = mkL2Order (cw_epoch w) rev))) as (v & r' & Hpend & Hrow & He & Hrev).
    { destruct HT as [[HT ->]|(last & HT & Hlast)]; rewrite HT in Hag |- *; destruct Hag as (v & r' & He & Hr); exists v, r'; naive_solver. }
    eexists. exists swaps, cur. refine (sound_saved start w T swaps cur i c rev (s_row s) o v r' _ Hs Hi Hpend Hrow He Hrev Ho _).
    by destruct (upsert_ordered _ _ _).1.
Qed.

Lemma sound_step start w w' T swaps cur : sound start w T swaps cur -> cstep True w w' -> exists T' swaps' cur', sound start w' T' swaps' cur'.
Proof.
  intros Hs Hstep. destruct Hstep as [i mutate remembered Hi Hr|i c seq' entry' l3' q won Hi Ha|i c q Hi Hcare Hr|Hcare|epoch' Hcare Hlt].
  - exists (<[i := Idle]> T), swaps, cur. apply sound_starts; [done|done|]. by apply l2_cas_mutate_ok.
  - by apply (sound_answers start w T swaps cur).
  - destruct (sd_calls _ _ _ _ _ Hs i c Hi) as (Hok & Hwon & Hag). rewrite (Hcare I) in Hwon. symmetry in Hwon.
    assert (Hrow : ticket_row (T i) = None) by (rewrite won_ticket_row in Hwon; by destruct (ticket_row (T i))).
    assert (Hpend : pending (T i) = None) by by destruct (T i).
    assert (quiet : forall tk', won_ticket tk' = false -> ok (cw_epoch w) (c_mutate c) tk' q -> agrees w cur tk' ->
      exists T' swaps' cur', sound start (set_call w i c q) T' swaps' cur').
    { intros tk' Hw Hok' Hag'. exists (<[i := tk']> T), swaps, cur. apply sound_quiet; try done; [rewrite Hrow|rewrite Hpend]; by destruct tk'. }
    remember (c_prog c) as p eqn:Hp. clear Hp. destruct Hr; simpl in Hok.
    + apply (quiet (T i)); [done|by apply Hok|done].
    + apply (quiet (T i)); [done| |done]. destruct (T i); try done; apply Hok.
    + apply (quiet (T i)); [done| |done]. destruct (T i); try done; apply Hok.
    + destruct Hok as (prior & HT & _ & Hok & _). by apply (quiet Idle).
    + destruct Hok as (prior & HT & _ & Hok & _). by apply (quiet Idle).
    + done.
    + destruct Hok as (rev & o & _ & _ & HT & _). destruct HT as [[HT _]|(last & HT & _)]; by rewrite HT in Hwon.
  - eexists _, swaps, cur. apply (sound_lost start w T); [done|by apply Hcare|right; simpl; lia].
  - eexists _, swaps, cur. apply (sound_lost start w T); [done|by apply Hcare|left; simpl; lia].
Qed.

Lemma sound_run start w w' : rtc (cstep True) w w' ->
  (exists T swaps cur, sound start w T swaps cur) -> exists T swaps cur, sound start w' T swaps cur.
Proof.
  induction 1 as [w|w w1 w' Hstep _ IH]; [done|]. intros (T & swaps & cur & Hs). apply IH. by apply (sound_step start w w1 T swaps cur).
Qed.

(** A row after the migration's backfill: one without a whole order gets [L2_ORDER_FLOOR]. *)
Definition backfilled (s : stored) : stored := match l2_order_of s with Some _ => s | None => with_l2_order (s_row s) L2_ORDER_FLOOR end.

Lemma backfilled_below s : paired (backfilled s) /\ exists o, l2_order_of (backfilled s) = Some o /\
  (l2_order_of s = None -> forall epoch revision, 0 <= epoch -> 0 <= revision -> order_le o (mkL2Order epoch revision)).
Proof.
  unfold backfilled. destruct (l2_order_of s) as [o|] eqn:Ho.
  - split; [|by exists o]. unfold paired. unfold l2_order_of in Ho. destruct (s_l2_epoch s), (s_l2_revision s); done.
  - split; [done|]. exists L2_ORDER_FLOOR. split; [done|]. intros _ epoch revision He Hr. unfold order_le. simpl. lia.
Qed.

(** Where a table may start: no call, an L3 row no order of which is ahead of the bucket, a live entry L3 agrees with. *)
Definition fresh_start (w : cworld) : Prop :=
  cw_calls w = ∅ /\ (forall v r, cw_entry w = Some (v, r) -> r <= cw_seq w)
  /\ (forall s, cw_l3 w = Some s -> paired s)
  /\ (forall s o, cw_l3 w = Some s -> l2_order_of s = Some o -> order_le o (mkL2Order (cw_epoch w) (cw_seq w)))
  /\ (forall v r, cw_entry w = Some (Live v, r) -> s_row <$> cw_l3 w = Some v).

Lemma fresh_sound w : fresh_start w -> sound (s_row <$> cw_l3 w) w (fun _ => Idle) [] (s_row <$> cw_l3 w).
Proof.
  intros (Hcalls & Hseq & Hpaired & Hl3 & Hlive). constructor; try done; try (rewrite Hcalls).
  - intros i c Hi. by rewrite lookup_empty in Hi.
  - constructor.
  - constructor.
  - intros i r. rewrite lookup_empty. split; [by intros ?%elem_of_nil|by intros [[] _]].
  - unfold tiers_agree. destruct (cw_entry w) as [[[v| |] r]|] eqn:He; try done. specialize (Hlive v r eq_refl).
    split; [done|]. left. destruct (cw_l3 w) as [s|] eqn:Hs; [|done]. injection Hlive as Hv. exists s. split_and!; [done|done|].
    intros i c rev Hi. by rewrite Hcalls, lookup_empty in Hi.
Qed.

(** (C5) Whatever calls of [l2_cas_mutate] interleave on a row, and whatever raises before a call's swap has won or is lost from L2 while none
    runs, once no call runs the row in L3 is made of the row it had at the start by the swaps of the calls that returned a row, each
    applied once, in one order, to what the one before it made: no swap is lost, doubled or built on a row already replaced. Each of
    these calls returned the row it made, the others swapped nothing, and a row L2 still has is the row of L3. *)
Theorem swaps_linearize_into_l3 w w' : fresh_start w -> rtc (cstep True) w w' -> at_rest w' ->
  exists swaps, chain (cw_calls w') (s_row <$> cw_l3 w) swaps (s_row <$> cw_l3 w') /\ NoDup swaps.*1
    /\ (forall i r, (i, r) ∈ swaps <-> exists c m, cw_calls w' !! i = Some c /\ c_prog c = CRet (Ok m) /\ s_row <$> cm_row m = Some r)
    /\ forall v r, cw_entry w' = Some (Live v, r) -> s_row <$> cw_l3 w' = Some v.
Proof.
  intros Hstart Hsteps Hrest.
  assert (exists T swaps cur, sound (s_row <$> cw_l3 w) w' T swaps cur) as (T & swaps & cur & Hs).
  { apply (sound_run _ w w' Hsteps). do 3 eexists. by apply fresh_sound. }
  pose proof (rest_in_l3 _ _ _ _ _ Hs Hrest) as Hcur. exists swaps. split_and!; [rewrite Hcur; apply Hs|apply Hs| |].
  - intros i r. rewrite (sd_swaps _ _ _ _ _ Hs). split.
    + intros [[c Hi] Hrow]. destruct (Hrest i c Hi) as [res Hres]. destruct (sd_calls _ _ _ _ _ Hs i c Hi) as (Hok & _ & _).
      rewrite Hres in Hok. exists c. destruct res as [m|e]; simpl in Hok; destruct (T i); try done; try (by destruct Hok). exists m. by rewrite <- Hrow.
    + intros (c & m & Hi & Hres & Hrow). split; [by rewrite Hi|]. destruct (sd_calls _ _ _ _ _ Hs i c Hi) as (Hok & _ & _).
      rewrite Hres in Hok. simpl in Hok. destruct (T i); try (rewrite (proj2 Hok) in Hrow; done). by rewrite <- Hrow, Hok.
  - intros v r He. pose proof (sd_tiers _ _ _ _ _ Hs) as Ht. unfold tiers_agree in Ht. rewrite He in Ht. by destruct Ht as [-> _].
Qed.

(** ** Runs *)

Inductive event := EStart (i : nat) (mutate : option row -> cas_action) (remembered : option Z) | EAnswer (i : nat) (t : Z) | ERaise (i : nat)
  | ELost | EWipe (epoch' : Z).

Definition answer (w : cworld) (t : Z) (p : cprog) : option (cprog * bool * (Z * option (l2_value * Z) * option stored)) :=
  let same := (cw_seq w, cw_entry w, cw_l3 w) in
  let wrote r := (cw_seq w + 1, Some (Live r, cw_seq w + 1), cw_l3 w) in
  match p with
  | CRet _ => None
  | CNow k => Some (k t, false, same)
  | CEpoch k => Some (k (Some (cw_epoch w)), false, same)
  | CEntry k => Some (k (Some (cw_entry w)), false, same)
  | CFetch k => Some (k (Some (cw_l3 w)), false, same)
  | CCreate r k =>
      if decide (cw_entry w = None) then Some (k (Some (Some (cw_seq w + 1))), true, wrote r) else Some (k (Some None), false, same)
  | CUpdate r revision k =>
      if decide (snd <$> cw_entry w = Some revision) then Some (k (Some (Some (cw_seq w + 1))), true, wrote r) else Some (k (Some None), false, same)
  | CDeleteAt revision k =>
      if decide (snd <$> cw_entry w = Some revision) then Some (k (Some true), false, (cw_seq w + 1, None, cw_l3 w)) else Some (k (Some false), false, same)
  | CSave s k =>
      o ← l2_order_of s;
      Some (k (Some (upsert_ordered s o (cw_l3 w)).1), false, (cw_seq w, cw_entry w, (upsert_ordered s o (cw_l3 w)).2))
  end.

Definition raised (p : cprog) : option cprog :=
  match p with
  | CRet _ | CNow _ => None
  | CEpoch k => Some (k None)
  | CEntry k => Some (k None)
  | CFetch k => Some (k None)
  | CCreate _ k => Some (k None)
  | CUpdate _ _ k => Some (k None)
  | CDeleteAt _ k => Some (k None)
  | CSave _ k => Some (k None)
  end.

Definition returned (c : call) : option (result CasMutation cas_error) := match c_prog c with CRet r => Some r | _ => None end.
Definition resting (w : cworld) : bool := forallb (fun ic => isSome (returned ic.2)) (map_to_list (cw_calls w)).

Definition run_event (w : cworld) (e : event) : option cworld :=
  match e with
  | EStart i mutate remembered =>
      if decide (cw_calls w !! i = None) then
        if default (cw_epoch w) remembered <=? cw_epoch w then
          Some (mkCWorld (cw_epoch w) (cw_seq w) (cw_entry w) (cw_l3 w) (<[i := mkCall mutate false (l2_cas_mutate mutate remembered)]> (cw_calls w)))
        else None
      else None
  | EAnswer i t =>
      c ← cw_calls w !! i;
      '(q, won, (seq', entry', l3')) ← answer w t (c_prog c);
      Some (mkCWorld (cw_epoch w) seq' entry' l3' (<[i := mkCall (c_mutate c) (won || c_won c) q]> (cw_calls w)))
  | ERaise i =>
      c ← cw_calls w !! i;
      q ← raised (c_prog c);
      Some (mkCWorld (cw_epoch w) (cw_seq w) (cw_entry w) (cw_l3 w) (<[i := mkCall (c_mutate c) (c_won c) q]> (cw_calls w)))
  | ELost => Some (mkCWorld (cw_epoch w) (cw_seq w) None (cw_l3 w) (cw_calls w))
  | EWipe epoch' => if cw_epoch w <? epoch' then Some (mkCWorld epoch' 0 None (cw_l3 w) (cw_calls w)) else None
  end.

(** Whether an event is one the tiers allow under [careful]. *)
Definition careful_event (w : cworld) (e : event) : bool :=
  match e with
  | ERaise i => match cw_calls w !! i with Some c => negb (c_won c) | None => false end
  | ELost | EWipe _ => resting w
  | _ => true
  end.

Lemma answer_answers w t p q won tiers : answer w t p = Some (q, won, tiers) -> answers w p tiers q won.
Proof.
  destruct p; simpl; try done; repeat destruct (decide _) as [Hd|Hd]; try (intros [= <- <- <-]; by constructor).
  - intros [= <- <- <-]. constructor. by destruct (cw_entry w).
  - destruct (l2_order_of s) as [o|] eqn:Ho; [|done]. simpl. intros [= <- <- <-]. by constructor.
Qed.

Lemma raised_raises p q : raised p = Some q -> raises p q.
Proof. destruct p; simpl; try done; intros [= <-]; constructor. Qed.

Lemma resting_rests w : resting w = true -> at_rest w.
Proof.
  unfold resting. rewrite forallb_forall. intros Hall i c Hi. specialize (Hall (i, c)). rewrite <- list_elem_of_In, elem_of_map_to_list in Hall.
  specialize (Hall Hi). unfold returned in Hall. simpl in Hall. unfold finished. destruct (c_prog c); try done. by eexists.
Qed.

Lemma run_event_step careful w e w' : (careful -> careful_event w e = true) -> run_event w e = Some w' -> cstep careful w w'.
Proof.
  intros Hc. destruct e as [i mutate remembered|i t|i| |epoch']; simpl in *.
  - destruct (decide _) as [Hi|]; [|done]. destruct (Z.leb_spec (default (cw_epoch w) remembered) (cw_epoch w)) as [Hle|]; [|done].
    intros [= <-]. constructor; [done|]. by intros e ->.
  - destruct (cw_calls w !! i) as [c|] eqn:Hi; [|done]. simpl. destruct (answer w t (c_prog c)) as [[[q won] [[seq' entry'] l3']]|] eqn:Ha; [|done].
    intros [= <-]. econstructor; [done|]. by apply answer_answers in Ha.
  - destruct (cw_calls w !! i) as [c|] eqn:Hi; [|done]. simpl. destruct (raised (c_prog c)) as [q|] eqn:Hr; [|done].
    intros [= <-]. econstructor; [done| |by apply raised_raises]. intros H. specialize (Hc H). by destruct (c_won c).
  - intros [= <-]. constructor. intros H. by apply resting_rests, Hc.
  - destruct (Z.ltb_spec (cw_epoch w) epoch') as [Hlt|]; [|done]. intros [= <-]. constructor; [|done]. intros H. by apply resting_rests, Hc.
Qed.

Fixpoint run_events (check : bool) (w : cworld) (es : list event) : option cworld :=
  match es with
  | [] => Some w
  | e :: es => if negb check || careful_event w e then w' ← run_event w e; run_events check w' es else None
  end.

Lemma run_events_steps careful check w es w' : (careful -> check = true) -> run_events check w es = Some w' -> rtc (cstep careful) w w'.
Proof.
  intros Hc. revert w. induction es as [|e es IH]; intros w; simpl; [by intros [= <-]|].
  destruct (negb check || careful_event w e) eqn:Hok; [|done]. destruct (run_event w e) as [w1|] eqn:H1; [|done]. simpl. intros Hrun.
  eapply rtc_l; [|by apply IH]. apply (run_event_step careful w e w1); [|done]. intros H. rewrite (Hc H) in Hok. done.
Qed.
End Tiers.

(** ** Examples *)

(** A counter: the callback adds to what it is shown, from nothing on. *)
Definition add_to (d : Z) (prior : option (@row Z)) : @cas_action Z :=
  Upsert (mkRow (match prior with Some p => r_fields p + d | None => d end) None None).

(** A bucket created at 10 and empty tiers. *)
Definition empty_tiers : @cworld Z := mkCWorld 10 0 None None ∅.

Definition turns (i n : nat) : list (@event Z) := replicate n (EAnswer i 100).

(** Two calls read the empty tiers, one creates the row, the other loses its swap and builds on it; its
    write reaches L3 first. Then L2 loses the row and a third call goes on from L3. *)
Definition two_calls_and_a_loss : list (@event Z) :=
  [EStart 1%nat (add_to 1) None; EStart 2%nat (add_to 5) (Some 10)] ++ turns 1 4 ++ turns 2 3 ++ turns 1 1 ++ turns 2 6 ++ turns 1 3
  ++ [ELost; EStart 3%nat (add_to 7) (Some 10)] ++ turns 3 6.

Definition after_two_calls : @cworld Z := default empty_tiers (run_events true empty_tiers two_calls_and_a_loss).

Lemma swaps_linearize_into_l3_witness :
  fresh_start empty_tiers /\ rtc (cstep True) empty_tiers after_two_calls /\ at_rest after_two_calls
  /\ (r_fields <$> (s_row <$> cw_l3 after_two_calls)) = Some 13
  /\ exists swaps, chain (cw_calls after_two_calls) None swaps (s_row <$> cw_l3 after_two_calls) /\ NoDup swaps.*1
    /\ (forall i r, (i, r) ∈ swaps <-> exists c m, cw_calls after_two_calls !! i = Some c /\ c_prog c = CRet (Ok m) /\ s_row <$> cm_row m = Some r)
    /\ forall v r, cw_entry after_two_calls = Some (Live v, r) -> s_row <$> cw_l3 after_two_calls = Some v.
Proof.
  assert (Hfresh : fresh_start empty_tiers) by done.
  assert (Hrun : rtc (cstep True) empty_tiers after_two_calls).
  { apply (run_events_steps True true empty_tiers two_calls_and_a_loss); [done|]. vm_compute. reflexivity. }
  assert (Hrest : at_rest after_two_calls) by (apply resting_rests; vm_compute; reflexivity).
  split_and!; [done|done|done|vm_compute; reflexivity|]. exact (swaps_linearize_into_l3 empty_tiers after_two_calls Hfresh Hrun Hrest).
Defined.

(** A call that read both tiers empty, one that creates the row and returns, one whose write to L3 fails
    and takes its entry back, and the first again. *)
Definition withdrawn_under_a_reader : list (@event Z) :=
  [EStart 1%nat (add_to 1) (Some 10)] ++ turns 1 2 ++ [EStart 2%nat (add_to 5) (Some 10)] ++ turns 2 6
  ++ [EStart 3%nat (add_to 7) (Some 10)] ++ turns 3 4 ++ [ERaise 3%nat] ++ turns 3 1 ++ turns 1 4.

(** The same with the bucket wiped instead of an entry taken back. *)
Definition wiped_under_a_reader : list (@event Z) :=
  [EStart 1%nat (add_to 1) (Some 10)] ++ turns 1 2 ++ [EStart 2%nat (add_to 5) (Some 10)] ++ turns 2 6 ++ [EWipe 20] ++ turns 1 5.

(** The stream's creation time cannot be read once the swap has won. *)
Definition cut_off_after_winning : list (@event Z) :=
  [EStart 1%nat (add_to 1) (Some 10)] ++ turns 1 4 ++ [ERaise 1%nat].

Definition outcome (w : @cworld Z) (i : nat) : option (result (option Z) cas_error) :=
  c ← cw_calls w !! i; r ← returned c; Some (match r with Ok m => Ok (r_fields <$> (s_row <$> cm_row m)) | Err e => Err e end).

(** L3 ends on [total] with the calls ended as listed, and no call running. *)
Definition run_ends (es : list (@event Z)) (outcomes : list (nat * result (option Z) cas_error)) (l2 total : option Z) : Prop :=
  exists w, rtc (cstep False) empty_tiers w /\ at_rest w /\ (forall i r, (i, r) ∈ outcomes -> outcome w i = Some r)
    /\ (match cw_entry w with Some (Live v, _) => Some (r_fields v) | _ => None end) = l2
    /\ r_fields <$> (s_row <$> cw_l3 w) = total /\ run_events false empty_tiers es = Some w.

Lemma run_ends_by es outcomes l2 total :
  match run_events false empty_tiers es with
  | Some w => resting w = true /\ Forall (fun ir => outcome w ir.1 = Some ir.2) outcomes
      /\ (match cw_entry w with Some (Live v, _) => Some (r_fields v) | _ => None end) = l2 /\ r_fields <$> (s_row <$> cw_l3 w) = total
  | None => False
  end -> run_ends es outcomes l2 total.
Proof.
  destruct (run_events false empty_tiers es) as [w|] eqn:Hrun; [|done]. intros (Hrest & Hout & Hl2 & Htotal). exists w.
  split_and!; [by apply (run_events_steps False false empty_tiers es)|by apply resting_rests| |done|done|done].
  intros i r Hin. rewrite Forall_forall in Hout. exact (Hout (i, r) (proj1 (list_elem_of_In _ _) Hin)).
Qed.

(** A call whose write to L3 fails takes its entry back; one that read both tiers empty before then creates the row anew, under a later
    order, and L3 loses the swap of a third call that had reached it and been acknowledged. *)
Theorem withdrawal_loses_a_persisted_swap :
  run_ends withdrawn_under_a_reader [(1%nat, Ok (Some 1)); (2%nat, Ok (Some 5)); (3%nat, Err CasStoreError)] (Some 1) (Some 1).
Proof. apply run_ends_by. vm_compute. repeat constructor. Qed.

(** The same when the bucket is wiped between a call's read of L3 and its create. *)
Theorem wipe_loses_a_persisted_swap :
  run_ends wiped_under_a_reader [(1%nat, Ok (Some 1)); (2%nat, Ok (Some 5))] (Some 1) (Some 1).
Proof. apply run_ends_by. vm_compute. repeat constructor. Qed.

(** A swap whose stream cannot be read after it won is reported failed, and stays in L2 without being in L3. *)
Theorem failed_order_read_leaves_the_swap :
  run_ends cut_off_after_winning [(1%nat, Err CasKvError)] (Some 1) None.
Proof. apply run_ends_by. vm_compute. repeat constructor. Qed.
