(* ===== verification/Subjects.v ===== *)
(** * Subjects of the message bus

    [src/packages/nats/src/threetears/nats/subjects.py]: every subject the platform publishes or listens
    on is built by one function of [Subjects], from the deployment's namespace [ns] and the ids it is
    given. [covers] is the broker's matching rule, as [_covers] of
    [src/packages/epoch/src/threetears/epoch/client.py] writes it down. The digest of a name, a SHA-256,
    is the parameter [digest_token]. *)

From Stdlib Require Import Ascii String Bool List NArith ZArith Lia.
From stdpp Require Import base list strings.
From S2P Require Import Prelude PyUuid Namespaces.

Open Scope string_scope.

Inductive SubjectKind := Point | Pattern | Reply.

Record Subject := mkSubject { path : string; kind : SubjectKind }.

Inductive subject_error := SubjectValueError.

(** [Subject.raw]. *)
Definition Subject_raw (full_subject : string) (kind : SubjectKind) : result Subject subject_error :=
  raise_if! negb (str_truthy full_subject) with SubjectValueError;; Ok (mkSubject full_subject kind).

Definition TOOL_POD_AUDIT_TOKEN : string := "tool_pod".
Definition CREDENTIAL_REFUSAL_SUBJECT_TOKEN : string := "credential-refused".
Definition CREDENTIAL_RENEWAL_SUBJECT_TOKEN : string := "credential-renew".

(** [_routing_token]. *)
Definition routing_token (pod_id : string) : string := String.concat "." (map sanitize_subject_segment (split_on "." pod_id)).

(** What a literal inbox prefix may not be. *)
Definition literal_prefix (inbox_prefix : string) : bool :=
  str_truthy inbox_prefix && negb (str_has "*" inbox_prefix || str_has ">" inbox_prefix || str_has " " inbox_prefix).

Section Builders.
Variable ns : string.
Variable digest_token : string -> string.

(** [namespace or _ns()]. *)
Definition or_ns (namespace : option string) : string :=
  match namespace with Some n => if str_truthy n then n else ns | None => ns end.

Definition agent_register : Subject := mkSubject (ns ++ ".agents.register") Point.
Definition agent_deregister : Subject := mkSubject (ns ++ ".agents.deregister") Point.
Definition agent_heartbeat (agent_id : string) (pod_id : string) : Subject := mkSubject (ns ++ ".agents.heartbeat." ++ sanitize_subject_segment agent_id ++ "." ++ sanitize_subject_segment pod_id) Point.
Definition agent_heartbeat_wildcard : Subject := mkSubject (ns ++ ".agents.heartbeat.>") Pattern.
Definition agent_reregister_request (agent_id : string) (pod_id : string) : Subject := mkSubject (ns ++ ".agents.reregister_request." ++ sanitize_subject_segment agent_id ++ "." ++ sanitize_subject_segment pod_id) Point.
Definition agent_route (agent_id : string) : Subject := mkSubject (ns ++ ".agents.route." ++ sanitize_subject_segment agent_id) Point.
Definition agent_route_wildcard : Subject := mkSubject (ns ++ ".agents.route.>") Pattern.
Definition agent_internal (agent_id : string) (pod_id : string) : Subject := mkSubject (ns ++ ".agents.internal." ++ sanitize_subject_segment agent_id ++ "." ++ sanitize_subject_segment pod_id) Point.
Definition agent_turn (agent_id : string) : Subject := mkSubject (ns ++ ".agents.turn." ++ sanitize_subject_segment agent_id) Point.
Definition agent_turn_wildcard : Subject := mkSubject (ns ++ ".agents.turn.>") Pattern.
Definition agent_turn_deadletter : Subject := mkSubject (ns ++ ".agents.turn-deadletter") Point.
Definition agent_complete (correlation_id : string) : Subject := mkSubject (ns ++ ".agents.complete." ++ sanitize_subject_segment correlation_id) Point.
Definition agent_reply (correlation_id : string) : Subject := mkSubject (ns ++ ".agents.reply." ++ sanitize_subject_segment correlation_id) Point.
Definition tools_register : Subject := mkSubject (ns ++ ".tools.register") Point.
Definition tools_heartbeat (pod_id : string) : Subject := mkSubject (ns ++ ".tools.heartbeat." ++ routing_token pod_id) Point.
Definition tools_heartbeat_wildcard : Subject := mkSubject (ns ++ ".tools.heartbeat.>") Pattern.
Definition tools_heartbeat_agent_subtree (agent_id : string) : Subject := mkSubject (ns ++ ".tools.heartbeat." ++ sanitize_subject_segment agent_id ++ ".>") Pattern.
Definition tools_discover : Subject := mkSubject (ns ++ ".tools.discover") Point.
Definition tools_call : Subject := mkSubject (ns ++ ".tools.call") Point.
Definition tools_internal (pod_id : string) : Subject := mkSubject (ns ++ ".tools.internal." ++ routing_token pod_id) Point.
Definition tools_internal_wildcard : Subject := mkSubject (ns ++ ".tools.internal.>") Pattern.
Definition tools_internal_agent_subtree (agent_id : string) : Subject := mkSubject (ns ++ ".tools.internal." ++ sanitize_subject_segment agent_id ++ ".>") Pattern.
Definition tools_probe (pod_id : string) : Subject := mkSubject (ns ++ ".tools.probe." ++ routing_token pod_id) Point.
Definition tools_probe_wildcard : Subject := mkSubject (ns ++ ".tools.probe.>") Pattern.
Definition tools_probe_agent_subtree (agent_id : string) : Subject := mkSubject (ns ++ ".tools.probe." ++ sanitize_subject_segment agent_id ++ ".>") Pattern.
Definition agent_inprocess_pod_id (agent_id : UUID) (instance_id : string) : string := uuid_str agent_id ++ "." ++ sanitize_subject_segment instance_id.
Definition agent_inprocess_owner_id (pod_id : string) : result (option UUID) subject_error :=
  let tokens := split_on "." pod_id in
  raise_if! negb (forallb str_truthy tokens) with SubjectValueError;;
  match tokens with
  | head :: _ :: _ =>
      match UUID_of_string head with
      | None => Err SubjectValueError
      | Some owner => raise_if! negb (String.eqb (uuid_str owner) head) with SubjectValueError;; Ok (Some owner)
      end
  | _ => Ok None
  end.
Definition tools_result (pod_id : string) (call_id : string) : Subject := mkSubject (ns ++ ".tools.result." ++ routing_token pod_id ++ "." ++ sanitize_subject_segment call_id) Point.
Definition tools_result_pod_wildcard (pod_id : string) : Subject := mkSubject (ns ++ ".tools.result." ++ routing_token pod_id ++ ".>") Pattern.
Definition tools_result_agent_subtree (agent_id : string) : Subject := mkSubject (ns ++ ".tools.result." ++ sanitize_subject_segment agent_id ++ ".>") Pattern.
Definition tools_result_wildcard : Subject := mkSubject (ns ++ ".tools.result.>") Pattern.
Definition tools_reply (agent_id : string) (call_id : string) : Subject := mkSubject (ns ++ ".tools.reply." ++ sanitize_subject_segment agent_id ++ "." ++ sanitize_subject_segment call_id) Point.
Definition tools_reply_agent_subtree (agent_id : string) : Subject := mkSubject (ns ++ ".tools.reply." ++ sanitize_subject_segment agent_id ++ ".*") Pattern.
Definition tools_reply_wildcard : Subject := mkSubject (ns ++ ".tools.reply.*.*") Pattern.
Definition gateway_completion : Subject := mkSubject (ns ++ ".gateway.completion") Point.
Definition gateway_embedding : Subject := mkSubject (ns ++ ".gateway.embedding") Point.
Definition gateway_health : Subject := mkSubject (ns ++ ".gateway.health") Point.
Definition gateway_stream (agent_id : string) (correlation_id : string) : Subject := mkSubject (ns ++ ".gateway.stream." ++ sanitize_subject_segment agent_id ++ "." ++ sanitize_subject_segment correlation_id) Point.
Definition hub_handshake : Subject := mkSubject (ns ++ ".hub.handshake") Point.
Definition hub_jwks : Subject := mkSubject (ns ++ ".hub.jwks") Point.
Definition hub_secrets_request : Subject := mkSubject (ns ++ ".hub.secrets.request") Point.
Definition hub_user_resolve : Subject := mkSubject (ns ++ ".hub.user.resolve") Point.
Definition hub_object_commit : Subject := mkSubject (ns ++ ".hub.object.commit") Point.
Definition hub_object_resolve : Subject := mkSubject (ns ++ ".hub.object.resolve") Point.
Definition hub_memory_namespace_ensure : Subject := mkSubject (ns ++ ".hub.memory.namespace.ensure") Point.
Definition hub_engagement_scope : Subject := mkSubject (ns ++ ".hub.engagement.scope") Point.
Definition hub_audit_anonymize : Subject := mkSubject (ns ++ ".hub.audit.anonymize") Point.
Definition hub_geo_layers_reloaded : Subject := mkSubject (ns ++ ".hub.geo.layers.reloaded") Point.
Definition hub_object_store_declare : Subject := mkSubject (ns ++ ".hub.object_store.declare") Point.
Definition hub_object_store_retire : Subject := mkSubject (ns ++ ".hub.object_store.retire") Point.
Definition hub_collection_keys_purge : Subject := mkSubject (ns ++ ".hub.collection_keys.purge") Point.
Definition hub_cache_index_moved : Subject := mkSubject (ns ++ ".hub.cache.index.moved") Point.
Definition hub_channel_engagement_default_resolve : Subject := mkSubject (ns ++ ".hub.channel.engagement.default.resolve") Point.
Definition hub_approval_record : Subject := mkSubject (ns ++ ".hub.approval.record") Point.
Definition hub_approval_resolve : Subject := mkSubject (ns ++ ".hub.approval.resolve") Point.
Definition hub_channel_installs : Subject := mkSubject (ns ++ ".hub.channel.installs") Point.
Definition channels_deliver (channel_type : string) : Subject := mkSubject (ns ++ ".channels.deliver." ++ sanitize_subject_segment channel_type) Point.
Definition channels_deliver_wildcard : Subject := mkSubject (ns ++ ".channels.deliver.*") Pattern.
Definition hub_usage_track : Subject := mkSubject (ns ++ ".hub.usage.track") Point.
Definition hub_endpoint_usage_track : Subject := mkSubject (ns ++ ".hub.usage.endpoint") Point.
Definition hub_stream (agent_id : string) (correlation_id : string) : Subject := mkSubject (ns ++ ".hub.stream." ++ sanitize_subject_segment agent_id ++ "." ++ sanitize_subject_segment correlation_id) Point.
Definition audit_event (event_type : string) (namespace : option string) : result Subject subject_error :=
  raise_if! negb (str_truthy event_type) with SubjectValueError;;
  Ok (mkSubject (default ns namespace ++ ".audit." ++ event_type) Point).
Definition audit_wildcard (area : option string) : Subject :=
  match area with
  | None => mkSubject (ns ++ ".audit.>") Pattern
  | Some area => mkSubject (ns ++ ".audit." ++ area ++ ".>") Pattern
  end.
Definition credential_refusal (inbox_prefix : string) : result Subject subject_error :=
  raise_if! negb (literal_prefix inbox_prefix) with SubjectValueError;;
  Ok (mkSubject (inbox_prefix ++ "." ++ CREDENTIAL_REFUSAL_SUBJECT_TOKEN) Point).
Definition credential_renewal_request (inbox_prefix : string) : result Subject subject_error :=
  raise_if! negb (literal_prefix inbox_prefix) with SubjectValueError;;
  Ok (mkSubject (inbox_prefix ++ "." ++ CREDENTIAL_RENEWAL_SUBJECT_TOKEN) Point).
Definition tool_pod_audit_wildcard (pod_id : string) (namespace : option string) : result Subject subject_error :=
  match UUID_of_string pod_id with
  | None => Err SubjectValueError
  | Some pod => Ok (mkSubject (default ns namespace ++ ".audit." ++ TOOL_POD_AUDIT_TOKEN ++ "." ++ uuid_str pod ++ ".>") Pattern)
  end.
Definition tool_pod_audit_event (pod_id event_type : string) (namespace : option string) : result Subject subject_error :=
  raise_if! negb (str_truthy event_type) with SubjectValueError;;
  match UUID_of_string pod_id with
  | None => Err SubjectValueError
  | Some pod => Ok (mkSubject (default ns namespace ++ ".audit." ++ TOOL_POD_AUDIT_TOKEN ++ "." ++ uuid_str pod ++ "." ++ event_type) Point)
  end.
Definition audit_deadletter (namespace : option string) : Subject := mkSubject (default ns namespace ++ ".audit-deadletter") Point.
Definition workspaces_create : Subject := mkSubject (ns ++ ".workspaces.create") Point.
Definition oplog (repo branch : string) : result Subject subject_error :=
  raise_if! negb (str_truthy repo) with SubjectValueError;;
  raise_if! negb (str_truthy branch) with SubjectValueError;;
  Ok (mkSubject (ns ++ ".oplog." ++ sanitize_subject_segment repo ++ "." ++ sanitize_subject_segment branch) Point).
Definition git_store_advanced : Subject := mkSubject (ns ++ ".git-store.advanced") Point.
Definition room (room_id : string) : result Subject subject_error :=
  raise_if! negb (str_truthy room_id) with SubjectValueError;;
  Ok (mkSubject (ns ++ ".channels.room." ++ digest_token room_id) Point).
Definition forward (key : string) : result Subject subject_error :=
  raise_if! negb (str_truthy key) with SubjectValueError;;
  Ok (mkSubject (ns ++ ".forward." ++ digest_token key) Point).
Definition forward_scoped (family key : string) : result Subject subject_error :=
  raise_if! negb (str_truthy family) with SubjectValueError;;
  raise_if! negb (str_truthy key) with SubjectValueError;;
  Ok (mkSubject (ns ++ ".forward." ++ digest_token family ++ "." ++ digest_token key) Point).
Definition forward_scoped_wildcard (family : string) : result Subject subject_error :=
  raise_if! negb (str_truthy family) with SubjectValueError;;
  Ok (mkSubject (ns ++ ".forward." ++ digest_token family ++ ".*") Pattern).
(** [tool_provider_node] as a builder calls it. *)
Definition provider_node (owned_node : string) : result string subject_error :=
  match tool_provider_node owned_node with Ok node => Ok node | Err _ => Err SubjectValueError end.
Definition hitl_pipe_family (owned_node : string) : result string subject_error :=
  do! node <- provider_node owned_node;; Ok ("hitl-pipe-" ++ node).
Definition forward_scoped_any_family : Subject := mkSubject (ns ++ ".forward.*.*") Pattern.
Definition hitl_forward_family (owned_node : string) : result string subject_error :=
  do! node <- provider_node owned_node;; Ok ("hitl-" ++ node).
Definition pipe (owned_node pod_id nonce direction : string) : result Subject subject_error :=
  do! node <- provider_node owned_node;;
  raise_if! negb (str_truthy nonce) with SubjectValueError;;
  Ok (mkSubject (ns ++ ".pipe." ++ digest_token node ++ "." ++ sanitize_subject_segment pod_id ++ "." ++ sanitize_subject_segment nonce ++ "." ++ direction) Point).
Definition pipe_pod_wildcard (owned_node pod_id direction : string) : result Subject subject_error :=
  do! node <- provider_node owned_node;;
  Ok (mkSubject (ns ++ ".pipe." ++ digest_token node ++ "." ++ sanitize_subject_segment pod_id ++ ".*." ++ direction) Pattern).
Definition pipe_any_pod_wildcard (direction : string) : Subject := mkSubject (ns ++ ".pipe.*.*.*." ++ direction) Pattern.
Definition knowledge_draft : Subject := mkSubject (ns ++ ".knowledge.draft") Point.
Definition l3_query (namespace : option string) : Subject := mkSubject (or_ns namespace ++ ".l3.query") Point.
Definition l3_batch (namespace : option string) : Subject := mkSubject (or_ns namespace ++ ".l3.batch") Point.
Definition l3_truncate (namespace : option string) : Subject := mkSubject (or_ns namespace ++ ".l3.truncate") Point.
Definition l3_load_files (namespace : option string) : Subject := mkSubject (or_ns namespace ++ ".l3.load_files") Point.
Definition l3_tx (op : string) (namespace : option string) : Subject := mkSubject (or_ns namespace ++ ".l3.tx." ++ op) Point.
Definition acl_invalidate (kind : string) : Subject := mkSubject (ns ++ ".acl." ++ kind ++ ".invalidate") Point.
Definition namespace_discover : Subject := mkSubject (ns ++ ".namespace.discover") Point.
Definition datasource_query (name : string) : result Subject subject_error :=
  raise_if! negb (str_truthy name) with SubjectValueError;;
  Ok (mkSubject (ns ++ ".datasource." ++ sanitize_subject_segment name ++ ".query") Point).
Definition datasource_query_wildcard : Subject := mkSubject (ns ++ ".datasource.*.query") Pattern.
Definition cache_invalidate : Subject := mkSubject "threetears.cache.invalidate" Point.
Definition capabilities_epoch : Subject := mkSubject (ns ++ ".capabilities.epoch") Point.
Definition gateway_catalog_epoch : Subject := mkSubject (ns ++ ".gateway.catalog.epoch") Point.
Definition datasource_tile_epoch (datasource_id layer : string) : result Subject subject_error :=
  raise_if! negb (str_truthy datasource_id) with SubjectValueError;;
  raise_if! negb (str_truthy layer) with SubjectValueError;;
  Ok (mkSubject (ns ++ ".datasource." ++ sanitize_subject_segment datasource_id ++ ".tiles." ++ sanitize_subject_segment layer ++ ".epoch") Point).
Definition collection_generation_epoch (table_name : string) : Subject := mkSubject (ns ++ ".collections." ++ table_name ++ ".epoch") Point.
Definition mcp_rbac_epoch : Subject := mkSubject (ns ++ ".mcp.rbac.epoch") Point.
Definition identity_epoch : Subject := mkSubject (ns ++ ".identity.epoch") Point.
Definition deadletter (original_path : string) : Subject := mkSubject (ns ++ ".deadletter." ++ original_path) Point.

End Builders.

(** ** Matching *)

(** The loop of [_covers] over the tokens left. *)
Fixpoint tokens_cover (wanted given : list string) : bool :=
  match wanted with
  | [] => match given with [] => true | _ => false end
  | token :: wanted =>
      if String.eqb token ">" then match wanted, given with [], _ :: _ => true | _, _ => false end
      else
        match given with
        | [] => false
        | g :: given => (String.eqb token "*" || String.eqb token g) && tokens_cover wanted given
        end
  end.

Definition covers (pattern path : string) : bool := tokens_cover (split_on "." pattern) (split_on "." path).

(** ** A tool pod's audit subject *)

(** [s.partition(".")] without the separator. *)
Fixpoint partition_dot (s : string) : string * string :=
  match s with
  | EmptyString => ("", "")
  | String a s => if Ascii.eqb a "." then ("", s) else let '(x, y) := partition_dot s in (String a x, y)
  end.

(** [_POD_ID_TOKEN.fullmatch]: lower-case digits in groups of 8, 4, 4, 4 and 12. *)
Fixpoint groups_match (groups : list nat) (s : string) : bool :=
  match groups with
  | [] => match s with EmptyString => true | _ => false end
  | n :: groups =>
      (String.length (substring 0 n s) =? n)%nat && str_all lower_hex (substring 0 n s)
      && match groups with
         | [] => match str_drop n s with EmptyString => true | _ => false end
         | _ => match str_drop n s with String "-" rest => groups_match groups rest | _ => false end
         end
  end.
Definition POD_ID_TOKEN_fullmatch (s : string) : bool := groups_match [8; 4; 4; 4; 12]%nat s.

Definition parse_tool_pod_audit_subject (subject namespace : string) : option (UUID * string) :=
  let prefix := namespace ++ ".audit." ++ TOOL_POD_AUDIT_TOKEN ++ "." in
  if starts_with prefix subject then
    let '(pod_token, event_type) := partition_dot (str_drop (String.length prefix) subject) in
    if POD_ID_TOKEN_fullmatch pod_token && str_truthy event_type then
      (fun u => (u, event_type)) <$> UUID_of_string pod_token
    else None
  else None.

(** ** Tokens *)

Abbreviation tokens := (split_on ".").

Lemma seg_no_dot s : str_has "." (sanitize_subject_segment s) = false.
Proof. by apply str_has_replace. Qed.

Lemma seg_plain s : str_has "." s = false -> sanitize_subject_segment s = s.
Proof. apply str_replace_plain. Qed.

Lemma routing_token_id s : routing_token s = s.
Proof.
  unfold routing_token. rewrite <- (concat_split "." s) at 2. f_equal. pose proof (split_on_no_sep "." s) as Hf.
  induction Hf as [|x l Hx _ IH]; [done|]. simpl. by rewrite seg_plain, IH.
Qed.

Lemma tokens_var v t : str_has "." v = false -> tokens (v ++ String "." t) = v :: tokens t.
Proof. intros Hv. by rewrite split_on_sep, split_on_plain. Qed.

(** *** Literal tokens of a pattern are tokens of what it covers *)

Definition literal (t : string) : Prop := t <> "*" /\ t <> ">".

Lemma tokens_cover_literal t wanted given : literal t -> tokens_cover (t :: wanted) given = true ->
  exists given', given = t :: given' /\ tokens_cover wanted given' = true.
Proof.
  intros [Hs Hg]. simpl. apply String.eqb_neq in Hg as ->. destruct given as [|g given]; [done|].
  apply String.eqb_neq in Hs as ->. simpl. intros [->%String.eqb_eq H]%andb_true_iff. eauto.
Qed.

Lemma tokens_cover_prefix pre wanted given : Forall literal pre -> tokens_cover (pre ++ wanted)%list given = true ->
  exists given', given = (pre ++ given')%list /\ tokens_cover wanted given' = true.
Proof.
  intros Hpre. revert given. induction Hpre as [|t pre Ht _ IH]; intros given H; [by exists given|].
  apply tokens_cover_literal in H as (given' & -> & H); [|done]. apply IH in H as (g & -> & H). by exists g.
Qed.

Lemma tokens_cover_refl l : Forall literal l -> tokens_cover l l = true.
Proof.
  intros Hl. induction Hl as [|t l [Hs Hg] _ IH]; [done|]. simpl. apply String.eqb_neq in Hg as ->.
  by rewrite String.eqb_refl, orb_true_r.
Qed.

(** ** Round trips *)

Lemma partition_dot_at v t : str_has "." v = false -> partition_dot (v ++ String "." t) = (v, t).
Proof. induction v as [|a v IH]; [done|]. simpl. intros [Ha Hv]%orb_false_iff. by rewrite Ha, IH. Qed.

Lemma partition_dot_inv s x y : partition_dot s = (x, y) -> y <> "" -> s = x ++ String "." y.
Proof.
  revert x. induction s as [|a s IH]; intros x; simpl; [by intros [= <- <-]|]. destruct (Ascii.eqb_spec a ".") as [->|].
  - by intros [= <- <-].
  - destruct (partition_dot s) as [x' y']. intros [= <- <-] Hy. simpl. by rewrite (IH x' eq_refl Hy).
Qed.

Definition hyphenated (h : string) : string :=
  substring 0 8 h ++ "-" ++ substring 8 4 h ++ "-" ++ substring 12 4 h ++ "-" ++ substring 16 4 h ++ "-" ++ substring 20 12 h.

Lemma hyphenated_matches h : String.length h = 32%nat -> str_all lower_hex h = true -> POD_ID_TOKEN_fullmatch (hyphenated h) = true.
Proof.
  intros Hlen Hall. do 32 (destruct h as [|? h]; [discriminate|]). destruct h; [|discriminate].
  cbn [str_all] in Hall. rewrite !andb_true_iff in Hall. destruct_and! Hall.
  unfold POD_ID_TOKEN_fullmatch, hyphenated. cbn -[lower_hex]. repeat match goal with H : lower_hex _ = true |- _ => rewrite H; clear H end. reflexivity.
Qed.

Lemma str_take_drop n s : String.length (substring 0 n s) = n -> s = substring 0 n s ++ str_drop n s.
Proof.
  revert s. induction n as [|n IH]; intros s; simpl; [by destruct s|]. destruct s as [|a s]; [done|]. simpl. intros [= H]. f_equal. by apply IH.
Qed.

Lemma matches_hyphenated s : POD_ID_TOKEN_fullmatch s = true ->
  exists h, String.length h = 32%nat /\ str_all lower_hex h = true /\ s = hyphenated h.
Proof.
  unfold POD_ID_TOKEN_fullmatch. assert (Hg : forall n groups s, groups_match (n :: groups) s = true -> groups <> [] ->
    exists x rest, s = x ++ String "-" rest /\ String.length x = n /\ str_all lower_hex x = true /\ groups_match groups rest = true).
  { intros n groups s' H Hne. cbn [groups_match] in H. apply andb_true_iff in H as [[Hl Ha]%andb_true_iff H]. apply Nat.eqb_eq in Hl.
    exists (substring 0 n s'). pose proof (str_take_drop n s' Hl) as Hs. destruct groups; [done|]. destruct (str_drop n s') as [|a rest]; [done|].
    destruct (Ascii.eqb_spec a "-") as [->|Hne']; [by exists rest|]. exfalso. clear Hs. destruct a as [[] [] [] [] [] [] [] []]; done. }
  intros H. apply Hg in H as (x1 & s1 & -> & Hl1 & Ha1 & H); [|done]. apply Hg in H as (x2 & s2 & -> & Hl2 & Ha2 & H); [|done].
  apply Hg in H as (x3 & s3 & -> & Hl3 & Ha3 & H); [|done]. apply Hg in H as (x4 & s4 & -> & Hl4 & Ha4 & H); [|done].
  cbn [groups_match] in H. apply andb_true_iff in H as [[Hl5 Ha5]%andb_true_iff H]. apply Nat.eqb_eq in Hl5.
  pose proof (str_take_drop 12 s4 Hl5) as Hs. destruct (str_drop 12 s4); [|done]. revert Hl5 Ha5 Hs. generalize (substring 0 12 s4). intros x5 Hl5 Ha5 Hs.
  exists (x1 ++ x2 ++ x3 ++ x4 ++ x5). rewrite !str_length_app, Hl1, Hl2, Hl3, Hl4, Hl5, !str_all_app, Ha1, Ha2, Ha3, Ha4, Ha5.
  split_and!; [done|done|]. rewrite Hs.
  do 8 (destruct x1 as [|? x1]; [discriminate|]). destruct x1; [|discriminate]. do 4 (destruct x2 as [|? x2]; [discriminate|]). destruct x2; [|discriminate].
  do 4 (destruct x3 as [|? x3]; [discriminate|]). destruct x3; [|discriminate]. do 4 (destruct x4 as [|? x4]; [discriminate|]). destruct x4; [|discriminate].
  do 12 (destruct x5 as [|? x5]; [discriminate|]). destruct x5; [|discriminate]. reflexivity.
Qed.

Lemma pod_token_uuid s : POD_ID_TOKEN_fullmatch s = true <-> exists u, uuid_wf u /\ s = uuid_str u.
Proof.
  split.
  - intros (h & Hlen & Hall & ->)%matches_hyphenated. destruct (hex_of_value h Hlen Hall) as [Hwf Hhex].
    exists (hex_value 0 h). split; [done|]. unfold uuid_str. by rewrite Hhex.
  - intros (u & Hu & ->). apply hyphenated_matches; [apply hex_fixed_length|apply hex_fixed_facts].
Qed.

(** (C36) An audit subject says whose it is: the hub reads exactly the subjects of [tool_pod_audit_event], each as the pod that may publish it
    and the event it was built from. *)
Theorem audit_subject_names_its_pod ns subject u event_type : uuid_wf u ->
  parse_tool_pod_audit_subject subject ns = Some (u, event_type)
  <-> exists kind, tool_pod_audit_event ns (uuid_str u) event_type None = Ok (mkSubject subject kind).
Proof.
  intros Hu. unfold parse_tool_pod_audit_subject, tool_pod_audit_event. rewrite UUID_of_string_str by done. cbn [default].
  set (prefix := ns ++ ".audit." ++ TOOL_POD_AUDIT_TOKEN ++ "."). split.
  - destruct (starts_with prefix subject) eqn:Hst; [|done]. apply starts_with_iff in Hst as [rest ->]. rewrite str_drop_app.
    destruct (partition_dot rest) as [pod ev] eqn:Hp. destruct (POD_ID_TOKEN_fullmatch pod && str_truthy ev) eqn:Hm; [|done].
    apply andb_true_iff in Hm as [Hm Hev]. apply pod_token_uuid in Hm as (u' & Hu' & ->). rewrite UUID_of_string_str by done. intros [= -> ->].
    exists Point. rewrite Hev. cbn [negb]. apply partition_dot_inv in Hp as ->; [|by apply str_truthy_true].
    unfold prefix. rewrite !str_app_assoc. reflexivity.
  - intros [kd H]. destruct (str_truthy event_type) eqn:Hev; [|done]. cbn [negb] in H.
    assert (Hs : subject = prefix ++ uuid_str u ++ String "." event_type) by (injection H as <- _; unfold prefix; rewrite !str_app_assoc; reflexivity).
    rewrite Hs.
    assert (starts_with prefix (prefix ++ uuid_str u ++ String "." event_type) = true) as -> by (apply starts_with_iff; by eexists). rewrite str_drop_app, partition_dot_at by apply uuid_str_no_dot.
    rewrite (proj2 (pod_token_uuid _)) by eauto. rewrite Hev, UUID_of_string_str by done. done.
Qed.

Lemma audit_subject_names_its_pod_witness :
  parse_tool_pod_audit_subject "3tears.audit.tool_pod.00000000-0000-0000-0000-0000000000ff.scan.done" "3tears" = Some (255%N, "scan.done").
Proof. apply (audit_subject_names_its_pod "3tears" _ 255%N "scan.done"); [done|]. exists Point. vm_compute. reflexivity. Defined.

(** The routing id of an agent's in-process tools is read back as the agent it was built from. *)
Lemma inprocess_pod_id_roundtrip u instance : uuid_wf u -> instance <> "" ->
  agent_inprocess_owner_id (agent_inprocess_pod_id u instance) = Ok (Some u).
Proof.
  intros Hu Hi. unfold agent_inprocess_owner_id, agent_inprocess_pod_id. change ("." ++ sanitize_subject_segment instance) with (String "." (sanitize_subject_segment instance)).
  rewrite tokens_var by apply uuid_str_no_dot. rewrite split_on_plain by apply seg_no_dot. cbn [forallb].
  rewrite uuid_str_truthy. unfold sanitize_subject_segment at 1. rewrite str_replace_truthy, (proj2 (str_truthy_true _)) by done. cbn [andb negb].
  rewrite UUID_of_string_str, String.eqb_refl by done. done.
Qed.
