(* ===== verification/Permissions.v ===== *)
(** * Permissions of the message bus

    [src/packages/nats/src/threetears/nats/subject_permissions.py]: what each kind of principal may publish
    and listen to, and the JetStream resources it holds. [build_permissions] is computed by the auth callout
    for a connection whose identity it has verified; [src/packages/nats/src/threetears/nats/user_jwt.py]
    turns its answer into the allow lists of the connection's credential, [publish_allow] and
    [subscribe_allow] here (encoding and signing them is not modelled). *)

From Stdlib Require Import Ascii String Bool List NArith ZArith Lia.
From stdpp Require Import base list strings.
From S2P Require Import Prelude PyUuid Namespaces CasStore Subjects.

Open Scope string_scope.

(** The values of a list of fallible expressions, or the first error. *)
Fixpoint result_all {A E} (l : list (result A E)) : result (list A) E :=
  match l with
  | [] => Ok []
  | r :: l => do! x <- r;; do! xs <- result_all l;; Ok (x :: xs)
  end.

(** ** Principals and resources *)

Inductive Principal := AGENT_POD | TOOL_POD | REGISTRY | HUB | GATEWAY | CHANNEL_ADAPTER | AGENT_ROUTER | DATASET_EXECUTOR.

#[export] Instance Principal_eq_dec : EqDecision Principal.
Proof. solve_decision. Defined.

Definition principal_value (p : Principal) : string :=
  match p with
  | AGENT_POD => "agent_pod" | TOOL_POD => "tool_pod" | REGISTRY => "registry" | HUB => "hub" | GATEWAY => "gateway"
  | CHANNEL_ADAPTER => "channel_adapter" | AGENT_ROUTER => "agent_router" | DATASET_EXECUTOR => "dataset_executor"
  end.

Definition PRINCIPALS : list Principal := [AGENT_POD; TOOL_POD; REGISTRY; HUB; GATEWAY; CHANNEL_ADAPTER; AGENT_ROUTER; DATASET_EXECUTOR].

Inductive JsResourceKind := KV_BUCKET | STREAM | OBJECT_STORE.

#[export] Instance JsResourceKind_eq_dec : EqDecision JsResourceKind.
Proof. solve_decision. Defined.

Inductive JsCapability := FULL | KV_SCOPED | KV_SCOPED_DECLARE | KV_KEY_READ | KV_TABLE_SCOPED | KV_BUCKET_KEYS | KV_OWNER_KEYS
  | STREAM_CONSUMER | OBJECT_STORE_OBJECTS.

#[export] Instance JsCapability_eq_dec : EqDecision JsCapability.
Proof. solve_decision. Defined.

Definition capability_is_scoped (capability : JsCapability) : bool :=
  match capability with KV_SCOPED | KV_SCOPED_DECLARE | KV_KEY_READ | KV_TABLE_SCOPED | KV_OWNER_KEYS => true | _ => false end.

Definition capability_declares (capability : JsCapability) : bool := match capability with KV_SCOPED_DECLARE => true | _ => false end.

Record JsResource := mkJsResource {
  js_name : string;
  js_kind : JsResourceKind;
  js_capability : JsCapability;
  js_scope : option string;
  js_writable : bool;
  js_table : option string;
  js_filter_subject : option string;
}.

(** [_validate_consumer_filter]: a filter that could widen past one principal's subjects. *)
Definition consumer_filter_widens (filter_subject : string) : bool :=
  let tokens := split_on "." filter_subject in
  (length tokens <? 3)%nat
  || existsb (fun token => negb (str_truthy token) || negb (String.eqb token (py_strip token)) || str_has " " token) tokens
  || existsb (fun token => String.eqb token ">") tokens
  || existsb (fun token => String.eqb token "*") (take 2 tokens).

(** [JsResource.__post_init__], as the conditions it refuses. *)
Definition JsResource_refused (r : JsResource) : bool :=
  let capability := js_capability r in
  (match capability with
   | STREAM_CONSUMER => match js_filter_subject r with Some f => negb (str_truthy f) || consumer_filter_widens f | None => true end
   | _ => isSome (js_filter_subject r)
   end)
  || (match capability with
      | KV_TABLE_SCOPED => match js_table r with Some t => negb (KV_KEY_SCOPE_GRAMMAR_match t) | None => true end
      | _ => isSome (js_table r)
      end)
  || (if capability_is_scoped capability then
        negb (bool_decide (js_kind r = KV_BUCKET)) || match js_scope r with Some s => negb (KV_KEY_SCOPE_GRAMMAR_match s) | None => true end
      else isSome (js_scope r))
  || (bool_decide (capability = KV_KEY_READ) && js_writable r)
  || (bool_decide (capability = KV_BUCKET_KEYS) && negb (bool_decide (js_kind r = KV_BUCKET)))
  || (bool_decide (capability = STREAM_CONSUMER) && negb (bool_decide (js_kind r = STREAM)))
  || negb (Bool.eqb (bool_decide (capability = OBJECT_STORE_OBJECTS)) (bool_decide (js_kind r = OBJECT_STORE)))
  || (bool_decide (js_kind r = STREAM) && js_writable r).

Definition JsResource_init (r : JsResource) : result JsResource subject_error :=
  raise_if! JsResource_refused r with SubjectValueError;; Ok r.

Definition KV_STREAM_PREFIX : string := "KV_".
Definition kv_stream_name (bucket : string) : string := KV_STREAM_PREFIX ++ bucket.

Definition stream_name (r : JsResource) : string :=
  match js_kind r with
  | KV_BUCKET => kv_stream_name (js_name r)
  | OBJECT_STORE => "OBJ_" ++ js_name r
  | STREAM => js_name r
  end.

Definition key_prefix (r : JsResource) : option string :=
  match js_table r with
  | Some table => Some (default "None" (js_scope r) ++ "." ++ table)
  | None => js_scope r
  end.

Definition kv_table (name scope table : string) (writable : bool) : result JsResource subject_error :=
  JsResource_init (mkJsResource name KV_BUCKET KV_TABLE_SCOPED (Some scope) writable (Some table) None).

Definition kv_bucket_keys (name : string) (writable : bool) : result JsResource subject_error :=
  JsResource_init (mkJsResource name KV_BUCKET KV_BUCKET_KEYS None writable None None).

Definition kv_owner_keys (name scope : string) (writable : bool) : result JsResource subject_error :=
  JsResource_init (mkJsResource name KV_BUCKET KV_OWNER_KEYS (Some scope) writable None None).

Definition kv (name : string) (scope : option string) (writable declare : bool) : result JsResource subject_error :=
  let capability := match scope with None => FULL | Some _ => if declare then KV_SCOPED_DECLARE else KV_SCOPED end in
  raise_if! declare && negb (isSome scope) with SubjectValueError;;
  JsResource_init (mkJsResource name KV_BUCKET capability scope writable None None).

Definition kv_key_read (name key : string) : result JsResource subject_error :=
  JsResource_init (mkJsResource name KV_BUCKET KV_KEY_READ (Some key) false None None).

Definition object_store (name : string) (writable : bool) : result JsResource subject_error :=
  JsResource_init (mkJsResource name OBJECT_STORE OBJECT_STORE_OBJECTS None writable None None).

Definition stream (name : string) : result JsResource subject_error :=
  JsResource_init (mkJsResource name STREAM FULL None false None None).

Definition stream_consumer (name filter_subject : string) : result JsResource subject_error :=
  JsResource_init (mkJsResource name STREAM STREAM_CONSUMER None false None (Some filter_subject)).

Record PrincipalPermissions := mkPermissions {
  pp_publish : list string;
  pp_subscribe : list string;
  pp_allow_responses : bool;
  pp_inbox_prefix : string;
  pp_js_resources : list JsResource;
}.

(** ** Scopes and bucket names *)

Definition seg (value : string) : string := sanitize_subject_segment value.

Definition inbox_prefix_for (principal : Principal) (conn_id : string) : string :=
  "_INBOX_" ++ principal_value principal ++ "_" ++ seg conn_id.

Definition BARE_PRINCIPAL_SCOPES : list string := map principal_value PRINCIPALS.

(** [_scope_id] of a string. *)
Definition scope_id (value : string) : result string subject_error :=
  match UUID_of_string value with Some u => Ok (uuid_hex u) | None => Err SubjectValueError end.

(** [_pod_scope]. *)
Definition pod_scope (principal : Principal) (scope_id : string) : result string subject_error :=
  let scope := principal_value principal ++ "-" ++ scope_id in
  raise_if! existsb (String.eqb scope) BARE_PRINCIPAL_SCOPES with SubjectValueError;;
  raise_if! negb (KV_KEY_SCOPE_GRAMMAR_match scope) with SubjectValueError;;
  Ok scope.

Definition kv_key_scope_for (principal : Principal) (agent_id pod_id : option string) : result string subject_error :=
  match principal with
  | AGENT_POD =>
      raise_if! isSome pod_id with SubjectValueError;;
      match agent_id with None => Err SubjectValueError | Some a => do! id <- scope_id a;; pod_scope principal id end
  | TOOL_POD =>
      raise_if! isSome agent_id with SubjectValueError;;
      match pod_id with None => Err SubjectValueError | Some p => do! id <- scope_id p;; pod_scope principal id end
  | _ =>
      raise_if! isSome agent_id || isSome pod_id with SubjectValueError;;
      Ok (principal_value principal)
  end.

Definition SERVICE_SCOPE_PREFIX : string := "svc".

Definition kv_key_scope_for_service (service : string) : result string subject_error :=
  raise_if! negb (str_truthy service) with SubjectValueError;;
  let scope := SERVICE_SCOPE_PREFIX ++ "-" ++ service in
  raise_if! existsb (String.eqb scope) BARE_PRINCIPAL_SCOPES with SubjectValueError;;
  raise_if! negb (KV_KEY_SCOPE_GRAMMAR_match scope) with SubjectValueError;;
  Ok scope.

Definition MAX_COORDINATION_BUCKETS : nat := 16.
Definition MAX_COORDINATION_BUCKET_SUFFIX_CHARS : nat := 64.
Definition DATA_VERSIONS_BUCKET_SUFFIX : string := "data-versions".
Definition WORKSPACE_LOCKS_BUCKET_SUFFIX : string := "workspace-locks".
Definition AGENT_POD_PLATFORM_BUCKET_SUFFIXES : list string := [WORKSPACE_LOCKS_BUCKET_SUFFIX].
Definition TOOL_POD_OBJECTS_BUCKET_SUFFIX : string := "objects".
Definition TOOL_POD_POINTERS_BUCKET_SUFFIX : string := "pointers".
Definition GATEWAY_DOOR_PROOF_NONCE_BUCKET : string := "gateway-door-proof-nonces".
Definition SERVER_USER_INFO_SUBJECT : string := "$SYS.REQ.USER.INFO".
Definition AGENT_CONFIG_BUCKET_SUFFIX : string := "_agent_config".
Definition CROSS_PLATFORM_CACHE_INVALIDATE : string := "threetears.cache.invalidate".
Definition RESULT_STREAM_SUFFIX : string := "tools-results".

(** One character of [COORDINATION_BUCKET_SUFFIX_GRAMMAR], [^[-_a-zA-Z0-9]+$]. *)
Definition suffix_char (c : ascii) : bool := scope_char c && negb (Ascii.eqb c "=").
Fixpoint suffix_rest (s : string) : bool :=
  match s with
  | EmptyString => true
  | String c EmptyString => suffix_char c || Ascii.eqb c "010"
  | String c s' => suffix_char c && suffix_rest s'
  end.
Definition COORDINATION_BUCKET_SUFFIX_GRAMMAR_match (s : string) : bool :=
  match s with
  | EmptyString => false
  | String c s' => suffix_char c && suffix_rest s'
  end.

(** [_validate_coordination_suffix]. *)
Definition validate_coordination_suffix (suffix : string) : result unit subject_error :=
  raise_if! negb (str_truthy suffix) || (MAX_COORDINATION_BUCKET_SUFFIX_CHARS <? String.length suffix)%nat with SubjectValueError;;
  raise_if! negb (COORDINATION_BUCKET_SUFFIX_GRAMMAR_match suffix) with SubjectValueError;;
  Ok tt.

Definition coordination_bucket_name (scope suffix ns : string) : result string subject_error :=
  do! _ <- validate_coordination_suffix suffix;; Ok (ns ++ "-" ++ scope ++ "-" ++ suffix).

Definition data_versions_bucket_name (ns : string) : string := ns ++ "-" ++ DATA_VERSIONS_BUCKET_SUFFIX.
Definition agent_config_bucket_name (ns : string) : string := ns ++ AGENT_CONFIG_BUCKET_SUFFIX.

Definition data_version_kv_key (owner_id : string) : result string subject_error :=
  match UUID_of_string owner_id with Some u => Ok (uuid_hex u) | None => Err SubjectValueError end.

Definition agent_config_kv_key (agent_id : string) : result string subject_error :=
  match UUID_of_string agent_id with Some u => Ok (uuid_str u) | None => Err SubjectValueError end.

Definition agent_platform_bucket_suffix (agent_id suffix : string) : result string subject_error :=
  raise_if! negb (existsb (String.eqb suffix) AGENT_POD_PLATFORM_BUCKET_SUFFIXES) with SubjectValueError;;
  do! scope <- kv_key_scope_for AGENT_POD (Some agent_id) None;;
  do! _ <- validate_coordination_suffix suffix;;
  Ok (scope ++ "-" ++ suffix).

Definition tool_pod_object_store_name (pod_id ns : string) : result string subject_error :=
  do! scope <- kv_key_scope_for TOOL_POD None (Some pod_id);; coordination_bucket_name scope TOOL_POD_OBJECTS_BUCKET_SUFFIX ns.

Definition tool_pod_pointers_bucket_name (pod_id ns : string) : result string subject_error :=
  do! scope <- kv_key_scope_for TOOL_POD None (Some pod_id);; coordination_bucket_name scope TOOL_POD_POINTERS_BUCKET_SUFFIX ns.

(** ** Grants of an agent's tables and buckets to a tool pod *)

Record AgentTableGrant := mkTableGrant { tg_owner_agent_id : UUID; tg_table : string; tg_writable : bool }.

Definition AgentTableGrant_init (g : AgentTableGrant) : result AgentTableGrant subject_error :=
  raise_if! negb (KV_KEY_SCOPE_GRAMMAR_match (tg_table g)) with SubjectValueError;; Ok g.

Record AgentBucketGrant := mkBucketGrant { bg_owner_agent_id : UUID; bg_suffix : string; bg_writable : bool }.

Definition AgentBucketGrant_init (g : AgentBucketGrant) : result AgentBucketGrant subject_error :=
  do! _ <- validate_coordination_suffix (bg_suffix g);; Ok g.

(** [owner_scope] of either: [kv_key_scope_for] of a [UUID]. *)
Definition owner_scope (owner : UUID) : result string subject_error := pod_scope AGENT_POD (uuid_hex owner).

Definition bucket_name (g : AgentBucketGrant) (ns : string) : result string subject_error :=
  do! scope <- owner_scope (bg_owner_agent_id g);; coordination_bucket_name scope (bg_suffix g) ns.

(** Whether a pair is listed twice. *)
Fixpoint granted_twice (seen : list (UUID * string)) : bool :=
  match seen with
  | [] => false
  | k :: seen => existsb (fun k' => (k.1 =? k'.1)%N && String.eqb k.2 k'.2) seen || granted_twice seen
  end.

Section Resolvers.
Variable ns : string.
Variable digest_token : string -> string.

Definition coordination_resources (scope : string) (declared : list string) : result (list JsResource) subject_error :=
  raise_if! (MAX_COORDINATION_BUCKETS <? length declared)%nat with SubjectValueError;;
  result_all (map (fun suffix => do! bucket <- coordination_bucket_name scope suffix ns;; kv_bucket_keys bucket true) declared).

Definition agent_bucket_resources (grants : list AgentBucketGrant) : result (list JsResource) subject_error :=
  raise_if! granted_twice (map (fun g => (bg_owner_agent_id g, bg_suffix g)) grants) with SubjectValueError;;
  result_all (map (fun g => do! bucket <- bucket_name g ns;; kv_bucket_keys bucket (bg_writable g)) grants).

Definition agent_table_resources (grants : list AgentTableGrant) : result (list JsResource) subject_error :=
  raise_if! granted_twice (map (fun g => (tg_owner_agent_id g, tg_table g)) grants) with SubjectValueError;;
  result_all (map (fun g => do! scope <- owner_scope (tg_owner_agent_id g);; kv_table (ns ++ "-collections") scope (tg_table g) (tg_writable g)) grants).

(** [_require]. *)
Definition require (value : option string) : result string subject_error :=
  match value with Some v => if str_truthy v then Ok v else Err SubjectValueError | None => Err SubjectValueError end.

(** [conn_id or p]. *)
Definition or_default (value : option string) (p : string) : string :=
  match value with Some v => if str_truthy v then v else p | None => p end.

Definition retired_subscriptions : list string := map (fun kind => path (acl_invalidate ns kind)) ["membership"; "assignment"; "role"].

(** [_deadletters]. *)
Definition deadletters (subscribe : list string) (inbox : string) : list string :=
  map (fun subject => path (deadletter ns subject))
    (List.filter (fun subject => negb (starts_with (inbox ++ ".") subject) && negb (existsb (String.eqb subject) retired_subscriptions)) subscribe).

Definition result_stream_name : string := ns ++ "-" ++ RESULT_STREAM_SUFFIX.

(** What a connection is resolved from. *)
Record request := mkRequest {
  rq_agent_id : option string;
  rq_pod_id : option string;
  rq_conn_id : option string;
  rq_tool_namespaces : list string;
  rq_coordination_buckets : list string;
  rq_agent_table_grants : list AgentTableGrant;
  rq_agent_bucket_grants : list AgentBucketGrant;
}.

(** The session subjects of the tools a pod serves. *)
Definition hitl_session_subjects (tool_namespaces : list string) : result (list string) subject_error :=
  result_all (List.concat (map (fun name =>
    [(do! family <- hitl_forward_family name;; do! subject <- forward_scoped_wildcard ns digest_token family;; Ok (path subject));
     (do! family <- hitl_pipe_family name;; do! subject <- forward_scoped_wildcard ns digest_token family;; Ok (path subject))]) tool_namespaces)).

Definition pipe_subjects (p direction : string) (tool_namespaces : list string) : result (list string) subject_error :=
  result_all (map (fun name => do! subject <- pipe_pod_wildcard ns digest_token name p direction;; Ok (path subject)) tool_namespaces).

Definition agent_pod_publish (a : string) (p : string) (audit : Subject) : list string :=
    [path (agent_register ns);
     path (agent_deregister ns);
     path (agent_heartbeat ns a p);
     path (hub_handshake ns);
     path (hub_secrets_request ns);
     path (hub_object_commit ns);
     path (hub_object_resolve ns);
     path (hub_approval_record ns);
     path (hub_memory_namespace_ensure ns);
     path (hub_audit_anonymize ns);
     path (hub_channel_engagement_default_resolve ns);
     path (hub_jwks ns);
     path (gateway_completion ns);
     path (gateway_embedding ns);
     path (tools_discover ns);
     path (tools_call ns);
     path (tools_register ns);
     path (tools_heartbeat_agent_subtree ns a);
     path (tools_result_agent_subtree ns a);
     path audit;
     path (knowledge_draft ns);
     path (workspaces_create ns);
     path (namespace_discover ns);
     path (l3_query ns None);
     path (l3_batch ns None);
     path (l3_truncate ns None);
     path (l3_load_files ns None);
     ns ++ ".l3.tx.*";
     ns ++ ".channels.deliver.*";
     ns ++ ".hub.stream." ++ seg a ++ ".*";
     ns ++ ".agents.complete.*";
     CROSS_PLATFORM_CACHE_INVALIDATE].

Definition agent_pod_subscribe (inbox : string) (a : string) (p : string) : list string :=
    [inbox ++ ".>";
     path (agent_internal ns a p);
     path (agent_reregister_request ns a p);
     path (tools_internal_agent_subtree ns a);
     path (tools_probe_agent_subtree ns a);
     path (acl_invalidate ns "membership");
     path (acl_invalidate ns "assignment");
     path (acl_invalidate ns "role");
     CROSS_PLATFORM_CACHE_INVALIDATE;
     ns ++ ".gateway.stream." ++ seg a ++ ".*"].

(** [_agent_pod]. *)
Definition agent_pod_permissions (rq : request) : result PrincipalPermissions subject_error :=
  do! a <- require (rq_agent_id rq);;
  do! p <- require (rq_pod_id rq);;
  let inbox := inbox_prefix_for AGENT_POD (or_default (rq_conn_id rq) p) in
  do! scope <- kv_key_scope_for AGENT_POD (Some a) None;;
  do! audit <- audit_event ns "tool.call" None;;
  let publish := agent_pod_publish a p audit in
  let subscribe := agent_pod_subscribe inbox a p in
  do! config_key <- agent_config_kv_key a;;
  do! version_key <- data_version_kv_key a;;
  do! js <- result_all
    [kv_bucket_keys (ns ++ "-epochs") false;
     kv_key_read (agent_config_bucket_name ns) config_key;
     kv (ns ++ "-collections") (Some scope) true false;
     kv_owner_keys (ns ++ "-ratelimits") scope true;
     kv_owner_keys (ns ++ "-proxy_assertion_nonces") scope true;
     stream_consumer result_stream_name (path (tools_reply_agent_subtree ns a));
     kv_key_read (data_versions_bucket_name ns) version_key];;
  do! platform <- result_all (map (fun suffix => do! bucket <- coordination_bucket_name scope suffix ns;; kv_bucket_keys bucket true) AGENT_POD_PLATFORM_BUCKET_SUFFIXES);;
  do! declared <- coordination_resources scope (rq_coordination_buckets rq);;
  Ok (mkPermissions (publish ++ deadletters subscribe inbox)%list subscribe true inbox (js ++ platform ++ declared)%list).

Definition tool_pod_publish (p : string) (audit : Subject) (own_audit : Subject) : list string :=
    [path (tools_register ns);
     path (tools_heartbeat ns p);
     path (tools_discover ns);
     path (hub_handshake ns);
     path (l3_query ns None);
     path (l3_batch ns None);
     path (l3_truncate ns None);
     path (l3_load_files ns None);
     ns ++ ".l3.tx.*";
     path (datasource_query_wildcard ns);
     path (tools_call ns);
     path (hub_jwks ns);
     path audit;
     path own_audit;
     path (hub_audit_anonymize ns);
     path (hub_geo_layers_reloaded ns);
     path (hub_collection_keys_purge ns);
     path (hub_cache_index_moved ns);
     path (hub_object_resolve ns);
     path (hub_engagement_scope ns);
     path (namespace_discover ns);
     path (tools_result_pod_wildcard ns p);
     SERVER_USER_INFO_SUBJECT;
     CROSS_PLATFORM_CACHE_INVALIDATE].

Definition tool_pod_subscribe (inbox : string) (p : string) : list string :=
    [inbox ++ ".>";
     path (tools_internal ns p);
     path (tools_probe ns p);
     CROSS_PLATFORM_CACHE_INVALIDATE].

(** [_tool_pod]. *)
Definition tool_pod_permissions (rq : request) : result PrincipalPermissions subject_error :=
  do! p <- require (rq_pod_id rq);;
  let inbox := inbox_prefix_for TOOL_POD (or_default (rq_conn_id rq) p) in
  do! scope <- kv_key_scope_for TOOL_POD None (Some p);;
  do! hitl_sessions <- hitl_session_subjects (rq_tool_namespaces rq);;
  do! pipe_down <- pipe_subjects p "down" (rq_tool_namespaces rq);;
  do! pipe_up <- pipe_subjects p "up" (rq_tool_namespaces rq);;
  do! audit <- audit_event ns "tool.call" None;;
  do! own_audit <- tool_pod_audit_wildcard ns p None;;
  let publish := (tool_pod_publish p audit own_audit ++ pipe_down)%list in
  let subscribe := (tool_pod_subscribe inbox p ++ hitl_sessions ++ pipe_up)%list in
  do! version_key <- data_version_kv_key p;;
  do! js <- result_all
    [kv_owner_keys (ns ++ "-proxy_assertion_nonces") scope true;
     kv_owner_keys (ns ++ "-leases") scope true;
     kv (ns ++ "-collections") (Some scope) true false;
     kv_bucket_keys (ns ++ "-epochs") false;
     kv_key_read (data_versions_bucket_name ns) version_key];;
  do! tables <- agent_table_resources (rq_agent_table_grants rq);;
  do! buckets <- agent_bucket_resources (rq_agent_bucket_grants rq);;
  Ok (mkPermissions (publish ++ deadletters subscribe inbox)%list subscribe true inbox (js ++ tables ++ buckets)%list).

Definition registry_publish : list string :=
    [path (tools_internal_wildcard ns);
     path (tools_probe_wildcard ns);
     path (hub_jwks ns);
     path (tools_reply_wildcard ns);
     path (hub_handshake ns);
     path (l3_query ns None);
     path (l3_batch ns None);
     ns ++ ".l3.tx.*";
     path (hub_endpoint_usage_track ns);
     CROSS_PLATFORM_CACHE_INVALIDATE].

Definition registry_subscribe (inbox : string) : list string :=
    [inbox ++ ".>";
     path (tools_call ns);
     path (tools_discover ns);
     path (tools_register ns);
     path (tools_heartbeat_wildcard ns);
     CROSS_PLATFORM_CACHE_INVALIDATE].

(** [_registry]. *)
Definition registry_permissions (rq : request) : result PrincipalPermissions subject_error :=
  do! c <- require (rq_conn_id rq);;
  let inbox := inbox_prefix_for REGISTRY c in
  do! scope <- kv_key_scope_for REGISTRY None None;;
  let publish := registry_publish in
  let subscribe := registry_subscribe inbox in
  do! js <- result_all
    [kv "tool_catalog" None true false;
     kv (ns ++ "-pop_nonces") None true false;
     kv (ns ++ "-collections") (Some scope) true false;
     kv_bucket_keys (ns ++ "-epochs") false;
     stream result_stream_name];;
  Ok (mkPermissions (publish ++ deadletters subscribe inbox)%list subscribe true inbox js).

Definition hub_publish : list string :=
    [ns ++ ".agents.route.*";
     ns ++ ".agents.reregister_request.*.*";
     path (gateway_completion ns);
     path (gateway_embedding ns);
     path (gateway_catalog_epoch ns);
     path (mcp_rbac_epoch ns);
     ns ++ ".hub.channel.installs.changed";
     path (forward_scoped_any_family ns);
     path (pipe_any_pod_wildcard ns "up");
     CROSS_PLATFORM_CACHE_INVALIDATE].

Definition hub_subscribe (inbox : string) : list string :=
    [inbox ++ ".>";
     path (pipe_any_pod_wildcard ns "down");
     path (hub_handshake ns);
     path (hub_jwks ns);
     path (hub_secrets_request ns);
     path (hub_user_resolve ns);
     path (hub_object_commit ns);
     path (hub_object_resolve ns);
     path (hub_engagement_scope ns);
     path (hub_channel_engagement_default_resolve ns);
     path (hub_approval_record ns);
     path (hub_approval_resolve ns);
     path (hub_memory_namespace_ensure ns);
     path (hub_audit_anonymize ns);
     path (hub_geo_layers_reloaded ns);
     path (hub_object_store_declare ns);
     path (hub_object_store_retire ns);
     path (hub_collection_keys_purge ns);
     path (hub_cache_index_moved ns);
     path (hub_channel_installs ns);
     path (namespace_discover ns);
     path (agent_register ns);
     path (agent_deregister ns);
     path (agent_heartbeat_wildcard ns);
     path (l3_query ns None);
     path (l3_batch ns None);
     path (l3_truncate ns None);
     path (l3_load_files ns None);
     ns ++ ".l3.tx.*";
     path (datasource_query_wildcard ns);
     path (tools_register ns);
     path (workspaces_create ns);
     path (knowledge_draft ns);
     path (hub_usage_track ns);
     path (audit_wildcard ns None);
     ns ++ ".hub.stream.*.*";
     path (gateway_catalog_epoch ns);
     path (mcp_rbac_epoch ns);
     CROSS_PLATFORM_CACHE_INVALIDATE].

(** [_hub]. *)
Definition hub_permissions (rq : request) : result PrincipalPermissions subject_error :=
  do! c <- require (rq_conn_id rq);;
  let inbox := inbox_prefix_for HUB c in
  do! scope <- kv_key_scope_for HUB None None;;
  let publish := hub_publish in
  let subscribe := hub_subscribe inbox in
  do! js <- result_all
    [kv (ns ++ "-epochs") None true false;
     kv (ns ++ "_agent_config") None true false;
     kv (ns ++ "_agent_sessions") None true false;
     kv (ns ++ "_revoked_tokens") None true false;
     kv (ns ++ "_login_lockouts") None true false;
     kv (ns ++ "_rate_limits") None true false;
     kv (ns ++ "_ratelimit") None true false;
     kv (ns ++ "-collections") (Some scope) true true;
     stream (ns ++ "-channels-deliver");
     kv (ns ++ "-ratelimits") None true false;
     kv (ns ++ "-proxy_assertion_nonces") None true false;
     kv (ns ++ "-leases") None true false];;
  Ok (mkPermissions (publish ++ deadletters subscribe inbox)%list subscribe true inbox js).

Definition gateway_publish : list string :=
    [ns ++ ".gateway.stream.*.*";
     path (hub_usage_track ns);
     path (hub_object_resolve ns);
     path (hub_jwks ns);
     CROSS_PLATFORM_CACHE_INVALIDATE].

Definition gateway_subscribe (inbox : string) : list string :=
    [inbox ++ ".>";
     path (gateway_completion ns);
     path (gateway_embedding ns);
     path (gateway_health ns);
     path (gateway_catalog_epoch ns);
     CROSS_PLATFORM_CACHE_INVALIDATE].

(** [_gateway]. *)
Definition gateway_permissions (rq : request) : result PrincipalPermissions subject_error :=
  do! c <- require (rq_conn_id rq);;
  let inbox := inbox_prefix_for GATEWAY c in
  do! scope <- kv_key_scope_for GATEWAY None None;;
  let publish := gateway_publish in
  let subscribe := gateway_subscribe inbox in
  do! js <- result_all
    [kv (ns ++ "-epochs") None true false;
     kv (ns ++ "-collections") (Some scope) true false;
     kv (ns ++ "-" ++ GATEWAY_DOOR_PROOF_NONCE_BUCKET) None true false];;
  Ok (mkPermissions (publish ++ deadletters subscribe inbox)%list subscribe true inbox js).

Definition channel_adapter_publish : list string :=
    [path (hub_channel_installs ns);
     path (hub_user_resolve ns);
     path (hub_approval_resolve ns);
     ns ++ ".agents.turn.*";
     ns ++ ".hub.channel.installs.changed";
     path (hub_jwks ns);
     path (channels_deliver ns "deadletter");
     CROSS_PLATFORM_CACHE_INVALIDATE].

Definition channel_adapter_subscribe (inbox : string) : list string :=
    [inbox ++ ".>";
     ns ++ ".hub.channel.installs.changed";
     ns ++ ".agents.reply.*";
     CROSS_PLATFORM_CACHE_INVALIDATE].

(** [_channel_adapter]. *)
Definition channel_adapter_permissions (rq : request) : result PrincipalPermissions subject_error :=
  do! c <- require (rq_conn_id rq);;
  let inbox := inbox_prefix_for CHANNEL_ADAPTER c in
  do! scope <- kv_key_scope_for CHANNEL_ADAPTER None None;;
  let publish := channel_adapter_publish in
  let subscribe := channel_adapter_subscribe inbox in
  do! js <- result_all
    [kv (ns ++ "-collections") (Some scope) true false;
     stream (ns ++ "-channels-deliver")];;
  Ok (mkPermissions (publish ++ deadletters subscribe inbox)%list subscribe true inbox js).

Definition agent_router_publish : list string :=
    [ns ++ ".agents.internal.*.*";
     ns ++ ".agents.reregister_request.*.*";
     path (agent_turn_deadletter ns);
     ns ++ ".agents.reply.*";
     path (hub_jwks ns);
     CROSS_PLATFORM_CACHE_INVALIDATE].

Definition agent_router_subscribe (inbox : string) : list string :=
    [inbox ++ ".>";
     path (agent_register ns);
     path (agent_deregister ns);
     path (agent_heartbeat_wildcard ns);
     ns ++ ".agents.complete.*";
     CROSS_PLATFORM_CACHE_INVALIDATE].

(** [_agent_router]. *)
Definition agent_router_permissions (rq : request) : result PrincipalPermissions subject_error :=
  do! c <- require (rq_conn_id rq);;
  let inbox := inbox_prefix_for AGENT_ROUTER c in
  do! scope <- kv_key_scope_for AGENT_ROUTER None None;;
  let publish := agent_router_publish in
  let subscribe := agent_router_subscribe inbox in
  do! js <- result_all
    [kv "agent_router_catalog" None true false;
     kv (ns ++ "_agent_config") None false false;
     kv (ns ++ "-collections") (Some scope) true false;
     stream (ns ++ "-agents-turn")];;
  Ok (mkPermissions (publish ++ deadletters subscribe inbox)%list subscribe true inbox js).

Definition dataset_executor_publish : list string :=
    [CROSS_PLATFORM_CACHE_INVALIDATE].

Definition dataset_executor_subscribe (inbox : string) : list string :=
    [inbox ++ ".>";
     CROSS_PLATFORM_CACHE_INVALIDATE].

(** [_dataset_executor]. *)
Definition dataset_executor_permissions (rq : request) : result PrincipalPermissions subject_error :=
  do! c <- require (rq_conn_id rq);;
  let inbox := inbox_prefix_for DATASET_EXECUTOR c in
  do! scope <- kv_key_scope_for DATASET_EXECUTOR None None;;
  let publish := dataset_executor_publish in
  let subscribe := dataset_executor_subscribe inbox in
  do! js <- result_all
    [kv (ns ++ "-collections") (Some scope) true false];;
  Ok (mkPermissions (publish ++ deadletters subscribe inbox)%list subscribe true inbox js).

Definition RESOLVERS (principal : Principal) : request -> result PrincipalPermissions subject_error :=
  match principal with
  | AGENT_POD => agent_pod_permissions
  | TOOL_POD => tool_pod_permissions
  | REGISTRY => registry_permissions
  | HUB => hub_permissions
  | GATEWAY => gateway_permissions
  | CHANNEL_ADAPTER => channel_adapter_permissions
  | AGENT_ROUTER => agent_router_permissions
  | DATASET_EXECUTOR => dataset_executor_permissions
  end.

(** [_with_object_store]. *)
Definition with_object_store (permissions : PrincipalPermissions) (pod_id : string) : result PrincipalPermissions subject_error :=
  do! objects <- tool_pod_object_store_name pod_id ns;;
  do! pointers <- tool_pod_pointers_bucket_name pod_id ns;;
  do! js <- result_all [object_store objects true; kv_bucket_keys pointers true];;
  Ok (mkPermissions
        (pp_publish permissions ++ [path (hub_object_store_declare ns); path (hub_object_store_retire ns)])%list
        (pp_subscribe permissions) (pp_allow_responses permissions) (pp_inbox_prefix permissions) (pp_js_resources permissions ++ js)%list).

Definition build_permissions (principal : Principal) (rq : request) (object_store : bool) : result PrincipalPermissions subject_error :=
  raise_if! object_store && negb (bool_decide (principal = TOOL_POD)) with SubjectValueError;;
  do! permissions <- RESOLVERS principal rq;;
  if object_store then do! p <- require (rq_pod_id rq);; with_object_store permissions p else Ok permissions.
End Resolvers.

Definition kv_bucket_names (permissions : PrincipalPermissions) : list string :=
  map js_name (List.filter (fun r => bool_decide (js_kind r = KV_BUCKET)) (pp_js_resources permissions)).

(** ** The allow lists of a credential *)

Definition JS_API_ACCOUNT : list string := ["$JS.API.INFO"; "$JS.API.STREAM.NAMES"].

Definition js_api_grants_for_stream (stream : string) (capability : JsCapability) (bucket scope filter_subject : option string)
  : result (list string) subject_error :=
  match capability with
  | KV_BUCKET_KEYS =>
      match bucket with
      | None => Err SubjectValueError
      | Some bucket =>
          Ok ["$JS.API.STREAM.INFO." ++ stream;
              "$JS.API.STREAM.MSG.GET." ++ stream;
              "$JS.API.DIRECT.GET." ++ stream ++ ".$KV." ++ bucket ++ ".>";
              "$JS.API.CONSUMER.CREATE." ++ stream ++ ".*.$KV." ++ bucket ++ ".>"]
      end
  | OBJECT_STORE_OBJECTS =>
      match bucket with
      | None => Err SubjectValueError
      | Some bucket =>
          Ok ["$JS.API.STREAM.INFO." ++ stream;
              "$JS.API.DIRECT.GET." ++ stream ++ ".$O." ++ bucket ++ ".M.>";
              "$JS.API.CONSUMER.CREATE." ++ stream ++ ".*.$O." ++ bucket ++ ".>"]
      end
  | STREAM_CONSUMER =>
      match filter_subject with
      | Some f => if str_truthy f then Ok ["$JS.API.CONSUMER.CREATE." ++ stream ++ ".*." ++ f] else Err SubjectValueError
      | None => Err SubjectValueError
      end
  | FULL =>
      Ok ["$JS.API.STREAM.*." ++ stream;
          "$JS.API.STREAM.MSG.*." ++ stream;
          "$JS.API.DIRECT.GET." ++ stream;
          "$JS.API.DIRECT.GET." ++ stream ++ ".>";
          "$JS.API.CONSUMER.*." ++ stream;
          "$JS.API.CONSUMER.*." ++ stream ++ ".>";
          "$JS.API.CONSUMER.*.*." ++ stream ++ ".>"]
  | KV_SCOPED | KV_SCOPED_DECLARE | KV_KEY_READ | KV_TABLE_SCOPED | KV_OWNER_KEYS =>
      match bucket, scope with
      | Some bucket, Some scope =>
          let grants :=
            match capability with
            | KV_KEY_READ =>
                ["$JS.API.STREAM.INFO." ++ stream;
                 "$JS.API.DIRECT.GET." ++ stream ++ ".$KV." ++ bucket ++ "." ++ scope;
                 "$JS.API.CONSUMER.CREATE." ++ stream ++ ".*.$KV." ++ bucket ++ "." ++ scope]
            | KV_OWNER_KEYS =>
                ["$JS.API.STREAM.INFO." ++ stream;
                 "$JS.API.DIRECT.GET." ++ stream ++ ".$KV." ++ bucket ++ "." ++ scope ++ ".>";
                 "$JS.API.CONSUMER.CREATE." ++ stream ++ ".*.$KV." ++ bucket ++ "." ++ scope ++ ".>"]
            | _ =>
                ["$JS.API.STREAM.INFO." ++ stream;
                 "$JS.API.DIRECT.GET." ++ stream ++ ".$KV." ++ bucket ++ "." ++ scope ++ ".>"]
            end in
          Ok (if capability_declares capability
              then app grants ["$JS.API.STREAM.CREATE." ++ stream; "$JS.API.STREAM.UPDATE." ++ stream] else grants)
      | _, _ => Err SubjectValueError
      end
  end.

(** The data subjects of a resource a credential may write. *)
Definition kv_data (r : JsResource) : list string :=
  app
    (if bool_decide (js_kind r = KV_BUCKET) && js_writable r
     then ["$KV." ++ js_name r ++ "." ++ match key_prefix r with None => ">" | Some prefix => prefix ++ ".>" end] else [])
    (if bool_decide (js_kind r = OBJECT_STORE) && js_writable r then ["$O." ++ js_name r ++ ".>"] else []).

(** The control subjects of a resource. *)
Definition js_control (r : JsResource) : result (list string) subject_error :=
  js_api_grants_for_stream (stream_name r) (js_capability r)
    (match js_kind r with STREAM => None | _ => Some (js_name r) end) (key_prefix r) (js_filter_subject r).

(** [mint_user_jwt]: the allow list of publishing ... *)
Definition publish_allow (permissions : PrincipalPermissions) : result (list string) subject_error :=
  let resources := pp_js_resources permissions in
  do! control <- result_all (map js_control resources);;
  Ok (pp_publish permissions ++ List.concat (map kv_data resources)
      ++ (match resources with [] => [] | _ => JS_API_ACCOUNT ++ List.concat control end))%list.

(** ... and of subscribing. *)
Definition subscribe_allow (permissions : PrincipalPermissions) : list string := pp_subscribe permissions.
