(* ===== verification/PodPolicy.v ===== *)
(** * Whose a subject is

    A policy of ownership over the subjects of the bus. [owner] reads off a subject the pod it belongs to, if
    it belongs to one: a pod's own bus subjects carry its id, its keys in the shared key-value buckets carry
    its scope, its own buckets carry it in their name. The lemmas give the owner of everything a pattern of
    [Subjects.v] covers, and of everything a JetStream resource of [Permissions.v] lets a credential publish;
    [PodIsolation.v] puts them together. *)

From Stdlib Require Import Ascii String Bool List NArith ZArith Lia.
From stdpp Require Import base list strings.
From S2P Require Import Prelude PyUuid Namespaces CasStore Subjects Permissions.

Open Scope string_scope.

(** ** The policy *)

(** What is left of [s] after the prefix [p]. *)
Definition strip_prefix (p s : string) : option string := if starts_with p s then Some (str_drop (String.length p) s) else None.

(** What is left of a list of tokens after the literal tokens [pre]. *)
Fixpoint after (pre l : list string) : option (list string) :=
  match pre, l with
  | [], _ => Some l
  | p :: pre, t :: l => if String.eqb p t then after pre l else None
  | _ :: _, [] => None
  end.

Definition one_of (xs : list string) (x : string) : bool := existsb (String.eqb x) xs.

Section Policy.
Variable ns : string.

(** The pod a bucket of its own is named for. *)
Definition bucket_owner (bucket : string) : option UUID :=
  match strip_prefix (ns ++ "-agent_pod-") bucket with
  | Some rest => UUID_of_string (substring 0 32 rest)
  | None => match strip_prefix (ns ++ "-tool_pod-") bucket with Some rest => UUID_of_string (substring 0 32 rest) | None => None end
  end.

(** The pod a scope in a shared bucket is for. *)
Definition scope_owner (scope : string) : option UUID :=
  match strip_prefix "agent_pod-" scope with
  | Some id => UUID_of_string id
  | None => match strip_prefix "tool_pod-" scope with Some id => UUID_of_string id | None => None end
  end.

Definition kv_owner (bucket : string) (key : list string) : option UUID :=
  match bucket_owner bucket with
  | Some u => Some u
  | None =>
      match key with
      | [] => None
      | k :: _ =>
          if one_of [ns ++ "-collections"; ns ++ "-ratelimits"; ns ++ "-proxy_assertion_nonces"; ns ++ "-leases"] bucket then scope_owner k
          else if one_of [data_versions_bucket_name ns; agent_config_bucket_name ns] bucket then UUID_of_string k
          else None
      end
  end.

(** The pod of a subject of the bus itself, after the namespace. *)
Definition bus_owner (l : list string) : option UUID :=
  match l with
  | area :: family :: id :: _ =>
      if (String.eqb area "agents" && one_of ["heartbeat"; "internal"; "reregister_request"] family)
         || (String.eqb area "tools" && one_of ["heartbeat"; "internal"; "probe"; "result"; "reply"] family)
         || (one_of ["hub"; "gateway"] area && String.eqb family "stream")
         || (String.eqb area "audit" && String.eqb family "tool_pod")
         || String.eqb area "pipe"
      then UUID_of_string id else None
  | _ => None
  end.

(** The pod of a data subject: a bus subject, a key-value key or an object. *)
Definition data_owner (l : list string) : option UUID :=
  match l with
  | root :: rest =>
      if String.eqb root ns then bus_owner rest
      else
        match rest with
        | bucket :: key =>
            if String.eqb root "$KV" then kv_owner bucket key
            else if String.eqb root "$O" then bucket_owner bucket
            else None
        | [] => None
        end
  | [] => None
  end.

(** The pod whose bucket is behind a stream. *)
Definition stream_owner (stream : string) : option UUID :=
  match strip_prefix "KV_" stream with
  | Some bucket => bucket_owner bucket
  | None => match strip_prefix "OBJ_" stream with Some bucket => bucket_owner bucket | None => None end
  end.

Definition js_owner (l : list string) : option UUID :=
  match after ["DIRECT"; "GET"] l, after ["CONSUMER"; "CREATE"] l, after ["STREAM"; "INFO"] l, after ["STREAM"; "MSG"; "GET"] l with
  | Some (_ :: data), _, _, _ => data_owner data
  | _, Some (_ :: _ :: data), _, _ => data_owner data
  | _, _, Some (stream :: _), _ => stream_owner stream
  | _, _, _, Some (stream :: _) => stream_owner stream
  | _, _, _, _ => None
  end.

(** The pod a subject belongs to. *)
Definition token_owner (l : list string) : option UUID :=
  match after ["$JS"; "API"] l, after [ns; "deadletter"] l with
  | Some api, _ => js_owner api
  | _, Some original => data_owner original
  | _, _ => data_owner l
  end.

Definition owner (subject : string) : option UUID := token_owner (split_on "." subject).
End Policy.

(** ** A namespace is one plain token *)

Definition plain_char (c : ascii) : bool := scope_char c.
Definition namespace_ok (ns : string) : bool := str_truthy ns && str_all plain_char ns && negb (starts_with "_INBOX_" ns).

Section Namespace.
Context (ns : string) (Hns : namespace_ok ns = true).

Lemma ns_has c : plain_char c = false -> str_has c ns = false.
Proof.
  intros Hc. unfold namespace_ok in Hns. apply andb_true_iff in Hns as [[_ Hall]%andb_true_iff _]. revert Hall. clear -Hc. induction ns as [|a s IH]; [done|].
  simpl. intros [Ha Hs]%andb_true_iff. rewrite IH, orb_false_r by done. apply Ascii.eqb_neq. congruence.
Qed.

Lemma ns_no_dot : str_has "." ns = false.
Proof. by apply ns_has. Qed.

Lemma ns_other root c rest : root = String c rest -> plain_char c = false -> String.eqb root ns = false /\ String.eqb ns root = false.
Proof.
  intros -> Hc. split; apply String.eqb_neq; intros Heq; pose proof (ns_has c Hc) as Hh; rewrite <- Heq in Hh || rewrite Heq in Hh;
    simpl in Hh; by rewrite Ascii.eqb_refl in Hh.
Qed.

Lemma ns_literal : literal ns.
Proof. split; intros ->; by vm_compute in Hns. Qed.

Lemma starts_with_app p s t : starts_with (p ++ s) (p ++ t) = starts_with s t.
Proof. induction p as [|a p IH]; [done|]. simpl. by rewrite Ascii.eqb_refl. Qed.
End Namespace.

Lemma eqb_app p s t : String.eqb (p ++ s) (p ++ t) = String.eqb s t.
Proof. induction p as [|a p IH]; [done|]. simpl. by rewrite Ascii.eqb_refl. Qed.

Lemma substring_all h : substring 0 (String.length h) h = h.
Proof. induction h as [|a h IH]; [done|]. simpl. by rewrite IH. Qed.

Lemma substring_app n h t : String.length h = n -> substring 0 n (h ++ t) = h.
Proof. intros <-. induction h as [|a h IH]; simpl; [by destruct t|]. by rewrite IH. Qed.

(** ** Reading the owner off what a pattern covers *)

(** A string [UUID] reads is one literal token. *)
Lemma uuid_string_token a u : UUID_of_string a = Some u -> str_has "." a = false /\ literal a /\ seg a = a.
Proof.
  intros Ha. assert (Hf : forall c, hex_digit c = None -> Ascii.eqb "_" c = false ->
    is_brace c = false /\ py_isspace c = false /\ str_has c "urn:uuid:-+xX" = false -> str_has c a = false)
    by (intros; by eapply UUID_of_string_foreign).
  split_and!; [by apply Hf|split; intros ->|apply seg_plain; by apply Hf]; by vm_compute in Ha.
Qed.

Lemma uuid_hex_length u : String.length (uuid_hex u) = 32%nat.
Proof. exact (hex_fixed_length 32 u). Qed.

#[local] Opaque uuid_hex uuid_str UUID_of_string.

Lemma uuid_hex_token u : str_has "." (uuid_hex u) = false /\ literal (uuid_hex u).
Proof.
  split; [exact (hex_fixed_no_dot 32 u)|]. split; intros H%(f_equal String.length); rewrite uuid_hex_length in H; discriminate H.
Qed.

Lemma uuid_str_token u : str_has "." (uuid_str u) = false /\ literal (uuid_str u).
Proof.
  split; [apply uuid_str_no_dot|]. assert (Hh : str_has "-" (uuid_str u) = true).
  { Transparent uuid_str. unfold uuid_str. Opaque uuid_str. rewrite str_has_app. simpl. by rewrite orb_true_r. }
  split; intros H; rewrite H in Hh; discriminate Hh.
Qed.

Section Owners.
Context (ns : string) (Hns : namespace_ok ns = true).

Lemma strip_prefix_app p s : strip_prefix p (p ++ s) = Some s.
Proof. unfold strip_prefix. rewrite (proj2 (starts_with_iff p (p ++ s))) by eauto. by rewrite str_drop_app. Qed.

Lemma strip_prefix_none p s t : starts_with s t = false -> strip_prefix (p ++ s) (p ++ t) = None.
Proof. intros H. unfold strip_prefix. by rewrite starts_with_app, H. Qed.

(** A pod's own bucket. *)
Lemma bucket_owner_own principal u suffix : principal = AGENT_POD \/ principal = TOOL_POD -> uuid_wf u ->
  bucket_owner ns (ns ++ "-" ++ (principal_value principal ++ "-" ++ uuid_hex u) ++ "-" ++ suffix) = Some u.
Proof.
  intros Hp Hu. unfold bucket_owner. destruct Hp as [->| ->]; rewrite !str_app_assoc; cbn [principal_value].
  - change (ns ++ "-" ++ "agent_pod" ++ "-" ++ uuid_hex u ++ "-" ++ suffix) with (ns ++ "-agent_pod-" ++ uuid_hex u ++ "-" ++ suffix).
    rewrite <- (str_app_assoc ns "-agent_pod-"), strip_prefix_app, substring_app by apply uuid_hex_length. by apply UUID_of_string_hex.
  - change (ns ++ "-" ++ "tool_pod" ++ "-" ++ uuid_hex u ++ "-" ++ suffix) with (ns ++ "-tool_pod-" ++ uuid_hex u ++ "-" ++ suffix).
    rewrite strip_prefix_none by reflexivity.
    rewrite <- (str_app_assoc ns "-tool_pod-"), strip_prefix_app, substring_app by apply uuid_hex_length. by apply UUID_of_string_hex.
Qed.

Lemma bucket_owner_shared x : starts_with "-agent_pod-" x = false -> starts_with "-tool_pod-" x = false -> bucket_owner ns (ns ++ x) = None.
Proof. intros H1 H2. unfold bucket_owner. by rewrite !strip_prefix_none. Qed.

Lemma scope_owner_own principal u : principal = AGENT_POD \/ principal = TOOL_POD -> uuid_wf u ->
  scope_owner (principal_value principal ++ "-" ++ uuid_hex u) = Some u.
Proof.
  intros Hp Hu. unfold scope_owner. destruct Hp as [->| ->]; cbn [principal_value].
  - change ("agent_pod" ++ "-" ++ uuid_hex u) with ("agent_pod-" ++ uuid_hex u). rewrite strip_prefix_app. by apply UUID_of_string_hex.
  - change ("tool_pod" ++ "-" ++ uuid_hex u) with ("tool_pod-" ++ uuid_hex u). rewrite strip_prefix_app. by apply UUID_of_string_hex.
Qed.

(** Everything a pattern covers has the owner [o]. *)
Definition owned_by (o : option UUID) (pattern : string) : Prop := forall subject, covers pattern subject = true -> owner ns subject = o.
Definition own (u : UUID) (pattern : string) : Prop := owned_by (Some u) pattern.
Definition unowned (pattern : string) : Prop := owned_by None pattern.

Lemma own_prefix o pattern pre rest : split_on "." pattern = (pre ++ rest)%list -> Forall literal pre ->
  (forall rest', token_owner ns (pre ++ rest')%list = o) -> owned_by o pattern.
Proof.
  intros Hp Hpre Hown subject Hc. unfold covers in Hc. rewrite Hp in Hc.
  apply tokens_cover_prefix in Hc as (rest' & Hs & _); [|done]. unfold owner. rewrite Hs. apply Hown.
Qed.

Lemma bus_prefix area family id rest u : bus_owner [area; family; id] = Some u -> String.eqb "deadletter" area = false ->
  token_owner ns (ns :: area :: family :: id :: rest) = Some u.
Proof.
  intros Hb Hd. unfold token_owner. cbn [after]. rewrite (proj1 (ns_other ns Hns "$JS" "$" "JS" eq_refl eq_refl)), String.eqb_refl, Hd.
  unfold data_owner. by rewrite String.eqb_refl.
Qed.

Lemma deadletter_prefix area family id rest u : bus_owner [area; family; id] = Some u ->
  token_owner ns (ns :: "deadletter" :: ns :: area :: family :: id :: rest) = Some u.
Proof.
  intros Hb. unfold token_owner. cbn [after]. rewrite (proj1 (ns_other ns Hns "$JS" "$" "JS" eq_refl eq_refl)), String.eqb_refl. cbn [String.eqb Ascii.eqb Bool.eqb].
  unfold data_owner. by rewrite String.eqb_refl.
Qed.

Lemma own_prefix_star o pattern pre1 pre2 rest : split_on "." pattern = (pre1 ++ "*" :: pre2 ++ rest)%list -> Forall literal pre1 -> Forall literal pre2 ->
  (forall t rest', token_owner ns (pre1 ++ t :: pre2 ++ rest')%list = o) -> owned_by o pattern.
Proof.
  intros Hp Hpre1 Hpre2 Hown subject Hc. unfold covers in Hc. rewrite Hp in Hc. apply tokens_cover_prefix in Hc as (given & Hs & Hc); [|done].
  cbn [tokens_cover String.eqb Ascii.eqb Bool.eqb] in Hc. destruct given as [|t given]; [done|]. cbn [orb andb] in Hc.
  apply tokens_cover_prefix in Hc as (rest' & -> & _); [|done]. unfold owner. rewrite Hs. apply Hown.
Qed.

Lemma data_owner_kv bucket key : data_owner ns ("$KV" :: bucket :: key) = kv_owner ns bucket key.
Proof. unfold data_owner. by rewrite (proj1 (ns_other ns Hns "$KV" "$" "KV" eq_refl eq_refl)). Qed.

Lemma data_owner_object bucket key : data_owner ns ("$O" :: bucket :: key) = bucket_owner ns bucket.
Proof. unfold data_owner. by rewrite (proj1 (ns_other ns Hns "$O" "$" "O" eq_refl eq_refl)). Qed.

Lemma kv_prefix bucket rest : token_owner ns ("$KV" :: bucket :: rest) = kv_owner ns bucket rest.
Proof.
  unfold token_owner. cbn [after String.eqb Ascii.eqb Bool.eqb]. rewrite (proj2 (ns_other ns Hns "$KV" "$" "KV" eq_refl eq_refl)). apply data_owner_kv.
Qed.

Lemma object_prefix bucket rest : token_owner ns ("$O" :: bucket :: rest) = bucket_owner ns bucket.
Proof.
  unfold token_owner. cbn [after String.eqb Ascii.eqb Bool.eqb]. rewrite (proj2 (ns_other ns Hns "$O" "$" "O" eq_refl eq_refl)). apply data_owner_object.
Qed.

Lemma direct_prefix stream data : token_owner ns ("$JS" :: "API" :: "DIRECT" :: "GET" :: stream :: data) = data_owner ns data.
Proof. done. Qed.

Lemma consumer_prefix stream name data : token_owner ns ("$JS" :: "API" :: "CONSUMER" :: "CREATE" :: stream :: name :: data) = data_owner ns data.
Proof. done. Qed.

Lemma info_prefix stream rest : token_owner ns ("$JS" :: "API" :: "STREAM" :: "INFO" :: stream :: rest) = stream_owner ns stream.
Proof. done. Qed.

Lemma msg_get_prefix stream rest : token_owner ns ("$JS" :: "API" :: "STREAM" :: "MSG" :: "GET" :: stream :: rest) = stream_owner ns stream.
Proof. done. Qed.

Lemma stream_owner_kv bucket : stream_owner ns (kv_stream_name bucket) = bucket_owner ns bucket.
Proof. unfold stream_owner, kv_stream_name, KV_STREAM_PREFIX. by rewrite strip_prefix_app. Qed.

Lemma stream_owner_object bucket : stream_owner ns ("OBJ_" ++ bucket) = bucket_owner ns bucket.
Proof. unfold stream_owner. replace (strip_prefix "KV_" ("OBJ_" ++ bucket)) with (@None string) by done. by rewrite strip_prefix_app. Qed.

Definition one_token (t : string) : Prop := str_has "." t = false /\ literal t.

Lemma kv_stream_token bucket : one_token bucket -> one_token (kv_stream_name bucket).
Proof. intros [Hd _]. by split; [|split]. Qed.

Lemma object_stream_token bucket : one_token bucket -> one_token ("OBJ_" ++ bucket).
Proof. intros [Hd _]. by split; [|split]. Qed.
End Owners.

Ltac nodot := first [assumption | apply seg_no_dot | (match goal with H : one_token ?t |- str_has "." ?t = false => exact (proj1 H) end)].
Ltac toks := repeat (cbn [split_on String.append Ascii.eqb Bool.eqb]; first [rewrite tokens_var by nodot | rewrite split_on_plain by nodot]);
  cbn [split_on String.append Ascii.eqb Bool.eqb].
Ltac each := repeat match goal with |- Forall _ (_ :: _) => apply List.Forall_cons | |- Forall _ [] => constructor end.
Ltac lits := repeat (constructor; [first [by split | assumption | (match goal with H : one_token ?t |- literal ?t => exact (proj2 H) end)]|]); constructor.

(** What a pattern covers is either shared or belongs to one of the pods [P]. *)
Definition within (ns : string) (P : UUID -> Prop) (shared : list string) (pattern : string) : Prop :=
  pattern ∈ shared \/ exists u, P u /\ own ns u pattern.

(** Everything a resource lets a credential publish is. *)
Definition resource_within (ns : string) (P : UUID -> Prop) (shared : list string) (r : JsResource) : Prop :=
  exists control, js_control r = Ok control /\ Forall (within ns P shared) (kv_data r) /\ Forall (within ns P shared) control.

Lemma own_within ns (P : UUID -> Prop) shared u pattern : P u -> own ns u pattern -> within ns P shared pattern.
Proof. intros HP Ho. right. by exists u. Qed.

Lemma own_all_within ns (P : UUID -> Prop) shared u l : P u -> Forall (own ns u) l -> Forall (within ns P shared) l.
Proof. intros HP H. eapply Forall_impl; [exact H|]. intros x. by apply own_within. Qed.

Section Resources.
Context (ns : string) (Hns : namespace_ok ns = true) (P : UUID -> Prop) (u : UUID) (HP : P u) (shared : list string).

Lemma kv_data_bucket name capability scope writable table filter :
  let r := mkJsResource name KV_BUCKET capability scope writable table filter in
  kv_data r = if writable then ["$KV." ++ name ++ "." ++ match key_prefix r with None => ">" | Some prefix => prefix ++ ".>" end] else [].
Proof. by destruct writable. Qed.

(** Every grant on a bucket of the pod's own. *)
Lemma own_bucket bucket writable : one_token bucket -> bucket_owner ns bucket = Some u ->
  resource_within ns P shared (mkJsResource bucket KV_BUCKET KV_BUCKET_KEYS None writable None None).
Proof.
  intros Hb Ho. unfold resource_within. rewrite kv_data_bucket. unfold js_control. cbn [stream_name js_kind js_name js_capability js_filter_subject key_prefix js_table js_scope js_writable].
  pose proof (kv_stream_token bucket Hb) as Hst. pose proof (stream_owner_kv ns bucket) as Hso. rewrite Ho in Hso. revert Hst Hso. generalize (kv_stream_name bucket). intros st Hst Hso.
  assert (Hk : forall rest, kv_owner ns bucket rest = Some u) by (intros rest; unfold kv_owner; by rewrite Ho).
  eexists. split; [reflexivity|]. split; apply (own_all_within ns P shared u _ HP).
  - destruct writable; [|by constructor]. constructor; [|constructor].
    apply (own_prefix ns (Some u) _ ["$KV"; bucket] [">"]); [toks; done|lits|]. intros rest. cbn [app]. by rewrite kv_prefix.
  - each.
    + apply (own_prefix ns (Some u) _ ["$JS"; "API"; "STREAM"; "INFO"; st] []); [toks; done|lits|done].
    + apply (own_prefix ns (Some u) _ ["$JS"; "API"; "STREAM"; "MSG"; "GET"; st] []); [toks; done|lits|done].
    + apply (own_prefix ns (Some u) _ ["$JS"; "API"; "DIRECT"; "GET"; st; "$KV"; bucket] [">"]); [toks; done|lits|].
      intros rest. cbn [app]. by rewrite direct_prefix, data_owner_kv.
    + apply (own_prefix_star ns (Some u) _ ["$JS"; "API"; "CONSUMER"; "CREATE"; st] ["$KV"; bucket] [">"]); [toks; done|lits|lits|].
      intros t rest. cbn [app]. by rewrite consumer_prefix, data_owner_kv.
Qed.

Definition info (bucket : string) : string := "$JS.API.STREAM.INFO." ++ kv_stream_name bucket.

(** Every grant on the pod's keys in a shared bucket, but for asking what the bucket is. *)
Lemma own_keys capability bucket scope writable : capability = KV_SCOPED \/ capability = KV_OWNER_KEYS ->
  one_token bucket -> one_token scope -> (forall rest, kv_owner ns bucket (scope :: rest) = Some u) -> info bucket ∈ shared ->
  resource_within ns P shared (mkJsResource bucket KV_BUCKET capability (Some scope) writable None None).
Proof.
  intros Hc Hb Hs Hk Hinfo. unfold resource_within, info in *. rewrite kv_data_bucket. unfold js_control.
  cbn [stream_name js_kind js_name js_capability js_filter_subject key_prefix js_table js_scope js_writable].
  pose proof (kv_stream_token bucket Hb) as Hst. revert Hst Hinfo. generalize (kv_stream_name bucket). intros st Hst Hinfo.
  assert (Hdata : within ns P shared ("$KV." ++ bucket ++ "." ++ scope ++ ".>")).
  { apply (own_within ns P shared u _ HP), (own_prefix ns (Some u) _ ["$KV"; bucket; scope] [">"]); [toks; done|lits|]. intros rest. cbn [app]. by rewrite kv_prefix. }
  assert (Hget : within ns P shared ("$JS.API.DIRECT.GET." ++ st ++ ".$KV." ++ bucket ++ "." ++ scope ++ ".>")).
  { apply (own_within ns P shared u _ HP), (own_prefix ns (Some u) _ ["$JS"; "API"; "DIRECT"; "GET"; st; "$KV"; bucket; scope] [">"]); [toks; done|lits|].
    intros rest. cbn [app]. by rewrite direct_prefix, data_owner_kv. }
  assert (Hcons : within ns P shared ("$JS.API.CONSUMER.CREATE." ++ st ++ ".*.$KV." ++ bucket ++ "." ++ scope ++ ".>")).
  { apply (own_within ns P shared u _ HP), (own_prefix_star ns (Some u) _ ["$JS"; "API"; "CONSUMER"; "CREATE"; st] ["$KV"; bucket; scope] [">"]); [toks; done|lits|lits|].
    intros t rest. cbn [app]. by rewrite consumer_prefix, data_owner_kv. }
  destruct Hc as [->| ->]; (eexists; split; [reflexivity|]); (split; [destruct writable; each; exact Hdata|]).
  - cbn [capability_declares]. each; [by left|done].
  - cbn [capability_declares]. each; [by left|done|done].
Qed.

(** Every grant on one key of a shared bucket, but for asking what the bucket is. *)
Lemma own_key bucket key : one_token bucket -> one_token key -> (forall rest, kv_owner ns bucket (key :: rest) = Some u) -> info bucket ∈ shared ->
  resource_within ns P shared (mkJsResource bucket KV_BUCKET KV_KEY_READ (Some key) false None None).
Proof.
  intros Hb Hs Hk Hinfo. unfold resource_within, info in *. rewrite kv_data_bucket. unfold js_control.
  cbn [stream_name js_kind js_name js_capability js_filter_subject key_prefix js_table js_scope js_writable].
  pose proof (kv_stream_token bucket Hb) as Hst. revert Hst Hinfo. generalize (kv_stream_name bucket). intros st Hst Hinfo.
  eexists. split; [reflexivity|]. split; [by constructor|]. cbn [capability_declares]. each; [by left|apply (own_within ns P shared u _ HP)..].
  - apply (own_prefix ns (Some u) _ ["$JS"; "API"; "DIRECT"; "GET"; st; "$KV"; bucket; key] []); [toks; done|lits|].
    intros rest. cbn [app]. by rewrite direct_prefix, data_owner_kv.
  - apply (own_prefix_star ns (Some u) _ ["$JS"; "API"; "CONSUMER"; "CREATE"; st] ["$KV"; bucket; key] []); [toks; done|lits|lits|].
    intros t rest. cbn [app]. by rewrite consumer_prefix, data_owner_kv.
Qed.

(** The grants on a bucket every pod reads. *)
Definition bucket_reads (bucket : string) : list string :=
  [info bucket; "$JS.API.STREAM.MSG.GET." ++ kv_stream_name bucket; "$JS.API.DIRECT.GET." ++ kv_stream_name bucket ++ ".$KV." ++ bucket ++ ".>";
   "$JS.API.CONSUMER.CREATE." ++ kv_stream_name bucket ++ ".*.$KV." ++ bucket ++ ".>"].

Lemma shared_bucket bucket : (forall g, g ∈ bucket_reads bucket -> g ∈ shared) ->
  resource_within ns P shared (mkJsResource bucket KV_BUCKET KV_BUCKET_KEYS None false None None).
Proof.
  intros Hin. exists (bucket_reads bucket). split; [done|]. split; [constructor|]. apply Forall_forall. intros g Hg. left. apply Hin. revert Hg. rewrite ?list_elem_of_In. exact id.
Qed.
End Resources.

(** ** What a credential allows *)

Lemma Ok_inj {A E} (x y : A) : @Ok A E x = Ok y -> x = y.
Proof. congruence. Qed.

Lemma JsResource_init_Ok r r' : JsResource_init r = Ok r' -> r' = r.
Proof. unfold JsResource_init. destruct (JsResource_refused r); [done|]. by intros [= <-]. Qed.

(** A run of fallible steps that succeeded. *)
Ltac steps H :=
  repeat (match type of H with
    | match ?c with Ok _ => _ | Err _ => _ end = Ok _ => let E := fresh "E" in destruct c eqn:E; [|discriminate H]
    | (if ?c then Err _ else _) = Ok _ => let E := fresh "G" in destruct c eqn:E; [discriminate H|]
    end).
Lemma result_all_cons {A E} (r : result A E) l xs : result_all (r :: l) = Ok xs -> exists y ys, r = Ok y /\ result_all l = Ok ys /\ xs = y :: ys.
Proof. cbn [result_all]. destruct r as [y|]; [|done]. destruct (result_all l) as [ys|]; [|done]. intros [= <-]. eauto. Qed.
Ltac unroll H := repeat (let y := fresh "y" in let ys := fresh "ys" in let Hy := fresh "Hy" in apply result_all_cons in H as (y & ys & Hy & H & ->)); injection H as <-.
Ltac resources := repeat match goal with
  | H : kv_bucket_keys _ _ = Ok _ |- _ => apply JsResource_init_Ok in H as ->
  | H : kv_key_read _ _ = Ok _ |- _ => apply JsResource_init_Ok in H as ->
  | H : kv_owner_keys _ _ _ = Ok _ |- _ => apply JsResource_init_Ok in H as ->
  | H : stream_consumer _ _ = Ok _ |- _ => apply JsResource_init_Ok in H as ->
  | H : object_store _ _ = Ok _ |- _ => apply JsResource_init_Ok in H as ->
  | H : kv _ (Some _) _ false = Ok _ |- _ => unfold kv in H; cbn [andb isSome negb] in H; apply JsResource_init_Ok in H as ->
  end.

Lemma require_Ok value v : require value = Ok v -> value = Some v /\ v <> "".
Proof. unfold require. destruct value as [x|]; [|done]. destruct (str_truthy x) eqn:Hx; [|done]. intros [= ->]. by rewrite str_truthy_true in Hx. Qed.

Lemma pod_scope_Ok principal u scope : pod_scope principal (uuid_hex u) = Ok scope ->
  scope = principal_value principal ++ "-" ++ uuid_hex u /\ KV_KEY_SCOPE_GRAMMAR_match scope = true.
Proof.
  unfold pod_scope. intros H. steps H. injection H as <-. split; [done|]. by destruct (KV_KEY_SCOPE_GRAMMAR_match _).
Qed.

Lemma coordination_bucket_Ok scope suffix ns bucket : coordination_bucket_name scope suffix ns = Ok bucket ->
  bucket = ns ++ "-" ++ scope ++ "-" ++ suffix /\ COORDINATION_BUCKET_SUFFIX_GRAMMAR_match suffix = true.
Proof.
  unfold coordination_bucket_name, validate_coordination_suffix. intros H. steps H. injection H as <-. split; [done|].
  destruct (_ || _); [done|]. by destruct (COORDINATION_BUCKET_SUFFIX_GRAMMAR_match suffix).
Qed.

Lemma result_all_Ok {A B E} (f : A -> result B E) l xs : result_all (map f l) = Ok xs -> Forall2 (fun a x => f a = Ok x) l xs.
Proof.
  revert xs. induction l as [|a l IH]; intros xs; cbn [result_all map]; [by intros [= <-]|].
  destruct (f a) as [x|] eqn:Ha; [|done]. destruct (result_all (map f l)) as [ys|]; [|done]. intros [= <-]. constructor; [done|]. by apply IH.
Qed.

Section Credential.
Context (ns : string) (Hns : namespace_ok ns = true).

Definition allows (allow : list string) (subject : string) : bool := existsb (fun pattern => covers pattern subject) allow.

Lemma patterns_within P shared patterns subject : Forall (within ns P shared) patterns -> allows patterns subject = true ->
  allows shared subject = true \/ exists u, P u /\ owner ns subject = Some u.
Proof.
  unfold allows. intros Hall. rewrite existsb_exists. intros (pattern & Hin & Hcov). rewrite Forall_forall in Hall.
  destruct (Hall pattern) as [Hw|(u & HP & Hw)]; [by rewrite ?list_elem_of_In| |right; exists u; auto].
  left. apply existsb_exists. exists pattern. split; [|done]. by apply list_elem_of_In.
Qed.

Lemma controls_within P shared resources : Forall (resource_within ns P shared) resources ->
  exists control, result_all (map js_control resources) = Ok control /\ Forall (within ns P shared) (List.concat control)
    /\ Forall (within ns P shared) (List.concat (map kv_data resources)).
Proof.
  induction 1 as [|r rs (ctl & Hc & Hd & Hctl) _ (control & Hr & Hcontrol & Hdata)]; [exists []; by repeat constructor|].
  exists (ctl :: control). cbn [map result_all List.concat]. rewrite Hc, Hr. split; [done|]. by rewrite !Forall_app.
Qed.

(** A credential whose lists and resources are within what is shared or the pods' [P] is made, and reaches nothing else. *)
Lemma publish_allow_within P shared permissions : Forall (within ns P shared) (pp_publish permissions) ->
  Forall (resource_within ns P shared) (pp_js_resources permissions) -> (forall g, g ∈ JS_API_ACCOUNT -> g ∈ shared) ->
  exists allow, publish_allow permissions = Ok allow /\ Forall (within ns P shared) allow.
Proof.
  intros Hpub Hres Hacc. apply controls_within in Hres as (control & Hr & Hcontrol & Hdata). unfold publish_allow. rewrite Hr.
  eexists. split; [done|]. rewrite !Forall_app. split_and!; [done|done|].
  destruct (pp_js_resources permissions); [by constructor|]. apply Forall_app. split; [|done].
  apply Forall_forall. intros g Hg. left. apply Hacc. revert Hg. rewrite ?list_elem_of_In. exact id.
Qed.
End Credential.
