(* ===== verification/PodIsolation.v ===== *)
(** * What a pod's credential reaches

    The permissions of [Permissions.v] against the policy of [PodPolicy.v]: a pod's credential reaches what is
    its own, what every pod shares and what it was granted, and nothing else; no pod manages streams. *)

From Stdlib Require Import Ascii String Bool List NArith ZArith Lia.
From stdpp Require Import base list strings.
From S2P Require Import Prelude PyUuid Namespaces CasStore Subjects Permissions PodPolicy.

Open Scope string_scope.

#[local] Opaque uuid_hex uuid_str UUID_of_string.

(** ** What pods share *)

Section Shared.
Variable ns : string.

(** The requests any pod may make, and the broadcasts it may send. *)
Definition pod_requests : list string :=
  [path (agent_register ns); path (agent_deregister ns); path (hub_handshake ns); path (hub_secrets_request ns); path (hub_object_commit ns);
   path (hub_object_resolve ns); path (hub_approval_record ns); path (hub_memory_namespace_ensure ns); path (hub_audit_anonymize ns);
   path (hub_channel_engagement_default_resolve ns); path (hub_jwks ns); path (gateway_completion ns); path (gateway_embedding ns);
   path (tools_discover ns); path (tools_call ns); path (tools_register ns); ns ++ ".audit." ++ "tool.call"; path (knowledge_draft ns);
   path (workspaces_create ns); path (namespace_discover ns); path (l3_query ns None); path (l3_batch ns None); path (l3_truncate ns None);
   path (l3_load_files ns None); ns ++ ".l3.tx.*"; ns ++ ".channels.deliver.*"; ns ++ ".agents.complete.*"; path (datasource_query_wildcard ns);
   path (hub_geo_layers_reloaded ns); path (hub_collection_keys_purge ns); path (hub_cache_index_moved ns); path (hub_engagement_scope ns);
   path (hub_object_store_declare ns); path (hub_object_store_retire ns); SERVER_USER_INFO_SUBJECT; CROSS_PLATFORM_CACHE_INVALIDATE;
   path (deadletter ns CROSS_PLATFORM_CACHE_INVALIDATE)].

(** What any pod may ask JetStream: what the shared buckets are, and the epochs. *)
Definition pod_reads : list string :=
  app JS_API_ACCOUNT
    (app (map info [ns ++ "-collections"; ns ++ "-ratelimits"; ns ++ "-proxy_assertion_nonces"; ns ++ "-leases"; data_versions_bucket_name ns;
                    agent_config_bucket_name ns])
       (bucket_reads (ns ++ "-epochs"))).

Definition pod_shared : list string := (pod_requests ++ pod_reads)%list.

(** The broadcasts every agent pod hears. *)
Definition pod_broadcasts : list string := CROSS_PLATFORM_CACHE_INVALIDATE :: retired_subscriptions ns.
End Shared.

Lemma in_shared_l ns g : g ∈ pod_requests ns -> g ∈ pod_shared ns.
Proof. intros H. unfold pod_shared. rewrite elem_of_app. by left. Qed.

Lemma in_shared_r ns g : g ∈ pod_reads ns -> g ∈ pod_shared ns.
Proof. intros H. unfold pod_shared. rewrite elem_of_app. by right. Qed.

Ltac listed := repeat first [apply list_elem_of_here | apply list_elem_of_further].

Section Pods.
Context (ns : string) (Hns : namespace_ok ns = true).

Lemma deadletters_in subscribe inbox pattern : pattern ∈ deadletters ns subscribe inbox ->
  exists subject, subject ∈ subscribe /\ subject <> inbox ++ ".>" /\ ~ (subject ∈ retired_subscriptions ns) /\ pattern = path (deadletter ns subject).
Proof.
  unfold deadletters. rewrite list_elem_of_In, in_map_iff. intros (subject & <- & Hin). apply filter_In in Hin as [Hin Hf].
  apply andb_true_iff in Hf as [Hi Hr]. exists subject. split_and!; [by apply list_elem_of_In| | |done].
  - intros ->. replace (inbox ++ ".>") with ((inbox ++ ".") ++ ">") in Hi by (by rewrite str_app_assoc).
    by rewrite (proj2 (starts_with_iff _ _)) in Hi by eauto.
  - intros Hret. apply negb_true_iff in Hr. apply list_elem_of_In in Hret. enough (existsb (String.eqb subject) (retired_subscriptions ns) = true) by congruence.
    apply existsb_exists. exists subject. by rewrite String.eqb_refl.
Qed.

Lemma own_bus u pattern area family id rest : split_on "." pattern = ns :: area :: family :: id :: rest -> literal area -> literal family -> literal id ->
  bus_owner [area; family; id] = Some u -> String.eqb "deadletter" area = false -> own ns u pattern.
Proof.
  intros Hp Ha Hf Hi Ho Hd. apply (own_prefix ns (Some u) pattern [ns; area; family; id] rest); [done| |].
  - each; try done; by apply ns_literal.
  - intros rest'. cbn [app]. by apply bus_prefix.
Qed.

Lemma own_deadletter u pattern area family id rest : split_on "." pattern = ns :: area :: family :: id :: rest -> literal area -> literal family -> literal id ->
  bus_owner [area; family; id] = Some u -> own ns u (path (deadletter ns pattern)).
Proof.
  intros Hp Ha Hf Hi Ho. apply (own_prefix ns (Some u) _ [ns; "deadletter"; ns; area; family; id] rest).
  - pose proof (ns_no_dot ns Hns). unfold deadletter. cbn [path]. toks. by rewrite Hp.
  - each; try done; by apply ns_literal.
  - intros rest'. cbn [app]. by apply deadletter_prefix.
Qed.

(** The lists of an agent pod. *)
Lemma agent_publish_within a p u : UUID_of_string a = Some u ->
  Forall (within ns (eq u) (pod_shared ns)) (agent_pod_publish ns a p (mkSubject (ns ++ ".audit." ++ "tool.call") Point)).
Proof.
  intros Ha. destruct (uuid_string_token a u Ha) as (Hdot & Hlit & Hseg). pose proof (ns_no_dot ns Hns) as Hnd.
  unfold agent_pod_publish. each; try (left; apply in_shared_l; unfold pod_requests; listed; fail).
  all: apply (own_within ns (eq u) _ u _ eq_refl); unfold agent_heartbeat, tools_heartbeat_agent_subtree, tools_result_agent_subtree, seg; cbn [path]; unfold seg in Hseg; rewrite Hseg.
  all: eapply own_bus; [toks; reflexivity|by split|by split|done|exact Ha|done].
Qed.

(** What an agent pod listens to besides its inbox and the broadcasts. *)
Definition agent_own_subscribe (a p : string) : list string :=
  [path (agent_internal ns a p); path (agent_reregister_request ns a p); path (tools_internal_agent_subtree ns a); path (tools_probe_agent_subtree ns a);
   (ns ++ ".gateway.stream." ++ seg a ++ ".*")%string].

Lemma agent_subscribe_split inbox a p subject : subject ∈ agent_pod_subscribe ns inbox a p ->
  subject ∈ (inbox ++ ".>")%string :: pod_broadcasts ns \/ subject ∈ agent_own_subscribe a p.
Proof.
  unfold agent_pod_subscribe, agent_own_subscribe, pod_broadcasts, retired_subscriptions. cbn [map]. rewrite !elem_of_cons. tauto.
Qed.

Definition pod_pattern (u : UUID) (pattern : string) : Prop := exists area family id rest,
  split_on "." pattern = ns :: area :: family :: id :: rest /\ literal area /\ literal family /\ literal id
  /\ bus_owner [area; family; id] = Some u /\ String.eqb "deadletter" area = false.

Lemma pod_pattern_own u pattern : pod_pattern u pattern -> own ns u pattern.
Proof. intros (area & family & id & rest & H). destruct_and! H. by eapply own_bus. Qed.

Lemma pod_pattern_deadletter u pattern : pod_pattern u pattern -> own ns u (path (deadletter ns pattern)).
Proof. intros (area & family & id & rest & H). destruct_and! H. by eapply own_deadletter. Qed.

Lemma agent_own_patterns a p u : UUID_of_string a = Some u -> Forall (pod_pattern u) (agent_own_subscribe a p).
Proof.
  intros Ha. destruct (uuid_string_token a u Ha) as (Hdot & Hlit & Hseg). pose proof (ns_no_dot ns Hns) as Hnd. unfold seg in Hseg.
  unfold agent_own_subscribe. each; unfold agent_internal, agent_reregister_request, tools_internal_agent_subtree, tools_probe_agent_subtree, seg; cbn [path]; rewrite Hseg.
  all: do 4 eexists; (split; [toks; reflexivity|]); split_and!; try done.
Qed.

Lemma deadletters_within (P : UUID -> Prop) shared subscribe inbox :
  (forall subject, subject ∈ subscribe -> subject = inbox ++ ".>" \/ subject ∈ retired_subscriptions ns \/ path (deadletter ns subject) ∈ shared
     \/ exists u, P u /\ pod_pattern u subject) ->
  Forall (within ns P shared) (deadletters ns subscribe inbox).
Proof.
  intros H. apply Forall_forall. intros pattern Hin. apply deadletters_in in Hin as (subject & Hs & Hi & Hr & ->).
  destruct (H subject Hs) as [?|[?|[?|(u & HP & Hu)]]]; [done|done|by left|]. right. exists u. split; [done|]. by apply pod_pattern_deadletter.
Qed.

(** *** The shared buckets *)

Lemma dash_literal t : str_has "-" t = true -> literal t.
Proof. intros H. split; intros ->; discriminate H. Qed.

Lemma ns_suffix_token x : str_has "." x = false -> x <> "" -> one_token (ns ++ x).
Proof.
  intros Hx Hne. split; [by rewrite str_has_app, (ns_no_dot ns Hns)|]. destruct (ns_literal ns Hns) as [Hs Hg].
  assert (Hlen : (2 <= String.length (ns ++ x))%nat).
  { rewrite str_length_app. unfold namespace_ok in Hns. destruct ns; [done|]. destruct x; [done|]. simpl. lia. }
  split; intros Heq; rewrite Heq in Hlen; simpl in Hlen; lia.
Qed.

Lemma kv_owner_scoped name scope u : name ∈ ["-collections"; "-ratelimits"; "-proxy_assertion_nonces"; "-leases"] -> scope_owner scope = Some u ->
  forall rest, kv_owner ns (ns ++ name) (scope :: rest) = Some u.
Proof.
  intros Hn Hs rest. unfold kv_owner, one_of. cbn [existsb]. rewrite !eqb_app.
  rewrite !elem_of_cons in Hn. destruct Hn as [->|[->|[->|[->|Hn]]]]; [rewrite bucket_owner_shared by reflexivity; by rewrite <- Hs..|by apply elem_of_nil in Hn].
Qed.

Lemma kv_owner_versions key u : UUID_of_string key = Some u -> forall rest, kv_owner ns (data_versions_bucket_name ns) (key :: rest) = Some u.
Proof.
  intros Hk rest. unfold kv_owner, data_versions_bucket_name, DATA_VERSIONS_BUCKET_SUFFIX, one_of. cbn [existsb].
  rewrite bucket_owner_shared, !eqb_app by reflexivity. cbn [orb]. by rewrite <- Hk.
Qed.

Lemma kv_owner_config key u : UUID_of_string key = Some u -> forall rest, kv_owner ns (agent_config_bucket_name ns) (key :: rest) = Some u.
Proof.
  intros Hk rest. unfold kv_owner, agent_config_bucket_name, data_versions_bucket_name, AGENT_CONFIG_BUCKET_SUFFIX, one_of. cbn [existsb].
  rewrite bucket_owner_shared, !eqb_app by reflexivity. cbn [orb]. by rewrite <- Hk.
Qed.

Lemma scope_token principal u : one_token (principal_value principal ++ "-" ++ uuid_hex u).
Proof.
  split; [|apply dash_literal]; rewrite !str_has_app; [rewrite (proj1 (uuid_hex_token u)); by destruct principal|].
  change (str_has "-" "-") with true. by rewrite orb_true_r.
Qed.

Lemma suffix_no_dot s : COORDINATION_BUCKET_SUFFIX_GRAMMAR_match s = true -> str_has "." s = false.
Proof.
  assert (Hrest : forall s, suffix_rest s = true -> str_has "." s = false).
  { intros t. induction t as [|c t IH]; [done|]. cbn [suffix_rest str_has]. destruct t as [|c' t].
    - intros H. rewrite orb_false_r. apply Ascii.eqb_neq. intros ->. discriminate H.
    - intros [Hc Ht]%andb_true_iff. rewrite IH, orb_false_r by done. apply Ascii.eqb_neq. intros ->. discriminate Hc. }
  destruct s as [|c s]; [done|]. cbn [COORDINATION_BUCKET_SUFFIX_GRAMMAR_match str_has]. intros [Hc Hs]%andb_true_iff.
  rewrite Hrest, orb_false_r by done. apply Ascii.eqb_neq. intros ->. discriminate Hc.
Qed.

(** A bucket named for a pod. *)
Lemma pod_bucket_within (P : UUID -> Prop) shared principal u suffix writable bucket : P u -> principal = AGENT_POD \/ principal = TOOL_POD -> uuid_wf u ->
  coordination_bucket_name (principal_value principal ++ "-" ++ uuid_hex u) suffix ns = Ok bucket ->
  resource_within ns P shared (mkJsResource bucket KV_BUCKET KV_BUCKET_KEYS None writable None None).
Proof.
  intros HP Hpr Hu [-> Hs]%coordination_bucket_Ok. apply (own_bucket ns Hns P u HP shared).
  - apply ns_suffix_token; [|done]. rewrite !str_has_app, (suffix_no_dot suffix Hs), (proj1 (uuid_hex_token u)). destruct Hpr as [->| ->]; reflexivity.
  - by apply bucket_owner_own.
Qed.

Lemma result_all_Forall {A B E} (f : A -> result B E) (Q : B -> Prop) l xs : result_all (map f l) = Ok xs -> (forall a x, a ∈ l -> f a = Ok x -> Q x) -> Forall Q xs.
Proof.
  intros H%result_all_Ok HQ. induction H as [|a x l xs Ha _ IH]; [by constructor|]. constructor.
  - eapply HQ; [apply list_elem_of_here|done].
  - apply IH. intros b y Hb. apply HQ. by apply list_elem_of_further.
Qed.

Lemma epochs_shared (P : UUID -> Prop) shared : (forall g, g ∈ pod_shared ns -> g ∈ shared) ->
  resource_within ns P shared (mkJsResource (ns ++ "-epochs") KV_BUCKET KV_BUCKET_KEYS None false None None).
Proof.
  intros Hin. apply shared_bucket. intros g Hg. apply Hin, in_shared_r. unfold pod_reads. rewrite !elem_of_app. tauto.
Qed.

Lemma info_shared bucket : bucket ∈ [ns ++ "-collections"; ns ++ "-ratelimits"; ns ++ "-proxy_assertion_nonces"; ns ++ "-leases"; data_versions_bucket_name ns; agent_config_bucket_name ns] ->
  info bucket ∈ pod_shared ns.
Proof. intros H. apply in_shared_r. unfold pod_reads. rewrite !elem_of_app. right. left. by apply list_elem_of_fmap_2. Qed.

(** The pod's keys in one of the buckets all pods keep theirs in. *)
Lemma scoped_within (P : UUID -> Prop) shared capability name principal u writable : P u -> principal = AGENT_POD \/ principal = TOOL_POD -> uuid_wf u ->
  capability = KV_SCOPED \/ capability = KV_OWNER_KEYS ->
  name ∈ ["-collections"; "-ratelimits"; "-proxy_assertion_nonces"; "-leases"] -> (forall g, g ∈ pod_shared ns -> g ∈ shared) ->
  resource_within ns P shared (mkJsResource (ns ++ name) KV_BUCKET capability (Some (principal_value principal ++ "-" ++ uuid_hex u)) writable None None).
Proof.
  intros HP Hpr Hu Hc Hn Hin. apply (own_keys ns Hns P u HP shared); [done| |apply scope_token| |].
  - rewrite !elem_of_cons in Hn. destruct Hn as [->|[->|[->|[->|Hn]]]]; [by apply ns_suffix_token..|by apply elem_of_nil in Hn].
  - apply kv_owner_scoped; [done|]. by apply scope_owner_own.
  - apply Hin, info_shared. rewrite !elem_of_cons in Hn |- *. destruct Hn as [->|[->|[->|[->|Hn]]]]; [tauto..|by apply elem_of_nil in Hn].
Qed.

Lemma versions_within (P : UUID -> Prop) shared u : P u -> uuid_wf u -> (forall g, g ∈ pod_shared ns -> g ∈ shared) ->
  resource_within ns P shared (mkJsResource (data_versions_bucket_name ns) KV_BUCKET KV_KEY_READ (Some (uuid_hex u)) false None None).
Proof.
  intros HP Hu Hin. apply (own_key ns Hns P u HP shared); [by apply ns_suffix_token|apply uuid_hex_token|by apply kv_owner_versions, UUID_of_string_hex|].
  apply Hin, info_shared. rewrite !elem_of_cons. tauto.
Qed.

Lemma config_within (P : UUID -> Prop) shared u : P u -> uuid_wf u -> (forall g, g ∈ pod_shared ns -> g ∈ shared) ->
  resource_within ns P shared (mkJsResource (agent_config_bucket_name ns) KV_BUCKET KV_KEY_READ (Some (uuid_str u)) false None None).
Proof.
  intros HP Hu Hin. apply (own_key ns Hns P u HP shared); [by apply ns_suffix_token|apply uuid_str_token|by apply kv_owner_config, UUID_of_string_str|].
  apply Hin, info_shared. rewrite !elem_of_cons. tauto.
Qed.

(** The replies of the agent's calls. *)
Lemma replies_within (P : UUID -> Prop) shared a u : P u -> UUID_of_string a = Some u ->
  resource_within ns P shared (mkJsResource (result_stream_name ns) STREAM STREAM_CONSUMER None false None (Some (path (tools_reply_agent_subtree ns a)))).
Proof.
  intros HP Ha. destruct (uuid_string_token a u Ha) as (Hdot & Hlit & Hseg). pose proof (ns_no_dot ns Hns) as Hnd. unfold seg in Hseg.
  assert (Hst : one_token (result_stream_name ns)) by (by apply ns_suffix_token).
  unfold resource_within, js_control, kv_data. cbn [stream_name js_kind js_name js_capability js_filter_subject key_prefix js_table js_scope js_writable].
  revert Hst. generalize (result_stream_name ns). intros st Hst.
  unfold tools_reply_agent_subtree. cbn [path]. rewrite Hseg. cbn [js_api_grants_for_stream].
  assert (str_truthy (ns ++ ".tools.reply." ++ a ++ ".*") = true) as -> by (apply str_truthy_true; by destruct ns).
  eexists. split; [reflexivity|]. split; [constructor|]. each. apply (own_within ns P shared u _ HP).
  apply (own_prefix_star ns (Some u) _ ["$JS"; "API"; "CONSUMER"; "CREATE"; st] [ns; "tools"; "reply"; a] ["*"]); [toks; done|lits| |].
  - each; try done; by apply ns_literal.
  - intros t rest. cbn [app]. rewrite consumer_prefix. unfold data_owner. by rewrite String.eqb_refl.
Qed.

(** *** What is shared belongs to nobody *)

Lemma not_api area rest : after ["$JS"; "API"] (ns :: area :: rest) = None.
Proof. cbn [after]. by rewrite (proj1 (ns_other ns Hns "$JS" "$" "JS" eq_refl eq_refl)). Qed.

Lemma unowned_bus pattern pre rest : split_on "." pattern = ns :: (pre ++ rest)%list -> Forall literal pre ->
  (forall rest', match (pre ++ rest')%list with area :: _ => String.eqb "deadletter" area = false | [] => False end /\ bus_owner (pre ++ rest')%list = None) ->
  unowned ns pattern.
Proof.
  intros Hp Hpre Hb. apply (own_prefix ns None pattern (ns :: pre) rest); [done| |].
  - constructor; [by apply ns_literal|done].
  - intros rest'. destruct (Hb rest') as [Hd Ho]. cbn [app]. destruct (pre ++ rest')%list as [|area l]; [done|].
    unfold token_owner. rewrite not_api. cbn [after]. rewrite String.eqb_refl, Hd. unfold data_owner. by rewrite String.eqb_refl.
Qed.

Ltac shared_bus := eapply (unowned_bus _ [_; _]); [cbv [path]; toks; reflexivity|each; by split|intros rest'; split; [done|by destruct rest']].

Lemma invalidation_unowned rest : data_owner ns ("threetears" :: "cache" :: "invalidate" :: rest) = None.
Proof. unfold data_owner. destruct (String.eqb "threetears" ns); [by destruct rest|done]. Qed.

Lemma requests_unowned : Forall (unowned ns) (pod_requests ns).
Proof.
  pose proof (ns_no_dot ns Hns) as Hnd. unfold pod_requests. each.
  all: cbv beta delta [agent_register agent_deregister hub_handshake hub_secrets_request hub_object_commit hub_object_resolve hub_approval_record
    hub_memory_namespace_ensure hub_audit_anonymize hub_channel_engagement_default_resolve hub_jwks gateway_completion gateway_embedding tools_discover
    tools_call tools_register knowledge_draft workspaces_create namespace_discover l3_query l3_batch l3_truncate l3_load_files datasource_query_wildcard
    hub_geo_layers_reloaded hub_collection_keys_purge hub_cache_index_moved hub_engagement_scope hub_object_store_declare hub_object_store_retire
    or_ns deadletter]; cbn [path].
  all: try shared_bus.
  - eapply (unowned_bus _ ["datasource"]); [toks; reflexivity|each; by split|]. intros rest'. split; [done|]. by destruct rest' as [|? [|? ?]].
  - apply (own_prefix ns None _ ["$SYS"; "REQ"; "USER"; "INFO"] []); [done|lits|]. intros rest'. cbn [app]. unfold token_owner.
    cbn [after String.eqb Ascii.eqb Bool.eqb]. destruct (ns_other ns Hns "$SYS" "$" "SYS" eq_refl eq_refl) as [H1 H2]. rewrite H2. unfold data_owner. by rewrite H1.
  - apply (own_prefix ns None _ ["threetears"; "cache"; "invalidate"] []); [done|lits|]. intros rest'. cbn [app]. unfold token_owner.
    cbn [after String.eqb Ascii.eqb Bool.eqb]. rewrite invalidation_unowned. by destruct (String.eqb ns "threetears").
  - apply (own_prefix ns None _ [ns; "deadletter"; "threetears"; "cache"; "invalidate"] []); [toks; reflexivity| |].
    + each; [by apply ns_literal|by split..].
    + intros rest'. cbn [app]. unfold token_owner. rewrite not_api. cbn [after]. rewrite String.eqb_refl. apply invalidation_unowned.
Qed.

Lemma shared_bucket_unowned name rest : name ∈ ["-collections"; "-ratelimits"; "-proxy_assertion_nonces"; "-leases"; "-data-versions"; "_agent_config"; "-epochs"] ->
  bucket_owner ns (ns ++ name) = None /\ (name = "-epochs" -> kv_owner ns (ns ++ name) rest = None).
Proof.
  intros Hn. assert (Hb : bucket_owner ns (ns ++ name) = None).
  { rewrite !elem_of_cons in Hn. destruct Hn as [->|[->|[->|[->|[->|[->|[->|Hn]]]]]]]; [by rewrite bucket_owner_shared..|by apply elem_of_nil in Hn]. }
  split; [done|]. intros ->. unfold kv_owner, one_of, data_versions_bucket_name, agent_config_bucket_name. rewrite Hb. cbn [existsb]. rewrite !eqb_app. by destruct rest.
Qed.

Lemma info_unowned name : name ∈ ["-collections"; "-ratelimits"; "-proxy_assertion_nonces"; "-leases"; "-data-versions"; "_agent_config"; "-epochs"] ->
  unowned ns (info (ns ++ name)).
Proof.
  intros Hn. destruct (shared_bucket_unowned name [] Hn) as [Hb _]. unfold info.
  assert (Ht : one_token (kv_stream_name (ns ++ name))).
  { apply kv_stream_token, ns_suffix_token; rewrite !elem_of_cons in Hn; destruct Hn as [->|[->|[->|[->|[->|[->|[->|Hn]]]]]]]; try done; by apply elem_of_nil in Hn. }
  pose proof (stream_owner_kv ns (ns ++ name)) as Hso. rewrite Hb in Hso. revert Ht Hso. generalize (kv_stream_name (ns ++ name)). intros st Ht Hso.
  apply (own_prefix ns None _ ["$JS"; "API"; "STREAM"; "INFO"; st] []); [toks; done|lits|done].
Qed.

Lemma reads_unowned : Forall (unowned ns) (pod_reads ns).
Proof.
  pose proof (ns_no_dot ns Hns) as Hnd. unfold pod_reads. rewrite !Forall_app. split_and!.
  - unfold JS_API_ACCOUNT. each.
    + by apply (own_prefix ns None _ ["$JS"; "API"; "INFO"] []); [|lits|].
    + by apply (own_prefix ns None _ ["$JS"; "API"; "STREAM"; "NAMES"] []); [|lits|].
  - cbn [map]. each; apply info_unowned; listed.
  - unfold bucket_reads. each; [by apply info_unowned; listed|..].
    all: assert (Hb : one_token (ns ++ "-epochs")) by (by apply ns_suffix_token).
    all: assert (Hk : forall rest, kv_owner ns (ns ++ "-epochs") rest = None) by (intros rest; eapply shared_bucket_unowned; [listed|done]).
    all: assert (Hso : stream_owner ns (kv_stream_name (ns ++ "-epochs")) = None) by (rewrite stream_owner_kv; eapply (shared_bucket_unowned "-epochs" []); listed).
    all: pose proof (kv_stream_token _ Hb) as Hst; revert Hb Hst Hk Hso; generalize (ns ++ "-epochs"); intros b;
      generalize (kv_stream_name b); intros st Hb Hst Hk Hso.
    + apply (own_prefix ns None _ ["$JS"; "API"; "STREAM"; "MSG"; "GET"; st] []); [toks; done|lits|done].
    + apply (own_prefix ns None _ ["$JS"; "API"; "DIRECT"; "GET"; st; "$KV"; b] [">"]); [toks; done|lits|].
      intros rest. cbn [app]. by rewrite direct_prefix, data_owner_kv.
    + apply (own_prefix_star ns None _ ["$JS"; "API"; "CONSUMER"; "CREATE"; st] ["$KV"; b] [">"]); [toks; done|lits|lits|].
      intros t rest. cbn [app]. by rewrite consumer_prefix, data_owner_kv.
Qed.

Lemma shared_unowned subject : allows (pod_shared ns) subject = true -> owner ns subject = None.
Proof.
  unfold allows, pod_shared. rewrite existsb_exists. intros (pattern & Hin & Hc).
  assert (Hall : Forall (unowned ns) (pod_requests ns ++ pod_reads ns)%list) by (rewrite Forall_app; split; [apply requests_unowned|apply reads_unowned]).
  rewrite Forall_forall in Hall. apply (Hall pattern); [by apply list_elem_of_In|done].
Qed.

(** *** The credential of an agent pod *)

Variable digest_token : string -> string.

Lemma agent_scope_Ok a scope : kv_key_scope_for AGENT_POD (Some a) None = Ok scope ->
  exists u, UUID_of_string a = Some u /\ scope = "agent_pod" ++ "-" ++ uuid_hex u.
Proof.
  cbn [kv_key_scope_for isSome]. unfold scope_id. destruct (UUID_of_string a) as [u|]; [|done]. intros H%pod_scope_Ok. exists u. by destruct_and! H.
Qed.

Lemma tool_scope_Ok p scope : kv_key_scope_for TOOL_POD None (Some p) = Ok scope ->
  exists u, UUID_of_string p = Some u /\ scope = "tool_pod" ++ "-" ++ uuid_hex u.
Proof.
  cbn [kv_key_scope_for isSome]. unfold scope_id. destruct (UUID_of_string p) as [u|]; [|done]. intros H%pod_scope_Ok. exists u. by destruct_and! H.
Qed.

Lemma account_shared g : g ∈ JS_API_ACCOUNT -> g ∈ pod_shared ns.
Proof. intros Hg. apply in_shared_r. unfold pod_reads. rewrite !elem_of_app. by left. Qed.

Lemma agent_subscribe_within a p u inbox : UUID_of_string a = Some u ->
  Forall (within ns (eq u) ((inbox ++ ".>")%string :: pod_broadcasts ns)) (agent_pod_subscribe ns inbox a p).
Proof.
  intros Ha. apply Forall_forall. intros subject [Hin|Hin]%agent_subscribe_split; [by left|]. right. exists u. split; [done|].
  apply pod_pattern_own. pose proof (agent_own_patterns a p u Ha) as Hf. rewrite Forall_forall in Hf. by apply Hf.
Qed.

Lemma agent_deadletters_within a p u inbox : UUID_of_string a = Some u ->
  Forall (within ns (eq u) (pod_shared ns)) (deadletters ns (agent_pod_subscribe ns inbox a p) inbox).
Proof.
  intros Ha. apply deadletters_within. intros subject [Hin|Hin]%agent_subscribe_split.
  - unfold pod_broadcasts in Hin. rewrite !elem_of_cons in Hin. destruct Hin as [->|[->|Hin]]; [by left| |by right; left].
    right. right. left. apply in_shared_l. unfold pod_requests. listed.
  - right. right. right. exists u. split; [done|]. pose proof (agent_own_patterns a p u Ha) as Hf. rewrite Forall_forall in Hf. by apply Hf.
Qed.

Lemma agent_buckets_within u declared buckets : uuid_wf u ->
  result_all (map (fun suffix => do! bucket <- coordination_bucket_name ("agent_pod" ++ "-" ++ uuid_hex u) suffix ns;; kv_bucket_keys bucket true) declared) = Ok buckets ->
  Forall (resource_within ns (eq u) (pod_shared ns)) buckets.
Proof.
  intros Hu H. eapply result_all_Forall; [exact H|]. intros suffix r _ Hr. cbv beta in Hr. steps Hr. resources.
  eapply (pod_bucket_within (eq u) _ AGENT_POD u); [done|by left|done|exact E].
Qed.

Lemma agent_credential rq permissions : agent_pod_permissions ns rq = Ok permissions -> exists a u allow,
  rq_agent_id rq = Some a /\ UUID_of_string a = Some u /\ publish_allow permissions = Ok allow
  /\ Forall (within ns (eq u) (pod_shared ns)) allow
  /\ Forall (within ns (eq u) ((pp_inbox_prefix permissions ++ ".>")%string :: pod_broadcasts ns)) (subscribe_allow permissions).
Proof.
  unfold agent_pod_permissions. intros H. steps H. apply require_Ok in E as [-> _], E0 as [Hp _].
  apply agent_scope_Ok in E1 as (u & Ha & ->). pose proof (UUID_of_string_wf _ _ Ha) as Hu.
  assert (a2 = mkSubject (ns ++ ".audit." ++ "tool.call") Point) as -> by (by injection E2 as <-).
  unfold agent_config_kv_key in E3. unfold data_version_kv_key in E4. rewrite Ha in E3, E4. injection E3 as <-. injection E4 as <-.
  unroll E5. resources. unfold coordination_resources in E7. steps E7. apply agent_buckets_within in E6, E7; [|done..].
  revert H. set (inbox := inbox_prefix_for _ _). intros H.
  destruct (publish_allow_within ns (eq u) (pod_shared ns) permissions) as (allow & Hallow & Hwithin); [| |apply account_shared|].
  - apply Ok_inj in H as <-. cbn [pp_publish]. apply Forall_app. split; [by apply agent_publish_within|by apply agent_deadletters_within].
  - apply Ok_inj in H as <-. cbn [pp_js_resources]. rewrite !Forall_app. split_and!; [|done|done]. each.
    + by apply epochs_shared.
    + by apply config_within.
    + apply (scoped_within (eq u) _ _ _ AGENT_POD); auto. listed.
    + apply (scoped_within (eq u) _ _ _ AGENT_POD); auto. listed.
    + apply (scoped_within (eq u) _ _ _ AGENT_POD); auto. listed.
    + by apply (replies_within _ _ a u).
    + by apply versions_within.
  - exists a, u, allow. split_and!; [done|done|done|done|]. apply Ok_inj in H as <-. by apply agent_subscribe_within.
Qed.

(** *** The credential of a tool pod *)

Hypothesis Hdigest : forall name, one_token (digest_token name).

(** What a table of an agent's is granted as: its keys to read, and to write where the grant says so. *)
Definition table_grant (g : AgentTableGrant) : list string :=
  let bucket := ns ++ "-collections" in
  let key := "agent_pod-" ++ uuid_hex (tg_owner_agent_id g) ++ "." ++ tg_table g in
  app (if tg_writable g then ["$KV." ++ bucket ++ "." ++ key ++ ".>"] else [])
      ["$JS.API.DIRECT.GET." ++ kv_stream_name bucket ++ ".$KV." ++ bucket ++ "." ++ key ++ ".>"].

(** What a bucket of an agent's is granted as. *)
Definition bucket_grant (g : AgentBucketGrant) : list string :=
  let bucket := ns ++ "-agent_pod-" ++ uuid_hex (bg_owner_agent_id g) ++ "-" ++ bg_suffix g in
  app (if bg_writable g then ["$KV." ++ bucket ++ ".>"] else []) (bucket_reads bucket).

Definition granted (rq : request) : list string :=
  app (List.concat (map table_grant (rq_agent_table_grants rq))) (List.concat (map bucket_grant (rq_agent_bucket_grants rq))).

Lemma granted_table rq g pattern : g ∈ rq_agent_table_grants rq -> pattern ∈ table_grant g -> pattern ∈ granted rq.
Proof. intros Hg Hp. unfold granted. rewrite elem_of_app. left. apply list_elem_of_In, in_concat. exists (table_grant g). split; [by apply in_map, list_elem_of_In|by apply list_elem_of_In]. Qed.

Lemma granted_bucket rq g pattern : g ∈ rq_agent_bucket_grants rq -> pattern ∈ bucket_grant g -> pattern ∈ granted rq.
Proof. intros Hg Hp. unfold granted. rewrite elem_of_app. right. apply list_elem_of_In, in_concat. exists (bucket_grant g). split; [by apply in_map, list_elem_of_In|by apply list_elem_of_In]. Qed.

Lemma tables_within P shared rq resources : agent_table_resources ns (rq_agent_table_grants rq) = Ok resources ->
  (forall g, g ∈ pod_shared ns -> g ∈ shared) -> (forall g, g ∈ granted rq -> g ∈ shared) -> Forall (resource_within ns P shared) resources.
Proof.
  unfold agent_table_resources. intros H Hin Hgr. steps H. eapply result_all_Forall; [exact H|]. intros g r Hg Hr. cbv beta in Hr. steps Hr.
  apply pod_scope_Ok in E as [-> _]. apply JsResource_init_Ok in Hr as ->.
  unfold resource_within. rewrite kv_data_bucket. unfold js_control. cbn [stream_name js_kind js_name js_capability js_filter_subject key_prefix js_table js_scope js_writable].
  eexists. split; [reflexivity|]. pose proof (fun pattern => granted_table rq g pattern Hg) as Ht. unfold table_grant in Ht. split.
  - destruct (tg_writable g); each. left. apply Hgr, Ht. cbn [default principal_value]. rewrite !str_app_assoc. listed.
  - cbn [capability_declares]. each; left.
    + apply Hin, info_shared. listed.
    + apply Hgr, Ht. rewrite elem_of_app. right. cbn [default principal_value]. rewrite !str_app_assoc. listed.
Qed.

Lemma buckets_within P shared rq resources : agent_bucket_resources ns (rq_agent_bucket_grants rq) = Ok resources ->
  (forall g, g ∈ granted rq -> g ∈ shared) -> Forall (resource_within ns P shared) resources.
Proof.
  unfold agent_bucket_resources. intros H Hgr. steps H. eapply result_all_Forall; [exact H|]. intros g r Hg Hr. cbv beta in Hr. steps Hr. resources.
  unfold bucket_name, owner_scope in E. steps E. apply pod_scope_Ok in E0 as [-> _]. apply coordination_bucket_Ok in E as [-> _].
  unfold resource_within. rewrite kv_data_bucket. unfold js_control. cbn [stream_name js_kind js_name js_capability js_filter_subject key_prefix js_table js_scope js_writable].
  pose proof (fun pattern => granted_bucket rq g pattern Hg) as Hb. unfold bucket_grant, bucket_reads, info in Hb.
  eexists. split; [reflexivity|]. cbn [principal_value]. split.
  - destruct (bg_writable g); each. left. apply Hgr, Hb. rewrite elem_of_app. left. rewrite !str_app_assoc. listed.
  - each; left; apply Hgr, Hb; rewrite elem_of_app; right; unfold kv_stream_name; rewrite ?str_app_assoc; listed.
Qed.

(** The session subjects of the tools a pod serves, and their dead letters. *)
Definition sessions (rq : request) : list string :=
  match hitl_session_subjects ns digest_token (rq_tool_namespaces rq) with Ok subjects => subjects | Err _ => [] end.

Definition tool_shared (rq : request) : list string :=
  app (pod_shared ns) (app (granted rq) (map (fun subject => path (deadletter ns subject)) (sessions rq))).

Lemma in_tool_shared rq g : g ∈ pod_shared ns -> g ∈ tool_shared rq.
Proof. intros H. unfold tool_shared. rewrite elem_of_app. by left. Qed.

Lemma granted_tool_shared rq g : g ∈ granted rq -> g ∈ tool_shared rq.
Proof. intros H. unfold tool_shared. rewrite !elem_of_app. tauto. Qed.

Lemma pipe_patterns p u direction names subjects : UUID_of_string p = Some u -> pipe_subjects ns digest_token p direction names = Ok subjects ->
  Forall (pod_pattern u) subjects.
Proof.
  intros Hp H. destruct (uuid_string_token p u Hp) as (Hdot & Hlit & Hseg). pose proof (ns_no_dot ns Hns) as Hnd. unfold seg in Hseg.
  eapply result_all_Forall; [exact H|]. intros name x _ Hx. cbv beta in Hx. unfold pipe_pod_wildcard in Hx. steps Hx.
  apply Ok_inj in Hx as <-. steps E. apply Ok_inj in E as <-. cbn [path]. rewrite Hseg. pose proof (Hdigest a0) as Hd.
  do 4 eexists. split; [toks; reflexivity|]. split_and!; try done. exact (proj2 Hd).
Qed.

Lemma tool_publish_within shared p u : UUID_of_string p = Some u -> (forall g, g ∈ pod_shared ns -> g ∈ shared) ->
  Forall (within ns (eq u) shared) (tool_pod_publish ns p (mkSubject (ns ++ ".audit." ++ "tool.call") Point)
    (mkSubject (ns ++ ".audit." ++ TOOL_POD_AUDIT_TOKEN ++ "." ++ uuid_str u ++ ".>") Pattern)).
Proof.
  intros Hp Hin. destruct (uuid_string_token p u Hp) as (Hdot & Hlit & Hseg). pose proof (ns_no_dot ns Hns) as Hnd.
  pose proof (UUID_of_string_str u (UUID_of_string_wf _ _ Hp)) as Hstr. destruct (uuid_str_token u) as [Hsd Hsl].
  unfold tool_pod_publish. each; try (left; apply Hin, in_shared_l; unfold pod_requests; listed; fail).
  all: apply (own_within ns (eq u) _ u _ eq_refl); unfold tools_heartbeat, tools_result_pod_wildcard, TOOL_POD_AUDIT_TOKEN; cbn [path]; rewrite ?routing_token_id.
  all: eapply own_bus; [toks; reflexivity|by split|by split|done| |done]; assumption.
Qed.

(** What a tool pod listens to. *)
Lemma tool_subscribe_split inbox p subject : subject ∈ tool_pod_subscribe ns inbox p ->
  subject = inbox ++ ".>" \/ subject = CROSS_PLATFORM_CACHE_INVALIDATE \/ subject ∈ [path (tools_internal ns p); path (tools_probe ns p)].
Proof. unfold tool_pod_subscribe. rewrite !elem_of_cons. tauto. Qed.

Lemma tool_own_patterns p u : UUID_of_string p = Some u -> Forall (pod_pattern u) [path (tools_internal ns p); path (tools_probe ns p)].
Proof.
  intros Hp. destruct (uuid_string_token p u Hp) as (Hdot & Hlit & Hseg). pose proof (ns_no_dot ns Hns) as Hnd.
  each; unfold tools_internal, tools_probe; cbn [path]; rewrite routing_token_id.
  all: do 4 eexists; (split; [toks; reflexivity|]); split_and!; done.
Qed.

(** The pod's object store. *)
Lemma objects_within (P : UUID -> Prop) shared u bucket : P u -> uuid_wf u ->
  coordination_bucket_name ("tool_pod" ++ "-" ++ uuid_hex u) TOOL_POD_OBJECTS_BUCKET_SUFFIX ns = Ok bucket ->
  resource_within ns P shared (mkJsResource bucket OBJECT_STORE OBJECT_STORE_OBJECTS None true None None).
Proof.
  intros HP Hu [-> _]%coordination_bucket_Ok. pose proof (bucket_owner_own ns TOOL_POD u TOOL_POD_OBJECTS_BUCKET_SUFFIX (or_intror eq_refl) Hu) as Ho.
  cbn [principal_value] in Ho.
  assert (Hb : one_token (ns ++ "-" ++ ("tool_pod" ++ "-" ++ uuid_hex u) ++ "-" ++ TOOL_POD_OBJECTS_BUCKET_SUFFIX)).
  { apply ns_suffix_token; [|done]. rewrite !str_has_app, (proj1 (uuid_hex_token u)). reflexivity. }
  revert Ho Hb. generalize (ns ++ "-" ++ ("tool_pod" ++ "-" ++ uuid_hex u) ++ "-" ++ TOOL_POD_OBJECTS_BUCKET_SUFFIX). intros b Ho Hb.
  unfold resource_within, js_control, kv_data. cbn [stream_name js_kind js_name js_capability js_filter_subject key_prefix js_table js_scope js_writable].
  pose proof (object_stream_token b Hb) as Hst. pose proof (stream_owner_object ns b) as Hso. rewrite Ho in Hso. revert Hst Hso. generalize ("OBJ_" ++ b). intros st Hst Hso.
  eexists. split; [reflexivity|]. split; apply (own_all_within ns P shared u _ HP).
  - change (Forall (own ns u) ["$O." ++ b ++ ".>"]). each. apply (own_prefix ns (Some u) _ ["$O"; b] [">"]); [toks; done|lits|]. intros rest. cbn [app]. by rewrite object_prefix.
  - each.
    + apply (own_prefix ns (Some u) _ ["$JS"; "API"; "STREAM"; "INFO"; st] []); [toks; done|lits|done].
    + apply (own_prefix ns (Some u) _ ["$JS"; "API"; "DIRECT"; "GET"; st; "$O"; b] ["M"; ">"]); [toks; done|lits|].
      intros rest. cbn [app]. by rewrite direct_prefix, data_owner_object.
    + apply (own_prefix_star ns (Some u) _ ["$JS"; "API"; "CONSUMER"; "CREATE"; st] ["$O"; b] [">"]); [toks; done|lits|lits|].
      intros t rest. cbn [app]. by rewrite consumer_prefix, data_owner_object.
Qed.

Definition tool_heard (rq : request) (inbox : string) : list string := (inbox ++ ".>")%string :: CROSS_PLATFORM_CACHE_INVALIDATE :: sessions rq.

(** A pattern a tool pod listens to. *)
Definition tool_listens (rq : request) (u : UUID) (inbox subject : string) : Prop :=
  subject = inbox ++ ".>" \/ subject = CROSS_PLATFORM_CACHE_INVALIDATE \/ subject ∈ sessions rq \/ pod_pattern u subject.

Lemma tool_listens_all rq p u inbox up : UUID_of_string p = Some u -> pipe_subjects ns digest_token p "up" (rq_tool_namespaces rq) = Ok up ->
  Forall (tool_listens rq u inbox) (tool_pod_subscribe ns inbox p ++ sessions rq ++ up)%list.
Proof.
  intros Hp Hup. apply (pipe_patterns p u) in Hup; [|done]. pose proof (tool_own_patterns p u Hp) as Hown. rewrite Forall_forall in Hup, Hown.
  rewrite !Forall_app, !Forall_forall. unfold tool_listens. split_and!.
  - intros subject [?|[?|Hin]]%tool_subscribe_split; [tauto..|]. right. right. right. by apply Hown.
  - tauto.
  - intros subject Hin. right. right. right. by apply Hup.
Qed.

Lemma tool_heard_within rq u inbox l : Forall (tool_listens rq u inbox) l -> Forall (within ns (eq u) (tool_heard rq inbox)) l.
Proof.
  intros H. eapply Forall_impl; [exact H|]. unfold within, tool_heard. rewrite ?elem_of_cons.
  intros subject [->|[->|[Hin|Hown]]]; rewrite !elem_of_cons; [tauto..|]. right. exists u. split; [done|]. by apply pod_pattern_own.
Qed.

Lemma tool_deadletters_within rq u inbox l : Forall (tool_listens rq u inbox) l ->
  Forall (within ns (eq u) (tool_shared rq)) (deadletters ns l inbox).
Proof.
  intros H. rewrite Forall_forall in H. apply deadletters_within. intros subject [->|[->|[Hin|Hown]]]%H; [by left| | |right; right; right; eauto].
  - right. right. left. apply in_tool_shared, in_shared_l. unfold pod_requests. listed.
  - right. right. left. unfold tool_shared. rewrite !elem_of_app. right. right. by apply (list_elem_of_fmap_2 (fun subject => path (deadletter ns subject))).
Qed.

(** Everything a pod of the tool kind is given, before an object store is added. *)
Lemma tool_lists rq permissions : tool_pod_permissions ns digest_token rq = Ok permissions -> exists p u,
  rq_pod_id rq = Some p /\ p <> "" /\ UUID_of_string p = Some u
  /\ Forall (within ns (eq u) (tool_shared rq)) (pp_publish permissions)
  /\ Forall (resource_within ns (eq u) (tool_shared rq)) (pp_js_resources permissions)
  /\ Forall (within ns (eq u) (tool_heard rq (pp_inbox_prefix permissions))) (pp_subscribe permissions).
Proof.
  unfold tool_pod_permissions. intros H. steps H. apply require_Ok in E as [-> Hne].
  apply tool_scope_Ok in E0 as (u & Hp & ->). pose proof (UUID_of_string_wf _ _ Hp) as Hu.
  assert (Hs : sessions rq = a1) by (unfold sessions; by rewrite E1).
  assert (a4 = mkSubject (ns ++ ".audit." ++ "tool.call") Point) as -> by (by injection E4 as <-).
  assert (a5 = mkSubject (ns ++ ".audit." ++ TOOL_POD_AUDIT_TOKEN ++ "." ++ uuid_str u ++ ".>") Pattern) as ->.
  { unfold tool_pod_audit_wildcard in E5. rewrite Hp in E5. by apply Ok_inj in E5 as <-. }
  unfold data_version_kv_key in E6. rewrite Hp in E6. apply Ok_inj in E6 as <-. unroll E7. resources.
  revert H. set (inbox := inbox_prefix_for _ _). intros H. exists a, u. split_and!; [done|done|done|..].
  - apply Ok_inj in H as <-. cbn [pp_publish]. rewrite !Forall_app. split_and!.
    + apply tool_publish_within; [done|]. apply in_tool_shared.
    + apply (own_all_within ns _ _ u _ eq_refl). eapply Forall_impl; [by eapply pipe_patterns|]. apply pod_pattern_own.
    + rewrite <- Hs. apply (tool_deadletters_within rq u). by apply tool_listens_all.
  - apply Ok_inj in H as <-. cbn [pp_js_resources]. rewrite !Forall_app. pose proof (in_tool_shared rq) as Hin. split_and!.
    + each.
      * apply (scoped_within (eq u) _ _ _ TOOL_POD); auto. listed.
      * apply (scoped_within (eq u) _ _ _ TOOL_POD); auto. listed.
      * apply (scoped_within (eq u) _ _ _ TOOL_POD); auto. listed.
      * by apply epochs_shared.
      * by apply versions_within.
    + eapply tables_within; [done|done|]. apply granted_tool_shared.
    + eapply buckets_within; [done|]. apply granted_tool_shared.
  - apply Ok_inj in H as <-. cbn [pp_subscribe pp_inbox_prefix]. rewrite <- Hs. apply tool_heard_within. by apply tool_listens_all.
Qed.

(** *** What a pod hears besides belongs to nobody *)

Lemma inbox_unowned principal conn_id : unowned ns (inbox_prefix_for principal conn_id ++ ".>").
Proof.
  assert (Hd : str_has "." (inbox_prefix_for principal conn_id) = false).
  { unfold inbox_prefix_for, seg. rewrite !str_has_app, (seg_no_dot conn_id). by destruct principal. }
  assert (Hne : String.eqb (inbox_prefix_for principal conn_id) ns = false /\ String.eqb ns (inbox_prefix_for principal conn_id) = false).
  { apply andb_true_iff in Hns as [_ Hi]. apply negb_true_iff in Hi.
    split; apply String.eqb_neq; [intros <-|intros ->]; unfold inbox_prefix_for in Hi; by rewrite (proj2 (starts_with_iff "_INBOX_" _)) in Hi by eauto. }
  apply (own_prefix ns None _ [inbox_prefix_for principal conn_id] [">"]); [toks; done|each; by split|]. intros rest. cbn [app].
  destruct Hne as [H1 H2]. unfold token_owner. cbn [after]. rewrite H2. change (String.eqb "$JS" (inbox_prefix_for principal conn_id)) with false.
  unfold data_owner. rewrite H1. by destruct rest.
Qed.

Lemma broadcasts_unowned : Forall (unowned ns) (pod_broadcasts ns).
Proof.
  pose proof (ns_no_dot ns Hns) as Hnd. pose proof requests_unowned as Hr. rewrite Forall_forall in Hr.
  unfold pod_broadcasts, retired_subscriptions, acl_invalidate. cbn [map path]. each; [apply Hr; unfold pod_requests; listed|shared_bus..].
Qed.

Lemma session_subject rq subject : subject ∈ sessions rq -> exists name, subject = ns ++ ".forward." ++ digest_token name ++ ".*".
Proof.
  unfold sessions. destruct (hitl_session_subjects ns digest_token _) as [subjects|] eqn:H; [|intros Hin; by apply elem_of_nil in Hin].
  unfold hitl_session_subjects in H. revert subjects H. induction (rq_tool_namespaces rq) as [|name names IH]; intros subjects H.
  - apply Ok_inj in H as <-. intros Hin. by apply elem_of_nil in Hin.
  - cbn [map List.concat app] in H. apply result_all_cons in H as (x & xs & Hx & H & ->). apply result_all_cons in H as (y & ys & Hy & H & ->).
    rewrite !elem_of_cons. unfold forward_scoped_wildcard in Hx, Hy. intros [->|[->|Hin]]; [| |by apply (IH ys)].
    + steps Hx. apply Ok_inj in Hx as <-. steps E0. apply Ok_inj in E0 as <-. by eexists.
    + steps Hy. apply Ok_inj in Hy as <-. steps E0. apply Ok_inj in E0 as <-. by eexists.
Qed.

Lemma session_unowned rq subject : subject ∈ sessions rq -> unowned ns subject /\ unowned ns (path (deadletter ns subject)).
Proof.
  pose proof (ns_no_dot ns Hns) as Hnd. intros (name & ->)%session_subject. pose proof (Hdigest name) as Hd. revert Hd. generalize (digest_token name). intros d Hd. split.
  - eapply (unowned_bus _ ["forward"; d]); [toks; reflexivity|lits|]. intros rest'. split; [done|by destruct rest'].
  - unfold deadletter. cbn [path]. apply (own_prefix ns None _ [ns; "deadletter"; ns; "forward"; d] ["*"]); [toks; reflexivity| |].
    + each; [by apply ns_literal|by split|by apply ns_literal|by split|exact (proj2 Hd)].
    + intros rest'. cbn [app]. unfold token_owner. rewrite not_api. cbn [after]. rewrite String.eqb_refl. unfold data_owner. cbn [String.eqb Ascii.eqb Bool.eqb].
      rewrite String.eqb_refl. by destruct rest'.
Qed.

(** *** What is granted belongs to the agent whose table or bucket it is *)

Definition granters (rq : request) : list UUID := app (map tg_owner_agent_id (rq_agent_table_grants rq)) (map bg_owner_agent_id (rq_agent_bucket_grants rq)).

Lemma table_grant_own g : uuid_wf (tg_owner_agent_id g) -> Forall (own ns (tg_owner_agent_id g)) (table_grant g).
Proof.
  intros Hu. unfold table_grant. pose proof (scope_token AGENT_POD (tg_owner_agent_id g)) as Ht.
  pose proof (kv_owner_scoped "-collections" _ _ ltac:(listed) (scope_owner_own AGENT_POD _ (or_introl eq_refl) Hu)) as Hk.
  assert (Hb : one_token (ns ++ "-collections")) by (by apply ns_suffix_token). pose proof (kv_stream_token _ Hb) as Hst.
  set (scope := principal_value AGENT_POD ++ "-" ++ uuid_hex (tg_owner_agent_id g)) in *.
  replace ("agent_pod-" ++ uuid_hex (tg_owner_agent_id g) ++ "." ++ tg_table g) with (scope ++ "." ++ tg_table g) by (unfold scope; by rewrite !str_app_assoc).
  revert Hk Hb Hst Ht. generalize (kv_stream_name (ns ++ "-collections")). generalize (ns ++ "-collections"). intros b st Hk Hb Hst Ht.
  assert (Hdata : own ns (tg_owner_agent_id g) ("$KV." ++ b ++ "." ++ (scope ++ "." ++ tg_table g) ++ ".>")).
  { rewrite !str_app_assoc. eapply (own_prefix ns (Some _) _ ["$KV"; b; scope]); [toks; reflexivity|lits|]. intros rest. cbn [app]. by rewrite kv_prefix. }
  assert (Hget : own ns (tg_owner_agent_id g) ("$JS.API.DIRECT.GET." ++ st ++ ".$KV." ++ b ++ "." ++ (scope ++ "." ++ tg_table g) ++ ".>")).
  { rewrite !str_app_assoc. eapply (own_prefix ns (Some _) _ ["$JS"; "API"; "DIRECT"; "GET"; st; "$KV"; b; scope]); [toks; reflexivity|lits|].
    intros rest. cbn [app]. by rewrite direct_prefix, data_owner_kv. }
  destruct (tg_writable g); cbn [app]; each; done.
Qed.

Lemma bucket_grant_own g bucket : uuid_wf (bg_owner_agent_id g) -> bucket_name g ns = Ok bucket -> Forall (own ns (bg_owner_agent_id g)) (bucket_grant g).
Proof.
  intros Hu H. unfold bucket_name, owner_scope in H. steps H. apply pod_scope_Ok in E as [-> _].
  destruct (pod_bucket_within (eq (bg_owner_agent_id g)) [] AGENT_POD _ _ (bg_writable g) _ eq_refl (or_introl eq_refl) Hu H) as (control & Hc & Hdata & Hcontrol).
  apply coordination_bucket_Ok in H as [-> _]. apply Ok_inj in Hc as <-. rewrite kv_data_bucket in Hdata. unfold bucket_grant.
  assert (Hown : forall l, Forall (within ns (eq (bg_owner_agent_id g)) []) l -> Forall (own ns (bg_owner_agent_id g)) l).
  { intros l Hl. eapply Forall_impl; [exact Hl|]. intros x [Hx|(v & <- & Hx)]; [by apply elem_of_nil in Hx|done]. }
  apply Hown in Hdata, Hcontrol. cbn [principal_value js_name js_kind js_writable key_prefix js_table js_scope stream_name] in Hdata, Hcontrol.
  rewrite !str_app_assoc in Hdata, Hcontrol. apply Forall_app. rewrite !str_app_assoc. split; [by destruct (bg_writable g)|].
  unfold bucket_reads, info, kv_stream_name in *. rewrite !str_app_assoc in *. exact Hcontrol.
Qed.

Lemma granted_own rq buckets : agent_bucket_resources ns (rq_agent_bucket_grants rq) = Ok buckets -> Forall uuid_wf (granters rq) ->
  Forall (fun pattern => exists v, v ∈ granters rq /\ own ns v pattern) (granted rq).
Proof.
  unfold agent_bucket_resources, granters, granted. intros H Hwf. steps H. rewrite Forall_app in Hwf. destruct Hwf as [Ht Hb].
  rewrite Forall_forall in Ht. rewrite Forall_forall in Hb. apply Forall_app. split; apply Forall_forall; intros pattern Hin; apply list_elem_of_In, in_concat in Hin as (l & Hl & Hp);
    apply in_map_iff in Hl as (g & <- & Hg); apply list_elem_of_In in Hg, Hp.
  - exists (tg_owner_agent_id g). assert (Hgo : tg_owner_agent_id g ∈ map tg_owner_agent_id (rq_agent_table_grants rq)) by (by apply list_elem_of_fmap_2).
    split; [rewrite elem_of_app; by left|]. pose proof (table_grant_own g (Ht _ Hgo)) as Hall. rewrite Forall_forall in Hall. by apply Hall.
  - exists (bg_owner_agent_id g). assert (Hgo : bg_owner_agent_id g ∈ map bg_owner_agent_id (rq_agent_bucket_grants rq)) by (by apply list_elem_of_fmap_2).
    split; [rewrite elem_of_app; by right|]. apply result_all_Ok in H.
    assert (exists bucket, bucket_name g ns = Ok bucket) as [bucket Hbn].
    { clear -H Hg. induction H as [|g' x gs xs Hx _ IH]; [by apply elem_of_nil in Hg|]. apply elem_of_cons in Hg as [->|Hg]; [|by apply IH].
      destruct (bucket_name g' ns) as [bucket|]; [by exists bucket|done]. }
    pose proof (bucket_grant_own g bucket (Hb _ Hgo) Hbn) as Hall. rewrite Forall_forall in Hall. by apply Hall.
Qed.

(** A tool pod's credential, its object store included. *)
Lemma tool_credential rq objects permissions : build_permissions ns digest_token TOOL_POD rq objects = Ok permissions -> exists p u allow,
  rq_pod_id rq = Some p /\ UUID_of_string p = Some u /\ publish_allow permissions = Ok allow
  /\ Forall (within ns (eq u) (tool_shared rq)) allow
  /\ Forall (within ns (eq u) (tool_heard rq (pp_inbox_prefix permissions))) (subscribe_allow permissions).
Proof.
  unfold build_permissions. cbn [RESOLVERS]. intros H. steps H. pose proof (tool_lists rq _ E) as (p & u & Hp & Hne & Hu & Hpub & Hres & Hsub).
  assert (Hobj : Forall (within ns (eq u) (tool_shared rq)) (pp_publish permissions) /\ Forall (resource_within ns (eq u) (tool_shared rq)) (pp_js_resources permissions)
    /\ pp_subscribe permissions = pp_subscribe a /\ pp_inbox_prefix permissions = pp_inbox_prefix a).
  { destruct objects; [|by apply Ok_inj in H as <-]. unfold require in H. rewrite Hp, (proj2 (str_truthy_true p)) in H by done.
    unfold with_object_store, tool_pod_object_store_name, tool_pod_pointers_bucket_name in H. steps H. steps E0. steps E1. apply tool_scope_Ok in E3 as (u' & Hu' & ->).
    assert (u' = u) as -> by congruence. unroll E2. resources. apply Ok_inj in H as <-. cbn [pp_publish pp_js_resources pp_subscribe pp_inbox_prefix].
    pose proof (UUID_of_string_wf _ _ Hu) as Hwf. rewrite !Forall_app. split_and!; try done; each.
    - left. apply in_tool_shared, in_shared_l. unfold pod_requests. listed.
    - left. apply in_tool_shared, in_shared_l. unfold pod_requests. listed.
    - by apply (objects_within _ _ u).
    - eapply (pod_bucket_within (eq u) _ TOOL_POD u); [done|by right|done|done]. }
  destruct Hobj as (Hpub' & Hres' & Hs & Hi). destruct (publish_allow_within ns (eq u) (tool_shared rq) permissions Hpub' Hres') as (allow & Ha & Hall).
  { intros g Hg. by apply in_tool_shared, account_shared. }
  exists p, u, allow. unfold subscribe_allow. rewrite Hs, Hi. by split_and!.
Qed.

Lemma heard_unowned subject principal conn_id rest : Forall (unowned ns) rest -> allows ((inbox_prefix_for principal conn_id ++ ".>")%string :: rest) subject = true ->
  owner ns subject = None.
Proof.
  intros Hrest. unfold allows. rewrite existsb_exists. intros (pattern & Hin & Hc). rewrite Forall_forall in Hrest.
  destruct Hin as [<-|Hin]; [by apply (inbox_unowned principal conn_id)|]. by apply (Hrest pattern); [apply list_elem_of_In|].
Qed.

Lemma agent_inbox rq permissions : agent_pod_permissions ns rq = Ok permissions -> exists conn_id, pp_inbox_prefix permissions = inbox_prefix_for AGENT_POD conn_id.
Proof. unfold agent_pod_permissions. intros H. steps H. apply Ok_inj in H as <-. by eexists. Qed.

Lemma tool_inbox rq objects permissions : build_permissions ns digest_token TOOL_POD rq objects = Ok permissions ->
  exists conn_id, pp_inbox_prefix permissions = inbox_prefix_for TOOL_POD conn_id.
Proof.
  unfold build_permissions. cbn [RESOLVERS]. intros H. steps H. unfold tool_pod_permissions in E. steps E. apply Ok_inj in E as <-.
  destruct objects; [|apply Ok_inj in H as <-; by eexists]. steps H. unfold with_object_store in H. steps H. apply Ok_inj in H as <-. by eexists.
Qed.

(** *** Managing streams *)

(** A request that makes, changes, empties or removes a stream, a message of one or a consumer. *)
Definition manages (subject : string) : bool :=
  match after ["$JS"; "API"] (split_on "." subject) with
  | Some (area :: op :: rest) =>
      (String.eqb area "STREAM" && one_of ["CREATE"; "UPDATE"; "DELETE"; "PURGE"; "SNAPSHOT"; "RESTORE"] op)
      || (String.eqb area "STREAM" && String.eqb op "MSG" && match rest with sub :: _ => String.eqb sub "DELETE" | [] => false end)
      || (String.eqb area "CONSUMER" && one_of ["DELETE"; "DURABLE"; "PAUSE"] op)
  | _ => false
  end.

Lemma manages_unowned subject : manages subject = true -> owner ns subject = None.
Proof.
  unfold manages, owner, token_owner. destruct (after ["$JS"; "API"] (split_on "." subject)) as [[|area [|op rest]]|]; try done.
  rewrite !orb_true_iff, !andb_true_iff. unfold one_of. cbn [existsb]. rewrite !orb_true_iff, !String.eqb_eq.
  intros [[[-> Hop]|[[-> ->] Hsub]]|[-> Hop]].
  - destruct Hop as [->|[->|[->|[->|[->|[->|Hop]]]]]]; done.
  - destruct rest as [|sub rest]; [done|]. by apply String.eqb_eq in Hsub as ->.
  - destruct Hop as [->|[->|[->|Hop]]]; done.
Qed.

Lemma covers_harmless pattern pre rest subject : split_on "." pattern = (pre ++ rest)%list -> Forall literal pre ->
  (forall rest', after ["$JS"; "API"] (pre ++ rest')%list = None) -> covers pattern subject = true -> manages subject = false.
Proof.
  intros Hp Hpre Ha Hc. unfold covers in Hc. rewrite Hp in Hc. apply tokens_cover_prefix in Hc as (rest' & Hs & _); [|done].
  unfold manages. by rewrite Hs, Ha.
Qed.

Definition harmless (pattern : string) : Prop := forall subject, covers pattern subject = true -> manages subject = false.

Lemma ns_harmless x : harmless (ns ++ String "." x).
Proof.
  intros subject. apply (covers_harmless _ [ns] (split_on "." x)); [apply tokens_var, (ns_no_dot ns Hns)|each; by apply ns_literal|].
  intros rest'. cbn [app after]. by rewrite (proj1 (ns_other ns Hns "$JS" "$" "JS" eq_refl eq_refl)).
Qed.

Lemma js_harmless pattern pre rest : split_on "." pattern = (pre ++ rest)%list -> Forall literal pre ->
  pre ∈ [["$JS"; "API"; "INFO"]; ["$JS"; "API"; "STREAM"; "NAMES"]; ["$JS"; "API"; "STREAM"; "INFO"]; ["$JS"; "API"; "STREAM"; "MSG"; "GET"];
         ["$JS"; "API"; "DIRECT"; "GET"]; ["$JS"; "API"; "CONSUMER"; "CREATE"]] -> harmless pattern.
Proof.
  intros Hp Hpre Hin subject Hc. unfold covers in Hc. rewrite Hp in Hc. apply tokens_cover_prefix in Hc as (rest' & Hs & _); [|done].
  unfold manages. rewrite Hs. rewrite !elem_of_cons in Hin.
  destruct Hin as [->|[->|[->|[->|[->|[->|Hin]]]]]]; [by destruct rest'|done..|by apply elem_of_nil in Hin].
Qed.

Lemma shared_harmless : Forall harmless (pod_shared ns).
Proof.
  unfold pod_shared, pod_reads. rewrite !Forall_app. split_and!.
  - unfold pod_requests. each; try apply ns_harmless.
    + intros subject. by apply (covers_harmless _ ["$SYS"] ["REQ"; "USER"; "INFO"]); [|lits|].
    + intros subject. by apply (covers_harmless _ ["threetears"] ["cache"; "invalidate"]); [|lits|].
  - unfold JS_API_ACCOUNT. each.
    + apply (js_harmless _ ["$JS"; "API"; "INFO"] []); [done|lits|listed].
    + apply (js_harmless _ ["$JS"; "API"; "STREAM"; "NAMES"] []); [done|lits|listed].
  - cbn [map]. each; (eapply (js_harmless _ ["$JS"; "API"; "STREAM"; "INFO"]); [reflexivity|lits|listed]).
  - unfold bucket_reads, info. each.
    + eapply (js_harmless _ ["$JS"; "API"; "STREAM"; "INFO"]); [reflexivity|lits|listed].
    + eapply (js_harmless _ ["$JS"; "API"; "STREAM"; "MSG"; "GET"]); [reflexivity|lits|listed].
    + eapply (js_harmless _ ["$JS"; "API"; "DIRECT"; "GET"]); [reflexivity|lits|listed].
    + eapply (js_harmless _ ["$JS"; "API"; "CONSUMER"; "CREATE"]); [reflexivity|lits|listed].
Qed.

Lemma shared_never_manages subject : allows (pod_shared ns) subject = true -> manages subject = false.
Proof.
  unfold allows. rewrite existsb_exists. intros (pattern & Hin & Hc). pose proof shared_harmless as Hall. rewrite Forall_forall in Hall.
  by apply (Hall pattern); [apply list_elem_of_In|].
Qed.

Lemma sessions_never_manage rq subject : existsb (fun pattern => covers pattern subject) (map (fun session => path (deadletter ns session)) (sessions rq)) = true ->
  manages subject = false.
Proof. rewrite existsb_exists. intros (pattern & Hin & Hc). apply in_map_iff in Hin as (session & <- & _). by apply (ns_harmless ("deadletter." ++ session)). Qed.

(** *** Every grant is in the credential *)

(** A pattern a resource puts in the allow list of publishing. *)
Definition offers (r : JsResource) (pattern : string) : Prop :=
  pattern ∈ kv_data r \/ exists control, js_control r = Ok control /\ pattern ∈ control.

Lemma result_all_in {A B E} (f : A -> result B E) l xs a : result_all (map f l) = Ok xs -> a ∈ l -> exists x, f a = Ok x /\ x ∈ xs.
Proof.
  intros H%result_all_Ok Ha. induction H as [|b x l xs Hb _ IH]; [by apply elem_of_nil in Ha|].
  apply elem_of_cons in Ha as [->|Ha]; [exists x; split; [done|apply list_elem_of_here]|].
  destruct (IH Ha) as (y & Hy & Hin). exists y. split; [done|by apply list_elem_of_further].
Qed.

Lemma publish_allow_offers permissions allow r pattern : publish_allow permissions = Ok allow -> r ∈ pp_js_resources permissions ->
  offers r pattern -> pattern ∈ allow.
Proof.
  unfold publish_allow. intros H Hr Ho. steps H. apply Ok_inj in H as <-. rewrite !elem_of_app. destruct Ho as [Ho|(control & Hc & Hp)].
  - right. left. apply list_elem_of_In, in_concat. exists (kv_data r). split; [by apply in_map, list_elem_of_In|by apply list_elem_of_In].
  - right. right. destruct (result_all_in _ _ _ r E Hr) as (control' & Hc' & Hin). assert (control' = control) as -> by congruence.
    destruct (pp_js_resources permissions); [by apply elem_of_nil in Hr|]. rewrite elem_of_app. right.
    apply list_elem_of_In, in_concat. exists control. split; by apply list_elem_of_In.
Qed.

Lemma table_offered grants resources g pattern : agent_table_resources ns grants = Ok resources -> g ∈ grants -> pattern ∈ table_grant g ->
  exists r, r ∈ resources /\ offers r pattern.
Proof.
  unfold agent_table_resources. intros H Hg Hp. steps H. destruct (result_all_in _ _ _ g H Hg) as (r & Hr & Hin). cbv beta in Hr. steps Hr.
  apply pod_scope_Ok in E as [-> _]. apply JsResource_init_Ok in Hr as ->. eexists. split; [exact Hin|].
  unfold table_grant in Hp. apply elem_of_app in Hp as [Hp|Hp].
  - left. rewrite kv_data_bucket. cbn [js_writable js_name key_prefix js_capability js_table js_scope default principal_value].
    destruct (tg_writable g); [|by apply elem_of_nil in Hp]. apply list_elem_of_singleton in Hp as ->. rewrite !str_app_assoc. listed.
  - right. unfold js_control. cbn [stream_name js_kind js_name js_capability js_filter_subject key_prefix js_table js_scope js_writable].
    eexists. split; [reflexivity|]. apply list_elem_of_singleton in Hp as ->. cbn [capability_declares default principal_value]. rewrite !str_app_assoc. listed.
Qed.

Lemma bucket_offered grants resources g pattern : agent_bucket_resources ns grants = Ok resources -> g ∈ grants -> pattern ∈ bucket_grant g ->
  exists r, r ∈ resources /\ offers r pattern.
Proof.
  unfold agent_bucket_resources. intros H Hg Hp. steps H. destruct (result_all_in _ _ _ g H Hg) as (r & Hr & Hin). cbv beta in Hr. steps Hr. resources.
  unfold bucket_name, owner_scope in E. steps E. apply pod_scope_Ok in E0 as [-> _]. apply coordination_bucket_Ok in E as [-> _].
  eexists. split; [exact Hin|]. unfold bucket_grant in Hp. apply elem_of_app in Hp as [Hp|Hp].
  - left. rewrite kv_data_bucket. cbn [js_writable js_name key_prefix js_capability js_table js_scope default principal_value].
    destruct (bg_writable g); [|by apply elem_of_nil in Hp]. apply list_elem_of_singleton in Hp as ->. rewrite !str_app_assoc. listed.
  - right. unfold js_control. cbn [stream_name js_kind js_name js_capability js_filter_subject key_prefix js_table js_scope js_writable].
    eexists. split; [reflexivity|]. unfold bucket_reads, info in Hp. cbn [principal_value]. unfold kv_stream_name in Hp |- *. rewrite ?str_app_assoc in Hp. rewrite ?str_app_assoc.
    rewrite !elem_of_cons in Hp. destruct Hp as [-> |[-> |[-> |[-> |Hp]]]]; [listed..|by apply elem_of_nil in Hp].
Qed.

Lemma tool_resources rq objects permissions : build_permissions ns digest_token TOOL_POD rq objects = Ok permissions ->
  exists tables buckets, agent_table_resources ns (rq_agent_table_grants rq) = Ok tables /\ agent_bucket_resources ns (rq_agent_bucket_grants rq) = Ok buckets
    /\ forall r, r ∈ tables \/ r ∈ buckets -> r ∈ pp_js_resources permissions.
Proof.
  unfold build_permissions. cbn [RESOLVERS]. intros H. steps H. unfold tool_pod_permissions in E. steps E. apply Ok_inj in E as <-.
  do 2 eexists. split; [reflexivity|]. split; [reflexivity|]. intros r Hr.
  destruct objects; [steps H; unfold with_object_store in H; steps H|]; apply Ok_inj in H as <-; cbn [pp_js_resources]; rewrite !elem_of_app; tauto.
Qed.

Lemma granted_allowed rq objects permissions allow pattern : build_permissions ns digest_token TOOL_POD rq objects = Ok permissions ->
  publish_allow permissions = Ok allow -> pattern ∈ granted rq -> pattern ∈ allow.
Proof.
  intros H Ha Hp. apply tool_resources in H as (tables & buckets & Ht & Hb & Hin). unfold granted in Hp.
  apply elem_of_app in Hp as [Hp|Hp]; apply list_elem_of_In, in_concat in Hp as (l & Hl & Hp); apply in_map_iff in Hl as (g & <- & Hg);
    apply list_elem_of_In in Hp, Hg.
  - destruct (table_offered _ _ g pattern Ht Hg Hp) as (r & Hr & Ho). eapply publish_allow_offers; [done|apply Hin; by left|done].
  - destruct (bucket_offered _ _ g pattern Hb Hg Hp) as (r & Hr & Ho). eapply publish_allow_offers; [done|apply Hin; by right|done].
Qed.

(** *** A tool pod's shared list, by owner *)

Lemma tool_buckets rq objects permissions : build_permissions ns digest_token TOOL_POD rq objects = Ok permissions ->
  exists buckets, agent_bucket_resources ns (rq_agent_bucket_grants rq) = Ok buckets.
Proof. unfold build_permissions. cbn [RESOLVERS]. intros H. steps H. unfold tool_pod_permissions in E. steps E. eauto. Qed.

Lemma tool_shared_cases rq buckets subject : agent_bucket_resources ns (rq_agent_bucket_grants rq) = Ok buckets -> Forall uuid_wf (granters rq) ->
  allows (tool_shared rq) subject = true ->
  (allows (pod_shared ns ++ map (fun session => path (deadletter ns session)) (sessions rq))%list subject = true /\ owner ns subject = None)
  \/ exists v, v ∈ granters rq /\ allows (granted rq) subject = true /\ owner ns subject = Some v.
Proof.
  intros Hb Hwf. unfold tool_shared, allows. rewrite !existsb_app, !orb_true_iff. intros [Hs|[Hs|Hs]].
  - left. split; [by left|]. by apply shared_unowned.
  - right. pose proof Hs as Hg. apply existsb_exists in Hs as (pattern & Hin & Hc). pose proof (granted_own rq buckets Hb Hwf) as Hall. rewrite Forall_forall in Hall.
    destruct (Hall pattern) as (v & Hv & Ho); [by apply list_elem_of_In|]. exists v. split_and!; [done|done|by apply Ho].
  - left. split; [by right|]. apply existsb_exists in Hs as (pattern & Hin & Hc). apply in_map_iff in Hin as (session & <- & Hin).
    by apply (session_unowned rq session); [apply list_elem_of_In|].
Qed.

Lemma tool_heard_unowned rq subject conn_id : allows (tool_heard rq (inbox_prefix_for TOOL_POD conn_id)) subject = true -> owner ns subject = None.
Proof.
  apply heard_unowned. constructor.
  - pose proof requests_unowned as Hr. rewrite Forall_forall in Hr. apply Hr. unfold pod_requests. listed.
  - apply Forall_forall. intros session Hin. by apply (session_unowned rq).
Qed.
End Pods.

(** ** The theorems *)

(** (C12) An agent pod's credential is made, and it stays home. Whatever it may publish is a subject of its own agent or a shared request; whatever it
    may listen to is its own agent's, its inbox or a broadcast. A subject of another agent, a key of another's in a shared bucket and a bucket of
    another's are out of its reach, for every subject and every wildcard of the lists. *)
Theorem agent_pod_stays_home ns digest_token rq objects permissions : namespace_ok ns = true ->
  build_permissions ns digest_token AGENT_POD rq objects = Ok permissions ->
  exists a u allow, rq_agent_id rq = Some a /\ UUID_of_string a = Some u /\ publish_allow permissions = Ok allow
    /\ (forall subject, allows allow subject = true ->
          match owner ns subject with Some v => v = u | None => allows (pod_shared ns) subject = true end)
    /\ (forall subject, allows (subscribe_allow permissions) subject = true ->
          match owner ns subject with Some v => v = u | None => allows ((pp_inbox_prefix permissions ++ ".>")%string :: pod_broadcasts ns) subject = true end).
Proof.
  intros Hns H. unfold build_permissions in H. cbn [RESOLVERS] in H. steps H. destruct objects; [by destruct (bool_decide_reflect (AGENT_POD = TOOL_POD))|].
  apply Ok_inj in H as <-. pose proof E as Hi. apply agent_credential in E as (a' & u & allow & Ha & Hu & Hal & Hpub & Hsub); [|done].
  exists a', u, allow. split_and!; [done|done|done|intros subject Hs..].
  - apply (patterns_within ns (eq u) (pod_shared ns)) in Hs as [Hs|(v & <- & Hs)]; [|by rewrite Hs|done].
    by rewrite (shared_unowned ns Hns subject Hs).
  - apply (patterns_within ns (eq u) _ _ _ Hsub) in Hs as [Hs|(v & <- & Hs)]; [|by rewrite Hs].
    destruct (agent_inbox ns rq a Hi) as [conn_id Hc]. rewrite Hc in Hs.
    rewrite (heard_unowned ns Hns subject _ _ _ (broadcasts_unowned ns Hns) Hs). by rewrite Hc.
Qed.

(** (C13) A tool pod's credential is made and stays home too: what it may publish is its own, or an agent's that granted it the table or the bucket (to
    read, and to write only under a grant that says so), or belongs to nobody and is a shared request or a dead letter of a session of its tools;
    every table and bucket it was granted it reaches, to read and, under a grant that says so, to write; what it hears is its own, its inbox, the
    cache broadcast or those sessions. *)
Theorem tool_pod_stays_home ns digest_token rq objects permissions : namespace_ok ns = true -> (forall name, one_token (digest_token name)) ->
  Forall uuid_wf (granters rq) -> build_permissions ns digest_token TOOL_POD rq objects = Ok permissions ->
  exists p u allow, rq_pod_id rq = Some p /\ UUID_of_string p = Some u /\ publish_allow permissions = Ok allow
    /\ (forall subject, allows allow subject = true ->
          match owner ns subject with
          | Some v => v = u \/ (v ∈ granters rq /\ allows (granted ns rq) subject = true)
          | None => allows (pod_shared ns ++ map (fun session => path (deadletter ns session)) (sessions ns digest_token rq))%list subject = true
          end)
    /\ (forall subject, allows (granted ns rq) subject = true -> allows allow subject = true)
    /\ (forall subject, allows (subscribe_allow permissions) subject = true ->
          match owner ns subject with
          | Some v => v = u
          | None => allows (tool_heard ns digest_token rq (pp_inbox_prefix permissions)) subject = true
          end).
Proof.
  intros Hns Hd Hwf H. pose proof (tool_inbox _ _ _ _ _ H) as [conn_id Hi]. pose proof (tool_buckets _ _ _ _ _ H) as [buckets Hb]. pose proof H as Hbuild.
  apply tool_credential in H as (p & u & allow & Hp & Hu & Ha & Hpub & Hsub); [|done..]. exists p, u, allow. split_and!; [done|done|done|intros subject Hs..].
  - apply (patterns_within ns (eq u) _ _ _ Hpub) in Hs as [Hs|(v & <- & ->)]; [|by left].
    apply (tool_shared_cases ns Hns digest_token Hd rq buckets subject Hb Hwf) in Hs as [[Hs Ho]|(v & Hv & Hs & Ho)]; rewrite Ho; [done|by right].
  - unfold allows in Hs |- *. apply existsb_exists in Hs as (pattern & Hin & Hc). apply existsb_exists. exists pattern. split; [|done].
    apply list_elem_of_In. eapply granted_allowed; [exact Hbuild|done|by apply list_elem_of_In].
  - apply (patterns_within ns (eq u) _ _ _ Hsub) in Hs as [Hs|(v & <- & ->)]; [|done]. rewrite Hi in Hs |- *.
    by rewrite (tool_heard_unowned ns Hns digest_token Hd rq subject conn_id Hs).
Qed.

(** (C18) No pod manages streams: no agent pod and no tool pod may create, change, empty, copy, restore or remove a stream or a bucket, remove a message
    from one, or remove, pause or make durable a consumer, whatever it declares, serves or was granted. *)
Theorem pods_never_manage_streams ns digest_token principal rq objects permissions allow : namespace_ok ns = true -> (forall name, one_token (digest_token name)) ->
  Forall uuid_wf (granters rq) -> principal = AGENT_POD \/ principal = TOOL_POD ->
  build_permissions ns digest_token principal rq objects = Ok permissions -> publish_allow permissions = Ok allow ->
  forall subject, manages subject = true -> allows allow subject = false.
Proof.
  intros Hns Hd Hwf Hpr H Hal subject Hm. apply not_true_is_false. intros Hs. pose proof (manages_unowned ns subject Hm) as Ho.
  destruct Hpr as [->| ->].
  - unfold build_permissions in H. cbn [RESOLVERS] in H. steps H. destruct objects; [by destruct (bool_decide_reflect (AGENT_POD = TOOL_POD))|].
    apply Ok_inj in H as <-. apply agent_credential in E as (a' & u & allow' & _ & _ & Ha & Hpub & _); [|done].
    assert (allow' = allow) as -> by congruence. apply (patterns_within ns (eq u) _ _ _ Hpub) in Hs as [Hs|(v & _ & Hs)]; [|congruence].
    by rewrite (shared_never_manages ns Hns subject Hs) in Hm.
  - pose proof (tool_buckets _ _ _ _ _ H) as [buckets Hb]. apply tool_credential in H as (p & u & allow' & _ & _ & Ha & Hpub & _); [|done..].
    assert (allow' = allow) as -> by congruence. apply (patterns_within ns (eq u) _ _ _ Hpub) in Hs as [Hs|(v & _ & Hs)]; [|congruence].
    apply (tool_shared_cases ns Hns digest_token Hd rq buckets subject Hb Hwf) in Hs as [[Hs _]|(v & _ & _ & Hs)]; [|congruence].
    unfold allows in Hs. rewrite existsb_app in Hs. apply orb_true_iff in Hs as [Hs|Hs]; [by rewrite (shared_never_manages ns Hns subject Hs) in Hm|].
    by rewrite (sessions_never_manage ns Hns digest_token rq subject Hs) in Hm.
Qed.

(** *** Two pods *)

Definition digest_by_length (name : string) : string := uuid_hex (N.of_nat (String.length name)).
Definition agent_a1 : string := "00000000-0000-0000-0000-0000000000a1".
Definition agent_b2 : string := "00000000-0000-0000-0000-0000000000b2".
Definition pod_c3 : string := "00000000-0000-0000-0000-0000000000c3".

Definition agent_request : request := mkRequest (Some agent_a1) (Some "pod-1") None [] ["jobs"] [] [].
Definition tool_request : request :=
  mkRequest None (Some pod_c3) (Some "conn-7") ["tools.acme.scan"] [] [mkTableGrant 161 "notes" false] [mkBucketGrant 178 "jobs" true].

Definition permissions_of (r : result PrincipalPermissions subject_error) : PrincipalPermissions :=
  match r with Ok permissions => permissions | Err _ => mkPermissions [] [] false "" [] end.
Definition agent_permissions : PrincipalPermissions := permissions_of (build_permissions "3tears" digest_by_length AGENT_POD agent_request false).
Definition tool_permissions : PrincipalPermissions := permissions_of (build_permissions "3tears" digest_by_length TOOL_POD tool_request true).

Lemma digest_by_length_token name : one_token (digest_by_length name).
Proof. apply uuid_hex_token. Qed.

Lemma agent_pod_stays_home_witness : exists allow, publish_allow agent_permissions = Ok allow
  /\ allows allow ("3tears.hub.stream." ++ agent_a1 ++ ".turn-1") = true
  /\ allows allow ("3tears.hub.stream." ++ agent_b2 ++ ".turn-1") = false.
Proof.
  destruct (agent_pod_stays_home "3tears" digest_by_length agent_request false agent_permissions) as (a & u & allow & Ha & Hu & Hal & Hpub & _); [vm_compute; reflexivity..|].
  exists allow. split; [exact Hal|]. split.
  - vm_compute in Hal. injection Hal as <-. vm_compute. reflexivity.
  - apply not_true_is_false. intros Hs. apply Hpub in Hs. assert (a = agent_a1) as -> by (injection Ha as <-; reflexivity). vm_compute in Hu. injection Hu as <-.
    vm_compute in Hs. discriminate Hs.
Defined.

Lemma tool_pod_stays_home_witness : exists allow, publish_allow tool_permissions = Ok allow
  /\ allows allow "$KV.3tears-agent_pod-000000000000000000000000000000b2-jobs.k" = true
  /\ allows allow "$KV.3tears-agent_pod-000000000000000000000000000000b3-jobs.k" = false
  /\ allows allow "$KV.3tears-collections.agent_pod-000000000000000000000000000000a1.notes.k" = false.
Proof.
  destruct (tool_pod_stays_home "3tears" digest_by_length tool_request true tool_permissions) as (p & u & allow & Hp & Hu & Hal & Hpub & Hgr & _);
    [vm_compute; reflexivity|exact digest_by_length_token|repeat constructor|vm_compute; reflexivity|].
  assert (p = pod_c3) as -> by (injection Hp as <-; reflexivity). vm_compute in Hu. injection Hu as <-.
  exists allow. split; [exact Hal|]. split; [apply Hgr; vm_compute; reflexivity|]. split; apply not_true_is_false; intros Hs; apply Hpub in Hs.
  - vm_compute in Hs. destruct Hs as [Hs|[_ Hs]]; discriminate Hs.
  - vm_compute in Hs. destruct Hs as [Hs|[_ Hs]]; discriminate Hs.
Defined.

Lemma pods_never_manage_streams_witness : exists allow, publish_allow tool_permissions = Ok allow
  /\ allows allow "$JS.API.STREAM.DELETE.KV_3tears-agent_pod-000000000000000000000000000000b2-jobs" = false.
Proof.
  assert (Hb : build_permissions "3tears" digest_by_length TOOL_POD tool_request true = Ok tool_permissions) by (vm_compute; reflexivity).
  destruct (publish_allow tool_permissions) as [allow|] eqn:Hal; [|exfalso; vm_compute in Hal; discriminate Hal]. exists allow. split; [reflexivity|].
  apply (pods_never_manage_streams "3tears" digest_by_length TOOL_POD tool_request true tool_permissions allow);
    [vm_compute; reflexivity|exact digest_by_length_token|repeat constructor|right; reflexivity|exact Hb|exact Hal|vm_compute; reflexivity].
Defined.
