(* ===== verification/ServiceSubjects.v ===== *)
(** * Who hears a request

    The subscribe lists of [Permissions.v], for every kind of principal at once. [served] is the table of what the six service
    principals listen to besides their inboxes and the cross-platform cache invalidation, which everyone hears: a subject of a row is
    heard by the principals the row names and by no other, whatever its ids, tools or grants, and no service listens to anything
    that is not in the table. The report of endpoint usage, which the registry publishes, is heard by nobody. *)

From Stdlib Require Import Ascii String Bool List NArith ZArith Lia.
From stdpp Require Import base list strings.
From S2P Require Import Prelude PyUuid Namespaces CasStore Subjects Permissions PodPolicy PodIsolation.

Open Scope string_scope.

(** The subjects and families of subjects, after the namespace, and the principals that listen to each. *)
Definition served_suffixes : list (string * list Principal) :=
  (map (fun y => (y, [HUB]))
     ["pipe.*.*.*.down"; "hub.handshake"; "hub.jwks"; "hub.secrets.request"; "hub.user.resolve"; "hub.object.commit"; "hub.object.resolve"; "hub.engagement.scope";
      "hub.channel.engagement.default.resolve"; "hub.approval.record"; "hub.approval.resolve"; "hub.memory.namespace.ensure"; "hub.audit.anonymize";
      "hub.geo.layers.reloaded"; "hub.object_store.declare"; "hub.object_store.retire"; "hub.collection_keys.purge"; "hub.cache.index.moved";
      "hub.channel.installs"; "namespace.discover"; "l3.query"; "l3.batch"; "l3.truncate"; "l3.load_files"; "l3.tx.*"; "datasource.*.query";
      "workspaces.create"; "knowledge.draft"; "hub.usage.track"; "audit.>"; "hub.stream.*.*"; "mcp.rbac.epoch"]
   ++ map (fun y => (y, [HUB; AGENT_ROUTER])) ["agents.register"; "agents.deregister"; "agents.heartbeat.>"]
   ++ [("tools.register", [HUB; REGISTRY]); ("gateway.catalog.epoch", [HUB; GATEWAY])]
   ++ map (fun y => (y, [GATEWAY])) ["gateway.completion"; "gateway.embedding"; "gateway.health"]
   ++ map (fun y => (y, [REGISTRY])) ["tools.call"; "tools.discover"; "tools.heartbeat.>"]
   ++ [("agents.complete.*", [AGENT_ROUTER])]
   ++ map (fun y => (y, [CHANNEL_ADAPTER])) ["hub.channel.installs.changed"; "agents.reply.*"])%list.

(** And the one nobody listens to. *)
Definition heard_suffixes : list (string * list Principal) := (served_suffixes ++ [("hub.usage.endpoint", [])])%list.


(** Whether some subject may be covered by both patterns. *)
Fixpoint tokens_overlap (p q : list string) : bool :=
  match p, q with
  | [], [] => true
  | t :: p, u :: q => if String.eqb t ">" || String.eqb u ">" then true else (String.eqb t "*" || String.eqb u "*" || String.eqb t u) && tokens_overlap p q
  | _, _ => false
  end.

Lemma tokens_overlap_covers p q given : tokens_cover p given = true -> tokens_cover q given = true -> tokens_overlap p q = true.
Proof.
  revert q given. induction p as [|t p IH]; intros [|u q] given; cbn [tokens_cover tokens_overlap].
  - done.
  - destruct given; [|done]. intros _. destruct (String.eqb u ">"); [by destruct q|done].
  - destruct given; [|by intros _ ?]. destruct (String.eqb t ">"); [by destruct p|done].
  - destruct (String.eqb t ">"); [done|]. destruct (String.eqb u ">"); [done|]. cbn [orb]. destruct given as [|g given]; [done|].
    intros [Ht Hp]%andb_prop [Hu Hq]%andb_prop. rewrite (IH q given Hp Hq), andb_true_r.
    destruct (String.eqb t "*"); [done|]. destruct (String.eqb u "*"); [done|]. simpl in *. apply String.eqb_eq in Ht as ->, Hu as ->. apply String.eqb_refl.
Qed.

Section Hearing.
Context (ns : string) (Hns : namespace_ok ns = true).

Definition others (principal : Principal) (wanted : list string) : bool :=
  forallb (fun '(y, audience) => bool_decide (principal ∈ audience) || negb (tokens_overlap wanted (split_on "." y))) heard_suffixes.

(** A pattern that covers no subject the principal is not to hear. *)
Definition quiet (principal : Principal) (pattern : string) : Prop :=
  forall y audience subject, (y, audience) ∈ heard_suffixes -> principal ∉ audience -> covers (ns ++ "." ++ y) subject = true -> covers pattern subject = false.

Lemma covered_tokens y subject : covers (ns ++ "." ++ y) subject = true ->
  exists given, split_on "." subject = ns :: given /\ tokens_cover (split_on "." y) given = true.
Proof.
  unfold covers. change ("." ++ y) with (String "." y). rewrite (tokens_var ns) by apply (ns_no_dot ns Hns). intros Hc. by apply tokens_cover_literal in Hc; [|apply (ns_literal ns Hns)].
Qed.

Lemma quiet_within principal pattern tokens wanted : split_on "." pattern = ns :: tokens -> (forall given, tokens_cover tokens given = true -> tokens_cover wanted given = true) ->
  others principal wanted = true -> quiet principal pattern.
Proof.
  intros Hp Hwide Ho y audience subject Hin Hno (given & Hs & Hy)%covered_tokens. apply not_true_is_false. unfold covers. rewrite Hp, Hs. intros Hc.
  apply tokens_cover_literal in Hc as (given' & [= <-] & Hc); [|apply (ns_literal ns Hns)]. unfold others in Ho. rewrite forallb_forall in Ho.
  specialize (Ho (y, audience) (proj1 (list_elem_of_In _ _) Hin)). cbv beta iota in Ho. rewrite bool_decide_eq_false_2 in Ho by done.
  apply negb_true_iff in Ho. by rewrite (tokens_overlap_covers _ _ given (Hwide given Hc) Hy) in Ho.
Qed.

Lemma quiet_ns principal pattern wanted : split_on "." pattern = ns :: wanted -> others principal wanted = true -> quiet principal pattern.
Proof. intros Hp. by apply (quiet_within principal pattern wanted). Qed.

Lemma quiet_other principal pattern first second rest : split_on "." pattern = first :: second :: rest -> literal first ->
  first <> ns \/ (literal second /\ second ∉ map (fun '(y, _) => hd "" (split_on "." y)) heard_suffixes) -> quiet principal pattern.
Proof.
  intros Hp Hf Hor y audience subject Hin _ (given & Hs & Hy)%covered_tokens. apply not_true_is_false. unfold covers. rewrite Hp, Hs. intros Hc.
  apply tokens_cover_literal in Hc as (given' & [= Hfirst <-] & Hc); [|done]. destruct Hor as [Hne|[Hl Hsec]]; [by destruct Hne|].
  apply Hsec, list_elem_of_fmap. exists (y, audience). split; [|done].
  pose proof (tokens_overlap_covers _ _ given Hc Hy) as Ho. 
  assert (Hlit : forallb (fun '(y, _) => match split_on "." y with t :: _ => negb (String.eqb t "*" || String.eqb t ">") | [] => false end) heard_suffixes = true) by (vm_compute; reflexivity).
  rewrite forallb_forall in Hlit. specialize (Hlit _ (proj1 (list_elem_of_In _ _) Hin)). cbv beta iota in Hlit.
  destruct (split_on "." y) as [|t ts]; [done|]. apply negb_true_iff, orb_false_iff in Hlit as [H1 H2]. cbn [tokens_overlap] in Ho.
  destruct Hl as [Hs1%String.eqb_neq Hs2%String.eqb_neq]. rewrite Hs1, Hs2, H1, H2 in Ho. cbn [orb] in Ho. apply andb_prop in Ho as [Ho _]. by apply String.eqb_eq in Ho.
Qed.

Lemma quiet_inbox principal kind conn_id : quiet principal (inbox_prefix_for kind conn_id ++ ".>").
Proof.
  assert (Hd : str_has "." (inbox_prefix_for kind conn_id) = false).
  { unfold inbox_prefix_for, seg. rewrite !str_has_app, (seg_no_dot conn_id). by destruct kind. }
  eapply quiet_other; [toks; reflexivity|by split|]. left. intros Heq. apply andb_true_iff in Hns as [_ Hi]. rewrite <- Heq in Hi. apply negb_true_iff in Hi.
  unfold inbox_prefix_for in Hi. by rewrite (proj2 (starts_with_iff "_INBOX_" _)) in Hi by eauto.
Qed.

Lemma quiet_invalidate principal : quiet principal CROSS_PLATFORM_CACHE_INVALIDATE.
Proof.
  eapply quiet_other; [reflexivity|by split|]. right. split; [by split|]. intros Hin. apply list_elem_of_In in Hin. vm_compute in Hin. naive_solver.
Qed.

Lemma quiet_suffix principal pattern x : pattern = ns ++ String "." x -> others principal (split_on "." x) = true -> quiet principal pattern.
Proof. intros ->. apply quiet_ns, tokens_var, (ns_no_dot ns Hns). Qed.

Ltac deaf := first [by apply quiet_inbox | apply quiet_invalidate | eapply quiet_suffix; [reflexivity|vm_compute; reflexivity] | eapply quiet_ns; [cbn [path]; toks; reflexivity|vm_compute; reflexivity]].
Ltac deaf_list := each; unfold seg; cbv beta delta [agent_internal agent_reregister_request tools_internal_agent_subtree tools_probe_agent_subtree
  acl_invalidate tools_internal tools_probe]; rewrite ?routing_token_id; deaf.

Variable digest_token : string -> string.
Hypothesis Hdigest : forall name, one_token (digest_token name).

Lemma service_lists inbox_kind conn_id : let inbox := inbox_prefix_for inbox_kind conn_id in
  Forall (quiet REGISTRY) (registry_subscribe ns inbox) /\ Forall (quiet HUB) (hub_subscribe ns inbox) /\ Forall (quiet GATEWAY) (gateway_subscribe ns inbox)
  /\ Forall (quiet CHANNEL_ADAPTER) (channel_adapter_subscribe ns inbox) /\ Forall (quiet AGENT_ROUTER) (agent_router_subscribe ns inbox)
  /\ Forall (quiet DATASET_EXECUTOR) (dataset_executor_subscribe inbox).
Proof.
  pose proof (ns_no_dot ns Hns) as Hnd. cbv zeta.
  unfold registry_subscribe, hub_subscribe, gateway_subscribe, channel_adapter_subscribe, agent_router_subscribe, dataset_executor_subscribe. split_and!; deaf_list.

Qed.

Lemma agent_list a p u conn_id : UUID_of_string a = Some u -> Forall (quiet AGENT_POD) (agent_pod_subscribe ns (inbox_prefix_for AGENT_POD conn_id) a p).
Proof.
  intros Ha. destruct (uuid_string_token a u Ha) as (Hdot & Hlit & Hseg). pose proof (ns_no_dot ns Hns) as Hnd. unfold seg in Hseg.
  unfold agent_pod_subscribe. deaf_list.
Qed.

Lemma tool_list p u conn_id : UUID_of_string p = Some u -> Forall (quiet TOOL_POD) (tool_pod_subscribe ns (inbox_prefix_for TOOL_POD conn_id) p).
Proof.
  intros Hp. destruct (uuid_string_token p u Hp) as (Hdot & Hlit & Hseg). pose proof (ns_no_dot ns Hns) as Hnd.
  unfold tool_pod_subscribe. deaf_list.
Qed.

Lemma sessions_quiet rq subject : subject ∈ sessions ns digest_token rq -> quiet TOOL_POD subject.
Proof.
  pose proof (ns_no_dot ns Hns) as Hnd. intros (name & ->)%session_subject. pose proof (Hdigest name) as Hd. eapply quiet_ns; [toks; reflexivity|].
  revert Hd. generalize (digest_token name). intros d _. vm_compute. reflexivity.
Qed.

(** A token of a pattern widened to any token. *)
Lemma tokens_cover_widen pre t wanted given : Forall literal pre -> literal t -> tokens_cover (pre ++ t :: wanted)%list given = true ->
  tokens_cover (pre ++ "*" :: wanted)%list given = true.
Proof.
  intros Hpre Ht Hc. apply tokens_cover_prefix in Hc as (given' & -> & Hc); [|done]. apply tokens_cover_literal in Hc as (given'' & -> & Hc); [|done].
  induction Hpre as [|u pre [H1%String.eqb_neq H2%String.eqb_neq] _ IH]; cbn [app tokens_cover]; [exact Hc|]. by rewrite H2, String.eqb_refl, orb_true_r.
Qed.

Lemma pipes_quiet p u direction names subjects : UUID_of_string p = Some u -> direction = "up" -> pipe_subjects ns digest_token p direction names = Ok subjects -> Forall (quiet TOOL_POD) subjects.
Proof.
  intros Hp -> H. destruct (uuid_string_token p u Hp) as (Hdot & Hlit & Hseg). pose proof (ns_no_dot ns Hns) as Hnd. unfold seg in Hseg.
  eapply result_all_Forall; [exact H|]. intros name x _ Hx. cbv beta in Hx. unfold pipe_pod_wildcard in Hx. steps Hx.
  apply Ok_inj in Hx as <-. steps E. apply Ok_inj in E as <-. cbn [path]. rewrite Hseg. destruct (Hdigest a0) as [Hd Hl].
  apply (quiet_within _ _ ["pipe"; digest_token a0; p; "*"; "up"] ["pipe"; "*"; "*"; "*"; "up"]); [toks; reflexivity| |vm_compute; reflexivity].
  intros given Hc. apply (tokens_cover_widen ["pipe"] (digest_token a0) ["*"; "*"; "up"]); [by repeat constructor|done|].
  apply (tokens_cover_widen ["pipe"; digest_token a0] p ["*"; "up"]); [|done|done]. constructor; [done|]. by constructor.
Qed.

(** Nobody's list covers a request of another's. *)
Lemma subscribe_quiet principal rq objects permissions : build_permissions ns digest_token principal rq objects = Ok permissions ->
  Forall (quiet principal) (pp_subscribe permissions).
Proof.
  unfold build_permissions. intros H. steps H. assert (Hs : pp_subscribe permissions = pp_subscribe a).
  { destruct objects; [|by apply Ok_inj in H as <-]. steps H. unfold with_object_store in H. steps H. by apply Ok_inj in H as <-. }
  rewrite Hs. clear H Hs G. destruct principal; cbn [RESOLVERS] in E.
  - unfold agent_pod_permissions in E. steps E. apply Ok_inj in E as <-. cbn [pp_subscribe]. apply agent_scope_Ok in E2 as (u & Hu & _). by apply (agent_list _ _ u).
  - unfold tool_pod_permissions in E. steps E. apply Ok_inj in E as <-. cbn [pp_subscribe]. apply tool_scope_Ok in E1 as (u & Hu & _). rewrite !Forall_app. split_and!.
    + by apply (tool_list _ u).
    + apply Forall_forall. intros subject Hin. apply (sessions_quiet rq). unfold sessions. by rewrite E2.
    + by eapply pipes_quiet.
  - unfold registry_permissions in E. steps E. apply Ok_inj in E as <-. apply service_lists.
  - unfold hub_permissions in E. steps E. apply Ok_inj in E as <-. apply service_lists.
  - unfold gateway_permissions in E. steps E. apply Ok_inj in E as <-. apply service_lists.
  - unfold channel_adapter_permissions in E. steps E. apply Ok_inj in E as <-. apply service_lists.
  - unfold agent_router_permissions in E. steps E. apply Ok_inj in E as <-. apply service_lists.
  - unfold dataset_executor_permissions in E. steps E. apply Ok_inj in E as <-. apply service_lists.
Qed.






End Hearing.



(** The registry may publish the usage of an endpoint, which the hub's consumer is documented to subscribe, and nobody may hear it. *)
Lemma endpoint_usage_reaches_nobody ns digest_token principal rq objects permissions : namespace_ok ns = true ->
  (forall name, one_token (digest_token name)) -> build_permissions ns digest_token principal rq objects = Ok permissions ->
  path (hub_endpoint_usage_track ns) ∈ registry_publish ns /\ allows (subscribe_allow permissions) (path (hub_endpoint_usage_track ns)) = false.
Proof.
  intros Hns Hd H. split; [unfold registry_publish; listed|]. apply not_true_is_false. unfold allows, subscribe_allow. rewrite existsb_exists.
  intros (pattern & Hp & Hc). pose proof (subscribe_quiet ns Hns digest_token Hd principal rq objects permissions H) as Hq. rewrite Forall_forall in Hq.
  assert (Hin : ("hub.usage.endpoint", []) ∈ heard_suffixes) by (apply elem_of_app; right; by left).
  rewrite (Hq pattern (proj2 (list_elem_of_In _ _) Hp) "hub.usage.endpoint" [] (path (hub_endpoint_usage_track ns)) Hin) in Hc; [done|by intros ?%elem_of_nil|].
  change (tokens_cover (tokens (ns ++ String "." "hub.usage.endpoint")) (tokens (ns ++ String "." "hub.usage.endpoint")) = true).
  rewrite !(tokens_var ns) by apply (ns_no_dot ns Hns).
  apply tokens_cover_refl. constructor; [by apply ns_literal|]. repeat constructor; done.
Qed.
