(* ===== verification/ResultDelivery.v ===== *)
(** * Delivery of results

    [src/packages/nats/src/threetears/nats/result_delivery.py]: a call too long for the reply inbox is
    answered on a durable subject. The tool pod checks the result subject it was handed, and the registry the
    reply subject, before publishing to it; the theorems put the two checks beside the credentials of
    [Permissions.v] and the policy of [PodPolicy.v]. *)

From Stdlib Require Import Ascii String Bool List NArith ZArith Lia.
From stdpp Require Import base list strings.
From S2P Require Import Prelude PyUuid Namespaces CasStore Subjects Permissions PodPolicy PodIsolation.

Open Scope string_scope.

#[local] Opaque uuid_hex uuid_str UUID_of_string.

(** Seconds, in microseconds. *)
Definition SYNC_REPLY_BUDGET_SECONDS : Z := 30000000.

Definition requires_async_result (timeout_seconds : option Z) : bool :=
  match timeout_seconds with None => true | Some t => (SYNC_REPLY_BUDGET_SECONDS <? t)%Z end.

(** [s.removesuffix(suffix)]. *)
Fixpoint removesuffix (suffix s : string) : string :=
  match s with
  | EmptyString => EmptyString
  | String a s' => if String.eqb s suffix then EmptyString else String a (removesuffix suffix s')
  end.

(** [_is_single_token_under]. *)
Definition is_single_token_under (subject prefix : string) : bool :=
  if starts_with prefix subject then
    let tail := str_drop (String.length prefix) subject in
    str_truthy tail && negb (str_has "." tail) && negb (str_has "*" tail) && negb (str_has ">" tail)
  else false.

Section Delivery.
Variable ns : string.

Definition result_subject_prefix_for_pod (pod_id : string) : string := removesuffix ">" (path (tools_result_pod_wildcard ns pod_id)).

Definition result_subject_is_owned_by_pod (subject pod_id : string) : bool := is_single_token_under subject (result_subject_prefix_for_pod pod_id).

Definition reply_subject_prefix_for_agent (agent_id : string) : string := removesuffix "*" (path (tools_reply_agent_subtree ns agent_id)).

Definition reply_subject_is_owned_by_agent (subject agent_id : string) : bool := is_single_token_under subject (reply_subject_prefix_for_agent agent_id).
End Delivery.

(** ** Lemmas *)

Lemma removesuffix_char s c : removesuffix (String c "") (s ++ String c "") = s.
Proof.
  induction s as [|a s IH]; simpl; [by rewrite Ascii.eqb_refl|].
  destruct (s ++ String c "") as [|b t] eqn:Hs; [by destruct s|]. rewrite <- Hs in *. rewrite IH.
  destruct (Ascii.eqb a c); [|done]. by rewrite Hs.
Qed.

(** A delivery token: what the last token of an accepted subject is. *)
Definition delivery_token (t : string) : Prop := t <> "" /\ str_has "." t = false /\ str_has "*" t = false /\ str_has ">" t = false.

Lemma single_token subject prefix : is_single_token_under subject prefix = true <-> exists t, subject = prefix ++ t /\ delivery_token t.
Proof.
  unfold is_single_token_under, delivery_token. split.
  - destruct (starts_with prefix subject) eqn:Hp; [|done]. apply starts_with_iff in Hp as [t ->]. rewrite str_drop_app, !andb_true_iff, !negb_true_iff, str_truthy_true.
    intros [[[H1 H2] H3] H4]. exists t. by split_and!.
  - intros (t & -> & H1 & H2 & H3 & H4). rewrite (proj2 (starts_with_iff _ _)) by eauto. rewrite str_drop_app, H2, H3, H4, (proj2 (str_truthy_true _)) by done. done.
Qed.

Section Checked.
Context (ns : string) (Hns : namespace_ok ns = true).

Lemma reply_accepted subject agent_id : reply_subject_is_owned_by_agent ns subject agent_id = true
  <-> exists call_id, delivery_token call_id /\ subject = path (tools_reply ns agent_id call_id).
Proof.
  unfold reply_subject_is_owned_by_agent, reply_subject_prefix_for_agent, tools_reply_agent_subtree, tools_reply. cbn [path].
  replace (ns ++ ".tools.reply." ++ sanitize_subject_segment agent_id ++ ".*") with ((ns ++ ".tools.reply." ++ sanitize_subject_segment agent_id ++ ".") ++ "*")
    by (by rewrite !str_app_assoc).
  rewrite removesuffix_char, single_token. split.
  - intros (t & -> & Ht). exists t. split; [done|]. destruct Ht as (_ & Hd & _). rewrite (seg_plain t Hd), !str_app_assoc. done.
  - intros (t & Ht & ->). exists t. split; [|done]. destruct Ht as (_ & Hd & _). rewrite (seg_plain t Hd), !str_app_assoc. done.
Qed.

Lemma result_accepted subject pod_id : result_subject_is_owned_by_pod ns subject pod_id = true
  <-> exists call_id, delivery_token call_id /\ subject = path (tools_result ns pod_id call_id).
Proof.
  unfold result_subject_is_owned_by_pod, result_subject_prefix_for_pod, tools_result_pod_wildcard, tools_result. cbn [path].
  replace (ns ++ ".tools.result." ++ routing_token pod_id ++ ".>") with ((ns ++ ".tools.result." ++ routing_token pod_id ++ ".") ++ ">") by (by rewrite !str_app_assoc).
  rewrite removesuffix_char, single_token. split.
  - intros (t & -> & Ht). exists t. split; [done|]. destruct Ht as (_ & Hd & _). rewrite (seg_plain t Hd), !str_app_assoc. done.
  - intros (t & Ht & ->). exists t. split; [|done]. destruct Ht as (_ & Hd & _). rewrite (seg_plain t Hd), !str_app_assoc. done.
Qed.

Lemma reply_tokens a u call_id : UUID_of_string a = Some u -> delivery_token call_id ->
  split_on "." (path (tools_reply ns a call_id)) = [ns; "tools"; "reply"; a; call_id].
Proof.
  intros Ha (_ & Hd & _). destruct (uuid_string_token a u Ha) as (Hdot & Hlit & Hseg). pose proof (ns_no_dot ns Hns). unfold seg in Hseg.
  unfold tools_reply. cbn [path]. rewrite Hseg, (seg_plain call_id Hd). toks. done.
Qed.

Lemma subtree_tokens a u : UUID_of_string a = Some u -> split_on "." (path (tools_reply_agent_subtree ns a)) = [ns; "tools"; "reply"; a; "*"].
Proof.
  intros Ha. destruct (uuid_string_token a u Ha) as (Hdot & Hlit & Hseg). pose proof (ns_no_dot ns Hns). unfold seg in Hseg.
  unfold tools_reply_agent_subtree. cbn [path]. rewrite Hseg. toks. done.
Qed.

Lemma eqb_ns_literal : String.eqb ns "*" = false /\ String.eqb ns ">" = false.
Proof. destruct (ns_literal ns Hns) as [H1 H2]. by split; apply String.eqb_neq. Qed.

Lemma covers_ns wanted given : tokens_cover (ns :: wanted) (ns :: given) = tokens_cover wanted given.
Proof. cbn [tokens_cover]. destruct eqb_ns_literal as [-> ->]. by rewrite String.eqb_refl. Qed.
End Checked.

(** ** The theorems *)

(** (C35) An answer reaches its caller. The reply subjects the registry accepts for a verified agent are exactly those [tools_reply] builds for it from a
    legal call id; each of them the registry's credential may publish, the agent's consumer on the result stream receives, and no consumer that
    another agent may make receives. *)
Theorem answers_reach_their_caller ns subject a u : namespace_ok ns = true -> UUID_of_string a = Some u ->
  reply_subject_is_owned_by_agent ns subject a = true
  <-> (exists call_id, delivery_token call_id /\ subject = path (tools_reply ns a call_id))
      /\ allows (registry_publish ns) subject = true /\ owner ns subject = Some u
      /\ covers (path (tools_reply_agent_subtree ns a)) subject = true
      /\ (forall b v, UUID_of_string b = Some v -> covers (path (tools_reply_agent_subtree ns b)) subject = true -> b = a).
Proof.
  intros Hns Ha. rewrite reply_accepted. split; [|tauto]. intros (call_id & Ht & ->). split; [eauto|].
  pose proof (reply_tokens ns Hns a u call_id Ha Ht) as Htok. destruct (uuid_string_token a u Ha) as (_ & [Hs Hg] & _). split_and!.
  - unfold allows. apply existsb_exists. exists (path (tools_reply_wildcard ns)). split; [apply list_elem_of_In; unfold registry_publish; listed|].
    unfold covers. rewrite Htok. change (split_on "." (path (tools_reply_wildcard ns))) with (split_on "." (ns ++ ".tools.reply.*.*")).
    pose proof (ns_no_dot ns Hns). toks. by rewrite covers_ns.
  - unfold owner. rewrite Htok. by apply bus_prefix.
  - unfold covers. rewrite Htok, (subtree_tokens ns Hns a u Ha), covers_ns by done. cbn [tokens_cover]. apply String.eqb_neq in Hs as ->, Hg as ->.
    by rewrite !String.eqb_refl.
  - intros b v Hb. unfold covers. rewrite Htok, (subtree_tokens ns Hns b v Hb), covers_ns by done. destruct (uuid_string_token b v Hb) as (_ & [Hbs Hbg] & _).
    cbn [tokens_cover]. apply String.eqb_neq in Hbs as ->, Hbg as ->. cbn [orb].
    destruct (String.eqb_spec b a) as [|]; [done|]. by rewrite !andb_false_r.
Qed.

Lemma answers_reach_their_caller_witness :
  reply_subject_is_owned_by_agent "3tears" ("3tears.tools.reply." ++ agent_a1 ++ ".call-7") agent_a1 = true
  /\ covers (path (tools_reply_agent_subtree "3tears" agent_b2)) ("3tears.tools.reply." ++ agent_a1 ++ ".call-7") = false.
Proof.
  assert (Hok : reply_subject_is_owned_by_agent "3tears" ("3tears.tools.reply." ++ agent_a1 ++ ".call-7") agent_a1 = true) by (vm_compute; reflexivity).
  split; [exact Hok|]. apply not_true_is_false. intros Hc.
  destruct (proj1 (answers_reach_their_caller "3tears" _ agent_a1 161%N ltac:(vm_compute; reflexivity) ltac:(vm_compute; reflexivity)) Hok) as (_ & _ & _ & _ & Hb).
  assert (Hv : UUID_of_string agent_b2 = Some 178%N) by (vm_compute; reflexivity). discriminate (Hb agent_b2 178%N Hv Hc).
Defined.

(** A result subject a tool pod accepts is one its own credential may publish, whatever else was declared or granted, and it is the pod's. *)
Theorem accepted_results_are_publishable ns digest_token rq objects permissions allow p u subject : namespace_ok ns = true ->
  build_permissions ns digest_token TOOL_POD rq objects = Ok permissions -> publish_allow permissions = Ok allow ->
  rq_pod_id rq = Some p -> UUID_of_string p = Some u -> result_subject_is_owned_by_pod ns subject p = true ->
  allows allow subject = true /\ owner ns subject = Some u.
Proof.
  intros Hns Hbuild Hallow Hrq Hp Hacc. apply result_accepted in Hacc as (call_id & Ht & ->). destruct Ht as (_ & Hd & _).
  destruct (uuid_string_token p u Hp) as (Hdot & Hlit & _). pose proof (ns_no_dot ns Hns) as Hnd.
  assert (Htok : split_on "." (path (tools_result ns p call_id)) = [ns; "tools"; "result"; p; call_id]).
  { unfold tools_result. cbn [path]. rewrite routing_token_id, (seg_plain call_id Hd). toks. done. }
  assert (Hin : path (tools_result_pod_wildcard ns p) ∈ pp_publish permissions).
  { unfold build_permissions in Hbuild. cbn [RESOLVERS] in Hbuild. steps Hbuild.
    assert (Hpub : path (tools_result_pod_wildcard ns p) ∈ pp_publish a).
    { unfold tool_pod_permissions in E. steps E. apply require_Ok in E0 as [Hr _]. assert (a0 = p) as -> by congruence. apply Ok_inj in E as <-.
      cbn [pp_publish]. rewrite !elem_of_app. left. left. unfold tool_pod_publish. listed. }
    destruct objects; [|by apply Ok_inj in Hbuild as <-]. steps Hbuild. unfold with_object_store in Hbuild. steps Hbuild. apply Ok_inj in Hbuild as <-.
    cbn [pp_publish]. rewrite elem_of_app. by left. }
  split.
  - unfold publish_allow in Hallow. steps Hallow. apply Ok_inj in Hallow as <-. unfold allows. rewrite !existsb_app. apply orb_true_iff. left.
    apply existsb_exists. exists (path (tools_result_pod_wildcard ns p)). split; [by apply list_elem_of_In|]. unfold covers. rewrite Htok.
    unfold tools_result_pod_wildcard. cbn [path]. rewrite routing_token_id. toks. rewrite covers_ns by done. destruct Hlit as [Hs Hg].
    cbn [tokens_cover]. apply String.eqb_neq in Hs as ->, Hg as ->. by rewrite !String.eqb_refl.
  - unfold owner. rewrite Htok. by apply bus_prefix.
Qed.

Lemma accepted_results_are_publishable_witness : exists allow, publish_allow tool_permissions = Ok allow
  /\ allows allow ("3tears.tools.result." ++ pod_c3 ++ ".call-7") = true.
Proof.
  destruct (publish_allow tool_permissions) as [allow|] eqn:Hal; [|exfalso; vm_compute in Hal; discriminate Hal]. exists allow. split; [reflexivity|].
  apply (accepted_results_are_publishable "3tears" digest_by_length tool_request true tool_permissions allow pod_c3 195%N _);
    [vm_compute; reflexivity|vm_compute; reflexivity|exact Hal|reflexivity|vm_compute; reflexivity|vm_compute; reflexivity].
Defined.
