(* ===== verification/EpochClient.v ===== *)
(** * The epoch client and its copies of durable epochs

    [src/packages/epoch/src/threetears/epoch/client.py]: an epoch counts the changes of a configuration. A
    durable one is a row of [config_epochs], moved by [bump] and [advance_to]; a client keeps copies of rows
    ([versions] with [cached]) for the subjects a listener follows, and drops them on the broadcasts of other
    processes. A coroutine is split at its awaits: the part before the statement, the statement, the part
    after it. [eapply] runs one event of one process among the others, and the events of a run come in any
    order: statements of other processes, answers in flight, broadcasts late, repeated or lost. *)

From Stdlib Require Import Ascii String Bool List ZArith Lia.
From stdpp Require Import base list gmap strings relations.
From S2P Require Import Prelude PyUuid Namespaces Subjects.

Open Scope string_scope.
Open Scope Z_scope.

(** ** Subjects *)

(** [p in s] for strings. *)
Fixpoint str_contains (p s : string) : bool :=
  starts_with p s || match s with EmptyString => false | String _ s' => str_contains p s' end.

(** [s.endswith(p)]. *)
Fixpoint ends_with (p s : string) : bool :=
  String.eqb p s || match s with EmptyString => false | String _ s' => ends_with p s' end.

(** The markers of [_DURABLE_FAMILIES]. *)
Definition DURABLE_FAMILIES : list string := [".tiles."].

Definition is_durable (path : string) : bool :=
  if negb (ends_with ".epoch" path) then false else existsb (fun marker => str_contains marker path) DURABLE_FAMILIES.

Definition is_wildcard (path : string) : bool := str_has "*" path || ends_with ">" path.

(** ** Rows *)

Record DurableEpoch := mkDurable { de_epoch : Z; de_previous : option Z }.

#[export] Instance DurableEpoch_eq_dec : EqDecision DurableEpoch.
Proof. solve_decision. Defined.

(** [config_epochs], by subject path; the payload of a row is opaque and left out. *)
Abbreviation table := (gmap string DurableEpoch).

Definition NEVER_MOVED : DurableEpoch := mkDurable 0 None.

(** What [versions] makes of the row it read. *)
Definition row_versions (row : option DurableEpoch) : DurableEpoch := default NEVER_MOVED row.

(** [_BUMP_SQL]. *)
Definition bump_row (db : table) (path : string) : DurableEpoch :=
  match db !! path with
  | None => mkDurable 1 None
  | Some row => mkDurable (de_epoch row + 1) (Some (de_epoch row))
  end.

(** [_ADVANCE_SQL]: the row written, or [None] where none is returned. *)
Definition advance_row (db : table) (path : string) (epoch : Z) : option DurableEpoch :=
  match db !! path with
  | None => Some (mkDurable epoch None)
  | Some row => if de_epoch row <? epoch then Some (mkDurable epoch (Some (de_epoch row))) else None
  end.

(** [_CURRENT_SQL], as [current] reads it. *)
Definition current_row (db : table) (path : string) : Z := match db !! path with None => 0 | Some row => de_epoch row end.

(** ** The client *)

Record EpochClient := mkClient {
  ec_versions : gmap string DurableEpoch;
  ec_followed : gset string;
  ec_versions_reads : gmap string (gset nat);
  ec_warned_unfollowed : bool;
  ec_objects : nat;  (** the next fresh [object()] *)
}.

Definition EpochClient_init : EpochClient := mkClient ∅ ∅ ∅ false 0.

Definition with_versions (v : gmap string DurableEpoch) (c : EpochClient) : EpochClient :=
  mkClient v (ec_followed c) (ec_versions_reads c) (ec_warned_unfollowed c) (ec_objects c).
Definition with_reads (r : gmap string (gset nat)) (c : EpochClient) : EpochClient :=
  mkClient (ec_versions c) (ec_followed c) r (ec_warned_unfollowed c) (ec_objects c).

(** [_is_followed]. *)
Definition is_followed (c : EpochClient) (path : string) : bool :=
  bool_decide (path ∈ ec_followed c) || existsb (fun pattern => covers pattern path) (elements (ec_followed c)).

(** Whether a read may still store what it brings back. *)
Definition read_live (c : EpochClient) (path : string) (read : nat) : bool := bool_decide (read ∈ default ∅ (ec_versions_reads c !! path)).

(** [_end_versions_read]. *)
Definition end_versions_read (c : EpochClient) (path : string) (read : nat) : bool * EpochClient :=
  match ec_versions_reads c !! path with
  | None => (false, c)
  | Some reads =>
      if bool_decide (read ∈ reads) then
        let reads := reads ∖ {[read]} in
        (true, with_reads (if bool_decide (reads = ∅) then delete path (ec_versions_reads c) else <[path := reads]> (ec_versions_reads c)) c)
      else (false, c)
  end.

(** [_remember_versions]. *)
Definition remember_versions (c : EpochClient) (path : string) (value : DurableEpoch) : EpochClient :=
  let c := with_reads (delete path (ec_versions_reads c)) c in
  if is_followed c path then with_versions (<[path := value]> (ec_versions c)) c else c.

(** [_forget_versions]. *)
Definition forget_versions (c : EpochClient) (path : string) : EpochClient :=
  with_versions (delete path (ec_versions c)) (with_reads (delete path (ec_versions_reads c)) c).

Definition observe_subscription (c : EpochClient) (pattern : string) : EpochClient :=
  mkClient (ec_versions c) ({[pattern]} ∪ ec_followed c) ∅ (ec_warned_unfollowed c) (ec_objects c).

(** [observe_broadcast] of a message that names [path] and [epoch]. *)
Definition observe_broadcast (c : EpochClient) (path : string) (epoch : Z) : EpochClient :=
  match ec_versions c !! path with
  | None => forget_versions c path
  | Some held => if de_epoch held <? epoch then forget_versions c path else c
  end.

(** [versions] up to its statement: the copy, or the read it begins. *)
Definition versions_begin (c : EpochClient) (path : string) (cached : bool) : (DurableEpoch + nat) * EpochClient :=
  match (if cached then ec_versions c !! path else None) with
  | Some held => (inl held, c)
  | None =>
      let warned := ec_warned_unfollowed c || (cached && negb (is_followed c path)) in
      let read := ec_objects c in
      let reads := {[read]} ∪ default ∅ (ec_versions_reads c !! path) in
      (inr read, mkClient (ec_versions c) (ec_followed c) (<[path := reads]> (ec_versions_reads c)) warned (S read))
  end.

(** [versions] after its statement. *)
Definition versions_end (c : EpochClient) (path : string) (read : nat) (row : option DurableEpoch) : DurableEpoch * EpochClient :=
  let '(unchanged, c) := end_versions_read c path read in
  let result := row_versions row in
  (result, if unchanged && is_followed c path then with_versions (<[path := result]> (ec_versions c)) c else c).

(** [current] of a durable subject after its statement. *)
Definition current_end (c : EpochClient) (path : string) (epoch : Z) : Z * EpochClient :=
  match ec_versions c !! path with
  | Some held => if de_epoch held =? epoch then (epoch, c) else (epoch, forget_versions c path)
  | None => (epoch, c)
  end.

(** [bump] of a durable subject after its statement. *)
Definition bump_end (c : EpochClient) (path : string) (epoch : Z) : Z * EpochClient := (epoch, forget_versions c path).

(** What a call is refused for before it does anything. *)
Inductive epoch_error := EpochValueError.

Definition advance_guard (path : string) (epoch : Z) : result unit epoch_error :=
  raise_if! negb (is_durable path) with EpochValueError;;
  raise_if! epoch <? 1 with EpochValueError;;
  Ok tt.

Definition versions_guard (path : string) : result unit epoch_error :=
  raise_if! negb (is_durable path) with EpochValueError;; Ok tt.

(** ** One process among others *)

(** A call the process has in progress: its statement sent, or answered. *)
Inductive ecall :=
| VersionsSent (path : string) (read : nat)
| VersionsGot (path : string) (read : nat) (row : option DurableEpoch)
| CurrentSent (path : string)
| CurrentGot (path : string) (epoch : Z)
| BumpSent (path : string)
| BumpGot (path : string) (epoch : Z)
| AdvanceSent (path : string) (epoch : Z)
| AdvanceGot (path : string) (row : option DurableEpoch).

Record esys := mkSys {
  es_db : table;
  es_client : EpochClient;
  es_calls : gmap nat ecall;
  es_signals : list (string * Z);  (** the broadcasts of moves this process has still to hear *)
  es_moves : list (string * DurableEpoch);  (** every row written since the start, the latest first *)
}.

Definition with_client (c : EpochClient) (s : esys) : esys := mkSys (es_db s) c (es_calls s) (es_signals s) (es_moves s).
Definition with_call (id : nat) (k : ecall) (s : esys) : esys := mkSys (es_db s) (es_client s) (<[id := k]> (es_calls s)) (es_signals s) (es_moves s).
Definition end_call (id : nat) (s : esys) : esys := mkSys (es_db s) (es_client s) (delete id (es_calls s)) (es_signals s) (es_moves s).
Definition with_signals (l : list (string * Z)) (s : esys) : esys := mkSys (es_db s) (es_client s) (es_calls s) l (es_moves s).

(** A row is written: whoever wrote it, its broadcast is to come. *)
Definition move (path : string) (row : DurableEpoch) (s : esys) : esys :=
  mkSys (<[path := row]> (es_db s)) (es_client s) (es_calls s) ((path, de_epoch row) :: es_signals s) ((path, row) :: es_moves s).

Definition unsignal (path : string) (epoch : Z) (l : list (string * Z)) : list (string * Z) :=
  List.filter (fun x => negb (String.eqb x.1 path && (x.2 =? epoch))) l.

Inductive erequest :=
| ReqVersions (path : string) (cached : bool)
| ReqCurrent (path : string)
| ReqBump (path : string)
| ReqAdvance (path : string) (epoch : Z).

Inductive event :=
| OtherBump (path : string)
| OtherAdvance (path : string) (epoch : Z)
| Begin (id : nat) (rq : erequest)
| Statement (id : nat)
| Raise (id : nat)
| Finish (id : nat)
| Deliver (path : string) (epoch : Z)
| Lose (path : string) (epoch : Z)
| Subscribe (pattern : string).

(** The call a request starts; [None] where it is refused or the copy answers it. *)
Definition ebegin (rq : erequest) (c : EpochClient) : option (ecall * EpochClient) :=
  match rq with
  | ReqVersions path cached =>
      if is_durable path then match versions_begin c path cached with (inr read, c') => Some (VersionsSent path read, c') | (inl _, _) => None end
      else None
  | ReqCurrent path => if negb (is_wildcard path) && is_durable path then Some (CurrentSent path, c) else None
  | ReqBump path => if is_durable path then Some (BumpSent path, c) else None
  | ReqAdvance path epoch => match advance_guard path epoch with Ok _ => Some (AdvanceSent path epoch, c) | Err _ => None end
  end.

Definition estatement (id : nat) (k : ecall) (s : esys) : option esys :=
  match k with
  | VersionsSent path read => Some (with_call id (VersionsGot path read (es_db s !! path)) s)
  | CurrentSent path => Some (with_call id (CurrentGot path (current_row (es_db s) path)) s)
  | BumpSent path => let row := bump_row (es_db s) path in Some (with_call id (BumpGot path (de_epoch row)) (move path row s))
  | AdvanceSent path epoch =>
      match advance_row (es_db s) path epoch with
      | Some row => Some (with_call id (AdvanceGot path (Some row)) (move path row s))
      | None => Some (with_call id (AdvanceGot path None) s)
      end
  | _ => None
  end.

(** The statement raises, before it ran or after: [versions] ends its read all the same; a move that was made and not answered is
    not broadcast. *)
Definition eraise (id : nat) (k : ecall) (s : esys) : esys :=
  match k with
  | VersionsSent path read | VersionsGot path read _ => end_call id (with_client (end_versions_read (es_client s) path read).2 s)
  | BumpGot path epoch => end_call id (with_signals (unsignal path epoch (es_signals s)) s)
  | AdvanceGot path (Some row) => end_call id (with_signals (unsignal path (de_epoch row) (es_signals s)) s)
  | _ => end_call id s
  end.

Definition efinish (id : nat) (k : ecall) (s : esys) : option esys :=
  match k with
  | VersionsGot path read row => Some (end_call id (with_client (versions_end (es_client s) path read row).2 s))
  | CurrentGot path epoch => Some (end_call id (with_client (current_end (es_client s) path epoch).2 s))
  | BumpGot path epoch => Some (end_call id (with_client (bump_end (es_client s) path epoch).2 s))
  | AdvanceGot path (Some row) => Some (end_call id (with_client (remember_versions (es_client s) path row) s))
  | AdvanceGot path None =>
      match versions_begin (es_client s) path false with
      | (inr read, c) => Some (with_call id (VersionsSent path read) (with_client c s))
      | (inl _, _) => None
      end
  | _ => None
  end.

Definition eapply (e : event) (s : esys) : option esys :=
  match e with
  | OtherBump path => Some (move path (bump_row (es_db s) path) s)
  | OtherAdvance path epoch =>
      if epoch <? 1 then None else match advance_row (es_db s) path epoch with Some row => Some (move path row s) | None => Some s end
  | Begin id rq =>
      match es_calls s !! id, ebegin rq (es_client s) with
      | None, Some (k, c) => Some (with_call id k (with_client c s))
      | _, _ => None
      end
  | Statement id => k ← es_calls s !! id; estatement id k s
  | Raise id => k ← es_calls s !! id; Some (eraise id k s)
  | Finish id => k ← es_calls s !! id; efinish id k s
  | Deliver path epoch => Some (with_signals (unsignal path epoch (es_signals s)) (with_client (observe_broadcast (es_client s) path epoch) s))
  | Lose path epoch => Some (with_signals (unsignal path epoch (es_signals s)) s)
  | Subscribe pattern => Some (with_client (observe_subscription (es_client s) pattern) s)
  end.

Fixpoint erun (l : list event) (s : esys) : option esys :=
  match l with
  | [] => Some s
  | e :: l => s' ← eapply e s; erun l s'
  end.

Definition esys_init (db : table) : esys := mkSys db EpochClient_init ∅ [] [].

(** *** Two runs that leave a copy behind *)

Definition tiles : string := "3tears.datasource.d1.tiles.roads.epoch".

Definition tiles_at_five : esys := esys_init {[tiles := mkDurable 5 (Some 4)]}.

(** A slow read writes over a newer copy. One read takes the row; the row moves; a second read takes it and keeps it; the broadcast finds a
    copy as new as itself and lets the slow read live; the slow read then stores the old row, and no broadcast is left to drop it. *)
Definition slow_read : list event :=
  [Subscribe tiles; Begin 1 (ReqVersions tiles true); Statement 1; OtherBump tiles; Begin 2 (ReqVersions tiles true); Statement 2; Finish 2;
   Deliver tiles 6; Finish 1].

Definition left_behind (s : esys) : bool :=
  match ec_versions (es_client s) !! tiles, es_db s !! tiles with
  | Some held, Some row => (de_epoch held <? de_epoch row) && match es_signals s with [] => true | _ => false end && bool_decide (es_calls s = ∅)
  | _, _ => false
  end.

Lemma slow_read_overwrites_a_newer_copy : (left_behind <$> erun slow_read tiles_at_five) = Some true.
Proof. vm_compute. reflexivity. Qed.

(** An advance that was overtaken remembers itself. The process moves the row; before it hears the answer another moves it on, and that
    broadcast arrives; the answer then stores the row as the process left it. *)
Definition overtaken_advance : list event :=
  [Subscribe tiles; Begin 1 (ReqAdvance tiles 7); Statement 1; OtherAdvance tiles 8; Deliver tiles 8; Finish 1; Deliver tiles 7].

Lemma overtaken_advance_is_remembered : (left_behind <$> erun overtaken_advance tiles_at_five) = Some true.
Proof. vm_compute. reflexivity. Qed.

(** ** Copies are never silently stale *)

Definition is_reading (k : ecall) (path : string) : bool :=
  match k with VersionsSent p _ | VersionsGot p _ _ => String.eqb p path | _ => false end.

(** An advance whose answer is awaited, when the subject has a later epoch. *)
Definition overtaken (path : string) (epoch : Z) (k : ecall) : bool :=
  match k with AdvanceGot p (Some row) => String.eqb p path && (de_epoch row <? epoch) | _ => false end.

Definition no_call (f : ecall -> string -> bool) (path : string) (s : esys) : Prop := map_Forall (fun _ k => f k path = false) (es_calls s).

(** A run without the two races above and without a lost broadcast: the reads of one subject do not overlap; between the statement of an advance and its
    answer no broadcast of a later move of the subject arrives, and no subscription begins to follow the subject once it has moved on; and no broadcast on a
    followed subject is lost, on its way or because the answer of the move it was to announce was lost. *)
Definition careful (e : event) (s : esys) : Prop :=
  match e with
  | Begin _ (ReqVersions path _) => no_call is_reading path s
  | Finish id => match es_calls s !! id with Some (AdvanceGot path None) => no_call is_reading path s | _ => True end
  | Deliver path epoch => map_Forall (fun _ k => overtaken path epoch k = false) (es_calls s)
  | Subscribe _ => map_Forall (fun _ k => match k with AdvanceGot path (Some row) => is_followed (es_client s) path = true \/ es_db s !! path = Some row | _ => True end) (es_calls s)
  | Raise id => match es_calls s !! id with Some (BumpGot path _) | Some (AdvanceGot path (Some _)) => is_followed (es_client s) path = false | _ => True end
  | Lose path _ => is_followed (es_client s) path = false
  | _ => True
  end.

#[export] Instance no_call_dec f path s : Decision (no_call f path s).
Proof. unfold no_call. apply _. Defined.

#[export] Instance careful_dec e s : Decision (careful e s).
Proof.
  destruct e as [| |? []| |i|i| | |]; cbn; try apply _.
  - destruct (es_calls s !! i) as [[| | | | | | |? []]|]; apply _.
  - destruct (es_calls s !! i) as [[| | | | | | |? []]|]; apply _.
  - apply map_Forall_dec. intros i [| | | | | | |? []]; apply _.
Defined.

Definition estep (s s' : esys) : Prop := exists e, eapply e s = Some s'.
Definition careful_step (s s' : esys) : Prop := exists e, careful e s /\ eapply e s = Some s'.

Definition row_of (db : table) (path : string) : DurableEpoch := row_versions (db !! path).

(** The value is the row's, or the broadcast of the row's latest move is still to come. *)
Definition fresh (db : table) (signals : list (string * Z)) (v : DurableEpoch) (path : string) : Prop :=
  v = row_of db path \/ (de_epoch v < de_epoch (row_of db path) /\ (path, de_epoch (row_of db path)) ∈ signals).

Definition table_ok (db : table) : Prop := forall path row, db !! path = Some row -> 1 <= de_epoch row.

Record einv (db : table) (signals : list (string * Z)) (c : EpochClient) (calls : gmap nat ecall) : Prop := mkInv {
  inv_db : table_ok db;
  inv_copy : forall p v, ec_versions c !! p = Some v -> is_followed c p = true /\ fresh db signals v p;
  inv_read : forall id p t row, calls !! id = Some (VersionsGot p t row) -> read_live c p t = true -> is_followed c p = true ->
    fresh db signals (row_versions row) p /\ (forall h, ec_versions c !! p = Some h -> de_epoch h <= de_epoch (row_versions row));
  inv_adv : forall id p r, calls !! id = Some (AdvanceGot p (Some r)) -> is_followed c p = true -> fresh db signals r p;
  inv_one : forall i j k1 k2 p, calls !! i = Some k1 -> calls !! j = Some k2 -> is_reading k1 p = true -> is_reading k2 p = true -> i = j;
}.

Lemma fresh_le db signals v p : fresh db signals v p -> de_epoch v <= de_epoch (row_of db p).
Proof. intros [->|[? _]]; lia. Qed.

Lemma fresh_move db signals v p q row : de_epoch (row_of db q) < de_epoch row -> fresh db signals v p ->
  fresh (<[q := row]> db) ((q, de_epoch row) :: signals) v p.
Proof.
  intros Hlt Hf. unfold fresh, row_of in *. destruct (decide (q = p)) as [->|Hne].
  - rewrite lookup_insert_eq. change (row_versions (Some row)) with row. right. split; [|left]. destruct Hf as [->|[? _]]; lia.
  - rewrite lookup_insert_ne by done. destruct Hf as [->|[? ?]]; [by left|]. right. split; [done|]. by apply list_elem_of_further.
Qed.

Lemma elem_of_unsignal p x q e l : (p, x) ∈ unsignal q e l <-> (p, x) ∈ l /\ (p, x) <> (q, e).
Proof.
  unfold unsignal. rewrite !list_elem_of_In, filter_In. cbn [fst snd]. split; intros [Hin H]; (split; [done|]).
  - intros [= -> ->]. rewrite String.eqb_refl, Z.eqb_refl in H. done.
  - apply negb_true_iff, andb_false_iff. destruct (String.eqb_spec p q) as [->|]; [right|by left]. apply Z.eqb_neq. congruence.
Qed.

Lemma fresh_unsignal db signals v p q e : (p, de_epoch (row_of db p)) <> (q, e) -> fresh db signals v p -> fresh db (unsignal q e signals) v p.
Proof. intros Hne [->|[? ?]]; [by left|]. right. split; [done|]. by apply elem_of_unsignal. Qed.

(** The signals of the paths nobody follows do not matter. *)
Lemma inv_signals db signals signals' c calls : einv db signals c calls ->
  (forall v p, is_followed c p = true -> fresh db signals v p -> fresh db signals' v p) -> einv db signals' c calls.
Proof.
  intros [H1 H2 H3 H4 H5] Hf. split; [done| | | |done].
  - intros p v Hv. destruct (H2 p v Hv). split; [done|]. by apply Hf.
  - intros id p t row Hid Hl Hfo. destruct (H3 id p t row Hid Hl Hfo). split; [by apply Hf|done].
  - intros id p r Hid Hfo. apply Hf; [done|]. by eapply H4.
Qed.

(** A client that follows the same, holds no other copy and lets no other read live. *)
Lemma inv_weaken db signals c c' calls : einv db signals c calls -> ec_followed c' = ec_followed c ->
  (forall p v, ec_versions c' !! p = Some v -> ec_versions c !! p = Some v) -> (forall p t, read_live c' p t = true -> read_live c p t = true) ->
  einv db signals c' calls.
Proof.
  intros [H1 H2 H3 H4 H5] Hfo Hv Hl. assert (Hf : forall p, is_followed c' p = is_followed c p) by (intros p; unfold is_followed; by rewrite Hfo).
  split; [done| | | |done].
  - intros p v Hp. rewrite Hf. by apply H2, Hv.
  - intros id p t row Hid Hlive. rewrite Hf. intros Hp. destruct (H3 id p t row Hid (Hl _ _ Hlive) Hp) as [Ha Hb]. split; [done|]. intros h Hh. by apply Hb, Hv.
  - intros id p r Hid. rewrite Hf. by eapply H4.
Qed.

Lemma inv_forget db signals c calls q : einv db signals c calls -> einv db signals (forget_versions c q) calls.
Proof.
  intros H. eapply inv_weaken; [done|done| |]; cbn.
  - intros p v. by intros [_ ?]%lookup_delete_Some.
  - intros p t. unfold read_live. cbn. destruct (decide (q = p)) as [->|Hne]; [by rewrite lookup_delete_eq|by rewrite lookup_delete_ne].
Qed.

Lemma end_read_weakens c p t b c' : end_versions_read c p t = (b, c') ->
  ec_followed c' = ec_followed c /\ ec_versions c' = ec_versions c /\ (forall q u, read_live c' q u = true -> read_live c q u = true)
  /\ (b = true -> read_live c p t = true) /\ ec_objects c' = ec_objects c.
Proof.
  unfold end_versions_read, read_live. destruct (ec_versions_reads c !! p) as [reads|] eqn:Hr; [|by intros [= <- <-]].
  case_bool_decide as Ht; [|by intros [= <- <-]]. intros [= <- <-]. split_and!; [done|done| |intros _; by apply bool_decide_eq_true|done].
  intros q u. cbn. rewrite !bool_decide_eq_true. destruct (decide (p = q)) as [->|Hne].
  - rewrite Hr. cbn. case_bool_decide; [rewrite lookup_delete_eq; cbn; set_solver|rewrite lookup_insert_eq; cbn; set_solver].
  - case_bool_decide; [by rewrite lookup_delete_ne|by rewrite lookup_insert_ne].
Qed.

Lemma inv_delete_call db signals c calls id : einv db signals c calls -> einv db signals c (delete id calls).
Proof.
  intros [H1 H2 H3 H4 H5]. split; [done|done| | |].
  - intros i p t row [_ Hi]%lookup_delete_Some. by eapply H3.
  - intros i p r [_ Hi]%lookup_delete_Some. by eapply H4.
  - intros i j k1 k2 p [_ Hi]%lookup_delete_Some [_ Hj]%lookup_delete_Some. by eapply H5.
Qed.

(** A call enters a state that promises nothing about rows. *)
Lemma inv_set_call db signals c calls id k : einv db signals c calls ->
  (forall p t row, k = VersionsGot p t row -> read_live c p t = true -> is_followed c p = true ->
     fresh db signals (row_versions row) p /\ (forall h, ec_versions c !! p = Some h -> de_epoch h <= de_epoch (row_versions row))) ->
  (forall p r, k = AdvanceGot p (Some r) -> is_followed c p = true -> fresh db signals r p) ->
  (forall p j k', is_reading k p = true -> calls !! j = Some k' -> is_reading k' p = true -> j = id) ->
  einv db signals c (<[id := k]> calls).
Proof.
  intros [H1 H2 H3 H4 H5] Hread Hadv Hone. split; [done|done| | |].
  - intros i p t row [[_ ->]|[_ Hi]]%lookup_insert_Some; [by apply Hread|by eapply H3].
  - intros i p r [[_ ->]|[_ Hi]]%lookup_insert_Some; [by apply Hadv|by eapply H4].
  - intros i j k1 k2 p Hi Hj Hk1 Hk2. apply lookup_insert_Some in Hi as [[-> ->]|[_ Hi]]; apply lookup_insert_Some in Hj as [[-> ->]|[_ Hj]]; [done| | |by eapply H5].
    + symmetry. by eapply Hone.
    + by eapply Hone.
Qed.

(** *** Preservation *)

Definition sys_inv (s : esys) : Prop := einv (es_db s) (es_signals s) (es_client s) (es_calls s).

Lemma inv_move s q row : sys_inv s -> de_epoch (row_of (es_db s) q) < de_epoch row -> 1 <= de_epoch row -> sys_inv (move q row s).
Proof.
  intros [H1 H2 H3 H4 H5] Hlt Hpos. unfold sys_inv, move. cbn. split; [| | | |done].
  - intros p r. rewrite lookup_insert_Some. intros [[_ <-]|[_ Hp]]; [done|by eapply H1].
  - intros p v Hv. destruct (H2 p v Hv). split; [done|]. by apply fresh_move.
  - intros id p t r Hid Hl Hf. destruct (H3 id p t r Hid Hl Hf). split; [by apply fresh_move|done].
  - intros id p r Hid Hf. apply fresh_move; [done|]. by eapply H4.
Qed.

Lemma bump_row_moves db q : table_ok db -> de_epoch (row_of db q) < de_epoch (bump_row db q) /\ 1 <= de_epoch (bump_row db q).
Proof. intros Hok. unfold row_of, bump_row, row_versions. destruct (db !! q) as [row|] eqn:Hq; cbn; [specialize (Hok q row Hq); lia|lia]. Qed.

Lemma advance_row_moves db q e row : 1 <= e -> advance_row db q e = Some row -> de_epoch (row_of db q) < de_epoch row /\ 1 <= de_epoch row.
Proof.
  intros He. unfold row_of, advance_row, row_versions. destruct (db !! q) as [r|]; cbn; [|intros [= <-]; cbn; lia].
  destruct (Z.ltb_spec (de_epoch r) e); [|done]. intros [= <-]. cbn. lia.
Qed.

Lemma inv_deliver s q e : sys_inv s -> careful (Deliver q e) s ->
  einv (es_db s) (unsignal q e (es_signals s)) (observe_broadcast (es_client s) q e) (es_calls s).
Proof.
  intros H Hadv. set (R := de_epoch (row_of (es_db s) q)). destruct (decide (e = R)) as [->|Hne].
  2: { apply (inv_signals _ (es_signals s)); [|intros v p _; apply fresh_unsignal; intros [= -> <-]; by apply Hne].
       unfold observe_broadcast. destruct (ec_versions (es_client s) !! q) as [h|]; [destruct (_ <? _)|]; [by apply inv_forget|done|by apply inv_forget]. }
  assert (Hother : forall v p, p <> q -> fresh (es_db s) (es_signals s) v p -> fresh (es_db s) (unsignal q R (es_signals s)) v p)
    by (intros v p Hp; apply fresh_unsignal; intros [= -> _]; by apply Hp).
  assert (Hown : forall v, R <= de_epoch v -> fresh (es_db s) (es_signals s) v q -> fresh (es_db s) (unsignal q R (es_signals s)) v q)
    by (intros v Hv [->|[Hlt _]]; [by left|unfold R in Hv; lia]).
  assert (Hlate : forall id r, es_calls s !! id = Some (AdvanceGot q (Some r)) -> R <= de_epoch r).
  { intros id r Hid. specialize (Hadv id _ Hid). cbn in Hadv. rewrite String.eqb_refl in Hadv. cbn in Hadv. by apply Z.ltb_ge in Hadv. }
  assert (Hforget : einv (es_db s) (unsignal q R (es_signals s)) (forget_versions (es_client s) q) (es_calls s)).
  { pose proof (inv_forget _ _ _ _ q H) as [H1 H2 H3 H4 H5]. split; [done| | | |done].
    - intros p v Hv. destruct (H2 p v Hv) as [Hf Hfr]. split; [done|]. apply Hother; [|done]. intros ->. cbn in Hv. by rewrite lookup_delete_eq in Hv.
    - intros id p t row Hid Hl Hf. destruct (H3 id p t row Hid Hl Hf) as [Hfr Hh]. split; [|done]. apply Hother; [|done].
      intros ->. unfold read_live in Hl. cbn in Hl. by rewrite lookup_delete_eq in Hl.
    - intros id p r Hid Hf. destruct (decide (p = q)) as [->|]; [|apply Hother; [done|by eapply H4]]. apply Hown; [by apply (Hlate id)|by eapply H4]. }
  unfold observe_broadcast. destruct (ec_versions (es_client s) !! q) as [h|] eqn:Hh; [|done].
  destruct (Z.ltb_spec (de_epoch h) R) as [Hlt|Hge]; [done|]. destruct H as [H1 H2 H3 H4 H5]. split; [done| | | |done].
  - intros p v Hv. destruct (H2 p v Hv) as [Hf Hfr]. split; [done|]. destruct (decide (p = q)) as [->|]; [|by apply Hother].
    assert (v = h) as -> by congruence. by apply Hown.
  - intros id p t row Hid Hl Hf. destruct (H3 id p t row Hid Hl Hf) as [Hfr Hheld]. split; [|done]. destruct (decide (p = q)) as [->|]; [|by apply Hother].
    specialize (Hheld h Hh). apply Hown; [lia|done].
  - intros id p r Hid Hf. destruct (decide (p = q)) as [->|]; [|apply Hother; [done|by eapply H4]].
    apply Hown; [by apply (Hlate id)|by eapply H4].
Qed.

Lemma followed_grows c pattern p : is_followed c p = true -> is_followed (observe_subscription c pattern) p = true.
Proof.
  unfold is_followed. cbn. rewrite !orb_true_iff, !bool_decide_eq_true, !existsb_exists. intros [Hp|(x & Hx & Hc)]; [left; set_solver|right].
  exists x. split; [|done]. apply list_elem_of_In, elem_of_elements. apply list_elem_of_In, elem_of_elements in Hx. set_solver.
Qed.

Lemma inv_subscribe s pattern : sys_inv s -> careful (Subscribe pattern) s ->
  einv (es_db s) (es_signals s) (observe_subscription (es_client s) pattern) (es_calls s).
Proof.
  intros [H1 H2 H3 H4 H5] Hc. cbn in Hc. split; [done| | | |done].
  - intros p v Hv. destruct (H2 p v Hv). split; [by apply followed_grows|done].
  - intros id p t row _ Hl. unfold read_live in Hl. cbn in Hl. rewrite lookup_empty in Hl. discriminate Hl.
  - intros id p r Hid _. destruct (Hc id _ Hid) as [Hf|Hrow]; [by eapply H4|]. left. unfold row_of. by rewrite Hrow.
Qed.

Lemma versions_begin_facts c p cached read c' : versions_begin c p cached = (inr read, c') ->
  ec_followed c' = ec_followed c /\ ec_versions c' = ec_versions c /\ (forall q u, q <> p -> read_live c' q u = read_live c q u).
Proof.
  unfold versions_begin. destruct (if cached then _ else _); [done|]. intros [= <- <-]. split_and!; [done|done|].
  intros q u Hne. unfold read_live. cbn. by rewrite lookup_insert_ne.
Qed.

(** A read begins on a subject nobody else reads. *)
Lemma inv_begin_read s id p cached read c' : sys_inv s -> no_call is_reading p s -> versions_begin (es_client s) p cached = (inr read, c') ->
  einv (es_db s) (es_signals s) c' (<[id := VersionsSent p read]> (es_calls s)).
Proof.
  intros [H1 H2 H3 H4 H5] Hno Hb. apply versions_begin_facts in Hb as (Hfo & Hv & Hl).
  assert (Hf : forall q, is_followed c' q = is_followed (es_client s) q) by (intros q; unfold is_followed; by rewrite Hfo).
  apply inv_set_call; [|done|done|].
  - split; [done| | | |done].
    + intros q v. rewrite Hf, Hv. apply H2.
    + intros i q t row Hid. rewrite Hf, Hv. destruct (decide (q = p)) as [->|Hne].
      * specialize (Hno i _ Hid). cbn in Hno. by rewrite String.eqb_refl in Hno.
      * rewrite Hl by done. by eapply H3.
    + intros i q r Hid. rewrite Hf. by eapply H4.
  - intros q j k' Hq Hj Hk. cbn in Hq. apply String.eqb_eq in Hq as ->. specialize (Hno j k' Hj). congruence.
Qed.

(** A call moves on: whoever else reads its subject is itself. *)
Lemma one_reader s id k k' : sys_inv s -> es_calls s !! id = Some k -> (forall p, is_reading k' p = true -> is_reading k p = true) ->
  forall p j kj, is_reading k' p = true -> es_calls s !! j = Some kj -> is_reading kj p = true -> j = id.
Proof. intros [_ _ _ _ H5] Hid Hsub p j kj Hk Hj Hkj. apply (H5 j id kj k p); auto. Qed.

Lemma inv_statement s id k s' : sys_inv s -> es_calls s !! id = Some k -> (forall p e, k = AdvanceSent p e -> 1 <= e) -> estatement id k s = Some s' -> sys_inv s'.
Proof.
  intros Hinv Hid Hpos. unfold estatement. destruct k as [p t| |p| |p| |p e|]; try done.
  - intros [= <-]. unfold sys_inv, with_call. cbn. apply inv_set_call; [done| |done|by eapply one_reader].
    intros q u row [= <- <- <-] _ _. split; [by left|]. intros h Hh. destruct Hinv as [_ H2 _ _ _]. destruct (H2 p h Hh) as [_ Hf]. by apply fresh_le in Hf.
  - intros [= <-]. by apply inv_set_call.
  - intros [= <-]. destruct (bump_row_moves (es_db s) p (inv_db _ _ _ _ Hinv)) as [Hlt Hp]. apply (inv_set_call _ _ _ _ id); [|done..].
    exact (inv_move s p _ Hinv Hlt Hp).
  - destruct (advance_row (es_db s) p e) as [row|] eqn:Hrow; intros [= <-]; [|by apply inv_set_call].
    destruct (advance_row_moves _ _ _ _ (Hpos p e eq_refl) Hrow) as [Hlt Hp]. apply (inv_set_call _ _ _ _ id); [exact (inv_move s p _ Hinv Hlt Hp)|done| |done].
    intros q r [= <- <-] _. left. unfold row_of, move. cbn. by rewrite lookup_insert_eq.
Qed.

Lemma inv_end_call s id c' : einv (es_db s) (es_signals s) c' (es_calls s) -> sys_inv (end_call id (with_client c' s)).
Proof. intros H. unfold sys_inv. cbn. by apply inv_delete_call. Qed.

Lemma inv_raise s id k : sys_inv s -> es_calls s !! id = Some k -> careful (Raise id) s -> sys_inv (eraise id k s).
Proof.
  intros Hinv Hid Hc. cbn in Hc. rewrite Hid in Hc.
  assert (Hend : forall p t, einv (es_db s) (es_signals s) (end_versions_read (es_client s) p t).2 (es_calls s)).
  { intros p t. destruct (end_versions_read (es_client s) p t) as [b c'] eqn:He. apply end_read_weakens in He as (Hf & Hv & Hl & _). cbn [snd].
    eapply inv_weaken; [exact Hinv|done|by rewrite Hv|done]. }
  assert (Hlost : forall p e, is_followed (es_client s) p = false -> einv (es_db s) (unsignal p e (es_signals s)) (es_client s) (es_calls s)).
  { intros p e Hp. eapply inv_signals; [exact Hinv|]. intros v q Hq. apply fresh_unsignal. intros [= -> _]. congruence. }
  destruct k as [| | | | |p e| |p [row|]]; cbn; try done; try (apply inv_end_call, Hend); unfold sys_inv; cbn; apply inv_delete_call; auto.
Qed.

(** The process stores what it knows of a row. *)
Lemma inv_store s c p v id : sys_inv s -> einv (es_db s) (es_signals s) c (delete id (es_calls s)) ->
  is_followed c p = true -> fresh (es_db s) (es_signals s) v p ->
  (forall i t row, i <> id -> es_calls s !! i = Some (VersionsGot p t row) -> read_live c p t = false) ->
  sys_inv (end_call id (with_client (with_versions (<[p := v]> (ec_versions c)) c) s)).
Proof.
  intros _ [H1 H2 H3 H4 H5] Hf Hfr Hno. unfold sys_inv. cbn. split; [done| | | |done].
  - intros q w. cbn. rewrite lookup_insert_Some. intros [[<- <-]|[_ Hw]]; [done|by apply H2].
  - intros i q t row Hi Hl Hq. destruct (H3 i q t row Hi Hl Hq) as [Ha Hb]. split; [done|]. intros h. cbn. rewrite lookup_insert_Some.
    intros [[-> _]|[_ Hh]]; [|by apply Hb]. exfalso. apply lookup_delete_Some in Hi as [Hne Hi].
    rewrite (Hno i t row (not_eq_sym Hne) Hi : read_live (with_versions _ c) q t = false) in Hl. discriminate Hl.
  - intros i q r Hi Hq. by eapply H4.
Qed.

Lemma inv_finish s id k s' : sys_inv s -> es_calls s !! id = Some k -> careful (Finish id) s -> efinish id k s = Some s' -> sys_inv s'.
Proof.
  intros Hinv Hid Hc. cbn in Hc. rewrite Hid in Hc. unfold efinish. destruct k as [|p t row| |p e| |p e| |p [row|]]; try done.
  - intros [= <-]. unfold versions_end. destruct (end_versions_read (es_client s) p t) as [b c'] eqn:He. pose proof He as Hw. apply end_read_weakens in Hw as (Hf & Hv & Hl & Hlive & _).
    assert (Hinv' : einv (es_db s) (es_signals s) c' (es_calls s)) by (eapply inv_weaken; [exact Hinv|done|by rewrite Hv|done]).
    cbn [snd]. destruct (b && is_followed c' p) eqn:Hb; [|by apply inv_end_call]. apply andb_true_iff in Hb as [-> Hfo].
    apply inv_store; [done|by apply inv_delete_call|done| |].
    + destruct Hinv as [_ _ H3 _ _]. unfold is_followed in Hfo. rewrite Hf in Hfo. by apply (H3 id p t row Hid (Hlive eq_refl)).
    + intros i u r Hne Hi. exfalso. apply Hne. destruct Hinv as [_ _ _ _ H5]. by apply (H5 i id _ _ p Hi Hid); cbn; apply String.eqb_refl.
  - intros [= <-]. apply inv_end_call. unfold current_end. destruct (ec_versions (es_client s) !! p); [|done]. destruct (_ =? _); [done|by apply inv_forget].
  - intros [= <-]. apply inv_end_call. by apply inv_forget.
  - intros [= <-]. unfold remember_versions. set (c := with_reads _ _).
    assert (Hinv' : einv (es_db s) (es_signals s) c (es_calls s)).
    { eapply inv_weaken; [exact Hinv|done|done|]. intros q u. unfold c, read_live. cbn. destruct (decide (p = q)) as [->|]; [by rewrite lookup_delete_eq|by rewrite lookup_delete_ne]. }
    destruct (is_followed c p) eqn:Hfo; [|by apply inv_end_call]. apply inv_store; [done|by apply inv_delete_call|done| |].
    + destruct Hinv as [_ _ _ H4 _]. by apply (H4 id).
    + intros i u r _ _. unfold c, read_live. cbn. by rewrite lookup_delete_eq.
  - destruct (versions_begin (es_client s) p false) as [[v|read] c'] eqn:Hb; [done|]. intros [= <-]. unfold sys_inv. cbn. by eapply inv_begin_read.
Qed.

(** The targets of the advances in progress are legal. *)
Definition targets_ok (s : esys) : Prop := forall id p e, es_calls s !! id = Some (AdvanceSent p e) -> 1 <= e.

Lemma targets_step s s' : estep s s' -> targets_ok s -> targets_ok s'.
Proof.
  intros [e He] Ht id p t. destruct e as [q|q x|i rq|i|i|i|q x|q x|pat]; cbn in He.
  - injection He as <-. apply Ht.
  - destruct (x <? 1); [done|]. destruct (advance_row _ _ _); injection He as <-; apply Ht.
  - destruct (es_calls s !! i); [done|]. destruct (ebegin rq (es_client s)) as [[k c]|] eqn:Hb; [|done]. injection He as <-. cbn.
    intros [[-> ->]|[_ Hi]]%lookup_insert_Some; [|by eapply Ht]. destruct rq as [q b|q|q|q x]; cbn in Hb.
    + destruct (is_durable q); [|done]. by destruct (versions_begin (es_client s) q b) as [[|] ?].
    + by destruct (_ && _).
    + by destruct (is_durable q).
    + unfold advance_guard in Hb. destruct (negb _); [done|]. destruct (Z.ltb_spec x 1); [done|]. by injection Hb as <- <- _.
  - destruct (es_calls s !! i) as [k|] eqn:Hi; [|done]. cbn in He. destruct k; try done; cbn in He.
    1-3: injection He as <-; cbn; intros [[_ ?]|[_ ?]]%lookup_insert_Some; [done|by eapply Ht].
    destruct (advance_row _ _ _); injection He as <-; cbn; (intros [[_ ?]|[_ ?]]%lookup_insert_Some; [done|by eapply Ht]).
  - destruct (es_calls s !! i) as [k|] eqn:Hi; [|done]. injection He as <-.
    destruct k as [| | | | | | |q [row|]]; cbn; intros [_ Hj]%lookup_delete_Some; by eapply Ht.
  - destruct (es_calls s !! i) as [k|] eqn:Hi; [|done]. cbn in He. destruct k as [| | | | | | |q [row|]]; try done; cbn in He.
    1-4: injection He as <-; cbn; intros [_ Hj]%lookup_delete_Some; by eapply Ht.
    injection He as <-. cbn. intros [[_ ?]|[_ ?]]%lookup_insert_Some; [done|by eapply Ht].
  - injection He as <-. apply Ht.
  - injection He as <-. apply Ht.
  - injection He as <-. apply Ht.
Qed.

Lemma careful_step_inv s s' : careful_step s s' -> targets_ok s -> sys_inv s -> sys_inv s'.
Proof.
  intros (e & Hc & He) Ht Hinv. destruct e as [q|q x|i rq|i|i|i|q x|q x|pat]; cbn in He.
  - injection He as <-. destruct (bump_row_moves (es_db s) q (inv_db _ _ _ _ Hinv)). by apply inv_move.
  - destruct (Z.ltb_spec x 1); [done|]. destruct (advance_row (es_db s) q x) as [row|] eqn:Hrow; injection He as <-; [|done].
    apply advance_row_moves in Hrow as [? ?]; [|done]. by apply inv_move.
  - destruct (es_calls s !! i) eqn:Hi; [done|]. destruct (ebegin rq (es_client s)) as [[k c]|] eqn:Hb; [|done]. injection He as <-.
    unfold sys_inv. cbn. destruct rq as [q b|q|q|q x]; cbn in Hb.
    + destruct (is_durable q); [|done]. destruct (versions_begin (es_client s) q b) as [[|read] c'] eqn:Hv; [done|]. injection Hb as <- <-. by eapply inv_begin_read.
    + destruct (_ && _); [|done]. injection Hb as <- <-. by apply inv_set_call.
    + destruct (is_durable q); [|done]. injection Hb as <- <-. by apply inv_set_call.
    + destruct (advance_guard q x); [|done]. injection Hb as <- <-. by apply inv_set_call.
  - destruct (es_calls s !! i) as [k|] eqn:Hi; [|done]. eapply inv_statement; [done|done| |exact He]. intros p e ->. by eapply Ht.
  - destruct (es_calls s !! i) as [k|] eqn:Hi; [|done]. injection He as <-. by apply inv_raise.
  - destruct (es_calls s !! i) as [k|] eqn:Hi; [|done]. by eapply inv_finish.
  - injection He as <-. exact (inv_deliver s q x Hinv Hc).
  - injection He as <-. cbn in Hc. unfold sys_inv. cbn. eapply inv_signals; [exact Hinv|]. intros v p Hp. apply fresh_unsignal. intros [= -> _]. congruence.
  - injection He as <-. exact (inv_subscribe s pat Hinv Hc).
Qed.

Lemma careful_estep s s' : careful_step s s' -> estep s s'.
Proof. intros (e & _ & He). by exists e. Qed.

Lemma esys_init_inv db : table_ok db -> sys_inv (esys_init db) /\ targets_ok (esys_init db).
Proof.
  intros Hok. split; [split; cbn; [done|intros p v H|intros id p t row H|intros id p r H|intros i j k1 k2 p H]|intros id p e H]; discriminate H.
Qed.

Lemma careful_reaches_inv db s : table_ok db -> rtc careful_step (esys_init db) s -> sys_inv s.
Proof.
  intros Hok Hr. destruct (esys_init_inv db Hok) as [Hi Ht]. revert Hi Ht. induction Hr as [|s1 s2 s3 H12 _ IH]; intros Hi Ht; [done|].
  apply IH; [by eapply careful_step_inv|]. eapply targets_step; [by apply careful_estep|done].
Qed.

(** (C20) A copy never goes stale in silence. In every state of a run in which the reads of one subject do not overlap, no broadcast of a followed subject is lost
    (on its way, or with the answer of the move it announces), and an advance hears its answer before the broadcast of a later move and before its subject is newly
    followed, what a cached read answers from the copy is the row as it stands, or the broadcast of the move that left it behind is still to come, and until then
    the copy is only older. *)
Theorem copies_never_silently_stale db s path v c' : table_ok db -> rtc careful_step (esys_init db) s ->
  versions_begin (es_client s) path true = (inl v, c') ->
  v = row_of (es_db s) path \/ (de_epoch v < de_epoch (row_of (es_db s) path) /\ (path, de_epoch (row_of (es_db s) path)) ∈ es_signals s).
Proof.
  intros Hok Hr Hv. apply careful_reaches_inv in Hr as [_ H2 _ _ _]; [|done]. unfold versions_begin in Hv.
  destruct (ec_versions (es_client s) !! path) as [held|] eqn:Hh; [|done]. injection Hv as <- _. by apply H2.
Qed.

Fixpoint careful_run (l : list event) (s : esys) : option esys :=
  match l with
  | [] => Some s
  | e :: l => if bool_decide (careful e s) then s' ← eapply e s; careful_run l s' else None
  end.

Lemma erun_reaches l s s' : erun l s = Some s' -> rtc estep s s'.
Proof.
  revert s. induction l as [|e l IH]; intros s; cbn; [intros [= ->]; constructor|].
  destruct (eapply e s) as [s1|] eqn:He; [|done]. intros H. eapply rtc_l; [by exists e|by apply IH].
Qed.

Lemma careful_run_reaches l s s' : careful_run l s = Some s' -> rtc careful_step s s'.
Proof.
  revert s. induction l as [|e l IH]; intros s; cbn; [intros [= ->]; constructor|]. case_bool_decide as Hc; [|done].
  destruct (eapply e s) as [s1|] eqn:He; [|done]. intros H. eapply rtc_l; [by exists e|by apply IH].
Qed.

(** A copy is read and kept, the row moves elsewhere, and the copy still answers: the broadcast is on its way. *)
Definition lagging_copy : list event := [Subscribe "3tears.datasource.*.tiles.*.epoch"; Begin 1 (ReqVersions tiles true); Statement 1; Finish 1; OtherAdvance tiles 9].

Definition lagging : esys := default tiles_at_five (careful_run lagging_copy tiles_at_five).

Lemma copies_never_silently_stale_witness :
  versions_begin (es_client lagging) tiles true = (inl (mkDurable 5 (Some 4)), es_client lagging) /\ (tiles, 9) ∈ es_signals lagging.
Proof.
  split; [vm_compute; reflexivity|].
  destruct (copies_never_silently_stale {[tiles := mkDurable 5 (Some 4)]} lagging tiles (mkDurable 5 (Some 4)) (es_client lagging)) as [H|[_ H]].
  - intros p row [_ <-]%lookup_singleton_Some. discriminate.
  - apply (careful_run_reaches lagging_copy). vm_compute. reflexivity.
  - vm_compute. reflexivity.
  - exfalso. vm_compute in H. discriminate H.
  - replace (de_epoch (row_of (es_db lagging) tiles)) with 9 in H by (vm_compute; reflexivity). exact H.
Defined.

(** ** What holds of every run *)

(** The rows a subject had, the latest first: those written in the run, then the one of the start. *)
Definition path_moves (start : table) (s : esys) (path : string) : list DurableEpoch :=
  app (map snd (List.filter (fun m => String.eqb m.1 path) (es_moves s))) (match start !! path with Some row => [row] | None => [] end).

(** The rows of one subject, the latest first: each move goes forward and records the epoch it replaced. *)
Fixpoint history (l : list DurableEpoch) : Prop :=
  match l with
  | [] => True
  | row :: older =>
      1 <= de_epoch row /\ match older with [] => True | replaced :: _ => de_epoch replaced < de_epoch row /\ de_previous row = Some (de_epoch replaced) end
      /\ history older
  end.

Definition recorded (start : table) (s : esys) (path : string) (v : DurableEpoch) : Prop := v = NEVER_MOVED \/ v ∈ path_moves start s path.

Record hinv start (s : esys) : Prop := mkHinv {
  h_history : forall p, history (path_moves start s p) /\ head (path_moves start s p) = es_db s !! p;
  h_copy : forall p v, ec_versions (es_client s) !! p = Some v -> recorded start s p v;
  h_read : forall id p t row, es_calls s !! id = Some (VersionsGot p t row) -> recorded start s p (row_versions row);
  h_adv : forall id p r, es_calls s !! id = Some (AdvanceGot p (Some r)) -> recorded start s p r;
}.

Lemma history_head_max row older v : history (row :: older) -> v ∈ row :: older -> de_epoch v <= de_epoch row /\ (de_epoch v = de_epoch row -> v = row).
Proof.
  revert row. induction older as [|x older IH]; intros row (Hpos & Hlink & Hold) Hin.
  - apply list_elem_of_singleton in Hin as ->. done.
  - apply elem_of_cons in Hin as [->|Hin]; [done|]. destruct Hlink as [Hlt _]. destruct (IH x Hold Hin) as [Hle _]. split; [lia|]. lia.
Qed.

Lemma recorded_is_row start s p v : hinv start s -> recorded start s p v -> de_epoch v = current_row (es_db s) p -> v = row_of (es_db s) p.
Proof.
  intros [Hh _ _ _] Hr. destruct (Hh p) as [Hist Hhead]. unfold current_row, row_of, row_versions. rewrite <- Hhead. unfold recorded in Hr.
  destruct (path_moves start s p) as [|row older]; cbn in *.
  - destruct Hr as [->|Hin]; [done|by apply elem_of_nil in Hin].
  - intros He. destruct Hr as [->|Hin]; [cbn in He; lia|]. by apply (history_head_max row older v Hist Hin).
Qed.

Lemma path_moves_move start q row s p : path_moves start (move q row s) p = if String.eqb q p then row :: path_moves start s p else path_moves start s p.
Proof. unfold path_moves, move. cbn. by destruct (String.eqb q p). Qed.

Lemma recorded_move start q row s p v : recorded start s p v -> recorded start (move q row s) p v.
Proof. unfold recorded. rewrite path_moves_move. destruct (String.eqb q p); [|done]. rewrite elem_of_cons. tauto. Qed.

Lemma head_recorded start s p row : hinv start s -> es_db s !! p = Some row -> recorded start s p row.
Proof.
  intros [Hh _ _ _] Hp. destruct (Hh p) as [_ Hhead]. rewrite Hp in Hhead. right. destruct (path_moves start s p); [done|]. injection Hhead as ->. apply list_elem_of_here.
Qed.

Lemma hinv_move start s q row : hinv start s -> 1 <= de_epoch row ->
  match es_db s !! q with None => True | Some old => de_epoch old < de_epoch row /\ de_previous row = Some (de_epoch old) end -> hinv start (move q row s).
Proof.
  intros [Hh Hc Hr Ha] Hpos Hlink. split.
  - intros p. rewrite path_moves_move. change (es_db (move q row s)) with (<[q := row]> (es_db s)). destruct (Hh p) as [Hist Hhead]. destruct (String.eqb_spec q p) as [->|Hne]; [|by rewrite lookup_insert_ne].
    rewrite lookup_insert_eq. split; [|done]. cbn. split_and!; [done| |done]. rewrite <- Hhead in Hlink. by destruct (path_moves start s p).
  - intros p v Hv. by apply recorded_move, Hc.
  - intros id p t r Hid. eapply recorded_move, Hr, Hid.
  - intros id p r Hid. eapply recorded_move, Ha, Hid.
Qed.

Lemma bump_row_link db q : table_ok db ->
  1 <= de_epoch (bump_row db q)
  /\ match db !! q with None => True | Some old => de_epoch old < de_epoch (bump_row db q) /\ de_previous (bump_row db q) = Some (de_epoch old) end.
Proof. intros Hok. unfold bump_row. destruct (db !! q) as [old|] eqn:Hq; cbn; [specialize (Hok q old Hq); split; [lia|split; [lia|done]]|done]. Qed.

Lemma advance_row_link db q e row : 1 <= e -> advance_row db q e = Some row ->
  1 <= de_epoch row /\ match db !! q with None => True | Some old => de_epoch old < de_epoch row /\ de_previous row = Some (de_epoch old) end.
Proof.
  intros He. unfold advance_row. destruct (db !! q) as [old|]; [|intros [= <-]; done]. destruct (Z.ltb_spec (de_epoch old) e); [|done]. intros [= <-]. done.
Qed.

Lemma hinv_table_ok start s : hinv start s -> table_ok (es_db s).
Proof. intros [Hh _ _ _] p row Hp. destruct (Hh p) as [Hist Hhead]. rewrite Hp in Hhead. destruct (path_moves start s p); [done|]. injection Hhead as ->. by destruct Hist. Qed.

(** A client step that stores nothing new. *)
Lemma hinv_client start s c' : hinv start s -> (forall p v, ec_versions c' !! p = Some v -> recorded start s p v) -> hinv start (with_client c' s).
Proof. intros [Hh Hc Hr Ha] Hv. split; [done|exact Hv|done|done]. Qed.

Lemma hinv_set_call start s id k : hinv start s -> (forall p t row, k = VersionsGot p t row -> recorded start s p (row_versions row)) ->
  (forall p r, k = AdvanceGot p (Some r) -> recorded start s p r) -> hinv start (with_call id k s).
Proof.
  intros [Hh Hc Hr Ha] Hk1 Hk2. split; [done|done|..]; cbn.
  - intros i p t row [[_ ->]|[_ Hi]]%lookup_insert_Some; [by eapply Hk1|by eapply Hr].
  - intros i p r [[_ ->]|[_ Hi]]%lookup_insert_Some; [by eapply Hk2|by eapply Ha].
Qed.

Lemma hinv_end_call start s id : hinv start s -> hinv start (end_call id s).
Proof.
  intros [Hh Hc Hr Ha]. split; [done|done|..]; cbn.
  - intros i p t row [_ Hi]%lookup_delete_Some. by eapply Hr.
  - intros i p r [_ Hi]%lookup_delete_Some. by eapply Ha.
Qed.

Lemma forget_subset c q p v : ec_versions (forget_versions c q) !! p = Some v -> ec_versions c !! p = Some v.
Proof. cbn. by intros [_ ?]%lookup_delete_Some. Qed.

Lemma hinv_end_read start s p t : hinv start s -> hinv start (with_client (end_versions_read (es_client s) p t).2 s).
Proof.
  intros H. apply hinv_client; [done|]. destruct (end_versions_read (es_client s) p t) as [b c'] eqn:He. apply end_read_weakens in He as (_ & Hv & _). cbn [snd].
  intros q v. rewrite Hv. apply (h_copy start s H).
Qed.

Lemma hinv_finish start s id k s' : hinv start s -> es_calls s !! id = Some k -> efinish id k s = Some s' -> hinv start s'.
Proof.
  intros H Hid. unfold efinish. destruct k as [|p t row| |p e| |p e| |p [row|]]; try done.
  - intros [= <-]. apply hinv_end_call, hinv_client; [done|]. unfold versions_end. destruct (end_versions_read (es_client s) p t) as [b c'] eqn:He.
    apply end_read_weakens in He as (_ & Hv & _). cbn [snd]. intros q v. destruct (b && is_followed c' p); [|rewrite Hv; apply (h_copy start s H)].
    cbn. rewrite lookup_insert_Some, Hv. intros [[<- <-]|[_ Hq]]; [by eapply (h_read start s H)|by apply (h_copy start s H)].
  - intros [= <-]. apply hinv_end_call, hinv_client; [done|]. unfold current_end. intros q v. destruct (ec_versions (es_client s) !! p); [|apply (h_copy start s H)].
    destruct (_ =? _); [apply (h_copy start s H)|]. cbn [snd]. intros Hv%forget_subset. by apply (h_copy start s H).
  - intros [= <-]. apply hinv_end_call, hinv_client; [done|]. intros q v Hv%forget_subset. by apply (h_copy start s H).
  - intros [= <-]. apply hinv_end_call, hinv_client; [done|]. unfold remember_versions. intros q v. destruct (is_followed _ p); [|apply (h_copy start s H)].
    cbn. rewrite lookup_insert_Some. intros [[<- <-]|[_ Hq]]; [by eapply (h_adv start s H)|by apply (h_copy start s H)].
  - destruct (versions_begin (es_client s) p false) as [[v|read] c'] eqn:Hb; [done|]. intros [= <-]. apply versions_begin_facts in Hb as (_ & Hv & _).
    apply hinv_set_call; [|done..]. apply hinv_client; [done|]. rewrite Hv. apply (h_copy start s H).
Qed.

Lemma hinv_statement start s id k s' : hinv start s -> (forall p e, k = AdvanceSent p e -> 1 <= e) -> estatement id k s = Some s' -> hinv start s'.
Proof.
  intros H Hpos. unfold estatement. destruct k as [p t| |p| |p| |p e|]; try done.
  - intros [= <-]. apply hinv_set_call; [done| |done]. intros q u row [= <- <- <-].
    destruct (es_db s !! p) as [r|] eqn:Hp; [by apply head_recorded|by left].
  - intros [= <-]. by apply hinv_set_call.
  - intros [= <-]. destruct (bump_row_link (es_db s) p (hinv_table_ok start s H)). apply hinv_set_call; [by apply hinv_move|done|done].
  - destruct (advance_row (es_db s) p e) as [row|] eqn:Hrow; intros [= <-]; [|by apply hinv_set_call].
    destruct (advance_row_link _ _ _ _ (Hpos p e eq_refl) Hrow). apply hinv_set_call; [by apply hinv_move|done|].
    intros q r [= <- <-]. right. rewrite path_moves_move, String.eqb_refl. apply list_elem_of_here.
Qed.

Lemma hinv_step start s s' : estep s s' -> targets_ok s -> hinv start s -> hinv start s'.
Proof.
  intros [e He] Ht H. destruct e as [q|q x|i rq|i|i|i|q x|q x|pat]; cbn [eapply] in He.
  - injection He as <-. destruct (bump_row_link (es_db s) q (hinv_table_ok start s H)). by apply hinv_move.
  - destruct (Z.ltb_spec x 1); [done|]. destruct (advance_row (es_db s) q x) as [row|] eqn:Hrow; injection He as <-; [|done].
    apply advance_row_link in Hrow as [? ?]; [|done]. by apply hinv_move.
  - destruct (es_calls s !! i) eqn:Hi; [done|]. destruct (ebegin rq (es_client s)) as [[k c]|] eqn:Hb; [|done]. injection He as <-.
    destruct rq as [q b|q|q|q x]; cbn in Hb.
    + destruct (is_durable q); [|done]. destruct (versions_begin (es_client s) q b) as [[|read] c'] eqn:Hv; [done|]. injection Hb as <- <-.
      apply versions_begin_facts in Hv as (_ & Hv & _). apply hinv_set_call; [|done..]. apply hinv_client; [done|]. rewrite Hv. apply (h_copy start s H).
    + destruct (_ && _); [|done]. injection Hb as <- <-. apply hinv_set_call; [|done..]. apply hinv_client; [done|]. apply (h_copy start s H).
    + destruct (is_durable q); [|done]. injection Hb as <- <-. apply hinv_set_call; [|done..]. apply hinv_client; [done|]. apply (h_copy start s H).
    + destruct (advance_guard q x); [|done]. injection Hb as <- <-. apply hinv_set_call; [|done..]. apply hinv_client; [done|]. apply (h_copy start s H).
  - destruct (es_calls s !! i) as [k|] eqn:Hi; [|done]. eapply hinv_statement; [done| |exact He]. intros p e ->. by eapply Ht.
  - destruct (es_calls s !! i) as [k|] eqn:Hi; [|done]. injection He as <-.
    assert (Hs : forall l, hinv start (end_call i (with_signals l s))) by (intros l; apply hinv_end_call; by destruct H).
    destruct k as [| | | | | | |p [row|]]; cbn [eraise]; try apply Hs; try (by apply hinv_end_call); apply hinv_end_call; by apply hinv_end_read.
  - destruct (es_calls s !! i) as [k|] eqn:Hi; [|done]. by eapply hinv_finish.
  - injection He as <-. assert (hinv start (with_client (observe_broadcast (es_client s) q x) s)) as H'; [|by destruct H'].
    apply hinv_client; [done|]. unfold observe_broadcast. intros p v. destruct (ec_versions (es_client s) !! q); [destruct (_ <? _)|]; try apply (h_copy start s H);
      intros Hv%forget_subset; by apply (h_copy start s H).
  - injection He as <-. by destruct H.
  - injection He as <-. apply hinv_client; [done|]. apply (h_copy start s H).
Qed.

Lemma init_hinv db : table_ok db -> hinv db (esys_init db).
Proof.
  intros Hok. split; [|intros p v H|intros id p t row H|intros id p r H]; [|discriminate H..]. intros p. unfold path_moves. cbn.
  destruct (db !! p) as [row|] eqn:Hp; cbn; [|done]. split; [|done]. split_and!; [by eapply Hok|done|done].
Qed.

Lemma targets_reach s s' : rtc estep s s' -> targets_ok s -> targets_ok s'.
Proof. induction 1 as [|s1 s2 s3 H12 _ IH]; [done|]. intros Ht. by apply IH, (targets_step s1). Qed.

Lemma reaches_hinv start s : table_ok start -> rtc estep (esys_init start) s -> hinv start s.
Proof.
  intros Hok Hr. pose proof (init_hinv start Hok) as Hi. destruct (esys_init_inv start Hok) as [_ Ht]. revert Hi Ht.
  induction Hr as [|s1 s2 s3 H12 _ IH]; intros Hi Ht; [done|]. apply IH; [by eapply hinv_step|by eapply targets_step].
Qed.

(** Durable epochs go forward and remember where they came from: in every run, whoever moves a subject and however the calls interleave, each
    epoch it ever has is above the one before it, so none is handed out twice, and each row names as previous exactly the epoch it replaced. *)
Theorem epochs_move_forward start s path : table_ok start -> rtc estep (esys_init start) s ->
  history (path_moves start s path) /\ head (path_moves start s path) = es_db s !! path.
Proof. intros Hok Hr. by apply (h_history start s (reaches_hinv start s Hok Hr)). Qed.

Lemma epochs_move_forward_witness : exists s, erun overtaken_advance tiles_at_five = Some s
  /\ history (path_moves {[tiles := mkDurable 5 (Some 4)]} s tiles) /\ es_db s !! tiles = Some (mkDurable 8 (Some 7)).
Proof.
  destruct (erun overtaken_advance tiles_at_five) as [s|] eqn:Hs; [|exfalso; vm_compute in Hs; discriminate Hs]. exists s. split; [reflexivity|].
  split; [|vm_compute in Hs; injection Hs as <-; vm_compute; reflexivity].
  apply (epochs_move_forward {[tiles := mkDurable 5 (Some 4)]} s tiles); [intros p row [_ <-]%lookup_singleton_Some; discriminate|].
  apply (erun_reaches overtaken_advance). exact Hs.
Defined.

(** A catch-up always repairs the copy: after any run, with broadcasts lost, reads that overlapped and answers that raised, a catch-up of a durable
    subject answers, and leaves either no copy or the row itself. *)
Theorem catch_up_repairs start s id path : table_ok start -> rtc estep (esys_init start) s ->
  es_calls s !! id = None -> is_durable path = true -> is_wildcard path = false ->
  exists s', erun [Begin id (ReqCurrent path); Statement id; Finish id] s = Some s' /\ es_db s' = es_db s
    /\ forall v, ec_versions (es_client s') !! path = Some v -> v = row_of (es_db s) path.
Proof.
  intros Hok Hr Hid Hd Hw. pose proof (reaches_hinv start s Hok Hr) as Hinv. cbn [erun eapply ebegin]. rewrite Hid, Hd, Hw. cbn [negb andb].
  set (s1 := with_call id (CurrentSent path) (with_client (es_client s) s)). assert (H1 : es_calls s1 !! id = Some (CurrentSent path)) by apply lookup_insert_eq.
  change (Some s1 ≫= ?f) with (f s1). cbv beta. rewrite H1. cbn [mbind option_bind estatement].
  set (s2 := with_call id (CurrentGot path _) s1). assert (H2 : es_calls s2 !! id = Some (CurrentGot path (current_row (es_db s) path))) by apply lookup_insert_eq.
  rewrite H2. cbn [mbind option_bind efinish]. eexists. split; [reflexivity|]. split; [done|].
  intros v. change (ec_versions (current_end (es_client s) path (current_row (es_db s) path)).2 !! path = Some v -> v = row_of (es_db s) path).
  unfold current_end. destruct (ec_versions (es_client s) !! path) as [held|] eqn:Hh; [|cbn [snd]; by rewrite Hh].
  destruct (Z.eqb_spec (de_epoch held) (current_row (es_db s) path)) as [Heq|Hne]; cbn [snd].
  - rewrite Hh. intros [= <-]. eapply recorded_is_row; [done|by eapply h_copy|done].
  - cbn. by rewrite lookup_delete_eq.
Qed.

Lemma catch_up_repairs_witness : exists s s', erun slow_read tiles_at_five = Some s
  /\ erun [Begin 3 (ReqCurrent tiles); Statement 3; Finish 3] s = Some s' /\ (forall v, ec_versions (es_client s') !! tiles = Some v -> v = mkDurable 6 (Some 5)).
Proof.
  destruct (erun slow_read tiles_at_five) as [s|] eqn:Hs; [|exfalso; vm_compute in Hs; discriminate Hs].
  destruct (catch_up_repairs {[tiles := mkDurable 5 (Some 4)]} s 3 tiles) as (s' & Hr & _ & Hv).
  - intros p row [_ <-]%lookup_singleton_Some. discriminate.
  - apply (erun_reaches slow_read). exact Hs.
  - vm_compute in Hs. injection Hs as <-. vm_compute. reflexivity.
  - vm_compute. reflexivity.
  - vm_compute. reflexivity.
  - exists s, s'. split; [reflexivity|]. split; [exact Hr|]. intros v H. rewrite (Hv v H). vm_compute in Hs. injection Hs as <-. vm_compute. reflexivity.
Defined.
