(* ===== verification/EpochListener.v ===== *)
(** * The epoch listener

    [src/packages/epoch/src/threetears/epoch/listener.py] and [tick.py]: a consumer keeps state loaded from
    somewhere, and reloads it when its subject's epoch moves. The listener tells it of broadcasts, of the
    catch-up pass that reads the counter, and of a counter that was replaced. As in [EpochClient.v] a
    coroutine is split at its awaits; a consumer's callback is a number, and a call of it is a value. *)

From Stdlib Require Import Ascii String Bool List ZArith Lia Sorted.
From stdpp Require Import base list gmap strings relations.
From S2P Require Import Prelude PyUuid Namespaces Subjects EpochClient.

Open Scope string_scope.
Open Scope Z_scope.

Record registration := mkRegistration { rg_subject : string; rg_on_bump : nat; rg_on_reset : option nat }.

(** [_registrations] is a dictionary of lists; its order is the order a reset goes through. *)
Record EpochListener := mkListener {
  el_last_seen : gmap string Z;
  el_registrations : list (string * list registration);
  el_bucket_identity : option string;
}.

Definition EpochListener_init : EpochListener := mkListener ∅ [] None.

Inductive callback_call := BumpCall (callback : nat) (epoch : Z) | ResetCall (callback : nat).

Definition set_last_seen (m : gmap string Z) (l : EpochListener) : EpochListener := mkListener m (el_registrations l) (el_bucket_identity l).
Definition set_registrations (r : list (string * list registration)) (l : EpochListener) : EpochListener := mkListener (el_last_seen l) r (el_bucket_identity l).

Definition last_seen (l : EpochListener) (path : string) : Z := default 0 (el_last_seen l !! path).

Definition registered (l : EpochListener) (path : string) : list registration := default [] (od_get path (el_registrations l)).

(** [self._registrations.pop(path, None)]. *)
Definition pop_registrations (path : string) (d : list (string * list registration)) : list (string * list registration) :=
  List.filter (fun x => negb (String.eqb x.1 path)) d.

(** [subscribe] before the bus is asked: the epoch given, or the one read. *)
Definition subscribe_prime (l : EpochListener) (path : string) (primed : Z) : EpochListener := set_last_seen (<[path := primed]> (el_last_seen l)) l.

(** [subscribe] once the bus has answered. *)
Definition subscribe_register (l : EpochListener) (c : EpochClient) (path : string) (on_bump : nat) (on_reset : option nat) : EpochListener * EpochClient :=
  (set_registrations (od_set path (app (registered l path) [mkRegistration path on_bump on_reset]) (el_registrations l)) l, observe_subscription c path).

(** [_on_bump] of a subscription to [subscribed], up to the call of the consumer it ends with. *)
Definition on_broadcast (l : EpochListener) (c : EpochClient) (subscribed : string) (on_bump : nat) (subject_path : string) (epoch : Z)
  : EpochListener * EpochClient * option callback_call :=
  let dedupe_path := if str_truthy subject_path then subject_path else subscribed in
  let c := observe_broadcast c dedupe_path epoch in
  if epoch <=? last_seen l dedupe_path then (l, c, None)
  else (set_last_seen (<[dedupe_path := epoch]> (el_last_seen l)) l, c, Some (BumpCall on_bump epoch)).

(** [_bucket_was_replaced], given the identity observed. *)
Definition bucket_was_replaced (l : EpochListener) (observed : option string) : bool * EpochListener :=
  match observed with
  | None => (false, l)
  | Some identity =>
      match el_bucket_identity l with
      | None => (false, mkListener (el_last_seen l) (el_registrations l) (Some identity))
      | Some known => (negb (String.eqb identity known), l)
      end
  end.

Definition deregister (l : EpochListener) (path : string) (on_bump : option nat) : nat * EpochListener :=
  let entries := registered l path in
  let '(dropped, registrations) :=
    match on_bump with
    | None => (length entries, pop_registrations path (el_registrations l))
    | Some callback =>
        let keep := List.filter (fun e => negb (rg_on_bump e =? callback)%nat) entries in
        ((length entries - length keep)%nat,
         match keep with [] => pop_registrations path (el_registrations l) | _ => od_set path keep (el_registrations l) end)
    end in
  let l := set_registrations registrations l in
  (dropped, match registered l path with [] => set_last_seen (delete path (el_last_seen l)) l | _ => l end).

(** [_reset_each]: the calls made, how many of them through the bump callback, and the first error; [raises] says what a call raises. *)
Fixpoint reset_each {E} (raises : callback_call -> option E) (registrations : list registration) : list callback_call * nat * option E :=
  match registrations with
  | [] => ([], 0%nat, None)
  | r :: rest =>
      let call := match rg_on_reset r with Some callback => ResetCall callback | None => BumpCall (rg_on_bump r) 0 end in
      let '(calls, through_bump, error) := reset_each raises rest in
      (call :: calls, (match rg_on_reset r with Some _ => through_bump | None => S through_bump end),
       match raises call with Some e => Some e | None => error end)
  end.

(** [signal_reset] of one subject. *)
Definition signal_reset_subject {E} (raises : callback_call -> option E) (l : EpochListener) (path : string) : EpochListener * list callback_call * option E :=
  let '(calls, _, error) := reset_each raises (registered l path) in
  (set_last_seen (delete path (el_last_seen l)) l, calls, error).

(** [signal_reset] of every ephemeral subject, with the identity the bucket answers. *)
Definition signal_reset {E} (raises : callback_call -> option E) (l : EpochListener) (identity : option string) : EpochListener * list callback_call * option E :=
  let ephemeral := List.filter (fun r => negb (is_durable (rg_subject r))) (List.concat (map snd (el_registrations l))) in
  let '(calls, _, error) := reset_each raises ephemeral in
  (mkListener (filter (fun x => is_durable x.1 = true) (el_last_seen l)) (el_registrations l) identity, calls, error).

(** What [catch_up] does once it has read the counter. *)
Inductive catch_up_action := CatchUpReset | CatchUpBump (call : callback_call) | CatchUpNothing.

Definition catch_up_decide (l : EpochListener) (path : string) (on_bump : nat) (current : Z) : EpochListener * catch_up_action :=
  let seen := last_seen l path in
  if current <? seen then (l, CatchUpReset)
  else if seen <? current then (set_last_seen (<[path := current]> (el_last_seen l)) l, CatchUpBump (BumpCall on_bump current))
  else (l, CatchUpNothing).

(** [echo]: whether the echoed epoch is worth a catch-up. *)
Definition echo_catches_up (l : EpochListener) (path : string) (echoed_epoch : Z) : bool := negb (echoed_epoch <=? last_seen l path).

(** A [catch_up] with nothing beside it: the identity and the counter it reads, and what the calls it makes raise. *)
Definition catch_up {E} (raises : callback_call -> option E) (l : EpochListener) (path : string) (on_bump : nat) (observed observed_again : option string) (current : Z)
  : EpochListener * list callback_call * result Z E :=
  let '(replaced, l) := if is_durable path then (false, l) else bucket_was_replaced l observed in
  if replaced then
    let '(l, calls, error) := signal_reset raises l observed_again in
    (l, calls, match error with Some e => Err e | None => Ok current end)
  else
    match catch_up_decide l path on_bump current with
    | (l, CatchUpReset) => let '(l, calls, error) := signal_reset_subject raises l path in (l, calls, match error with Some e => Err e | None => Ok current end)
    | (l, CatchUpBump call) => (l, [call], match raises call with Some e => Err e | None => Ok current end)
    | (l, CatchUpNothing) => (l, [], Ok current)
    end.

(** [catchup_tick]: a pass over the subjects; the answers its catch-ups give come one by one. *)
Fixpoint catchup_tick {E} (raises : callback_call -> option E) (l : EpochListener) (subjects : list (string * nat * (option string * option string * Z)))
  : EpochListener * list callback_call * nat * option E :=
  match subjects with
  | [] => (l, [], 0%nat, None)
  | (path, on_bump, (observed, observed_again, current)) :: rest =>
      let before := last_seen l path in
      let '(l1, calls, answer) := catch_up raises l path on_bump observed observed_again current in
      let '(l2, more, advanced, error) := catchup_tick raises l1 rest in
      (l2, app calls more,
       match answer with Ok after => if after =? before then advanced else S advanced | Err _ => advanced end,
       match answer with Ok _ => error | Err e => Some e end)
  end.

(** ** A reset *)

Definition reset_call (r : registration) : callback_call := match rg_on_reset r with Some callback => ResetCall callback | None => BumpCall (rg_on_bump r) 0 end.

(** The first of a run of calls that raises. *)
Fixpoint first_raised {E} (raises : callback_call -> option E) (calls : list callback_call) : option E :=
  match calls with
  | [] => None
  | call :: rest => match raises call with Some e => Some e | None => first_raised raises rest end
  end.

Lemma reset_each_exact {E} (raises : callback_call -> option E) rs :
  exists n, reset_each raises rs = (map reset_call rs, n, first_raised raises (map reset_call rs)).
Proof. induction rs as [|r rs [n IH]]; cbn; [by eexists|]. rewrite IH. by eexists. Qed.

Definition all_registrations (l : EpochListener) : list registration := List.concat (map snd (el_registrations l)).

(** A replaced counter reaches everyone it counted for: whatever the callbacks raise, every registration on an ephemeral subject is told, once and in
    order, the durable ones are left alone, the epochs seen on ephemeral subjects are forgotten and no others, and the error raised is the first. *)
Theorem reset_reaches_everyone {E} (raises : callback_call -> option E) l identity :
  let '(l', calls, error) := signal_reset raises l identity in
  calls = map reset_call (List.filter (fun r => negb (is_durable (rg_subject r))) (all_registrations l))
  /\ error = first_raised raises calls
  /\ (forall path, last_seen l' path = if is_durable path then last_seen l path else 0)
  /\ el_registrations l' = el_registrations l /\ el_bucket_identity l' = identity.
Proof.
  unfold signal_reset. fold (all_registrations l). destruct (reset_each_exact raises (List.filter (fun r => negb (is_durable (rg_subject r))) (all_registrations l))) as [n ->].
  split_and!; [done|done| |done|done]. intros path. unfold last_seen. cbn. rewrite map_lookup_filter.
  destruct (el_last_seen l !! path) as [z|]; cbn; [|by destruct (is_durable path)]. by destruct (is_durable path).
Qed.

(** ** Broadcasts *)

(** The epochs one subscription's consumer is called with, for the broadcasts it hears. *)
Fixpoint dispatched (l : EpochListener) (c : EpochClient) (subscribed : string) (on_bump : nat) (messages : list (string * Z)) : list (string * Z) * EpochListener :=
  match messages with
  | [] => ([], l)
  | (path, epoch) :: rest =>
      let '(l', c', call) := on_broadcast l c subscribed on_bump path epoch in
      let '(later, l'') := dispatched l' c' subscribed on_bump rest in
      (match call with Some _ => (path, epoch) :: later | None => later end, l'')
  end.

Definition epochs_of (path : string) (calls : list (string * Z)) : list Z := map snd (List.filter (fun x => String.eqb x.1 path) calls).

Lemma dispatched_above l c subscribed on_bump messages path : path <> "" -> Forall (fun m => m.1 <> "") messages ->
  let '(calls, l') := dispatched l c subscribed on_bump messages in
  Sorted Z.lt (epochs_of path calls) /\ Forall (Z.lt (last_seen l path)) (epochs_of path calls) /\ last_seen l path <= last_seen l' path
  /\ Forall (fun m => m.1 = path -> m.2 <= last_seen l' path) messages.
Proof.
  intros Hne Hall. revert l c. induction Hall as [|[q e] rest Hq _ IH]; intros l c; cbn; [by repeat constructor|].
  unfold on_broadcast. cbn in Hq. rewrite (proj2 (str_truthy_true q)) by done.
  destruct (Z.leb_spec e (last_seen l q)) as [Hle|Hgt].
  - specialize (IH l (observe_broadcast c q e)). destruct (dispatched l _ subscribed on_bump rest) as [calls l'] eqn:Hd. destruct IH as (H1 & H2 & H3 & H4).
    split_and!; [done|done|done|]. constructor; [|done]. intros Hqp. cbn in Hqp |- *. subst. lia.
  - set (l1 := set_last_seen _ l). specialize (IH l1 (observe_broadcast c q e)). destruct (dispatched l1 _ subscribed on_bump rest) as [calls l'] eqn:Hd.
    destruct IH as (H1 & H2 & H3 & H4). unfold epochs_of in *. cbn. destruct (String.eqb_spec q path) as [->|Hqp].
    + assert (Hl1 : last_seen l1 path = e) by (unfold last_seen, l1; cbn; by rewrite lookup_insert_eq). rewrite Hl1 in *. cbn. split_and!.
      * constructor; [done|]. destruct H2; by constructor.
      * constructor; [done|]. eapply Forall_impl; [exact H2|]. intros z ?. lia.
      * lia.
      * constructor; [done|done].
    + assert (Hl1 : last_seen l1 path = last_seen l path) by (unfold last_seen, l1; cbn; by rewrite lookup_insert_ne). rewrite Hl1 in *. cbn in *.
      split_and!; [done|done|done|]. by constructor.
Qed.

(** A consumer alone on its subscription is called for each epoch of a subject once, in increasing order, and for every broadcast the epoch
    recorded as seen is at least the broadcast's: repeated and reordered broadcasts change nothing. *)
Theorem bumps_are_dispatched_once l c subscribed on_bump messages path : path <> "" -> Forall (fun m => m.1 <> "") messages ->
  let '(calls, l') := dispatched l c subscribed on_bump messages in
  StronglySorted Z.lt (epochs_of path calls) /\ Forall (Z.lt (last_seen l path)) (epochs_of path calls)
  /\ Forall (fun m => m.1 = path -> m.2 <= last_seen l' path) messages.
Proof.
  intros Hp Hall. pose proof (dispatched_above l c subscribed on_bump messages path Hp Hall) as H. destruct (dispatched l c subscribed on_bump messages) as [calls l'].
  destruct H as (H1 & H2 & _ & H4). split_and!; [|done|done]. apply Sorted_StronglySorted; [|done]. intros x y z. lia.
Qed.

Lemma bumps_are_dispatched_once_witness :
  epochs_of "a.epoch" (dispatched EpochListener_init EpochClient_init "*.epoch" 7 [("a.epoch", 2); ("b.epoch", 9); ("a.epoch", 1); ("a.epoch", 2); ("a.epoch", 5)]).1 = [2; 5]
  /\ StronglySorted Z.lt [2; 5].
Proof.
  assert (H : "a.epoch" <> "" /\ Forall (fun m : string * Z => m.1 <> "") [("a.epoch", 2); ("b.epoch", 9); ("a.epoch", 1); ("a.epoch", 2); ("a.epoch", 5)]).
  { split; [discriminate|]. repeat constructor; discriminate. }
  pose proof (bumps_are_dispatched_once EpochListener_init EpochClient_init "*.epoch" 7 _ "a.epoch" (proj1 H) (proj2 H)) as Hd.
  split; [vm_compute; reflexivity|]. vm_compute dispatched in Hd. destruct Hd as [Hd _]. vm_compute in Hd. exact Hd.
Defined.

(** Two consumers on one subject share what was seen: the one that hears a broadcast first keeps it from the other, whose own callback is not called,
    and the catch-up does not call it either. *)
Theorem second_consumer_hears_nothing l c path first second epoch : path <> "" -> last_seen l path < epoch ->
  let '(l1, c1, call1) := on_broadcast l c path first path epoch in
  let '(l2, _, call2) := on_broadcast l1 c1 path second path epoch in
  call1 = Some (BumpCall first epoch) /\ call2 = None /\ catch_up_decide l2 path second epoch = (l2, CatchUpNothing).
Proof.
  intros Hp Hlt. unfold on_broadcast. rewrite (proj2 (str_truthy_true path)) by done. destruct (Z.leb_spec epoch (last_seen l path)) as [|_]; [lia|].
  set (l1 := set_last_seen _ l). assert (Hl1 : last_seen l1 path = epoch) by (unfold last_seen, l1; cbn; by rewrite lookup_insert_eq).
  rewrite Hl1. destruct (Z.leb_spec epoch epoch) as [_|]; [|lia]. split_and!; [done|done|]. unfold catch_up_decide. rewrite Hl1.
  destruct (Z.ltb_spec epoch epoch) as [|_]; [lia|]. done.
Qed.

(** ** A consumer and its counter *)

(** One consumer, alone on its subject: the counter, what the consumer's state reflects, its reloads that are running, each with the counter as it
    stood when the reload read the state it is to store, and the catch-ups that have begun, with the value each has read. *)
Record lsys := mkLsys {
  ls_counter : Z;
  ls_listener : EpochListener;
  ls_client : EpochClient;
  ls_loaded : Z;
  ls_reloads : list (option Z);
  ls_passes : gmap nat (option Z);
}.

Inductive levent :=
| Moved (by_ : Z)
| Heard (epoch : Z)
| Echoed (id : nat) (epoch : Z)
| PassBegin (id : nat)
| PassRead (id : nat)
| PassDecide (id : nat)
| ReloadRead (i : nat)
| Reloaded (i : nat)
| ReloadFailed (i : nat).

Section Consumer.
Variable path : string.
Variable on_bump : nat.

Definition never_raises (_ : callback_call) : option unit := None.

Definition heard (l : EpochListener) (c : EpochClient) (reloads : nat) (s : lsys) : lsys :=
  mkLsys (ls_counter s) l c (ls_loaded s) (ls_reloads s ++ replicate reloads None)%list (ls_passes s).
Definition passing (id : nat) (answer : option Z) (s : lsys) : lsys :=
  mkLsys (ls_counter s) (ls_listener s) (ls_client s) (ls_loaded s) (ls_reloads s) (<[id := answer]> (ls_passes s)).
Definition passed (id : nat) (s : lsys) : lsys :=
  mkLsys (ls_counter s) (ls_listener s) (ls_client s) (ls_loaded s) (ls_reloads s) (delete id (ls_passes s)).

Definition decided (l : EpochListener) (action : catch_up_action) (s : lsys) : lsys :=
  match action with
  | CatchUpReset => let '(l, calls, _) := signal_reset_subject never_raises l path in heard l (ls_client s) (length calls) s
  | CatchUpBump _ => heard l (ls_client s) 1 s
  | CatchUpNothing => heard l (ls_client s) 0 s
  end.

(** A broadcast announces a move that was made. A reload is the consumer's callback, awaited: it reads the state as it stands at one moment and stores it at a
    later one, and the reloads of a consumer that is called again meanwhile run beside it. *)
Definition lapply (e : levent) (s : lsys) : option lsys :=
  match e with
  | Moved k => if 0 <? k then Some (mkLsys (ls_counter s + k) (ls_listener s) (ls_client s) (ls_loaded s) (ls_reloads s) (ls_passes s)) else None
  | Heard epoch =>
      if epoch <=? ls_counter s then
        let '(l, c, call) := on_broadcast (ls_listener s) (ls_client s) path on_bump path epoch in
        Some (heard l c (match call with Some _ => 1 | None => 0 end) s)
      else None
  | Echoed id epoch =>
      match ls_passes s !! id with
      | None => Some (if echo_catches_up (ls_listener s) path epoch then passing id None s else s)
      | Some _ => None
      end
  | PassBegin id => match ls_passes s !! id with None => Some (passing id None s) | Some _ => None end
  | PassRead id => match ls_passes s !! id with Some None => Some (passing id (Some (ls_counter s)) s) | _ => None end
  | PassDecide id =>
      match ls_passes s !! id with
      | Some (Some current) => let '(l, action) := catch_up_decide (ls_listener s) path on_bump current in Some (decided l action (passed id s))
      | _ => None
      end
  | ReloadRead i =>
      match ls_reloads s !! i with
      | Some None => Some (mkLsys (ls_counter s) (ls_listener s) (ls_client s) (ls_loaded s) (<[i := Some (ls_counter s)]> (ls_reloads s)) (ls_passes s))
      | _ => None
      end
  | Reloaded i =>
      match ls_reloads s !! i with
      | Some (Some z) => Some (mkLsys (ls_counter s) (ls_listener s) (ls_client s) z (delete i (ls_reloads s)) (ls_passes s))
      | _ => None
      end
  | ReloadFailed i =>
      match ls_reloads s !! i with
      | Some _ => Some (mkLsys (ls_counter s) (ls_listener s) (ls_client s) (ls_loaded s) (delete i (ls_reloads s)) (ls_passes s))
      | None => None
      end
  end.

Fixpoint lrun (l : list levent) (s : lsys) : option lsys :=
  match l with [] => Some s | e :: l => s' ← lapply e s; lrun l s' end.



(** The consumer read the counter at [primed], loaded state that reflects at least that, and subscribed. *)
Definition lsys_init (counter primed loaded : Z) (on_reset : option nat) : lsys :=
  let l := subscribe_prime EpochListener_init path primed in
  let '(l, c) := subscribe_register l EpochClient_init path on_bump on_reset in
  mkLsys counter l c loaded [] ∅.










End Consumer.



(** *** Runs *)

Definition shared_path : string := "3tears.mcp.rbac.epoch".
Definition primed_at_five : lsys := lsys_init shared_path 1 5 5 5 None.





(** A reload that raises is not tried again: the epoch counts as seen before the consumer is called, so later passes find nothing to do, and the
    consumer's state stays behind the counter until the subject moves once more. *)
Lemma failed_reload_is_not_retried :
  (fun s => (ls_loaded s, ls_counter s, ls_reloads s)) <$>
    lrun shared_path 1 [Moved 1; Heard 6; ReloadFailed 0; PassBegin 1; PassRead 1; PassDecide 1; PassBegin 2; PassRead 2; PassDecide 2] primed_at_five = Some (5, 6, []).
Proof. vm_compute. reflexivity. Qed.

(** Nor is one that stores over a newer one made good: a broadcast starts a reload, which reads the state before a second move; a pass finds that move, and its reload
    stores first; the slow one then stores what it read, and the passes that follow find the counter seen. *)
Lemma slow_reload_stores_over_a_newer_one :
  (fun s => (ls_loaded s, ls_counter s, ls_reloads s)) <$>
    lrun shared_path 1 [Moved 1; Heard 6; ReloadRead 0; Moved 1; PassBegin 1; PassRead 1; PassDecide 1; ReloadRead 1; Reloaded 1; Reloaded 0; PassBegin 2; PassRead 2; PassDecide 2] primed_at_five = Some (6, 7, []).
Proof. vm_compute. reflexivity. Qed.

(** A counter that only went forward is taken for a replaced one: a pass reads it, a move and its broadcast overtake the answer, and the pass then
    finds the epoch seen above the one it read, forgets it and resets the consumer. *)
Lemma overtaken_pass_resets :
  (fun s => (last_seen (ls_listener s) shared_path, ls_counter s, ls_reloads s)) <$>
    lrun shared_path 1 [PassBegin 1; PassRead 1; Moved 1; Heard 6; ReloadRead 0; Reloaded 0; PassDecide 1] primed_at_five = Some (0, 6, [None]).
Proof. vm_compute. reflexivity. Qed.
