(* ===== verification/ExpiringRows.v ===== *)
(** * Compare-and-swap rows that expire

    [BaseCollection.l2_cas_mutate] of [src/packages/core/src/threetears/core/collections/base.py] on a
    table with an expiry column, as the tables of [coordination/tables.py] have one: a row past its
    expiry is absent to the callback, in L2 and in L3. The rounds are those of [CasMutate], with the
    expiry read against the clock each time a row is looked at.

    [estep] interleaves any number of calls on one row with the clock, the write buffer of a deferred
    table ([collections/flush.py]), the entry lifetime L2 enforces and the sweep of expired rows. The
    theorem of this file is what every client of these rows builds on: a swap continues the last row
    swapped if that row was live when it was read, and starts from nothing only when every row swapped
    before has expired or is within a second of it. It asks of the callbacks that they never bring an expiry forward. *)

From Stdlib Require Import Ascii String Bool List NArith ZArith Lia.
From stdpp Require Import base list gmap strings relations functions.
From S2P Require Import Prelude CasMutate.

Open Scope Z_scope.

Section Expiring.
Context {F : Type} `{EqDecision F}.

(** The expiry column. *)
Variable expires_at : F -> option Z.

Abbreviation row := (@CasMutate.row F).
Abbreviation stored := (@CasMutate.stored F).
Abbreviation cprog := (@CasMutate.cprog F).
Abbreviation cas_action := (@CasMutate.cas_action F).
Abbreviation l2_value := (@CasMutate.l2_value F).
Abbreviation CasMutation := (@CasMutate.CasMutation F).

(** [_row_is_expired]: a row without an expiry never is. *)
Definition row_is_expired (now : Z) (r : row) : bool :=
  match expires_at (r_fields r) with Some e => e <=? now | None => false end.

(** An entry is written with what is left of its row's lifetime ([_l2_entry_lifetime]), which the header that carries it
    counts in whole seconds, rounded down ([_msg_ttl_seconds] of [kv.py]): the server may drop it up to a second before
    the row expires. Times are microseconds. *)
Definition TTL_GRAIN : Z := 1000000.
Definition l2_may_drop (now : Z) (r : row) : bool := row_is_expired (now + TTL_GRAIN) r.

(** ** The rounds *)

Section Call.
(** The callback, which may read the clock. *)
Variable mutate : Z -> option row -> cas_action.

Definition call_back (again : Z -> cprog) (prior : option row) (revision : option Z) (epoch : Z) : cprog :=
  CNow (fun now => swap_round (mutate now) again prior revision epoch).

(** The row as L3 has it, when L2 holds no live one. *)
Definition seed_round (again : Z -> cprog) (revision : option Z) (epoch : Z) : cprog :=
  CFetch (fun fetched =>
    match fetched with
    | None => CRet (Err CasStoreError)
    | Some None => call_back again None revision epoch
    | Some (Some seeded) =>
        CNow (fun now =>
          let prior := if row_is_expired now (s_row seeded) then None else Some (s_row seeded) in
          refuse_regressed_epoch epoch seeded (fun epoch =>
            match epoch with Err e => CRet (Err e) | Ok epoch => call_back again prior revision epoch end))
    end).

Fixpoint expiring_rounds (attempts : nat) (epoch : Z) : cprog :=
  match attempts with
  | O => CRet (Err ConcurrentModificationError)
  | S attempts =>
      CEntry (fun entry =>
        match entry with
        | None => CRet (Err CasKvError)
        | Some entry =>
            let again := expiring_rounds attempts in
            let revision := snd <$> entry in
            match entry with
            | Some (Live r, _) => CNow (fun now => if row_is_expired now r then seed_round again revision epoch else call_back again (Some r) revision epoch)
            | _ => seed_round again revision epoch
            end
        end)
  end.

(** [l2_cas_mutate] with its [max_retries]. *)
Definition expiring_cas_mutate (max_retries : nat) (remembered : option Z) : cprog :=
  l2_epoch remembered (fun epoch => match epoch with None => CRet (Err CasKvError) | Some epoch => expiring_rounds max_retries epoch end).
End Call.

(** ** The table *)

(** Whether the table writes behind ([_defers_l3_writes]), its clients' retry budget, and the callback of
    each call, given when the call began. *)
Variable deferred : bool.
Variable max_retries : nat.
Variable client : nat -> Z -> Z -> option row -> cas_action.

Record ecall := mkECall { e_started : Z; e_prog : cprog }.

(** The clock; the bucket's creation time, last revision and entry; the row in L3; what was put in the
    write buffers; the calls. *)
Record eworld := mkEWorld {
  ew_now : Z;
  ew_epoch : Z;
  ew_seq : Z;
  ew_entry : option (l2_value * Z);
  ew_l3 : option stored;
  ew_buffered : list stored;
  ew_calls : gmap nat ecall;
}.

(** An operation answered: how the call goes on, whether its swap just won, the tiers and the buffers. A
    deferred table's save is an addition to the write buffer ([_persist_cas_result]). *)
Definition eanswer (w : eworld) (p : cprog) : option (cprog * bool * (Z * option (l2_value * Z) * option stored) * list stored) :=
  match deferred, p with
  | true, CSave s k => Some (k (Some true), false, (ew_seq w, ew_entry w, ew_l3 w), s :: ew_buffered w)
  | _, _ =>
      '(q, won, tiers) ← answer (mkCWorld (ew_epoch w) (ew_seq w) (ew_entry w) (ew_l3 w) ∅) (ew_now w) p;
      Some (q, won, tiers, ew_buffered w)
  end.

Definition is_save (p : cprog) : bool := match p with CSave _ _ => true | _ => false end.

(** [steady] is what the tiers promise: L2 is not wiped, a collection remembers the bucket it reads, and
    the database takes the write of a swap that won. A flush may write any row ever buffered, at any time:
    the order decides. L2 drops an entry at the earliest a second before its row expires ([l2_may_drop]). *)
Inductive estep (steady : Prop) (w : eworld) : eworld -> Prop :=
| estep_starts i remembered : ew_calls w !! i = None -> (forall e, remembered = Some e -> e <= ew_epoch w /\ (steady -> e = ew_epoch w)) ->
    estep steady w (mkEWorld (ew_now w) (ew_epoch w) (ew_seq w) (ew_entry w) (ew_l3 w) (ew_buffered w)
      (<[i := mkECall (ew_now w) (expiring_cas_mutate (client i (ew_now w)) max_retries remembered)]> (ew_calls w)))
| estep_answers i c q won seq' entry' l3' buffered' : ew_calls w !! i = Some c ->
    eanswer w (e_prog c) = Some (q, won, (seq', entry', l3'), buffered') ->
    estep steady w (mkEWorld (ew_now w) (ew_epoch w) seq' entry' l3' buffered' (<[i := mkECall (e_started c) q]> (ew_calls w)))
| estep_raises i c q : ew_calls w !! i = Some c -> raised (e_prog c) = Some q -> (steady -> is_save (e_prog c) = false) ->
    estep steady w (mkEWorld (ew_now w) (ew_epoch w) (ew_seq w) (ew_entry w) (ew_l3 w) (ew_buffered w) (<[i := mkECall (e_started c) q]> (ew_calls w)))
| estep_time now' : ew_now w <= now' ->
    estep steady w (mkEWorld now' (ew_epoch w) (ew_seq w) (ew_entry w) (ew_l3 w) (ew_buffered w) (ew_calls w))
| estep_flush s o : s ∈ ew_buffered w -> l2_order_of s = Some o ->
    estep steady w (mkEWorld (ew_now w) (ew_epoch w) (ew_seq w) (ew_entry w) (upsert_ordered s o (ew_l3 w)).2 (ew_buffered w) (ew_calls w))
| estep_lapses r rev : ew_entry w = Some (Live r, rev) -> l2_may_drop (ew_now w) r = true ->
    estep steady w (mkEWorld (ew_now w) (ew_epoch w) (ew_seq w) None (ew_l3 w) (ew_buffered w) (ew_calls w))
| estep_swept s e : ew_l3 w = Some s -> expires_at (r_fields (s_row s)) = Some e -> e < ew_now w ->
    estep steady w (mkEWorld (ew_now w) (ew_epoch w) (ew_seq w) (ew_entry w) None (ew_buffered w) (ew_calls w))
| estep_wiped epoch' : ew_epoch w < epoch' -> (steady -> False) ->
    estep steady w (mkEWorld (ew_now w) epoch' 0 None (ew_l3 w) (ew_buffered w) (ew_calls w)).

(** A row nobody has written. *)
Definition eworld0 (now epoch : Z) : eworld := mkEWorld now epoch 0 None None [] ∅.

Definition ereachable (steady : Prop) (w : eworld) : Prop := exists now epoch, rtc (estep steady) (eworld0 now epoch) w.

Definition ereturned (w : eworld) (i : nat) : option (Z * result CasMutation cas_error) :=
  match ew_calls w !! i with Some (mkECall t0 (CRet r)) => Some (t0, r) | _ => None end.

(** ** What the swaps made *)

Record swap := mkSwap { sw_call : nat; sw_started : Z; sw_prior : option row; sw_time : Z; sw_rev : Z; sw_row : row }.

(** The row is what the callback of the call makes of the prior row, which had not expired when the call began. *)
Definition made (s : swap) : Prop :=
  sw_started s <= sw_time s /\ (forall p, sw_prior s = Some p -> row_is_expired (sw_started s) p = false)
  /\ exists t new_row ts, sw_started s <= t /\ client (sw_call s) (sw_started s) t (sw_prior s) = Upsert new_row
     /\ sw_row s = stamped ts (sw_prior s) new_row.

Definition lapsed (t : Z) (swaps : list swap) : Prop := Forall (fun s => l2_may_drop t (sw_row s) = true) swaps.
Definition among (swaps : list swap) (r : row) : Prop := exists s, s ∈ swaps /\ sw_row s = r.

(** A swap continues the last row swapped, or starts from nothing once L2 may have dropped every row. One may also
    come too late: continue an earlier row once L2 may have dropped every row. *)
Definition follows (swaps : list swap) (s : swap) : Prop :=
  made s /\ Forall (fun s' => sw_time s' <= sw_time s /\ sw_rev s' < sw_rev s) swaps
  /\ match sw_prior s with
     | None => lapsed (sw_time s) swaps
     | Some p => (exists s', list.last swaps = Some s' /\ sw_row s' = p) \/ (lapsed (sw_time s) swaps /\ among swaps p)
     end.

Inductive history : list swap -> Prop :=
| history_nil : history []
| history_snoc swaps s : history swaps -> follows swaps s -> history (swaps ++ [s]).

Lemma row_is_expired_mono t t' r : t <= t' -> row_is_expired t r = true -> row_is_expired t' r = true.
Proof. unfold row_is_expired. destruct (expires_at (r_fields r)); [|done]. rewrite !Z.leb_le. lia. Qed.

Lemma row_is_live_mono t t' r : t <= t' -> row_is_expired t' r = false -> row_is_expired t r = false.
Proof. intros Hle Hlive. destruct (row_is_expired t r) eqn:Ht; [|done]. by rewrite (row_is_expired_mono t t' r Hle Ht) in Hlive. Qed.

Lemma lapsed_mono t t' swaps : t <= t' -> lapsed t swaps -> lapsed t' swaps.
Proof. intros Hle. apply List.Forall_impl. intros s. apply row_is_expired_mono. lia. Qed.

Lemma expired_may_drop t r : row_is_expired t r = true -> l2_may_drop t r = true.
Proof. apply row_is_expired_mono. unfold TTL_GRAIN. lia. Qed.

Lemma lapsed_in t swaps s : lapsed t swaps -> s ∈ swaps -> l2_may_drop t (sw_row s) = true.
Proof. unfold lapsed. rewrite list.Forall_forall. intros Hl Hs. by apply Hl. Qed.

Lemma last_in {A} (l : list A) x : list.last l = Some x -> x ∈ l.
Proof. intros [l' ->]%list.last_Some. rewrite elem_of_app, list_elem_of_singleton. by right. Qed.

(** Of two swaps one follows a history with the other in it. *)
Lemma history_before swaps x y : history swaps -> x ∈ swaps -> y ∈ swaps -> x <> y ->
  (exists l, x ∈ l /\ follows l y) \/ (exists l, y ∈ l /\ follows l x).
Proof.
  induction 1 as [|swaps s _ IH Hf]; [by intros ?%elem_of_nil|]. rewrite !elem_of_app, !list_elem_of_singleton.
  intros [Hx| ->] [Hy| ->] Hne; [by apply IH|left; by exists swaps|right; by exists swaps|done].
Qed.

(** Of two swaps that both started from nothing one found the row of the other expired, or within a second of it. *)
Lemma fresh_swaps_apart swaps x y : history swaps -> x ∈ swaps -> y ∈ swaps -> x <> y -> sw_prior x = None -> sw_prior y = None ->
  l2_may_drop (sw_time y) (sw_row x) = true \/ l2_may_drop (sw_time x) (sw_row y) = true.
Proof.
  intros Hh Hx Hy Hne Hpx Hpy. destruct (history_before swaps x y Hh Hx Hy Hne) as [(l & Hin & _ & _ & Hl)|(l & Hin & _ & _ & Hl)].
  - rewrite Hpy in Hl. left. by apply (lapsed_in _ l).
  - rewrite Hpx in Hl. right. by apply (lapsed_in _ l).
Qed.

Lemma history_made swaps s : history swaps -> s ∈ swaps -> made s.
Proof.
  induction 1 as [|swaps s' _ IH Hf]; [by intros ?%elem_of_nil|]. rewrite elem_of_app, list_elem_of_singleton. intros [Hs| ->]; [by apply IH|apply Hf].
Qed.

(** What a table asks of its callbacks: the rows they write keep a form, and a row written over a live
    one keeps its expiry. *)
Class KeepsExpiry := {
  well_formed : F -> Prop;
  keeps_expiry i t0 t prior new_row : t0 <= t -> client i t0 t prior = Upsert new_row ->
    (forall p, prior = Some p -> well_formed (r_fields p) /\ row_is_expired t0 p = false) ->
    well_formed (r_fields new_row) /\ forall p, prior = Some p -> expires_at (r_fields new_row) = expires_at (r_fields p);
}.

Section Kept.
Context `{KeepsExpiry}.

Lemma stamped_fields ts prior new_row : r_fields (@stamped F ts prior new_row) = r_fields new_row.
Proof. done. Qed.

Lemma made_keeps s : made s -> (forall p, sw_prior s = Some p -> well_formed (r_fields p)) ->
  well_formed (r_fields (sw_row s)) /\ forall p, sw_prior s = Some p -> expires_at (r_fields (sw_row s)) = expires_at (r_fields p).
Proof.
  intros (Hst & Hlive & t & new_row & ts & Ht & Hc & ->) Hwf. rewrite stamped_fields. refine (keeps_expiry _ _ _ _ _ Ht Hc _). intros p Hp. eauto.
Qed.

Lemma follows_prior swaps s p : follows swaps s -> sw_prior s = Some p -> among swaps p.
Proof. intros (_ & _ & Hp) Hs. rewrite Hs in Hp. destruct Hp as [(s' & Hl & Hr)|[_ ?]]; [|done]. exists s'. split; [by apply last_in|done]. Qed.

Lemma history_well_formed swaps : history swaps -> Forall (fun s => well_formed (r_fields (sw_row s))) swaps.
Proof.
  induction 1 as [|swaps s _ IH Hf]; [done|]. apply Forall_app. split; [done|]. apply Forall_singleton. rewrite list.Forall_forall in IH.
  refine (proj1 (made_keeps s (proj1 Hf) _)). intros p Hp. destruct (follows_prior swaps s p Hf Hp) as (s' & Hin & <-). by apply IH.
Qed.

Lemma follows_expiry swaps s p : history swaps -> follows swaps s -> sw_prior s = Some p -> expires_at (r_fields (sw_row s)) = expires_at (r_fields p).
Proof.
  intros Hh Hf Hp. refine (proj2 (made_keeps s (proj1 Hf) _) p Hp). intros p' Hp'. destruct (follows_prior swaps s p' Hf Hp') as (s' & Hin & <-).
  pose proof (history_well_formed swaps Hh) as Hwf. rewrite list.Forall_forall in Hwf. by apply Hwf.
Qed.

Lemma same_expiry t r r' : expires_at (r_fields r) = expires_at (r_fields r') -> row_is_expired t r = row_is_expired t r'.
Proof. unfold row_is_expired. by intros ->. Qed.

(** Once L2 may drop the last row it may every row. *)
Lemma history_lapses swaps s t : history (swaps ++ [s]) -> sw_time s <= t -> l2_may_drop t (sw_row s) = true -> lapsed t swaps.
Proof.
  remember (swaps ++ [s]) as l eqn:Hl. intros Hh. revert swaps s Hl. induction Hh as [|swaps s Hh IH Hf]; intros swaps' s' Hl Ht He.
  { by destruct swaps'. }
  apply app_inj_tail in Hl as [<- <-]. pose proof Hf as (_ & Htimes & Hp). destruct (sw_prior s) as [p|] eqn:Hpr; [|by apply (lapsed_mono (sw_time s))].
  destruct Hp as [(s' & Hlast & Hr)|[Hp _]]; [|by apply (lapsed_mono (sw_time s))].
  unfold l2_may_drop in He. rewrite (same_expiry _ (sw_row s) p), <- Hr in He by (by apply (follows_expiry swaps)).
  pose proof (proj1 (list.last_Some _ _) Hlast) as [swaps' ->]. apply Forall_app. rewrite Forall_app, Forall_singleton in Htimes.
  split; [|by apply Forall_singleton]. apply (IH swaps' s'); [done|lia|done].
Qed.

(** ** What a call may do *)

(** What a call knows or owes: the live entry it read; that L2 held no live row; L3's row; the row to build on
    while the entry is at a revision; that its swap won, and whether its row was handed to L3 or the buffer;
    that L3 refused it for a later one. *)
Inductive eticket :=
| EIdle
| ESaw (r : row) (rev : Z)
| EGap (revision : option Z)
| EFetched (revision : option Z) (r : row)
| EReady (prior : option row) (revision : option Z)
| EWon (prior : option row) (rev : Z) (r : row) (saved : bool)
| ERefused (prior : option row) (rev : Z) (r : row).

(** The swap a ticket says has won. *)
Definition ewon (tk : eticket) : option (option row * Z * row) :=
  match tk with EWon prior rev r _ | ERefused prior rev r => Some (prior, rev, r) | _ => None end.
Definition esaved (tk : eticket) : bool := match tk with EWon _ _ _ saved => saved | ERefused _ _ _ => true | _ => false end.

Definition cas_outcome (prior : option row) : string := if isSome prior then "updated" else "created".

Section Ok.
Variable E : Z.
Variable i : nat.
Variable t0 : Z.

Fixpoint eok (tk : eticket) (p : cprog) : Prop :=
  match p with
  | CRet (Ok m) =>
      match ewon tk with
      | Some (prior, _, r) => cm_action m = cas_outcome prior /\ s_row <$> cm_row m = Some r
      | None => cm_action m = "noop" /\ cm_row m = None
      end
  | CRet (Err _) => True
  | CNow k => forall t, t0 <= t ->
      match tk with
      | ESaw r rev => eok (if row_is_expired t r then EGap (Some rev) else EReady (Some r) (Some rev)) (k t)
      | EFetched revision r => eok (EReady (if row_is_expired t r then None else Some r) revision) (k t)
      | _ => eok tk (k t)
      end
  | CEpoch k => eok tk (k (Some E)) /\ eok tk (k None)
  | CEntry k => tk = EIdle /\ eok EIdle (k None) /\ eok (EGap None) (k (Some None)) /\ forall r rev, eok (ESaw r rev) (k (Some (Some (Live r, rev))))
  | CFetch k =>
      match tk with
      | EGap revision => eok tk (k None) /\ eok (EReady None revision) (k (Some None))
          /\ forall r rev, eok (EFetched revision r) (k (Some (Some (with_l2_order r (mkL2Order E rev)))))
      | ERefused _ _ _ => forall fetched, eok tk (k fetched)
      | _ => False
      end
  | CCreate r k => exists prior t new_row ts, tk = EReady prior None /\ t0 <= t /\ client i t0 t prior = Upsert new_row /\ r = stamped ts prior new_row
      /\ eok EIdle (k None) /\ eok EIdle (k (Some None)) /\ forall rev, eok (EWon prior rev r false) (k (Some (Some rev)))
  | CUpdate r revision k => exists prior t new_row ts, tk = EReady prior (Some revision) /\ t0 <= t /\ client i t0 t prior = Upsert new_row
      /\ r = stamped ts prior new_row /\ eok EIdle (k None) /\ eok EIdle (k (Some None)) /\ forall rev, eok (EWon prior rev r false) (k (Some (Some rev)))
  | CDeleteAt revision k => exists prior r, tk = ERefused prior revision r /\ forall deleted, eok tk (k deleted)
  | CSave s k => exists prior rev r, tk = EWon prior rev r false /\ s = with_l2_order r (mkL2Order E rev)
      /\ eok (EWon prior rev r true) (k (Some true)) /\ eok (ERefused prior rev r) (k (Some false))
  end.

Lemma after_won_eok prior rev r : eok (EWon prior rev r false) (after_won prior E rev r).
Proof.
  split; [|done]. rewrite Z.eqb_refl. exists prior, rev, r. split_and!; [done|done|done|]. intros fetched.
  assert (Hw : forall e, eok (ERefused prior rev r) (withdraw rev e)) by (intros e; by exists prior, r).
  destruct fetched as [fetched|]; [|apply Hw]. destruct (l2_order_of _) as [ours|]; [|apply Hw]. destruct (fetched ≫= l2_order_of) as [theirs|]; [|apply Hw].
  by destruct (order_lt theirs ours); [apply Hw|].
Qed.

Lemma call_back_eok again prior revision : eok EIdle (again E) -> eok (EReady prior revision) (call_back (client i t0) again prior revision E).
Proof.
  intros Hagain t Ht. unfold swap_round. destruct (client i t0 t prior) as [new_row| |] eqn:Hc; [|done|done]. intros ts _.
  destruct revision as [revision|]; exists prior, t, new_row, ts; (split_and!; [done|done|done|done|done|done|intros rev; apply after_won_eok]).
Qed.

Lemma seed_round_eok again revision : eok EIdle (again E) -> eok (EGap revision) (seed_round (client i t0) again revision E).
Proof.
  intros Hagain. split_and!; [done|by apply call_back_eok|]. intros r rev t Ht. cbv zeta.
  change (s_row (with_l2_order r (mkL2Order E rev))) with r. unfold refuse_regressed_epoch.
  change (l2_order_of (with_l2_order r (mkL2Order E rev))) with (Some (mkL2Order E rev)). cbn [o_epoch]. rewrite Z.ltb_irrefl. by apply call_back_eok.
Qed.

Lemma expiring_rounds_eok attempts : eok EIdle (expiring_rounds (client i t0) attempts E).
Proof.
  induction attempts as [|attempts IH]; [done|]. split_and!; [done|done|by apply seed_round_eok|]. intros r rev t Ht.
  destruct (row_is_expired t r); [by apply seed_round_eok|by apply call_back_eok].
Qed.

Lemma expiring_cas_mutate_eok remembered : (forall e, remembered = Some e -> e = E) -> eok EIdle (expiring_cas_mutate (client i t0) max_retries remembered).
Proof.
  intros Hr. unfold expiring_cas_mutate, l2_epoch. destruct remembered as [e|]; [rewrite (Hr e eq_refl); apply expiring_rounds_eok|].
  split; [apply expiring_rounds_eok|done].
Qed.
End Ok.

(** ** The tiers *)

Definition within (revision : option Z) (seq : Z) : Prop := forall rev, revision = Some rev -> rev <= seq.

Definition eagrees (w : eworld) (swaps : list swap) (i : nat) (t0 : Z) (tk : eticket) : Prop :=
  let won prior rev r := exists s, s ∈ swaps /\ sw_call s = i /\ sw_started s = t0 /\ sw_prior s = prior /\ sw_rev s = rev /\ sw_row s = r in
  match tk with
  | EIdle => True
  | ESaw r rev => rev <= ew_seq w /\ among swaps r /\ (snd <$> ew_entry w = Some rev -> ew_entry w = Some (Live r, rev))
  | EGap revision => within revision (ew_seq w) /\ (snd <$> ew_entry w = revision -> lapsed (ew_now w) swaps)
  | EFetched revision r => within revision (ew_seq w) /\ among swaps r /\ (snd <$> ew_entry w = revision -> lapsed (ew_now w) swaps)
  | EReady prior revision => within revision (ew_seq w) /\ (forall p, prior = Some p -> among swaps p /\ row_is_expired t0 p = false)
      /\ (snd <$> ew_entry w = revision -> lapsed (ew_now w) swaps \/ exists p rev, prior = Some p /\ ew_entry w = Some (Live p, rev))
  | EWon prior rev r _ => won prior rev r
  | ERefused prior rev r => won prior rev r /\ rev <= ew_seq w /\ snd <$> ew_entry w <> Some rev
  end.

(** A row on its way to L3 is one a swap made, under the order it won. *)
Definition in_store (w : eworld) (T : nat -> eticket) (swaps : list swap) (s : stored) : Prop :=
  exists x, x ∈ swaps /\ s = with_l2_order (sw_row x) (mkL2Order (ew_epoch w) (sw_rev x)) /\ esaved (T (sw_call x)) = true.

Record esound (w : eworld) (T : nat -> eticket) (swaps : list swap) : Prop := mkESound {
  es_history : history swaps;
  es_once : NoDup (sw_call <$> swaps);
  es_past : Forall (fun s => sw_time s <= ew_now w /\ sw_rev s <= ew_seq w) swaps;
  es_entry : match ew_entry w with
             | None => lapsed (ew_now w) swaps
             | Some (Live r, rev) => exists s, list.last swaps = Some s /\ sw_row s = r /\ sw_rev s = rev
             | _ => False
             end;
  es_l3 : forall s, ew_l3 w = Some s -> in_store w T swaps s;
  es_buffered : forall s, s ∈ ew_buffered w -> in_store w T swaps s;
  es_calls : forall i c, ew_calls w !! i = Some c -> e_started c <= ew_now w /\ eok (ew_epoch w) i (e_started c) (T i) (e_prog c)
    /\ eagrees w swaps i (e_started c) (T i);
  es_swaps : forall s, s ∈ swaps -> is_Some (ew_calls w !! sw_call s) /\ isSome (ewon (T (sw_call s))) = true;
}.

(** What other calls do to a ticket: nothing, an entry that lapsed, or a new one. *)
Lemma eagrees_stable w w' swaps swaps' i t0 tk : ew_now w <= ew_now w' -> ew_seq w <= ew_seq w' -> (forall s, s ∈ swaps -> s ∈ swaps') ->
  ((ew_entry w' = ew_entry w /\ swaps' = swaps) \/ (ew_entry w' = None /\ lapsed (ew_now w') swaps') \/ exists v rev, ew_entry w' = Some (v, rev) /\ ew_seq w < rev) ->
  eagrees w swaps i t0 tk -> eagrees w' swaps' i t0 tk.
Proof.
  intros Hnow Hseq Hin Hcase.
  assert (Hrev : forall revision, within revision (ew_seq w) -> within revision (ew_seq w')) by (intros revision Hb rev Hr; specialize (Hb rev Hr); lia).
  assert (Ham : forall r, among swaps r -> among swaps' r) by (intros r (s & Hs & Hr); exists s; auto).
  assert (Hwon : forall prior rev r, (exists s, s ∈ swaps /\ sw_call s = i /\ sw_started s = t0 /\ sw_prior s = prior /\ sw_rev s = rev /\ sw_row s = r) ->
    exists s, s ∈ swaps' /\ sw_call s = i /\ sw_started s = t0 /\ sw_prior s = prior /\ sw_rev s = rev /\ sw_row s = r) by (intros prior rev r (s & Hs & ?); exists s; auto).
  assert (Hgap : forall revision, within revision (ew_seq w) -> (snd <$> ew_entry w = revision -> lapsed (ew_now w) swaps) ->
    snd <$> ew_entry w' = revision -> lapsed (ew_now w') swaps').
  { intros revision Hb Hl. destruct Hcase as [[-> ->]|[[-> Hl']|(v & rev & -> & Hlt)]]; [|done|intros <-; specialize (Hb rev eq_refl); lia].
    intros Hr. by apply (lapsed_mono (ew_now w)), Hl. }
  destruct tk as [|r rev|revision|revision r|prior revision|prior rev r saved|prior rev r]; simpl; [done|..|apply Hwon|].
  - intros (Hb & Hr & He). split_and!; [lia|by apply Ham|]. destruct Hcase as [[-> ->]|[[-> Hl']|(v & rev' & -> & Hlt)]]; [done|done|].
    intros [= ->]. lia.
  - intros (Hb & Hl). split; [by apply Hrev|by apply Hgap].
  - intros (Hb & Hr & Hl). split_and!; [by apply Hrev|by apply Ham|by apply Hgap].
  - intros (Hb & Hp & Hl). split_and!; [by apply Hrev| |].
    + intros p Hpr. destruct (Hp p Hpr) as [Hap Hlive]. split; [by apply Ham|done].
    + destruct Hcase as [[-> ->]|[[-> Hl']|(v & rev & -> & Hlt)]]; [|by left|intros <-; specialize (Hb rev eq_refl); lia].
      intros Hr. destruct (Hl Hr) as [Hlap|Hlive]; [left; by apply (lapsed_mono (ew_now w))|by right].
  - intros (Hw & Hb & Hne). split_and!; [by apply Hwon|lia|]. destruct Hcase as [[-> _]|[[-> _]|(v & rev' & -> & Hlt)]]; [done|done|].
    intros [= ->]. lia.
Qed.

Lemma in_store_grows w T swaps swaps' i tk' s : (forall x, x ∈ swaps -> x ∈ swaps') -> (esaved (T i) = true -> esaved tk' = true) ->
  in_store w T swaps s -> in_store w (<[i := tk']> T) swaps' s.
Proof.
  intros Hin Hsaved (x & Hx & -> & Hs). exists x. split_and!; [by apply Hin|done|].
  destruct (decide (i = sw_call x)) as [->|Hne]; [rewrite fn_lookup_insert; auto|by rewrite fn_lookup_insert_ne].
Qed.

(** The calls after one of them went on. *)
Lemma calls_went_on w w' T swaps swaps' i c tk' q : esound w T swaps -> ew_calls w !! i = Some c ->
  ew_calls w' = <[i := mkECall (e_started c) q]> (ew_calls w) -> ew_epoch w' = ew_epoch w -> ew_now w' = ew_now w -> ew_seq w <= ew_seq w' ->
  (forall s, s ∈ swaps -> s ∈ swaps') ->
  ((ew_entry w' = ew_entry w /\ swaps' = swaps) \/ (ew_entry w' = None /\ lapsed (ew_now w') swaps') \/ exists v rev, ew_entry w' = Some (v, rev) /\ ew_seq w < rev) ->
  eok (ew_epoch w) i (e_started c) tk' q -> eagrees w' swaps' i (e_started c) tk' ->
  forall j d, ew_calls w' !! j = Some d -> e_started d <= ew_now w' /\ eok (ew_epoch w') j (e_started d) (<[i := tk']> T j) (e_prog d)
    /\ eagrees w' swaps' j (e_started d) (<[i := tk']> T j).
Proof.
  intros Hs Hi Hcalls Hep Hnow Hseq Hin Hcase Hok Hag j d. rewrite Hcalls, Hep. destruct (decide (i = j)) as [<-|Hne].
  - rewrite lookup_insert_eq, fn_lookup_insert. intros [= <-]. split_and!; [|done|done]. rewrite Hnow. by apply (es_calls _ _ _ Hs i c).
  - rewrite lookup_insert_ne, fn_lookup_insert_ne by done. intros Hj. destruct (es_calls _ _ _ Hs j d Hj) as (Hst & Ho & Ha).
    split_and!; [by rewrite Hnow|done|]. apply (eagrees_stable w w' swaps swaps'); [lia|done|done|done|done].
Qed.

(** A call goes on without a swap. *)
Lemma esound_quiet w T swaps i c tk' q l3' buffered' : esound w T swaps -> ew_calls w !! i = Some c ->
  (isSome (ewon (T i)) = true -> isSome (ewon tk') = true) -> (esaved (T i) = true -> esaved tk' = true) ->
  (forall s, l3' = Some s -> in_store w (<[i := tk']> T) swaps s) -> (forall s, s ∈ buffered' -> in_store w (<[i := tk']> T) swaps s) ->
  eok (ew_epoch w) i (e_started c) tk' q -> eagrees w swaps i (e_started c) tk' ->
  esound (mkEWorld (ew_now w) (ew_epoch w) (ew_seq w) (ew_entry w) l3' buffered' (<[i := mkECall (e_started c) q]> (ew_calls w))) (<[i := tk']> T) swaps.
Proof.
  intros Hs Hi Hwon Hsaved Hl3 Hbuf Hok Hag. constructor; simpl; [apply Hs|apply Hs|apply Hs|apply Hs|exact Hl3|exact Hbuf| |].
  - refine (calls_went_on w (mkEWorld _ _ _ _ _ _ _) T swaps swaps i c tk' q Hs Hi eq_refl eq_refl eq_refl _ _ _ Hok Hag); [simpl; lia|done|by left].
  - intros s Hin. destruct (es_swaps _ _ _ Hs s Hin) as [Hc Hw]. split; [rewrite lookup_insert_is_Some'; by right|].
    destruct (decide (i = sw_call s)) as [->|Hne]; [rewrite fn_lookup_insert; auto|by rewrite fn_lookup_insert_ne].
Qed.

Lemma esound_kept w T swaps i c tk' q : esound w T swaps -> ew_calls w !! i = Some c ->
  (isSome (ewon (T i)) = true -> isSome (ewon tk') = true) -> (esaved (T i) = true -> esaved tk' = true) ->
  eok (ew_epoch w) i (e_started c) tk' q -> eagrees w swaps i (e_started c) tk' ->
  esound (mkEWorld (ew_now w) (ew_epoch w) (ew_seq w) (ew_entry w) (ew_l3 w) (ew_buffered w) (<[i := mkECall (e_started c) q]> (ew_calls w))) (<[i := tk']> T) swaps.
Proof.
  intros Hs Hi Hwon Hsaved Hok Hag. apply esound_quiet; [done|done|done|done|..|done|done]; intros s Hin;
    (apply (in_store_grows w T swaps); [done|done|]); [by apply (es_l3 _ _ _ Hs)|by apply (es_buffered _ _ _ Hs)].
Qed.

(** A swap wins: it follows what was swapped before. *)
Lemma esound_won w T swaps i c prior revision t new_row ts q : esound w T swaps -> ew_calls w !! i = Some c ->
  T i = EReady prior revision -> snd <$> ew_entry w = revision -> e_started c <= t -> client i (e_started c) t prior = Upsert new_row ->
  let r := stamped ts prior new_row in
  eok (ew_epoch w) i (e_started c) (EWon prior (ew_seq w + 1) r false) q ->
  esound (mkEWorld (ew_now w) (ew_epoch w) (ew_seq w + 1) (Some (Live r, ew_seq w + 1)) (ew_l3 w) (ew_buffered w) (<[i := mkECall (e_started c) q]> (ew_calls w)))
    (<[i := EWon prior (ew_seq w + 1) r false]> T) (swaps ++ [mkSwap i (e_started c) prior (ew_now w) (ew_seq w + 1) r]).
Proof.
  intros Hs Hi HT Hrev Ht Hc r Hok. destruct (es_calls _ _ _ Hs i c Hi) as (Hst & _ & Hag). rewrite HT in Hag. destruct Hag as (Hb & Hp & Hl).
  specialize (Hl Hrev). set (s := mkSwap i (e_started c) prior (ew_now w) (ew_seq w + 1) r).
  assert (Hin : forall x, x ∈ swaps -> x ∈ swaps ++ [s]) by (intros x Hx; apply elem_of_app; by left).
  pose proof (es_past _ _ _ Hs) as Hpast. pose proof (es_entry _ _ _ Hs) as He.
  assert (Hnew : forall x, x ∈ swaps -> sw_call x <> i).
  { intros x Hx <-. destruct (es_swaps _ _ _ Hs x Hx) as [_ Hw]. by rewrite HT in Hw. }
  assert (Hf : follows swaps s).
  { split; [split; [exact Hst|split; [intros p Hpr; by apply (Hp p)|by exists t, new_row, ts]]|split].
    - refine (List.Forall_impl _ _ Hpast). simpl. lia.
    - simpl. destruct prior as [p|].
      + destruct Hl as [Hl|(p' & rev & [= <-] & Hent)]; [right; split; [done|by apply (Hp p)]|left].
        rewrite Hent in He. destruct He as (s' & Hlast & Hr & _). by exists s'.
      + destruct Hl as [Hl|(p' & rev & Habs & _)]; done. }
  constructor; simpl; [by constructor; [apply Hs|]| | | | | | |].
  - rewrite fmap_app. apply list.NoDup_app. split_and!; [apply Hs| |apply NoDup_singleton].
    intros j (x & -> & Hx)%list_elem_of_fmap. simpl. rewrite list_elem_of_singleton. by apply Hnew.
  - apply Forall_app. split; [refine (List.Forall_impl _ _ Hpast); simpl; lia|]. apply Forall_singleton. simpl. lia.
  - exists s. by rewrite last_snoc.
  - intros x Hx. apply (in_store_grows w T swaps); [done|by rewrite HT|by apply (es_l3 _ _ _ Hs)].
  - intros x Hx. apply (in_store_grows w T swaps); [done|by rewrite HT|by apply (es_buffered _ _ _ Hs)].
  - refine (calls_went_on w (mkEWorld _ _ _ _ _ _ _) T swaps _ i c _ q Hs Hi eq_refl eq_refl eq_refl _ Hin _ Hok _); simpl; [lia| |].
    + right. right. eexists _, _. split; [done|lia].
    + exists s. split_and!; try done. apply elem_of_app. right. by apply list_elem_of_singleton.
  - intros x Hx. apply elem_of_app in Hx as [Hx| ->%list_elem_of_singleton].
    + destruct (es_swaps _ _ _ Hs x Hx) as [Hcx Hw]. split; [rewrite lookup_insert_is_Some'; by right|].
      rewrite fn_lookup_insert_ne; [done|]. intros ->. by apply (Hnew x Hx).
    + simpl. by rewrite lookup_insert_eq, fn_lookup_insert.
Qed.

Lemma history_last_rev swaps s x : history swaps -> list.last swaps = Some s -> x ∈ swaps -> sw_rev x <= sw_rev s.
Proof.
  intros Hh. destruct Hh as [|swaps s' Hh (_ & Hbefore & _)]; [done|]. rewrite last_snoc. intros [= <-]. rewrite elem_of_app, list_elem_of_singleton.
  intros [Hx| ->]; [|lia]. rewrite list.Forall_forall in Hbefore. specialize (Hbefore x Hx). lia.
Qed.

Lemma history_rev_inj swaps x y : history swaps -> x ∈ swaps -> y ∈ swaps -> sw_rev x = sw_rev y -> x = y.
Proof.
  induction 1 as [|swaps s Hh IH (_ & Hbefore & _)]; [by intros ?%elem_of_nil|]. rewrite list.Forall_forall in Hbefore.
  rewrite !elem_of_app, !list_elem_of_singleton. intros [Hx| ->] [Hy| ->] Heq; [by apply IH|specialize (Hbefore x Hx); lia|specialize (Hbefore y Hy); lia|done].
Qed.

(** L3 refuses a row only for one of a later swap. *)
Lemma refused_is_past w T swaps i c prior rev r old : esound w T swaps -> ew_calls w !! i = Some c -> T i = EWon prior rev r false ->
  ew_l3 w = Some old -> stored_before old (mkL2Order (ew_epoch w) rev) = false ->
  rev <= ew_seq w /\ snd <$> ew_entry w <> Some rev.
Proof.
  intros Hs Hi HT Hl3 Hold. destruct (es_calls _ _ _ Hs i c Hi) as (_ & _ & Hag). rewrite HT in Hag.
  destruct Hag as (x & Hx & Hxi & _ & _ & Hxr & _). destruct (es_l3 _ _ _ Hs old Hl3) as (y & Hy & -> & Hsaved).
  unfold stored_before in Hold. simpl in Hold. apply order_lt_false in Hold.
  assert (Hle : rev <= sw_rev y) by (unfold order_le in Hold; simpl in Hold; lia).
  assert (Hne : sw_rev y <> rev).
  { intros Heq. assert (x = y) as -> by (apply (history_rev_inj swaps); [apply Hs|done|done|lia]). rewrite Hxi, HT in Hsaved. done. }
  pose proof (es_past _ _ _ Hs) as Hpast. rewrite list.Forall_forall in Hpast. specialize (Hpast y Hy). split; [lia|].
  pose proof (es_entry _ _ _ Hs) as He. destruct (ew_entry w) as [[[r'| |] rev']|]; try done. destruct He as (s & Hlast & _ & <-).
  intros [= Heq]. pose proof (history_last_rev swaps s y (es_history _ _ _ Hs) Hlast Hy). lia.
Qed.

Lemma esound_saved w T swaps i c prior rev r q : esound w T swaps -> ew_calls w !! i = Some c -> T i = EWon prior rev r false ->
  let s := with_l2_order r (mkL2Order (ew_epoch w) rev) in
  let up := upsert_ordered s (mkL2Order (ew_epoch w) rev) (ew_l3 w) in
  let tk' := if up.1 then EWon prior rev r true else ERefused prior rev r in
  eok (ew_epoch w) i (e_started c) tk' q ->
  esound (mkEWorld (ew_now w) (ew_epoch w) (ew_seq w) (ew_entry w) up.2 (ew_buffered w) (<[i := mkECall (e_started c) q]> (ew_calls w))) (<[i := tk']> T) swaps.
Proof.
  intros Hs Hi HT s up tk' Hok. destruct (es_calls _ _ _ Hs i c Hi) as (_ & _ & Hag). rewrite HT in Hag. simpl in Hag.
  assert (Htk : isSome (ewon tk') = true /\ esaved tk' = true) by (unfold tk'; by destruct up.1). destruct Htk as [Hw Hsv].
  assert (Hkept : forall s', in_store w T swaps s' -> in_store w (<[i := tk']> T) swaps s') by (intros s'; by apply in_store_grows).
  apply esound_quiet; [done|done|done|done| |intros s' Hs'; by apply Hkept, (es_buffered _ _ _ Hs)|done|].
  - intros s' Hs'. unfold up, upsert_ordered in Hs'. destruct (ew_l3 w) as [old|] eqn:Hl3; [destruct (stored_before old _)|]; simpl in Hs';
      injection Hs' as <-; try (by apply Hkept, (es_l3 _ _ _ Hs)).
    all: destruct Hag as (x & Hx & Hxi & _ & _ & Hxr & Hrow); exists x; rewrite Hrow, Hxr, Hxi, fn_lookup_insert; by split_and!.
  - unfold tk', up, upsert_ordered. destruct (ew_l3 w) as [old|] eqn:Hl3; [|exact Hag]. destruct (stored_before old _) eqn:Hb; [exact Hag|].
    split; [exact Hag|]. by apply (refused_is_past w T swaps i c prior rev r old).
Qed.

Lemma esound_buffered w T swaps i c prior rev r q : esound w T swaps -> ew_calls w !! i = Some c -> T i = EWon prior rev r false ->
  eok (ew_epoch w) i (e_started c) (EWon prior rev r true) q ->
  esound (mkEWorld (ew_now w) (ew_epoch w) (ew_seq w) (ew_entry w) (ew_l3 w) (with_l2_order r (mkL2Order (ew_epoch w) rev) :: ew_buffered w)
    (<[i := mkECall (e_started c) q]> (ew_calls w))) (<[i := EWon prior rev r true]> T) swaps.
Proof.
  intros Hs Hi HT Hok. destruct (es_calls _ _ _ Hs i c Hi) as (_ & _ & Hag). rewrite HT in Hag. simpl in Hag.
  assert (Hkept : forall s', in_store w T swaps s' -> in_store w (<[i := EWon prior rev r true]> T) swaps s') by (intros s'; by apply in_store_grows).
  apply esound_quiet; [done|done|done|done|intros s' Hs'; by apply Hkept, (es_l3 _ _ _ Hs)| |done|exact Hag].
  intros s' [->|Hs']%elem_of_cons; [|by apply Hkept, (es_buffered _ _ _ Hs)].
  destruct Hag as (x & Hx & Hxi & _ & _ & Hxr & Hrow). exists x. rewrite Hrow, Hxr, Hxi, fn_lookup_insert. by split_and!.
Qed.

(** The clock, the flush, the lapse of the entry and the sweep: nothing a call knows is lost. *)
Lemma esound_passes w w' T swaps : esound w T swaps -> ew_calls w' = ew_calls w -> ew_epoch w' = ew_epoch w -> ew_seq w' = ew_seq w ->
  ew_buffered w' = ew_buffered w -> ew_now w <= ew_now w' ->
  (ew_entry w' = ew_entry w \/ (ew_entry w' = None /\ lapsed (ew_now w') swaps)) -> (forall s, ew_l3 w' = Some s -> in_store w T swaps s) ->
  esound w' T swaps.
Proof.
  intros Hs Hcalls Hep Hseq Hbuf Hnow Hent Hl3. constructor; [apply Hs|apply Hs| | | | | |].
  - rewrite Hseq. refine (List.Forall_impl _ _ (es_past _ _ _ Hs)). simpl. lia.
  - destruct Hent as [->|[-> Hl]]; [|done]. pose proof (es_entry _ _ _ Hs) as He. destruct (ew_entry w) as [[[r'| |] rev']|]; try done.
    by apply (lapsed_mono (ew_now w)).
  - unfold in_store. rewrite Hep. exact Hl3.
  - unfold in_store. rewrite Hep, Hbuf. apply Hs.
  - intros i c. rewrite Hcalls, Hep. intros Hi. destruct (es_calls _ _ _ Hs i c Hi) as (Hst & Hok & Hag). split_and!; [lia|done|].
    apply (eagrees_stable w w' swaps swaps); [done|lia|done| |done]. destruct Hent as [->|?]; [by left|right; by left].
  - rewrite Hcalls. apply Hs.
Qed.

(** *** Every step *)

Lemma seen_among w T swaps r rev : esound w T swaps -> ew_entry w = Some (Live r, rev) -> rev <= ew_seq w /\ among swaps r.
Proof.
  intros Hs He. pose proof (es_entry _ _ _ Hs) as Hent. rewrite He in Hent. destruct Hent as (s & Hlast & <- & <-). apply last_in in Hlast.
  pose proof (es_past _ _ _ Hs) as Hpast. rewrite list.Forall_forall in Hpast. split; [by apply Hpast|by exists s].
Qed.

(** A live entry that has expired: every row has. *)
Lemma entry_lapses w T swaps r rev : esound w T swaps -> ew_entry w = Some (Live r, rev) -> l2_may_drop (ew_now w) r = true -> lapsed (ew_now w) swaps.
Proof.
  intros Hs He Hexp. pose proof (es_entry _ _ _ Hs) as Hent. rewrite He in Hent. destruct Hent as (s & Hlast & <- & <-).
  pose proof (proj1 (list.last_Some _ _) Hlast) as [swaps' ->]. pose proof (es_past _ _ _ Hs) as Hpast. rewrite Forall_app, Forall_singleton in Hpast.
  apply Forall_app. split; [|by apply Forall_singleton]. apply (history_lapses swaps' s); [apply Hs|lia|done].
Qed.

Abbreviation esound_after w i c q tiers buffered' := (match tiers with (seq', entry', l3') => exists T' swaps',
  esound (mkEWorld (ew_now w) (ew_epoch w) seq' entry' l3' buffered' (<[i := mkECall (e_started c) q]> (ew_calls w))) T' swaps' end).

Lemma esound_now w T swaps i c k : esound w T swaps -> ew_calls w !! i = Some c -> e_prog c = CNow k ->
  esound_after w i c (k (ew_now w)) (ew_seq w, ew_entry w, ew_l3 w) (ew_buffered w).
Proof.
  intros Hs Hi Hp. destruct (es_calls _ _ _ Hs i c Hi) as (Hst & Hok & Hag). rewrite Hp in Hok. specialize (Hok (ew_now w) Hst).
  assert (quiet : forall tk', ewon (T i) = None \/ tk' = T i -> eok (ew_epoch w) i (e_started c) tk' (k (ew_now w)) -> eagrees w swaps i (e_started c) tk' ->
    esound_after w i c (k (ew_now w)) (ew_seq w, ew_entry w, ew_l3 w) (ew_buffered w)).
  { intros tk' Htk Hok' Hag'. exists (<[i := tk']> T), swaps. apply esound_kept; try done; destruct Htk as [Hw| ->]; try done; destruct (T i); done. }
  destruct (T i) as [|r rev|revision|revision r|prior revision|prior rev r saved|prior rev r] eqn:HT;
    try exact (quiet _ (or_intror eq_refl) Hok Hag).
  - destruct Hag as (Hb & Ham & He). refine (quiet _ (or_introl eq_refl) Hok _). destruct (row_is_expired (ew_now w) r) eqn:Hexp; simpl.
    + split; [by intros rev' [= <-]|]. intros Hrev. apply (entry_lapses w T swaps r rev Hs (He Hrev)). by apply expired_may_drop.
    + split_and!; [by intros rev' [= <-]| |].
      * intros p [= <-]. split; [done|]. by apply (row_is_live_mono _ (ew_now w)).
      * intros Hrev. right. exists r, rev. split; [done|by apply He].
  - destruct Hag as (Hb & Ham & Hl). refine (quiet _ (or_introl eq_refl) Hok _). simpl. split_and!; [done| |intros Hrev; left; by apply Hl].
    intros p. destruct (row_is_expired (ew_now w) r) eqn:Hexp; [done|]. intros [= <-]. split; [done|]. by apply (row_is_live_mono _ (ew_now w)).
Qed.

Lemma esound_entry w T swaps i c k : esound w T swaps -> ew_calls w !! i = Some c -> e_prog c = CEntry k ->
  esound_after w i c (k (Some (ew_entry w))) (ew_seq w, ew_entry w, ew_l3 w) (ew_buffered w).
Proof.
  intros Hs Hi Hp. destruct (es_calls _ _ _ Hs i c Hi) as (Hst & Hok & Hag). rewrite Hp in Hok. destruct Hok as (HT & _ & Hnone & Hlive).
  pose proof (es_entry _ _ _ Hs) as He. destruct (ew_entry w) as [[[r| |] rev]|] eqn:Hent; try done; rewrite <- Hent.
  - exists (<[i := ESaw r rev]> T), swaps. apply esound_kept; [done|done|by rewrite HT|by rewrite HT|rewrite Hent; by apply Hlive|].
    destruct (seen_among w T swaps r rev Hs Hent). by split_and!.
  - exists (<[i := EGap None]> T), swaps. apply esound_kept; [done|done|by rewrite HT|by rewrite HT|by rewrite Hent|]. done.
Qed.

Lemma esound_fetch w T swaps i c k : esound w T swaps -> ew_calls w !! i = Some c -> e_prog c = CFetch k ->
  esound_after w i c (k (Some (ew_l3 w))) (ew_seq w, ew_entry w, ew_l3 w) (ew_buffered w).
Proof.
  intros Hs Hi Hp. destruct (es_calls _ _ _ Hs i c Hi) as (Hst & Hok & Hag). rewrite Hp in Hok. simpl in Hok.
  destruct (T i) as [|r rev|revision|revision r|prior revision|prior rev r saved|prior rev r] eqn:HT; try done.
  - destruct Hok as (_ & Hnone & Hsome), Hag as (Hb & Hl). destruct (ew_l3 w) as [s|] eqn:Hl3; rewrite <- Hl3.
    + destruct (es_l3 _ _ _ Hs s Hl3) as (x & Hx & -> & _). exists (<[i := EFetched revision (sw_row x)]> T), swaps.
      apply esound_kept; [done|done|by rewrite HT|by rewrite HT|rewrite Hl3; apply Hsome|]. split_and!; [done|by exists x|done].
    + exists (<[i := EReady None revision]> T), swaps. apply esound_kept; [done|done|by rewrite HT|by rewrite HT|by rewrite Hl3|].
      split_and!; [done|done|]. intros Hr. left. by apply Hl.
  - exists (<[i := ERefused prior rev r]> T), swaps. by apply esound_kept; [| |rewrite HT|rewrite HT|apply Hok|].
Qed.

Lemma esound_swaps w T swaps i c p revision r (k : option (option Z) -> cprog) : esound w T swaps -> ew_calls w !! i = Some c -> e_prog c = p ->
  match p with CCreate r' k' => revision = None /\ r' = r /\ k' = k | CUpdate r' rev k' => revision = Some rev /\ r' = r /\ k' = k | _ => False end ->
  (snd <$> ew_entry w = revision -> esound_after w i c (k (Some (Some (ew_seq w + 1)))) (ew_seq w + 1, Some (Live r, ew_seq w + 1), ew_l3 w) (ew_buffered w))
  /\ esound_after w i c (k (Some None)) (ew_seq w, ew_entry w, ew_l3 w) (ew_buffered w)
  /\ esound_after w i c (k None) (ew_seq w, ew_entry w, ew_l3 w) (ew_buffered w).
Proof.
  intros Hs Hi Hp Hshape. destruct (es_calls _ _ _ Hs i c Hi) as (Hst & Hok & Hag). rewrite Hp in Hok.
  assert (exists prior t new_row ts, T i = EReady prior revision /\ e_started c <= t /\ client i (e_started c) t prior = Upsert new_row /\ r = stamped ts prior new_row
    /\ eok (ew_epoch w) i (e_started c) EIdle (k None) /\ eok (ew_epoch w) i (e_started c) EIdle (k (Some None))
    /\ forall rev, eok (ew_epoch w) i (e_started c) (EWon prior rev r false) (k (Some (Some rev)))) as (prior & t & new_row & ts & HT & Ht & Hc & -> & Hko & Hno & Hyes).
  { destruct p; try done; destruct Hshape as (-> & -> & ->); exact Hok. }
  split_and!.
  - intros Hrev. do 2 eexists. exact (esound_won w T swaps i c prior revision t new_row ts _ Hs Hi HT Hrev Ht Hc (Hyes _)).
  - exists (<[i := EIdle]> T), swaps. by apply esound_kept; [| |rewrite HT|rewrite HT| |].
  - exists (<[i := EIdle]> T), swaps. by apply esound_kept; [| |rewrite HT|rewrite HT| |].
Qed.

Lemma esound_unmoved w T swaps i c q : esound w T swaps -> ew_calls w !! i = Some c -> eok (ew_epoch w) i (e_started c) (T i) q ->
  esound_after w i c q (ew_seq w, ew_entry w, ew_l3 w) (ew_buffered w).
Proof.
  intros Hs Hi Hok. exists (<[i := T i]> T), swaps. apply esound_kept; try done. by apply (es_calls _ _ _ Hs i c Hi).
Qed.

Lemma esound_answers w T swaps i c q won tiers buffered' : esound w T swaps -> ew_calls w !! i = Some c ->
  eanswer w (e_prog c) = Some (q, won, tiers, buffered') -> esound_after w i c q tiers buffered'.
Proof.
  intros Hs Hi Ha. pose proof (es_calls _ _ _ Hs i c Hi) as (Hst & Hok & Hag).
  destruct (e_prog c) as [res|k|k|k|k|r k|r revision k|revision k|s k] eqn:Hp.
  - unfold eanswer in Ha. by destruct deferred.
  - unfold eanswer in Ha. destruct deferred; injection Ha as <- <- <- <-; by apply (esound_now w T swaps).
  - unfold eanswer in Ha. destruct deferred; injection Ha as <- <- <- <-; apply (esound_unmoved w T swaps); try done; apply Hok.
  - unfold eanswer in Ha. destruct deferred; injection Ha as <- <- <- <-; by apply (esound_entry w T swaps).
  - unfold eanswer in Ha. destruct deferred; injection Ha as <- <- <- <-; by apply (esound_fetch w T swaps).
  - destruct (esound_swaps w T swaps i c _ None r k Hs Hi Hp (conj eq_refl (conj eq_refl eq_refl))) as (Hyes & Hno & _).
    unfold eanswer in Ha. cbn [answer cw_entry cw_seq cw_l3] in Ha.
    destruct deferred; (destruct (decide (ew_entry w = None)) as [He|He]; injection Ha as <- <- <- <-; [apply Hyes; by rewrite He|exact Hno]).
  - destruct (esound_swaps w T swaps i c _ (Some revision) r k Hs Hi Hp (conj eq_refl (conj eq_refl eq_refl))) as (Hyes & Hno & _).
    unfold eanswer in Ha. cbn [answer cw_entry cw_seq cw_l3] in Ha.
    destruct deferred; (destruct (decide (snd <$> ew_entry w = Some revision)) as [He|He]; injection Ha as <- <- <- <-; [by apply Hyes|exact Hno]).
  - destruct Hok as (prior & r & HT & Hok). rewrite HT in Hag. destruct Hag as (_ & _ & Hne).
    unfold eanswer in Ha. cbn [answer cw_entry cw_seq cw_l3] in Ha.
    destruct deferred; (rewrite decide_False in Ha by done; injection Ha as <- <- <- <-; apply (esound_unmoved w T swaps); [done|done|apply Hok]).
  - destruct Hok as (prior & rev & r & HT & -> & Hyes & Hno). unfold eanswer in Ha. destruct deferred.
    + injection Ha as <- <- <- <-. do 2 eexists. by apply (esound_buffered w T swaps i c prior rev r).
    + cbn [answer cw_entry cw_seq cw_l3] in Ha. rewrite with_order_of in Ha. simpl in Ha. injection Ha as <- <- <- <-. do 2 eexists.
      apply (esound_saved w T swaps i c prior rev r); [done|done|done|]. destruct (upsert_ordered _ _ _).1; done.
Qed.

Lemma esound_raises w T swaps i c q : esound w T swaps -> ew_calls w !! i = Some c -> raised (e_prog c) = Some q -> is_save (e_prog c) = false ->
  esound_after w i c q (ew_seq w, ew_entry w, ew_l3 w) (ew_buffered w).
Proof.
  intros Hs Hi Hr Hns. pose proof (es_calls _ _ _ Hs i c Hi) as (Hst & Hok & Hag).
  destruct (e_prog c) as [res|k|k|k|k|r k|r revision k|revision k|s k] eqn:Hp; try done; injection Hr as <-.
  - apply (esound_unmoved w T swaps); try done; apply Hok.
  - destruct Hok as (HT & Hok & _). apply (esound_unmoved w T swaps); [done|done|by rewrite HT].
  - apply (esound_unmoved w T swaps); try done. simpl in Hok. destruct (T i); try done; apply Hok.
  - by destruct (esound_swaps w T swaps i c _ None r k Hs Hi Hp (conj eq_refl (conj eq_refl eq_refl))) as (_ & _ & Hraise).
  - by destruct (esound_swaps w T swaps i c _ (Some revision) r k Hs Hi Hp (conj eq_refl (conj eq_refl eq_refl))) as (_ & _ & Hraise).
  - destruct Hok as (prior & r & HT & Hok). apply (esound_unmoved w T swaps); [done|done|apply Hok].
Qed.

Lemma esound_starts w T swaps i remembered : esound w T swaps -> ew_calls w !! i = None -> (forall e, remembered = Some e -> e = ew_epoch w) ->
  esound (mkEWorld (ew_now w) (ew_epoch w) (ew_seq w) (ew_entry w) (ew_l3 w) (ew_buffered w)
    (<[i := mkECall (ew_now w) (expiring_cas_mutate (client i (ew_now w)) max_retries remembered)]> (ew_calls w))) (<[i := EIdle]> T) swaps.
Proof.
  intros Hs Hi Hr.
  assert (Hne : forall x, x ∈ swaps -> i <> sw_call x) by (intros x Hx ->; destruct (es_swaps _ _ _ Hs x Hx) as [[c Hc] _]; by rewrite Hi in Hc).
  assert (Hst : forall s, in_store w T swaps s -> in_store w (<[i := EIdle]> T) swaps s).
  { intros s (x & Hx & -> & Hsv). exists x. rewrite fn_lookup_insert_ne by auto. done. }
  constructor; simpl; [apply Hs|apply Hs|apply Hs|apply Hs|intros s Hl; by apply Hst, (es_l3 _ _ _ Hs)|intros s Hl; by apply Hst, (es_buffered _ _ _ Hs)| |].
  - intros j d. destruct (decide (i = j)) as [<-|Hij].
    + rewrite lookup_insert_eq, fn_lookup_insert. intros [= <-]. split_and!; [simpl; lia|by apply expiring_cas_mutate_eok|done].
    + rewrite lookup_insert_ne, fn_lookup_insert_ne by done. intros Hj. destruct (es_calls _ _ _ Hs j d Hj) as (? & ? & Ha). split_and!; [done|done|].
      apply (eagrees_stable w _ swaps swaps); simpl; [lia|lia|done|by left|done].
  - intros x Hx. rewrite lookup_insert_ne, fn_lookup_insert_ne by auto. by apply Hs.
Qed.

Lemma esound_step w w' T swaps : esound w T swaps -> estep True w w' -> exists T' swaps', esound w' T' swaps'.
Proof.
  intros Hs Hstep. destruct Hstep as [i remembered Hi Hr|i c q won seq' entry' l3' buffered' Hi Ha|i c q Hi Hr Hns|now' Hnow|s o Hin Ho|r rev He Hexp|s e Hl3 He Hlt|epoch' Hlt Hno].
  - do 2 eexists. apply (esound_starts w T swaps); [done|done|]. intros e He. by apply (Hr e He).
  - exact (esound_answers w T swaps i c q won (seq', entry', l3') buffered' Hs Hi Ha).
  - exact (esound_raises w T swaps i c q Hs Hi Hr (Hns I)).
  - exists T, swaps. apply (esound_passes w); simpl; try done; [by left|apply Hs].
  - exists T, swaps. apply (esound_passes w); simpl; try done; [by left|]. intros s'. unfold upsert_ordered.
    destruct (ew_l3 w) as [old|] eqn:Hl3; [destruct (stored_before old o)|]; simpl; intros [= <-]; first [by apply (es_buffered _ _ _ Hs)|by apply (es_l3 _ _ _ Hs)].
  - exists T, swaps. apply (esound_passes w); simpl; try done; [|apply Hs]. right. split; [done|]. by apply (entry_lapses w T swaps r rev).
  - exists T, swaps. apply (esound_passes w); simpl; try done. by left.
  - by destruct (Hno I).
Qed.

Lemma esound_reachable w : ereachable True w -> exists T swaps, esound w T swaps.
Proof.
  intros (now & epoch & Hsteps).
  assert (Hstart : exists T swaps, esound (eworld0 now epoch) T swaps).
  { exists (fun _ => EIdle), []. constructor; try done; try by constructor. by intros s ?%elem_of_nil. by intros s ?%elem_of_nil. }
  induction Hsteps as [|w w1 w' Hstep _ IH]; [done|]. apply IH. destruct Hstart as (T & swaps & Hs). by apply (esound_step w w1 T swaps).
Qed.

(** What a call that returned did: nothing, or one swap of the history. *)
Definition accounts (swaps : list swap) (i : nat) (t0 : Z) (m : CasMutation) : Prop :=
  (cm_action m = "noop" /\ cm_row m = None)
  \/ exists s, s ∈ swaps /\ sw_call s = i /\ sw_started s = t0 /\ cm_action m = cas_outcome (sw_prior s) /\ s_row <$> cm_row m = Some (sw_row s).

Lemma reachable_history w : ereachable True w ->
  exists swaps, history swaps /\ NoDup (sw_call <$> swaps) /\ Forall (fun s => sw_time s <= ew_now w) swaps
    /\ forall i t0 m, ereturned w i = Some (t0, Ok m) -> accounts swaps i t0 m.
Proof.
  intros (T & swaps & Hs)%esound_reachable. exists swaps. split_and!; [apply Hs|apply Hs|refine (List.Forall_impl _ _ (es_past _ _ _ Hs)); simpl; lia|].
  intros i t0 m. unfold ereturned. destruct (ew_calls w !! i) as [[t p]|] eqn:Hi; [|done]. destruct p as [res| | | | | | | |] eqn:Hp; try done.
  intros [= -> ->]. destruct (es_calls _ _ _ Hs i _ Hi) as (_ & Hok & Hag). simpl in Hok, Hag.
  destruct (T i) as [|r rev|revision|revision r|prior revision|prior rev r saved|prior rev r]; try (by left); right; simpl in Hok, Hag;
    [|destruct Hag as [Hag _]]; destruct Hag as (s & Hin & Hc & Ht & Hpr & _ & Hrow); destruct Hok as [Hact Hres]; exists s; rewrite Hpr, Hrow; by split_and!.
Qed.

End Kept.

(** ** Runs *)

Inductive eevent :=
| EvStart (i : nat)
| EvRun (i : nat) (steps : nat)
| EvTick (now' : Z)
| EvFlush (n : nat)
| EvLapse
| EvWipe (epoch' : Z).

(** A call answered a number of times, or until it returns. *)
Fixpoint run_call (steps : nat) (i : nat) (w : eworld) : eworld :=
  match steps with
  | O => w
  | S steps =>
      match ew_calls w !! i with
      | None => w
      | Some c =>
          match eanswer w (e_prog c) with
          | Some (q, won, (seq', entry', l3'), buffered') =>
              run_call steps i (mkEWorld (ew_now w) (ew_epoch w) seq' entry' l3' buffered' (<[i := mkECall (e_started c) q]> (ew_calls w)))
          | None => w
          end
      end
  end.

Definition run_eevent (e : eevent) (w : eworld) : eworld :=
  match e with
  | EvStart i =>
      if decide (ew_calls w !! i = None) then
        mkEWorld (ew_now w) (ew_epoch w) (ew_seq w) (ew_entry w) (ew_l3 w) (ew_buffered w)
          (<[i := mkECall (ew_now w) (expiring_cas_mutate (client i (ew_now w)) max_retries None)]> (ew_calls w))
      else w
  | EvRun i steps => run_call steps i w
  | EvTick now' => if ew_now w <=? now' then mkEWorld now' (ew_epoch w) (ew_seq w) (ew_entry w) (ew_l3 w) (ew_buffered w) (ew_calls w) else w
  | EvFlush n =>
      match ew_buffered w !! n with
      | Some s =>
          match l2_order_of s with
          | Some o => mkEWorld (ew_now w) (ew_epoch w) (ew_seq w) (ew_entry w) (upsert_ordered s o (ew_l3 w)).2 (ew_buffered w) (ew_calls w)
          | None => w
          end
      | None => w
      end
  | EvLapse =>
      match ew_entry w with
      | Some (Live r, _) =>
          if l2_may_drop (ew_now w) r then mkEWorld (ew_now w) (ew_epoch w) (ew_seq w) None (ew_l3 w) (ew_buffered w) (ew_calls w) else w
      | _ => w
      end
  | EvWipe epoch' => if ew_epoch w <? epoch' then mkEWorld (ew_now w) epoch' 0 None (ew_l3 w) (ew_buffered w) (ew_calls w) else w
  end.

Definition run_eevents (es : list eevent) (w : eworld) : eworld := fold_left (fun w e => run_eevent e w) es w.

Definition steady_event (e : eevent) : bool := match e with EvWipe _ => false | _ => true end.

Lemma run_call_steps steady steps i w : rtc (estep steady) w (run_call steps i w).
Proof.
  revert w. induction steps as [|steps IH]; intros w; [done|]. simpl. destruct (ew_calls w !! i) as [c|] eqn:Hi; [|done].
  destruct (eanswer w (e_prog c)) as [[[[q won] [[seq' entry'] l3']] buffered']|] eqn:Ha; [|done].
  eapply rtc_l; [|apply IH]. by apply (estep_answers _ w i c q won).
Qed.

Lemma run_eevent_steps (steady : Prop) e w : (steady -> steady_event e = true) -> rtc (estep steady) w (run_eevent e w).
Proof.
  intros Hst. destruct e as [i|i steps|now'|n| |epoch']; simpl; [|apply run_call_steps|..].
  - destruct (decide _); [|done]. apply rtc_once. by apply (estep_starts steady w i None).
  - destruct (Z.leb_spec (ew_now w) now'); [|done]. apply rtc_once. by apply (estep_time steady w now').
  - destruct (ew_buffered w !! n) as [s|] eqn:Hn; [|done]. destruct (l2_order_of s) as [o|] eqn:Ho; [|done]. apply rtc_once.
    apply estep_flush; [by apply (list_elem_of_lookup_2 _ n)|done].
  - destruct (ew_entry w) as [[[r| |] rev]|] eqn:He; try done. destruct (l2_may_drop (ew_now w) r) eqn:Hx; [|done]. apply rtc_once. by apply (estep_lapses _ w r rev).
  - destruct (Z.ltb_spec (ew_epoch w) epoch'); [|done]. apply rtc_once. apply (estep_wiped steady w epoch'); [done|]. intros Hs. by specialize (Hst Hs).
Qed.

Lemma run_eevents_reach (steady : Prop) es now epoch : (steady -> forallb steady_event es = true) -> ereachable steady (run_eevents es (eworld0 now epoch)).
Proof.
  intros Hst. exists now, epoch. generalize (eworld0 now epoch). induction es as [|e es IH]; intros w; [done|]. simpl in *.
  etrans; [|apply IH; intros Hs; by apply Hst, andb_prop in Hs as [_ ?]]. apply run_eevent_steps. intros Hs. by apply Hst, andb_prop in Hs as [? _].
Qed.
End Expiring.
