(* ===== verification/WindowedCounter.v ===== *)
(** * Windowed counter

    [WindowedCounter] of [src/packages/core/src/threetears/core/coordination/windowed_counter.py]: attempts
    on a key counted in a window that opens with the first, over the counters table of [tables.py], a
    deferred table of [ExpiringRows]. Times are microseconds; the counter's clock is the wall clock, its
    default, except in [counter_state], which takes both. The key is the SHA-256 of the caller's, a
    parameter. *)

From Stdlib Require Import Ascii String Bool List NArith ZArith Lia.
From stdpp Require Import base list gmap strings relations functions.
From S2P Require Import Prelude CasMutate ExpiringRows.

Open Scope Z_scope.

(** A row of [coordination_counters]. *)
Record counter_row := mkCounterRow { cr_purpose : string; cr_key : string; cr_count : Z; cr_window_start : Z; cr_expires_at : Z }.

#[export] Instance counter_row_eq_dec : EqDecision counter_row.
Proof. solve_decision. Defined.

Definition counter_expires (f : counter_row) : option Z := Some (cr_expires_at f).

Definition MAX_CAS_ATTEMPTS : nat := 30.

Record WindowedCounter := mkWindowedCounter { wc_purpose : string; wc_window : Z; wc_fail_open : bool }.

(** [__init__]. *)
Definition windowed_counter (purpose : string) (window_seconds : Z) (fail_open : bool) : result WindowedCounter string :=
  if window_seconds <=? 0 then Err "WindowedCounter window_seconds must be positive"%string
  else if negb (str_truthy (py_strip purpose)) then Err "WindowedCounter purpose must be a non-empty name"%string
  else Ok (mkWindowedCounter purpose (window_seconds * 1000000) fail_open).

Record WindowState := mkWindowState { ws_count : Z; ws_window_start : Z }.

Section Counter.
Variable sha256_hex : string -> string.
Variable self : WindowedCounter.

(** [_row_id]. *)
Definition counter_row_id (key : string) : string * string := (wc_purpose self, sha256_hex key).

(** The callback of [_record_attempt]: count one more, or open a window at [now]. *)
Definition increment (key : string) (now : Z) (current : option (@row counter_row)) : @cas_action counter_row :=
  let fresh := mkRow (mkCounterRow (wc_purpose self) (counter_row_id key).2 1 now (now + wc_window self)) None None in
  match current with
  | None => Upsert fresh
  | Some row =>
      let f := r_fields row in
      if cr_window_start f + wc_window self <? now then Upsert fresh
      else Upsert (mkRow (mkCounterRow (cr_purpose f) (cr_key f) (cr_count f + 1) (cr_window_start f) (cr_expires_at f)) (r_date_created row) (r_date_updated row))
  end.

(** The callback of [clear]: close the window at [closed_at]. *)
Definition close (closed_at : Z) (current : option (@row counter_row)) : @cas_action counter_row :=
  match current with
  | None => Noop
  | Some row =>
      let f := r_fields row in
      Upsert (mkRow (mkCounterRow (cr_purpose f) (cr_key f) 0 (cr_window_start f) closed_at) (r_date_created row) (r_date_updated row))
  end.

(** [STORAGE_FAILURES], and with lost contention [_DEGRADABLE_FAILURES]; a [RuntimeError] or a [ValueError] is none. *)
Definition storage_failure (e : cas_error) : bool := match e with CasKvError | CasStoreError => true | _ => false end.
Definition degradable (e : cas_error) : bool := storage_failure e || match e with ConcurrentModificationError => true | _ => false end.

(** What [record_attempt] makes of the outcome of its swap. *)
Definition record_attempt (outcome : result (@CasMutation counter_row) cas_error) : result Z cas_error :=
  match outcome with
  | Ok m => Ok (match cm_row m with Some s => cr_count (r_fields (s_row s)) | None => 1 end)
  | Err e => if degradable e && wc_fail_open self then Ok 0 else Err e
  end.

(** What [clear] makes of it: a degradable failure is only logged. *)
Definition clear (outcome : result (@CasMutation counter_row) cas_error) : result unit cas_error :=
  match outcome with Ok _ => Ok tt | Err e => if degradable e then Ok tt else Err e end.

(** [state], of what the read of the collection answered, at a time of the counter's clock. *)
Definition counter_state (clock : Z) (got : result (option counter_row) cas_error) : result (option WindowState) cas_error :=
  match got with
  | Err e => if storage_failure e && wc_fail_open self then Ok None else Err e
  | Ok None => Ok None
  | Ok (Some f) =>
      if cr_window_start f + wc_window self <? clock then Ok None else Ok (Some (mkWindowState (cr_count f) (cr_window_start f)))
  end.

Definition count (clock : Z) (got : result (option counter_row) cas_error) : result Z cas_error :=
  match counter_state clock got with Err e => Err e | Ok None => Ok 0 | Ok (Some state) => Ok (ws_count state) end.

Definition is_over_threshold (threshold clock : Z) (got : result (option counter_row) cas_error) : result bool cas_error :=
  match count clock got with Err e => Err e | Ok n => Ok (threshold <=? n) end.

(** ** Attempts *)

(** Every call an attempt on one key. *)
Definition attempts (key : string) (i : nat) (started now : Z) : option (@row counter_row) -> @cas_action counter_row := increment key started.

Abbreviation counter_reachable key w := (ereachable counter_expires true MAX_CAS_ATTEMPTS (attempts key) True w).

#[export] Instance attempts_keep_expiry key : KeepsExpiry counter_expires (attempts key).
Proof.
  refine {| well_formed f := cr_expires_at f = cr_window_start f + wc_window self |}.
  intros i t0 t prior new_row _ Hc Hp. unfold attempts, increment in Hc. destruct prior as [p|]; [|by injection Hc as <-].
  destruct (Hp p eq_refl) as [Hwf Hlive]. unfold row_is_expired in Hlive. simpl in Hlive. apply Z.leb_gt in Hlive.
  assert ((cr_window_start (r_fields p) + wc_window self <? t0) = false) as Hopen by (apply Z.ltb_ge; lia).
  rewrite Hopen in Hc. injection Hc as <-. simpl. split; [done|]. by intros p' [= <-].
Defined.

(** In L2 for certain: its window ends more than a second from now. *)
Definition open_at (now : Z) (s : @swap counter_row) : Prop := l2_may_drop counter_expires now (sw_row s) = false.

#[export] Instance open_at_dec now s : Decision (open_at now s).
Proof. unfold open_at. apply _. Defined.






End Counter.

(** ** Runs *)

Definition login_throttle : WindowedCounter := mkWindowedCounter "login_ip_throttle" 60000000 false.

(** The outcome of a call as its caller sees it. *)
Definition attempt_answer (w : @eworld counter_row) (i : nat) : option (result Z cas_error) :=
  r ← ereturned w i; Some (record_attempt login_throttle r.2).




(** Call one clears the counter, the others are attempts. *)
Definition attempts_and_clear (key : string) (i : nat) (started now : Z) : option (@row counter_row) -> @cas_action counter_row :=
  match i with 1%nat => close started | _ => increment (fun key => key) login_throttle key started end.

Definition clear_run (flushed : bool) : @eworld counter_row :=
  run_eevents counter_expires true MAX_CAS_ATTEMPTS (attempts_and_clear "10.0.0.1")
    ([EvStart 0; EvRun 0 40; EvFlush 0; EvTick 2000000; EvStart 1; EvRun 1 40]
     ++ (if flushed then [EvFlush 0] else []) ++ [EvTick 3000000; EvStart 2; EvRun 2 40]) (eworld0 1000000 7).

(** An attempt after a clear that L3 does not have yet continues the count the clear was to reset: the closed row of L2 is
    read as absent, and the callback is shown the row of L3, which the clear reaches only with the next flush. *)
Theorem clear_is_undone_before_its_flush :
  (forall flushed, ereachable counter_expires true MAX_CAS_ATTEMPTS (attempts_and_clear "10.0.0.1") True (clear_run flushed))
  /\ (forall flushed, exists t m, ereturned (clear_run flushed) 1 = Some (t, Ok m) /\ clear (Ok m) = Ok tt /\ cm_action m = "updated"%string)
  /\ attempt_answer (clear_run true) 2 = Some (Ok 1) /\ attempt_answer (clear_run false) 2 = Some (Ok 2).
Proof.
  split_and!; [| |vm_compute; reflexivity|vm_compute; reflexivity].
  - intros flushed. unfold clear_run. apply run_eevents_reach. intros _. by destruct flushed.
  - intros [|]; eexists _, _; vm_compute; by split_and!.
Qed.
