(* ===== verification/Denylists.v ===== *)
(** * Revocations and redemptions

    [src/packages/core/src/threetears/core/coordination/revocation.py]. [RedemptionLedger] tells the first
    presentation of a key from every later one: a create-if-absent swap on a synchronous table of
    [ExpiringRows]. [RevocationGuard] keeps a moment a key is revoked from and compares with it; it reads
    and writes its table through [get] and [save_entity], which stand here as an interface with the laws
    the guard relies on. Times are microseconds; SHA-256 is a parameter. *)

From Stdlib Require Import Ascii String Bool List NArith ZArith Lia.
From stdpp Require Import base list gmap strings relations functions.
From S2P Require Import Prelude CasMutate ExpiringRows.

Open Scope Z_scope.

(** ** Redemption ledger *)

Record redemption_row := mkRedemptionRow { rd_purpose : string; rd_key : string; rd_expires_at : Z }.

#[export] Instance redemption_row_eq_dec : EqDecision redemption_row.
Proof. solve_decision. Defined.

Definition redemption_expires (f : redemption_row) : option Z := Some (rd_expires_at f).

(** A guard and a ledger are a purpose and a lifetime. *)
Record denylist := mkDenylist { dl_purpose : string; dl_ttl : Z }.

(** [RevocationGuard.__init__] and [RedemptionLedger.__init__]; the ledger also wants an L2 client ([require_l2_fence]). *)
Definition revocation_guard (purpose : string) (ttl_seconds : Z) : result denylist string :=
  if ttl_seconds <=? 0 then Err "RevocationGuard ttl_seconds must be positive"%string
  else if negb (str_truthy (py_strip purpose)) then Err "RevocationGuard purpose must be a non-empty name, e.g. 'standing'"%string
  else Ok (mkDenylist purpose (ttl_seconds * 1000000)).

Definition redemption_ledger (purpose : string) (ttl_seconds : Z) (l2_client : bool) : result denylist string :=
  if ttl_seconds <=? 0 then Err "RedemptionLedger ttl_seconds must be positive"%string
  else if negb (str_truthy (py_strip purpose)) then Err "RedemptionLedger purpose must be a non-empty name, e.g. 'refresh_jti'"%string
  else if negb l2_client then Err "RedemptionLedger needs an L2 client"%string
  else Ok (mkDenylist purpose (ttl_seconds * 1000000)).

Section Denylists.
(** [hashed_denylist_key]. *)
Variable hashed_denylist_key : string -> string.
Variable self : denylist.

Definition denylist_row_id (key : string) : string * string := (dl_purpose self, hashed_denylist_key key).

(** The callback of [record_unique]. *)
Definition claim_if_absent (key : string) (now : Z) (current : option (@row redemption_row)) : @cas_action redemption_row :=
  match current with
  | None => Upsert (mkRow (mkRedemptionRow (dl_purpose self) (denylist_row_id key).2 (now + dl_ttl self)) None None)
  | Some _ => Noop
  end.

(** What [record_unique] makes of the outcome of its swap: whether it was the first. *)
Definition record_unique (outcome : result (@CasMutation redemption_row) cas_error) : result bool cas_error :=
  match outcome with Ok m => Ok (String.eqb (cm_action m) "created") | Err e => Err e end.

(** [was_redeemed], of what the read of the collection answered. *)
Definition was_redeemed (got : result (option redemption_row) cas_error) : result bool cas_error :=
  match got with Ok entity => Ok (isSome entity) | Err e => Err e end.

(** Every call a presentation of one key. *)
Definition presentations (key : string) (i : nat) (started now : Z) : option (@row redemption_row) -> @cas_action redemption_row := claim_if_absent key started.

Abbreviation ledger_reachable steady key w := (ereachable redemption_expires false MAX_RETRIES (presentations key) steady w).

Definition told_first (w : @eworld redemption_row) (i : nat) (started : Z) : Prop :=
  exists outcome, ereturned w i = Some (started, outcome) /\ record_unique outcome = Ok true.

#[export] Instance presentations_keep_expiry key : KeepsExpiry redemption_expires (presentations key).
Proof.
  refine {| well_formed _ := True |}. intros i t0 t prior new_row _ Hc _. split; [done|]. intros p ->. done.
Defined.

Lemma presentation_made key s : made redemption_expires (presentations key) s ->
  sw_prior s = None /\ rd_expires_at (r_fields (sw_row s)) = sw_started s + dl_ttl self.
Proof.
  intros (_ & _ & t & new_row & ts & _ & Hc & ->). unfold presentations, claim_if_absent in Hc. rewrite stamped_fields.
  destruct (sw_prior s); [done|]. by injection Hc as <-.
Qed.

(** (C14) A key is redeemed once: while L2 is not wiped and the database takes the write of a swap that won, however many
    replicas present it at once and whatever else raises, two calls are told they were the first only if one of them began
    a lifetime ago, less the second that L2 may drop its entry early. *)
Theorem redeemed_once key w i j ti tj : ledger_reachable True key w -> told_first w i ti -> told_first w j tj -> i <> j ->
  ti + dl_ttl self <= ew_now w + TTL_GRAIN \/ tj + dl_ttl self <= ew_now w + TTL_GRAIN.
Proof.
  intros (swaps & Hh & Honce & Htimes & Hret)%reachable_history (oi & Hi & Hfi) (oj & Hj & Hfj) Hne; [|apply _].
  assert (Hswap : forall k t o, ereturned w k = Some (t, o) -> record_unique o = Ok true -> exists s, s ∈ swaps /\ sw_call s = k /\ sw_started s = t).
  { intros k t [m|e] Hk Hf; [|done]. destruct (Hret k t m Hk) as [[Ha _]|(s & Hs & Hc & Ht & _)]; [|by exists s]. simpl in Hf. by rewrite Ha in Hf. }
  destruct (Hswap i ti oi Hi Hfi) as (x & Hx & Hxi & Hxt). destruct (Hswap j tj oj Hj Hfj) as (y & Hy & Hyj & Hyt).
  destruct (presentation_made key x (history_made _ _ _ _ Hh Hx)) as [Hpx Hex]. destruct (presentation_made key y (history_made _ _ _ _ Hh Hy)) as [Hpy Hey].
  rewrite list.Forall_forall in Htimes. pose proof (Htimes x Hx). pose proof (Htimes y Hy).
  assert (x <> y) as Hxy by congruence.
  destruct (fresh_swaps_apart _ _ swaps x y Hh Hx Hy Hxy Hpx Hpy) as [He|He]; unfold l2_may_drop, row_is_expired in He; simpl in He; apply Z.leb_le in He; lia.
Qed.
End Denylists.

(** *** Runs *)

Definition refresh_ledger : denylist := mkDenylist "refresh_jti" 2592000000000.

Definition answer_of (w : @eworld redemption_row) (i : nat) : option (result bool cas_error) := r ← ereturned w i; Some (record_unique r.2).

(** Two presentations at once, and a third after the first's lifetime. *)
Definition spent_events : list eevent :=
  [EvStart 0; EvStart 1; EvRun 0 4; EvRun 1 4; EvRun 0 40; EvRun 1 40; EvTick 2592001000000; EvStart 2; EvRun 2 40].

Definition spent_world : @eworld redemption_row :=
  run_eevents redemption_expires false MAX_RETRIES (presentations (fun key => key) refresh_ledger "jti-1") spent_events (eworld0 1000000 7).

Lemma redeemed_once_witness : answer_of spent_world <$> [0; 1; 2]%nat = [Some (Ok true); Some (Ok false); Some (Ok true)]
  /\ (1000000 + dl_ttl refresh_ledger <= ew_now spent_world + TTL_GRAIN \/ 2592001000000 + dl_ttl refresh_ledger <= ew_now spent_world + TTL_GRAIN).
Proof.
  split; [vm_compute; reflexivity|].
  assert (H0 : told_first spent_world 0 1000000) by (eexists; split; vm_compute; reflexivity).
  assert (H2 : told_first spent_world 2 2592001000000) by (eexists; split; vm_compute; reflexivity).
  refine (redeemed_once (fun key => key) refresh_ledger "jti-1" spent_world 0 2 _ _ _ H0 H2 _); [|discriminate].
  exact (run_eevents_reach redemption_expires false MAX_RETRIES _ True spent_events 1000000 7 (fun _ => eq_refl)).
Defined.

(** A presentation whose swap has won and whose row is not in L3 yet when the broker is wiped. *)
Definition wiped_world : @eworld redemption_row :=
  run_eevents redemption_expires false MAX_RETRIES (presentations (fun key => key) refresh_ledger "jti-1")
    [EvStart 0; EvRun 0 6; EvWipe 8; EvTick 2000000; EvStart 1; EvRun 1 40; EvRun 0 40] (eworld0 1000000 7).

(** Across such a wipe both presentations are told they were the first: the second finds no row, and the first's write, refused
    by L3 for the second's later order, counts as superseded by a row that was not built on it. *)
Theorem wiped_redemption_is_granted_twice :
  ereachable redemption_expires false MAX_RETRIES (presentations (fun key => key) refresh_ledger "jti-1") False wiped_world
  /\ answer_of wiped_world 0 = Some (Ok true) /\ answer_of wiped_world 1 = Some (Ok true) /\ ew_now wiped_world = 2000000.
Proof.
  split_and!; [|vm_compute; reflexivity..]. by apply run_eevents_reach.
Qed.

(** ** Revocation guard *)

Record revocation_row := mkRevocationRow { rv_purpose : string; rv_key : string; rv_revoked_at : Z; rv_expires_at : Z; rv_date_created : option Z }.

Definition rv_id (r : revocation_row) : string * string := (rv_purpose r, rv_key r).

(** What the guard relies on of its collection: a saved row is read back until it expires, and a save leaves the other rows alone. *)
Class RevocationTable (St : Type) := {
  rt_get : St -> Z -> string * string -> option revocation_row;
  rt_save : St -> revocation_row -> St;
  rt_get_saved st r now : now < rv_expires_at r -> exists r', rt_get (rt_save st r) now (rv_id r) = Some r' /\ rv_revoked_at r' = rv_revoked_at r;
  rt_get_lapsed st r now : rv_expires_at r <= now -> rt_get (rt_save st r) now (rv_id r) = None;
  rt_get_other st r now id : id <> rv_id r -> rt_get (rt_save st r) now id = rt_get st now id;
}.

(** A datetime, with or without a time zone. *)
Record py_datetime := mkPyDatetime { dt_instant : Z; dt_aware : bool }.

Section Guard.
Variable hashed_denylist_key : string -> string.
Variable self : denylist.
Context {St : Type} `{RevocationTable St}.

Definition record_revocation (st : St) (now : Z) (key : string) (revoked_at : py_datetime) : result St string :=
  if negb (dt_aware revoked_at) then Err "RevocationGuard.record_revocation requires a timezone-aware revoked_at"%string
  else
    let row_id := denylist_row_id hashed_denylist_key self key in
    let existing := rt_get st now row_id in
    Ok (rt_save st (mkRevocationRow (dl_purpose self) row_id.2 (dt_instant revoked_at) (dt_instant revoked_at + dl_ttl self) (existing ≫= rv_date_created))).

Definition revoked_at (st : St) (now : Z) (key : string) : option Z :=
  rv_revoked_at <$> rt_get st now (denylist_row_id hashed_denylist_key self key).

Definition is_revoked_before (st : St) (now : Z) (key : string) (moment : py_datetime) : result bool string :=
  if negb (dt_aware moment) then Err "RevocationGuard.is_revoked_before requires a timezone-aware moment"%string
  else Ok (match revoked_at st now key with None => false | Some stored => dt_instant moment <? stored end).

(** A revocation outlives the sessions it blocks: once a key is revoked, a session that started before the moment it is revoked from
    and lasts no longer than the guard's lifetime is denied for as long as it runs, one that starts at that moment or later is not, and the
    answers for the keys that hash otherwise are what they were. *)
Theorem revocation_outlives_its_sessions st st' now key at_ : record_revocation st now key at_ = Ok st' ->
  (forall now' started lifetime, dt_aware started = true -> lifetime <= dl_ttl self -> now' < dt_instant started + lifetime ->
     is_revoked_before st' now' key started = Ok (dt_instant started <? dt_instant at_))
  /\ forall now' key' moment, hashed_denylist_key key' <> hashed_denylist_key key -> is_revoked_before st' now' key' moment = is_revoked_before st now' key' moment.
Proof.
  unfold record_revocation. destruct (dt_aware at_); [|done]. simpl. intros [= <-].
  set (r := mkRevocationRow _ _ _ _ _). assert (Hid : denylist_row_id hashed_denylist_key self key = rv_id r) by done. split.
  - intros now' started lifetime Haware Hlife Hrun. unfold is_revoked_before, revoked_at. rewrite Haware, Hid. simpl.
    destruct (Z.ltb_spec now' (rv_expires_at r)) as [Hlive|Hgone].
    + destruct (rt_get_saved st r now' Hlive) as (r' & -> & Hr'). simpl. by rewrite Hr'.
    + rewrite (rt_get_lapsed st r now' Hgone). simpl. f_equal. symmetry. apply Z.ltb_ge. simpl in Hgone. lia.
  - intros now' key' moment Hne. unfold is_revoked_before, revoked_at. rewrite rt_get_other; [done|]. rewrite <- Hid. by intros [= ?].
Qed.
End Guard.

(** The rows as a map, each until its expiry. *)
#[export] Program Instance map_revocations : RevocationTable (gmap (string * string) revocation_row) := {|
  rt_get st now id := r ← st !! id; if rv_expires_at r <=? now then None else Some r;
  rt_save st r := <[rv_id r := r]> st;
|}.
Next Obligation.
  intros st r now Hlive. exists r. simpl. rewrite lookup_insert_eq. simpl. by rewrite (proj2 (Z.leb_gt _ _) Hlive).
Qed.
Next Obligation.
  intros st r now Hgone. simpl. rewrite lookup_insert_eq. simpl. by rewrite (proj2 (Z.leb_le _ _) Hgone).
Qed.
Next Obligation.
  intros st r now id Hne. simpl. by rewrite lookup_insert_ne by done.
Qed.

Definition standing_guard : denylist := mkDenylist "standing" 3600000000.
Definition revoked_table : gmap (string * string) revocation_row := {[ ("standing", "sub:1")%string := mkRevocationRow "standing" "sub:1" 5000000 3605000000 None ]}.

Lemma revocation_outlives_its_sessions_witness :
  record_revocation (fun key => key) standing_guard ∅ 6000000 "sub:1" (mkPyDatetime 5000000 true) = Ok revoked_table
  /\ is_revoked_before (fun key => key) standing_guard revoked_table 3600000000 "sub:1" (mkPyDatetime 4000000 true) = Ok true
  /\ is_revoked_before (fun key => key) standing_guard revoked_table 3600000000 "sub:1" (mkPyDatetime 5000000 true) = Ok false.
Proof.
  assert (Hrec : record_revocation (fun key => key) standing_guard ∅ 6000000 "sub:1" (mkPyDatetime 5000000 true) = Ok revoked_table) by reflexivity.
  destruct (revocation_outlives_its_sessions (fun key => key) standing_guard ∅ revoked_table 6000000 "sub:1" (mkPyDatetime 5000000 true) Hrec) as [Hsession _].
  split; [exact Hrec|]. split.
  - exact (Hsession 3600000000 (mkPyDatetime 4000000 true) 3600000000 eq_refl (Z.le_refl _) eq_refl).
  - exact (Hsession 3600000000 (mkPyDatetime 5000000 true) 3600000000 eq_refl (Z.le_refl _) eq_refl).
Defined.
