(* ===== verification/Idempotency.v ===== *)
(** * Idempotency keys

    [IdempotencyKeyStore] of [src/packages/core/src/threetears/core/coordination/idempotency.py]: an
    operation is claimed once and its outcome kept, over the claims table of [tables.py], a deferred table of
    [ExpiringRows]. A claim is a create-if-absent swap, a completion or a failure a swap of the claimed row.
    Bytes are strings; times are microseconds. [get] reads through the collection and is a parameter of the
    answers that use it. *)

From Stdlib Require Import Ascii String Bool List NArith ZArith Lia.
From stdpp Require Import base list gmap strings relations functions.
From S2P Require Import Prelude CasMutate ExpiringRows.

Open Scope Z_scope.

Inductive claim_status := Pending | Completed | Failed.

#[export] Instance claim_status_eq_dec : EqDecision claim_status.
Proof. solve_decision. Defined.

(** A row of [coordination_claims]. *)
Record claim_row := mkClaimRow {
  cl_purpose : string;
  cl_key : string;
  cl_status : claim_status;
  cl_result : option string;
  cl_error : option string;
  cl_metadata : option string;
  cl_date_claimed : Z;
  cl_date_completed : option Z;
  cl_expires_at : option Z;
}.

#[export] Instance claim_row_eq_dec : EqDecision claim_row.
Proof. solve_decision. Defined.

Record IdempotencyRecord := mkIdempotencyRecord {
  ir_key : string;
  ir_status : claim_status;
  ir_result : option string;
  ir_error : option string;
  ir_metadata : option string;
  ir_date_claimed : Z;
  ir_date_completed : option Z;
}.

(** [_record_from_row]; the bytes columns are bytes already. *)
Definition record_from_row (row : claim_row) : IdempotencyRecord :=
  mkIdempotencyRecord (cl_key row) (cl_status row) (cl_result row) (cl_error row) (cl_metadata row) (cl_date_claimed row) (cl_date_completed row).

Record IdempotencyKeyStore := mkKeyStore { ks_purpose : string; ks_ttl : option Z }.

(** [__init__], with [require_l2_fence]. *)
Definition idempotency_key_store (purpose : string) (ttl : option Z) (l2_client : bool) : result IdempotencyKeyStore string :=
  if negb (str_truthy (py_strip purpose)) then Err "IdempotencyKeyStore purpose must be a non-empty name, e.g. 'export_jobs'"%string
  else if match ttl with Some ttl => ttl <=? 0 | None => false end then Err "IdempotencyKeyStore ttl must be positive when set"%string
  else if negb l2_client then Err "IdempotencyKeyStore needs an L2 client"%string
  else Ok (mkKeyStore purpose ttl).

Section Store.
Variable self : IdempotencyKeyStore.

(** The callback of [claim]. *)
Definition claim_key (key : string) (metadata : option string) (now : Z) (current : option (@row claim_row)) : @cas_action claim_row :=
  match current with
  | None => Upsert (mkRow (mkClaimRow (ks_purpose self) key Pending None None metadata now None ((fun ttl => now + ttl) <$> ks_ttl self)) None None)
  | Some _ => Noop
  end.

(** The callback of [_transition], at the time it runs. *)
Definition to_terminal (status : claim_status) (result error : option string) (now : Z) (current : option (@row claim_row)) : @cas_action claim_row :=
  match current with
  | None => Noop
  | Some row =>
      let f := r_fields row in
      Upsert (mkRow (mkClaimRow (cl_purpose f) (cl_key f) status result error (cl_metadata f) (cl_date_claimed f) (Some now) (cl_expires_at f))
        (r_date_created row) (r_date_updated row))
  end.

Definition complete (result : string) : Z -> option (@row claim_row) -> @cas_action claim_row := to_terminal Completed (Some result) None.
Definition fail (error : string) : Z -> option (@row claim_row) -> @cas_action claim_row := to_terminal Failed None (Some error).

Inductive claim_answer := Claimed (r : IdempotencyRecord) | Exists (r : IdempotencyRecord) | ClaimAgain.

(** One pass of [claim]: the outcome of the swap, and what [get] answers when the swap created nothing. *)
Definition claim_pass (outcome : @CasMutation claim_row) (got : option IdempotencyRecord) : claim_answer :=
  match String.eqb (cm_action outcome) "created", cm_row outcome with
  | true, Some s => Claimed (record_from_row (r_fields (s_row s)))
  | _, _ => match got with Some existing => Exists existing | None => ClaimAgain end
  end.

(** [claim]: passes until one answers. *)
Fixpoint claim (passes : list (result (@CasMutation claim_row * option IdempotencyRecord) cas_error)) : option (result claim_answer cas_error) :=
  match passes with
  | [] => None
  | Err e :: _ => Some (Err e)
  | Ok (outcome, got) :: passes => match claim_pass outcome got with ClaimAgain => claim passes | answer => Some (Ok answer) end
  end.

Inductive transition_error := IdempotencyKeyNotFound | IdempotencyConflict | TransitionRaised (e : cas_error).

(** What [_transition] makes of the outcome of its swap. *)
Definition transition (outcome : result (@CasMutation claim_row) cas_error) : result unit transition_error :=
  match outcome with
  | Err ConcurrentModificationError => Err IdempotencyConflict
  | Err e => Err (TransitionRaised e)
  | Ok m => if String.eqb (cm_action m) "noop" then Err IdempotencyKeyNotFound else Ok tt
  end.

(** ** Requests on one key *)

Inductive request := Claim (metadata : option string) | Complete (result : string) | FailWith (error : string).

Variable key : string.
Variable requests : nat -> request.

Definition request_callback (i : nat) (started now : Z) : option (@row claim_row) -> @cas_action claim_row :=
  match requests i with Claim metadata => claim_key key metadata started | Complete result => complete result now | FailWith error => fail error now end.

Abbreviation store_reachable w := (ereachable cl_expires_at true MAX_RETRIES request_callback True w).

#[export] Instance requests_keep_expiry : KeepsExpiry cl_expires_at request_callback.
Proof.
  refine {| well_formed _ := True |}. intros i t0 t prior new_row _ Hc _. split; [done|]. intros p ->. unfold request_callback in Hc.
  destruct (requests i); [done|by injection Hc as <-|by injection Hc as <-].
Defined.

(** A claim starts from nothing, a completion or a failure from a row. *)
Lemma request_made s : made cl_expires_at request_callback s ->
  match sw_prior s with
  | None => exists metadata, requests (sw_call s) = Claim metadata
      /\ r_fields (sw_row s) = mkClaimRow (ks_purpose self) key Pending None None metadata (sw_started s) None ((fun ttl => sw_started s + ttl) <$> ks_ttl self)
  | Some p => exists status result error now, (requests (sw_call s) = Complete (default ""%string result) /\ status = Completed /\ isSome result = true /\ error = None
        \/ requests (sw_call s) = FailWith (default ""%string error) /\ status = Failed /\ result = None /\ isSome error = true)
      /\ r_fields (sw_row s) = mkClaimRow (cl_purpose (r_fields p)) (cl_key (r_fields p)) status result error (cl_metadata (r_fields p)) (cl_date_claimed (r_fields p)) (Some now) (cl_expires_at (r_fields p))
  end.
Proof.
  intros (_ & _ & t & new_row & ts & _ & Hc & ->). rewrite stamped_fields. unfold request_callback in Hc.
  destruct (sw_prior s) as [p|], (requests (sw_call s)) as [metadata|result|error]; try done; injection Hc as <-.
  - exists Completed, (Some result), None, t. split; [by left|done].
  - exists Failed, None, (Some error), t. split; [by right|done].
  - by exists metadata.
Qed.

(** Every row is the claim of one request, as that request or a later completion or failure left it. *)
Lemma rows_of_claims swaps s : history cl_expires_at request_callback swaps -> s ∈ swaps ->
  exists c metadata, c ∈ swaps /\ sw_prior c = None /\ requests (sw_call c) = Claim metadata /\ sw_time c <= sw_time s
    /\ let f := r_fields (sw_row s) in cl_key f = key /\ cl_metadata f = metadata /\ cl_date_claimed f = sw_started c
       /\ cl_expires_at f = (fun ttl => sw_started c + ttl) <$> ks_ttl self.
Proof.
  intros Hh. revert s. induction Hh as [|swaps s Hh IH Hf]; intros x; [by intros ?%elem_of_nil|]. rewrite elem_of_app, list_elem_of_singleton.
  intros [Hx| ->].
  - destruct (IH x Hx) as (c & metadata & Hc & Hrest). exists c, metadata. split; [apply elem_of_app; by left|done].
  - pose proof Hf as (Hmade & Hbefore & _). pose proof (request_made s Hmade) as Hm. destruct (sw_prior s) as [p|] eqn:Hp.
    + destruct (follows_prior _ _ swaps s p Hf Hp) as (y & Hy & <-). destruct Hm as (status & result & error & now & _ & Hrow).
      destruct (IH y Hy) as (c & metadata & Hc & Hpc & Hreq & Htime & Hkey & Hmeta & Hdate & Hexp).
      rewrite list.Forall_forall in Hbefore. specialize (Hbefore y Hy). exists c, metadata. rewrite Hrow. simpl.
      split_and!; [apply elem_of_app; by left|done|done|lia|done|done|done|done].
    + destruct Hm as (metadata & Hreq & Hrow). exists s, metadata. rewrite Hrow. simpl. split_and!; try done. apply elem_of_app. right. by apply list_elem_of_singleton.
Qed.

Definition told_claimed (w : @eworld claim_row) (i : nat) (started : Z) : Prop :=
  exists m got r, ereturned w i = Some (started, Ok m) /\ claim_pass m got = Claimed r.

(** (C15) An operation is claimed once while L2 is not wiped: however many replicas claim a key at once and whenever the buffered rows
    reach the database, two calls are told they claimed it only if the claim of one of them has lived its lifetime, less the second that
    L2 may drop its entry early; a claim without a lifetime is the only one until a wipe. *)
Theorem claimed_once w i j ti tj : store_reachable w -> told_claimed w i ti -> told_claimed w j tj -> i <> j ->
  exists ttl, ks_ttl self = Some ttl /\ (ti + ttl <= ew_now w + TTL_GRAIN \/ tj + ttl <= ew_now w + TTL_GRAIN).
Proof.
  intros (swaps & Hh & Honce & Htimes & Hret)%reachable_history (mi & gi & ri & Hi & Hci) (mj & gj & rj & Hj & Hcj) Hne; [|apply _].
  assert (Hswap : forall k t m got r, ereturned w k = Some (t, Ok m) -> claim_pass m got = Claimed r ->
    exists s, s ∈ swaps /\ sw_call s = k /\ sw_started s = t /\ sw_prior s = None /\ cl_expires_at (r_fields (sw_row s)) = (fun ttl => t + ttl) <$> ks_ttl self).
  { intros k t m got r Hk Hc. unfold claim_pass in Hc. destruct (Hret k t m Hk) as [[Ha Hr]|(s & Hs & Hsk & Hst & Ha & _)]; rewrite Ha in Hc.
    - by destruct got.
    - exists s. pose proof (request_made s (history_made _ _ _ _ Hh Hs)) as Hm. destruct (sw_prior s) as [p|]; [by destruct got|].
      destruct Hm as (metadata & _ & ->). simpl. by rewrite Hst. }
  destruct (Hswap i ti mi gi ri Hi Hci) as (x & Hx & Hxi & Hxt & Hpx & Hex). destruct (Hswap j tj mj gj rj Hj Hcj) as (y & Hy & Hyj & Hyt & Hpy & Hey).
  rewrite list.Forall_forall in Htimes. pose proof (Htimes x Hx). pose proof (Htimes y Hy). assert (x <> y) as Hxy by congruence.
  destruct (fresh_swaps_apart _ _ swaps x y Hh Hx Hy Hxy Hpx Hpy) as [He|He]; unfold l2_may_drop, row_is_expired in He; rewrite ?Hex, ?Hey in He;
    (destruct (ks_ttl self) as [ttl|]; [|done]); exists ttl; (split; [done|]); simpl in He; apply Z.leb_le in He; lia.
Qed.

(** An outcome is kept with its claim: a completion that is told the key was found left a record that is completed with its result and
    carries the key, the metadata and the date of a claim of that key, made before and not yet past its lifetime when the
    completion began. *)
Theorem outcome_kept_with_its_claim w i t0 m result : store_reachable w -> requests i = Complete result ->
  ereturned w i = Some (t0, Ok m) -> transition (Ok m) = Ok tt ->
  exists s c metadata tc, cm_row m = Some s /\ requests c = Claim metadata /\ (forall ttl, ks_ttl self = Some ttl -> t0 < tc + ttl)
    /\ exists now, record_from_row (r_fields (s_row s)) = mkIdempotencyRecord key Completed (Some result) None metadata tc (Some now).
Proof.
  intros (swaps & Hh & _ & _ & Hret)%reachable_history Hreq Hi Htr; [|apply _].
  destruct (Hret i t0 m Hi) as [[Ha _]|(s & Hs & Hsk & Hst & _ & Hrow)]; [simpl in Htr; by rewrite Ha in Htr|].
  destruct (cm_row m) as [st|]; [|done]. injection Hrow as Hrow. pose proof (history_made _ _ _ _ Hh Hs) as Hmade. pose proof (request_made s Hmade) as Hm.
  destruct (rows_of_claims swaps s Hh Hs) as (c & metadata & _ & _ & Hclaim & _ & Hkey & Hmeta & Hdate & Hexp).
  exists st, (sw_call c), metadata, (sw_started c). rewrite Hrow. destruct (sw_prior s) as [p|] eqn:Hp; [|destruct Hm as (? & Habs & _); congruence].
  destruct Hm as (status & res & error & now & Hwhich & Hf). rewrite Hf in Hkey, Hmeta, Hdate, Hexp |- *. simpl in Hkey, Hmeta, Hdate, Hexp.
  split_and!; [done|done| |].
  - intros ttl Httl. destruct Hmade as (_ & Hlive & _). specialize (Hlive p Hp). unfold row_is_expired in Hlive. rewrite Hexp, Httl in Hlive. simpl in Hlive.
    apply Z.leb_gt in Hlive. lia.
  - exists now. unfold record_from_row. simpl. rewrite Hkey, Hmeta, Hdate. destruct Hwhich as [(Hr & -> & Hsome & ->)|(Hr & _)]; [|congruence].
    destruct res as [res|]; [|done]. rewrite Hsk, Hreq in Hr. by injection Hr as ->.
Qed.
End Store.

(** ** Runs *)

Definition export_jobs : IdempotencyKeyStore := mkKeyStore "export_jobs" (Some 10000000).

(** Two claims, a completion by the first, and after the lifetime a claim and a completion again. *)
Definition export_requests (i : nat) : request :=
  match i with 2%nat => Complete "export.csv" | 4%nat => Complete "stale.csv" | _ => Claim (Some "sha") end.

Definition export_run (es : list eevent) : @eworld claim_row :=
  run_eevents cl_expires_at true MAX_RETRIES (request_callback export_jobs "job-1" export_requests) es (eworld0 1000000 7).

Definition export_events : list eevent :=
  [EvStart 0; EvStart 1; EvRun 0 4; EvRun 1 4; EvRun 0 40; EvRun 1 40; EvTick 2000000; EvStart 2; EvRun 2 40; EvTick 12000000; EvStart 3; EvRun 3 40].

Definition claim_action (w : @eworld claim_row) (i : nat) : option string := r ← ereturned w i; match r.2 with Ok m => Some (cm_action m) | Err _ => None end.

Lemma export_reaches es : forallb steady_event es = true ->
  ereachable cl_expires_at true MAX_RETRIES (request_callback export_jobs "job-1" export_requests) True (export_run es).
Proof. intros Hst. by apply run_eevents_reach. Qed.

Lemma claimed_once_witness : claim_action (export_run export_events) <$> [0; 1; 2; 3]%nat = [Some "created"; Some "noop"; Some "updated"; Some "created"]%string
  /\ exists ttl, ks_ttl export_jobs = Some ttl /\ (1000000 + ttl <= ew_now (export_run export_events) + TTL_GRAIN \/ 12000000 + ttl <= ew_now (export_run export_events) + TTL_GRAIN).
Proof.
  split; [vm_compute; reflexivity|].
  assert (H0 : told_claimed (export_run export_events) 0 1000000) by (eexists _, None, _; split; vm_compute; reflexivity).
  assert (H3 : told_claimed (export_run export_events) 3 12000000) by (eexists _, None, _; split; vm_compute; reflexivity).
  refine (claimed_once export_jobs "job-1" export_requests (export_run export_events) 0 3 _ _ (export_reaches export_events eq_refl) H0 H3 _). discriminate.
Defined.

Lemma outcome_kept_with_its_claim_witness : exists m, ereturned (export_run export_events) 2 = Some (2000000, Ok m) /\ transition (Ok m) = Ok tt
  /\ exists s c metadata tc, cm_row m = Some s /\ export_requests c = Claim metadata /\ (forall ttl, ks_ttl export_jobs = Some ttl -> 2000000 < tc + ttl)
    /\ exists now, record_from_row (r_fields (s_row s)) = mkIdempotencyRecord "job-1" Completed (Some "export.csv"%string) None metadata tc (Some now).
Proof.
  assert (Hret : exists m, ereturned (export_run export_events) 2 = Some (2000000, Ok m) /\ transition (Ok m) = Ok tt) by (eexists; split; vm_compute; reflexivity).
  destruct Hret as (m & Hret & Htr). exists m. split; [exact Hret|]. split; [exact Htr|].
  exact (outcome_kept_with_its_claim export_jobs "job-1" export_requests (export_run export_events) 2 2000000 m "export.csv" (export_reaches export_events eq_refl) eq_refl Hret Htr).
Defined.

(** The second is needed: half a second before the first claim's lifetime ends, its row still in the buffer, L2 has dropped the entry
    and the key is claimed again. *)
Theorem claim_is_granted_again_in_its_last_second :
  let w := export_run [EvStart 0; EvRun 0 40; EvTick 10500000; EvLapse; EvStart 1; EvRun 1 40] in
  ereachable cl_expires_at true MAX_RETRIES (request_callback export_jobs "job-1" export_requests) True w
  /\ told_claimed w 0 1000000 /\ told_claimed w 1 10500000 /\ ew_now w < 1000000 + 10000000.
Proof.
  split_and!; [by apply export_reaches|eexists _, None, _; split; vm_compute; reflexivity|eexists _, None, _; split; vm_compute; reflexivity|reflexivity].
Qed.

(** A completion that comes after the lifetime of its claim lands on the claim that took its place: call zero claimed the key, its
    lifetime ended, call three claimed it, and the completion of call zero's work (call four) marks call three's claim completed with
    a result that is not its own, while call three may still be at work. *)
Theorem late_completion_lands_on_another_claim :
  let w := export_run (app export_events [EvStart 4; EvRun 4 40]) in
  ereachable cl_expires_at true MAX_RETRIES (request_callback export_jobs "job-1" export_requests) True w
  /\ told_claimed w 0 1000000 /\ told_claimed w 3 12000000
  /\ exists m s, ereturned w 4 = Some (12000000, Ok m) /\ transition (Ok m) = Ok tt /\ cm_row m = Some s
     /\ cl_date_claimed (r_fields (s_row s)) = 12000000 /\ cl_result (r_fields (s_row s)) = Some "stale.csv"%string.
Proof.
  split_and!; [by apply export_reaches|eexists _, None, _; split; vm_compute; reflexivity|eexists _, None, _; split; vm_compute; reflexivity|].
  eexists _, _. split_and!; vm_compute; reflexivity.
Qed.
