(* ===== verification/FlushOrder.v ===== *)
(** * The order of a flush

    [_toposort_pending] of [src/packages/core/src/threetears/core/collections/flush.py]: the writes of a
    flush ordered so that a row is written after the row its foreign key points to. The dicts of the
    function are maps, with the list of their keys where the order they were filled in shows; ids are the
    text of the entity ids. The queue is emptied in at most one round per write, which is the fuel. *)

From Stdlib Require Import Ascii String Bool List NArith ZArith Lia.
From stdpp Require Import base list gmap strings.
From S2P Require Import Prelude.

Open Scope Z_scope.

Section Flush.
(** A row, and the text of a column of it, [None] when the row has none. *)
Context {D : Type}.
Variable data_get : D -> string -> option string.

Record PendingWrite := mkPendingWrite { pw_table_name : string; pw_entity_id : string; pw_data : D; pw_retries : Z }.

(** The table's foreign key to its parent, by table. *)
Definition DEFAULT_PARENT_KEY_MAP : gmap string string := {[ "messages"%string := "parent_message_id"%string ]}.

Section Sort.
Variable parent_key_map : gmap string string.

Definition has_parent_key (pw : PendingWrite) : bool := isSome (parent_key_map !! pw_table_name pw).

Definition parent_id (pw : PendingWrite) : option string := parent_key_map !! pw_table_name pw ≫= data_get (pw_data pw).

(** [by_id]: of writes with one id the last. *)
Definition by_id (with_deps : list PendingWrite) : gmap string PendingWrite :=
  fold_left (fun m pw => <[pw_entity_id pw := pw]> m) with_deps ∅.

(** The keys of a dict filled from a list, in the order of their first appearance. *)
Fixpoint dict_keys (ids : list string) (seen : list string) : list string :=
  match ids with
  | [] => seen
  | id :: ids => dict_keys ids (if bool_decide (id ∈ seen) then seen else seen ++ [id])
  end.

(** [in_degree] and [children_of]. *)
Definition link (nodes : gmap string PendingWrite) (g : gmap string Z * gmap string (list string)) (pw : PendingWrite) : gmap string Z * gmap string (list string) :=
  match parent_id pw with
  | Some parent =>
      if isSome (nodes !! parent) then
        (<[pw_entity_id pw := default 0 (g.1 !! pw_entity_id pw) + 1]> g.1, <[parent := default [] (g.2 !! parent) ++ [pw_entity_id pw]]> g.2)
      else g
  | None => g
  end.

Definition zero_degrees (with_deps : list PendingWrite) : gmap string Z := fold_left (fun m pw => <[pw_entity_id pw := 0]> m) with_deps ∅.

Definition links (with_deps : list PendingWrite) : gmap string Z * gmap string (list string) :=
  fold_left (link (by_id with_deps)) with_deps (zero_degrees with_deps, ∅).

(** A child of a write just placed: one parent less to wait for. *)
Definition release (q : list string * gmap string Z) (child : string) : list string * gmap string Z :=
  let degree := default 0 (q.2 !! child) - 1 in
  (if degree =? 0 then q.1 ++ [child] else q.1, <[child := degree]> q.2).

Fixpoint kahn (fuel : nat) (nodes : gmap string PendingWrite) (children : gmap string (list string)) (queue : list string) (in_degree : gmap string Z)
    (ordered : list PendingWrite) : list PendingWrite :=
  match fuel, queue with
  | S fuel, eid :: queue =>
      let '(queue, in_degree) := fold_left release (default [] (children !! eid)) (queue, in_degree) in
      kahn fuel nodes children queue in_degree (ordered ++ option_list (nodes !! eid))
  | _, _ => ordered
  end.

Definition toposort_pending (pending : list PendingWrite) : list PendingWrite :=
  let no_deps := List.filter (fun pw => negb (has_parent_key pw)) pending in
  let with_deps := List.filter has_parent_key pending in
  match with_deps with
  | [] => no_deps
  | _ =>
      let '(in_degree, children) := links with_deps in
      let queue := List.filter (fun eid => default 0 (in_degree !! eid) =? 0) (dict_keys (pw_entity_id <$> with_deps) []) in
      let ordered := kahn (length with_deps) (by_id with_deps) children queue in_degree [] in
      let rest := if (length ordered <? length with_deps)%nat
                  then List.filter (fun pw => negb (bool_decide (pw_entity_id pw ∈ pw_entity_id <$> ordered))) with_deps else [] in
      no_deps ++ ordered ++ rest
  end.

(** ** The graph *)

Section Graph.
Variable ws : list PendingWrite.
Hypothesis distinct : NoDup (pw_entity_id <$> ws).

Lemma by_id_Some id pw : by_id ws !! id = Some pw <-> pw ∈ ws /\ pw_entity_id pw = id.
Proof.
  unfold by_id. revert distinct. induction ws as [|x l IH] using rev_ind; intros Hnd.
  - simpl. rewrite lookup_empty. split; [done|by intros [?%elem_of_nil _]].
  - rewrite fold_left_app. simpl. rewrite fmap_app in Hnd. simpl in Hnd. apply list.NoDup_app in Hnd as (Hnd & Hx & _).
    rewrite elem_of_app, list_elem_of_singleton. destruct (decide (pw_entity_id x = id)) as [<-|Hne].
    + rewrite lookup_insert_eq. split; [intros [= <-]; auto|]. intros [[Hin| ->] Hid]; [|done].
      destruct (Hx (pw_entity_id pw)); [by apply list_elem_of_fmap_2|]. rewrite Hid. by apply list_elem_of_singleton.
    + rewrite lookup_insert_ne by done. rewrite (IH Hnd). split; [intros [??]; auto|]. intros [[Hin| ->] Hid]; done.
Qed.

Lemma by_id_self pw : pw ∈ ws -> by_id ws !! pw_entity_id pw = Some pw.
Proof. intros Hin. by apply by_id_Some. Qed.

(** The parent of an id among the writes. *)
Definition parent_in (id : string) : option string :=
  pw ← by_id ws !! id; p ← parent_id pw; if isSome (by_id ws !! p) then Some p else None.

Definition ids : list string := pw_entity_id <$> ws.

Lemma parent_in_ids x p : parent_in x = Some p -> x ∈ ids /\ p ∈ ids.
Proof.
  unfold parent_in, ids. destruct (by_id ws !! x) as [pw|] eqn:Hx; [|done]. simpl. destruct (parent_id pw) as [p'|]; [|done]. simpl.
  destruct (by_id ws !! p') as [pp|] eqn:Hp; [|done]. intros [= <-]. apply by_id_Some in Hx as [Hx <-], Hp as [Hp <-]. split; by apply list_elem_of_fmap_2.
Qed.

(** Each write counts one if its parent is among the writes, and is on its parent's list, once. *)
Definition children_in (l : list PendingWrite) (p : string) : list string := List.filter (fun x => bool_decide (parent_in x = Some p)) (pw_entity_id <$> l).

Definition degree_in (done : list string) (x : string) : Z := match parent_in x with Some p => if bool_decide (p ∈ done) then 0 else 1 | None => 0 end.

Lemma zero_degrees_lookup (l : list PendingWrite) x : zero_degrees l !! x = if bool_decide (x ∈ pw_entity_id <$> l) then Some 0 else None.
Proof.
  unfold zero_degrees. induction l as [|y l IH] using rev_ind; [done|]. rewrite fold_left_app, fmap_app. simpl. destruct (decide (pw_entity_id y = x)) as [<-|Hne].
  - rewrite lookup_insert_eq, bool_decide_eq_true_2; [done|]. rewrite elem_of_app. right. by apply list_elem_of_singleton.
  - rewrite lookup_insert_ne, IH by done. erewrite bool_decide_ext; [done|]. rewrite elem_of_app, list_elem_of_singleton. naive_solver.
Qed.

Lemma link_self g pw : pw ∈ ws -> link (by_id ws) g pw =
  match parent_in (pw_entity_id pw) with
  | Some parent => (<[pw_entity_id pw := default 0 (g.1 !! pw_entity_id pw) + 1]> g.1, <[parent := default [] (g.2 !! parent) ++ [pw_entity_id pw]]> g.2)
  | None => g
  end.
Proof.
  intros Hin. unfold link, parent_in. rewrite (by_id_self pw Hin). simpl. destruct (parent_id pw) as [p|]; [|done]. simpl. by destruct (isSome (by_id ws !! p)).
Qed.

(** The graph of the writes linked so far. *)
Lemma links_so_far l : (forall pw, pw ∈ l -> pw ∈ ws) -> NoDup (pw_entity_id <$> l) ->
  let g := fold_left (link (by_id ws)) l (zero_degrees ws, ∅) in
  (forall x, x ∈ ids -> g.1 !! x = Some (if bool_decide (x ∈ pw_entity_id <$> l) then degree_in [] x else 0))
  /\ forall p, default [] (g.2 !! p) = children_in l p.
Proof.
  induction l as [|pw l IH] using rev_ind; intros Hsub Hnd.
  - split; [|done]. intros x Hx. simpl. rewrite zero_degrees_lookup, bool_decide_eq_true_2 by done. done.
  - rewrite fold_left_app. simpl. rewrite fmap_app in Hnd. simpl in Hnd. apply list.NoDup_app in Hnd as (Hnd & Hnew & _).
    destruct IH as [Hdeg Hch]; [intros y Hy; apply Hsub, elem_of_app; by left|done|].
    assert (Hpw : pw ∈ ws) by (apply Hsub, elem_of_app; right; by apply list_elem_of_singleton).
    assert (Hid : pw_entity_id pw ∈ ids) by by apply list_elem_of_fmap_2.
    assert (Hout : pw_entity_id pw ∉ pw_entity_id <$> l) by (intros Hin; apply (Hnew _ Hin); by apply list_elem_of_singleton).
    set (g := fold_left _ l _) in *. rewrite link_self by done. split.
    + intros x Hx. rewrite fmap_app. destruct (decide (x = pw_entity_id pw)) as [->|Hne].
      * rewrite bool_decide_eq_true_2 by (rewrite elem_of_app; right; by apply list_elem_of_singleton). unfold degree_in.
        destruct (parent_in (pw_entity_id pw)) as [p|]; simpl; rewrite ?lookup_insert_eq, (Hdeg _ Hid), bool_decide_eq_false_2 by done; done.
      * replace (bool_decide (x ∈ (pw_entity_id <$> l) ++ (pw_entity_id <$> [pw]))) with (bool_decide (x ∈ pw_entity_id <$> l)).
        { destruct (parent_in (pw_entity_id pw)) as [p|]; simpl; rewrite ?lookup_insert_ne by done; by apply Hdeg. }
        apply bool_decide_ext. rewrite elem_of_app. simpl. rewrite list_elem_of_singleton. naive_solver.
    + intros p. unfold children_in. rewrite fmap_app, List.filter_app. simpl. destruct (parent_in (pw_entity_id pw)) as [q|]; simpl.
      * destruct (decide (q = p)) as [->|Hne].
        { rewrite lookup_insert_eq, bool_decide_eq_true_2 by done. simpl. by rewrite Hch. }
        rewrite lookup_insert_ne, bool_decide_eq_false_2 by congruence. by rewrite app_nil_r, Hch.
      * rewrite app_nil_r. apply Hch.
Qed.

Lemma links_spec : (forall x, x ∈ ids -> (links ws).1 !! x = Some (degree_in [] x)) /\ forall p, default [] ((links ws).2 !! p) = children_in ws p.
Proof.
  destruct (links_so_far ws (fun _ H => H) distinct) as [Hdeg Hch]. split; [|exact Hch]. intros x Hx. unfold links. rewrite Hdeg by done.
  by rewrite bool_decide_eq_true_2.
Qed.

Lemma children_in_elem p x : x ∈ children_in ws p <-> parent_in x = Some p.
Proof.
  unfold children_in. rewrite list_elem_of_In, List.filter_In, <- list_elem_of_In, bool_decide_eq_true. split; [by intros [_ ?]|].
  intros Hp. split; [|done]. by apply (parent_in_ids x p).
Qed.

Lemma dict_keys_distinct (l seen : list string) : NoDup (seen ++ l) -> dict_keys l seen = seen ++ l.
Proof.
  revert seen. induction l as [|x l IH]; intros seen Hnd; simpl; [by rewrite app_nil_r|].
  rewrite bool_decide_eq_false_2; [rewrite IH; by rewrite <- app_assoc|].
  apply list.NoDup_app in Hnd as (_ & Hx & _). intros Hin. apply (Hx x Hin). by left.
Qed.

(** ** The queue *)

Lemma release_all (cs queue : list string) (deg : gmap string Z) : NoDup cs -> (forall c, c ∈ cs -> deg !! c = Some 1) ->
  exists deg', fold_left release cs (queue, deg) = (queue ++ cs, deg') /\ forall x, deg' !! x = if bool_decide (x ∈ cs) then Some 0 else deg !! x.
Proof.
  revert queue deg. induction cs as [|c cs IH]; intros queue deg Hnd Hdeg; [exists deg; by rewrite app_nil_r|].
  apply NoDup_cons in Hnd as [Hc Hnd]. simpl. unfold release at 2. simpl. rewrite (Hdeg c) by by left. simpl. change (1 - 1) with 0.
  destruct (IH (queue ++ [c]) (<[c := 0]> deg) Hnd) as (deg' & -> & Hdeg').
  { intros x Hx. rewrite lookup_insert_ne by (by intros ->). apply Hdeg. by right. }
  exists deg'. rewrite <- app_assoc. split; [done|]. intros x. rewrite Hdeg'. destruct (decide (x = c)) as [->|Hne].
  - rewrite bool_decide_eq_false_2, lookup_insert_eq, bool_decide_eq_true_2 by (done || by left). done.
  - rewrite lookup_insert_ne by done. erewrite bool_decide_ext; [done|]. rewrite elem_of_cons. naive_solver.
Qed.

(** Placed and queued are the writes that wait for no write but a placed one, each after its parent. *)
Record placing (done queue : list string) (deg : gmap string Z) : Prop := mkPlacing {
  pl_once : NoDup (done ++ queue);
  pl_ids : forall x, x ∈ done ++ queue <-> x ∈ ids /\ forall p, parent_in x = Some p -> p ∈ done;
  pl_deg : forall x, x ∈ ids -> deg !! x = Some (degree_in done x);
  pl_order : forall l1 x l2 p, done ++ queue = l1 ++ x :: l2 -> parent_in x = Some p -> p ∈ l1;
}.

Lemma placing_start : placing [] (List.filter (fun eid => default 0 ((links ws).1 !! eid) =? 0) ids) (links ws).1.
Proof.
  destruct links_spec as [Hdeg _].
  assert (Hmem : forall x, x ∈ List.filter (fun eid => default 0 ((links ws).1 !! eid) =? 0) ids <-> x ∈ ids /\ parent_in x = None).
  { intros x. rewrite list_elem_of_In, List.filter_In, <- list_elem_of_In. split; intros [Hx Hp]; (split; [done|]); rewrite (Hdeg x Hx) in *; unfold degree_in in *;
      destruct (parent_in x); simpl in *; done. }
  constructor; [by apply NoDup_list_filter| |apply Hdeg|].
  - intros x. simpl. rewrite Hmem. split; intros [Hx Hp]; (split; [done|]); [by rewrite Hp|]. destruct (parent_in x) as [p|]; [|done]. specialize (Hp p eq_refl). by apply elem_of_nil in Hp.
  - intros l1 x l2 p Heq Hp. assert (Hx : x ∈ l1 ++ x :: l2) by (rewrite elem_of_app; right; by left). rewrite <- Heq in Hx. apply Hmem in Hx as [_ Hx]. congruence.
Qed.

Lemma placing_step done eid queue deg : placing done (eid :: queue) deg ->
  exists deg', fold_left release (children_in ws eid) (queue, deg) = (queue ++ children_in ws eid, deg') /\ placing (done ++ [eid]) (queue ++ children_in ws eid) deg'.
Proof.
  intros [Hnd Hids Hdeg Hord]. pose proof Hnd as Hnd'. rewrite list.NoDup_app in Hnd'. destruct Hnd' as (_ & Hdisj & Hq).
  assert (Heid : eid ∉ done) by (intros Hin; apply (Hdisj _ Hin); by left).
  assert (Hch : NoDup (children_in ws eid)) by by apply NoDup_list_filter.
  assert (Hnew : forall c, c ∈ children_in ws eid -> c ∈ ids /\ c ∉ done ++ eid :: queue).
  { intros c Hc. apply children_in_elem in Hc. split; [by apply (parent_in_ids c eid)|]. intros [_ Hin]%Hids. by apply Heid, Hin. }
  destruct (release_all (children_in ws eid) queue deg Hch) as (deg' & Heq & Hdeg').
  { intros c Hc. destruct (Hnew c Hc) as [Hcid _]. apply children_in_elem in Hc. rewrite (Hdeg c Hcid). unfold degree_in. by rewrite Hc, bool_decide_eq_false_2. }
  exists deg'. split; [done|].
  assert (Hassoc : (done ++ [eid]) ++ queue ++ children_in ws eid = (done ++ eid :: queue) ++ children_in ws eid) by (by rewrite <- !app_assoc).
  constructor.
  - rewrite Hassoc, list.NoDup_app. split_and!; [done| |done]. intros x Hx Hc. by destruct (Hnew x Hc).
  - intros x. rewrite Hassoc, elem_of_app, Hids, children_in_elem. split.
    + intros [[Hx Hp]|Hp].
      * split; [done|]. intros p Hpx. rewrite elem_of_app. left. by apply Hp.
      * split; [by apply (parent_in_ids x eid)|]. intros p Hpx. rewrite Hp in Hpx. injection Hpx as <-. rewrite elem_of_app. right. by apply list_elem_of_singleton.
    + intros [Hx Hp]. destruct (parent_in x) as [p|] eqn:Hpx; [|by left]. specialize (Hp p eq_refl). rewrite elem_of_app, list_elem_of_singleton in Hp.
      destruct Hp as [Hp| ->]; [left|by right]. split; [done|]. by intros p' [= <-].
  - intros x Hx. rewrite Hdeg'. unfold degree_in. case_bool_decide as Hc.
    + apply children_in_elem in Hc. rewrite Hc, bool_decide_eq_true_2; [done|]. rewrite elem_of_app. right. by apply list_elem_of_singleton.
    + rewrite children_in_elem in Hc. rewrite (Hdeg x Hx). unfold degree_in. destruct (parent_in x) as [p|]; [|done].
      erewrite bool_decide_ext; [done|]. rewrite elem_of_app, list_elem_of_singleton. naive_solver.
  - intros l1 x l2 p Hsplit Hp. rewrite Hassoc in Hsplit. apply app_eq_inv in Hsplit as [(k & Hd & Hk)|(k & Hd & Hk)].
    + destruct k as [|y k].
      * rewrite app_nil_r in Hd. simpl in Hk. assert (Hx : x ∈ children_in ws eid) by (rewrite <- Hk; by left). apply children_in_elem in Hx.
        rewrite Hp in Hx. injection Hx as ->. rewrite <- Hd, elem_of_app. right. by left.
      * injection Hk as <- Hk. by apply (Hord l1 x k).
    + assert (Hx : x ∈ children_in ws eid) by (rewrite Hk, elem_of_app; right; by left). apply children_in_elem in Hx.
      rewrite Hp in Hx. injection Hx as ->. rewrite Hd, !elem_of_app. left. right. by left.
Qed.

Lemma placed_fits done queue deg : placing done queue deg -> (length done + length queue <= length ids)%nat.
Proof.
  intros Hpl. rewrite <- length_app. apply submseteq_length, NoDup_submseteq; [apply Hpl|]. intros x Hx. by apply (pl_ids _ _ _ Hpl).
Qed.

(** The rounds end with the queue empty. *)
Lemma kahn_places fuel queue deg ordered : (fuel + length ordered = length ws)%nat -> placing (pw_entity_id <$> ordered) queue deg -> (forall pw, pw ∈ ordered -> pw ∈ ws) ->
  let out := kahn fuel (by_id ws) (links ws).2 queue deg ordered in
  (forall pw, pw ∈ out -> pw ∈ ws) /\ exists deg', placing (pw_entity_id <$> out) [] deg'.
Proof.
  revert queue deg ordered. induction fuel as [|fuel IH]; intros queue deg ordered Hfuel Hpl Hsub.
  - simpl. split; [done|]. pose proof (placed_fits _ _ _ Hpl) as Hlen. unfold ids in Hlen. rewrite !length_fmap in Hlen.
    destruct queue as [|x queue]; [by exists deg|]. simpl in Hlen. lia.
  - destruct queue as [|eid queue]; [split; [done|by exists deg]|]. cbn [kahn].
    destruct (placing_step _ _ _ _ Hpl) as (deg' & Heq & Hpl'). rewrite (proj2 links_spec eid), Heq.
    assert (Hin : eid ∈ ids) by (apply (pl_ids _ _ _ Hpl), elem_of_app; right; by left).
    apply list_elem_of_fmap in Hin as (pw & -> & Hpw). rewrite (by_id_self pw Hpw). simpl option_list.
    apply IH; [rewrite length_app; simpl; lia|by rewrite fmap_app|].
    intros x [Hx| ->%list_elem_of_singleton]%elem_of_app; [by apply Hsub|done].
Qed.

Lemma distinct_eq x y : x ∈ ws -> y ∈ ws -> pw_entity_id x = pw_entity_id y -> x = y.
Proof. intros Hx Hy Heq. pose proof (by_id_self x Hx) as H1. rewrite Heq, (by_id_self y Hy) in H1. by injection H1. Qed.

Lemma distinct_split out : NoDup (pw_entity_id <$> out) -> (forall pw, pw ∈ out -> pw ∈ ws) ->
  ws ≡ₚ out ++ List.filter (fun pw => negb (bool_decide (pw_entity_id pw ∈ pw_entity_id <$> out))) ws.
Proof.
  intros Hnd Hsub. apply NoDup_Permutation; [by apply (NoDup_fmap_1 pw_entity_id)| |].
  - apply list.NoDup_app. split_and!; [by apply (NoDup_fmap_1 pw_entity_id)| |apply NoDup_list_filter; by apply (NoDup_fmap_1 pw_entity_id)].
    intros x Hx. rewrite list_elem_of_In, List.filter_In, negb_true_iff, bool_decide_eq_false. intros [_ Hno]. apply Hno. by apply list_elem_of_fmap_2.
  - intros x. rewrite elem_of_app, (list_elem_of_In (List.filter _ ws)), List.filter_In, negb_true_iff, bool_decide_eq_false, <- list_elem_of_In. split.
    + intros Hx. destruct (decide (pw_entity_id x ∈ pw_entity_id <$> out)) as [(y & Heq & Hy)%list_elem_of_fmap|Hno]; [left|by right].
      rewrite (distinct_eq x y); [done|done|by apply Hsub|done].
    + intros [Hx|[Hx _]]; [by apply Hsub|done].
Qed.

(** A write whose chain of parents ends among the writes. *)
Inductive grounded : PendingWrite -> Prop :=
| grounded_root pw : pw ∈ ws -> (forall parent, parent ∈ ws -> parent_id pw <> Some (pw_entity_id parent)) -> grounded pw
| grounded_child pw parent : pw ∈ ws -> parent ∈ ws -> parent_id pw = Some (pw_entity_id parent) -> grounded parent -> grounded pw.

Lemma parent_in_self pw : pw ∈ ws -> forall p, parent_in (pw_entity_id pw) = Some p <-> parent_id pw = Some p /\ p ∈ ids.
Proof.
  intros Hpw p. unfold parent_in. rewrite (by_id_self pw Hpw). simpl. destruct (parent_id pw) as [q|]; [|by split; [|intros []]]. simpl.
  destruct (by_id ws !! q) as [y|] eqn:Hq; simpl.
  - apply by_id_Some in Hq as [Hy <-]. split; [intros [= <-]; split; [done|by apply list_elem_of_fmap_2]|by intros [[= <-] _]].
  - split; [done|]. intros [[= ->] (y & -> & Hy)%list_elem_of_fmap]. by rewrite by_id_self in Hq.
Qed.

Lemma grounded_placed out deg pw : placing (pw_entity_id <$> out) [] deg -> grounded pw -> pw_entity_id pw ∈ pw_entity_id <$> out.
Proof.
  intros Hpl. pose proof (pl_ids _ _ _ Hpl) as Hids. setoid_rewrite app_nil_r in Hids.
  induction 1 as [pw Hpw Hroot|pw parent Hpw Hpar Hp Hg IH]; apply Hids; (split; [by apply list_elem_of_fmap_2|]); intros p; rewrite parent_in_self by done.
  - intros [Hp (y & -> & Hy)%list_elem_of_fmap]. by destruct (Hroot y Hy).
  - rewrite Hp. by intros [[= <-] _].
Qed.
End Graph.

Lemma by_id_sub ws id pw : by_id ws !! id = Some pw -> pw ∈ ws.
Proof.
  unfold by_id. induction ws as [|x l IH] using rev_ind; [simpl; by rewrite lookup_empty|]. rewrite fold_left_app, elem_of_app, list_elem_of_singleton. simpl.
  rewrite lookup_insert_Some. intros [[_ <-]|[_ Hin]]; auto.
Qed.

Lemma kahn_sub fuel nodes children queue deg ordered pw : pw ∈ kahn fuel nodes children queue deg ordered -> pw ∈ ordered \/ exists id, nodes !! id = Some pw.
Proof.
  revert queue deg ordered. induction fuel as [|fuel IH]; intros queue deg ordered; [by left|]. destruct queue as [|eid queue]; [by left|]. cbn [kahn].
  destruct (fold_left release _ _) as [queue' deg']. intros [Hin|?]%IH; [|by right]. apply elem_of_app in Hin as [?|Hin]; [by left|].
  destruct (nodes !! eid) as [x|] eqn:Hx; simpl in Hin; [|by apply elem_of_nil in Hin]. apply list_elem_of_singleton in Hin as ->. right. by exists eid.
Qed.

(** Nothing is flushed that was not pending. *)
Lemma toposort_sub pending pw : pw ∈ toposort_pending pending -> pw ∈ pending.
Proof.
  assert (Hf : forall f (l : list PendingWrite), pw ∈ List.filter f l -> pw ∈ l) by (intros f l; rewrite !list_elem_of_In, List.filter_In; by intros [? _]).
  unfold toposort_pending. destruct (List.filter has_parent_key pending) as [|w0 ws0] eqn:Hws; [apply Hf|]. rewrite <- Hws. clear w0 ws0 Hws.
  destruct (links _) as [deg children]. set (ordered := kahn _ _ _ _ _ _). rewrite !elem_of_app. intros [?|[Hin|Hin]]; [by apply (Hf (fun pw => negb (has_parent_key pw)))| |].
  - apply kahn_sub in Hin as [?%elem_of_nil|[id Hid]]; [done|]. apply by_id_sub in Hid. by apply (Hf has_parent_key).
  - destruct (_ <? _)%nat; [|by apply elem_of_nil in Hin]. apply Hf in Hin. by apply (Hf has_parent_key).
Qed.

(** The sort: what is placed, with the rest after it. *)
Lemma toposort_shape pending : let ws := List.filter has_parent_key pending in NoDup (pw_entity_id <$> ws) ->
  exists no_deps out rest deg, toposort_pending pending = no_deps ++ out ++ rest /\ no_deps ++ out ++ rest ≡ₚ pending
    /\ (forall pw, pw ∈ out -> pw ∈ ws) /\ placing ws (pw_entity_id <$> out) [] deg.
Proof.
  intros ws Hnd. unfold toposort_pending. fold ws.
  assert (Hparts : pending ≡ₚ List.filter (fun pw => negb (has_parent_key pw)) pending ++ ws).
  { unfold ws. clear. induction pending as [|pw l IH]; [done|]. simpl. destruct (has_parent_key pw); simpl; [by rewrite <- Permutation_middle, <- IH|by rewrite <- IH]. }
  destruct (decide (ws = [])) as [Hnil|Hne].
  { rewrite Hnil in *. exists (List.filter (fun pw => negb (has_parent_key pw)) pending), [], [], ∅. rewrite !app_nil_r in *.
    split_and!; [done|done|done|]. constructor; simpl; [apply base.NoDup_nil_2|by intros x; split; [intros ?%elem_of_nil|intros [?%elem_of_nil _]]|by intros x ?%elem_of_nil|by intros []]. }
  assert (Hcase : forall (A : Type) (a b : A), match ws with [] => a | _ => b end = b) by (intros A a b; by destruct ws).
  rewrite Hcase, (dict_keys_distinct (pw_entity_id <$> ws) []) by done. simpl app.
  destruct (links ws) as [in_degree children] eqn:Hlinks.
  pose proof (placing_start ws Hnd) as Hstart. rewrite Hlinks in Hstart. simpl in Hstart.
  pose proof (kahn_places ws Hnd (length ws) _ in_degree [] (Nat.add_0_r _) Hstart (fun pw H => match proj1 (elem_of_nil pw) H with end)) as Hout.
  rewrite Hlinks in Hout. simpl in Hout. unfold ids in Hout. set (out := kahn _ _ _ _ _ _) in *. destruct Hout as [Hsub [deg Hpl]].
  pose proof (pl_once _ _ _ _ Hpl) as Hdone. rewrite app_nil_r in Hdone. pose proof (distinct_split ws Hnd out Hdone Hsub) as Hsplit.
  set (rest := if (length out <? length ws)%nat then _ else _).
  assert (Hrest : ws ≡ₚ out ++ rest).
  { unfold rest. destruct (Nat.ltb_spec (length out) (length ws)) as [|Hlen]; [done|]. rewrite Hsplit at 1. f_equiv.
    assert (length (List.filter (fun pw => negb (bool_decide (pw_entity_id pw ∈ pw_entity_id <$> out))) ws) = 0%nat) as H0
      by (apply Permutation_length in Hsplit; rewrite length_app in Hsplit; lia). by destruct (List.filter _ ws). }
  eexists _, out, rest, deg. split_and!; [done|by rewrite <- Hrest, <- Hparts|done|done].
Qed.

Lemma parents_are_sorted pending : NoDup (pw_entity_id <$> List.filter has_parent_key pending) -> toposort_pending pending ≡ₚ pending.
Proof. intros Hnd. by destruct (toposort_shape pending Hnd) as (no_deps & out & rest & deg & -> & Hp & _). Qed.

(** The writes of a flush are a permutation of the pending ones, so none is dropped and none written twice, and a write whose chain
    of parents is not a cycle comes after its parent. *)
Theorem parents_are_flushed_first pending : let ws := List.filter has_parent_key pending in NoDup (pw_entity_id <$> ws) ->
  toposort_pending pending ≡ₚ pending
  /\ forall pw parent, parent ∈ ws -> parent_id pw = Some (pw_entity_id parent) -> grounded ws pw ->
     exists before between after, toposort_pending pending = before ++ parent :: between ++ pw :: after.
Proof.
  intros ws Hnd. destruct (toposort_shape pending Hnd) as (no_deps & out & rest & deg & -> & Hperm & Hsub & Hpl). split; [done|].
  intros pw parent Hpar Hp Hg. pose proof (grounded_placed ws Hnd out deg pw Hpl Hg) as (x & Hx & Hin)%list_elem_of_fmap.
  assert (Hpw : pw ∈ ws) by by destruct Hg. assert (x = pw) as -> by (symmetry; apply (distinct_eq ws Hnd); auto).
  apply list_elem_of_split in Hin as (l1 & l2 & Hl).
  assert (Hpin : parent_in ws (pw_entity_id pw) = Some (pw_entity_id parent)) by (apply parent_in_self; [done|done|]; split; [done|by apply list_elem_of_fmap_2]).
  pose proof (pl_order _ _ _ _ Hpl (pw_entity_id <$> l1) (pw_entity_id pw) (pw_entity_id <$> l2) (pw_entity_id parent)) as Hord.
  rewrite app_nil_r, Hl, fmap_app in Hord. specialize (Hord eq_refl Hpin). apply list_elem_of_fmap in Hord as (y & Hy & Hyin).
  assert (y = parent) as -> by (symmetry; apply (distinct_eq ws Hnd); [done|apply Hsub; rewrite Hl, elem_of_app; by left|done]).
  apply list_elem_of_split in Hyin as (k1 & k2 & ->). rewrite Hl.
  exists (no_deps ++ k1), k2, (l2 ++ rest). rewrite <- !app_assoc. done.
Qed.
End Sort.
End Flush.

(** ** Runs *)

(** A row as its columns. *)
Definition columns : Type := list (string * string).
Definition column (row : columns) (name : string) : option string := snd <$> List.find (fun c => String.eqb c.1 name) row.

Definition a_write (table id : string) (row : columns) : PendingWrite := mkPendingWrite table id row 0.

(** Children before parents, a cycle of two, and a row of another table. *)
Definition thread : list PendingWrite :=
  [a_write "messages" "c" [("parent_message_id", "b")]; a_write "messages" "x" [("parent_message_id", "y")]; a_write "messages" "b" [("parent_message_id", "a")];
   a_write "messages" "a" []; a_write "messages" "y" [("parent_message_id", "x")]; a_write "conversations" "z" []]%string.

Definition thread_ws : list PendingWrite := List.filter (has_parent_key DEFAULT_PARENT_KEY_MAP) thread.

Lemma thread_grounded : grounded column DEFAULT_PARENT_KEY_MAP thread_ws (a_write "messages" "b" [("parent_message_id", "a")]%string).
Proof.
  apply (grounded_child column DEFAULT_PARENT_KEY_MAP thread_ws _ (a_write "messages" "a" [])).
  - apply list_elem_of_In. vm_compute. tauto.
  - apply list_elem_of_In. vm_compute. tauto.
  - reflexivity.
  - apply grounded_root; [apply list_elem_of_In; vm_compute; tauto|discriminate].
Qed.

Lemma parents_are_flushed_first_witness : (pw_entity_id <$> toposort_pending column DEFAULT_PARENT_KEY_MAP thread) = ["z"; "a"; "b"; "c"; "x"; "y"]%string
  /\ exists before between after, toposort_pending column DEFAULT_PARENT_KEY_MAP thread =
     before ++ a_write "messages" "a" [] :: between ++ a_write "messages" "b" [("parent_message_id", "a")]%string :: after.
Proof.
  split; [vm_compute; reflexivity|]. refine (proj2 (parents_are_flushed_first column DEFAULT_PARENT_KEY_MAP thread _) _ _ _ _ _).
  - apply (bool_decide_unpack _). vm_compute. exact I.
  - apply list_elem_of_In. vm_compute. tauto.
  - reflexivity.
  - exact thread_grounded.
Defined.

(** With two tables in the map, of two writes with one id only one is flushed: the sort keys its graph by the id alone. *)
Theorem shared_id_is_dropped :
  let keys : gmap string string := {[ "messages"%string := "parent_message_id"%string; "message_stats"%string := "parent_message_id"%string ]} in
  let pending := [a_write "messages" "a" []; a_write "message_stats" "a" []] in
  toposort_pending column keys pending = [a_write "message_stats" "a" []].
Proof. vm_compute. reflexivity. Qed.
