(* ===== verification/WriteBuffer.v ===== *)
(** * Write buffer and flush

    [WriteBuffer] and [flush_pending] of [src/packages/core/src/threetears/core/collections/flush.py], and
    [PeriodicFlusher] of [coordination/flusher.py]: writes waiting for the durable tier, one per row, claimed
    by a flush, written, and removed once acknowledged. The buffer is the one without an L1 backend, as
    [coordination_collection] makes it; its dict is a list in insertion order.

    [bstep] interleaves the additions of any number of writers with one flush at a time, whose every await is a
    step: the transaction of the batch, each write of the per-row loop, each acknowledgement. A step may raise,
    and the flush may be cancelled, as [PeriodicTask.stop] does. *)

From Stdlib Require Import Ascii String Bool List NArith ZArith Lia.
From stdpp Require Import base list gmap strings relations.
From S2P Require Import Prelude CasMutate FlushOrder.

Open Scope Z_scope.

Section Buffer.
Context {D : Type}.

(** [l2_order_of] a row, and the text of a column of it. *)
Variable order_of : D -> option L2Order.
Variable data_get : D -> string -> option string.

Abbreviation PendingWrite := (@FlushOrder.PendingWrite D).
Definition bkey : Type := string * string.

(** [_key]. *)
Definition write_key (pw : PendingWrite) : bkey := (pw_table_name pw, pw_entity_id pw).

Record WriteBuffer := mkWriteBuffer { wb_buf : list PendingWrite; wb_in_flight : gset bkey }.

Definition buf_get (k : bkey) (buf : list PendingWrite) : option PendingWrite := List.find (fun pw => bool_decide (write_key pw = k)) buf.

(** A dict's assignment: in place, or at the end. *)
Fixpoint buf_set (pw : PendingWrite) (buf : list PendingWrite) : list PendingWrite :=
  match buf with
  | [] => [pw]
  | x :: buf => if bool_decide (write_key x = write_key pw) then pw :: buf else x :: buf_set pw buf
  end.

Definition buf_pop (k : bkey) (buf : list PendingWrite) : list PendingWrite := List.filter (fun pw => negb (bool_decide (write_key pw = k))) buf.

(** [_orders_after]. *)
Definition orders_after (pending incoming : D) : bool :=
  match order_of pending, order_of incoming with Some p, Some i => order_lt i p | _, _ => false end.

(** [_add_locked]. *)
Definition add_locked (b : WriteBuffer) (pw : PendingWrite) : WriteBuffer :=
  match buf_get (write_key pw) (wb_buf b) with
  | Some pending => if orders_after (pw_data pending) (pw_data pw) then b else mkWriteBuffer (buf_set pw (wb_buf b)) (wb_in_flight b ∖ {[write_key pw]})
  | None => mkWriteBuffer (buf_set pw (wb_buf b)) (wb_in_flight b ∖ {[write_key pw]})
  end.

Definition add (b : WriteBuffer) (table entity_id : string) (data : D) (retries : Z) : WriteBuffer := add_locked b (mkPendingWrite table entity_id data retries).

Definition drain (b : WriteBuffer) : list PendingWrite * WriteBuffer :=
  let claimed := List.filter (fun pw => negb (bool_decide (write_key pw ∈ wb_in_flight b))) (wb_buf b) in
  (claimed, mkWriteBuffer (wb_buf b) (wb_in_flight b ∪ list_to_set (write_key <$> claimed))).

Definition ack (b : WriteBuffer) (k : bkey) : WriteBuffer :=
  if bool_decide (k ∈ wb_in_flight b) then mkWriteBuffer (buf_pop k (wb_buf b)) (wb_in_flight b ∖ {[k]}) else b.

Definition re_enqueue (b : WriteBuffer) (pw : PendingWrite) (retries : Z) : bool * WriteBuffer :=
  if bool_decide (write_key pw ∈ wb_in_flight b) then (true, add_locked b (mkPendingWrite (pw_table_name pw) (pw_entity_id pw) (pw_data pw) retries)) else (false, b).

Definition remove (b : WriteBuffer) (k : bkey) : bool * WriteBuffer :=
  (isSome (buf_get k (wb_buf b)), mkWriteBuffer (buf_pop k (wb_buf b)) (wb_in_flight b ∖ {[k]})).

Definition pending_count (b : WriteBuffer) : nat := length (wb_buf b).

(** ** A flush *)

Definition MAX_FLUSH_RETRIES : Z := 10.
Definition FK_RETRY_LIMIT : Z := 100.
Definition retry_limit (fk_violation : bool) : Z := if fk_violation then FK_RETRY_LIMIT else MAX_FLUSH_RETRIES.

(** Whether a table has a collection, and whether those of a list of writes share a backend with transactions ([_resolve_batch_backend]). *)
Variable registered : string -> bool.
Variable batch_backend : list PendingWrite -> bool.

(** Where a flush is: about to run its transaction; acknowledging what it committed; before the next write of the per-row loop; about to
    acknowledge a write the loop is done with, or to put one back. *)
Inductive flushing :=
| FIdle
| FBatch (fresh already_failed : list PendingWrite)
| FAcking (todo already_failed : list PendingWrite)
| FEach (todo : list PendingWrite)
| FAck (pw : PendingWrite) (todo : list PendingWrite)
| FRetry (pw : PendingWrite) (todo : list PendingWrite).

(** [flush_pending] from its drain to its first await. *)
Definition begin_flush (pending : list PendingWrite) : flushing :=
  match pending with
  | [] => FIdle
  | _ =>
      let sorted_pending := toposort_pending data_get DEFAULT_PARENT_KEY_MAP pending in
      let fresh := List.filter (fun pw => pw_retries pw =? 0) sorted_pending in
      let already_failed := List.filter (fun pw => 0 <? pw_retries pw) sorted_pending in
      if (0 <? length fresh)%nat && batch_backend fresh then FBatch fresh already_failed else FEach (fresh ++ already_failed)
  end.

(** Rows affected by a write, where the durable tier says; [None] for an answer that is no count, which counts as landed. *)
Definition rows_affected : Type := option Z.

(** [_write_landed]. *)
Definition write_landed (rows : rows_affected) : bool := negb (bool_decide (rows = Some 0)).

(** Why a write left the buffer without reaching the durable tier: its table has no collection, its retries are spent, or the
    durable tier answered that it took no row for it. *)
Inductive dropped := NoCollection | RetriesSpent | NothingTaken.

(** The buffer; the flush; the writes the durable tier has taken a row for; the writes given up; and what each row's writers last wrote. *)
Record bworld := mkBWorld {
  bw_buffer : WriteBuffer;
  bw_flush : flushing;
  bw_written : list PendingWrite;
  bw_given_up : list (PendingWrite * dropped);
  bw_latest : gmap bkey D;
}.

(** The steps of the flush. *)
Inductive fstep (w : bworld) : bworld -> Prop :=
| fstep_begin claimed b' : bw_flush w = FIdle -> drain (bw_buffer w) = (claimed, b') ->
    fstep w (mkBWorld b' (begin_flush claimed) (bw_written w) (bw_given_up w) (bw_latest w))
| fstep_committed (rows : PendingWrite -> rows_affected) fresh already_failed : bw_flush w = FBatch fresh already_failed ->
    fstep w (mkBWorld (bw_buffer w) (FAcking fresh already_failed) (bw_written w ++ List.filter (fun pw => write_landed (rows pw)) fresh)
      (bw_given_up w ++ ((., NothingTaken) <$> List.filter (fun pw => negb (write_landed (rows pw))) fresh)) (bw_latest w))
| fstep_rolled_back fresh already_failed : bw_flush w = FBatch fresh already_failed ->
    fstep w (mkBWorld (bw_buffer w) (FEach (fresh ++ already_failed)) (bw_written w) (bw_given_up w) (bw_latest w))
| fstep_acks pw todo already_failed : bw_flush w = FAcking (pw :: todo) already_failed ->
    fstep w (mkBWorld (ack (bw_buffer w) (write_key pw)) (FAcking todo already_failed) (bw_written w) (bw_given_up w) (bw_latest w))
| fstep_acked already_failed : bw_flush w = FAcking [] already_failed ->
    fstep w (mkBWorld (bw_buffer w) (FEach already_failed) (bw_written w) (bw_given_up w) (bw_latest w))
| fstep_unregistered pw todo : bw_flush w = FEach (pw :: todo) -> registered (pw_table_name pw) = false ->
    fstep w (mkBWorld (bw_buffer w) (FAck pw todo) (bw_written w) (bw_given_up w ++ [(pw, NoCollection)]) (bw_latest w))
| fstep_wrote rows pw todo : bw_flush w = FEach (pw :: todo) -> registered (pw_table_name pw) = true -> write_landed rows = true ->
    fstep w (mkBWorld (bw_buffer w) (FAck pw todo) (bw_written w ++ [pw]) (bw_given_up w) (bw_latest w))
| fstep_declined rows pw todo : bw_flush w = FEach (pw :: todo) -> registered (pw_table_name pw) = true -> write_landed rows = false ->
    fstep w (mkBWorld (bw_buffer w) (FAck pw todo) (bw_written w) (bw_given_up w ++ [(pw, NothingTaken)]) (bw_latest w))
| fstep_raised fk pw todo : bw_flush w = FEach (pw :: todo) -> registered (pw_table_name pw) = true -> pw_retries pw + 1 < retry_limit fk ->
    fstep w (mkBWorld (bw_buffer w) (FRetry pw todo) (bw_written w) (bw_given_up w) (bw_latest w))
| fstep_gave_up fk pw todo : bw_flush w = FEach (pw :: todo) -> registered (pw_table_name pw) = true -> retry_limit fk <= pw_retries pw + 1 ->
    fstep w (mkBWorld (bw_buffer w) (FAck pw todo) (bw_written w) (bw_given_up w ++ [(pw, RetriesSpent)]) (bw_latest w))
| fstep_ack pw todo : bw_flush w = FAck pw todo ->
    fstep w (mkBWorld (ack (bw_buffer w) (write_key pw)) (FEach todo) (bw_written w) (bw_given_up w) (bw_latest w))
| fstep_retry pw todo : bw_flush w = FRetry pw todo ->
    fstep w (mkBWorld (re_enqueue (bw_buffer w) pw (pw_retries pw + 1)).2 (FEach todo) (bw_written w) (bw_given_up w) (bw_latest w))
| fstep_done : bw_flush w = FEach [] ->
    fstep w (mkBWorld (bw_buffer w) FIdle (bw_written w) (bw_given_up w) (bw_latest w))
| fstep_cancelled :
    fstep w (mkBWorld (bw_buffer w) FIdle (bw_written w) (bw_given_up w) (bw_latest w)).

(** A writer adds a row or takes one out, as a delete does, or the flush goes on. *)
Inductive bstep (w : bworld) : bworld -> Prop :=
| bstep_add table entity_id data : 
    let k := (table, entity_id) in
    let b' := add (bw_buffer w) table entity_id data 0 in
    let kept := match buf_get k (wb_buf (bw_buffer w)) with Some p => orders_after (pw_data p) data | None => false end in
    bstep w (mkBWorld b' (bw_flush w) (bw_written w) (bw_given_up w) (if kept then bw_latest w else <[k := data]> (bw_latest w)))
| bstep_remove k : bstep w (mkBWorld (remove (bw_buffer w) k).2 (bw_flush w) (bw_written w) (bw_given_up w) (delete k (bw_latest w)))
| bstep_flush w' : fstep w w' -> bstep w w'.

Definition bworld0 : bworld := mkBWorld (mkWriteBuffer [] ∅) FIdle [] [] ∅.

(** ** The buffer's entries *)

Lemma buf_get_Some k buf pw : buf_get k buf = Some pw -> pw ∈ buf /\ write_key pw = k.
Proof. unfold buf_get. intros [Hin Hk]%List.find_some. rewrite bool_decide_eq_true in Hk. by rewrite list_elem_of_In. Qed.

Lemma buf_get_in buf pw : NoDup (write_key <$> buf) -> pw ∈ buf -> buf_get (write_key pw) buf = Some pw.
Proof.
  induction buf as [|x buf IH]; [by intros _ ?%elem_of_nil|]. simpl. rewrite NoDup_cons, elem_of_cons. unfold buf_get in *. simpl. intros [Hx Hnd] [->|Hin].
  - by rewrite bool_decide_eq_true_2.
  - rewrite bool_decide_eq_false_2; [by apply IH|]. intros Heq. apply Hx. rewrite Heq. by apply list_elem_of_fmap_2.
Qed.

Lemma buf_get_set k pw buf : buf_get k (buf_set pw buf) = if bool_decide (write_key pw = k) then Some pw else buf_get k buf.
Proof.
  unfold buf_get. induction buf as [|x buf IH]; simpl; [done|]. destruct (decide (write_key x = write_key pw)) as [Heq|Hne].
  - rewrite (bool_decide_eq_true_2 _ Heq). simpl. rewrite Heq. by case_bool_decide.
  - rewrite (bool_decide_eq_false_2 _ Hne). simpl. rewrite IH. repeat case_bool_decide; congruence.
Qed.

Lemma buf_get_pop k k' buf : buf_get k' (buf_pop k buf) = if bool_decide (k = k') then None else buf_get k' buf.
Proof.
  unfold buf_get, buf_pop. induction buf as [|x buf IH]; simpl; [by case_bool_decide|].
  destruct (decide (write_key x = k)) as [Heq|Hne]; [rewrite (bool_decide_eq_true_2 _ Heq)|rewrite (bool_decide_eq_false_2 _ Hne)]; simpl; rewrite IH;
    repeat case_bool_decide; congruence.
Qed.

Lemma buf_set_keys pw buf x : x ∈ write_key <$> buf_set pw buf -> x = write_key pw \/ x ∈ write_key <$> buf.
Proof.
  induction buf as [|y buf IH]; simpl; [rewrite list_elem_of_singleton; by left|]. case_bool_decide as Hk; simpl; rewrite !elem_of_cons; [naive_solver|].
  intros [->|Hin]; [by right; left|]. destruct (IH Hin); auto.
Qed.

Lemma buf_set_NoDup pw buf : NoDup (write_key <$> buf) -> NoDup (write_key <$> buf_set pw buf).
Proof.
  induction buf as [|y buf IH]; simpl; [intros _; apply NoDup_singleton|]. rewrite NoDup_cons. intros [Hy Hnd]. case_bool_decide as Hk; simpl; apply NoDup_cons.
  - by rewrite <- Hk.
  - split; [|by apply IH]. intros [Heq|Hin]%buf_set_keys; [by rewrite Heq in Hk|done].
Qed.

Lemma buf_pop_NoDup k buf : NoDup (write_key <$> buf) -> NoDup (write_key <$> buf_pop k buf).
Proof.
  unfold buf_pop. induction buf as [|y buf IH]; simpl; [done|]. rewrite NoDup_cons. intros [Hy Hnd]. destruct (negb _); simpl; [|by apply IH].
  apply NoDup_cons. split; [|by apply IH]. intros (z & Heq & Hz)%list_elem_of_fmap. apply Hy. rewrite Heq. apply list_elem_of_fmap_2.
  rewrite list_elem_of_In, List.filter_In in Hz. rewrite list_elem_of_In. apply Hz.
Qed.

Lemma orders_after_irrefl d : orders_after d d = false.
Proof.
  unfold orders_after. destruct (order_of d) as [o|]; [|done]. apply order_lt_false. right. lia.
Qed.

(** ** Nothing is lost *)

(** The writes a flush still has in hand, and those it has only to acknowledge. *)
Definition in_hand (f : flushing) : list PendingWrite :=
  match f with
  | FIdle => []
  | FBatch fresh already_failed => fresh ++ already_failed
  | FAcking todo already_failed => todo ++ already_failed
  | FEach todo => todo
  | FAck pw todo | FRetry pw todo => pw :: todo
  end.

Definition answered (f : flushing) : list PendingWrite := match f with FAcking todo _ => todo | FAck pw _ => [pw] | _ => [] end.

Definition accounts_for (pw : PendingWrite) (why : dropped) : Prop :=
  match why with
  | NoCollection => registered (pw_table_name pw) = false
  | RetriesSpent => registered (pw_table_name pw) = true /\ exists fk, retry_limit fk <= pw_retries pw + 1
  | NothingTaken => True
  end.

Record bsound (w : bworld) : Prop := mkBSound {
  bs_keys : NoDup (write_key <$> wb_buf (bw_buffer w));
  bs_newest : forall k pw, buf_get k (wb_buf (bw_buffer w)) = Some pw -> bw_latest w !! k = Some (pw_data pw);
  bs_kept : forall k d, bw_latest w !! k = Some d -> (exists pw, buf_get k (wb_buf (bw_buffer w)) = Some pw /\ pw_data pw = d)
    \/ exists pw, pw ∈ bw_written w ++ (bw_given_up w).*1 /\ write_key pw = k /\ pw_data pw = d;
  bs_claims : forall pw, pw ∈ in_hand (bw_flush w) -> write_key pw ∈ wb_in_flight (bw_buffer w) ->
    exists x, buf_get (write_key pw) (wb_buf (bw_buffer w)) = Some x /\ pw_data x = pw_data pw;
  bs_answered : forall pw, pw ∈ answered (bw_flush w) -> pw ∈ bw_written w ++ (bw_given_up w).*1;
  bs_given_up : forall pw why, (pw, why) ∈ bw_given_up w -> accounts_for pw why;
  bs_retries : forall pw, pw ∈ wb_buf (bw_buffer w) \/ pw ∈ in_hand (bw_flush w) -> 0 <= pw_retries pw;
}.

Lemma ack_get b k k' : buf_get k' (wb_buf (ack b k)) = if bool_decide (k ∈ wb_in_flight b) then if bool_decide (k = k') then None else buf_get k' (wb_buf b) else buf_get k' (wb_buf b).
Proof. unfold ack. case_bool_decide; [|done]. apply buf_get_pop. Qed.

Lemma ack_in b k pw : pw ∈ wb_buf (ack b k) -> pw ∈ wb_buf b.
Proof. unfold ack. case_bool_decide; [|done]. simpl. unfold buf_pop. rewrite !list_elem_of_In, List.filter_In. by intros [? _]. Qed.

Lemma buf_set_in pw buf x : x ∈ buf_set pw buf -> x = pw \/ x ∈ buf.
Proof.
  induction buf as [|y buf IH]; simpl; [rewrite list_elem_of_singleton; by left|]. case_bool_decide; rewrite !elem_of_cons; [naive_solver|].
  intros [->|Hin]; [by right; left|]. destruct (IH Hin); auto.
Qed.

(** A step of the flush alone. *)
Lemma bsound_moves w f written given_up : bsound w -> (forall pw, pw ∈ in_hand f -> pw ∈ in_hand (bw_flush w)) ->
  (forall pw, pw ∈ bw_written w ++ (bw_given_up w).*1 -> pw ∈ written ++ given_up.*1) -> (forall pw, pw ∈ answered f -> pw ∈ written ++ given_up.*1) ->
  (forall pw why, (pw, why) ∈ given_up -> (pw, why) ∈ bw_given_up w \/ accounts_for pw why) ->
  bsound (mkBWorld (bw_buffer w) f written given_up (bw_latest w)).
Proof.
  intros Hs Hhand Hmore Hans Hgive. constructor; simpl; [apply Hs|apply Hs| |intros pw Hpw; by apply Hs, Hhand|done| |].
  - intros k d Hk. destruct (bs_kept w Hs k d Hk) as [?|(pw & Hin & ?)]; [by left|right; exists pw; auto].
  - intros pw why Hin. destruct (Hgive pw why Hin); [by apply Hs|done].
  - intros pw [Hin|Hin]; apply (bs_retries w Hs); auto.
Qed.

(** An acknowledgement of a write the flush is done with. *)
Lemma bsound_ack w f pw : bsound w -> pw ∈ answered (bw_flush w) -> pw ∈ in_hand (bw_flush w) -> (forall x, x ∈ in_hand f -> x ∈ in_hand (bw_flush w)) ->
  (forall x, x ∈ answered f -> x ∈ answered (bw_flush w)) ->
  bsound (mkBWorld (ack (bw_buffer w) (write_key pw)) f (bw_written w) (bw_given_up w) (bw_latest w)).
Proof.
  intros Hs Hans Hpw Hhand Hrest. constructor; simpl.
  - unfold ack. case_bool_decide; [|apply Hs]. simpl. apply buf_pop_NoDup, Hs.
  - intros k x. rewrite ack_get. repeat case_bool_decide; try done; apply Hs.
  - intros k d Hk. rewrite ack_get. case_bool_decide as Hfl; [|by apply Hs]. case_bool_decide as Heq; [|by apply Hs]. right. subst k.
    destruct (bs_claims w Hs pw Hpw Hfl) as (x & Hx & Hd). rewrite (bs_newest w Hs _ x Hx) in Hk. injection Hk as <-.
    exists pw. split_and!; [by apply (bs_answered w Hs)|done|done].
  - intros x Hx Hfl. rewrite ack_get. unfold ack in Hfl. case_bool_decide as Hpfl; simpl in Hfl; [|by apply Hs; [apply Hhand|]].
    apply elem_of_difference in Hfl as [Hfl Hne]. rewrite elem_of_singleton in Hne. rewrite bool_decide_eq_false_2 by congruence. apply Hs; auto.
  - intros x Hx. by apply Hs, Hrest.
  - apply Hs.
  - intros x [Hx|Hx]; [apply (bs_retries w Hs); left; by apply (ack_in _ (write_key pw))|apply (bs_retries w Hs); auto].
Qed.

(** A write put in the buffer: as the newest of its row, or with the data its row has already. *)
Lemma bsound_set w f pw latest' : bsound w -> 0 <= pw_retries pw -> latest' = <[write_key pw := pw_data pw]> (bw_latest w) ->
  (forall x, x ∈ in_hand f -> x ∈ in_hand (bw_flush w)) -> (forall x, x ∈ answered f -> x ∈ answered (bw_flush w)) ->
  bsound (mkBWorld (mkWriteBuffer (buf_set pw (wb_buf (bw_buffer w))) (wb_in_flight (bw_buffer w) ∖ {[write_key pw]})) f (bw_written w) (bw_given_up w) latest').
Proof.
  intros Hs Hret -> Hhand Hrest. constructor; simpl.
  - apply buf_set_NoDup, Hs.
  - intros k x. rewrite buf_get_set. case_bool_decide as Hk; [intros [= <-]; rewrite Hk; by rewrite lookup_insert_eq|]. rewrite lookup_insert_ne by done. apply Hs.
  - intros k d. rewrite buf_get_set. case_bool_decide as Hk; [rewrite Hk, lookup_insert_eq; intros [= <-]; left; by exists pw|].
    rewrite lookup_insert_ne by done. apply Hs.
  - intros x Hx [Hfl Hne]%elem_of_difference. rewrite elem_of_singleton in Hne. rewrite buf_get_set, bool_decide_eq_false_2 by congruence. apply Hs; auto.
  - intros x Hx. by apply Hs, Hrest.
  - apply Hs.
  - intros x [[->|Hx]%buf_set_in|Hx]; [done|apply (bs_retries w Hs); auto..].
Qed.

Lemma in_hand_begin pending pw : pw ∈ in_hand (begin_flush pending) -> pw ∈ pending.
Proof.
  assert (Hf : forall f (l : list PendingWrite), pw ∈ List.filter f l -> pw ∈ l) by (intros f l; rewrite !list_elem_of_In, List.filter_In; by intros [? _]).
  unfold begin_flush. destruct pending as [|p0 ps] eqn:Hps; [done|]. rewrite <- Hps. intros Hin.
  apply (toposort_sub data_get DEFAULT_PARENT_KEY_MAP). destruct (_ && _); simpl in Hin; apply elem_of_app in Hin as [Hin|Hin]; by apply Hf in Hin.
Qed.

Lemma answered_begin pending : answered (begin_flush pending) = [].
Proof. unfold begin_flush. destruct pending; [done|]. by destruct (_ && _). Qed.

Lemma drain_claims b claimed b' pw : drain b = (claimed, b') -> pw ∈ claimed -> pw ∈ wb_buf b.
Proof. unfold drain. intros [= <- _]. rewrite !list_elem_of_In, List.filter_In. by intros [? _]. Qed.

(** A row taken out by a delete. *)
Lemma bsound_remove w k : bsound w -> bsound (mkBWorld (remove (bw_buffer w) k).2 (bw_flush w) (bw_written w) (bw_given_up w) (delete k (bw_latest w))).
Proof.
  intros Hs. constructor; simpl; [apply buf_pop_NoDup, Hs|..|apply Hs|apply Hs|].
  - intros k' pw. rewrite buf_get_pop. case_bool_decide as Hk; [done|]. rewrite lookup_delete_ne by done. apply Hs.
  - intros k' d. rewrite buf_get_pop. case_bool_decide as Hk; [by rewrite Hk, lookup_delete_eq|]. rewrite lookup_delete_ne by done. apply Hs.
  - intros pw Hin [Hfl Hne]%elem_of_difference. rewrite elem_of_singleton in Hne. rewrite buf_get_pop, bool_decide_eq_false_2 by congruence. by apply Hs.
  - intros pw [Hin|Hin]; apply (bs_retries w Hs); [left|by right]. unfold buf_pop in Hin. rewrite list_elem_of_In, List.filter_In in Hin. apply list_elem_of_In, Hin.
Qed.

(** Every write of a batch is answered: taken, or declined. *)
Lemma answers_split (landed : PendingWrite -> bool) written given_up (fresh : list PendingWrite) pw : pw ∈ fresh ->
  pw ∈ (written ++ List.filter landed fresh) ++ (given_up ++ ((., NothingTaken) <$> List.filter (fun x => negb (landed x)) fresh)).*1.
Proof.
  intros Hin. rewrite fmap_app, !elem_of_app, <- list_fmap_compose. destruct (landed pw) eqn:Hl.
  - left. right. rewrite list_elem_of_In, List.filter_In, <- list_elem_of_In. done.
  - right. right. apply list_elem_of_fmap. exists pw. rewrite list_elem_of_In, List.filter_In, <- list_elem_of_In, Hl. done.
Qed.

Lemma given_up_one (given_up : list (PendingWrite * dropped)) pw why : accounts_for pw why ->
  forall x w, (x, w) ∈ given_up ++ [(pw, why)] -> (x, w) ∈ given_up \/ accounts_for x w.
Proof. intros Hacc x w [Hx|[= -> ->]%list_elem_of_singleton]%elem_of_app; [by left|by right]. Qed.

Lemma bsound_step w w' : bsound w -> bstep w w' -> bsound w'.
Proof.
  intros Hs Hstep. destruct Hstep as [table entity_id data k b' kept|k|w' Hstep]; [|by apply bsound_remove|destruct Hstep as [claimed b' Hf Hd|rows fresh failed Hf|fresh failed Hf|pw todo failed Hf|failed Hf|pw todo Hf Hr|rows pw todo Hf Hr Hl|rows pw todo Hf Hr Hl|fk pw todo Hf Hr Hlt|fk pw todo Hf Hr Hlt|pw todo Hf|pw todo Hf|Hf|]].
  - unfold b', kept, add, add_locked. fold k. set (pw := mkPendingWrite table entity_id data 0). change (write_key pw) with k.
    change (pw_data pw) with data. destruct (buf_get k _) as [p|]; [destruct (orders_after (pw_data p) data)|]; [by destruct w| |]; by apply (bsound_set w (bw_flush w) pw).
  - pose proof (fun pw => drain_claims _ _ _ pw Hd) as Hcl. assert (wb_buf b' = wb_buf (bw_buffer w)) as Hbuf by (unfold drain in Hd; by injection Hd as _ <-).
    constructor; simpl; rewrite ?Hbuf; [apply Hs|apply Hs|apply Hs| |intros pw; rewrite answered_begin; by intros ?%elem_of_nil|apply Hs|].
    + intros pw Hin%in_hand_begin _. exists pw. split; [|done]. apply buf_get_in; [apply Hs|by apply Hcl].
    + intros pw [Hin|Hin%in_hand_begin]; apply (bs_retries w Hs); left; [done|by apply Hcl].
  - apply bsound_moves; [done|by rewrite Hf|rewrite fmap_app; set_solver|intros pw Hin; by apply answers_split|].
    intros x why [Hx|(y & [= -> ->] & _)%list_elem_of_fmap]%elem_of_app; [by left|by right].
  - apply bsound_moves; [done|by rewrite Hf|done|set_solver|by left].
  - apply bsound_ack; [done|rewrite Hf; by left|rewrite Hf; by left|rewrite Hf; simpl; set_solver|rewrite Hf; simpl; set_solver].
  - apply bsound_moves; [done|by rewrite Hf|done|set_solver|by left].
  - apply bsound_moves; [done|by rewrite Hf|rewrite fmap_app; set_solver|rewrite fmap_app; simpl; set_solver|by apply given_up_one].
  - apply bsound_moves; [done|by rewrite Hf|set_solver|simpl; set_solver|by left].
  - apply bsound_moves; [done|by rewrite Hf|rewrite fmap_app; set_solver|rewrite fmap_app; simpl; set_solver|by apply given_up_one].
  - apply bsound_moves; [done|by rewrite Hf|done|set_solver|by left].
  - apply bsound_moves; [done|by rewrite Hf|rewrite fmap_app; set_solver|rewrite fmap_app; simpl; set_solver|apply given_up_one; split; [done|by exists fk]].
  - apply bsound_ack; [done|rewrite Hf; by left|rewrite Hf; by left|rewrite Hf; simpl; set_solver|simpl; set_solver].
  - unfold re_enqueue. case_bool_decide as Hfl; simpl; [|apply bsound_moves; [done|rewrite Hf; simpl; set_solver|done|set_solver|by left]].
    assert (Hin : pw ∈ in_hand (bw_flush w)) by (rewrite Hf; by left). destruct (bs_claims w Hs pw Hin Hfl) as (x & Hx & Hd).
    unfold add_locked. set (pw' := mkPendingWrite _ _ _ _). change (write_key pw') with (write_key pw). rewrite Hx. change (pw_data pw') with (pw_data pw).
    rewrite Hd, orders_after_irrefl. refine (bsound_set w (FEach todo) pw' _ Hs _ _ _ _); [simpl; pose proof (bs_retries w Hs pw (or_intror Hin)); lia| |rewrite Hf; simpl; set_solver|simpl; set_solver].
    symmetry. apply insert_id. pose proof (bs_newest w Hs _ x Hx) as Hn. rewrite Hd in Hn. exact Hn.
  - apply bsound_moves; [done|simpl; set_solver|done|simpl; set_solver|by left].
  - apply bsound_moves; [done|simpl; set_solver|done|simpl; set_solver|by left].
Qed.

Lemma bsound_reachable w : rtc bstep bworld0 w -> bsound w.
Proof.
  assert (H0 : bsound bworld0) by (constructor; simpl; try done; try apply base.NoDup_nil_2; set_solver).
  revert H0. generalize bworld0. intros w0 H0 Hsteps. induction Hsteps as [|w0 w1 w2 Hstep _ IH]; [done|]. by apply IH, (bsound_step w0).
Qed.

(** (C17) A buffered write is accounted for: whatever writers, deletes and the flush interleave and wherever the flush raises or is cancelled,
    what the writers of a row last wrote is still in the buffer, or the durable tier took a row for it, or it was dropped: because the table has no
    collection, or the write has failed as often as its retry budget allows, or the durable tier answered that it took no row. An
    acknowledgement or a retry of an older write never takes a newer one with it. *)
Theorem buffered_writes_are_kept w k d : rtc bstep bworld0 w -> bw_latest w !! k = Some d ->
  (exists pw, buf_get k (wb_buf (bw_buffer w)) = Some pw /\ pw_data pw = d)
  \/ (exists pw, pw ∈ bw_written w /\ write_key pw = k /\ pw_data pw = d)
  \/ exists pw why, (pw, why) ∈ bw_given_up w /\ write_key pw = k /\ pw_data pw = d
     /\ match why with
        | NoCollection => registered (pw_table_name pw) = false
        | RetriesSpent => registered (pw_table_name pw) = true /\ exists fk, retry_limit fk <= pw_retries pw + 1
        | NothingTaken => True
        end.
Proof.
  intros Hs%bsound_reachable Hk. destruct (bs_kept w Hs k d Hk) as [Hb|(pw & Hin & Hkey & Hd)]; [by left|right].
  apply elem_of_app in Hin as [Hin|((x & why) & -> & Hin)%list_elem_of_fmap]; [left; by exists pw|right]. exists x, why. split_and!; [done|done|done|].
  exact (bs_given_up w Hs x why Hin).
Qed.

(** ** A flush that is left alone *)

(** The next step when nothing raises, the durable tier takes each row, and nobody writes. *)
Definition quiet (w : bworld) : bworld :=
  let go b f written := mkBWorld b f written (bw_given_up w) (bw_latest w) in
  match bw_flush w with
  | FIdle => w
  | FBatch fresh already_failed => go (bw_buffer w) (FAcking fresh already_failed) (bw_written w ++ fresh)
  | FAcking (pw :: todo) already_failed => go (ack (bw_buffer w) (write_key pw)) (FAcking todo already_failed) (bw_written w)
  | FAcking [] already_failed => go (bw_buffer w) (FEach already_failed) (bw_written w)
  | FEach (pw :: todo) =>
      if registered (pw_table_name pw) then go (bw_buffer w) (FAck pw todo) (bw_written w ++ [pw])
      else mkBWorld (bw_buffer w) (FAck pw todo) (bw_written w) (bw_given_up w ++ [(pw, NoCollection)]) (bw_latest w)
  | FEach [] => go (bw_buffer w) FIdle (bw_written w)
  | FAck pw todo => go (ack (bw_buffer w) (write_key pw)) (FEach todo) (bw_written w)
  | FRetry pw todo => go (re_enqueue (bw_buffer w) pw (pw_retries pw + 1)).2 (FEach todo) (bw_written w)
  end.

Definition begun (w : bworld) : bworld :=
  mkBWorld (drain (bw_buffer w)).2 (begin_flush (drain (bw_buffer w)).1) (bw_written w) (bw_given_up w) (bw_latest w).

Lemma filter_all {A} (l : list A) : List.filter (fun _ => true) l = l.
Proof. induction l as [|x l IH]; [done|]. simpl. by rewrite IH. Qed.

Lemma filter_none {A} (l : list A) : List.filter (fun _ => false) l = [].
Proof. by induction l. Qed.

Lemma quiet_steps n w : rtc bstep w (Nat.iter n quiet w).
Proof.
  induction n as [|n IH]; [done|]. etrans; [exact IH|]. simpl. generalize (Nat.iter n quiet w). intros v. unfold quiet.
  destruct (bw_flush v) as [|fresh failed|[|pw todo] failed|[|pw todo]|pw todo|pw todo] eqn:Hf; [done|apply rtc_once, bstep_flush..].
  - pose proof (fstep_committed v (fun _ => Some 1) fresh failed Hf) as Hstep.
    change (List.filter (fun pw => write_landed (Some 1)) fresh) with (List.filter (fun _ : PendingWrite => true) fresh) in Hstep.
    change (List.filter (fun pw => negb (write_landed (Some 1))) fresh) with (List.filter (fun _ : PendingWrite => false) fresh) in Hstep.
    by rewrite filter_all, filter_none, app_nil_r in Hstep.
  - by apply fstep_acked.
  - by apply fstep_acks.
  - by apply fstep_done.
  - destruct (registered (pw_table_name pw)) eqn:Hr; [by apply (fstep_wrote _ (Some 1))|by apply fstep_unregistered].
  - by apply fstep_ack.
  - by apply fstep_retry.
Qed.

Lemma iter_steps {A} (f : A -> A) n m x : Nat.iter (n + m) f x = Nat.iter n f (Nat.iter m f x).
Proof. induction n as [|n IH]; [done|]. simpl. by rewrite IH. Qed.

Definition acks (b : WriteBuffer) (l : list PendingWrite) : WriteBuffer := fold_left (fun b pw => ack b (write_key pw)) l b.

Lemma each_runs todo b written given_up latest : (forall pw, pw ∈ todo -> registered (pw_table_name pw) = true) ->
  Nat.iter (S (2 * length todo)) quiet (mkBWorld b (FEach todo) written given_up latest) = mkBWorld (acks b todo) FIdle (written ++ todo) given_up latest.
Proof.
  revert b written. induction todo as [|pw todo IH]; intros b written Hreg; [simpl; unfold quiet; simpl; by rewrite app_nil_r|].
  replace (S (2 * length (pw :: todo)))%nat with (S (2 * length todo) + 2)%nat by (simpl; lia). rewrite iter_steps.
  assert (Nat.iter 2 quiet (mkBWorld b (FEach (pw :: todo)) written given_up latest) = mkBWorld (ack b (write_key pw)) (FEach todo) (written ++ [pw]) given_up latest) as ->
    by (simpl; unfold quiet at 2; simpl; rewrite (Hreg pw) by (by left); reflexivity).
  rewrite (IH (ack b (write_key pw)) (written ++ [pw])) by (intros x Hx; apply Hreg; by right). by rewrite <- app_assoc.
Qed.

Lemma acking_runs todo failed b written given_up latest :
  Nat.iter (S (length todo)) quiet (mkBWorld b (FAcking todo failed) written given_up latest) = mkBWorld (acks b todo) (FEach failed) written given_up latest.
Proof.
  revert b. induction todo as [|pw todo IH]; intros b; [done|]. replace (S (length (pw :: todo)))%nat with (S (length todo) + 1)%nat by (simpl; lia).
  rewrite iter_steps.
  change (Nat.iter 1 quiet (mkBWorld b (FAcking (pw :: todo) failed) written given_up latest)) with (mkBWorld (ack b (write_key pw)) (FAcking todo failed) written given_up latest).
  by rewrite IH.
Qed.

Lemma acks_spec l b : NoDup (write_key <$> l) -> (forall pw, pw ∈ l -> write_key pw ∈ wb_in_flight b) ->
  (forall x, x ∈ wb_buf (acks b l) <-> x ∈ wb_buf b /\ write_key x ∉ write_key <$> l) /\ wb_in_flight (acks b l) = wb_in_flight b ∖ list_to_set (write_key <$> l).
Proof.
  revert b. induction l as [|pw l IH]; intros b Hnd Hfl; simpl; [split; [set_solver|by rewrite difference_empty_L]|].
  simpl in Hnd. apply NoDup_cons in Hnd as [Hpw Hnd].
  assert (Hack : ack b (write_key pw) = mkWriteBuffer (buf_pop (write_key pw) (wb_buf b)) (wb_in_flight b ∖ {[write_key pw]})).
  { unfold ack. rewrite bool_decide_eq_true_2; [done|]. apply Hfl. by left. }
  unfold acks in *. simpl. rewrite Hack. destruct (IH (mkWriteBuffer (buf_pop (write_key pw) (wb_buf b)) (wb_in_flight b ∖ {[write_key pw]})) Hnd) as [Hbuf Hin].
  { intros x Hx. simpl. apply elem_of_difference. split; [apply Hfl; by right|]. rewrite elem_of_singleton. intros Heq. apply Hpw. rewrite <- Heq. by apply list_elem_of_fmap_2. }
  split; [|rewrite Hin; simpl; set_solver]. intros x. rewrite Hbuf. simpl. unfold buf_pop.
  rewrite list_elem_of_In, List.filter_In, <- list_elem_of_In, negb_true_iff, bool_decide_eq_false, not_elem_of_cons. tauto.
Qed.

Lemma partition_retries (l : list PendingWrite) : (forall pw, pw ∈ l -> 0 <= pw_retries pw) ->
  List.filter (fun pw => pw_retries pw =? 0) l ++ List.filter (fun pw => 0 <? pw_retries pw) l ≡ₚ l.
Proof.
  induction l as [|pw l IH]; intros Hret; [done|]. simpl. assert (Hpw : 0 <= pw_retries pw) by (apply Hret; by left).
  specialize (IH (fun x Hx => Hret x (list_elem_of_further _ _ _ Hx))).
  destruct (Z.eqb_spec (pw_retries pw) 0) as [->|Hne]; simpl; [by rewrite IH|].
  rewrite (proj2 (Z.ltb_lt 0 (pw_retries pw))) by lia. by rewrite <- Permutation_middle, IH.
Qed.

(** A flush from its drain on, left alone: what it claims is written and acknowledged. *)
Lemma flush_runs w pending : (forall pw, pw ∈ pending -> registered (pw_table_name pw) = true) -> (forall pw, pw ∈ pending -> 0 <= pw_retries pw) ->
  bw_flush w = begin_flush pending -> toposort_pending data_get DEFAULT_PARENT_KEY_MAP pending ≡ₚ pending ->
  exists n l, l ≡ₚ pending /\ Nat.iter n quiet w = mkBWorld (acks (bw_buffer w) l) FIdle (bw_written w ++ l) (bw_given_up w) (bw_latest w).
Proof.
  intros Hreg Hret Hf Hperm. destruct w as [b f written given_up latest]. simpl in *. subst f. unfold begin_flush.
  destruct pending as [|p0 ps] eqn:Hp; [exists 0%nat, []; split; [done|]; simpl; by rewrite app_nil_r|]. rewrite <- Hp in *. clear p0 ps Hp.
  set (sorted := toposort_pending _ _ _) in *. set (fresh := List.filter (fun pw => pw_retries pw =? 0) sorted). set (failed := List.filter (fun pw => 0 <? pw_retries pw) sorted).
  assert (Hpart : fresh ++ failed ≡ₚ pending).
  { unfold fresh, failed. rewrite partition_retries; [done|]. intros pw Hin. rewrite Hperm in Hin. by apply Hret. }
  assert (Hregs : forall pw, pw ∈ fresh ++ failed -> registered (pw_table_name pw) = true) by (intros pw Hin; rewrite Hpart in Hin; by apply Hreg).
  exists (if (0 <? length fresh)%nat && batch_backend fresh then S (2 * length failed) + (S (length fresh) + 1) else S (2 * length (fresh ++ failed)))%nat, (fresh ++ failed).
  split; [done|]. destruct (_ && _); [|by apply each_runs]. rewrite !iter_steps.
  change (Nat.iter 1 quiet (mkBWorld b (FBatch fresh failed) written given_up latest)) with (mkBWorld b (FAcking fresh failed) (written ++ fresh) given_up latest).
  rewrite acking_runs, each_runs by (intros pw Hin; apply Hregs, elem_of_app; by right). f_equal; [|by rewrite <- app_assoc].
  unfold acks. by rewrite fold_left_app.
Qed.

(** Rows of one table have distinct ids, and one table only has a parent key. *)
Lemma parent_ids_distinct (buf : list PendingWrite) : NoDup (write_key <$> buf) ->
  NoDup (pw_entity_id <$> List.filter (has_parent_key DEFAULT_PARENT_KEY_MAP) buf).
Proof.
  assert (Htable : forall pw : PendingWrite, has_parent_key DEFAULT_PARENT_KEY_MAP pw = true -> pw_table_name pw = "messages"%string).
  { intros pw. unfold has_parent_key, DEFAULT_PARENT_KEY_MAP. destruct (_ !! pw_table_name pw) as [c|] eqn:Hc; [|done]. by apply lookup_singleton_Some in Hc as [<- _]. }
  induction buf as [|pw buf IH]; simpl; [intros _; apply base.NoDup_nil_2|]. rewrite NoDup_cons. intros [Hpw Hnd].
  destruct (has_parent_key DEFAULT_PARENT_KEY_MAP pw) eqn:Hm; simpl; [|by apply IH]. apply NoDup_cons. split; [|by apply IH].
  intros (x & Heq & [Hin Hx]%list_elem_of_In%List.filter_In)%list_elem_of_fmap. apply Hpw. apply list_elem_of_fmap. exists x.
  split; [|by apply list_elem_of_In]. unfold write_key. by rewrite (Htable pw Hm), (Htable x Hx), Heq.
Qed.

Lemma drain_all b : wb_in_flight b = ∅ -> drain b = (wb_buf b, mkWriteBuffer (wb_buf b) (list_to_set (write_key <$> wb_buf b))).
Proof.
  destruct b as [buf fl]. simpl. intros ->. unfold drain. cbv zeta. simpl wb_buf. simpl wb_in_flight.
  assert (Hall : forall l : list PendingWrite, List.filter (fun pw => negb (bool_decide (write_key pw ∈ (∅ : gset bkey)))) l = l).
  { induction l as [|x l IH]; [done|]. cbn [List.filter]. rewrite bool_decide_eq_false_2 by set_solver. cbn [negb]. by rewrite IH. }
  rewrite Hall. by rewrite union_empty_l_L.
Qed.

(** A flush empties the buffer: started when no write is claimed, and left to run with nothing raised and every row taken, it comes to an end with
    every write that was in the buffer written to the durable tier, none written twice, and none left behind or claimed. *)
Theorem flush_empties_the_buffer w : rtc bstep bworld0 w -> bw_flush w = FIdle -> wb_in_flight (bw_buffer w) = ∅ ->
  (forall pw, pw ∈ wb_buf (bw_buffer w) -> registered (pw_table_name pw) = true) ->
  exists n, let w' := Nat.iter n quiet (begun w) in
    rtc bstep w w' /\ bw_flush w' = FIdle /\ wb_buf (bw_buffer w') = [] /\ wb_in_flight (bw_buffer w') = ∅
    /\ exists l, l ≡ₚ wb_buf (bw_buffer w) /\ bw_written w' = bw_written w ++ l.
Proof.
  intros Hs%bsound_reachable Hidle Hfl Hreg.
  pose proof (drain_all (bw_buffer w) Hfl) as Hclaim.
  set (buf := wb_buf (bw_buffer w)) in *.
  destruct (flush_runs (begun w) buf) as (n & l & Hl & Hrun).
  - done.
  - intros pw Hin. apply (bs_retries w Hs). by left.
  - unfold begun. by rewrite Hclaim.
  - apply parents_are_sorted, parent_ids_distinct, Hs.
  - exists n. cbv zeta. split; [eapply rtc_l; [|apply quiet_steps]; unfold begun; apply bstep_flush, fstep_begin; [done|by destruct (drain (bw_buffer w))]|].
    rewrite Hrun. cbn [bw_flush bw_buffer bw_written]. destruct (acks_spec l (bw_buffer (begun w))) as [Hbuf Hin].
    + rewrite Hl. apply Hs.
    + intros pw Hpw. rewrite Hl in Hpw. unfold begun. rewrite Hclaim. simpl. apply elem_of_list_to_set. by apply list_elem_of_fmap_2.
    + assert (Hbegun : wb_buf (bw_buffer (begun w)) = buf /\ wb_in_flight (bw_buffer (begun w)) = list_to_set (write_key <$> buf)) by (unfold begun; by rewrite Hclaim).
      destruct Hbegun as [Hb1 Hb2]. split_and!; [done| | |by exists l].
      * apply elem_of_nil_inv. intros x [Hx Hno]%Hbuf. apply Hno. rewrite Hb1 in Hx. rewrite <- Hl in Hx. by apply list_elem_of_fmap_2.
      * rewrite Hin, Hb2. rewrite (list_to_set_perm_L (write_key <$> l) (write_key <$> buf)) by by rewrite Hl. set_solver.
Qed.

(** ** What a cancelled flush leaves *)

(** A row claimed by no flush that runs. *)
Definition orphaned (k : bkey) (pw : PendingWrite) (w : bworld) : Prop :=
  buf_get k (wb_buf (bw_buffer w)) = Some pw /\ k ∈ wb_in_flight (bw_buffer w) /\ (forall x, x ∈ in_hand (bw_flush w) -> write_key x <> k)
  /\ forall x, x ∈ bw_written w ++ (bw_given_up w).*1 -> write_key x <> k.

Lemma add_locked_other b (y : PendingWrite) k : write_key y <> k -> buf_get k (wb_buf (add_locked b y)) = buf_get k (wb_buf b)
  /\ (k ∈ wb_in_flight b -> k ∈ wb_in_flight (add_locked b y)).
Proof.
  intros Hne. unfold add_locked. destruct (buf_get (write_key y) (wb_buf b)) as [p|]; [destruct (orders_after _ _)|]; simpl; [done|..];
    rewrite buf_get_set, bool_decide_eq_false_2 by done; (split; [done|set_solver]).
Qed.

Lemma orphaned_ack k pw w x f : orphaned k pw w -> x ∈ in_hand (bw_flush w) -> (forall y, y ∈ in_hand f -> y ∈ in_hand (bw_flush w)) ->
  orphaned k pw (mkBWorld (ack (bw_buffer w) (write_key x)) f (bw_written w) (bw_given_up w) (bw_latest w)).
Proof.
  intros (Hb & Hfl & Hh & Hw) Hx Hsub. pose proof (Hh x Hx) as Hne. unfold orphaned. simpl. rewrite ack_get. split_and!; [|..|auto|done].
  - case_bool_decide; [|done]. by rewrite bool_decide_eq_false_2.
  - unfold ack. case_bool_decide; [|done]. simpl. set_solver.
Qed.

Lemma orphaned_moves k pw w f written given_up : orphaned k pw w -> (forall y, y ∈ in_hand f -> y ∈ in_hand (bw_flush w)) ->
  (forall y, y ∈ written ++ given_up.*1 -> y ∈ bw_written w ++ (bw_given_up w).*1 \/ y ∈ in_hand (bw_flush w)) ->
  orphaned k pw (mkBWorld (bw_buffer w) f written given_up (bw_latest w)).
Proof.
  intros (Hb & Hfl & Hh & Hw) Hsub Hmore. split_and!; simpl; [done|done|auto|]. intros y [Hy|Hy]%Hmore; auto.
Qed.

Lemma orphaned_step k pw w w' : orphaned k pw w -> fstep w w' -> orphaned k pw w'.
Proof.
  intros Ho Hstep. destruct Hstep as [claimed b' Hf Hd|rows fresh failed Hf|fresh failed Hf|x todo failed Hf|failed Hf|x todo Hf Hr|rows x todo Hf Hr Hl|rows x todo Hf Hr Hl|fk x todo Hf Hr Hlt|fk x todo Hf Hr Hlt|x todo Hf|x todo Hf|Hf|].
  - destruct Ho as (Hb & Hfl & Hh & Hw). unfold drain in Hd. injection Hd as <- <-. split_and!; simpl; [done|set_solver| |done].
    intros x Hx%in_hand_begin Heq. subst k. rewrite list_elem_of_In, List.filter_In, negb_true_iff, bool_decide_eq_false in Hx. by destruct Hx.
  - apply orphaned_moves; [done|by rewrite Hf|]. intros y Hy. rewrite Hf. rewrite fmap_app, <- list_fmap_compose, !elem_of_app in Hy.
    assert (Hsub : forall f, y ∈ List.filter f fresh -> y ∈ in_hand (FBatch fresh failed)) by (intros f; rewrite !list_elem_of_In, List.filter_In; intros [? _]; apply in_app_iff; by left).
    destruct Hy as [[Hy|Hy]|[Hy|(z & -> & Hz)%list_elem_of_fmap]]; [left; apply elem_of_app; by left|right; by apply (Hsub _ Hy)|left; apply elem_of_app; by right|right; by apply (Hsub _ Hz)].
  - apply orphaned_moves; [done|by rewrite Hf|auto].
  - apply orphaned_ack; [done|rewrite Hf; by left|rewrite Hf; simpl; set_solver].
  - apply orphaned_moves; [done|by rewrite Hf|auto].
  - apply orphaned_moves; [done|by rewrite Hf|rewrite Hf, fmap_app; simpl; set_solver].
  - apply orphaned_moves; [done|by rewrite Hf|rewrite Hf; simpl; set_solver].
  - apply orphaned_moves; [done|by rewrite Hf|rewrite Hf, fmap_app; simpl; set_solver].
  - apply orphaned_moves; [done|by rewrite Hf|auto].
  - apply orphaned_moves; [done|by rewrite Hf|rewrite Hf, fmap_app; simpl; set_solver].
  - apply orphaned_ack; [done|rewrite Hf; by left|rewrite Hf; simpl; set_solver].
  - assert (Hin : x ∈ in_hand (bw_flush w)) by (rewrite Hf; by left). destruct Ho as (Hb & Hfl & Hh & Hw). pose proof (Hh x Hin) as Hne.
    assert (Hre : buf_get k (wb_buf (re_enqueue (bw_buffer w) x (pw_retries x + 1)).2) = Some pw /\ k ∈ wb_in_flight (re_enqueue (bw_buffer w) x (pw_retries x + 1)).2).
    { unfold re_enqueue. case_bool_decide; [|done]. simpl. set (y := mkPendingWrite _ _ _ _). by destruct (add_locked_other (bw_buffer w) y k Hne) as [-> Hin']; auto. }
    split_and!; simpl; [apply Hre|apply Hre|intros y Hy; apply Hh; rewrite Hf; by right|done].
  - apply orphaned_moves; [done|simpl; set_solver|auto].
  - apply orphaned_moves; [done|simpl; set_solver|auto].
Qed.

Lemma orphaned_for_good k pw w w' : orphaned k pw w -> rtc fstep w w' -> orphaned k pw w'.
Proof. intros Ho Hsteps. induction Hsteps as [|w w1 w' Hstep _ IH]; [done|]. by apply IH, (orphaned_step k pw w). Qed.
End Buffer.

(** ** Runs *)

Definition plain_row : Type := columns.

Abbreviation b_step := (bstep (D := plain_row) (fun _ => None) column (fun _ => true) (fun _ => true)).
Abbreviation f_step := (fstep (D := plain_row) (fun _ => None) column (fun _ => true) (fun _ => true)).

Inductive bevent := BAdd (table entity_id : string) (row : plain_row) | BBegin | BQuiet (n : nat) | BCancel.

Definition run_bevent (w : @bworld plain_row) (e : bevent) : @bworld plain_row :=
  match e with
  | BAdd table entity_id row =>
      mkBWorld (add (fun _ => None) (bw_buffer w) table entity_id row 0) (bw_flush w) (bw_written w) (bw_given_up w) (<[(table, entity_id) := row]> (bw_latest w))
  | BBegin => match bw_flush w with FIdle => begun column (fun _ => true) w | _ => w end
  | BQuiet n => Nat.iter n (quiet (fun _ => None) (fun _ => true)) w
  | BCancel => mkBWorld (bw_buffer w) FIdle (bw_written w) (bw_given_up w) (bw_latest w)
  end.

Definition run_bevents (es : list bevent) : @bworld plain_row := fold_left run_bevent es bworld0.

Lemma run_bevents_reach es : rtc b_step bworld0 (run_bevents es).
Proof.
  unfold run_bevents. induction es as [|e es IH] using rev_ind; [done|]. rewrite fold_left_app. cbn [fold_left]. etrans; [exact IH|]. generalize (fold_left run_bevent es bworld0).
  intros w. destruct e as [table entity_id row| |n|]; cbn [run_bevent].
  - apply rtc_once. assert (Hadd := bstep_add (D := plain_row) (fun _ => None) column (fun _ => true) (fun _ => true) w table entity_id row). simpl in Hadd.
    unfold orders_after in Hadd. by destruct (buf_get _ _).
  - destruct (bw_flush w) eqn:Hf; try done. apply rtc_once, bstep_flush. unfold begun. destruct (drain (bw_buffer w)) as [claimed b'] eqn:Hd. by apply fstep_begin.
  - apply quiet_steps.
  - apply rtc_once, bstep_flush, fstep_cancelled.
Qed.

(** A row written again while its flush has committed the older write and not acknowledged it yet. *)
Definition overtaken_run : list bevent :=
  [BAdd "jobs" "1" [("state", "a")]; BAdd "jobs" "2" []; BBegin; BQuiet 1; BAdd "jobs" "1" [("state", "b")]; BQuiet 10]%string.

Lemma buffered_writes_are_kept_witness : (pw_data <$> wb_buf (bw_buffer (run_bevents overtaken_run))) = [[("state", "b")]]%string
  /\ ((exists pw, buf_get ("jobs", "1")%string (wb_buf (bw_buffer (run_bevents overtaken_run))) = Some pw /\ pw_data pw = [("state", "b")]%string)
      \/ (exists pw, pw ∈ bw_written (run_bevents overtaken_run) /\ write_key pw = ("jobs", "1")%string /\ pw_data pw = [("state", "b")]%string)
      \/ exists pw why, (pw, why) ∈ bw_given_up (run_bevents overtaken_run) /\ write_key pw = ("jobs", "1")%string /\ pw_data pw = [("state", "b")]%string
         /\ match why with NoCollection => true = false | RetriesSpent => true = true /\ exists fk, retry_limit fk <= pw_retries pw + 1 | NothingTaken => True end).
Proof.
  split; [vm_compute; reflexivity|].
  refine (buffered_writes_are_kept (fun _ => None) column (fun _ => true) (fun _ => true) (run_bevents overtaken_run) ("jobs", "1")%string _ (run_bevents_reach overtaken_run) _).
  vm_compute. reflexivity.
Defined.

Definition full_run : list bevent :=
  [BAdd "messages" "b" [("parent_message_id", "a")]; BAdd "messages" "a" []; BAdd "jobs" "1" []]%string.

Lemma flush_empties_the_buffer_witness : length (wb_buf (bw_buffer (run_bevents full_run))) = 3%nat
  /\ exists n, let w' := Nat.iter n (quiet (fun _ => None) (fun _ => true)) (begun column (fun _ => true) (run_bevents full_run)) in
    rtc b_step (run_bevents full_run) w' /\ bw_flush w' = FIdle /\ wb_buf (bw_buffer w') = [] /\ wb_in_flight (bw_buffer w') = ∅
    /\ exists l, l ≡ₚ wb_buf (bw_buffer (run_bevents full_run)) /\ bw_written w' = bw_written (run_bevents full_run) ++ l.
Proof.
  split; [vm_compute; reflexivity|].
  refine (flush_empties_the_buffer (fun _ => None) column (fun _ => true) (fun _ => true) (run_bevents full_run) (run_bevents_reach full_run) _ _ _);
    [vm_compute; reflexivity|vm_compute; reflexivity|]. intros pw _. reflexivity.
Defined.

(** A flush cancelled between its drain and its writes, as stopping the flusher does. *)
Definition cancelled_run : list bevent := [BAdd "coordination_claims" "k" []; BBegin; BCancel]%string.

(** A cancelled flush keeps its claims: the row it claimed stays in the buffer and no later flush takes it, the one that closes the flusher included. *)
Theorem cancelled_flush_orphans_its_writes : rtc b_step bworld0 (run_bevents cancelled_run)
  /\ forall w', rtc f_step (run_bevents cancelled_run) w' ->
     exists pw, buf_get ("coordination_claims", "k")%string (wb_buf (bw_buffer w')) = Some pw /\ forall x, x ∈ bw_written w' -> write_key x <> ("coordination_claims", "k")%string.
Proof.
  split; [apply run_bevents_reach|]. intros w' Hsteps.
  assert (Ho : orphaned ("coordination_claims", "k")%string (mkPendingWrite "coordination_claims" "k" [] 0) (run_bevents cancelled_run)).
  { split_and!; [vm_compute; reflexivity|by apply (bool_decide_unpack _); vm_compute|intros x ?%elem_of_nil; done|intros x ?%elem_of_nil; done]. }
  destruct (orphaned_for_good _ _ _ _ _ _ _ _ Ho Hsteps) as (Hb & _ & _ & Hw). eexists. split; [exact Hb|]. intros x Hx. apply Hw, elem_of_app. by left.
Qed.

(** The claim is the row's, not the flush's: with two flushes on one buffer the acknowledgement of the first takes the newer write the second
    has claimed, and when that write fails the second cannot put it back. *)
Theorem stale_ack_takes_a_newer_claim :
  let k := ("jobs", "1")%string in
  let b1 := (drain (add (fun _ => None) (mkWriteBuffer [] ∅) "jobs" "1" [("state", "a")]%string 0)).2 in
  let '(second, b2) := drain (add (fun _ => None) b1 "jobs" "1" [("state", "b")]%string 0) in
  (pw_data <$> second) = [[("state", "b")]]%string /\ wb_buf (ack b2 k) = []
  /\ forall pw, pw ∈ second -> re_enqueue (fun _ => None) (ack b2 k) pw 1 = (false, ack b2 k).
Proof.
  split_and!; [vm_compute; reflexivity|vm_compute; reflexivity|]. intros pw ->%list_elem_of_singleton. vm_compute. reflexivity.
Qed.
