(* ===== verification/CoalescedRun.v ===== *)
(** * Coalesced runs

    [CoalescedRun] of [src/packages/core/src/threetears/core/coordination/coalesced_run.py]: an operation run by
    one replica at a time, where a request during a run runs it once more. The request is one key of the lease's
    bucket, here its revision. The lease has one holder at a time; [LeaseExclusion] says when a holder keeps it, and
    a lease that lapses under its holder is a step here. [hold] with the default wait answers at once.

    A replica's call is where it is in [drain_results]; [rstep] interleaves any number of them at their awaits, each
    of which may raise, before or after what it asked for was done, and a run may be stopped by a cancellation or a
    lost lease. *)

From Stdlib Require Import Bool List NArith ZArith Lia.
From stdpp Require Import base list gmap relations.
From S2P Require Import Prelude.

Open Scope Z_scope.

(** Before [request]; before the look for a request; wanting the lease; holding it, before the read and before the delete of [_take], in the
    run, letting go, letting go after a failed run; ended, and how. *)
Inductive at_ := PAsk | PCheck | PHold | PTake | PDelete (revision : Z) | PRun | PRelease | PFail | PDone | PRaised.

#[export] Instance at_eq_dec : EqDecision at_.
Proof. solve_decision. Defined.

(** The request key and the bucket's last revision; the lease's holder; the calls; the requests made and the runs begun, by revision. *)
Record rworld := mkRWorld {
  rw_entry : option Z;
  rw_seq : Z;
  rw_lease : option nat;
  rw_calls : gmap nat at_;
  rw_requests : list Z;
  rw_runs : list Z;
}.

(** [request]. *)
Definition request (w : rworld) : rworld :=
  mkRWorld (Some (rw_seq w + 1)) (rw_seq w + 1) (rw_lease w) (rw_calls w) (rw_requests w ++ [rw_seq w + 1]) (rw_runs w).

(** [requested]. *)
Definition requested (w : rworld) : bool := isSome (rw_entry w).

Definition goes (i : nat) (p : at_) (w : rworld) : rworld :=
  mkRWorld (rw_entry w) (rw_seq w) (rw_lease w) (<[i := p]> (rw_calls w)) (rw_requests w) (rw_runs w).

Definition leased (l : option nat) (w : rworld) : rworld := mkRWorld (rw_entry w) (rw_seq w) l (rw_calls w) (rw_requests w) (rw_runs w).

(** [_take]'s delete: at the revision read, or nothing. *)
Definition delete_request (revision : Z) (w : rworld) : bool * rworld :=
  if bool_decide (rw_entry w = Some revision)
  then (true, mkRWorld None (rw_seq w + 1) (rw_lease w) (rw_calls w) (rw_requests w) (rw_runs w ++ [revision]))
  else (false, w).

(** Leaving the lease's [async with]: what another holds by now is left alone. *)
Definition let_go (i : nat) (w : rworld) : rworld := if bool_decide (rw_lease w = Some i) then leased None w else w.

(** The next await of a call, answered. *)
Definition drain_step (i : nat) (p : at_) (w : rworld) : rworld :=
  match p with
  | PAsk => goes i PCheck (request w)
  | PCheck => goes i (if requested w then PHold else PDone) w
  | PHold => match rw_lease w with None => goes i PTake (leased (Some i) w) | Some _ => goes i PDone w end
  | PTake => goes i (match rw_entry w with Some revision => PDelete revision | None => PRelease end) w
  | PDelete revision => let '(taken, w') := delete_request revision w in goes i (if taken then PRun else PTake) w'
  | PRun => goes i PTake w
  | PRelease => goes i PCheck (let_go i w)
  | PFail => goes i PRaised (let_go i w)
  | PDone | PRaised => w
  end.

(** The next await of a call, raising; [landed] when what it asked for was done all the same: the request put, the lease acquired, which
    the call then does not know it has, the request deleted, which no run then follows, the lease let go. *)
Definition raise_step (i : nat) (p : at_) (landed : bool) (w : rworld) : rworld :=
  match p with
  | PAsk => goes i PRaised (if landed then request w else w)
  | PCheck => goes i PRaised w
  | PHold => goes i PRaised (if landed && bool_decide (rw_lease w = None) then leased (Some i) w else w)
  | PTake | PRun => goes i PFail w
  | PDelete revision =>
      goes i PFail (if landed && bool_decide (rw_entry w = Some revision)
        then mkRWorld None (rw_seq w + 1) (rw_lease w) (rw_calls w) (rw_requests w) (rw_runs w) else w)
  | PRelease | PFail => goes i PRaised (if landed then let_go i w else w)
  | PDone | PRaised => w
  end.

Definition ended (p : at_) : bool := match p with PDone | PRaised => true | _ => false end.

(** [kept]: no lease lapses under a call that has not ended. A run that is stopped asks again before its call lets go and raises; the asking may
    fail too. *)
Inductive rstep (kept : Prop) (w : rworld) : rworld -> Prop :=
| rstep_starts i p : rw_calls w !! i = None -> p = PAsk \/ p = PCheck -> rstep kept w (goes i p w)
| rstep_goes i p : rw_calls w !! i = Some p -> ended p = false -> rstep kept w (drain_step i p w)
| rstep_raises i p landed : rw_calls w !! i = Some p -> ended p = false -> rstep kept w (raise_step i p landed w)
| rstep_stopped i (asked : bool) : rw_calls w !! i = Some PRun -> rstep kept w (goes i PFail (if asked then request w else w))
| rstep_lapses i : rw_lease w = Some i -> (kept -> exists p, rw_calls w !! i = Some p /\ ended p = true) -> rstep kept w (leased None w).

Definition rworld0 : rworld := mkRWorld None 0 None ∅ [] [].

(** ** Requests are not stranded *)
















(** ** Runs *)

(** One await of each call named; a call not yet begun begins with its request. *)
Definition rgo (i : nat) (w : rworld) : rworld :=
  match rw_calls w !! i with None => goes i PAsk w | Some p => if ended p then w else drain_step i p w end.

Definition rrun (turns : list nat) (w : rworld) : rworld := fold_left (fun w i => rgo i w) turns w.

Lemma rrun_reach (kept : Prop) turns w : rtc (rstep kept) w (rrun turns w).
Proof.
  unfold rrun. revert w. induction turns as [|i turns IH]; intros w; [done|]. simpl. etrans; [|apply IH]. unfold rgo.
  destruct (rw_calls w !! i) as [p|] eqn:Hi; [destruct (ended p) eqn:Hp; [done|]|]; apply rtc_once; [by apply rstep_goes|]. apply rstep_starts; [done|by left].
Qed.



(** A run that fails strands the requests made during it: call one asks during the run of call zero and leaves its request to it, the run raises, and call
    zero lets the lease go without looking for a request again. Every call has ended, and the request of call one has had no run. *)
Theorem failed_run_strands_a_request : exists w, rtc (rstep True) rworld0 w
  /\ rw_calls w = {[ 0%nat := PRaised; 1%nat := PDone ]} /\ rw_requests w = [1; 3] /\ rw_runs w = [1] /\ rw_entry w = Some 3 /\ rw_lease w = None.
Proof.
  set (w1 := rrun [0; 0; 0; 0; 0; 0; 1; 1; 1; 1]%nat rworld0). exists (rrun [0]%nat (raise_step 0 PRun false w1)). split.
  - etrans; [apply (rrun_reach True [0; 0; 0; 0; 0; 0; 1; 1; 1; 1]%nat)|]. eapply rtc_l; [|apply rrun_reach]. apply rstep_raises; [vm_compute; reflexivity|done].
  - vm_compute. by split_and!.
Qed.
