(* ===== verification/SourceToken.v ===== *)
(** * Source-token fence

    [src/packages/core/src/threetears/core/coordination/source_token.py]: a producer's signal is accepted when its
    token is newer than the last one accepted. The fence is one row, advanced by one upsert inside the
    transaction the work runs in; the database is PostgreSQL reading committed rows, as the module documents
    it: a statement sees what is committed when it runs, and an upsert takes the row's lock, waits for it, keeps it
    until its transaction ends and evaluates its condition on the row as it then is. *)

From Stdlib Require Import Ascii String Bool List NArith ZArith Lia.
From stdpp Require Import base list gmap relations.
From S2P Require Import Prelude.

Open Scope Z_scope.

(** A token: the producer's run, and the newest data it saw. *)
Record SourceToken := mkSourceToken { st_run_id : Z; st_as_of : Z }.

(** [__post_init__]; a run id that is no whole number has no model. *)
Definition source_token (run_id as_of : Z) (aware : bool) : result SourceToken string :=
  if run_id <? 1 then Err "a run id is a positive whole number"%string
  else if negb aware then Err "the timestamp names no time zone; add one (Z for UTC)"%string
  else Ok (mkSourceToken run_id as_of).

Definition newer_than (self : SourceToken) (last : option SourceToken) : bool :=
  match last with None => true | Some last => (st_run_id last <? st_run_id self) && (st_as_of last <=? st_as_of self) end.

Record Advance := mkAdvance { ad_accepted : bool; ad_last : option SourceToken }.

(** The condition of the upsert, on the row it finds: the row to be, if a row is returned. *)
Definition upsert_token (token : SourceToken) (row : option SourceToken) : option SourceToken :=
  match row with
  | None => Some token
  | Some stored => if (st_run_id stored <? st_run_id token) && (st_as_of stored <=? st_as_of token) then Some token else None
  end.

(** Where an [advancing] is: before its read; before its upsert; before the read of the token that stands; in its block; ended, committed or not. *)
Inductive advancing := ARead | AUpsert (previous : option SourceToken) | AReread | ABlock (a : Advance) | ACommitted (a : Advance) | ARolledBack.

(** The row as committed; who has its lock and what it wrote; the calls, each with its token; the tokens accepted for good, in order. *)
Record tworld := mkTWorld {
  tw_row : option SourceToken;
  tw_lock : option (nat * option SourceToken);
  tw_calls : gmap nat (SourceToken * advancing);
  tw_accepted : list SourceToken;
}.

(** What a transaction reads: its own write, or the committed row. *)
Definition read_row (i : nat) (w : tworld) : option SourceToken :=
  match tw_lock w with Some (j, Some written) => if Nat.eqb i j then Some written else tw_row w | _ => tw_row w end.

Definition tgoes (i : nat) (token : SourceToken) (p : advancing) (w : tworld) : tworld :=
  mkTWorld (tw_row w) (tw_lock w) (<[i := (token, p)]> (tw_calls w)) (tw_accepted w).

(** What an ended transaction leaves: its write if it committed, and the lock. *)
Definition ends (i : nat) (commits : bool) (w : tworld) : tworld :=
  match tw_lock w with
  | Some (j, written) =>
      if Nat.eqb i j then
        match written with
        | Some written => if commits then mkTWorld (Some written) None (tw_calls w) (tw_accepted w ++ [written]) else mkTWorld (tw_row w) None (tw_calls w) (tw_accepted w)
        | None => mkTWorld (tw_row w) None (tw_calls w) (tw_accepted w)
        end
      else w
  | None => w
  end.

Inductive tstep (w : tworld) : tworld -> Prop :=
| tstep_starts i token : tw_calls w !! i = None -> tstep w (tgoes i token ARead w)
| tstep_reads i token : tw_calls w !! i = Some (token, ARead) -> tstep w (tgoes i token (AUpsert (read_row i w)) w)
| tstep_accepts i token previous : tw_calls w !! i = Some (token, AUpsert previous) -> tw_lock w = None -> upsert_token token (tw_row w) = Some token ->
    tstep w (tgoes i token (ABlock (mkAdvance true previous)) (mkTWorld (tw_row w) (Some (i, Some token)) (tw_calls w) (tw_accepted w)))
| tstep_refuses i token previous : tw_calls w !! i = Some (token, AUpsert previous) -> tw_lock w = None -> upsert_token token (tw_row w) = None ->
    tstep w (tgoes i token AReread (mkTWorld (tw_row w) (Some (i, None)) (tw_calls w) (tw_accepted w)))
| tstep_rereads i token : tw_calls w !! i = Some (token, AReread) -> tstep w (tgoes i token (ABlock (mkAdvance false (read_row i w))) w)
| tstep_commits i token a : tw_calls w !! i = Some (token, ABlock a) -> tstep w (tgoes i token (ACommitted a) (ends i true w))
| tstep_rolls_back i token p : tw_calls w !! i = Some (token, p) -> (forall a, p <> ACommitted a) -> tstep w (tgoes i token ARolledBack (ends i false w)).

Definition tworld0 : tworld := mkTWorld None None ∅ [].

(** ** The tokens accepted *)

Lemma upsert_is_newer token row : upsert_token token row = if newer_than token row then Some token else None.
Proof. by destruct row. Qed.

(** Each token newer than the one accepted before it. *)
Inductive advances : list SourceToken -> option SourceToken -> Prop :=
| advances_nil : advances [] None
| advances_snoc tokens last token : advances tokens last -> newer_than token last = true -> advances (tokens ++ [token]) (Some token).

(** What a call knows: a refused one stands behind a row that is not older; an accepted one has the lock and its write is newer than the row. *)
Definition knows (w : tworld) (i : nat) (token : SourceToken) (p : advancing) : Prop :=
  match p with
  | AReread => tw_lock w = Some (i, None) /\ newer_than token (tw_row w) = false
  | ABlock a => if ad_accepted a then tw_lock w = Some (i, Some token) /\ newer_than token (tw_row w) = true else tw_lock w = Some (i, None) /\ newer_than token (ad_last a) = false
  | ACommitted a => if ad_accepted a then token ∈ tw_accepted w else newer_than token (ad_last a) = false
  | _ => True
  end.

Record tsound (w : tworld) : Prop := mkTSound {
  ts_advances : advances (tw_accepted w) (tw_row w);
  ts_calls : forall i token p, tw_calls w !! i = Some (token, p) -> knows w i token p;
  ts_lock : forall i written, tw_lock w = Some (i, written) -> exists token p, tw_calls w !! i = Some (token, p) /\ match p with AReread => written = None | ABlock a => written = if ad_accepted a then Some token else None | _ => False end;
}.

(** Of the other calls only what the lock says can change with a step. *)
Lemma knows_apart w w' i j token p : i <> j -> (tw_lock w = tw_lock w' /\ tw_row w = tw_row w' \/ tw_lock w = None \/ exists written, tw_lock w = Some (i, written)) ->
  (forall t, t ∈ tw_accepted w -> t ∈ tw_accepted w') -> knows w j token p -> knows w' j token p.
Proof.
  intros Hne Hcase Hacc. destruct p as [|previous| |a|a|]; simpl; try done.
  - destruct Hcase as [[Hl Hr]|[Hl|[written Hl]]]; rewrite Hl, ?Hr; [done|by intros [? _]|by intros [[= <- _] _]].
  - destruct (ad_accepted a); (destruct Hcase as [[Hl Hr]|[Hl|[written Hl]]]; rewrite Hl, ?Hr; [done|by intros [? _]|by intros [[= <- _] _]]).
  - destruct (ad_accepted a); [apply Hacc|done].
Qed.

(** A call goes on: what it then knows, and what the others still know. *)
Lemma tsound_goes w w' i token p' : tsound w -> tw_calls w' = tw_calls w -> advances (tw_accepted w') (tw_row w') ->
  (tw_lock w = tw_lock w' /\ tw_row w = tw_row w' \/ tw_lock w = None \/ exists written, tw_lock w = Some (i, written)) ->
  (forall t, t ∈ tw_accepted w -> t ∈ tw_accepted w') -> knows w' i token p' ->
  (forall j written, tw_lock w' = Some (j, written) -> if Nat.eqb j i then match p' with AReread => written = None | ABlock a => written = if ad_accepted a then Some token else None | _ => False end
     else tw_lock w = Some (j, written)) ->
  tsound (tgoes i token p' w').
Proof.
  intros Hs Hcalls Hadv Hcase Hacc Hk Hlock. constructor; simpl; [done|..].
  - intros j t p. rewrite Hcalls. destruct (decide (i = j)) as [<-|Hne].
    + rewrite lookup_insert_eq. intros [= <- <-]. by destruct p'.
    + rewrite lookup_insert_ne by done. intros Hj. apply (ts_calls w Hs) in Hj. apply (knows_apart w w' i j t p Hne Hcase Hacc) in Hj. by destruct p.
  - intros j written Hj. specialize (Hlock j written Hj). rewrite Hcalls. destruct (Nat.eqb_spec j i) as [->|Hne].
    + rewrite lookup_insert_eq. by exists token, p'.
    + rewrite lookup_insert_ne by done. by apply (ts_lock w Hs).
Qed.

(** Who has the lock is a call in its block or before its second read. *)
Lemma lock_elsewhere w i token p : tsound w -> tw_calls w !! i = Some (token, p) -> match p with AReread | ABlock _ => False | _ => True end ->
  forall j written, tw_lock w = Some (j, written) -> Nat.eqb j i = false.
Proof.
  intros Hs Hi Hp j written Hl. destruct (Nat.eqb_spec j i) as [->|]; [|done]. destruct (ts_lock w Hs i written Hl) as (t & q & Hq & Hm). rewrite Hi in Hq. injection Hq as <- <-. by destruct p.
Qed.

Lemma tsound_ends w i token p commits : tsound w -> tw_calls w !! i = Some (token, p) ->
  let w' := ends i commits w in
  tw_calls w' = tw_calls w /\ advances (tw_accepted w') (tw_row w') /\ (forall t, t ∈ tw_accepted w -> t ∈ tw_accepted w')
  /\ (tw_lock w = tw_lock w' /\ tw_row w = tw_row w' \/ tw_lock w = None \/ exists written, tw_lock w = Some (i, written))
  /\ (forall j written, tw_lock w' = Some (j, written) -> Nat.eqb j i = false /\ tw_lock w = Some (j, written))
  /\ (commits = true -> forall a, p = ABlock a -> ad_accepted a = true -> token ∈ tw_accepted w').
Proof.
  intros Hs Hi. unfold ends. pose proof (ts_calls w Hs i token p Hi) as Hk. destruct (tw_lock w) as [[j written]|] eqn:Hl; simpl.
  - destruct (Nat.eqb_spec i j) as [<-|Hne].
    + destruct (ts_lock w Hs i written Hl) as (t & q & Hq & Hm). rewrite Hi in Hq. injection Hq as <- <-.
      destruct written as [written|]; [destruct commits|]; simpl; (split_and!; [done|..|eauto|done|]).
      * destruct p as [| | |a| |]; try done. simpl in Hk. destruct (ad_accepted a); [|done]. destruct Hk as [_ Hn]. injection Hm as ->. econstructor; [apply Hs|done].
      * intros t Ht. apply elem_of_app. by left.
      * intros _ a -> Ha. rewrite Ha in Hm. injection Hm as ->. apply elem_of_app. right. by apply list_elem_of_singleton.
      * apply Hs.
      * done.
      * done.
      * apply Hs.
      * done.
      * intros _ a -> Ha. by rewrite Ha in Hm.
    + split_and!; [done|apply Hs|done|by left; rewrite Hl| |].
      * rewrite Hl. intros j' written' [= <- <-]. split; [by apply Nat.eqb_neq|done].
      * intros _ a -> Ha. simpl in Hk. rewrite Ha in Hk. destruct Hk as [Habs _]. congruence.
  - split_and!; [done|apply Hs|done|by right; left| |].
    + by rewrite Hl.
    + intros _ a -> Ha. simpl in Hk. rewrite Ha in Hk. destruct Hk as [Habs _]. congruence.
Qed.

Lemma tsound_step w w' : tsound w -> tstep w w' -> tsound w'.
Proof.
  intros Hs Hstep. destruct Hstep as [i token Hi|i token Hi|i token previous Hi Hl Hup|i token previous Hi Hl Hup|i token Hi|i token a Hi|i token p Hi Hp].
  - apply (tsound_goes w); [done|done|apply Hs|by left|done|done|]. intros j written Hl. destruct (Nat.eqb_spec j i) as [->|]; [|done].
    destruct (ts_lock w Hs i written Hl) as (t & q & Hq & _). congruence.
  - apply (tsound_goes w); [done|done|apply Hs|by left|done|done|]. intros j written Hl. by rewrite (lock_elsewhere w i token _ Hs Hi I j written Hl).
  - rewrite upsert_is_newer in Hup. apply (tsound_goes w); [done|done|apply Hs|by right; left|done| |].
    + simpl. by destruct (newer_than token (tw_row w)).
    + simpl. intros j written [= <- <-]. by rewrite Nat.eqb_refl.
  - rewrite upsert_is_newer in Hup. apply (tsound_goes w); [done|done|apply Hs|by right; left|done| |].
    + simpl. by destruct (newer_than token (tw_row w)).
    + simpl. intros j written [= <- <-]. by rewrite Nat.eqb_refl.
  - destruct (ts_calls w Hs i token _ Hi) as [Hl Hn]. apply (tsound_goes w); [done|done|apply Hs|by left|done| |].
    + simpl. unfold read_row. by rewrite Hl.
    + rewrite Hl. intros j written [= <- <-]. by rewrite Nat.eqb_refl.
  - destruct (tsound_ends w i token _ true Hs Hi) as (Hcalls & Hadv & Hacc & Hcase & Hlock & Hin). apply (tsound_goes w); [done|done|done|done|done| |].
    + pose proof (ts_calls w Hs i token _ Hi) as Hk. simpl in *. destruct (ad_accepted a) eqn:Ha; [by apply (Hin eq_refl a)|apply Hk].
    + intros j written Hl. by destruct (Hlock j written Hl) as [-> ?].
  - destruct (tsound_ends w i token _ false Hs Hi) as (Hcalls & Hadv & Hacc & Hcase & Hlock & _). apply (tsound_goes w); [done|done|done|done|done|done|].
    intros j written Hl. by destruct (Hlock j written Hl) as [-> ?].
Qed.

Lemma tsound_reachable w : rtc tstep tworld0 w -> tsound w.
Proof.
  assert (H0 : tsound tworld0) by (constructor; [constructor|done|done]).
  revert H0. generalize tworld0. intros w0 H0 Hsteps. induction Hsteps as [|w0 w1 w2 Hstep _ IH]; [done|]. by apply IH, (tsound_step w0).
Qed.

Lemma advances_later tokens last : advances tokens last ->
  (forall t, t ∈ tokens -> exists l, last = Some l /\ st_run_id t <= st_run_id l /\ st_as_of t <= st_as_of l) /\ NoDup (st_run_id <$> tokens).
Proof.
  induction 1 as [|tokens last token Ha [Hle Hnd] Hn]; [split; [by intros t ?%elem_of_nil|apply base.NoDup_nil_2]|].
  assert (Hlater : forall t, t ∈ tokens -> st_run_id t < st_run_id token /\ st_as_of t <= st_as_of token).
  { intros t Ht. destruct (Hle t Ht) as (l & -> & Hr & Has). unfold newer_than in Hn. apply andb_prop in Hn as [H1%Z.ltb_lt H2%Z.leb_le]. lia. }
  split.
  - intros t [Ht| ->%list_elem_of_singleton]%elem_of_app; exists token; (split; [done|]); [specialize (Hlater t Ht)|]; lia.
  - rewrite fmap_app. apply list.NoDup_app. split_and!; [done| |apply NoDup_singleton]. intros r (t & -> & Ht)%list_elem_of_fmap Hin. simpl in Hin.
    apply list_elem_of_singleton in Hin. specialize (Hlater t Ht). lia.
Qed.

(** (C23) The fence only moves forward: however signals interleave and whichever blocks fail, the tokens accepted for good grow, each a later run
    whose data is not older than the one before, so no run is accepted twice; the row holds the last of them. A call that was told accepted and committed
    is among them, and one that was told refused was not newer than the token it was told stands. *)
Theorem tokens_only_advance w : rtc tstep tworld0 w ->
  advances (tw_accepted w) (tw_row w) /\ NoDup (st_run_id <$> tw_accepted w)
  /\ forall i token a, tw_calls w !! i = Some (token, ACommitted a) -> if ad_accepted a then token ∈ tw_accepted w else newer_than token (ad_last a) = false.
Proof.
  intros Hs%tsound_reachable. split_and!; [apply Hs|by apply (advances_later _ (tw_row w)), Hs|]. intros i token a Hi. exact (ts_calls w Hs i token _ Hi).
Qed.

(** ** Runs *)

Inductive tevent := TStart (i : nat) (token : SourceToken) | TGo (i : nat) | TRollBack (i : nat).

(** The next await of a call; one that waits for the lock stays. *)
Definition tgo (i : nat) (token : SourceToken) (p : advancing) (w : tworld) : tworld :=
  match p with
  | ARead => tgoes i token (AUpsert (read_row i w)) w
  | AUpsert previous =>
      match tw_lock w with
      | Some _ => w
      | None =>
          if newer_than token (tw_row w)
          then tgoes i token (ABlock (mkAdvance true previous)) (mkTWorld (tw_row w) (Some (i, Some token)) (tw_calls w) (tw_accepted w))
          else tgoes i token AReread (mkTWorld (tw_row w) (Some (i, None)) (tw_calls w) (tw_accepted w))
      end
  | AReread => tgoes i token (ABlock (mkAdvance false (read_row i w))) w
  | ABlock a => tgoes i token (ACommitted a) (ends i true w)
  | _ => w
  end.

Definition run_tevent (w : tworld) (e : tevent) : tworld :=
  match e with
  | TStart i token => match tw_calls w !! i with None => tgoes i token ARead w | Some _ => w end
  | TGo i => match tw_calls w !! i with Some (token, p) => tgo i token p w | None => w end
  | TRollBack i => match tw_calls w !! i with Some (token, ABlock a) => tgoes i token ARolledBack (ends i false w) | _ => w end
  end.

Definition run_tevents (es : list tevent) : tworld := fold_left run_tevent es tworld0.

Lemma run_tevent_step w e : rtc tstep w (run_tevent w e).
Proof.
  destruct e as [i token|i|i]; simpl.
  - destruct (tw_calls w !! i) eqn:Hi; [done|]. apply rtc_once. by apply tstep_starts.
  - destruct (tw_calls w !! i) as [[token p]|] eqn:Hi; [|done]. destruct p as [|previous| |a|a|]; simpl; try done.
    + apply rtc_once. by apply tstep_reads.
    + destruct (tw_lock w) eqn:Hl; [done|]. destruct (newer_than token (tw_row w)) eqn:Hn; apply rtc_once;
        [apply (tstep_accepts w i token previous)|apply (tstep_refuses w i token previous)]; try done; by rewrite upsert_is_newer, Hn.
    + apply rtc_once. by apply tstep_rereads.
    + apply rtc_once. by apply tstep_commits.
  - destruct (tw_calls w !! i) as [[token p]|] eqn:Hi; [|done]. destruct p as [| | |a| |]; try done. apply rtc_once. by apply (tstep_rolls_back w i token (ABlock a)).
Qed.

Lemma run_tevents_reach es : rtc tstep tworld0 (run_tevents es).
Proof.
  unfold run_tevents. generalize tworld0. induction es as [|e es IH]; intros w; [done|]. simpl. etrans; [apply run_tevent_step|apply IH].
Qed.

(** A signal whose block fails, its retry, a repeat of it, and a late signal of an earlier run. *)
Definition signals : list tevent :=
  [TStart 0 (mkSourceToken 7 100); TGo 0; TGo 0; TRollBack 0; TStart 1 (mkSourceToken 7 100); TStart 2 (mkSourceToken 7 100); TGo 1; TGo 2; TGo 1; TGo 2; TGo 1;
   TGo 2; TGo 2; TGo 2; TStart 3 (mkSourceToken 6 200); TGo 3; TGo 3; TGo 3; TGo 3].

Lemma tokens_only_advance_witness : tw_accepted (run_tevents signals) = [mkSourceToken 7 100]
  /\ tw_calls (run_tevents signals) !! 2%nat = Some (mkSourceToken 7 100, ACommitted (mkAdvance false (Some (mkSourceToken 7 100))))
  /\ NoDup (st_run_id <$> tw_accepted (run_tevents signals)).
Proof.
  split; [vm_compute; reflexivity|]. split; [vm_compute; reflexivity|].
  exact (proj1 (proj2 (tokens_only_advance (run_tevents signals) (run_tevents_reach signals)))).
Defined.

(** An accepted call may be told a token that was not the last accepted before it: it reads the row before its upsert, and another signal
    commits in between. Here run seven is accepted and committed before run eight, whose call is told that none was. *)
Theorem accepted_call_is_told_a_stale_token : exists w, rtc tstep tworld0 w /\ tw_accepted w = [mkSourceToken 7 100; mkSourceToken 8 100]
  /\ tw_calls w !! 1%nat = Some (mkSourceToken 8 100, ACommitted (mkAdvance true None)).
Proof.
  exists (run_tevents [TStart 0 (mkSourceToken 7 100); TStart 1 (mkSourceToken 8 100); TGo 1; TGo 0; TGo 0; TGo 0; TGo 1; TGo 1]).
  split; [apply run_tevents_reach|]. vm_compute. by split.
Qed.
