(* ===== verification/Keyset.v ===== *)
(** * Keyset paging and key-led reads under a row cap

    Models [core/keyset.py] ([_KeysetStatement], [keyset_pages], [read_keyset_pages]) with
    [equality_conditions] of [core/sql_fragments.py], and the key-led read that pages through it
    ([_LedRead] and [fetch_led_by] of [core/backends/sql.py]).

    The transport these reads go over cuts every answer at a row cap and does not say when it cut.
    A statement is kept as its conditions with their placeholder numbers, its order, its limit and
    its parameters ([statement]); [sql_text] spells it as the source does and [rows_of] is what
    PostgreSQL answers to it from a table: the rows for which every condition is true under the
    three-valued logic of NULL, in the order asked for, up to the limit.  [transport] cuts that
    answer at the cap.

    The table may be another one at every statement: [tables i] is what the [i]-th statement of the
    read finds.  The codec of a registered schema ([normalize_write_value], [coerce_row]) and the
    spelling of a projection are not modelled: a value is the bound form of it and [select_from] is
    the head of the statement. *)

From Stdlib Require Import Ascii String Bool List ZArith Lia.
From stdpp Require Import base list gmap strings sorting pretty.
From S2P Require Import Prelude.

Local Open Scope string_scope.

(** ** Values and their order *)

(** The order the database keeps on the values of a key column. *)
Class SqlOrder (V : Type) : Type := {
  sql_compare : V -> V -> comparison;
  sql_compare_eq a b : sql_compare a b = Eq <-> a = b;
  sql_compare_antisym a b : sql_compare b a = CompOpp (sql_compare a b);
  sql_compare_trans a b c : sql_compare a b = Lt -> sql_compare b c = Lt -> sql_compare a c = Lt
}.

(** [ORDER BY] puts NULL after every value. *)
Definition null_last {V} (cmp : V -> V -> comparison) (a b : option V) : comparison :=
  match a, b with
  | Some x, Some y => cmp x y
  | Some _, None => Lt
  | None, Some _ => Gt
  | None, None => Eq
  end.

(** Rows are compared column by column. *)
Fixpoint lexicographic {V} (cmp : V -> V -> comparison) (a b : list V) : comparison :=
  match a, b with
  | [], [] => Eq
  | [], _ :: _ => Lt
  | _ :: _, [] => Gt
  | x :: a', y :: b' => match cmp x y with Eq => lexicographic cmp a' b' | c => c end
  end.

#[export] Program Instance SqlOrder_Z : SqlOrder Z := {| sql_compare := Z.compare |}.
Next Obligation. apply Z.compare_eq_iff. Qed.
Next Obligation. intros a b. apply Z.compare_antisym. Qed.
Next Obligation. intros a b c. rewrite !Z.compare_lt_iff. lia. Qed.

#[export] Program Instance SqlOrder_option `{SqlOrder V} : SqlOrder (option V) :=
  {| sql_compare := null_last sql_compare |}.
Next Obligation.
  intros V HV [x|] [y|]; cbn; rewrite ?sql_compare_eq; split; intros; simplify_eq; done.
Qed.
Next Obligation. intros V HV [x|] [y|]; cbn; try done. apply sql_compare_antisym. Qed.
Next Obligation. intros V HV [x|] [y|] [z|]; cbn; try done. apply sql_compare_trans. Qed.

Lemma lexicographic_eq `{SqlOrder V} (a b : list V) : lexicographic sql_compare a b = Eq <-> a = b.
Proof.
  revert b; induction a as [|x a IH]; intros [|y b]; cbn; [done..|].
  destruct (sql_compare x y) eqn:E.
  - apply sql_compare_eq in E as ->. rewrite IH. naive_solver.
  - split; [done|]. intros [= <- <-]. rewrite (proj2 (sql_compare_eq x x)) in E; done.
  - split; [done|]. intros [= <- <-]. rewrite (proj2 (sql_compare_eq x x)) in E; done.
Qed.

Lemma lexicographic_antisym `{SqlOrder V} (a b : list V) :
  lexicographic sql_compare b a = CompOpp (lexicographic sql_compare a b).
Proof.
  revert b; induction a as [|x a IH]; intros [|y b]; cbn; [done..|].
  rewrite (sql_compare_antisym x y). destruct (sql_compare x y); cbn; auto.
Qed.

Lemma lexicographic_trans `{SqlOrder V} (a b c : list V) :
  lexicographic sql_compare a b = Lt -> lexicographic sql_compare b c = Lt -> lexicographic sql_compare a c = Lt.
Proof.
  revert b c; induction a as [|x a IH]; intros [|y b] [|z c]; cbn; try done.
  destruct (sql_compare x y) eqn:E1; [apply sql_compare_eq in E1 as ->| |done].
  - destruct (sql_compare y z); eauto.
  - intros _. destruct (sql_compare y z) eqn:E2; [apply sql_compare_eq in E2 as ->; by rewrite E1| |done].
    by rewrite (sql_compare_trans _ _ _ E1 E2).
Qed.

#[export] Instance SqlOrder_list `{SqlOrder V} : SqlOrder (list V) := {|
  sql_compare := lexicographic sql_compare;
  sql_compare_eq := lexicographic_eq;
  sql_compare_antisym := lexicographic_antisym;
  sql_compare_trans := lexicographic_trans |}.

Definition before `{SqlOrder K} (a b : K) : Prop := sql_compare a b = Lt.

#[export] Instance before_dec `{SqlOrder K} (a b : K) : Decision (before a b).
Proof. unfold before. solve_decision. Defined.

Section BeforeOrder.
Context `{SqlOrder K}.

Lemma before_irrefl (a : K) : ~ before a a.
Proof. unfold before. rewrite (proj2 (sql_compare_eq a a)); done. Qed.

Lemma before_trans (a b c : K) : before a b -> before b c -> before a c.
Proof. apply sql_compare_trans. Qed.

Lemma before_total (a b : K) : before a b \/ a = b \/ before b a.
Proof.
  unfold before. rewrite (sql_compare_antisym a b).
  destruct (sql_compare a b) eqn:E; cbn; [right; left; by apply sql_compare_eq|auto|auto].
Qed.

Lemma before_gt (a b : K) : sql_compare a b = Gt <-> before b a.
Proof. unfold before. rewrite (sql_compare_antisym a b). destruct (sql_compare a b); naive_solver. Qed.

End BeforeOrder.

(** ** Statements and what a table answers to them *)

(** A placeholder [$n] names the [n]-th parameter, from one. *)
Inductive condition : Type :=
  | Equals (column : string) (n : nat)
  | EqualsAny (column : string) (n : nat) (array : string)
  | Past (columns : list string) (ns : list nat).

Inductive KeysetError : Type :=
  | ValueError
  | IndexError
  | KeyError (column : string)
  | FetchError.

(** [quote_identifier] and [as_written] of [sql_fragments.py]: the first doubles a double quote. *)
Definition dquote : ascii := "034"%char.

Fixpoint double_quotes (s : string) : string :=
  match s with
  | EmptyString => EmptyString
  | String c r => if Ascii.eqb c dquote then String c (String c (double_quotes r)) else String c (double_quotes r)
  end.

Definition quote_identifier (identifier : string) : string :=
  String dquote (double_quotes identifier) ++ String dquote EmptyString.

Definition as_written (identifier : string) : string := identifier.

Section Statements.
Context {V : Type} `{EqDecision V, SqlOrder V}.

Abbreviation value := (option V).
Abbreviation row := (gmap string value).

Inductive param : Type :=
  | PValue (v : value)
  | PArray (vs : list value).

Record statement : Type := {
  st_select_from : string;
  st_conditions : list condition;
  st_order : list string;
  st_limit : option nat;
  st_params : list param
}.

(** *** The text *)

Definition dollar (n : nat) : string := "$" ++ pretty n.

Definition condition_text (quote : string -> string) (mark : option (string -> nat -> string)) (c : condition)
  : string :=
  match c with
  | Equals column n => quote column ++ " = " ++ dollar n
  | EqualsAny column n array => quote column ++ " = ANY(" ++ dollar n ++ "::" ++ array ++ ")"
  | Past columns ns =>
      "(" ++ String.concat ", " (map quote columns) ++ ") > ("
      ++ String.concat ", " (zip_with (default (fun _ n => dollar n) mark) columns ns) ++ ")"
  end.

Definition sql_text (quote : string -> string) (mark : option (string -> nat -> string)) (st : statement) : string :=
  let where_sql :=
    match st_conditions st with
    | [] => ""
    | cs => " WHERE " ++ String.concat " AND " (map (condition_text quote mark) cs)
    end in
  let tail :=
    match st_limit st with
    | None => ""
    | Some n => " ORDER BY " ++ String.concat ", " (map quote (st_order st)) ++ " LIMIT " ++ pretty n
    end in
  st_select_from st ++ where_sql ++ tail.

(** *** The answer *)

Definition value_of (params : list param) (n : nat) : value :=
  match params !! pred n with Some (PValue v) => v | _ => None end.

Definition array_of (params : list param) (n : nat) : list value :=
  match params !! pred n with Some (PArray vs) => vs | _ => [] end.

Definition column_of (r : row) (column : string) : value := mjoin (r !! column).

(** A comparison with NULL is not true. *)
Definition sql_equal (a b : value) : bool :=
  match a, b with Some x, Some y => bool_decide (x = y) | _, _ => false end.

Fixpoint sql_past (a b : list value) : bool :=
  match a, b with
  | Some x :: a', Some y :: b' =>
      match sql_compare x y with Gt => true | Lt => false | Eq => sql_past a' b' end
  | _, _ => false
  end.

Definition holds (params : list param) (r : row) (c : condition) : bool :=
  match c with
  | Equals column n => sql_equal (column_of r column) (value_of params n)
  | EqualsAny column n _ => existsb (sql_equal (column_of r column)) (array_of params n)
  | Past columns ns => sql_past (map (column_of r) columns) (map (value_of params) ns)
  end.

Definition row_key (key : list string) (r : row) : list value := map (column_of r) key.

Definition key_order (key : list string) (r1 r2 : row) : Prop := ~ before (row_key key r2) (row_key key r1).

#[export] Instance key_order_dec key r1 r2 : Decision (key_order key r1 r2) := _.

Definition rows_of (st : statement) (table : list row) : list row :=
  let kept := filter (fun r => forallb (holds (st_params st) r) (st_conditions st) = true) table in
  let ordered := match st_order st with [] => kept | key => merge_sort (key_order key) kept end in
  match st_limit st with None => ordered | Some n => take n ordered end.

(** The transport answers at most [cap] rows a statement; [None] for one that never cuts. *)
Definition transport (cap : option nat) (tables : nat -> list row) (i : nat) (st : statement)
  : result (list row) KeysetError :=
  let rows := rows_of st (tables i) in
  Ok (match cap with None => rows | Some n => take n rows end).

(** ** [_KeysetStatement] *)

Definition equality_conditions (where_ : option (list (string * value))) (first : nat)
  : list condition * list value :=
  let filters := default [] where_ in
  (imap (fun index '(column, _) => Equals column (first + index)) filters, map snd filters).

Record KeysetStatement : Type := {
  ks_select_from : string;
  ks_key : list string;
  ks_page_size : Z;
  ks_filters : list condition;
  ks_values : list param
}.

Definition add_where_any (acc : list condition * list param) (entry : string * (string * list value))
  : list condition * list param :=
  let '(filters, values) := acc in
  let '(column, (array, vs)) := entry in
  ((filters ++ [EqualsAny column (length values + 1) array])%list, (values ++ [PArray vs])%list).

Definition keyset_statement (select_from : string) (key : list string) (where_ : option (list (string * value)))
  (where_any : option (list (string * (string * list value)))) (page_size : Z)
  : result KeysetStatement KeysetError :=
  if (page_size <? 1)%Z then Err ValueError
  else
    let '(filters, values) := equality_conditions where_ 1 in
    let '(filters, values) := foldl add_where_any (filters, map PValue values) (default [] where_any) in
    Ok {| ks_select_from := select_from; ks_key := key; ks_page_size := page_size;
          ks_filters := filters; ks_values := values |}.

Definition page (ks : KeysetStatement) (cursor : option (list value)) : statement :=
  let n := length (ks_values ks) in
  {| st_select_from := ks_select_from ks;
     st_conditions := (ks_filters ks ++
       match cursor with
       | Some _ => [Past (ks_key ks) (imap (fun index _ => n + S index) (ks_key ks))]
       | None => []
       end)%list;
     st_order := ks_key ks;
     st_limit := Some (Z.to_nat (ks_page_size ks + 1));
     st_params := (ks_values ks ++ match cursor with Some c => map PValue c | None => [] end)%list |}.

(** ** [keyset_pages] *)

Inductive ended : Type :=
  | Finished
  | Raised (e : KeysetError)
  | Unfinished.

Fixpoint cursor_of (key : list string) (r : row) : result (list value) KeysetError :=
  match key with
  | [] => Ok []
  | column :: key' =>
      match r !! column with
      | None => Err (KeyError column)
      | Some v => do! c <- cursor_of key' r ;; Ok (v :: c)
      end
  end.

(** The pages handed over from the [i]-th statement on, and how the read ended.  [fuel] bounds the
    number of statements. *)
Fixpoint page_loop (fuel : nat) (l3 : nat -> statement -> result (list row) KeysetError) (ks : KeysetStatement)
  (i : nat) (cursor : option (list value)) : list (list row) * ended :=
  match fuel with
  | O => ([], Unfinished)
  | S fuel' =>
      match l3 i (page ks cursor) with
      | Err e => ([], Raised e)
      | Ok answer =>
          let page_size := Z.to_nat (ks_page_size ks) in
          let kept := take page_size answer in
          let more := (page_size <? length answer)%nat && negb (bool_decide (kept = [])) in
          match more, list.last kept with
          | true, Some r =>
              match cursor_of (ks_key ks) r with
              | Err e => ([], Raised e)
              | Ok c => let '(pages, e) := page_loop fuel' l3 ks (S i) (Some c) in (kept :: pages, e)
              end
          | _, _ => ([kept], Finished)
          end
      end
  end.

Definition keyset_pages (fuel : nat) (l3 : nat -> statement -> result (list row) KeysetError) (i : nat)
  (select_from : string) (key : list string) (where_ : option (list (string * value)))
  (where_any : option (list (string * (string * list value)))) (page_size : Z) : list (list row) * ended :=
  match keyset_statement select_from key where_ where_any page_size with
  | Err e => ([], Raised e)
  | Ok ks => page_loop fuel l3 ks i None
  end.

Record KeysetRead : Type := {
  kr_rows : list row;
  kr_statements : nat
}.

(** [None] when the fuel ran out. *)
Definition read_keyset_pages (fuel : nat) (l3 : nat -> statement -> result (list row) KeysetError) (i : nat)
  (select_from : string) (key : list string) (where_ : option (list (string * value)))
  (where_any : option (list (string * (string * list value)))) (page_size : Z)
  : option (result KeysetRead KeysetError) :=
  match keyset_pages fuel l3 i select_from key where_ where_any page_size with
  | (pages, Finished) => Some (Ok {| kr_rows := concat pages; kr_statements := length pages |})
  | (_, Raised e) => Some (Err e)
  | (_, Unfinished) => None
  end.

(** ** [_LedRead] and [fetch_led_by] *)

Record LedRead : Type := {
  lr_table : string;
  lr_projection : string;
  lr_pk_columns : list string;
  lr_array : string;
  lr_row_cap : option Z
}.

(** What the read has taken so far: the counters of [_LedRead]. *)
Record tally : Type := { statements : nat; splits : nat; paged_values : nat }.

Definition head_of (pk : list string) : string := match pk with lead :: _ => lead | [] => "" end.

Definition led_by_statement (lr : LedRead) (values : list value) : statement :=
  {| st_select_from := "SELECT " ++ lr_projection lr ++ " FROM " ++ lr_table lr;
     st_conditions := [EqualsAny (head_of (lr_pk_columns lr)) 1 (lr_array lr)];
     st_order := []; st_limit := None; st_params := [PArray values] |}.

Definition paged (fuel : nat) (l3 : nat -> statement -> result (list row) KeysetError) (lr : LedRead)
  (v : value) (row_cap : Z) (t : tally) : option (result (list row) KeysetError * tally) :=
  let t := {| statements := statements t; splits := splits t; paged_values := S (paged_values t) |} in
  let select_from := "SELECT " ++ lr_projection lr ++ " FROM " ++ lr_table lr in
  match read_keyset_pages fuel l3 (statements t) select_from (tail (lr_pk_columns lr))
          (Some [(head_of (lr_pk_columns lr), v)]) None (row_cap - 1) with
  | None => None
  | Some (Err e) => Some (Err e, t)
  | Some (Ok read) =>
      Some (Ok (kr_rows read),
            {| statements := statements t + kr_statements read; splits := splits t;
               paged_values := paged_values t |})
  end.

(** [depth] bounds the halvings, [fuel] the pages of one value. *)
Fixpoint batch (depth fuel : nat) (l3 : nat -> statement -> result (list row) KeysetError) (lr : LedRead)
  (values : list value) (t : tally) : option (result (list row) KeysetError * tally) :=
  match depth with
  | O => None
  | S depth' =>
      match l3 (statements t) (led_by_statement lr values) with
      | Err e => Some (Err e, t)
      | Ok rows =>
          let t := {| statements := S (statements t); splits := splits t; paged_values := paged_values t |} in
          match lr_row_cap lr with
          | None => Some (Ok rows, t)
          | Some cap =>
              if (Z.of_nat (length rows) <? cap)%Z then Some (Ok rows, t)
              else if (1 <? length values)%nat then
                let t := {| statements := statements t; splits := S (splits t); paged_values := paged_values t |} in
                let half := Nat.div2 (length values) in
                match batch depth' fuel l3 lr (take half values) t with
                | Some (Ok left_, t) =>
                    match batch depth' fuel l3 lr (drop half values) t with
                    | Some (Ok right_, t) => Some (Ok (left_ ++ right_)%list, t)
                    | r => r
                    end
                | r => r
                end
              else match values with
                   | v :: _ => paged fuel l3 lr v cap t
                   | [] => Some (Err IndexError, t)
                   end
          end
      end
  end.

(** [range(0, len(values), max_values)] with the slice at each start. *)
Fixpoint slices (fuel size : nat) (values : list value) : list (list value) :=
  match fuel, values with
  | S fuel', _ :: _ => take size values :: slices fuel' size (drop size values)
  | _, _ => []
  end.

Fixpoint batches (fuel : nat) (l3 : nat -> statement -> result (list row) KeysetError) (lr : LedRead)
  (chunks : list (list value)) (rows : list row) (t : tally) : option (result (list row) KeysetError * tally) :=
  match chunks with
  | [] => Some (Ok rows, t)
  | values :: chunks' =>
      match batch (S (length values)) fuel l3 lr values t with
      | Some (Ok more, t) => batches fuel l3 lr chunks' (rows ++ more)%list t
      | r => r
      end
  end.

Definition fetch_led_by (fuel : nat) (l3 : nat -> statement -> result (list row) KeysetError) (lr : LedRead)
  (values : list value) (max_values : Z) : option (result (list row) KeysetError * tally) :=
  let t := {| statements := 0; splits := 0; paged_values := 0 |} in
  if (max_values <? 1)%Z then Some (Err ValueError, t)
  else if match lr_row_cap lr with Some cap => (cap <? 2)%Z | None => false end then Some (Err ValueError, t)
  else batches fuel l3 lr (slices (length values) (Z.to_nat max_values) values) [] t.

End Statements.

Arguments param : clear implicits.
Arguments statement : clear implicits.
Arguments KeysetStatement : clear implicits.
Arguments KeysetRead : clear implicits.

(** ** The rows a read names *)

Section Paging.
Context {V : Type} `{EqDecision V, SqlOrder V}.

Abbreviation value := (option V).
Abbreviation row := (gmap string value).

Implicit Types (r : row) (table : list row) (st : statement V) (key : list string).

(** What [where] and [where_any] mean of a row, without placeholders. *)
Definition named (where_ : option (list (string * value))) (where_any : option (list (string * (string * list value))))
  (r : row) : bool :=
  forallb (fun '(column, v) => sql_equal (column_of r column) v) (default [] where_)
  && forallb (fun '(column, (_, vs)) => existsb (sql_equal (column_of r column)) vs) (default [] where_any).

Definition past_cursor (cursor : option (list value)) (k : list value) : Prop :=
  match cursor with None => True | Some c => before c k end.

#[local] Instance past_cursor_dec cursor k : Decision (past_cursor cursor k).
Proof. destruct cursor; cbn; apply _. Defined.

(** The key is what the documentation asks of it: a value in every column, and unique among the rows named. *)
Record keyed (p : row -> bool) (key : list string) (table : list row) : Prop := {
  keyed_values : forall r, r ∈ table -> p r = true -> Forall is_Some (row_key key r);
  keyed_unique : NoDup (row_key key <$> filter (fun r => p r = true) table)
}.

Lemma value_of_app_l (ps qs : list (param V)) n :
  1 <= n <= length ps -> value_of (ps ++ qs)%list n = value_of ps n /\ array_of (ps ++ qs)%list n = array_of ps n.
Proof. intros ?. unfold value_of, array_of. rewrite lookup_app_l; [done|lia]. Qed.

Lemma equals_hold (where_ : list (string * value)) first (ps qs : list (param V)) r :
  1 <= first -> length ps = pred first ->
  forallb (holds (ps ++ map PValue (map snd where_) ++ qs)%list r)
    (imap (fun index '(column, _) => Equals column (first + index)) where_)
  = forallb (fun '(column, v) => sql_equal (column_of r column) v) where_.
Proof.
  revert first ps. induction where_ as [|[c v] w IH]; intros first ps Hf Hl; [done|]. cbn. f_equal.
  - f_equal. unfold value_of. replace (pred (first + 0)) with (length ps + 0) by lia.
    rewrite lookup_app_r by lia. by replace (length ps + 0 - length ps) with 0 by lia.
  - specialize (IH (S first) (ps ++ [PValue v])%list ltac:(lia)).
    rewrite <- IH by (rewrite length_app; cbn; lia). rewrite <- (assoc_L (++)%list). cbn.
    f_equal. apply imap_ext. intros i [c' v'] _. cbn. f_equal. lia.
Qed.

Lemma any_hold (entries : list (string * (string * list value))) filters (values qs : list (param V)) r b :
  (forall qs, forallb (holds (values ++ qs)%list r) filters = b) ->
  let '(fs, vs) := foldl add_where_any (filters, values) entries in
  forallb (holds (vs ++ qs)%list r) fs
  = b && forallb (fun '(column, (_, vs)) => existsb (sql_equal (column_of r column)) vs) entries.
Proof.
  revert filters values b. induction entries as [|[c [a vs]] es IH]; intros fs ps b Hb; cbn.
  - by rewrite Hb, andb_true_r.
  - rewrite andb_assoc. apply IH. intros qs'.
    rewrite <- (assoc_L (++)%list), forallb_app, Hb. cbn. rewrite andb_true_r. f_equal. f_equal.
    unfold array_of. replace (pred (length ps + 1)) with (length ps + 0) by lia.
    rewrite lookup_app_r by lia. by replace (length ps + 0 - length ps) with 0 by lia.
Qed.

(** Every placeholder of the filters names its own parameter, with or without a cursor after them. *)
Lemma statement_names select_from key where_ where_any page_size ks qs r :
  keyset_statement select_from key where_ where_any page_size = Ok ks ->
  forallb (holds (ks_values ks ++ qs)%list r) (ks_filters ks) = named where_ where_any r.
Proof.
  unfold keyset_statement, equality_conditions, named. destruct (page_size <? 1)%Z; [done|]. cbn.
  pose proof (any_hold (default [] where_any) _ (map PValue (map snd (default [] where_))) qs r _
                (fun qs => equals_hold (default [] where_) 1 [] qs r ltac:(lia) eq_refl)) as Hany.
  cbn [app] in Hany. destruct (foldl _ _ _) as [fs vs]. intros [= <-]. exact Hany.
Qed.

Lemma past_marks key n (ps : list (param V)) (c : list value) :
  n = length ps -> length key = length c ->
  map (value_of (ps ++ map PValue c)%list) (imap (fun index _ => n + S index) key) = c.
Proof.
  intros Hn. revert n ps c Hn. induction key as [|k key IH]; intros n ps [|v c] Hn Hl; cbn in *; [done..|].
  f_equal.
  - unfold value_of. replace (pred (n + 1)) with (length ps + 0) by lia.
    rewrite lookup_app_r by lia. by replace (length ps + 0 - length ps) with 0 by lia.
  - rewrite <- (IH (S n) (ps ++ [PValue v])%list c) at 2 by (rewrite ?length_app; cbn; lia).
    rewrite <- (assoc_L (++)%list). cbn. f_equal. apply imap_ext. intros i x _. cbn. lia.
Qed.

(** On keys without NULL the row comparison is the order of the keys. *)
Lemma sql_past_before (a b : list value) :
  Forall is_Some a -> Forall is_Some b -> length a = length b -> sql_past a b = true <-> before b a.
Proof.
  intros Ha Hb. revert b Hb. induction Ha as [|x a [x' ->] Ha IH]; intros [|y b] Hb Hl; cbn in Hl; try lia.
  - split; [done|]. intros []%before_irrefl.
  - inversion Hb as [|? ? [y' ->] Hb']; subst. cbn [sql_past]. unfold before in *. cbn.
    rewrite (sql_compare_antisym x' y'). destruct (sql_compare x' y'); cbn; [|done..].
    apply IH; [done|lia].
Qed.

(** ** One page *)

Lemma filter_ext_in {A} (P Q : A -> Prop) `{forall x, Decision (P x), forall x, Decision (Q x)} (l : list A) :
  (forall x, x ∈ l -> P x <-> Q x) -> filter P l = filter Q l.
Proof.
  induction l as [|x l IH]; intros Hl; [done|]. rewrite !filter_cons, IH by (intros; apply Hl; by right).
  pose proof (Hl x ltac:(left)). repeat case_decide; tauto.
Qed.

Lemma sorted_keys key table :
  NoDup (row_key key <$> table) -> Sorted (key_order key) table -> StronglySorted before (row_key key <$> table).
Proof.
  intros Hn Hs. assert (StronglySorted (key_order key) table) as Hss.
  { apply Sorted_StronglySorted; [|done]. intros a b c Hab Hbc Hca. unfold key_order in *.
    destruct (before_total (row_key key b) (row_key key a)) as [?|[E|E]]; [done| |].
    - rewrite E in Hbc. done.
    - apply Hbc. eapply before_trans; eauto. }
  clear Hs. induction Hss as [|r t Ht IH Hr]; cbn in *; [constructor|].
  apply list.NoDup_cons in Hn as [Hni Hn]. constructor; [auto|].
  apply list.Forall_forall. intros k Hk. pose proof Hk as (r' & -> & Hr')%list_elem_of_fmap.
  rewrite list.Forall_forall in Hr. specialize (Hr r' Hr'). unfold key_order in Hr.
  destruct (before_total (row_key key r) (row_key key r')) as [?|[E|?]]; [done| |done].
  destruct Hni. by rewrite E.
Qed.

Section OneRead.
Context (select_from : string) (key : list string) (where_ : option (list (string * value)))
  (where_any : option (list (string * (string * list value)))) (page_size : Z) (ks : KeysetStatement V)
  (Hks : keyset_statement select_from key where_ where_any page_size = Ok ks).

Let p := named where_ where_any.
Let ps := Z.to_nat page_size.

Lemma statement_fields : ks_key ks = key /\ ks_page_size ks = page_size /\ (1 <= page_size)%Z.
Proof.
  clear p ps. revert Hks. unfold keyset_statement. destruct (page_size <? 1)%Z eqn:E; [done|].
  destruct (equality_conditions _ _). destruct (foldl _ _ _). intros [= <-]. cbn. repeat split; lia.
Qed.

Definition cursor_ok (cursor : option (list value)) : Prop :=
  match cursor with None => True | Some c => Forall is_Some c /\ length c = length key end.

Definition left_to_read (cursor : option (list value)) (table : list row) : list row :=
  filter (fun r => past_cursor cursor (row_key key r) /\ p r = true) table.

Lemma left_to_read_keys cursor table : keyed p key table -> NoDup (row_key key <$> left_to_read cursor table).
Proof.
  intros [_ Hu]. eapply sublist_NoDup; [exact Hu|]. apply fmap_sublist. unfold left_to_read.
  rewrite <- list_filter_filter. apply sublist_filter.
Qed.

Lemma page_filter cursor table :
  keyed p key table -> cursor_ok cursor ->
  filter (fun r => forallb (holds (st_params (page ks cursor)) r) (st_conditions (page ks cursor)) = true) table
  = left_to_read cursor table.
Proof.
  intros [Hv _] Hc. destruct statement_fields as (Ek & _). apply filter_ext_in. intros r Hr.
  cbn [page st_params st_conditions]. rewrite forallb_app, (statement_names _ _ _ _ _ _ _ _ Hks). fold p.
  destruct (p r) eqn:Ep; cbn; [|naive_solver]. destruct cursor as [c|]; cbn; [|naive_solver].
  destruct Hc as [Hc1 Hc2]. rewrite andb_true_r, Ek, past_marks by (done || lia).
  change (map (column_of r) key) with (row_key key r).
  rewrite sql_past_before by (auto; unfold row_key; rewrite length_map; lia). naive_solver.
Qed.

(** What the statement of a page answers: the first rows past the cursor in key order, and one more than the page
    keeps when there is one. *)
Lemma page_answer cursor table :
  keyed p key table -> cursor_ok cursor ->
  exists l, l ≡ₚ left_to_read cursor table /\ StronglySorted before (row_key key <$> l) /\
    rows_of (page ks cursor) table = take (S ps) l.
Proof.
  intros Hk Hc. destruct statement_fields as (Ek & Eps & Hps).
  assert (exists l, l ≡ₚ left_to_read cursor table /\ Sorted (key_order key) l /\
            rows_of (page ks cursor) table = take (S ps) l) as (l & Hl & Hs & E).
  { unfold rows_of. cbn [page st_order st_limit]. rewrite page_filter by done. rewrite Ek, Eps.
    replace (Z.to_nat (page_size + 1)) with (S ps) by lia. destruct key as [|k key'] eqn:E.
    - exists (left_to_read cursor table). split; [done|]. split; [|done].
      apply StronglySorted_Sorted. generalize (left_to_read cursor table) as l. clear.
      intros l. induction l as [|x l IH]; constructor; [exact IH|].
      apply list.Forall_forall. intros y _ Hb. exact (before_irrefl _ Hb).
    - rewrite <- E in *. exists (merge_sort (key_order key) (left_to_read cursor table)).
      split; [apply merge_sort_Permutation|]. split; [|done]. apply Sorted_merge_sort.
      intros a b. unfold key_order. destruct (decide (before (row_key key b) (row_key key a))) as [Hb|]; [|auto].
      right. intros Ha. exact (before_irrefl _ (before_trans _ _ _ Ha Hb)). }
  exists l. split; [done|]. split; [|done]. apply sorted_keys; [|done].
  rewrite Hl. by apply left_to_read_keys.
Qed.

Lemma cursor_of_row r : Forall is_Some (row_key key r) -> cursor_of key r = Ok (row_key key r).
Proof.
  clear. unfold row_key, column_of. induction key as [|c key' IH]; cbn; intros Hf; [done|].
  apply list.Forall_cons in Hf as [Hc Hf]. destruct (r !! c) as [v|]; cbn in *; [|by destruct Hc]. by rewrite IH.
Qed.

(** ** The whole read *)

Context (cap : option nat) (Hcap : match cap with None => True | Some n => (S ps <= n)%nat end)
  (tables : nat -> list row) (Htables : forall i, keyed p key (tables i)).

Lemma elem_of_left cursor table r :
  r ∈ left_to_read cursor table <-> (past_cursor cursor (row_key key r) /\ p r = true) /\ r ∈ table.
Proof. unfold left_to_read. by rewrite list_elem_of_filter. Qed.

(** A statement either answers the rest of the rows, or a full page whose last key is the next cursor. *)
Lemma page_step fuel i cursor :
  cursor_ok cursor ->
  exists l, l ≡ₚ left_to_read cursor (tables i) /\ StronglySorted before (row_key key <$> l) /\
    ((length l <= ps /\ page_loop (S fuel) (transport cap tables) ks i cursor = ([l], Finished)) \/
     (ps < length l /\ exists l0 r, take ps l = (l0 ++ [r])%list /\ cursor_ok (Some (row_key key r)) /\
        past_cursor cursor (row_key key r) /\
        page_loop (S fuel) (transport cap tables) ks i cursor
        = let '(pages, e) := page_loop fuel (transport cap tables) ks (S i) (Some (row_key key r)) in
          (take ps l :: pages, e))).
Proof.
  intros Hc. destruct (page_answer cursor (tables i) (Htables i) Hc) as (l & Hl & Hs & E).
  exists l. split; [done|]. split; [done|]. destruct statement_fields as (Ek & Eps & Hps).
  cbn [page_loop]. unfold transport at 1 3. rewrite E, Eps, Ek. fold ps.
  replace (match cap with None => take (S ps) l | Some n => take n (take (S ps) l) end) with (take (S ps) l)
    by (destruct cap; [rewrite take_take, Nat.min_r; done || lia|done]).
  rewrite take_take, Nat.min_l, length_take by lia.
  destruct (Nat.le_gt_cases (length l) ps) as [Hle|Hgt].
  - left. split; [done|]. replace (ps <? S ps `min` length l)%nat with false
      by (symmetry; apply Nat.ltb_ge; lia). cbn. by rewrite take_ge.
  - right. split; [done|]. replace (ps <? S ps `min` length l)%nat with true
      by (symmetry; apply Nat.ltb_lt; lia).
    destruct (exists_last (l := take ps l)) as (l0 & r & Er); [intros ?%(f_equal length); rewrite length_take in *; cbn in *; lia|].
    exists l0, r. assert (r ∈ left_to_read cursor (tables i)) as Hr.
    { rewrite <- Hl, <- (take_drop ps l), Er. set_solver. }
    apply elem_of_left in Hr as [[Hpast Hp] Hin]. pose proof (keyed_values _ _ _ (Htables i) r Hin Hp) as Hv.
    split; [done|]. split; [split; [done|unfold row_key; by rewrite length_map]|]. split; [done|].
    rewrite Er, bool_decide_eq_false_2 by (intros ?%(f_equal length); rewrite length_app in *; cbn in *; lia).
    cbn [negb andb]. by rewrite last_snoc, cursor_of_row.
Qed.

Record walked (i : nat) (cursor : option (list value)) (pages : list (list row)) : Prop := {
  walked_sorted : StronglySorted before (row_key key <$> concat pages);
  walked_past : forall r, r ∈ concat pages -> past_cursor cursor (row_key key r);
  walked_found : forall r, r ∈ concat pages ->
    exists j, (i <= j < i + length pages)%nat /\ r ∈ tables j /\ p r = true;
  walked_kept : forall k, past_cursor cursor k ->
    (forall j, (i <= j < i + length pages)%nat -> exists r, r ∈ tables j /\ p r = true /\ row_key key r = k) ->
    k ∈ row_key key <$> concat pages;
  walked_full : exists full rest, pages = (full ++ [rest])%list /\ (length rest <= ps)%nat /\
    Forall (fun page => length page = ps) full
}.

Lemma walked_last i cursor l :
  l ≡ₚ left_to_read cursor (tables i) -> StronglySorted before (row_key key <$> l) -> length l <= ps ->
  walked i cursor [l].
Proof.
  intros Hl Hs Hle. split; cbn [concat]; rewrite ?app_nil_r; [done|..].
  - intros r Hr. rewrite Hl in Hr. by apply elem_of_left in Hr as [[? _] _].
  - intros r Hr. rewrite Hl in Hr. apply elem_of_left in Hr as [[_ ?] ?]. exists i. cbn. split; [lia|done].
  - intros k Hk Hall. destruct (Hall i ltac:(cbn; lia)) as (r & Hr & Hp & <-).
    apply list_elem_of_fmap_2. rewrite Hl. by apply elem_of_left.
  - exists [], l. by split_and!.
Qed.

Lemma walked_cons i cursor l l0 r pages :
  l ≡ₚ left_to_read cursor (tables i) -> StronglySorted before (row_key key <$> l) -> ps < length l ->
  take ps l = (l0 ++ [r])%list -> past_cursor cursor (row_key key r) ->
  walked (S i) (Some (row_key key r)) pages -> walked i cursor (take ps l :: pages).
Proof.
  intros Hl Hs Hlen Er Hpast [Ws Wp Wf Wk (full & rest & -> & Wr & Wfull)].
  rewrite <- (take_drop ps l), fmap_app, StronglySorted_app in Hs. destruct Hs as (Hcross & Hs1 & Hs2).
  assert (forall k, k ∈ row_key key <$> take ps l -> k = row_key key r \/ before k (row_key key r)) as Hle.
  { rewrite Er, fmap_app in *. intros k [Hk|Hk]%elem_of_app; [right|set_solver].
    apply StronglySorted_app in Hs1 as (Hx & _ & _). apply Hx; [done|set_solver]. }
  split; cbn [concat].
  - rewrite fmap_app. apply StronglySorted_app. split; [|done].
    intros x1 x2 H1 (r2 & -> & H2)%list_elem_of_fmap. specialize (Wp r2 H2).
    destruct (Hle x1 H1) as [->|Hb]; [done|]. eapply before_trans; eauto.
  - intros x [Hx|Hx]%elem_of_app.
    + assert (x ∈ left_to_read cursor (tables i)) as Hin by (rewrite <- Hl, <- (take_drop ps l); set_solver).
      by apply elem_of_left in Hin as [[? _] _].
    + specialize (Wp x Hx). destruct cursor; [|done]. cbn in *. eapply before_trans; eauto.
  - intros x [Hx|Hx]%elem_of_app.
    + assert (x ∈ left_to_read cursor (tables i)) as Hin by (rewrite <- Hl, <- (take_drop ps l); set_solver).
      apply elem_of_left in Hin as [[_ ?] ?]. exists i. split; [cbn; lia|done].
    + destruct (Wf x Hx) as (j & Hj & ?). exists j. split; [cbn in *; lia|done].
  - intros k Hk Hall. destruct (Hall i ltac:(cbn; lia)) as (x & Hx & Hp & <-).
    assert (x ∈ l) as Hin by (rewrite Hl; by apply elem_of_left).
    rewrite <- (take_drop ps l) in Hin. rewrite fmap_app. apply elem_of_app.
    apply elem_of_app in Hin as [Hin|Hin]; [left; by apply list_elem_of_fmap_2|right].
    apply Wk.
    + cbn. apply Hcross; [rewrite Er, fmap_app; set_solver|by apply list_elem_of_fmap_2].
    + intros j Hj. apply Hall. cbn in *. lia.
  - exists (take ps l :: full), rest. split; [done|]. split; [done|]. constructor; [|done]. rewrite length_take. lia.
Qed.

Lemma loop_walked fuel i cursor pages :
  cursor_ok cursor -> page_loop fuel (transport cap tables) ks i cursor = (pages, Finished) -> walked i cursor pages.
Proof.
  revert i cursor pages. induction fuel as [|fuel IH]; intros i cursor pages Hc Hloop; [done|].
  destruct (page_step fuel i cursor Hc) as (l & Hl & Hs & [[Hle E]|[Hgt (l0 & r & Er & Hc' & Hpast & E)]]);
    rewrite E in Hloop.
  - simplify_eq. by apply walked_last.
  - destruct (page_loop fuel _ ks (S i) _) as [pages' e] eqn:El. simplify_eq.
    eapply walked_cons; eauto.
Qed.

(** *** It ends *)

Section Universe.
Context (universe : list (list value)) (Hnodup : NoDup universe)
  (Huniverse : forall i r, r ∈ tables i -> p r = true -> row_key key r ∈ universe).

Definition keys_left (cursor : option (list value)) : nat := length (filter (past_cursor cursor) universe).

Lemma keys_left_all : keys_left None = length universe.
Proof. unfold keys_left. clear. induction universe as [|k l IH]; [done|]. rewrite filter_cons_True; cbn; auto. Qed.

Lemma strongly_sorted_nodup (l : list (list value)) : StronglySorted before l -> NoDup l.
Proof.
  clear. induction 1 as [|k l Hl IH Hk]; constructor; [|done].
  intros Hin. rewrite list.Forall_forall in Hk. exact (before_irrefl _ (Hk k Hin)).
Qed.

Lemma page_uses_keys i cursor l :
  l ≡ₚ left_to_read cursor (tables i) -> StronglySorted before (row_key key <$> l) -> length l <= keys_left cursor.
Proof.
  intros Hl Hs. rewrite <- (length_fmap (row_key key) l). apply submseteq_length, NoDup_submseteq.
  - by apply strongly_sorted_nodup.
  - intros k (r & -> & Hr)%list_elem_of_fmap. rewrite Hl in Hr. apply elem_of_left in Hr as [[? ?] ?].
    apply list_elem_of_filter. eauto.
Qed.

Lemma page_moves_on i cursor l l0 r :
  l ≡ₚ left_to_read cursor (tables i) -> StronglySorted before (row_key key <$> l) -> ps < length l ->
  take ps l = (l0 ++ [r])%list -> past_cursor cursor (row_key key r) ->
  ps + keys_left (Some (row_key key r)) <= keys_left cursor.
Proof.
  intros Hl Hs Hlen Er Hpast. replace ps with (length (row_key key <$> take ps l))
    by (rewrite length_fmap, length_take; lia).
  unfold keys_left. rewrite <- length_app. apply submseteq_length, NoDup_submseteq.
  - apply list.NoDup_app. split; [|split; [|by apply list.NoDup_filter]].
    + apply strongly_sorted_nodup. rewrite <- (take_drop ps l), fmap_app in Hs. by apply StronglySorted_app_1_l in Hs.
    + intros k Hk [Hb _]%list_elem_of_filter. cbn in Hb.
      rewrite <- (take_drop ps l), fmap_app in Hs. apply StronglySorted_app_1_l in Hs.
      rewrite Er, fmap_app in Hs, Hk. apply StronglySorted_app in Hs as (Hx & _ & _).
      apply elem_of_app in Hk as [Hk| ->%list_elem_of_singleton]; [|exact (before_irrefl _ Hb)].
      exact (before_irrefl (row_key key r) (before_trans _ _ _ Hb (Hx k (row_key key r) Hk ltac:(cbn; set_solver)))).
  - intros k [(x & -> & Hx)%list_elem_of_fmap|[Hb Hk]%list_elem_of_filter]%elem_of_app.
    + assert (x ∈ left_to_read cursor (tables i)) as Hin by (rewrite <- Hl, <- (take_drop ps l); set_solver).
      apply elem_of_left in Hin as [[? ?] ?]. apply list_elem_of_filter. eauto.
    + apply list_elem_of_filter. split; [|done]. destruct cursor; [|done]. cbn in *. eapply before_trans; eauto.
Qed.

Lemma loop_finishes fuel i cursor :
  cursor_ok cursor -> (keys_left cursor < fuel * ps)%nat ->
  exists pages, page_loop fuel (transport cap tables) ks i cursor = (pages, Finished) /\
    (length pages = 1 \/ (pred (length pages) * ps < keys_left cursor)%nat).
Proof.
  revert i cursor. induction fuel as [|fuel IH]; intros i cursor Hc Hf; [lia|].
  destruct (page_step fuel i cursor Hc) as (l & Hl & Hs & [[Hle E]|[Hgt (l0 & r & Er & Hc' & Hpast & E)]]); rewrite E.
  - eexists; split; [done|]. by left.
  - pose proof (page_moves_on _ _ _ _ _ Hl Hs Hgt Er Hpast). pose proof (page_uses_keys _ _ _ Hl Hs).
    destruct (IH (S i) (Some (row_key key r)) Hc' ltac:(lia)) as (pages & -> & Hn).
    eexists; split; [done|]. right. cbn. destruct pages as [|x pages]; cbn in *; lia.
Qed.

End Universe.

(** *** On a table that does not change *)

Lemma nodup_key_inj {A B} (f : A -> B) (l : list A) x y :
  NoDup (f <$> l) -> x ∈ l -> y ∈ l -> f x = f y -> x = y.
Proof.
  intros Hn Hx Hy E. induction l as [|z l IH]; [by apply elem_of_nil in Hx|].
  cbn in Hn. apply list.NoDup_cons in Hn as [Hz Hn].
  apply list.elem_of_cons in Hx as [->|Hx], Hy as [->|Hy]; [done| | |auto].
  - destruct Hz. rewrite E. by apply list_elem_of_fmap_2.
  - destruct Hz. rewrite <- E. by apply list_elem_of_fmap_2.
Qed.

Definition pages_of (n size : nat) : nat := Nat.max 1 ((n + size - 1) / size).

Lemma pages_of_spec n size pages rest :
  1 <= size -> n = (pred pages * size + rest)%nat -> (rest <= size)%nat ->
  pages = 1 \/ (pred pages * size < n)%nat -> 1 <= pages -> pages = pages_of n size.
Proof.
  clear. intros Hs Hn Hr [->|Hlt] Hp; unfold pages_of.
  - cbn in Hn. subst n. assert ((rest + size - 1) / size < 2)%nat by (apply Nat.Div0.div_lt_upper_bound; lia). lia.
  - assert ((n + size - 1) / size = pages)%nat; [|lia].
    symmetry. apply (Nat.div_unique _ _ _ (n + size - 1 - size * pages)); [|nia]. destruct pages; cbn in *; nia.
Qed.

Section Still.
Context (rows : list row) (Hrows : forall i, tables i ≡ₚ rows).

Lemma still_read fuel i :
  (length (filter (fun r => p r = true) rows) < fuel * ps)%nat ->
  exists pages, page_loop fuel (transport cap tables) ks i None = (pages, Finished) /\
    concat pages ≡ₚ filter (fun r => p r = true) rows /\
    StronglySorted before (row_key key <$> concat pages) /\
    length pages = pages_of (length (filter (fun r => p r = true) rows)) ps.
Proof.
  intros Hf. destruct statement_fields as (_ & _ & Hps). set (all := filter (fun r => p r = true) rows) in *.
  assert (NoDup (row_key key <$> all)) as Hnd.
  { destruct (Htables 0) as [_ Hu]. unfold all. by rewrite <- (Hrows 0). }
  assert (forall j r, r ∈ tables j /\ p r = true <-> r ∈ all) as Hall.
  { intros j r. unfold all. rewrite list_elem_of_filter, (Hrows j). tauto. }
  assert (keys_left (row_key key <$> all) None = length all) as Ek.
  { by rewrite keys_left_all, length_fmap. }
  destruct (loop_finishes (row_key key <$> all) Hnd) with (fuel := fuel) (i := i) (cursor := @None (list value))
    as (pages & Eloop & Hlen); [|done|by rewrite Ek|].
  { intros j r Hr Hp. apply list_elem_of_fmap_2, (Hall j). done. }
  exists pages. split; [done|]. pose proof (loop_walked _ _ None _ I Eloop) as W. rewrite Ek in Hlen.
  assert (concat pages ≡ₚ all) as Hperm.
  { apply NoDup_Permutation.
    - eapply NoDup_fmap_1, strongly_sorted_nodup, walked_sorted, W.
    - by eapply NoDup_fmap_1.
    - intros r. split.
      + intros (j & _ & Hr)%(walked_found _ _ _ W). by apply (Hall j).
      + intros Hr. assert (row_key key r ∈ row_key key <$> concat pages) as (r' & E & Hr')%list_elem_of_fmap.
        { apply (walked_kept _ _ _ W); [done|]. intros j _. exists r. destruct (proj2 (Hall j r) Hr). done. }
        replace r with r'; [done|]. eapply nodup_key_inj; [exact Hnd| |exact Hr|done].
        apply (walked_found _ _ _ W) in Hr' as (j & _ & ?). by apply (Hall j). }
  split; [done|]. split; [apply W|]. destruct (walked_full _ _ _ W) as (full & rest & -> & Hrest & Hfull).
  apply (pages_of_spec _ _ _ (length rest)); [lia| |done|done|rewrite length_app; cbn; lia].
  rewrite <- Hperm, List.concat_app, !length_app. cbn. rewrite app_nil_r. replace (pred _) with (length full) by lia.
  f_equal. clear -Hfull. induction Hfull as [|x full E Hfull IH]; cbn; [done|]. by rewrite length_app, IH, E.
Qed.

End Still.

End OneRead.

(** A transport that leaves room for the row that says more follow. *)
Definition cap_allows (cap : option nat) (n : Z) : Prop :=
  match cap with None => True | Some c => (n <= Z.of_nat c)%Z end.

Lemma statement_made select_from key (where_ : option (list (string * value))) where_any page_size :
  (1 <= page_size)%Z -> exists ks, keyset_statement select_from key where_ where_any page_size = Ok ks.
Proof.
  intros Hp. unfold keyset_statement. rewrite (proj2 (Z.ltb_ge _ _)) by lia.
  destruct (equality_conditions _ _). destruct (foldl _ _ _). eauto.
Qed.

Lemma cap_allows_nat cap page_size :
  (1 <= page_size)%Z -> cap_allows cap (page_size + 1) ->
  match cap with None => True | Some n => (S (Z.to_nat page_size) <= n)%nat end.
Proof. destruct cap; cbn; [lia|done]. Qed.

(** ** The key-led read *)

Definition led (lead : string) (values : list value) (table : list row) : list row :=
  filter (fun r => existsb (sql_equal (column_of r lead)) values = true) table.

Lemma sql_equal_spec (a b : value) : sql_equal a b = true <-> exists x, a = Some x /\ b = Some x.
Proof.
  destruct a as [x|], b as [y|]; cbn; rewrite ?bool_decide_eq_true; split; try done; try naive_solver.
Qed.

Lemma led_spec (r : row) lead (values : list value) :
  existsb (sql_equal (column_of r lead)) values = true <-> exists x, column_of r lead = Some x /\ Some x ∈ values.
Proof.
  rewrite existsb_exists. setoid_rewrite sql_equal_spec. setoid_rewrite <- list_elem_of_In. naive_solver.
Qed.

Lemma led_app lead (a b : list value) table :
  NoDup (a ++ b)%list -> led lead (a ++ b)%list table ≡ₚ (led lead a table ++ led lead b table)%list.
Proof.
  intros (_ & Hab & _)%list.NoDup_app. unfold led. induction table as [|r t IH]; [done|].
  rewrite !filter_cons, existsb_app.
  destruct (existsb _ a) eqn:Ea, (existsb _ b) eqn:Eb; cbn [orb];
    rewrite ?(decide_True _ _ eq_refl), ?(decide_False (P := false = true)) by done.
  - apply led_spec in Ea as (x & E & Ha), Eb as (y & E' & Hb). rewrite E in E'. injection E' as <-. by destruct (Hab (Some x)).
  - by rewrite IH.
  - by rewrite IH, Permutation_middle.
  - done.
Qed.

#[local] Instance led_perm lead values : Proper ((≡ₚ) ==> (≡ₚ)) (led lead values).
Proof. intros t1 t2 Ht. unfold led. by rewrite Ht. Qed.

Section LedReads.
Context (lr : LedRead) (lead : string) (rest : list string) (Hpk : lr_pk_columns lr = lead :: rest)
  (cap : option nat) (tables : nat -> list row) (rows : list row) (Hrows : forall i, tables i ≡ₚ rows)
  (Hkeyed : keyed (fun _ => true) (lead :: rest) rows).

(** The cap the transport states is one it keeps to: it may answer more rows, never fewer. *)
Definition cap_stated : Prop :=
  match lr_row_cap lr with
  | None => cap = None
  | Some c => (2 <= c)%Z /\ cap_allows cap c
  end.

Lemma one_value_keyed v j : keyed (named (Some [(lead, v)]) None) rest (tables j).
Proof.
  destruct Hkeyed as [Hv Hu]. assert (NoDup (row_key (lead :: rest) <$> tables j)) as Hu'.
  { rewrite (Hrows j). rewrite (filter_ext_in _ (fun _ => True)) in Hu by done.
    replace (filter (fun _ : row => True) rows) with rows in Hu; [done|].
    clear. induction rows as [|r l IH]; [done|]. by rewrite filter_cons_True, <- IH. }
  split.
  - intros r Hr _. rewrite (Hrows j) in Hr. specialize (Hv r Hr eq_refl). by inversion Hv.
  - apply NoDup_fmap_2_strong.
    + intros x y [Hx Hxt]%list_elem_of_filter [Hy Hyt]%list_elem_of_filter E.
      eapply nodup_key_inj; [exact Hu'|done|done|]. cbn. change (map (column_of ?r) rest) with (row_key rest r).
      unfold row_key in *. rewrite E. f_equal.
      unfold named in Hx, Hy. cbn in Hx, Hy. rewrite !andb_true_r in *.
      apply sql_equal_spec in Hx as (a & -> & Ha), Hy as (b & -> & Hb). congruence.
    + apply list.NoDup_filter. by eapply NoDup_fmap_1.
Qed.

Lemma paged_exact fuel v c t :
  (2 <= c)%Z -> cap_allows cap c -> (length rows < fuel)%nat ->
  exists rs t', paged fuel (transport cap tables) lr v c t = Some (Ok rs, t') /\ rs ≡ₚ led lead [v] rows.
Proof.
  intros Hc Hcap Hf. unfold paged, read_keyset_pages, keyset_pages. rewrite Hpk. cbn [head_of tail statements].
  edestruct (statement_made ("SELECT " ++ lr_projection lr ++ " FROM " ++ lr_table lr) rest (Some [(lead, v)]) None
    (c - 1)) as (ks & Eks); [lia|].
  destruct (still_read _ _ _ _ _ _ Eks cap (cap_allows_nat cap (c - 1) ltac:(lia)
    ltac:(by replace (c - 1 + 1)%Z with c by lia)) tables (one_value_keyed v) rows Hrows fuel (statements t))
    as (pages & Eloop & Hperm & _ & _).
  { pose proof (length_filter (fun r => named (Some [(lead, v)]) None r = true) rows). nia. }
  rewrite Eks, Eloop. do 2 eexists. split; [done|]. cbn [kr_rows]. rewrite Hperm. unfold led. apply reflexive_eq.
  apply filter_ext_in. intros r _. unfold named. cbn. by rewrite !andb_true_r, orb_false_r.
Qed.

Lemma batch_exact depth fuel values t :
  cap_stated -> (length values < depth)%nat -> (length rows < fuel)%nat -> NoDup values ->
  exists rs t', batch depth fuel (transport cap tables) lr values t = Some (Ok rs, t') /\ rs ≡ₚ led lead values rows.
Proof.
  intros Hcap. revert values t. induction depth as [|depth IH]; intros values t Hd Hf Hn; [lia|].
  set (l := led lead values (tables (statements t))). assert (l ≡ₚ led lead values rows) as Hl.
  { unfold l. by rewrite (Hrows _). }
  cbn [batch]. unfold transport at 1.
  assert (rows_of (led_by_statement lr values) (tables (statements t)) = l) as ->.
  { unfold rows_of, led_by_statement, l, led. cbn [st_params st_conditions st_order st_limit]. rewrite Hpk.
    apply filter_ext_in. intros r _. cbn. by rewrite andb_true_r. }
  unfold cap_stated in Hcap. destruct (lr_row_cap lr) as [c|]; [|subst cap; eauto].
  destruct Hcap as [Hc Hcap]. cbn [statements splits paged_values].
  destruct (Z.ltb_spec (Z.of_nat (length (match cap with None => l | Some n => take n l end))) c) as [Hlt|Hge].
  { do 2 eexists. split; [done|]. destruct cap as [n|]; [|done]. cbn in Hcap. rewrite length_take in Hlt.
    rewrite take_ge by lia. done. }
  destruct (Nat.ltb_spec 1 (length values)) as [Hmany|Hone].
  - pose proof (Nat.div2_decr (length values) (pred (length values)) ltac:(lia)) as Hhalf.
    assert (0 < Nat.div2 (length values)) by (rewrite Nat.div2_div; apply Nat.div_str_pos; lia).
    pose proof Hn as Hsplit. rewrite <- (take_drop (Nat.div2 (length values)) values) in Hsplit.
    pose proof (proj1 (list.NoDup_app _ _) Hsplit) as (Hn1 & _ & Hn2).
    destruct (IH (take (Nat.div2 (length values)) values)
      {| statements := S (statements t); splits := S (splits t); paged_values := paged_values t |})
      as (rs1 & t1 & -> & H1); [rewrite length_take; lia|done|done|].
    destruct (IH (drop (Nat.div2 (length values)) values) t1) as (rs2 & t2 & -> & H2);
      [rewrite length_drop; lia|done|done|].
    do 2 eexists. split; [done|]. by rewrite H1, H2, <- led_app, take_drop.
  - destruct values as [|v [|w values]]; [|by apply paged_exact|cbn in *; lia].
    exfalso. assert (l = []) as El by (unfold l, led; clear; induction (tables _); [done|by rewrite filter_cons_False]).
    rewrite El in Hge. destruct cap; rewrite ?take_nil in Hge; cbn in Hge; lia.
Qed.

Lemma batches_exact fuel chunks acc t :
  cap_stated -> (length rows < fuel)%nat -> NoDup (concat chunks) ->
  exists rs t', batches fuel (transport cap tables) lr chunks acc t = Some (Ok rs, t') /\
    rs ≡ₚ (acc ++ led lead (concat chunks) rows)%list.
Proof.
  intros Hcap Hf. revert acc t. induction chunks as [|values chunks IH]; intros acc t Hn; cbn [batches concat] in *.
  - do 2 eexists. split; [done|]. replace (led lead [] rows) with (@nil row); [by rewrite app_nil_r|].
    unfold led. clear. induction rows as [|r l IH]; [done|by rewrite filter_cons_False].
  - pose proof (proj1 (list.NoDup_app _ _) Hn) as (Hn1 & _ & Hn2).
    destruct (batch_exact (S (length values)) fuel values t Hcap ltac:(lia) Hf Hn1) as (more & t1 & -> & H1).
    destruct (IH (acc ++ more)%list t1 Hn2) as (rs & t2 & -> & H2).
    do 2 eexists. split; [done|]. by rewrite H2, led_app, H1, (assoc_L (++)%list).
Qed.

End LedReads.

Lemma concat_slices fuel size (values : list value) :
  (1 <= size)%nat -> (length values <= fuel)%nat -> concat (slices fuel size values) = values.
Proof.
  intros Hs. revert values. induction fuel as [|fuel IH]; intros [|v values] Hl; cbn in *; try done; [lia|].
  rewrite IH by (rewrite length_drop; cbn; lia). apply (take_drop size (v :: values)).
Qed.

End Paging.

(** ** What the reads promise *)

Section Promises.
Context {V : Type} `{EqDecision V, SqlOrder V}.

Abbreviation value := (option V).
Abbreviation row := (gmap string value).

(** (C24) Whatever happens to the table between the statements of a keyset read, as long as at every statement the
    key is there and unique among the rows named, the keys ever seen are [universe] and the transport leaves
    room for one row more than a page: the read ends, after at most one statement more than the pages the
    universe fills, with rows in strict key order (so no key twice), each a row it named when its statement ran,
    and it passes over no key that had a row at every one of its statements. *)
Theorem keyset_read_is_complete cap (tables : nat -> list row) i fuel select_from key where_ where_any page_size
  universe :
  (1 <= page_size)%Z -> cap_allows cap (page_size + 1) ->
  (forall j, keyed (named where_ where_any) key (tables j)) ->
  NoDup universe ->
  (forall j r, r ∈ tables j -> named where_ where_any r = true -> row_key key r ∈ universe) ->
  (length universe < fuel * Z.to_nat page_size)%nat ->
  exists read,
    read_keyset_pages fuel (transport cap tables) i select_from key where_ where_any page_size = Some (Ok read) /\
    (pred (kr_statements read) * Z.to_nat page_size <= length universe)%nat /\
    StronglySorted before (row_key key <$> kr_rows read) /\
    (forall r, r ∈ kr_rows read ->
       exists j, (i <= j < i + kr_statements read)%nat /\ r ∈ tables j /\ named where_ where_any r = true) /\
    (forall k, (forall j, (i <= j < i + kr_statements read)%nat ->
        exists r, r ∈ tables j /\ named where_ where_any r = true /\ row_key key r = k) ->
       k ∈ row_key key <$> kr_rows read).
Proof.
  intros Hps Hcap Hkeyed Hnd Huni Hfuel. unfold read_keyset_pages, keyset_pages.
  destruct (statement_made select_from key where_ where_any page_size Hps) as (ks & Eks). rewrite Eks.
  pose proof (cap_allows_nat cap page_size Hps Hcap) as Hcap'.
  destruct (loop_finishes _ _ _ _ _ _ Eks cap Hcap' tables Hkeyed universe Hnd Huni fuel i None I)
    as (pages & Eloop & Hlen); [by rewrite keys_left_all|].
  destruct (loop_walked _ _ _ _ _ _ Eks cap Hcap' tables Hkeyed fuel i None pages I Eloop) as [Ws _ Wf Wk _].
  rewrite Eloop. eexists. split; [done|]. cbn [kr_statements kr_rows]. rewrite keys_left_all in Hlen.
  split; [destruct Hlen as [->|]; cbn; lia|]. split; [done|]. split; [done|]. intros k. by apply Wk.
Qed.

(** A page that ends where the rows end is the last one: rows that fill [m] pages are read by [m] statements, and
    no empty page follows. *)
Theorem no_empty_page_on_a_boundary cap (rows : list row) select_from key page_size m :
  (1 <= page_size)%Z -> cap_allows cap (page_size + 1) -> keyed (fun _ => true) key rows -> (1 <= m)%nat ->
  length rows = (m * Z.to_nat page_size)%nat ->
  exists pages, keyset_pages (S (length rows)) (transport cap (fun _ => rows)) 0 select_from key None None page_size
                = (pages, Finished) /\ length pages = m /\ concat pages ≡ₚ rows.
Proof.
  intros Hps Hcap Hkeyed Hm Hlen. unfold keyset_pages.
  destruct (statement_made (V := V) select_from key None None page_size Hps) as (ks & Eks). rewrite Eks.
  assert (filter (fun r => named None None r = true) rows = rows) as Eall.
  { clear. induction rows as [|r l IH]; [done|]. by rewrite filter_cons_True, IH. }
  edestruct (still_read _ _ _ _ _ _ Eks cap (cap_allows_nat cap page_size Hps Hcap) (fun _ => rows) (fun _ => Hkeyed)
    rows (fun _ => reflexivity _) (S (length rows)) 0) as (pages & Eloop & Hperm & _ & Hn);
    rewrite Eall in *; [nia|].
  exists pages. split; [done|]. split; [|done]. rewrite Hn, Hlen. unfold pages_of.
  replace (m * Z.to_nat page_size + Z.to_nat page_size - 1)%nat
    with (m * Z.to_nat page_size + (Z.to_nat page_size - 1))%nat by lia.
  rewrite Nat.div_add_l, Nat.div_small by lia. lia.
Qed.

(** (C25) A key-led read answers every row of the table whose leading key is one of the values, each once, whatever
    order the database answers a statement in and wherever the transport cuts, as long as it never cuts below the
    cap it states. *)
Theorem led_read_is_complete (lr : LedRead) lead rest cap (tables : nat -> list row) rows fuel (values : list value)
  max_values :
  lr_pk_columns lr = lead :: rest -> cap_stated lr cap -> (forall i, tables i ≡ₚ rows) ->
  keyed (fun _ => true) (lead :: rest) rows -> NoDup values -> (1 <= max_values)%Z -> (length rows < fuel)%nat ->
  exists rs t, fetch_led_by fuel (transport cap tables) lr values max_values = Some (Ok rs, t) /\
    rs ≡ₚ filter (fun r => existsb (sql_equal (column_of r lead)) values = true) rows.
Proof.
  intros Hpk Hcap Hrows Hkeyed Hn Hmax Hf. unfold fetch_led_by. rewrite (proj2 (Z.ltb_ge _ _)) by lia.
  replace (match lr_row_cap lr with Some cap => (cap <? 2)%Z | None => false end) with false.
  2: { unfold cap_stated in Hcap. destruct (lr_row_cap lr); [|done]. symmetry. apply Z.ltb_ge. lia. }
  pose proof (concat_slices (length values) (Z.to_nat max_values) values ltac:(lia) ltac:(lia)) as Ec.
  destruct (batches_exact lr lead rest Hpk cap tables rows Hrows Hkeyed fuel
    (slices (length values) (Z.to_nat max_values) values) []
    {| statements := 0; splits := 0; paged_values := 0 |} Hcap Hf) as (rs & t & E & Hrs); [by rewrite Ec|].
  exists rs, t. split; [done|]. by rewrite Hrs, Ec.
Qed.

End Promises.

(** ** Runs *)

Definition asset_row (customer id : Z) : gmap string (option Z) :=
  <["customer_id" := Some customer]> (<["id" := Some id]> ∅).

(** Three rows of customer 1 in pages of one; the second is gone when the second statement runs. *)
Definition shrinking (i : nat) : list (gmap string (option Z)) :=
  match i with
  | 0 => [asset_row 1 30; asset_row 2 10; asset_row 1 10; asset_row 1 20]
  | _ => [asset_row 1 30; asset_row 2 10; asset_row 1 10]
  end.

Definition shrinking_read : option (result (KeysetRead Z) KeysetError) :=
  read_keyset_pages 4 (transport (Some 2) shrinking) 0 "SELECT * FROM assets" ["id"]
    (Some [("customer_id", Some 1%Z)]) None 1.

Definition page_texts : list string :=
  match keyset_statement "SELECT * FROM assets" ["id"; "part"] (Some [("customer_id", Some 1%Z)])
          (Some [("kind", ("text[]", [Some 5%Z; Some 6%Z]))]) 999 with
  | Ok ks => [sql_text as_written None (page ks None); sql_text as_written None (page ks (Some [Some 7%Z; Some 8%Z]))]
  | Err _ => []
  end.

Example page_texts_are :
  page_texts =
  ["SELECT * FROM assets WHERE customer_id = $1 AND kind = ANY($2::text[]) ORDER BY id, part LIMIT 1000";
   "SELECT * FROM assets WHERE customer_id = $1 AND kind = ANY($2::text[]) AND (id, part) > ($3, $4) ORDER BY id, part LIMIT 1000"].
Proof. vm_compute. reflexivity. Qed.

Example shrinking_rows : shrinking_read = Some (Ok {| kr_rows := [asset_row 1 10; asset_row 1 30]; kr_statements := 2 |}).
Proof. vm_compute. reflexivity. Qed.

#[export] Instance keyed_dec `{EqDecision V} (p : gmap string (option V) -> bool) key table :
  Decision (Forall (fun r => p r = true -> Forall is_Some (row_key key r)) table
            /\ NoDup (row_key key <$> filter (fun r => p r = true) table)).
Proof. apply _. Defined.

Lemma keyed_check `{EqDecision V} (p : gmap string (option V) -> bool) key table :
  bool_decide (Forall (fun r => p r = true -> Forall is_Some (row_key key r)) table
            /\ NoDup (row_key key <$> filter (fun r => p r = true) table)) = true ->
  keyed p key table.
Proof.
  intros [Hf Hn]%bool_decide_eq_true. split; [|done]. rewrite list.Forall_forall in Hf. auto.
Qed.

Lemma keyset_read_is_complete_witness :
  exists read,
    read_keyset_pages 4 (transport (Some 2) shrinking) 0 "SELECT * FROM assets" ["id"]
      (Some [("customer_id", Some 1%Z)]) None 1 = Some (Ok read) /\
    forall k, (forall j, (0 <= j < 0 + kr_statements read)%nat ->
        exists r, r ∈ shrinking j /\ named (Some [("customer_id", Some 1%Z)]) None r = true /\ row_key ["id"] r = k) ->
       k ∈ row_key ["id"] <$> kr_rows read.
Proof.
  edestruct (keyset_read_is_complete (Some 2) shrinking 0 4 "SELECT * FROM assets" ["id"]
    (Some [("customer_id", Some 1%Z)]) None 1 [[Some 10%Z]; [Some 20%Z]; [Some 30%Z]])
    as (read & E & _ & _ & _ & Hk).
  - lia.
  - cbn. lia.
  - intros [|j]; apply keyed_check; vm_compute; reflexivity.
  - apply (bool_decide_eq_true_1 _). vm_compute. reflexivity.
  - intros j r Hr _. destruct j; repeat (apply list.elem_of_cons in Hr as [->|Hr]; [vm_compute; set_solver|]);
      by apply elem_of_nil in Hr.
  - cbn. lia.
  - exists read. split; [exact E|exact Hk].
Defined.

(** A customer with three rows against a cap of two, among values that split. *)
Definition led_assets : LedRead :=
  {| lr_table := "assets"; lr_projection := "customer_id, id"; lr_pk_columns := ["customer_id"; "id"];
     lr_array := "bigint[]"; lr_row_cap := Some 2%Z |}.

Definition led_rows : list (gmap string (option Z)) :=
  [asset_row 1 30; asset_row 2 10; asset_row 1 10; asset_row 3 5; asset_row 1 20].

Lemma led_read_is_complete_witness :
  exists rs t, fetch_led_by 6 (transport (Some 2) (fun _ => led_rows)) led_assets [Some 1%Z; Some 3%Z; Some 9%Z] 2
               = Some (Ok rs, t) /\
    rs ≡ₚ [asset_row 1 30; asset_row 1 10; asset_row 3 5; asset_row 1 20].
Proof.
  edestruct (led_read_is_complete led_assets "customer_id" ["id"] (Some 2) (fun _ => led_rows) led_rows 6
    [Some 1%Z; Some 3%Z; Some 9%Z] 2) as (rs & t & E & Hp).
  - reflexivity.
  - split; cbn; lia.
  - reflexivity.
  - apply keyed_check. vm_compute. reflexivity.
  - apply (bool_decide_eq_true_1 _). vm_compute. reflexivity.
  - lia.
  - cbn. lia.
  - exists rs, t. split; [exact E|]. etransitivity; [exact Hp|]. vm_compute. reflexivity.
Defined.
