(* ===== verification/ClientIp.v ===== *)
(** * Client addresses behind trusted proxies

    Models [iam/clientip.py]: the trusted networks of a deployment ([parse_trusted_cidrs]), whether
    the peer of a connection is one of its proxies ([is_trusted_peer]) and which entry of
    [X-Forwarded-For] is the caller ([resolve_client_ip] in both modes, [_rightmost_untrusted]).

    The addresses are those of Python's [ipaddress]: [ip_address] and the strict [ip_network], IPv4
    and IPv6 with its compressed forms, its embedded IPv4 suffix and its scope id.  Strings are
    ASCII.  The warning logged for a peer that is not a proxy is not modelled. *)

From Stdlib Require Import Ascii String Bool List NArith ZArith Lia.
From stdpp Require Import base list strings.
From S2P Require Import Prelude.

Local Open Scope Z_scope.

(** ** [ipaddress] *)

Inductive IpVersion : Type := V4 | V6.

#[export] Instance IpVersion_eq_dec : EqDecision IpVersion.
Proof. solve_decision. Defined.

Definition max_prefixlen (v : IpVersion) : Z := match v with V4 => 32 | V6 => 128 end.

(** [_ALL_ONES]. *)
Definition all_ones (v : IpVersion) : Z := 2 ^ max_prefixlen v - 1.

Record IpAddress : Type := { ip_version : IpVersion; ip_int : Z }.

Record IpNetwork : Type := { net_version : IpVersion; net_address : Z; net_mask : Z }.

Inductive IpError : Type :=
  | AddressValueError
  | NetmaskValueError
  | ValueError
  | IndexError.

(** The digits of a nonempty string in a base, [None] when one is not a digit of it. *)
Fixpoint digits_in (digit : ascii -> option Z) (base acc : Z) (s : string) : option Z :=
  match s with
  | EmptyString => Some acc
  | String c s' => match digit c with Some d => digits_in digit base (base * acc + d) s' | None => None end
  end.

Definition hex_digit (c : ascii) : option Z :=
  let n := Z.of_N (N_of_ascii c) in
  if (48 <=? n) && (n <=? 57) then Some (n - 48)
  else if (65 <=? n) && (n <=? 70) then Some (n - 55)
  else if (97 <=? n) && (n <=? 102) then Some (n - 87)
  else None.

Definition parse_octet (s : string) : option Z :=
  if negb (str_truthy s) then None
  else match digits_in py_digit 10 0 s with
       | None => None
       | Some octet_int =>
           if (3 <? String.length s)%nat then None
           else if negb (String.eqb s "0") && starts_with "0" s then None
           else if 255 <? octet_int then None else Some octet_int
       end.

Definition ip4_int_from_string (s : string) : option Z :=
  if negb (str_truthy s) then None
  else let octets := split_on "." s in
       if negb (length octets =? 4)%nat then None
       else match mapM parse_octet octets with
            | Some os => Some (foldl (fun acc o => 256 * acc + o) 0 os)
            | None => None
            end.

Definition parse_hextet (s : string) : option Z :=
  if negb (str_truthy s) then None
  else match digits_in hex_digit 16 0 s with
       | None => None
       | Some h => if (4 <? String.length s)%nat then None else Some h
       end.

(** The last part as two hextets when it is a dotted IPv4 address.  A hextet is written with four
    digits here, with as few as it needs there; it is read back to the same number. *)
Definition convert_ipv4_suffix (parts : list string) : option (list string) :=
  match list.last parts with
  | Some suffix =>
      if str_has "." suffix then
        match ip4_int_from_string suffix with
        | Some i => Some (removelast parts ++ [hex_fixed 4 (Z.to_N (Z.land (Z.shiftr i 16) 65535));
                                               hex_fixed 4 (Z.to_N (Z.land i 65535))])%list
        | None => None
        end
      else Some parts
  | None => Some parts
  end.

(** The index of the one empty part that is not at an end; [None] when there are two. *)
Definition skip_index (parts : list string) : option (option nat) :=
  foldl (fun acc i =>
      match acc with
      | Some found =>
          if negb (str_truthy (default "" (parts !! i))) then
            match found with Some _ => None | None => Some (Some i) end
          else acc
      | None => None
      end) (Some None) (seq 1 (length parts - 2)).

(** The hextets before the run of zeroes and after it; together at most eight. *)
Definition hextet_counts (parts : list string) : option (Z * Z * Z) :=
  let first_empty := negb (str_truthy (default "" (head parts))) in
  let last_empty := negb (str_truthy (default "" (list.last parts))) in
  match skip_index parts with
  | None => None
  | Some (Some i) =>
      let parts_hi := if first_empty then Z.of_nat i - 1 else Z.of_nat i in
      let parts_lo := if last_empty then Z.of_nat (length parts) - Z.of_nat i - 2
                      else Z.of_nat (length parts) - Z.of_nat i - 1 in
      if first_empty && negb (parts_hi =? 0) then None
      else if last_empty && negb (parts_lo =? 0) then None
      else let skipped := 8 - (parts_hi + parts_lo) in
           if skipped <? 1 then None else Some (parts_hi, skipped, parts_lo)
  | Some None =>
      if negb (length parts =? 8)%nat || first_empty || last_empty then None else Some (8, 0, 0)
  end.

Definition join_hextets (acc : Z) (hs : list Z) : Z := foldl (fun acc h => Z.lor (Z.shiftl acc 16) h) acc hs.

Definition ip6_int_from_string (s : string) : option Z :=
  if negb (str_truthy s) then None
  else let parts := split_on ":" s in
       if (length parts <? 3)%nat then None
       else match convert_ipv4_suffix parts with
            | None => None
            | Some parts =>
                if (9 <? length parts)%nat then None
                else match hextet_counts parts with
                     | None => None
                     | Some (hi, skipped, lo) =>
                         match mapM parse_hextet (take (Z.to_nat hi) parts),
                               mapM parse_hextet (drop (length parts - Z.to_nat lo) parts) with
                         | Some his, Some los =>
                             Some (join_hextets (Z.shiftl (join_hextets 0 his) (16 * skipped)) los)
                         | _, _ => None
                         end
                     end
            end.

(** [s.partition(c)]: the part before the first [c], and what follows it when there is one. *)
Fixpoint partition_at (c : ascii) (s : string) : string * option string :=
  match s with
  | EmptyString => (EmptyString, None)
  | String a s' =>
      if Ascii.eqb a c then (EmptyString, Some s')
      else let '(before, after) := partition_at c s' in (String a before, after)
  end.

Definition IPv4Address (s : string) : option IpAddress :=
  if str_has "/" s then None
  else option_map (fun i => {| ip_version := V4; ip_int := i |}) (ip4_int_from_string s).

Definition IPv6Address (s : string) : option IpAddress :=
  if str_has "/" s then None
  else match partition_at "%" s with
       | (_, Some scope_id) as p =>
           if negb (str_truthy scope_id) || str_has "%" scope_id then None
           else option_map (fun i => {| ip_version := V6; ip_int := i |}) (ip6_int_from_string (fst p))
       | (addr, None) => option_map (fun i => {| ip_version := V6; ip_int := i |}) (ip6_int_from_string addr)
       end.

(** [None] is the [ValueError]. *)
Definition ip_address (s : string) : option IpAddress :=
  match IPv4Address s with Some a => Some a | None => IPv6Address s end.

(** *** Networks *)

Definition ip_int_from_prefix (v : IpVersion) (prefixlen : Z) : Z :=
  Z.lxor (all_ones v) (Z.shiftr (all_ones v) prefixlen).

Fixpoint trailing_zeroes (fuel : nat) (n : Z) : Z :=
  match fuel with
  | O => 0
  | S fuel' => if Z.odd n then 0 else 1 + trailing_zeroes fuel' (Z.shiftr n 1)
  end.

(** [_prefix_from_ip_int] on 32 bits. *)
Definition prefix_from_ip_int (n : Z) : option Z :=
  let zeroes := trailing_zeroes 32 n in
  let prefixlen := 32 - zeroes in
  if Z.shiftr n zeroes =? Z.shiftl 1 prefixlen - 1 then Some prefixlen else None.

Definition prefix_from_prefix_string (v : IpVersion) (s : string) : option Z :=
  if negb (str_truthy s) then None
  else match digits_in py_digit 10 0 s with
       | Some prefixlen => if prefixlen <=? max_prefixlen v then Some prefixlen else None
       | None => None
       end.

Definition prefix_from_ip_string (s : string) : option Z :=
  match ip4_int_from_string s with
  | None => None
  | Some n => match prefix_from_ip_int n with
              | Some p => Some p
              | None => prefix_from_ip_int (Z.lxor n (all_ones V4))
              end
  end.

(** The prefix length a mask stands for; without a mask the whole address. *)
Definition make_netmask (v : IpVersion) (mask : option string) : option Z :=
  match mask with
  | None => Some (max_prefixlen v)
  | Some s =>
      match prefix_from_prefix_string v s, v with
      | Some p, _ => Some p
      | None, V4 => prefix_from_ip_string s
      | None, V6 => None
      end
  end.

Definition IPNetwork (v : IpVersion) (address : string) : result IpNetwork IpError :=
  let make (addr : string) (mask : option string) :=
    match (match v with V4 => IPv4Address addr | V6 => IPv6Address addr end) with
    | None => Err AddressValueError
    | Some a =>
        match make_netmask v mask with
        | None => Err NetmaskValueError
        | Some prefixlen =>
            let netmask := ip_int_from_prefix v prefixlen in
            if Z.land (ip_int a) netmask =? ip_int a
            then Ok {| net_version := v; net_address := ip_int a; net_mask := netmask |}
            else Err ValueError
        end
    end in
  match split_on "/" address with
  | [addr] => make addr None
  | [addr; mask] => make addr (Some mask)
  | _ => Err AddressValueError
  end.

(** [ip_network(address, strict=True)]. *)
Definition ip_network (address : string) : result IpNetwork IpError :=
  match IPNetwork V4 address with
  | Ok n => Ok n
  | Err ValueError => Err ValueError
  | Err _ => match IPNetwork V6 address with Ok n => Ok n | Err _ => Err ValueError end
  end.

(** [address in network], with the test of the version before it. *)
Definition in_network (a : IpAddress) (n : IpNetwork) : bool :=
  bool_decide (ip_version a = net_version n) && (Z.land (ip_int a) (net_mask n) =? net_address n).

(** ** [clientip.py] *)

Inductive ForwardedForMode : Type := HOPS | RIGHTMOST_UNTRUSTED.

Inductive cidr_setting : Type :=
  | OneString (s : string)
  | Several (items : list string).

Definition cidr_entries (raw : cidr_setting) : list string :=
  List.filter str_truthy
    (match raw with OneString s => map py_strip (split_on "," s) | Several items => map py_strip items end).

Fixpoint networks (entries : list string) : result (list IpNetwork) IpError :=
  match entries with
  | [] => Ok []
  | e :: es => do! n <- ip_network e ;; do! ns <- networks es ;; Ok (n :: ns)
  end.

Definition parse_trusted_cidrs (raw : option cidr_setting) : result (list IpNetwork) IpError :=
  match raw with None => Ok [] | Some r => networks (cidr_entries r) end.

Definition is_trusted_peer (peer : string) (trusted : list IpNetwork) : bool :=
  match ip_address peer with
  | None => false
  | Some addr => existsb (in_network addr) trusted
  end.

(** Every entry of every header line, stripped, without the empty ones. *)
Definition forwarded_candidates (forwarded_for : list string) : list string :=
  concat (map (fun v => List.filter str_truthy (map py_strip (split_on "," v))) forwarded_for).

(** The walk over the entries from the right; [nearest] is the leftmost trusted address seen. *)
Fixpoint untrusted_walk (nearest : string) (reversed : list string) (trusted : list IpNetwork) : string :=
  match reversed with
  | [] => nearest
  | entry :: rest =>
      match ip_address entry with
      | None => nearest
      | Some address => if existsb (in_network address) trusted then untrusted_walk entry rest trusted else entry
      end
  end.

Definition rightmost_untrusted (peer : string) (candidates : list string) (trusted : list IpNetwork) : string :=
  untrusted_walk peer (rev candidates) trusted.

(** [candidates[-n]]: from the right for a positive [n], from the left otherwise. *)
Definition negative_index (candidates : list string) (n : Z) : result string IpError :=
  let i := if 0 <? n then Z.of_nat (length candidates) - n else - n in
  if i <? 0 then Err IndexError
  else match candidates !! Z.to_nat i with Some c => Ok c | None => Err IndexError end.

Definition resolve_client_ip (peer : option string) (forwarded_for : list string) (trusted : list IpNetwork)
  (trusted_hops : Z) (mode : ForwardedForMode) : result (option string) IpError :=
  match peer with
  | None => Ok None
  | Some p =>
      if bool_decide (trusted = []) then Ok (Some p)
      else if negb (is_trusted_peer p trusted) then Ok (Some p)
      else
        let candidates := forwarded_candidates forwarded_for in
        match mode with
        | RIGHTMOST_UNTRUSTED => Ok (Some (rightmost_untrusted p candidates trusted))
        | HOPS =>
            if Z.of_nat (length candidates) <? trusted_hops then Ok (Some p)
            else do! c <- negative_index candidates trusted_hops ;; Ok (Some c)
        end
  end.

(** What [resolve_request_client_ip] reads off a request: the peer, when the transport has one, and
    every line of the header. *)
Record ForwardedRequest : Type := { client_host : option string; x_forwarded_for : list string }.

Definition resolve_request_client_ip (request : ForwardedRequest) (trusted : list IpNetwork) (trusted_hops : Z)
  (mode : ForwardedForMode) : result (option string) IpError :=
  resolve_client_ip (client_host request) (x_forwarded_for request) trusted trusted_hops mode.

(** ** Addresses are in range *)

Lemma lor_below a b m : 0 <= m -> 0 <= a < 2 ^ m -> 0 <= b < 2 ^ m -> 0 <= Z.lor a b < 2 ^ m.
Proof.
  intros Hm Ha Hb. split; [apply Z.lor_nonneg; lia|].
  rewrite <- (Z.mod_small a (2 ^ m)), <- (Z.mod_small b (2 ^ m)), <- !Z.land_ones, <- Z.land_lor_distr_l, Z.land_ones
    by lia. apply Z.mod_pos_bound. lia.
Qed.

Lemma digits_in_nonneg digit base acc s n :
  0 <= base -> (forall c d, digit c = Some d -> 0 <= d < base) -> 0 <= acc -> digits_in digit base acc s = Some n -> 0 <= n.
Proof.
  intros Hb Hd. revert acc. induction s as [|c s IH]; intros acc Ha; cbn; [intros [= <-]; done|].
  destruct (digit c) as [d|] eqn:E; [|done]. apply IH. specialize (Hd c d E). nia.
Qed.

Lemma digits_in_below digit base acc s n :
  0 <= base -> (forall c d, digit c = Some d -> 0 <= d < base) -> 0 <= acc -> digits_in digit base acc s = Some n ->
  n < (acc + 1) * base ^ Z.of_nat (String.length s).
Proof.
  intros Hb Hd. revert acc. induction s as [|c s IH]; intros acc Ha; cbn [digits_in String.length].
  - intros [= <-]. cbn. lia.
  - destruct (digit c) as [d|] eqn:E; [|done]. specialize (Hd c d E). intros Hn.
    apply IH in Hn; [|nia]. rewrite Nat2Z.inj_succ, Z.pow_succ_r by lia.
    assert (0 < base ^ Z.of_nat (String.length s)) by (apply Z.pow_pos_nonneg; lia). nia.
Qed.

Lemma py_digit_range c d : py_digit c = Some d -> 0 <= d < 10.
Proof. unfold py_digit. destruct (_ && _) eqn:E; [|done]. intros [= <-]. apply andb_true_iff in E as [?%N.leb_le ?%N.leb_le]. lia. Qed.

Lemma hex_digit_range c d : hex_digit c = Some d -> 0 <= d < 16.
Proof.
  unfold hex_digit. cbv zeta. generalize (Z.of_N (N_of_ascii c)) as n. intros n.
  do 3 (destruct (_ && _) eqn:E; [intros [= <-]; apply andb_true_iff in E as [?%Z.leb_le ?%Z.leb_le]; lia|clear E]).
  done.
Qed.

Lemma parse_octet_range s o : parse_octet s = Some o -> 0 <= o < 256.
Proof.
  unfold parse_octet. destruct (negb (str_truthy s)); [done|].
  destruct (digits_in _ _ _ s) as [n|] eqn:E; [|done]. apply digits_in_nonneg in E; [|lia|apply py_digit_range|lia].
  destruct (3 <? String.length s)%nat; [done|]. destruct (_ && _); [done|].
  destruct (Z.ltb_spec 255 n); intros; simplify_eq; lia.
Qed.

Lemma parse_hextet_range s h : parse_hextet s = Some h -> 0 <= h < 2 ^ 16.
Proof.
  unfold parse_hextet. destruct (negb (str_truthy s)); [done|].
  destruct (digits_in _ _ _ s) as [n|] eqn:E; [|done]. destruct (Nat.ltb_spec 4 (String.length s)) as [|Hl]; [done|].
  intros [= <-].
  split; [by apply digits_in_nonneg in E; [|lia|apply hex_digit_range|lia]|].
  apply digits_in_below in E; [|lia|apply hex_digit_range|lia].
  assert (16 ^ Z.of_nat (String.length s) <= 16 ^ 4) by (apply Z.pow_le_mono_r; lia). lia.
Qed.

Lemma ip4_int_range s n : ip4_int_from_string s = Some n -> 0 <= n < 2 ^ 32.
Proof.
  unfold ip4_int_from_string. destruct (negb (str_truthy s)); [done|].
  destruct (length (split_on "." s) =? 4)%nat eqn:El; cbn [negb]; [|done]. apply Nat.eqb_eq in El.
  destruct (mapM parse_octet _) as [os|] eqn:Em; [|done]. intros [= <-].
  apply mapM_Some_1 in Em. pose proof (Forall2_length _ _ _ Em) as Hlen. rewrite El in Hlen.
  assert (Forall (fun o => 0 <= o < 256) os) as Hos.
  { clear -Em. induction Em; constructor; [eapply parse_octet_range; eauto|done]. }
  destruct os as [|a [|b [|c [|d [|? ?]]]]]; try done. rewrite !list.Forall_cons in Hos. cbn. lia.
Qed.

Lemma join_hextets_range hs acc m :
  0 <= m -> 0 <= acc < 2 ^ m -> Forall (fun h => 0 <= h < 2 ^ 16) hs ->
  0 <= join_hextets acc hs < 2 ^ (m + 16 * Z.of_nat (length hs)).
Proof.
  unfold join_hextets. intros Hm Ha Hh. revert acc m Hm Ha. induction Hh as [|h hs Hh _ IH]; intros acc m Hm Ha; cbn [foldl length].
  - by replace (m + 16 * Z.of_nat 0) with m by lia.
  - replace (m + 16 * Z.of_nat (S (length hs))) with (m + 16 + 16 * Z.of_nat (length hs)) by lia.
    apply IH; [lia|]. apply lor_below; [lia| |].
    + rewrite Z.shiftl_mul_pow2, Z.pow_add_r by lia. nia.
    + split; [lia|]. assert (2 ^ 16 <= 2 ^ (m + 16)) by (apply Z.pow_le_mono_r; lia). lia.
Qed.

Lemma skip_index_range parts i : skip_index parts = Some (Some i) -> (1 <= i /\ i + 2 <= length parts)%nat.
Proof.
  unfold skip_index. set (step := fun acc j => _).
  assert (forall js acc, (forall k, acc = Some (Some k) -> (1 <= k /\ k + 2 <= length parts)%nat) ->
            Forall (fun j => (1 <= j /\ j + 2 <= length parts)%nat) js ->
            forall k, foldl step acc js = Some (Some k) -> (1 <= k /\ k + 2 <= length parts)%nat) as Hgen.
  { induction js as [|j js IH]; intros acc Hacc Hjs k; cbn [foldl]; [apply Hacc|].
    apply list.Forall_cons in Hjs as [Hj Hjs]. apply IH; [|done]. intros k'. unfold step.
    destruct acc as [[x|]|]; [..|done].
    - destruct (negb _); [done|]. intros [= <-]. by apply Hacc.
    - destruct (negb _); [|done]. intros [= <-]. done. }
  apply Hgen; [done|]. apply list.Forall_forall. intros j Hj%elem_of_seq. lia.
Qed.

Lemma hextet_counts_sum parts hi skipped lo :
  hextet_counts parts = Some (hi, skipped, lo) -> 0 <= hi /\ 0 <= skipped /\ 0 <= lo /\ hi + skipped + lo = 8.
Proof.
  unfold hextet_counts. destruct (skip_index parts) as [[i|]|] eqn:Es; [..|done].
  - apply skip_index_range in Es.
    destruct (negb (str_truthy (default "" (head parts)))), (negb (str_truthy (default "" (list.last parts))));
      cbn [andb]; repeat destruct (negb _); try done;
      match goal with |- context [?x <? 1] => destruct (Z.ltb_spec x 1); [done|] end; intros; simplify_eq; lia.
  - destruct (_ || _); [done|]. intros; simplify_eq; lia.
Qed.

Lemma hextets_range parts hs :
  mapM parse_hextet parts = Some hs -> length hs = length parts /\ Forall (fun h => 0 <= h < 2 ^ 16) hs.
Proof.
  intros Hm%mapM_Some_1. split; [by apply Forall2_length in Hm|].
  induction Hm; constructor; [eapply parse_hextet_range; eauto|done].
Qed.

Lemma ip6_int_range s n : ip6_int_from_string s = Some n -> 0 <= n < 2 ^ 128.
Proof.
  unfold ip6_int_from_string. destruct (negb (str_truthy s)); [done|]. destruct (_ <? 3)%nat; [done|].
  destruct (convert_ipv4_suffix _) as [parts|]; [|done]. destruct (9 <? _)%nat; [done|].
  destruct (hextet_counts parts) as [[[hi skipped] lo]|] eqn:Ec; [|done]. apply hextet_counts_sum in Ec.
  destruct (mapM parse_hextet (take _ _)) as [his|] eqn:Eh; [|done].
  destruct (mapM parse_hextet (drop _ _)) as [los|] eqn:El; [|done].
  apply hextets_range in Eh as [Lh Hh], El as [Ll Hl]. rewrite length_take in Lh. rewrite length_drop in Ll.
  intros [= <-].
  pose proof (join_hextets_range his 0 0 ltac:(lia) ltac:(cbn; lia) Hh) as Hhi.
  assert (0 <= Z.shiftl (join_hextets 0 his) (16 * skipped) < 2 ^ (16 * Z.of_nat (length his) + 16 * skipped)) as Hs.
  { rewrite Z.shiftl_mul_pow2, Z.pow_add_r by lia. rewrite Z.add_0_l in Hhi. nia. }
  pose proof (join_hextets_range los _ (16 * Z.of_nat (length his) + 16 * skipped) ltac:(lia) Hs Hl) as Hr.
  assert (2 ^ (16 * Z.of_nat (length his) + 16 * skipped + 16 * Z.of_nat (length los)) <= 2 ^ 128)
    by (apply Z.pow_le_mono_r; lia). lia.
Qed.

Lemma ip_address_range s a : ip_address s = Some a -> 0 <= ip_int a < 2 ^ max_prefixlen (ip_version a).
Proof.
  unfold ip_address, IPv4Address, IPv6Address. destruct (str_has "/" s); [done|].
  destruct (ip4_int_from_string s) as [n|] eqn:E4; cbn [option_map].
  { intros [= <-]. by apply ip4_int_range in E4. }
  destruct (partition_at "%" s) as [addr [scope_id|]]; cbn [fst]; [destruct (_ || _); [done|]|];
    (destruct (ip6_int_from_string addr) as [n|] eqn:E6; cbn [option_map]; [|done]);
    intros [= <-]; by apply ip6_int_range in E6.
Qed.

(** ** Networks are ranges *)

Lemma prefix_mask v p : 0 <= p <= max_prefixlen v ->
  ip_int_from_prefix v p = Z.lxor (Z.ones (max_prefixlen v)) (Z.ones (max_prefixlen v - p)).
Proof.
  intros Hp. unfold ip_int_from_prefix, all_ones. rewrite Z.sub_1_r, <- Z.ones_equiv, Z.shiftr_div_pow2 by lia.
  by rewrite Z.ones_div_pow2 by lia.
Qed.

Lemma mask_bits w k i : 0 <= k <= w -> 0 <= i ->
  Z.testbit (Z.lxor (Z.ones w) (Z.ones k)) i = (i <? w) && negb (i <? k).
Proof.
  intros Hk Hi. rewrite Z.lxor_spec.
  rewrite (Z.testbit_ones w i), (Z.testbit_ones k i) by lia.
  destruct (Z.leb_spec 0 i), (Z.ltb_spec i w), (Z.ltb_spec i k); cbn; lia || done.
Qed.

Lemma mask_land v w k : 0 <= k <= w -> 0 <= v < 2 ^ w ->
  Z.land v (Z.lxor (Z.ones w) (Z.ones k)) = v / 2 ^ k * 2 ^ k.
Proof.
  intros Hk Hv. rewrite <- Z.shiftr_div_pow2, <- Z.shiftl_mul_pow2, <- Z.ldiff_ones_r by lia.
  apply Z.bits_inj'. intros i Hi. rewrite Z.land_spec, Z.ldiff_spec, mask_bits, Z.testbit_ones by lia.
  destruct (Z.ltb_spec i w), (Z.leb_spec 0 i); cbn; [done|lia| |lia].
  destruct (Z.eq_dec v 0) as [->|]; [by rewrite Z.bits_0|].
  rewrite Z.bits_above_log2; [done|lia|]. apply Z.log2_lt_pow2; [lia|]. assert (2 ^ w <= 2 ^ i) by (apply Z.pow_le_mono_r; lia). lia.
Qed.

Lemma mask_value w k : 0 <= k <= w -> Z.lxor (Z.ones w) (Z.ones k) = 2 ^ w - 2 ^ k.
Proof.
  intros Hk. assert (Z.ldiff (Z.ones k) (Z.ones w) = 0) as Hsub.
  { apply Z.bits_inj'. intros i Hi. rewrite Z.ldiff_spec, !Z.testbit_ones, Z.bits_0 by lia.
    destruct (Z.leb_spec 0 i), (Z.ltb_spec i w), (Z.ltb_spec i k); cbn; lia || done. }
  replace (2 ^ w - 2 ^ k) with (Z.ones w - Z.ones k) by (rewrite !Z.ones_equiv; lia).
  rewrite Z.sub_nocarry_ldiff by done. apply Z.bits_inj'. intros i Hi.
  rewrite mask_bits, Z.ldiff_spec, !Z.testbit_ones by lia.
  destruct (Z.leb_spec 0 i), (Z.ltb_spec i w), (Z.ltb_spec i k); cbn; lia || done.
Qed.

Lemma trailing_zeroes_range fuel n : 0 <= trailing_zeroes fuel n <= Z.of_nat fuel.
Proof.
  revert n. induction fuel as [|fuel IH]; intros n; cbn [trailing_zeroes]; [lia|].
  destruct (Z.odd n); [lia|]. specialize (IH (Z.shiftr n 1)). lia.
Qed.

Lemma prefix_from_ip_int_range n p : prefix_from_ip_int n = Some p -> 0 <= p <= 32.
Proof.
  unfold prefix_from_ip_int. pose proof (trailing_zeroes_range 32 n). destruct (_ =? _); intros; simplify_eq; lia.
Qed.

Lemma make_netmask_range v mask p : make_netmask v mask = Some p -> 0 <= p <= max_prefixlen v.
Proof.
  unfold make_netmask. destruct mask as [s|]; [|intros [= <-]; destruct v; cbn; lia].
  destruct (prefix_from_prefix_string v s) as [q|] eqn:E.
  - intros [= <-]. unfold prefix_from_prefix_string in E. destruct (negb _); [done|].
    destruct (digits_in _ _ _ s) as [n|] eqn:Ed; [|done]. apply digits_in_nonneg in Ed; [|lia|apply py_digit_range|lia].
    destruct (Z.leb_spec n (max_prefixlen v)); simplify_eq; lia.
  - destruct v; [|done]. unfold prefix_from_ip_string. destruct (ip4_int_from_string s) as [n|]; [|done].
    destruct (prefix_from_ip_int n) as [q|] eqn:E1; [intros [= <-]; by apply prefix_from_ip_int_range in E1|].
    apply prefix_from_ip_int_range.
Qed.

(** A network is a whole number of blocks of its size from zero. *)
Record network_ok (n : IpNetwork) (k : Z) : Prop := {
  network_block : 0 <= k <= max_prefixlen (net_version n);
  network_mask : net_mask n = Z.lxor (Z.ones (max_prefixlen (net_version n))) (Z.ones k);
  network_range : 0 <= net_address n < 2 ^ max_prefixlen (net_version n);
  network_aligned : net_address n mod 2 ^ k = 0
}.

Lemma IPNetwork_ok v s n : IPNetwork v s = Ok n -> exists k, network_ok n k.
Proof.
  unfold IPNetwork.
  assert (forall addr mask,
    match (match v with V4 => IPv4Address addr | V6 => IPv6Address addr end) with
    | None => Err AddressValueError
    | Some a =>
        match make_netmask v mask with
        | None => Err NetmaskValueError
        | Some prefixlen =>
            if Z.land (ip_int a) (ip_int_from_prefix v prefixlen) =? ip_int a
            then Ok {| net_version := v; net_address := ip_int a; net_mask := ip_int_from_prefix v prefixlen |}
            else Err ValueError
        end
    end = Ok n -> exists k, network_ok n k) as Hmake.
  { intros addr mask. destruct (match v with V4 => _ | V6 => _ end) as [a|] eqn:Ea; [|done].
    assert (0 <= ip_int a < 2 ^ max_prefixlen v) as Hr.
    { destruct v; [unfold IPv4Address in Ea|unfold IPv6Address in Ea]; destruct (str_has "/" addr); try done.
      - destruct (ip4_int_from_string addr) eqn:E; simplify_eq/=. by apply ip4_int_range in E.
      - destruct (partition_at "%" addr) as [x [sc|]]; cbn [fst] in Ea; [destruct (_ || _); [done|]|];
          destruct (ip6_int_from_string x) eqn:E; simplify_eq/=; by apply ip6_int_range in E. }
    destruct (make_netmask v mask) as [p|] eqn:Em; [|done]. apply make_netmask_range in Em.
    rewrite prefix_mask by done. rewrite mask_land by lia.
    destruct (Z.eqb_spec (ip_int a / 2 ^ (max_prefixlen v - p) * 2 ^ (max_prefixlen v - p)) (ip_int a)) as [E|]; [|done].
    intros [= <-]. exists (max_prefixlen v - p). split; cbn; [lia|done|done|].
    rewrite <- E. apply Z.mod_mul. assert (0 < 2 ^ (max_prefixlen v - p)) by (apply Z.pow_pos_nonneg; lia). lia. }
  destruct (split_on "/" s) as [|addr [|mask [|? ?]]]; try done; apply Hmake.
Qed.

Lemma ip_network_ok s n : ip_network s = Ok n -> exists k, network_ok n k.
Proof.
  unfold ip_network. destruct (IPNetwork V4 s) as [n4|[| | |]] eqn:E4; try done;
    [intros [= <-]; by eapply IPNetwork_ok|..];
    (destruct (IPNetwork V6 s) as [n6|] eqn:E6; [|done]); intros [= <-]; by eapply IPNetwork_ok.
Qed.

Lemma in_network_range a n k :
  network_ok n k -> 0 <= ip_int a < 2 ^ max_prefixlen (ip_version a) ->
  in_network a n = true <->
  ip_version a = net_version n /\
  net_address n <= ip_int a <= net_address n + (all_ones (net_version n) - net_mask n).
Proof.
  intros [Hk Hm Hr Ha] Hi. unfold in_network. rewrite andb_true_iff, bool_decide_eq_true, Z.eqb_eq, Hm.
  assert (0 < 2 ^ k) as Hpos by (apply Z.pow_pos_nonneg; lia).
  split; intros [E H2]; (split; [done|]); rewrite E in Hi; rewrite mask_land in * by lia;
    rewrite mask_value in * by lia; unfold all_ones in *;
    pose proof (Z.div_mod (ip_int a) (2 ^ k) ltac:(lia)); pose proof (Z.mod_pos_bound (ip_int a) (2 ^ k) Hpos);
    pose proof (Z.div_mod (net_address n) (2 ^ k) ltac:(lia)); [nia|].
  assert (ip_int a / 2 ^ k = net_address n / 2 ^ k); [|nia].
  symmetry. apply (Z.div_unique _ _ _ (ip_int a - net_address n)); [lia|]. nia.
Qed.

(** ** Which entry is the caller *)

Lemma candidates_app a b :
  forwarded_candidates (a ++ b)%list = (forwarded_candidates a ++ forwarded_candidates b)%list.
Proof. unfold forwarded_candidates. by rewrite map_app, List.concat_app. Qed.

Lemma candidates_joined prefix first more :
  forwarded_candidates ((prefix ++ "," ++ first)%string :: more)
  = (forwarded_candidates [prefix] ++ forwarded_candidates (first :: more))%list.
Proof.
  unfold forwarded_candidates. cbn [map concat String.append]. rewrite split_on_sep, map_app, List.filter_app.
  by rewrite app_nil_r, (assoc_L (++)%list).
Qed.

Lemma networks_ok entries nets :
  networks entries = Ok nets -> forall n, n ∈ nets <-> exists e, e ∈ entries /\ ip_network e = Ok n.
Proof.
  revert nets. induction entries as [|e es IH]; intros nets; cbn [networks].
  - intros [= <-] n. split; [by intros ?%elem_of_nil|]. intros (e & []%elem_of_nil & _).
  - destruct (ip_network e) as [m|] eqn:E; [|done]. destruct (networks es) as [ms|] eqn:Es; [|done].
    intros [= <-] n. rewrite elem_of_cons, (IH ms eq_refl). split.
    + intros [->|(x & Hx & Ex)]; [exists e; split; [by left|done]|exists x; split; [by right|done]].
    + intros (x & [->|Hx]%elem_of_cons & Ex); [left; congruence|eauto].
Qed.

Section Walk.
Context (trusted : list IpNetwork).

Lemma walk_trusted nearest hops rest :
  Forall (fun h => is_trusted_peer h trusted = true) hops ->
  untrusted_walk nearest (hops ++ rest)%list trusted = untrusted_walk (default nearest (list.last hops)) rest trusted.
Proof.
  intros Hh. revert nearest. induction Hh as [|h hops Hh _ IH]; intros nearest; [done|].
  cbn [app untrusted_walk]. unfold is_trusted_peer in Hh. destruct (ip_address h) as [a|]; [|done]. rewrite Hh, IH.
  rewrite last_cons. by destruct (list.last hops).
Qed.

Lemma walk_untrusted nearest client a rest :
  ip_address client = Some a -> is_trusted_peer client trusted = false ->
  untrusted_walk nearest (client :: rest) trusted = client.
Proof. unfold is_trusted_peer. cbn. intros -> Hu. by rewrite Hu. Qed.

Lemma rightmost_is_client peer forged client hops a :
  ip_address client = Some a -> is_trusted_peer client trusted = false ->
  Forall (fun h => is_trusted_peer h trusted = true) hops ->
  rightmost_untrusted peer (forged ++ client :: hops)%list trusted = client.
Proof.
  intros Ha Hu Hh. unfold rightmost_untrusted. rewrite rev_app_distr. cbn [rev]. rewrite <- (assoc_L (++)%list).
  rewrite walk_trusted by (by apply Forall_rev). cbn [app]. eapply walk_untrusted; eauto.
Qed.

End Walk.

Lemma hops_is_client forged client hops :
  negative_index (forged ++ client :: hops)%list (1 + Z.of_nat (length hops)) = Ok client.
Proof.
  unfold negative_index. rewrite (proj2 (Z.ltb_lt 0 _)), length_app by lia. cbn [length].
  replace (Z.of_nat _ - _) with (Z.of_nat (length forged)) by lia. rewrite (proj2 (Z.ltb_ge _ 0)) by lia.
  rewrite Nat2Z.id. by rewrite list_lookup_middle.
Qed.

Lemma trusted_not_nil peer trusted : is_trusted_peer peer trusted = true -> trusted <> [].
Proof. unfold is_trusted_peer. intros Ht ->. by destruct (ip_address peer). Qed.

(** (C26) Behind a trusted peer, when the proxies of the deployment appended the caller's address, one outside
    the trusted networks, and then only trusted addresses, that address is the answer: whatever lines the caller sent before, and whatever it put
    before the first of those entries in its own line.  Walking to the rightmost untrusted entry needs no
    count; counting hops needs the right one. *)
Theorem forged_entries_change_nothing peer trusted forged prefix first more client hops a lines trusted_hops :
  is_trusted_peer peer trusted = true ->
  forwarded_candidates (first :: more) = client :: hops ->
  ip_address client = Some a -> is_trusted_peer client trusted = false ->
  Forall (fun h => is_trusted_peer h trusted = true) hops ->
  lines = (forged ++ first :: more)%list \/ lines = (forged ++ (prefix ++ "," ++ first)%string :: more)%list ->
  resolve_client_ip (Some peer) lines trusted trusted_hops RIGHTMOST_UNTRUSTED = Ok (Some client) /\
  resolve_client_ip (Some peer) lines trusted (1 + Z.of_nat (length hops)) HOPS = Ok (Some client).
Proof.
  intros Hp Hc Ha Hu Hh Hlines.
  assert (exists before, forwarded_candidates lines = (before ++ client :: hops)%list) as (before & E).
  { destruct Hlines as [->| ->]; rewrite candidates_app.
    - rewrite Hc. eauto.
    - rewrite candidates_joined, Hc, (assoc_L (++)%list). eauto. }
  unfold resolve_client_ip. rewrite bool_decide_eq_false_2 by (by eapply trusted_not_nil). rewrite Hp. cbn [negb].
  rewrite E. split.
  - do 2 f_equal. eapply rightmost_is_client; eauto.
  - rewrite (proj2 (Z.ltb_ge _ _)) by (rewrite length_app; cbn; lia). by rewrite hops_is_client.
Qed.

(** A peer is trusted by a setting that parses exactly when it is an address between the first and the last
    of one of the networks the setting lists, of the same version; an entry with host bits set, or that is no
    network, refuses the whole setting. *)
Theorem trusted_peers_are_the_ranges raw peer :
  match parse_trusted_cidrs (Some raw) with
  | Ok nets =>
      is_trusted_peer peer nets = true <->
      exists a entry n, ip_address peer = Some a /\ entry ∈ cidr_entries raw /\ ip_network entry = Ok n /\
        ip_version a = net_version n /\
        net_address n <= ip_int a <= net_address n + (all_ones (net_version n) - net_mask n)
  | Err _ => exists entry, entry ∈ cidr_entries raw /\ forall n, ip_network entry <> Ok n
  end.
Proof.
  unfold parse_trusted_cidrs. destruct (networks (cidr_entries raw)) as [nets|e] eqn:E.
  - unfold is_trusted_peer. destruct (ip_address peer) as [a|] eqn:Ea; [|naive_solver].
    pose proof (ip_address_range _ _ Ea) as Hr. rewrite existsb_exists. setoid_rewrite <- list_elem_of_In.
    setoid_rewrite (networks_ok _ _ E). split.
    + intros (n & (entry & He & Hn) & Hin). destruct (ip_network_ok _ _ Hn) as (k & Hk).
      apply (in_network_range _ _ k Hk Hr) in Hin as [Hv Hb]. by exists a, entry, n.
    + intros (a' & entry & n & [= <-] & He & Hn & Hv & Hb). exists n. split; [eauto|].
      destruct (ip_network_ok _ _ Hn) as (k & Hk). by apply (in_network_range _ _ k Hk Hr).
  - revert e E. induction (cidr_entries raw) as [|x es IH]; intros e E; cbn [networks] in E; [done|].
    destruct (ip_network x) as [n|] eqn:Ex; [|exists x; split; [by left|congruence]].
    destruct (networks es) as [ns|] eqn:Es; [done|]. destruct (IH _ eq_refl) as (y & Hy & Hn).
    exists y. split; [by right|done].
Qed.

(** A peer outside the trusted networks is the answer whatever the header says, and no peer is no answer. *)
Theorem untrusted_peer_is_the_answer peer lines trusted trusted_hops mode :
  match peer with Some p => is_trusted_peer p trusted = false | None => True end ->
  resolve_client_ip peer lines trusted trusted_hops mode = Ok peer.
Proof.
  destruct peer as [p|]; [|done]. intros Hu. unfold resolve_client_ip. rewrite Hu. by destruct (bool_decide _).
Qed.

(** ** What a setting or a caller can still do *)

Definition one_proxy : list IpNetwork :=
  match parse_trusted_cidrs (Some (OneString "10.0.0.0/8, 192.168.0.0/16")) with Ok ns => ns | Err _ => [] end.

(** A hop count of zero reads from the other end: [candidates[-0]] is the first entry, the one the caller wrote. *)
Theorem zero_hops_answers_the_forged_entry forged :
  forwarded_candidates [forged] = [forged] ->
  resolve_client_ip (Some "10.0.0.1"%string) [forged; "203.0.113.9"%string] one_proxy 0 HOPS = Ok (Some forged).
Proof.
  intros Hf. unfold resolve_client_ip.
  change [forged; "203.0.113.9"%string] with ([forged] ++ ["203.0.113.9"%string])%list. rewrite candidates_app, Hf.
  replace (forwarded_candidates ["203.0.113.9"%string]) with ["203.0.113.9"%string] by (vm_compute; reflexivity).
  replace (bool_decide (one_proxy = [])) with false by reflexivity.
  by replace (is_trusted_peer "10.0.0.1" one_proxy) with true by (vm_compute; reflexivity).
Qed.

Definition scoped (scope : string) : string := ("fe80::1%" ++ scope)%string.

(** An entry with a scope id is an address, so it is returned with the scope the caller chose. *)
Lemma scope_ids_are_kept :
  map (fun scope => resolve_client_ip (Some "10.0.0.1"%string) [scoped scope] one_proxy 1 RIGHTMOST_UNTRUSTED)
    ["a"; "b"; "junk"]%string
  = [Ok (Some "fe80::1%a"); Ok (Some "fe80::1%b"); Ok (Some "fe80::1%junk")]%string.
Proof. vm_compute. reflexivity. Qed.

(** ** Runs *)

Lemma forged_entries_change_nothing_witness :
  resolve_client_ip (Some "10.0.0.1"%string) ["1.1.1.1"; "8.8.8.8, 203.0.113.9, 192.168.4.4"]%string one_proxy 7
    RIGHTMOST_UNTRUSTED = Ok (Some "203.0.113.9"%string) /\
  resolve_client_ip (Some "10.0.0.1"%string) ["1.1.1.1"; "8.8.8.8, 203.0.113.9, 192.168.4.4"]%string one_proxy 2
    HOPS = Ok (Some "203.0.113.9"%string).
Proof.
  apply (forged_entries_change_nothing "10.0.0.1" one_proxy ["1.1.1.1"]%string "8.8.8.8" " 203.0.113.9, 192.168.4.4"
    [] "203.0.113.9" ["192.168.4.4"]%string {| ip_version := V4; ip_int := 3405803785 |}).
  - vm_compute. reflexivity.
  - vm_compute. reflexivity.
  - vm_compute. reflexivity.
  - vm_compute. reflexivity.
  - repeat constructor.
  - right. reflexivity.
Defined.

Example the_settings_read :
  map (fun n => (net_version n, net_address n, all_ones (net_version n) - net_mask n)) one_proxy
  = [(V4, 167772160, 16777215); (V4, 3232235520, 65535)].
Proof. vm_compute. reflexivity. Qed.

Example host_bits_are_refused : parse_trusted_cidrs (Some (Several ["10.0.0.1/8"]%string)) = Err ValueError.
Proof. vm_compute. reflexivity. Qed.
