(* ===== verification/PosixGlob.v ===== *)
(** * Relative keys and the globs that grant them

    Models [core/security/sandbox.py] ([PathSandbox]: the syntactic rules for a relative key, the
    allow-lists, [check], [enforce] and the reason of a denial) and the path matching that it and
    [evaluate_file_access] rest on: [PurePosixPath] of a string and [PurePosixPath.full_match] of
    Python's [pathlib], with the translation of a glob to a regular expression written as tokens
    and a matcher of their language.  Strings are ASCII.

    [resolve_fs_path], which asks the file system where a path leads, is not modelled. *)

From Stdlib Require Import Ascii String Bool List NArith ZArith Lia.
From stdpp Require Import base list strings.
From S2P Require Import Prelude.

Local Open Scope string_scope.

Definition sep : ascii := "/".

(** ** [PurePosixPath] *)

(** A path is its root (empty, one slash, or exactly two) and its parts. *)
Record PosixPath : Type := { pp_root : string; pp_tail : list string }.

Definition splitroot (s : string) : string * string :=
  if negb (starts_with "/" s) then ("", s)
  else if negb (starts_with "//" s) || starts_with "///" s then ("/", str_drop 1 s)
  else ("//", str_drop 2 s).

Definition real_part (x : string) : bool := str_truthy x && negb (String.eqb x ".").

Definition posix_path (s : string) : PosixPath :=
  let '(root, rel) := splitroot s in
  {| pp_root := root; pp_tail := List.filter real_part (split_on sep rel) |}.

(** [path.parts]. *)
Definition path_parts (p : PosixPath) : list string :=
  if str_truthy (pp_root p) then pp_root p :: pp_tail p else pp_tail p.

(** [str(path)] when it has parts, the empty string otherwise. *)
Definition path_text (p : PosixPath) : string :=
  match path_parts p with
  | [] => ""
  | _ => pp_root p ++ String.concat "/" (pp_tail p)
  end.

Definition is_absolute (s : string) : bool := starts_with "/" s.

(** ** Globs *)

(** What a glob is translated to: a character, [[^/]], [[^/]*], [[^/]+], [(?:.+/)?], [.*], a set. *)
Inductive token : Type :=
  | TChar (c : ascii)
  | TOne
  | TStar
  | TSegment
  | TSegments
  | TRest
  | TSet (negated : bool) (ranges : list (ascii * ascii)).

Definition not_sep (c : ascii) : bool := negb (Ascii.eqb c sep).

Definition in_range (c : ascii) (r : ascii * ascii) : bool :=
  ((N_of_ascii (fst r) <=? N_of_ascii c) && (N_of_ascii c <=? N_of_ascii (snd r)))%N.

(** Some prefix of characters that satisfy [f], then [k]. *)
Fixpoint star_then (f : ascii -> bool) (k : string -> bool) (s : string) : bool :=
  k s || match s with String c s' => f c && star_then f k s' | EmptyString => false end.

Definition sep_then (k : string -> bool) (s : string) : bool :=
  match s with String c s' => Ascii.eqb c sep && k s' | EmptyString => false end.

(** Whether the whole of a string is in the language of the tokens. *)
Fixpoint match_tokens (ts : list token) (s : string) : bool :=
  match ts with
  | [] => negb (str_truthy s)
  | TChar c :: ts' => match s with String a s' => Ascii.eqb a c && match_tokens ts' s' | EmptyString => false end
  | TOne :: ts' => match s with String a s' => not_sep a && match_tokens ts' s' | EmptyString => false end
  | TStar :: ts' => star_then not_sep (match_tokens ts') s
  | TSegment :: ts' =>
      match s with String a s' => not_sep a && star_then not_sep (match_tokens ts') s' | EmptyString => false end
  | TSegments :: ts' =>
      match_tokens ts' s
      || match s with
         | String _ s' => star_then (fun _ => true) (sep_then (match_tokens ts')) s'
         | EmptyString => false
         end
  | TRest :: ts' => star_then (fun _ => true) (match_tokens ts') s
  | TSet negated ranges :: ts' =>
      match s with
      | String a s' => xorb negated (existsb (in_range a) ranges) && match_tokens ts' s'
      | EmptyString => false
      end
  end.

(** *** Sets *)

Fixpoint find_from (c : ascii) (l : list ascii) (i : nat) (skip : nat) : option nat :=
  match l with
  | [] => None
  | a :: l' =>
      match skip with
      | S skip' => find_from c l' (S i) skip'
      | O => if Ascii.eqb a c then Some i else find_from c l' (S i) 0
      end
  end.

(** The index of the bracket that closes a set opened just before [l]; a bracket in first place,
    after a negation or not, does not close it. *)
Definition set_end (l : list ascii) : option nat :=
  let j := match l with "!"%char :: _ => 1 | _ => 0 end in
  let j := match l !! j with Some "]"%char => S j | _ => j end in
  find_from "]" l 0 j.

(** The pieces of a set between the hyphens that make ranges: a hyphen counts from the second place
    after the start, and from the third after the last one. *)
Fixpoint chunk_loop (fuel : nat) (stuff : list ascii) (i k : nat) : list (list ascii) :=
  match fuel with
  | O => []
  | S fuel' =>
      match find_from "-" stuff 0 k with
      | Some k' => take (k' - i) (drop i stuff) :: chunk_loop fuel' stuff (S k') (k' + 3)
      | None => [drop i stuff]
      end
  end.

(** An empty last piece is a hyphen of the one before it. *)
Fixpoint close_chunks (chunks : list (list ascii)) : list (list ascii) :=
  match chunks with
  | [a; []] => [(a ++ ["-"%char])%list]
  | a :: rest => a :: close_chunks rest
  | [] => []
  end.

(** Ranges that run backwards are removed, from the right. *)
Definition merge_chunk (left_ : list ascii) (merged : list (list ascii)) : list (list ascii) :=
  match merged with
  | (c :: right_) :: rest =>
      match list.last left_ with
      | Some a => if (N_of_ascii c <? N_of_ascii a)%N then (removelast left_ ++ right_)%list :: rest
                  else left_ :: merged
      | None => left_ :: merged
      end
  | _ => left_ :: merged
  end.

Definition set_chunks (stuff : list ascii) : list (list ascii) :=
  if existsb (Ascii.eqb "-") stuff then
    foldr merge_chunk []
      (close_chunks (chunk_loop (S (length stuff)) stuff 0 (match stuff with "!"%char :: _ => 2 | _ => 1 end)))
  else [stuff].

(** The body of the set: [None] is a hyphen between two pieces, any other is itself. *)
Fixpoint join_chunks (chunks : list (list ascii)) : list (option ascii) :=
  match chunks with
  | [] => []
  | [c] => map Some c
  | c :: rest => (map Some c ++ None :: join_chunks rest)%list
  end.

Definition literal (o : option ascii) : ascii := default "-"%char o.

(** The ranges of a set as the regular-expression parser reads its body. *)
Fixpoint set_ranges (fuel : nat) (body : list (option ascii)) : list (ascii * ascii) :=
  match fuel with
  | O => []
  | S fuel' =>
      match body with
      | a :: None :: b :: rest => (literal a, literal b) :: set_ranges fuel' rest
      | a :: rest => (literal a, literal a) :: set_ranges fuel' rest
      | [] => []
      end
  end.

(** An empty set matches nothing; a negated empty one any character. *)
Definition set_token (stuff : list ascii) : token :=
  let body := join_chunks (set_chunks stuff) in
  match body with
  | Some "!"%char :: rest => TSet true (set_ranges (length rest) rest)
  | _ => TSet false (set_ranges (length body) body)
  end.

(** *** A segment of a glob *)

Fixpoint drop_stars (l : list ascii) : list ascii :=
  match l with "*"%char :: l' => drop_stars l' | _ => l end.

Fixpoint translate_part (fuel : nat) (l : list ascii) : list token :=
  match fuel with
  | O => []
  | S fuel' =>
      match l with
      | [] => []
      | "*"%char :: l' => TStar :: translate_part fuel' (drop_stars l')
      | "?"%char :: l' => TOne :: translate_part fuel' l'
      | "["%char :: l' =>
          match set_end l' with
          | None => TChar "[" :: translate_part fuel' l'
          | Some j => set_token (take j l') :: translate_part fuel' (drop (S j) l')
          end
      | c :: l' => TChar c :: translate_part fuel' l'
      end
  end.

Definition segment_tokens (part : string) : list token :=
  translate_part (String.length part) (list_ascii_of_string part).

(** [glob.translate] of the segments, recursive and with hidden names. *)
Fixpoint translate (parts : list string) : list token :=
  match parts with
  | [] => []
  | [part] =>
      if String.eqb part "*" then [TSegment] else if String.eqb part "**" then [TRest] else segment_tokens part
  | part :: rest =>
      let after := translate rest in
      if String.eqb part "*" then TSegment :: TChar sep :: after
      else if String.eqb part "**" then
        match rest with
        | next :: _ => if String.eqb next "**" then after else TSegments :: after
        | [] => after
        end
      else (segment_tokens part ++ TChar sep :: after)%list
  end.

Definition full_match (path : PosixPath) (pattern : string) : bool :=
  match_tokens (translate (split_on sep (path_text (posix_path pattern)))) (path_text path).

(** ** [PathSandbox] *)

Definition MAX_KEY_LEN : nat := 512.

Inductive denial : Type :=
  | KeyEmpty
  | KeyTooLong
  | KeyControl
  | KeyAbsolute
  | KeyParentRef
  | NoGlob
  | UnknownAction.

Inductive SandboxDecision : Type := ALLOW | DENY.

Definition control_char (c : ascii) : bool :=
  (N_of_ascii c <? 32)%N && negb (Ascii.eqb c "009") && negb (Ascii.eqb c "010").

Fixpoint contains_control_char (s : string) : bool :=
  match s with EmptyString => false | String c s' => control_char c || contains_control_char s' end.

(** The rules a key is read by, in order; the first that fires. *)
Definition key_fault (key : string) : option denial :=
  if negb (str_truthy key) then Some KeyEmpty
  else if (MAX_KEY_LEN <? String.length key)%nat then Some KeyTooLong
  else if contains_control_char key then Some KeyControl
  else if is_absolute key then Some KeyAbsolute
  else if existsb (String.eqb "..") (path_parts (posix_path key)) then Some KeyParentRef
  else None.

Definition validate_syntax (key : string) : result unit denial :=
  match key_fault key with Some d => Err d | None => Ok tt end.

Record PathSandbox : Type := { ps_allow_read : list string; ps_allow_write : list string }.

Definition matches_any (key : string) (patterns : list string) : bool :=
  existsb (full_match (posix_path key)) patterns.

(** [None] is the reason ["allowed"]. *)
Definition classify_relative_key (self : PathSandbox) (key : string) (write : bool) : SandboxDecision * option denial :=
  match key_fault key with
  | Some d => (DENY, Some d)
  | None =>
      if matches_any key (if write then ps_allow_write self else ps_allow_read self) then (ALLOW, None)
      else (DENY, Some NoGlob)
  end.

Definition check_relative_key (self : PathSandbox) (key : string) (write : bool) : SandboxDecision :=
  fst (classify_relative_key self key write).

Definition action_mode (action : string) : option bool :=
  if String.eqb action "read" then Some false else if String.eqb action "write" then Some true else None.

Definition check (self : PathSandbox) (action target : string) : SandboxDecision :=
  match action_mode action with None => DENY | Some mode => check_relative_key self target mode end.

Definition deny_reason (self : PathSandbox) (action target : string) : option denial :=
  match action_mode action with
  | None => Some UnknownAction
  | Some mode => snd (classify_relative_key self target mode)
  end.

(** [None] in the error is the reason ["allowed"]. *)
Definition enforce (self : PathSandbox) (action target : string) : result unit (option denial) :=
  match check self action target with DENY => Err (deny_reason self action target) | ALLOW => Ok tt end.

(** ** What a directory glob matches *)

(** A name without a wildcard. *)
Definition wildcard (c : ascii) : bool := Ascii.eqb c "*" || Ascii.eqb c "?" || Ascii.eqb c "[".

Fixpoint str_any (f : ascii -> bool) (s : string) : bool :=
  match s with EmptyString => false | String c s' => f c || str_any f s' end.

Definition plain_name (x : string) : bool :=
  real_part x && negb (str_any wildcard x) && negb (str_has sep x).

(** ["a/b/"] for [["a"; "b"]]. *)
Fixpoint dir_text (dir : list string) : string :=
  match dir with [] => "" | d :: ds => d ++ "/" ++ dir_text ds end.

Fixpoint chars (s : string) : list token :=
  match s with EmptyString => [] | String c s' => TChar c :: chars s' end.

Lemma match_chars s ts t : match_tokens (chars s ++ ts)%list t = true <-> exists u, t = s ++ u /\ match_tokens ts u = true.
Proof.
  revert t. induction s as [|c s IH]; intros t; cbn [chars app].
  - split; [intros H; exists t; done|]. by intros (u & -> & H).
  - destruct t as [|a t]; cbn [match_tokens]; [split; [done|by intros (u & Hu & _)]|].
    rewrite andb_true_iff, Ascii.eqb_eq, IH. split.
    + intros (-> & u & -> & Hu). by exists u.
    + intros (u & [= -> ->] & Hu). split; [done|]. by exists u.
Qed.

Lemma match_rest s : match_tokens [TRest] s = true.
Proof. change (star_then (fun _ => true) (match_tokens []) s = true). induction s as [|c s IH]; [done|]. exact IH. Qed.

Lemma translate_part_plain s fuel :
  str_any wildcard s = false -> (String.length s <= fuel)%nat -> translate_part fuel (list_ascii_of_string s) = chars s.
Proof.
  revert fuel. induction s as [|c s IH]; intros fuel Hw Hf; [by destruct fuel|].
  destruct fuel as [|fuel]; [cbn in Hf; lia|]. cbn in Hw. apply orb_false_iff in Hw as [Hc Hw].
  unfold wildcard in Hc. rewrite !orb_false_iff, !Ascii.eqb_neq in Hc. destruct Hc as [[Hc1 Hc2] Hc3].
  cbn [list_ascii_of_string chars translate_part].
  rewrite <- (IH fuel Hw) by (cbn in Hf; lia).
  destruct c as [[] [] [] [] [] [] [] []]; try reflexivity; by first [destruct Hc1|destruct Hc2|destruct Hc3].
Qed.

Lemma plain_name_spec x : plain_name x = true -> x <> "" /\ x <> "." /\ str_any wildcard x = false /\ str_has sep x = false.
Proof.
  unfold plain_name, real_part. rewrite !andb_true_iff, !negb_true_iff, str_truthy_true, String.eqb_neq. tauto.
Qed.

Lemma chars_app s t : chars (s ++ t) = (chars s ++ chars t)%list.
Proof. induction s as [|c s IH]; cbn; [done|]. by rewrite IH. Qed.

Lemma translate_cons part next rest :
  translate (part :: next :: rest)
  = if String.eqb part "*" then TSegment :: TChar sep :: translate (next :: rest)
    else if String.eqb part "**" then
      if String.eqb next "**" then translate (next :: rest) else TSegments :: translate (next :: rest)
    else (segment_tokens part ++ TChar sep :: translate (next :: rest))%list.
Proof. reflexivity. Qed.

Lemma translate_dir dir :
  Forall (fun d => plain_name d = true) dir -> translate (dir ++ ["**"])%list = (chars (dir_text dir) ++ [TRest])%list.
Proof.
  induction 1 as [|d ds (Hd & _ & Hw & _)%plain_name_spec _ IH]; [done|].
  destruct (ds ++ ["**"])%list as [|next rest] eqn:E; [by destruct ds|].
  change ((d :: ds) ++ ["**"])%list with (d :: (ds ++ ["**"]))%list. rewrite E, translate_cons, IH.
  assert (String.eqb d "*" = false) as -> by (apply String.eqb_neq; intros ->; done).
  assert (String.eqb d "**" = false) as -> by (apply String.eqb_neq; intros ->; done).
  unfold segment_tokens. rewrite translate_part_plain by (done || lia).
  cbn [dir_text]. rewrite !chars_app. cbn [chars]. by rewrite <- !(assoc_L (++)%list).
Qed.

Lemma concat_dir dir x : String.concat "/" (dir ++ [x])%list = dir_text dir ++ x.
Proof.
  induction dir as [|d ds IH]; [done|]. cbn [app dir_text].
  destruct (ds ++ [x])%list as [|y l] eqn:E; [by destruct ds|].
  change (String.concat "/" (d :: y :: l)) with (d ++ "/" ++ String.concat "/" (y :: l)).
  rewrite IH, !str_app_assoc. done.
Qed.

Lemma starts_false_has p s c : starts_with (p ++ String c "") s = true -> str_has c s = true.
Proof.
  revert s. induction p as [|a p IH]; intros [|b s]; cbn; try done.
  - rewrite andb_true_r, Ascii.eqb_eq. intros ->. by rewrite Ascii.eqb_refl.
  - intros [_ Hp]%andb_true_iff. rewrite (IH _ Hp). by rewrite orb_true_r.
Qed.

Lemma sep_split_inj (d t x y : string) :
  str_has sep d = false -> str_has sep t = false -> d ++ String sep x = t ++ String sep y -> d = t /\ x = y.
Proof.
  revert t. induction d as [|a d IH]; intros [|b t] Hd Ht E; cbn in *; simplify_eq; try done.
  - apply orb_false_iff in Hd as [_ Hd], Ht as [_ Ht]. destruct (IH t Hd Ht) as [-> ->]; done.
Qed.

Lemma dir_prefix dir tail u :
  Forall (fun d => plain_name d = true) dir -> Forall (fun x => str_has sep x = false) tail ->
  String.concat "/" tail = dir_text dir ++ u ->
  exists rest, tail = (dir ++ rest)%list /\ String.concat "/" rest = u /\ (dir <> [] -> rest <> []).
Proof.
  intros Hd. revert tail. induction Hd as [|d ds (Hd & _ & _ & Hs)%plain_name_spec _ IH]; intros tail Ht E.
  - exists tail. done.
  - cbn [dir_text] in E. rewrite !str_app_assoc in E. destruct tail as [|t [|t' ts]].
    + cbn in E. by destruct d.
    + cbn in E. subst t. apply list.Forall_cons in Ht as [Ht _].
      rewrite str_has_app in Ht. cbn in Ht. by rewrite orb_true_r in Ht.
    + apply list.Forall_cons in Ht as [Ht Hts].
      change (String.concat "/" (t :: t' :: ts)) with (t ++ "/" ++ String.concat "/" (t' :: ts)) in E.
      cbn [String.append] in E. destruct (sep_split_inj _ _ _ _ Ht Hs E) as [-> E'].
      destruct (IH _ Hts E') as (rest & Er & Ec & Hne). exists rest. rewrite Er. split; [done|]. split; [done|].
      intros _ ->. destruct ds as [|e es]; [|by apply Hne]. cbn in Er. done.
Qed.

Lemma filter_parts l : List.filter real_part l = l <-> Forall (fun x => real_part x = true) l.
Proof.
  induction l as [|x l IH]; cbn; [done|]. rewrite list.Forall_cons. destruct (real_part x) eqn:E.
  - rewrite <- IH. split; [intros [= ?]; done|intros [_ ->]; done].
  - split; [|by intros [? _]]. intros Hl. exfalso. assert (x ∈ List.filter real_part l) as Hx by (rewrite Hl; left).
    apply list_elem_of_In, filter_In in Hx as [_ Hx]. congruence.
Qed.

Lemma tail_nosep s : Forall (fun x => str_has sep x = false) (pp_tail (posix_path s)).
Proof.
  unfold posix_path. destruct (splitroot s) as [root rel]. cbn [pp_tail]. apply list.Forall_forall.
  intros x Hx%list_elem_of_In. apply filter_In in Hx as [Hx _].
  pose proof (split_on_no_sep sep rel) as Hn. rewrite List.Forall_forall in Hn. by apply Hn.
Qed.

(** A relative text made of names is the path of those names. *)
Lemma posix_path_names names :
  names <> [] -> Forall (fun x => real_part x = true /\ str_has sep x = false) names ->
  posix_path (String.concat "/" names) = {| pp_root := ""; pp_tail := names |}.
Proof.
  intros Hne Hn. unfold posix_path, splitroot.
  assert (starts_with "/" (String.concat "/" names) = false) as ->.
  { destruct names as [|x names]; [done|]. apply list.Forall_cons in Hn as [[Hr Hs] _].
    destruct x as [|a x]; [done|]. cbn [str_has] in Hs. apply orb_false_iff in Hs as [Hs _].
    rewrite Ascii.eqb_sym in Hs. destruct names; cbn [String.concat starts_with String.append];
      change "/"%char with sep; by rewrite Hs. }
  cbn [negb]. f_equal. change "/"%string with (String sep "").
  rewrite split_concat; [|done|].
  - apply filter_parts. eapply List.Forall_impl; [|exact Hn]. by intros x [? _].
  - eapply List.Forall_impl; [|exact Hn]. by intros x [_ ?].
Qed.

Lemma validated_path key :
  validate_syntax key = Ok tt ->
  pp_root (posix_path key) = "" /\ path_parts (posix_path key) = pp_tail (posix_path key) /\
  (forall x, x ∈ pp_tail (posix_path key) -> x <> "..").
Proof.
  unfold validate_syntax, key_fault. destruct (negb (str_truthy key)); [done|].
  destruct (MAX_KEY_LEN <? String.length key)%nat; [done|]. destruct (contains_control_char key); [done|].
  destruct (is_absolute key) eqn:Ea; [done|]. destruct (existsb _ _) eqn:Ep; [done|]. intros _.
  assert (pp_root (posix_path key) = "") as Er.
  { unfold posix_path, splitroot. unfold is_absolute in Ea. by rewrite Ea. }
  assert (path_parts (posix_path key) = pp_tail (posix_path key)) as Eparts by (unfold path_parts; by rewrite Er).
  split; [done|]. split; [done|]. rewrite Eparts in Ep. intros x Hx ->.
  assert (existsb (String.eqb "..") (pp_tail (posix_path key)) = true) as Hb; [|congruence].
  apply existsb_exists. exists "..". split; [by apply list_elem_of_In|done].
Qed.

Lemma relative_text p : pp_root p = "" -> path_text p = String.concat "/" (pp_tail p).
Proof. intros Hr. unfold path_text, path_parts. rewrite Hr. cbn. by destruct (pp_tail p). Qed.

(** The glob of a directory is read as its names and the double star. *)
Lemma dir_glob_tokens dir :
  Forall (fun d => plain_name d = true) dir ->
  translate (split_on sep (path_text (posix_path (dir_text dir ++ "**")))) = (chars (dir_text dir) ++ [TRest])%list.
Proof.
  intros Hd. rewrite <- concat_dir. assert (dir ++ ["**"] <> [])%list as Hne by (by destruct dir).
  assert (Forall (fun x => real_part x = true /\ str_has sep x = false) (dir ++ ["**"])%list) as Hf.
  { apply list.Forall_app. split; [|by repeat constructor]. eapply List.Forall_impl; [|exact Hd].
    intros x Hx. split; [|by apply plain_name_spec in Hx as (_ & _ & _ & ?)]. unfold plain_name in Hx.
    by apply andb_true_iff in Hx as [[Hx _]%andb_true_iff _]. }
  rewrite posix_path_names, relative_text by done. cbn [pp_tail]. change "/"%string with (String sep "").
  rewrite split_concat; [by apply translate_dir|done|]. eapply List.Forall_impl; [|exact Hf]. by intros x [_ ?].
Qed.

(** A key the sandbox accepts matches the glob of a directory exactly when it names something below that directory:
    its parts begin with the directory's, more follow, and none of them leads back up. *)
Theorem directory_glob_confines key dir :
  validate_syntax key = Ok tt -> Forall (fun d => plain_name d = true) dir -> dir <> [] ->
  full_match (posix_path key) (dir_text dir ++ "**") = true <->
  exists rest, rest <> [] /\ path_parts (posix_path key) = (dir ++ rest)%list /\ ".." ∉ rest.
Proof.
  intros (Hr & Ep & Hdots)%validated_path Hd Hne. unfold full_match.
  rewrite dir_glob_tokens, match_chars, relative_text, Ep by done. split.
  - intros (u & E & _). destruct (dir_prefix dir _ u Hd (tail_nosep key) E) as (rest & Et & _ & Hrest).
    exists rest. split; [by apply Hrest|]. split; [done|]. intros Hin. apply (Hdots ".."); [|done].
    rewrite Et. apply elem_of_app. by right.
  - intros (rest & Hrest & E & _). rewrite E. exists (String.concat "/" rest). split; [|apply match_rest].
    clear -Hrest. induction dir as [|d ds IH]; [done|]. cbn [app dir_text].
    destruct (ds ++ rest)%list as [|y l] eqn:El; [apply app_eq_nil in El as [_ ->]; done|].
    change (String.concat "/" (d :: y :: l)) with (d ++ "/" ++ String.concat "/" (y :: l)).
    rewrite IH, !str_app_assoc. done.
Qed.

(** ** Globs without a double star or a set keep to their depth *)

Definition local_token (t : token) : bool :=
  match t with TChar c => not_sep c | TOne | TStar | TSegment => true | TSegments | TRest | TSet _ _ => false end.

Fixpoint seps (s : string) : nat :=
  match s with EmptyString => 0 | String c s' => (if Ascii.eqb c sep then 1 else 0) + seps s' end.

Lemma star_seps f k s n :
  (forall c, f c = true -> Ascii.eqb c sep = false) -> (forall u, k u = true -> seps u = n) ->
  star_then f k s = true -> seps s = n.
Proof.
  intros Hf Hk. induction s as [|c s IH]; cbn [star_then seps]; rewrite ?orb_false_r; [apply Hk|].
  intros [H|[Hc Hs]%andb_true_iff]%orb_true_iff; [by apply (Hk (String c s))|]. rewrite (Hf c Hc). by apply IH.
Qed.

Lemma not_sep_false c : not_sep c = true -> Ascii.eqb c sep = false.
Proof. unfold not_sep. by rewrite negb_true_iff. Qed.

(** A matched string has the slashes the tokens write out, when the rest of them stays within a segment. *)
Lemma match_seps ts s :
  Forall (fun t => local_token t = true \/ t = TChar sep) ts -> match_tokens ts s = true ->
  seps s = length (List.filter (fun t => negb (local_token t)) ts).
Proof.
  intros Hts. revert s. induction Hts as [|t ts Ht _ IH]; intros s; [by destruct s|].
  destruct Ht as [Hl| ->].
  - destruct t as [c| | | | | |neg rs]; try discriminate Hl; cbn [match_tokens List.filter local_token negb].
    + cbn in Hl. rewrite Hl. destruct s as [|a s]; [done|]. cbn [negb seps].
      intros [->%Ascii.eqb_eq Hs]%andb_true_iff. rewrite (not_sep_false c Hl). by apply IH.
    + destruct s as [|a s]; [done|]. intros [Ha Hs]%andb_true_iff. cbn [seps]. rewrite (not_sep_false a Ha). by apply IH.
    + apply star_seps; [apply not_sep_false|apply IH].
    + destruct s as [|a s]; [done|]. intros [Ha Hs]%andb_true_iff. cbn [seps]. rewrite (not_sep_false a Ha).
      eapply star_seps; [apply not_sep_false|apply IH|exact Hs].
  - cbn. destruct s as [|a s]; [done|]. intros [->%Ascii.eqb_eq Hs]%andb_true_iff. cbn. f_equal. by apply IH.
Qed.

Lemma local_part fuel l :
  Forall (fun c => not_sep c = true /\ c <> "["%char) l ->
  Forall (fun t => local_token t = true) (translate_part fuel l).
Proof.
  revert l. induction fuel as [|fuel IH]; intros l Hl; [constructor|].
  assert (Hstars : forall l, Forall (fun c => not_sep c = true /\ c <> "["%char) l ->
            Forall (fun c => not_sep c = true /\ c <> "["%char) (drop_stars l)).
  { clear. induction 1 as [|c l Hc Hl IHl]; cbn; [constructor|].
    destruct c as [[] [] [] [] [] [] [] []]; try (by constructor); done. }
  destruct Hl as [|c l [Hc Hb] Hl]; [constructor|]. cbn [translate_part].
  destruct c as [[] [] [] [] [] [] [] []]; try (by destruct Hb); constructor; try done; by eauto.
Qed.

Definition segment_local (part : string) : bool :=
  negb (String.eqb part "**") && negb (str_has "[" part).

Lemma chars_local part :
  str_has "[" part = false -> str_has sep part = false ->
  Forall (fun c => not_sep c = true /\ c <> "["%char) (list_ascii_of_string part).
Proof.
  induction part as [|c part IH]; intros Hb Hs; [constructor|].
  cbn [str_has] in Hb, Hs. apply orb_false_iff in Hb as [Hb Hb'], Hs as [Hs Hs'].
  constructor; [|by apply IH]. split; [unfold not_sep; by rewrite Hs|by apply Ascii.eqb_neq].
Qed.

Lemma filter_local ts : Forall (fun t => local_token t = true) ts -> List.filter (fun t => negb (local_token t)) ts = [].
Proof. induction 1 as [|t ts Ht _ IH]; [done|]. cbn. by rewrite Ht. Qed.

Lemma translate_local parts :
  Forall (fun x => segment_local x = true /\ str_has sep x = false) parts ->
  Forall (fun t => local_token t = true \/ t = TChar sep) (translate parts) /\
  length (List.filter (fun t => negb (local_token t)) (translate parts)) = pred (length parts).
Proof.
  assert (Hpart : forall x, segment_local x = true /\ str_has sep x = false ->
            Forall (fun t => local_token t = true) (segment_tokens x) /\ String.eqb x "**" = false).
  { intros x [[Hx Hb]%andb_true_iff Hs]. split; [|by apply negb_true_iff].
    apply local_part, chars_local; [by apply negb_true_iff|done]. }
  induction 1 as [|x parts Hx Hparts IH]; [by split|]. destruct (Hpart x Hx) as [Ht Hstar].
  destruct parts as [|y parts].
  - cbn [translate]. rewrite Hstar. destruct (String.eqb x "*"); [by repeat constructor; left|].
    split; [eapply List.Forall_impl; [|exact Ht]; by left|]. by rewrite filter_local.
  - rewrite translate_cons, Hstar. destruct IH as [IH1 IH2]. destruct (String.eqb x "*").
    + split; [constructor; [by left|]; constructor; [by right|done]|].
      cbn [List.filter]. change (local_token TSegment) with true. change (local_token (TChar sep)) with false.
      cbn [negb length]. by rewrite IH2.
    + split.
      * apply list.Forall_app. split; [eapply List.Forall_impl; [|exact Ht]; by left|]. constructor; [by right|done].
      * rewrite List.filter_app, filter_local by done.
        cbn [List.filter app]. change (local_token (TChar sep)) with false. cbn [negb length]. by rewrite IH2.
Qed.

Lemma length_split s : length (split_on sep s) = S (seps s).
Proof.
  induction s as [|c s IH]; [done|]. cbn [split_on seps]. destruct (Ascii.eqb c sep); cbn; [by rewrite IH|].
  destruct (split_on sep s); [done|]. exact IH.
Qed.

(** A glob without a double star and without a set matches only paths as deep as it is. *)
Theorem plain_glob_keeps_depth path glob :
  let segments := split_on sep (path_text (posix_path glob)) in
  Forall (fun x => segment_local x = true) segments -> full_match path glob = true ->
  length (split_on sep (path_text path)) = length segments.
Proof.
  intros segments Hl Hm. assert (Forall (fun x => segment_local x = true /\ str_has sep x = false) segments) as Hs.
  { apply list.Forall_and. split; [done|]. apply split_on_no_sep. }
  destruct (translate_local segments Hs) as [Ht Hc]. unfold full_match in Hm. fold segments in Hm.
  rewrite length_split, (match_seps _ _ Ht Hm), Hc. unfold segments. rewrite length_split. done.
Qed.

(** A negated set matches a slash too: a glob of one segment reaches into a directory. *)
Theorem negated_set_crosses_segments :
  full_match (posix_path "reports/secret") "reports[!0-9]*" = true /\
  full_match (posix_path "reports/secret") "reports*" = false /\
  validate_syntax "reports/secret" = Ok tt.
Proof. by vm_compute. Qed.

(** ** [check] allows what [validate_syntax] passes and a glob of the mode matches, and [enforce] gives its reason. *)
Lemma enforce_spec self action target :
  match enforce self action target with
  | Ok _ => exists write, action_mode action = Some write /\ validate_syntax target = Ok tt /\
              matches_any target (if write then ps_allow_write self else ps_allow_read self) = true
  | Err reason => exists d, reason = Some d
  end.
Proof.
  unfold enforce, check, deny_reason, check_relative_key, classify_relative_key, validate_syntax.
  destruct (action_mode action) as [write|]; [|eauto]. destruct (key_fault target) as [d|]; cbn; [eauto|].
  destruct (matches_any _ _) eqn:E; cbn; eauto.
Qed.

Lemma directory_glob_confines_witness :
  full_match (posix_path "docs//a/./x.md") "docs/a/**" = true.
Proof.
  apply (proj2 (directory_glob_confines "docs//a/./x.md" ["docs"; "a"] eq_refl ltac:(repeat constructor) ltac:(done))).
  exists ["x.md"]. split; [done|]. split; [reflexivity|]. by intros ?%list_elem_of_singleton.
Defined.
