(* ===== verification/FileAccess.v ===== *)
(** * Who may read and write which file

    Models [evaluate_file_access] and [_path_matches_trails] of [acl/evaluator.py], the per-file gate
    of a workspace ([authorize_workspace_file_access] of [agent/workspace/authorize.py]) and the order in
    which every file tool runs it once the workspace itself was authorized ([fs_read.py] and its siblings:
    [validate_syntax], then the gate).

    The theorems compose the evaluator of [AclGuarantees] with the globs of [PosixGlob]: what decides
    is a chain of memberships to a role that grants a matching glob, on each side of the call, and a
    role that grants directories opens nothing outside them. A file tool asks about the workspace twice, with
    its name and without, and the two share the cache, so its theorem is over the sound caches of
    [AclDescriptors]. The lookup that stamps the customer
    on a workspace record and the log line of a denial are not modelled. *)

From Stdlib Require Import Ascii String Bool List NArith ZArith Lia.
From stdpp Require Import base list gmap strings.
From S2P Require Import Prelude Namespaces AclTypes AclCache AclEvaluator AclRefinement AclWalls AclGuarantees AclDescriptors AclAuthorize PosixGlob.

Open Scope string_scope.
Open Scope py_scope.

(** ** [evaluate_file_access] *)

Inductive file_error : Type :=
  | BadDirection
  | NoFileActor
  | Evaluation (e : eval_error).

Definition glob_matches (prefix : string) (path : PosixPath) (action : string) : bool :=
  starts_with prefix action
  && (let glob := str_drop (String.length prefix) action in str_truthy glob && full_match path glob).

Definition path_matches_trails (trails : list Trail) (prefix : string) (path : PosixPath) : bool :=
  existsb (fun t => existsb (glob_matches prefix path) (elements (t_contributed_actions t))) trails.

Definition direction_prefix (direction : string) : option string :=
  if String.eqb direction "read" then Some READ_FILE_MATCHING_PREFIX
  else if String.eqb direction "write" then Some WRITE_FILE_MATCHING_PREFIX else None.

Section Files.
Context `{HL : Loaders}.
Variables (now : Z) (max_depth : nat).

Definition evaluate_file_access (namespace : Namespace) (user_id agent_id : option UUID) (path direction : string)
  : M AclCache (result bool file_error) :=
  match direction_prefix direction with
  | None => retM (Err BadDirection)
  | Some prefix =>
      if negb (isSome user_id) && negb (isSome agent_id) then retM (Err NoFileActor)
      else
        let ctx := mkEvaluationContext namespace prefix user_id agent_id None in
        let* trail_result := evaluate_with_trail now max_depth ctx in
        retM match trail_result with
             | Err e => Err (Evaluation e)
             | Ok r =>
                 let has_user := isSome user_id in
                 let has_agent := isSome agent_id in
                 let p := posix_path path in
                 let agent_side_open := has_agent && er_agent_owner_short_circuited r in
                 Ok (if has_user && has_agent then
                       path_matches_trails (er_user_trails r) prefix p
                       && (agent_side_open || path_matches_trails (er_agent_trails r) prefix p)
                     else if has_agent then agent_side_open || path_matches_trails (er_trails r) prefix p
                     else path_matches_trails (er_trails r) prefix p)
             end
  end.

(** ** The gates of a workspace *)

(** What the gates read of a workspace and of the call. *)
Record WorkspaceLike : Type := {
  ws_id : UUID;
  ws_customer_id : option UUID;
  ws_owner_agent_id : option UUID;
  ws_namespace_name : string
}.

Record CallContext : Type := { cc_customer_id : option UUID; cc_user_id : option UUID; cc_agent_id : option UUID }.

Inductive workspace_error : Type :=
  | UnknownDirection
  | MissingCustomer
  | CrossCustomer
  | EvaluatorDenied
  | EvaluatorRefused (e : authorize_error)
  | NoMatchingGlob
  | FileEvaluation (e : file_error)
  | SandboxDenied (d : denial).

Definition workspace_namespace (w : WorkspaceLike) : Namespace :=
  mkNamespace (ws_id w) (ws_customer_id w) "workspace" (ws_owner_agent_id w) None
    (build_agent_namespace_name <$> ws_owner_agent_id w).

(** [authorize_workspace_access]: the check of the workspace as a whole, on its descriptor with the name. *)
Definition authorize_workspace_access (ctx : CallContext) (workspace : WorkspaceLike) (operation : string)
  : M AclCache (result unit workspace_error) :=
  match direction_prefix operation with
  | None => retM (Err UnknownDirection)
  | Some _ =>
      match cc_customer_id ctx with
      | None => retM (Err MissingCustomer)
      | Some customer =>
          if negb (bool_decide (ws_customer_id workspace = Some customer)) then retM (Err CrossCustomer)
          else
            let* answer := authorize_on_entity now max_depth (workspace_namespace workspace) operation (cc_user_id ctx)
                             (cc_agent_id ctx) (Some (ws_namespace_name workspace)) in
            retM match answer with
                 | Ok _ => Ok tt
                 | Err (Denied _) => Err EvaluatorDenied
                 | Err e => Err (EvaluatorRefused e)
                 end
      end
  end.

(** [authorize_workspace_file_access]: the check of one file, on a descriptor without a name. *)
Definition authorize_workspace_file_access (ctx : CallContext) (workspace : WorkspaceLike)
  (relative_path direction : string) : M AclCache (result unit workspace_error) :=
  match direction_prefix direction with
  | None => retM (Err UnknownDirection)
  | Some _ =>
      match cc_customer_id ctx with
      | None => retM (Err MissingCustomer)
      | Some customer =>
          if negb (bool_decide (ws_customer_id workspace = Some customer)) then retM (Err CrossCustomer)
          else
            let* decision := evaluate_file_access (workspace_namespace workspace) (cc_user_id ctx) (cc_agent_id ctx)
                               relative_path direction in
            retM match decision with
                 | Err e => Err (FileEvaluation e)
                 | Ok true => Ok tt
                 | Ok false => Err NoMatchingGlob
                 end
      end
  end.

(** The guard every file tool puts before a file: the sandbox first, then the gate. *)
Definition guard_file (ctx : CallContext) (workspace : WorkspaceLike) (relative_path direction : string)
  : M AclCache (result unit workspace_error) :=
  match validate_syntax relative_path with
  | Err d => retM (Err (SandboxDenied d))
  | Ok _ => authorize_workspace_file_access ctx workspace relative_path direction
  end.

(** What a file tool runs before it touches a file. *)
Definition file_tool (ctx : CallContext) (workspace : WorkspaceLike) (relative_path direction : string)
  : M AclCache (result unit workspace_error) :=
  let* whole := authorize_workspace_access ctx workspace direction in
  match whole with
  | Err e => retM (Err e)
  | Ok _ => guard_file ctx workspace relative_path direction
  end.

(** ** What decides *)

(** A side that starts from the groups [start] grants the path: some group a chain of eligible rows above them
    holds an assignment of a role with a matching glob. *)
Definition side_opens (db : AccessTables) (ns : Namespace) (start : gset UUID) (prefix path : string) : Prop :=
  exists g t glob, chain db ns start (max_depth - 1) g /\ contributes db ns g t /\
    (prefix ++ glob) ∈ t_contributed_actions t /\ glob <> "" /\ full_match (posix_path path) glob = true.

Lemma glob_matches_spec prefix p action :
  glob_matches prefix p action = true <->
  exists glob, action = prefix ++ glob /\ glob <> "" /\ full_match p glob = true.
Proof.
  unfold glob_matches. cbv zeta. rewrite !andb_true_iff, starts_with_iff, str_truthy_true. split.
  - intros ((glob & ->) & Hne & Hm). rewrite str_drop_app in Hne, Hm. by exists glob.
  - intros (glob & -> & Hne & Hm). rewrite str_drop_app. split; [by exists glob|done].
Qed.

Lemma path_matches_spec trails prefix path :
  path_matches_trails trails prefix (posix_path path) = true <->
  exists t glob, t ∈ trails /\ (prefix ++ glob) ∈ t_contributed_actions t /\ glob <> "" /\
    full_match (posix_path path) glob = true.
Proof.
  unfold path_matches_trails. rewrite existsb_exists. setoid_rewrite existsb_exists.
  setoid_rewrite <- list_elem_of_In. setoid_rewrite glob_matches_spec. split.
  - intros (t & Ht & a & Ha%elem_of_elements & glob & -> & Hne & Hm). by exists t, glob.
  - intros (t & glob & Ht & Ha & Hne & Hm). exists t. split; [done|]. exists (prefix ++ glob).
    split; [by apply elem_of_elements|]. by exists glob.
Qed.

Lemma side_opens_trails db ns start prefix path :
  path_matches_trails (spec_side db ns (spec_reach db ns (max_depth - 1) start)).2 prefix (posix_path path) = true
  <-> side_opens db ns start prefix path.
Proof.
  rewrite path_matches_spec. unfold side_opens. setoid_rewrite spec_side_trails. setoid_rewrite spec_reach_chain_aux.
  split; [intros (t & glob & (g & Hg & Ht) & H)|intros (g & t & glob & Hg & Ht & H)]; eauto 10.
Qed.

(** Every side the call has opens the path, an owning agent every one. *)
Definition file_allowed (db : AccessTables) (ns : Namespace) (user_id agent_id : option UUID) (prefix path : string)
  : Prop :=
  (forall u, user_id = Some u -> side_opens db ns (spec_members db u MemberUser ns) prefix path) /\
  (forall a, agent_id = Some a ->
     agent_owns_namespace ns a = true \/ side_opens db ns (spec_members db a MemberAgent ns) prefix path).

Definition file_decision (r : EvaluationResult) (user_id agent_id : option UUID) (prefix : string) (p : PosixPath) : bool :=
  if isSome user_id && isSome agent_id then
    path_matches_trails (er_user_trails r) prefix p
    && (isSome agent_id && er_agent_owner_short_circuited r || path_matches_trails (er_agent_trails r) prefix p)
  else if isSome agent_id then isSome agent_id && er_agent_owner_short_circuited r || path_matches_trails (er_trails r) prefix p
  else path_matches_trails (er_trails r) prefix p.

Lemma assembled_trails ns prefix user_id agent_id ua aa ut at_ owner :
  let r := assemble_result (mkEvaluationContext ns prefix user_id agent_id None) ua aa ut at_ owner in
  er_agent_owner_short_circuited r = owner /\
  (isSome user_id = true -> isSome agent_id = true -> er_user_trails r = ut /\ er_agent_trails r = at_) /\
  (isSome user_id = true -> isSome agent_id = false -> er_trails r = ut) /\
  (isSome user_id = false -> isSome agent_id = true -> er_trails r = at_).
Proof.
  unfold assemble_result. cbn [ec_user_id ec_agent_id ec_group_id ec_action].
  destruct user_id, agent_id; cbn [isSome orb andb]; try (destruct (_ || _)); by repeat split.
Qed.

Lemma spec_file_decision db ns user_id agent_id prefix path :
  isSome user_id = true \/ isSome agent_id = true ->
  file_decision (spec_answer db max_depth (mkEvaluationContext ns prefix user_id agent_id None)) user_id agent_id prefix
    (posix_path path) = true <->
  file_allowed db ns user_id agent_id prefix path.
Proof.
  intros Hside. unfold spec_answer, file_decision.
  destruct (spec_side db _ (spec_user_groups db max_depth _)) as [ua ut] eqn:Eu.
  destruct (spec_side db _ (spec_agent_groups db max_depth _)) as [aa at_] eqn:Ea.
  pose proof (assembled_trails ns prefix user_id agent_id ua
    (if spec_owner (mkEvaluationContext ns prefix user_id agent_id None) then OWNER_ACTIONS else Plain aa) ut at_
    (spec_owner (mkEvaluationContext ns prefix user_id agent_id None))) as (Ho & Hboth & Huser & Hagent).
  apply (f_equal snd) in Eu, Ea. cbn [snd] in Eu, Ea.
  assert (forall u, user_id = Some u -> path_matches_trails ut prefix (posix_path path) = true
            <-> side_opens db ns (spec_members db u MemberUser ns) prefix path) as Hu.
  { intros u ->. rewrite <- Eu. apply side_opens_trails. }
  assert (forall a, agent_id = Some a ->
            (spec_owner (mkEvaluationContext ns prefix user_id agent_id None)
             || path_matches_trails at_ prefix (posix_path path)) = true
            <-> agent_owns_namespace ns a = true \/ side_opens db ns (spec_members db a MemberAgent ns) prefix path) as Ha.
  { intros a ->. rewrite <- Ea. unfold spec_owner, spec_agent_groups. cbn [ec_agent_id ec_namespace].
    destruct (agent_owns_namespace ns a); cbn [orb]; [tauto|]. rewrite side_opens_trails. naive_solver. }
  unfold file_allowed. rewrite Ho. destruct user_id as [u|], agent_id as [a|]; cbn [isSome andb] in *.
  - destruct (Hboth eq_refl eq_refl) as [-> ->]. rewrite andb_true_iff, (Hu u eq_refl), (Ha a eq_refl). naive_solver.
  - rewrite (Huser eq_refl eq_refl), (Hu u eq_refl). naive_solver.
  - rewrite (Hagent eq_refl eq_refl), (Ha a eq_refl). naive_solver.
  - by destruct Hside.
Qed.

Context {db : AccessTables} `{HLL : !LoaderLaws db}.
Context (Hwf : tables_wf db) (canon : UUID -> Namespace).

Lemma file_access_decides ns user_id agent_id path direction prefix c :
  coherent canon db c -> ns = canon (ns_id ns) -> direction_prefix direction = Some prefix ->
  isSome user_id = true \/ isSome agent_id = true ->
  exists b, (evaluate_file_access ns user_id agent_id path direction c).1 = Ok b /\
    (b = true <-> file_allowed db ns user_id agent_id prefix path) /\
    coherent canon db (evaluate_file_access ns user_id agent_id path direction c).2.
Proof using HLL Hwf.
  intros Hc Hns Hd Hside. unfold evaluate_file_access. rewrite Hd.
  assert (negb (isSome user_id) && negb (isSome agent_id) = false) as ->
    by (destruct (isSome user_id), (isSome agent_id); naive_solver).
  set (ctx := mkEvaluationContext ns prefix user_id agent_id None).
  assert (check_context ctx = Ok tt) as Hchk.
  { unfold check_context. cbn. destruct user_id, agent_id; try done. by destruct Hside. }
  destruct (evaluate_with_trail_triple Hwf canon now max_depth ctx Hchk Hns c Hc) as [Hr Hc'].
  unfold bindM, retM. destruct (evaluate_with_trail now max_depth ctx c) as [r c']. cbn [fst snd] in *. subst r.
  eexists. split; [reflexivity|]. split; [|done]. rewrite <- (spec_file_decision db ns user_id agent_id prefix path Hside).
  reflexivity.
Qed.
End Files.

(** (C11) A file may be read or written exactly when every side of the call grants it: some chain of eligible memberships of
    the user, and one of the agent unless it owns the workspace, leads to a group that holds a covering assignment of a
    role with a glob of that direction that matches the path. *)
Theorem evaluate_file_access_exact `{HL : Loaders} db `{HLL : !LoaderLaws db} canon now max_depth ns user_id agent_id path
  direction prefix c :
  tables_wf db -> coherent canon db c -> ns = canon (ns_id ns) -> direction_prefix direction = Some prefix ->
  isSome user_id = true \/ isSome agent_id = true ->
  exists b, (evaluate_file_access now max_depth ns user_id agent_id path direction c).1 = Ok b /\
    (b = true <-> file_allowed max_depth db ns user_id agent_id prefix path) /\
    coherent canon db (evaluate_file_access now max_depth ns user_id agent_id path direction c).2.
Proof. intros Hwf Hc Hns Hd Hside. by apply (file_access_decides now max_depth Hwf canon). Qed.

(** Every glob of the direction a user can reach on the workspace is the glob of one of [dirs]. *)
Definition grants_directories (max_depth : nat) (db : AccessTables) (ns : Namespace) (u : UUID) (prefix : string)
  (dirs : list (list string)) : Prop :=
  forall g t glob, chain db ns (spec_members db u MemberUser ns) (max_depth - 1) g -> contributes db ns g t ->
    (prefix ++ glob) ∈ t_contributed_actions t -> glob <> "" -> exists dir, dir ∈ dirs /\ glob = dir_text dir ++ "**".

(** The workspace as the check of the whole describes it, with its name. *)
Definition named_namespace (w : WorkspaceLike) : Namespace := acl_namespace (workspace_namespace w) (Some (ws_namespace_name w)).

Section Tool.
Context `{HL : Loaders} {db : AccessTables} `{HLL : !LoaderLaws db}.
Context (Hwf : tables_wf db) (widest : UUID -> Namespace) (now : Z) (max_depth : nat).

Lemma side_opens_sound ns start start' prefix path trails :
  ns_customer_id ns = ns_customer_id (widest (ns_id ns)) -> start = start' ->
  (forall t, t ∈ trails -> exists g, g ∈ spec_reach db ns (max_depth - 1) start /\ contributes db (widest (ns_id ns)) g t) ->
  path_matches_trails trails prefix (posix_path path) = true ->
  side_opens max_depth db (widest (ns_id ns)) start' prefix path.
Proof.
  intros Hc <- Ht (t & glob & Hin & H)%path_matches_spec. destruct (Ht t Hin) as (g & Hg & Hcon).
  exists g, t, glob. split; [|done]. apply spec_reach_chain_aux. by rewrite <- (spec_reach_customer ns _).
Qed.

(** The file gate, asked with a narrower descriptor on a sound cache, lets nothing through that the rows do
    not grant on the widest one. *)
Lemma file_access_sound ns user_id agent_id path direction prefix :
  narrower ns (widest (ns_id ns)) -> direction_prefix direction = Some prefix ->
  isSome user_id = true \/ isSome agent_id = true ->
  triple (sound (db := db) widest) (evaluate_file_access now max_depth ns user_id agent_id path direction)
    (fun r c => (exists b, r = Ok b /\ (b = true -> file_allowed max_depth db (widest (ns_id ns)) user_id agent_id prefix path))
                /\ sound (db := db) widest c).
Proof using HLL Hwf.
  intros Hn Hd Hside. unfold evaluate_file_access. rewrite Hd.
  assert (negb (isSome user_id) && negb (isSome agent_id) = false) as ->
    by (destruct (isSome user_id), (isSome agent_id); naive_solver).
  set (ctx := mkEvaluationContext ns prefix user_id agent_id None).
  assert (check_context ctx = Ok tt) as Hchk.
  { unfold check_context. cbn. destruct user_id, agent_id; try done. by destruct Hside. }
  eapply triple_bind; [apply (evaluate_with_trail_sound Hwf widest now max_depth ctx Hchk Hn)|].
  intros r. apply triple_pure. intros (er & -> & ua & aa & ut & at_ & -> & Hu & Ha). apply triple_ret. intros c Hc. split; [|done].
  eexists. split; [reflexivity|]. intros Hdec.
  pose proof (assembled_trails ns prefix user_id agent_id ua aa ut at_ (spec_owner ctx)) as (Ho & Hboth & Huser & Hagent).
  fold ctx in Ho, Hboth, Huser, Hagent. cbv zeta in *. rewrite Ho in Hdec.
  pose proof (nar_customer _ _ Hn) as Hcust.
  assert (HU : forall u, user_id = Some u -> path_matches_trails ut prefix (posix_path path) = true ->
    side_opens max_depth db (widest (ns_id ns)) (spec_members db u MemberUser (widest (ns_id ns))) prefix path).
  { intros u ->. apply (side_opens_sound ns (spec_members db u MemberUser ns)); [done|by apply spec_members_customer|exact Hu]. }
  assert (HA : forall a, agent_id = Some a -> spec_owner ctx || path_matches_trails at_ prefix (posix_path path) = true ->
    agent_owns_namespace (widest (ns_id ns)) a = true
    \/ side_opens max_depth db (widest (ns_id ns)) (spec_members db a MemberAgent (widest (ns_id ns))) prefix path).
  { intros a ->. unfold spec_owner, spec_agent_groups in *. cbn [ec_agent_id ec_namespace ctx] in *.
    replace (agent_owns_namespace (widest (ns_id ns)) a) with (agent_owns_namespace ns a)
      by (unfold agent_owns_namespace; by rewrite (nar_owner _ _ Hn)).
    destruct (agent_owns_namespace ns a); cbn [orb]; [by left|]. right.
    revert H. apply (side_opens_sound ns (spec_members db a MemberAgent ns)); [done|by apply spec_members_customer|exact Ha]. }
  unfold file_allowed. destruct user_id as [u|], agent_id as [a|]; cbn [isSome andb] in *.
  - destruct (Hboth eq_refl eq_refl) as [Eu Ea]. rewrite Eu, Ea in Hdec. apply andb_true_iff in Hdec as [H1 H2].
    split; [intros u' [= <-]; by apply HU|intros a' [= <-]; by apply HA].
  - rewrite (Huser eq_refl eq_refl) in Hdec. split; [intros u' [= <-]; by apply HU|done].
  - rewrite (Hagent eq_refl eq_refl) in Hdec. split; [done|intros a' [= <-]; by apply HA].
  - by destruct Hside.
Qed.

Lemma workspace_narrower w : narrower (workspace_namespace w) (named_namespace w).
Proof. apply unnamed_narrower. Qed.

Context (workspace : WorkspaceLike) (Hw : widest (ws_id workspace) = named_namespace workspace).
Context (ctx : CallContext) (Hside : isSome (cc_user_id ctx) = true \/ isSome (cc_agent_id ctx) = true).

(** The check of the whole leaves a sound cache sound. *)
Lemma workspace_access_sound operation :
  triple (sound (db := db) widest) (authorize_workspace_access now max_depth ctx workspace operation) (fun _ c => sound (db := db) widest c).
Proof using HLL Hwf Hw Hside.
  unfold authorize_workspace_access. destruct (direction_prefix operation); [|by apply triple_ret].
  destruct (cc_customer_id ctx); [|by apply triple_ret]. case_match; [by apply triple_ret|].
  eapply (triple_bind _ _ _ (fun _ c => sound (db := db) widest c)); [|intros a; by apply triple_ret].
  unfold authorize_on_entity. eapply triple_bind; [apply (evaluate_with_trail_sound Hwf widest now max_depth)|].
  - unfold check_context. cbn. destruct (cc_user_id ctx), (cc_agent_id ctx); try done. by destruct Hside.
  - simpl. rewrite Hw. apply narrower_refl.
  - intros r. apply triple_pure. intros _. by apply triple_ret.
Qed.

(** What a file tool lets through, the sandbox accepts, the customer owns and the rows grant. *)
Lemma file_tool_sound key direction prefix c :
  direction_prefix direction = Some prefix -> sound (db := db) widest c ->
  sound (db := db) widest (file_tool now max_depth ctx workspace key direction c).2
  /\ ((file_tool now max_depth ctx workspace key direction c).1 = Ok tt ->
      validate_syntax key = Ok tt /\ ws_customer_id workspace = cc_customer_id ctx
      /\ file_allowed max_depth db (named_namespace workspace) (cc_user_id ctx) (cc_agent_id ctx) prefix key).
Proof using HLL Hwf Hw Hside.
  intros Hd Hc. unfold file_tool, bindM. pose proof (workspace_access_sound direction c Hc) as Hc1.
  destruct (authorize_workspace_access now max_depth ctx workspace direction c) as [[u|e] c1]; cbn [fst snd] in *; [|done].
  unfold guard_file. destruct (validate_syntax key) as [[]|]; [|done].
  unfold authorize_workspace_file_access. rewrite Hd. destruct (cc_customer_id ctx) as [customer|]; [|done].
  destruct (bool_decide (ws_customer_id workspace = Some customer)) eqn:Eb; cbn [negb]; [|done].
  apply bool_decide_eq_true in Eb. unfold bindM.
  assert (Hn : narrower (workspace_namespace workspace) (widest (ns_id (workspace_namespace workspace))))
    by (simpl; rewrite Hw; apply workspace_narrower).
  destruct (file_access_sound (workspace_namespace workspace) (cc_user_id ctx) (cc_agent_id ctx) key direction prefix Hn Hd Hside c1 Hc1)
    as [(b & Hb & Himp) Hc2].
  destruct (evaluate_file_access _ _ _ _ _ _ _ c1) as [r c2]. cbn [fst snd] in *. subst r. destruct b; cbn; [|done].
  split; [done|]. intros _. split_and!; [done..|]. rewrite <- Hw. by apply Himp.
Qed.
End Tool.

(** (C10) A file tool keeps to what was granted. Whatever checks of the workspace, with its name or without,
    filled the cache before it ([sound], which every call keeps), when the tool goes ahead for a user whose
    file grants on the workspace are directory globs, the workspace is of the caller's customer and the file
    lies in one of those directories, by names none of which leads back up. *)
Theorem files_stay_in_their_directories `{HL : Loaders} db `{HLL : !LoaderLaws db} widest now max_depth ctx workspace u key
  direction prefix dirs c :
  tables_wf db -> sound (db := db) widest c -> widest (ws_id workspace) = named_namespace workspace ->
  direction_prefix direction = Some prefix -> cc_user_id ctx = Some u ->
  grants_directories max_depth db (named_namespace workspace) u prefix dirs ->
  Forall (fun dir => dir <> [] /\ Forall (fun d => plain_name d = true) dir) dirs ->
  sound (db := db) widest (file_tool now max_depth ctx workspace key direction c).2
  /\ ((file_tool now max_depth ctx workspace key direction c).1 = Ok tt ->
      ws_customer_id workspace = cc_customer_id ctx /\
      exists dir rest, dir ∈ dirs /\ rest <> [] /\ path_parts (posix_path key) = (dir ++ rest)%list /\ ".." ∉ rest).
Proof.
  intros Hwf Hc Hw Hd Hu Hgrants Hdirs.
  destruct (file_tool_sound Hwf widest now max_depth workspace Hw ctx ltac:(left; by rewrite Hu) key direction prefix c Hd Hc) as [H1 H2].
  split; [done|]. intros (Hv & Hcust & Huser & _)%H2. split; [done|].
  destruct (Huser u Hu) as (g & t & glob & Hg & Ht & Hin & Hne & Hm).
  destruct (Hgrants g t glob Hg Ht Hin Hne) as (dir & Hdir & ->).
  rewrite list.Forall_forall in Hdirs. destruct (Hdirs dir Hdir) as [Hd1 Hd2].
  apply (directory_glob_confines key dir Hv Hd2 Hd1) in Hm as (rest & E1 & E2 & E3). by exists dir, rest.
Qed.

(** ** A workspace *)

Module Desk.

Definition acme : UUID := 100%N.

Definition workspace : WorkspaceLike := {| ws_id := 60; ws_customer_id := Some acme; ws_owner_agent_id := Some 3%N;
     ws_namespace_name := "workspaces.acme.desk" |}.

Definition canon (i : UUID) : Namespace :=
  if decide (i = 60%N) then workspace_namespace workspace else mkNamespace i None "workspace" None None None.

(** User 1 may read the workspace, and in it what is under [docs] and [notes/open]. *)
Definition readers : Role :=
  mkRole 20 "readers" {[ "workspace" := {["read"; "read_file_matching:docs/**"; "read_file_matching:notes/open/**"]} ]} true None.

Definition widest (i : UUID) : Namespace :=
  if decide (i = 60%N) then named_namespace workspace else mkNamespace i None "workspace" None None None.

Definition db : AccessTables := {|
  at_members := [ mkGroupMembership 10 MemberUser 1 (Some acme) ];
  at_assignments := [ mkRoleAssignment 30 20 10 ScopeAll None None None None ];
  at_roles := {[ 20%N := readers ]};
  at_groups := {[ 10%N := mkGroup 10 "staff" (Some acme) ]};
|}.

#[export] Instance desk_loaders : Loaders := table_loaders false db.

Lemma desk_nodup : NoDup (at_assignments db).
Proof. apply NoDup_singleton. Defined.

#[export] Instance desk_laws : LoaderLaws db.
Proof. apply table_loaders_laws, desk_nodup. Defined.

Lemma desk_wf : tables_wf db.
Proof.
  split.
  - intros a b Ha%list_elem_of_singleton Hb%list_elem_of_singleton. congruence.
  - apply Forall_forall. repeat constructor.
  - apply desk_nodup.
  - intros i g Hg. change (({[10%N := mkGroup 10 "staff" (Some acme)]} : gmap UUID Group) !! i = Some g) in Hg.
    apply lookup_singleton_Some in Hg as [<- <-]. reflexivity.
Defined.

Definition followed_cache : AclCache := followed_by (Some true) AclCache_init.

Lemma desk_sound : sound (db := db) widest followed_cache.
Proof. split; intros k e H; discriminate H. Defined.

Lemma desk_coherent : coherent canon db AclCache_init.
Proof. split; intros k e H; discriminate H. Defined.

Definition caller : CallContext := {| cc_customer_id := Some acme; cc_user_id := Some 1%N; cc_agent_id := None |}.

Definition guarded (key : string) : result unit workspace_error :=
  (guard_file 0 3 caller workspace key "read" AclCache_init).1.

Example answers :
  map guarded ["docs/a.md"; "docs/./x/b.md"; "docs"; "docs/../secret"; "secret"; "/docs/a"; "notes/open/1"; "notes/x"]
  = [Ok tt; Ok tt; Err NoMatchingGlob; Err (SandboxDenied KeyParentRef); Err NoMatchingGlob;
     Err (SandboxDenied KeyAbsolute); Ok tt; Err NoMatchingGlob].
Proof. vm_compute. reflexivity. Qed.

Lemma desk_grants :
  grants_directories 3 db (named_namespace workspace) 1 READ_FILE_MATCHING_PREFIX [["docs"]; ["notes"; "open"]].
Proof.
  intros g t glob _ (Ha%list_elem_of_singleton & _ & _ & _ & Hrole & _ & _ & Hacts) Hin _.
  rewrite Ha in Hrole. change (({[20%N := readers]} : gmap UUID Role) !! 20%N = Some (t_role t)) in Hrole. apply lookup_singleton_Some in Hrole as [_ Hrole]. rewrite Hacts, <- Hrole in Hin.
  assert (E : actions_for readers (ns_type (named_namespace workspace))
              = {["read"; "read_file_matching:docs/**"; "read_file_matching:notes/open/**"]}) by reflexivity.
  rewrite E in Hin. apply elem_of_union in Hin as [[Hin%elem_of_singleton|Hin%elem_of_singleton]%elem_of_union|Hin%elem_of_singleton];
    [discriminate Hin| |].
  - exists ["docs"]. split; [left|]. apply (str_app_inj_l READ_FILE_MATCHING_PREFIX). exact Hin.
  - exists ["notes"; "open"]. split; [right; left|]. apply (str_app_inj_l READ_FILE_MATCHING_PREFIX). exact Hin.
Defined.
End Desk.

Import Desk.

Lemma evaluate_file_access_exact_witness :
  file_allowed 3 db (workspace_namespace workspace) (Some 1%N) None READ_FILE_MATCHING_PREFIX "docs/a.md".
Proof.
  destruct (evaluate_file_access_exact db canon 0 3 (workspace_namespace workspace) (Some 1%N) None "docs/a.md" "read"
    READ_FILE_MATCHING_PREFIX AclCache_init desk_wf desk_coherent eq_refl eq_refl (or_introl eq_refl)) as (b & Hb & Hiff & _).
  apply Hiff. assert (E : (evaluate_file_access 0 3 (workspace_namespace workspace) (Some 1%N) None "docs/a.md" "read"
                             AclCache_init).1 = Ok true) by (vm_compute; reflexivity).
  congruence.
Defined.

(** The second call of a tool, on the cache the first one left. *)
Definition used_cache : AclCache := (file_tool 0 3 caller workspace "notes/open/1" "read" followed_cache).2.

Lemma files_stay_in_their_directories_witness :
  (file_tool 0 3 caller workspace "docs/./x/b.md" "read" used_cache).1 = Ok tt /\
  ws_customer_id workspace = Some acme /\
  exists dir rest, dir ∈ [["docs"]; ["notes"; "open"]] /\ rest <> [] /\
    path_parts (posix_path "docs/./x/b.md") = (dir ++ rest)%list /\ ".." ∉ rest.
Proof.
  assert (Hdirs : Forall (fun dir => dir <> [] /\ Forall (fun d => plain_name d = true) dir) [["docs"]; ["notes"; "open"]])
    by (repeat constructor; discriminate).
  destruct (files_stay_in_their_directories db widest 0 3 caller workspace 1%N "notes/open/1" "read"
    READ_FILE_MATCHING_PREFIX [["docs"]; ["notes"; "open"]] followed_cache desk_wf desk_sound eq_refl eq_refl eq_refl desk_grants Hdirs)
    as [Hsound _].
  destruct (files_stay_in_their_directories db widest 0 3 caller workspace 1%N "docs/./x/b.md" "read"
    READ_FILE_MATCHING_PREFIX [["docs"]; ["notes"; "open"]] used_cache desk_wf Hsound eq_refl eq_refl eq_refl desk_grants Hdirs)
    as [_ Hdir].
  assert (Hok : (file_tool 0 3 caller workspace "docs/./x/b.md" "read" used_cache).1 = Ok tt) by (vm_compute; reflexivity).
  split; [exact Hok|]. exact (Hdir Hok).
Defined.

(** ** The two descriptors of one workspace *)

(** User 1 holds, on the subtree of names above the workspace, a role that reads the workspace and every file. *)
Definition subtree_db : AccessTables := {|
  at_members := [ mkGroupMembership 10 MemberUser 1 (Some acme) ];
  at_assignments := [ mkRoleAssignment 30 20 10 ScopeSubtree None None None (Some "workspaces.acme") ];
  at_roles := {[ 20%N := mkRole 20 "all files" {[ "workspace" := {["read"; "read_file_matching:**"]} ]} true None ]};
  at_groups := {[ 10%N := mkGroup 10 "staff" (Some acme) ]};
|}.

Definition subtree_guard (c : AclCache) : result unit workspace_error * AclCache :=
  guard_file (HL := table_loaders false subtree_db) 0 3 caller workspace "payroll.csv" "read" c.

Definition subtree_whole (c : AclCache) : result unit workspace_error * AclCache :=
  authorize_workspace_access (HL := table_loaders false subtree_db) 0 3 caller workspace "read" c.

Definition subtree_tool (c : AclCache) : result unit workspace_error * AclCache :=
  file_tool (HL := table_loaders false subtree_db) 0 3 caller workspace "payroll.csv" "read" c.

(** The file gate asks with a descriptor that has no name, so that a subtree grant opens no file: alone it refuses. After
    the check of the workspace as a whole, which asks with the name, it goes ahead, since the contributions cached under
    the same group and id are those of the named descriptor; and after a file gate that asked first, the check of the whole
    is refused. *)
Theorem named_check_widens_the_file_gate :
  (subtree_guard followed_cache).1 = Err NoMatchingGlob /\
  (subtree_tool followed_cache).1 = Ok tt /\
  (subtree_whole followed_cache).1 = Ok tt /\
  (subtree_whole (subtree_guard followed_cache).2).1 = Err EvaluatorDenied.
Proof. vm_compute. repeat split; reflexivity. Qed.
